(* ===== verification/_CoqProject ===== *)
-Q . S2P
Prelude.v
GoTime.v
GoHeap.v
GoSort.v
GoStrconv.v
GoUtf8.v
GoJson.v
GoJsonFacts.v
GoTimeFormat.v
Model.v
Codec.v
CodecFacts.v
LogRecord.v
Engine.v
EngineHeap.v
EngineSpec.v
EngineRefine.v
EngineTheorems.v
Wal.v
WalFacts.v
WalTheorems.v
Service.v
ServiceFacts.v
ServiceTrace.v
ServiceTheorems.v
Concurrent.v
ConcurrentFacts.v
ConcurrentOrder.v
ConcurrentRuns.v
ConcurrentTheorems.v
GoJsonStream.v
GoHttp.v
RecordSize.v
Api.v
ApiLaws.v
ApiTheorems.v
Requests.v
RequestsFacts.v
RequestsTheorems.v
ApiTypes.v
GoFmt.v
TestUtil.v
Client.v
ClientFacts.v
ClientTheorems.v
CheckoutFacts.v
CheckoutTheorems.v
Server.v
ServerTheorems.v
Sandbox.v
