(* ===== verification/Prelude.v ===== *)
(** * Queuemaxxing: a verification library for the durable message queue

    Queuemaxxing is a message queue in Go: messages have a priority and a delay,
    live in memory in two heaps, and are logged to a file before they are
    acknowledged; an HTTP server serves them and a command-line worker consumes
    them.  This library models the program as Rocq functions and proves what it
    guarantees.

    ** The program and its model

    The layers call each other downwards: [cmd/client] talks HTTP to
    [cmd/server], whose handlers ([pkg/api]) call the service ([pkg/service]),
    which owns an engine ([pkg/engine]) and a log ([pkg/storage]); [pkg/model]
    is the data they share.

    - [Model]: src/pkg/model/message.go, the types and their methods.
    - [Engine]: src/pkg/engine/queue.go.  A [FrankensteinQueue] is a store of
      items, the two heaps of pointers into it, and the index by ID; [Push],
      [Pop], [Peek], [Remove], [Snapshot] and the rest are functions on it, in
      [option] because an index out of range panics.  [EngineSpec] states the
      abstract queue (two sorted lists), [EngineHeap] and [EngineRefine] prove
      that each operation refines it, [EngineTheorems] what follows.
    - [LogRecord], [Wal]: src/pkg/storage/wal.go.  A [File] is the bytes written
      and the length of the prefix a crash keeps; an append may fail after any
      number of bytes, and so may its sync.  [LogCodec] is the interface to the
      JSON of a record, [LogCodecLaws] what the log needs of it, and
      [json_codec] the implementation.  [WalFacts] and [WalTheorems] hold the
      proofs.
    - [Service]: src/pkg/service/queue_service.go.  A service is an engine, a
      log, a counter and a flag; clock, random bytes and file system are
      arguments of each call.  [ServiceFacts] has the invariant that relates
      memory and log and what each call does to it, [ServiceTrace] the step
      relation of runs with calls, failures, crashes and restarts, and
      [ServiceTheorems] the guarantees.
    - [Concurrent]: the same file under concurrent calls.  A state holds the
      service, its readers-writer lock and a frame per call; [exec] is one step
      of one call, and a schedule any sequence of invocations and steps.
      [ConcurrentFacts] relates every schedule to the calls of [Service] in a row
      (the lock invariant and the linearization), [ConcurrentOrder] extends this
      to the history the callers see, [ConcurrentRuns] accounts for the messages
      at every step and for the steps that are left, [ConcurrentTheorems] has
      the guarantees.
    - [Api]: src/pkg/api/handlers.go.  A handler is a function of a request and
      of the state behind the interface [Queue] ([Class Queue], with the service
      as an instance).  [ApiLaws] states what the handlers need of a queue
      ([Class QueueLaws]) and proves it for the service; [ApiTheorems] is proved
      against that interface, and so is [ApiTypes], which has the schemas of the
      responses.  [RecordSize] bounds the log line of a request.
    - [Requests]: the same file with a goroutine per request, and the [Close] of
      src/cmd/server/main.go next to them.  A handler is cut at its one call of
      the service into a [plan]; a [Process] is a state of [Concurrent] and the
      jobs around its calls.  [RequestsFacts] proves that plans are the handlers
      and turns an order of the calls into an order of the requests;
      [RequestsTheorems] has the guarantees.
    - [Client]: src/cmd/client/main.go, the whole command: prediction, worker
      loop, HTTP calls ([Class HttpClient]), explanations and summary.  Jobs are
      shared by pointer and live in a store.  [ClientFacts] compares the
      simulated drain with the engine; [ClientTheorems] also runs the client
      against the served API.
    - [CheckoutFacts] and [CheckoutTheorems] put the parts together: the client,
      over HTTP, against the handlers on the service and its log, each call
      described by the messages held and the delivery order, then a whole run.
    - [Server]: src/cmd/server/main.go, configuration and the life of a process;
      [ServerTheorems].
    - [TestUtil]: src/pkg/testutil/run.go, the reporter that reprints the output
      of the package tests, and [Sandbox]: src/sandbox.go, a demonstration of the
      engine.  Each file has the model and its theorems.

    What the program uses of Go is modelled by its own files: [GoTime] (instants
    with an optional monotonic reading, durations), [GoTimeFormat] (RFC 3339),
    [GoHeap] ([container/heap], with its invariant), [GoSort], [GoStrconv],
    [GoUtf8], [GoJson] (the scanner of [encoding/json] as a state machine, and
    the printer), [GoJsonFacts] (round trips), [GoJsonStream] ([json.Decoder] and
    [http.MaxBytesReader]), [Codec] and [CodecFacts] (the structs as JSON),
    [GoHttp] (query strings and the multiplexer), [GoFmt] (texts, durations and
    binary64 numbers as the commands print them).

    ** What the theorems show

    - Durability ([ServiceTheorems], [WalTheorems], [ServerTheorems]): in any run
      in which the system carries out each append or refuses it whole, restarts
      included, the acknowledged messages are those handed out together with those
      a restart would hold; a crash at any byte of a call leaves the state before
      or after it; a restart keeps the delivery order.  A write that fails half
      way, a sync that fails and a process that goes on behind half a record are
      outside this scope: the theorems on the limits of the code say what they do.
    - Order ([EngineTheorems], [ServiceTheorems]): the engine refines the sorted
      queue; a dequeue hands out the first due message and nothing early; no
      message is lost or handed out twice.
    - Interface ([ApiTheorems], [ClientTheorems]): no request makes a handler
      panic; what each body and limit is answered; a request that is accepted can
      be recovered; the client reads back what the queue did.
    - Types ([ApiTypes]): every response has the content type and the JSON schema
      that its path and its status promise.
    - Concurrency ([ConcurrentTheorems], [RequestsTheorems]): the calls of every
      schedule take effect one after the other between invocation and answer,
      and so do the HTTP requests around them, which is why [Api], [Client] and
      [Server] are modelled with whole calls and whole requests; over any number
      of processes that serve in parallel, each killed between two steps and the
      last one also at any byte of a record it writes, the messages created and
      not delivered are those held, and each answer says what its request did; no
      call and no request waits for ever.
    - Prediction ([ClientTheorems]): the simulation ends, and it is the engine's
      order for a worker with the simulated clock; the loop ends at its deadline.
    - The whole program ([CheckoutTheorems]): when nothing fails and the clocks
      keep a timetable, the client's run predicts, receives and reports its five
      jobs in the engine's order and exits without an error, in both modes.
    - Limits of the code: a torn tail swallows the next record, a record longer
      than the scanner's buffer blocks recovery, a failed sync leaves a ghost or
      loses a message, a stepped clock hides a due message, numbers restart from
      one, a HEAD request consumes a message, the prediction overlooks
      truncation and the ticks of the worker, overlapping snapshots can list a
      message as ready that is not due at the instant they state, and a line of
      64 KiB ends the report of the tests.
    - Tools ([TestUtil], [Sandbox]): the reporter shows and counts every result
      and keeps the exit code; the demonstration prints the delay at work.

    ** Conventions

    Integers are [Z] with their wrap-around written where the code computes
    ([wrap_i64], [wrap_u64]).  A panic is [None]; an error is a value of
    [result] or [option error].  Loops that are not structural carry fuel:
    [promote_loop] one round per delayed item, the digits of an integer one per
    bit, [drain_loop] two per message and one to stop; each is proved to be
    enough.  Instants of one process come from one clock that is not stepped
    ([coherent]) and lie between 1885 and 2146 ([plausible]).

    ** Not modelled

    The mutexes of the engine and of the log: both are leaves, held within one
    call, so such a call is one step of [Concurrent].  The shared file of two
    processes.  Sockets, signals, timeouts, logging, the header Cache-Control, the
    text of errors of [encoding/json], the alignment of the client's table by
    [text/tabwriter].  [strconv.Quote], the bytes of the console page, and the
    upper and lower case of runes above U+007F are parameters.  The console page
    itself (HTML and JavaScript) is left out. *)

From stdpp Require Export prelude gmap strings list sorting.
From Stdlib Require Export ZArith Lia.

#[export] Set Default Goal Selector "!".

(** ** Machine integers

    A Go integer is a [Z] together with the wrap-around of its width, applied
    where the code computes a sum, a difference or a product. *)

Definition wrap_u64 (x : Z) : Z := (x mod 2 ^ 64)%Z.
Definition wrap_i64 (x : Z) : Z := ((x + 2 ^ 63) mod 2 ^ 64 - 2 ^ 63)%Z.

Definition in_u64 (x : Z) : Prop := (0 <= x < 2 ^ 64)%Z.
Definition in_i64 (x : Z) : Prop := (- 2 ^ 63 <= x < 2 ^ 63)%Z.

(** ** Panics

    A Go expression that can panic (an index out of range, a nil dereference)
    is an [option]: [None] is the panic.  stdpp's [x ← e; k] sequences them. *)

(** [l[i], l[j] = l[j], l[i]]: both reads happen before both writes. *)
Definition list_swap {A} (i j : nat) (l : list A) : option (list A) :=
  x ← l !! i; y ← l !! j; Some (<[j := x]> (<[i := y]> l)).

(** The hint databases of the development: [go_arith] rewrites machine
    arithmetic, [go_list] the list facts below. *)
Create HintDb go_arith.
Create HintDb go_list.
Create HintDb go_json.
Create Rewrite HintDb go_bytes.

(** ** Errors

    A Go error value.  [ErrVar] is a package-level error variable, which is
    equal only to itself; [ErrNew] an error made on the spot with a text;
    [ErrQuoted] one whose text quotes a string with [%q]; [ErrWrap] the result
    of [fmt.Errorf] with a context and [%w]; [ErrWrapAfter] one with a text
    behind it; [ErrJoin] the result of [errors.Join] on two errors. *)
Inductive error :=
  | ErrVar (name : string)
  | ErrNew (text : string)
  | ErrQuoted (before quoted after : string)
  | ErrWrap (context : string) (e : error)
  | ErrWrapQuoted (context quoted : string) (e : error)
  | ErrWrapAfter (e : error) (after : string)
  | ErrJoin (e1 e2 : error).

#[export] Instance error_eq_dec : EqDecision error.
Proof. solve_decision. Defined.

(** [errors.Is(err, target)] for a target that is a package-level variable. *)
Fixpoint errors_Is (e : error) (target : string) : bool :=
  match e with
  | ErrVar name => bool_decide (name = target)
  | ErrWrap _ e | ErrWrapQuoted _ _ e | ErrWrapAfter e _ => errors_Is e target
  | ErrJoin e1 e2 => errors_Is e1 target || errors_Is e2 target
  | ErrNew _ | ErrQuoted _ _ _ => false
  end.

(** The pair [(value, error)] a fallible Go function returns. *)
Inductive result (A : Type) :=
  | Ok (a : A)
  | Err (e : error).
Global Arguments Ok {A} a.
Global Arguments Err {A} e.

Declare Scope go_scope.
Delimit Scope go_scope with go.

(** [if err != nil { return err }] after a call. *)
Notation "'try' x ':=' e 'in' k" :=
  (match e with Ok x => k | Err err => Err err end)
  (at level 10, x pattern, e at level 100, k at level 200) : go_scope.

(** ** Lemmas on machine integers *)

Lemma wrap_u64_small x : in_u64 x → wrap_u64 x = x.
Proof. intros H. by apply Z.mod_small. Qed.

Lemma wrap_u64_range x : in_u64 (wrap_u64 x).
Proof. apply Z.mod_pos_bound. lia. Qed.

Lemma wrap_i64_small x : in_i64 x → wrap_i64 x = x.
Proof. unfold in_i64, wrap_i64. intros H. rewrite Z.mod_small; lia. Qed.

Lemma wrap_i64_range x : in_i64 (wrap_i64 x).
Proof.
  unfold in_i64, wrap_i64.
  pose proof (Z.mod_pos_bound (x + 2 ^ 63) (2 ^ 64)). lia.
Qed.

#[export] Hint Resolve wrap_u64_range wrap_i64_range : go_arith.

(** ** Lemmas on exchanging two elements of a list *)

Section list_swap.
Context {A : Type}.
Implicit Types l : list A.

Lemma list_swap_is_Some i j l :
  i < length l → j < length l → is_Some (list_swap i j l).
Proof.
  intros [x Hx]%lookup_lt_is_Some [y Hy]%lookup_lt_is_Some.
  unfold list_swap. rewrite Hx, Hy. simpl. eauto.
Qed.

Lemma list_swap_length i j l l' : list_swap i j l = Some l' → length l' = length l.
Proof.
  unfold list_swap. destruct (l !! i), (l !! j); simpl; intros; simplify_eq.
  by rewrite !length_insert.
Qed.

Lemma list_swap_bounds i j l l' :
  list_swap i j l = Some l' → i < length l ∧ j < length l.
Proof.
  unfold list_swap. destruct (l !! i) eqn:Hi, (l !! j) eqn:Hj; simpl; intros; simplify_eq.
  split; eapply lookup_lt_Some; eauto.
Qed.

Lemma list_swap_lookup_l i j l l' :
  list_swap i j l = Some l' → l' !! i = l !! j.
Proof.
  intros Hs. pose proof (list_swap_bounds _ _ _ _ Hs) as [Hi Hj].
  unfold list_swap in Hs. destruct (l !! i) eqn:Ei, (l !! j) eqn:Ej; simplify_eq/=.
  destruct (decide (i = j)) as [->|Hne].
  - rewrite list_lookup_insert_eq by (by rewrite length_insert). congruence.
  - rewrite list_lookup_insert_ne by done. by rewrite list_lookup_insert_eq.
Qed.

Lemma list_swap_lookup_r i j l l' :
  list_swap i j l = Some l' → l' !! j = l !! i.
Proof.
  intros Hs. pose proof (list_swap_bounds _ _ _ _ Hs) as [Hi Hj].
  unfold list_swap in Hs. destruct (l !! i) eqn:Ei, (l !! j) eqn:Ej; simplify_eq/=.
  by rewrite list_lookup_insert_eq by (by rewrite length_insert).
Qed.

Lemma list_swap_lookup_ne i j k l l' :
  list_swap i j l = Some l' → k ≠ i → k ≠ j → l' !! k = l !! k.
Proof.
  unfold list_swap. destruct (l !! i), (l !! j); simpl; intros; simplify_eq.
  by rewrite !list_lookup_insert_ne by done.
Qed.

Lemma list_swap_perm i j l l' : list_swap i j l = Some l' → l' ≡ₚ l.
Proof.
  intros Hs. pose proof (list_swap_length _ _ _ _ Hs) as Hlen.
  pose proof (list_swap_bounds _ _ _ _ Hs) as [Hi Hj].
  apply Permutation_inj. split; [done|].
  exists (λ k, if decide (k = i) then j else if decide (k = j) then i else k).
  split.
  - intros a b. repeat case_decide; congruence.
  - intros k. repeat case_decide; subst.
    + by rewrite (list_swap_lookup_l _ _ _ _ Hs).
    + by rewrite (list_swap_lookup_r _ _ _ _ Hs).
    + by rewrite (list_swap_lookup_ne _ _ _ _ _ Hs).
Qed.
End list_swap.

#[export] Hint Resolve list_swap_perm list_swap_length : go_list.

(** ** Lemmas on filters *)

Section filter.
Context {A : Type} (P : A → Prop) `{∀ x, Decision (P x)}.
Implicit Types l : list A.

Lemma filter_none l : (∀ x, x ∈ l → ¬ P x) → filter P l = [].
Proof.
  induction l as [|x l IH]; intros Hl; [done|].
  rewrite filter_cons_False by set_solver. apply IH. set_solver.
Qed.

Lemma filter_id l : (∀ x, x ∈ l → P x) → filter P l = l.
Proof.
  induction l as [|x l IH]; intros Hl; [done|].
  rewrite filter_cons_True by set_solver. f_equal. apply IH. set_solver.
Qed.

Lemma filter_nil_complement l : filter P l = [] → filter (λ x, ¬ P x) l = l.
Proof.
  induction l as [|x l IH]; [done|]. rewrite !filter_cons.
  repeat case_decide; try done. intros ?. by rewrite IH.
Qed.
End filter.

Lemma forallb_Forall {A} (f : A → bool) l : forallb f l = true ↔ Forall (λ x, f x = true) l.
Proof.
  induction l as [|x l IH]; simpl; [by split; [constructor|]|].
  by rewrite andb_true_iff, Forall_cons, IH.
Qed.

Lemma filter_fmap {A B} (f : A → B) (P : B → Prop) `{∀ x, Decision (P x)} (l : list A) :
  filter P (f <$> l) = f <$> filter (λ x, P (f x)) l.
Proof. induction l as [|x l IH]; [done|]. csimpl. rewrite !filter_cons. case_decide; csimpl; by rewrite IH. Qed.

Lemma filter_ext_in {A} (P Q : A → Prop) `{∀ x, Decision (P x)} `{∀ x, Decision (Q x)} (l : list A) :
  (∀ x, x ∈ l → P x ↔ Q x) → filter P l = filter Q l.
Proof.
  induction l as [|x l IH]; intros Hl; [done|]. rewrite !filter_cons, IH by (intros; apply Hl; by right).
  pose proof (Hl x ltac:(by left)). repeat case_decide; naive_solver.
Qed.
