(* ===== verification/GoTime.v ===== *)
(** * Instants and durations of Go's [time] package

    The part of [time] the program uses: a [time.Time] is an instant of the
    wall clock, optionally paired with a reading of the process's monotonic
    clock, and the zone offset it prints in.  [time.Now] yields both clocks;
    an instant read back from JSON has only the wall clock.  Comparisons use
    the monotonic readings when both sides have one.  A [time.Duration] is an
    int64 count of nanoseconds. *)

From S2P Require Import Prelude.

Local Open Scope Z_scope.

(** Nanoseconds per second, and the offset in seconds between the Unix epoch
    and the epoch (January 1, year 1) that [time.Time] counts from. *)
Definition Second : Z := 1000000000.
Definition Millisecond : Z := 1000000.
Definition unixToInternal : Z := 62135596800.

(** Seconds from the internal epoch to 1885, the base of the 33-bit packed
    field that an instant with a monotonic reading keeps its seconds in. *)
Definition wallToInternal : Z := 59453308800.

Record Time := MkTime {
  t_wall : Z;          (** nanoseconds since the Unix epoch *)
  t_mono : option Z;   (** monotonic reading in nanoseconds, when there is one *)
  t_zone : Z           (** seconds east of UTC the instant prints in *)
}.

(** [time.Time{}]: January 1, year 1, 00:00:00 UTC. *)
Definition zero_time : Time := MkTime (- unixToInternal * Second) None 0.

Definition UTC (t : Time) : Time := MkTime (t_wall t) (t_mono t) 0.

Definition Before (t u : Time) : bool :=
  match t_mono t, t_mono u with
  | Some a, Some b => a <? b
  | _, _ => t_wall t <? t_wall u
  end.

Definition After (t u : Time) : bool := Before u t.

Definition Equal (t u : Time) : bool :=
  match t_mono t, t_mono u with
  | Some a, Some b => a =? b
  | _, _ => t_wall t =? t_wall u
  end.

(** Seconds since the internal epoch, saturated to the int64 range the way
    [addSec] saturates an overflowing sum. *)
Definition saturate_sec (s : Z) : Z :=
  if 2 ^ 63 - 1 <? s then 2 ^ 63 - 1
  else if s <? - 2 ^ 63 then - (2 ^ 63 - 1)
  else s.

(** [t.Add(d)].  The sum of the wall clock is exact up to the saturation of
    its seconds; the monotonic reading is dropped when the seconds leave the
    packed field or when its own int64 sum overflows. *)
Definition Add (t : Time) (d : Z) : Time :=
  let w := t_wall t + d in
  let sec := w / Second + unixToInternal in
  let w' := (saturate_sec sec - unixToInternal) * Second + w mod Second in
  match t_mono t with
  | Some m =>
      let packed := sec - wallToInternal in
      if (0 <=? packed) && (packed <=? 2 ^ 33 - 1) then
        let te := wrap_i64 (m + d) in
        if ((d <? 0) && (m <? te)) || ((0 <? d) && (te <? m))
        then MkTime w None (t_zone t)
        else MkTime w (Some te) (t_zone t)
      else MkTime w' None (t_zone t)
  | None => MkTime w' None (t_zone t)
  end.

(** ** Coherent instants

    Two clocks agree, [off] apart, on every instant whose readings differ by
    exactly [off]: this is what reading one clock that is never stepped gives.
    On coherent instants every comparison is a comparison of wall clocks. *)

Definition coherent (off : Z) (t : Time) : Prop :=
  match t_mono t with
  | Some m => t_wall t = m + off
  | None => True
  end.

#[export] Instance Time_eq_dec : EqDecision Time.
Proof. solve_decision. Defined.

#[export] Instance coherent_dec off t : Decision (coherent off t).
Proof. unfold coherent. destruct (t_mono t); apply _. Defined.

(** The instants the packed representation can hold with room for ten years
    of delay: years 1885 to 2146. *)
Definition plausible (t : Time) : Prop :=
  (wallToInternal - unixToInternal) * Second <= t_wall t < 5573414400 * Second
  ∧ match t_mono t with Some m => 0 <= m < 2 ^ 62 | None => True end.

#[export] Instance plausible_dec t : Decision (plausible t).
Proof. unfold plausible. destruct (t_mono t); apply _. Defined.

Lemma Before_coherent off t u :
  coherent off t → coherent off u → Before t u = (t_wall t <? t_wall u).
Proof.
  unfold coherent, Before. destruct (t_mono t), (t_mono u); intros; try done.
  destruct (Z.ltb_spec z z0), (Z.ltb_spec (t_wall t) (t_wall u)); lia.
Qed.

Lemma Equal_coherent off t u :
  coherent off t → coherent off u → Equal t u = (t_wall t =? t_wall u).
Proof.
  unfold coherent, Equal. destruct (t_mono t), (t_mono u); intros; try done.
  destruct (Z.eqb_spec z z0), (Z.eqb_spec (t_wall t) (t_wall u)); lia.
Qed.

Lemma UTC_coherent off t : coherent off (UTC t) ↔ coherent off t.
Proof. done. Qed.

Lemma Before_UTC t u : Before (UTC t) u = Before t u.
Proof. done. Qed.

(** A plausible instant plus a delay of at most ten years and a half neither
    saturates nor loses its monotonic reading. *)
Lemma Add_plausible t d :
  plausible t → 0 <= d <= 331128000 * Second →
  Add t d = MkTime (t_wall t + d) ((λ m, m + d) <$> t_mono t) (t_zone t).
Proof.
  unfold plausible, Add, saturate_sec, Second, unixToInternal, wallToInternal.
  intros [Hw Hm] Hd. set (w := t_wall t + d).
  assert (2682288000 * -1 <= w / 1000000000 < 5904542400 + 1) as Hq.
  { subst w. split; [apply Z.div_le_lower_bound|apply Z.div_lt_upper_bound]; lia. }
  pose proof (Z.div_mod w 1000000000 ltac:(lia)) as Hdm.
  destruct (Z.ltb_spec (2 ^ 63 - 1) (w / 1000000000 + 62135596800)); [lia|].
  destruct (Z.ltb_spec (w / 1000000000 + 62135596800) (- 2 ^ 63)); [lia|].
  replace ((w / 1000000000 + 62135596800 - 62135596800) * 1000000000 + w mod 1000000000)
    with w by lia.
  destruct (t_mono t) as [m|]; [|done]. simpl.
  rewrite (wrap_i64_small (m + d)) by (unfold in_i64; lia).
  repeat match goal with
  | |- context [?a <=? ?b] => destruct (Z.leb_spec a b); simpl; try lia
  | |- context [?a <? ?b] => destruct (Z.ltb_spec a b); simpl; try lia
  end; done.
Qed.

Lemma Add_coherent off t d :
  plausible t → 0 <= d <= 331128000 * Second →
  coherent off t → coherent off (Add t d).
Proof.
  intros Hp Hd. rewrite Add_plausible by done. unfold coherent.
  destruct (t_mono t); simpl; lia.
Qed.
