(* ===== verification/GoHeap.v ===== *)
(** * Go's [container/heap]

    The algorithms of the standard library's [container/heap] over its
    [heap.Interface], and their correctness.  [HeapInterface] is the Go
    interface: the client supplies [Len], [Less], [Swap], [Push] and [Pop]
    (each may panic).  [HeapLaws] is what a client promises: that its methods
    act on a list of elements under a fixed comparison.  The theorems at the
    end of the file are proved against those laws only, so that each heap of
    the engine inherits them by discharging [HeapLaws]. *)

From S2P Require Import Prelude.

Class HeapInterface (S X : Type) := {
  h_len : S → nat;
  h_less : S → nat → nat → option bool;
  h_swap : S → nat → nat → option S;
  h_push : S → X → option S;
  h_pop : S → option (X * S)
}.
Global Hint Mode HeapInterface ! - : typeclass_instances.

Module Heap.
Section algorithms.
Context {S X : Type} {HI : HeapInterface S X}.

(** [func up(h Interface, j int)]: one unit of fuel per round of the loop. *)
Fixpoint up (fuel : nat) (s : S) (j : nat) : option S :=
  match fuel with
  | O => None
  | Datatypes.S fuel =>
      let i := (j - 1) / 2 in
      if decide (i = j) then Some s
      else
        b ← h_less s j i;
        if negb b then Some s
        else s' ← h_swap s i j; up fuel s' i
  end.

(** The loop of [func down(h Interface, i0, n int) bool]; it returns the
    position where the element came to rest. *)
Fixpoint down_loop (fuel : nat) (s : S) (i n : nat) : option (S * nat) :=
  match fuel with
  | O => None
  | Datatypes.S fuel =>
      let j1 := 2 * i + 1 in
      if decide (n ≤ j1) then Some (s, i)
      else
        j ← (if decide (j1 + 1 < n)
             then b ← h_less s (j1 + 1) j1; Some (if b : bool then j1 + 1 else j1)
             else Some j1);
        b ← h_less s j i;
        if negb b then Some (s, i)
        else s' ← h_swap s i j; down_loop fuel s' j n
  end.

Definition down (s : S) (i0 n : nat) : option (S * bool) :=
  '(s', i) ← down_loop (Datatypes.S n) s i0 n;
  Some (s', bool_decide (i0 < i)).

(** [heap.Push], [heap.Pop] and [heap.Remove]. *)
Definition Push (s : S) (x : X) : option S :=
  s' ← h_push s x; up (h_len s') s' (h_len s' - 1).

Definition Pop (s : S) : option (X * S) :=
  let n := h_len s - 1 in
  s1 ← h_swap s 0 n;
  '(s2, _) ← down s1 0 n;
  h_pop s2.

Definition Remove (s : S) (i : nat) : option (X * S) :=
  let n := h_len s - 1 in
  s' ← (if decide (n = i) then Some s
        else
          s1 ← h_swap s i n;
          '(s2, moved) ← down s1 i n;
          if moved : bool then Some s2 else up (Datatypes.S i) s2 i);
  h_pop s'.
End algorithms.
End Heap.

(** ** Heap-ordered lists

    [le x y] holds when [y] does not have to come before [x].  [weak_order lt
    P] says that [lt] is a strict weak order among the elements satisfying
    [P], which is all a comparator has to be. *)

Definition le {X} (lt : X → X → bool) (x y : X) : Prop := lt y x = false.

Record weak_order {X} (lt : X → X → bool) (P : X → Prop) : Prop := {
  wo_asym x y : P x → P y → lt x y = true → le lt x y;
  wo_trans x y z : P x → P y → P z → le lt x y → le lt y z → le lt x z
}.

(** [pair_ok lt l p c]: the elements at the two positions, if any, are in
    order; [ordered lt l n] asks it of every child below [n] and its parent. *)
Definition pair_ok {X} (lt : X → X → bool) (l : list X) (p c : nat) : Prop :=
  ∀ x y, l !! p = Some x → l !! c = Some y → le lt x y.

Definition parent (c : nat) : nat := (c - 1) / 2.

Definition ordered {X} (lt : X → X → bool) (l : list X) (n : nat) : Prop :=
  ∀ c, 0 < c → c < n → pair_ok lt l (parent c) c.

(** The interface on plain lists: what every heap of the program refines. *)
Definition list_heap {X} (lt : X → X → bool) : HeapInterface (list X) X := {|
  h_len := length;
  h_less l i j := x ← l !! i; y ← l !! j; Some (lt x y);
  h_swap l i j := list_swap i j l;
  h_push l x := Some (l ++ [x]);
  h_pop l := x ← last l; Some (x, take (length l - 1) l)
|}.

(** ** The laws of an implementation

    [inv] is the representation invariant, [view] the list of elements in
    heap-array order, [lt] the comparison and [can_push] the precondition of
    pushing an element. *)

Class HeapLaws {S X} (HI : HeapInterface S X) (lt : X → X → bool)
    (inv : S → Prop) (view : S → list X) (can_push : S → X → Prop) : Prop := {
  law_len s : inv s → h_len s = length (view s);
  law_less s i j x y :
    inv s → view s !! i = Some x → view s !! j = Some y →
    h_less s i j = Some (lt x y);
  law_swap s i j l :
    inv s → list_swap i j (view s) = Some l →
    ∃ s', h_swap s i j = Some s' ∧ inv s' ∧ view s' = l;
  law_push s x :
    inv s → can_push s x →
    ∃ s', h_push s x = Some s' ∧ inv s' ∧ view s' = view s ++ [x];
  law_pop s l x :
    inv s → view s = l ++ [x] →
    ∃ s', h_pop s = Some (x, s') ∧ inv s' ∧ view s' = l
}.

(** ** Positions *)

Lemma parent_lt c : 0 < c → parent c < c.
Proof. intros. unfold parent. apply Nat.Div0.div_lt_upper_bound. lia. Qed.

Lemma parent_child_iff p c : 0 < c → parent c = p ↔ c = 2 * p + 1 ∨ c = 2 * p + 2.
Proof.
  intros Hc. unfold parent. pose proof (Nat.div_mod_eq (c - 1) 2).
  pose proof (Nat.mod_upper_bound (c - 1) 2). lia.
Qed.

Lemma parent_fix j : parent j = j ↔ j = 0.
Proof.
  destruct j; [done|]. split; [|done].
  pose proof (parent_lt (S j)). lia.
Qed.

(** ** Correctness on lists *)

Section lists.
Context {X : Type} (lt : X → X → bool) (P : X → Prop).
Hypothesis wo : weak_order lt P.
#[local] Instance list_heap_lt : HeapInterface (list X) X := list_heap lt.
Implicit Types l : list X.

Abbreviation le := (le lt).
Abbreviation ok := (pair_ok lt).

Lemma le_total x y : P x → P y → le x y ∨ le y x.
Proof.
  intros Hx Hy. unfold GoHeap.le. destruct (lt x y) eqn:E; [|by right].
  left. by apply (wo_asym _ _ wo).
Qed.

Lemma le_refl x : P x → le x x.
Proof. intros Hx. by destruct (le_total x x). Qed.

Lemma lt_le x y : P x → P y → lt x y = true → le x y.
Proof. apply (wo_asym _ _ wo). Qed.

Lemma lookup_P l i x : Forall P l → l !! i = Some x → P x.
Proof. intros HF Hi. by eapply Forall_lookup_1. Qed.

Lemma pair_ok_trans l a b c :
  Forall P l → b < length l → ok l a b → ok l b c → ok l a c.
Proof.
  intros HF [y Hy]%lookup_lt_is_Some Hab Hbc x z Hx Hz.
  apply (wo_trans _ _ wo x y z); eauto using lookup_P.
Qed.

Lemma swap_Forall l l' i j : Forall P l → list_swap i j l = Some l' → Forall P l'.
Proof. intros HF Hs%list_swap_perm. by rewrite Hs. Qed.

(** A heap-ordered list has a least element at its root. *)
Lemma ordered_root l n i :
  Forall P l → n ≤ length l → ordered lt l n → i < n → ok l 0 i.
Proof.
  intros HF Hn Ho. induction (lt_wf i) as [i _ IH]. intros Hi.
  destruct (decide (i = 0)) as [->|Hne].
  - intros x y Hx Hy. simplify_eq. by apply le_refl; eapply lookup_P.
  - pose proof (parent_lt i ltac:(lia)).
    eapply (pair_ok_trans _ _ (parent i)); [done|lia|apply IH; lia|apply Ho; lia].
Qed.

(** The state of [up] at position [j]: everything is in order except possibly
    [j] with its parent, and the children of [j] are in order with [j]'s
    parent. *)
Definition up_pre l (j n : nat) : Prop :=
  (∀ c, 0 < c → c < n → c ≠ j → ok l (parent c) c) ∧
  (0 < j → ∀ c, 0 < c → c < n → parent c = j → ok l (parent j) c).

Lemma up_step l l' j n :
  Forall P l → n ≤ length l → j < n → 0 < j →
  up_pre l j n →
  (∃ x y, l !! j = Some x ∧ l !! parent j = Some y ∧ lt x y = true) →
  list_swap (parent j) j l = Some l' →
  up_pre l' (parent j) n.
Proof.
  intros HF Hn Hj Hj0 [Hok Hgrand] (x & y & Hx & Hy & Hlt) Hs.
  pose proof (parent_lt j Hj0) as Hpj.
  pose proof (list_swap_lookup_l _ _ _ _ Hs) as Hl.
  pose proof (list_swap_lookup_r _ _ _ _ Hs) as Hr.
  pose proof (λ k, list_swap_lookup_ne _ _ k _ _ Hs) as Hne.
  assert (P x) by by eapply lookup_P. assert (P y) by by eapply lookup_P.
  assert (le x y) by by apply lt_le.
  split.
  - intros c Hc0 Hcn Hcp a b Ha Hb. destruct (decide (c = j)) as [->|Hcj].
    + rewrite Hr in Hb. rewrite Hl in Ha. by simplify_eq.
    + rewrite (Hne c) in Hb by done. destruct (decide (parent c = j)) as [E|E].
      * rewrite E, Hr in Ha. by apply (Hgrand Hj0 c Hc0 Hcn E).
      * destruct (decide (parent c = parent j)) as [E'|E'].
        -- rewrite E', Hl in Ha. simplify_eq.
           eapply (wo_trans _ _ wo _ y); eauto using lookup_P.
           apply (Hok c Hc0 Hcn Hcj); [by rewrite E'|done].
        -- rewrite (Hne (parent c)) in Ha by done. by apply (Hok c Hc0 Hcn Hcj).
  - intros Hp0 c Hc0 Hcn Hcp a b Ha Hb.
    pose proof (parent_lt (parent j) Hp0).
    rewrite (Hne (parent (parent j))) in Ha by lia.
    assert (le a y) by (apply (Hok (parent j)); [lia..|done|done]).
    destruct (decide (c = j)) as [->|Hcj].
    + rewrite Hr in Hb. by simplify_eq.
    + rewrite (Hne c) in Hb; [|rewrite <- Hcp; pose proof (parent_lt c Hc0); lia|done].
      eapply (wo_trans _ _ wo _ y); eauto using lookup_P.
      apply (Hok c Hc0 Hcn Hcj); [by rewrite Hcp|done].
Qed.

Lemma up_list fuel l j n :
  Forall P l → n ≤ length l → j < n → j < fuel → up_pre l j n →
  ∃ l', Heap.up fuel l j = Some l' ∧ l' ≡ₚ l ∧ ordered lt l' n ∧
    ∀ k, j < k → l' !! k = l !! k.
Proof.
  revert l j. induction fuel as [|fuel IH]; intros l j HF Hn Hj Hf Hpre; [lia|].
  cbn [Heap.up]. change ((j - 1) / 2) with (parent j). cbv zeta.
  case_decide as Hp.
  { apply parent_fix in Hp as ->. exists l. split_and!; try done.
    intros c Hc Hcn. apply Hpre; lia. }
  assert (0 < j) as Hj0 by (destruct j; [by destruct Hp|lia]).
  pose proof (parent_lt j Hj0).
  destruct (lookup_lt_is_Some_2 l j) as [x Hx]; [lia|].
  destruct (lookup_lt_is_Some_2 l (parent j)) as [y Hy]; [lia|].
  simpl. rewrite Hx. simpl. rewrite Hy. simpl. destruct (lt x y) eqn:Hlt; simpl.
  - destruct (list_swap_is_Some (parent j) j l) as [l1 Hs]; [lia..|]. rewrite Hs. simpl.
    destruct (IH l1 (parent j)) as (l' & Hup & Hperm & Hord & Hout).
    + by eapply swap_Forall.
    + by rewrite (list_swap_length _ _ _ _ Hs).
    + lia.
    + lia.
    + eapply up_step; eauto with lia.
    + exists l'. split_and!; try done.
      * by rewrite Hperm, (list_swap_perm _ _ _ _ Hs).
      * intros k Hk. rewrite Hout by lia. apply (list_swap_lookup_ne _ _ _ _ _ Hs); lia.
  - exists l. split_and!; try done. intros c Hc Hcn.
    destruct (decide (c = j)) as [->|]; [|by apply Hpre].
    intros a b Ha Hb. by simplify_eq.
Qed.

(** The state of [down] at position [i]: everything is in order except [i]
    with its parent and [i] with its children, and the children of [i] are in
    order with [i]'s parent. *)
Definition down_pre l (i n : nat) : Prop :=
  (∀ c, 0 < c → c < n → c ≠ i → parent c ≠ i → ok l (parent c) c) ∧
  (0 < i → ∀ c, 0 < c → c < n → parent c = i → ok l (parent i) c).

(** What [down] leaves when it stops at [i'] having started at [i]. *)
Definition down_post l' (i i' n : nat) : Prop :=
  (∀ c, 0 < c → c < n → c ≠ i → ok l' (parent c) c) ∧
  (i < i' → 0 < i → ok l' (parent i) i).

(** The child [down] compares with: the smaller of the two. *)
Definition smaller_child l (i j n : nat) : Prop :=
  j < n ∧ 0 < j ∧ parent j = i ∧
  ∀ c, 0 < c → c < n → parent c = i → ok l j c.

Lemma down_stop l i j n :
  Forall P l → n ≤ length l → smaller_child l i j n → down_pre l i n →
  ok l i j → down_post l i i n.
Proof.
  intros HF Hn (Hj & Hj0 & Hpj & Hmin) [Hok _] Hij. split; [|lia].
  intros c Hc0 Hcn Hci. destruct (decide (parent c = i)) as [E|E]; [|by apply Hok].
  rewrite E. eapply (pair_ok_trans _ _ j); [done|lia|done|by apply Hmin].
Qed.

Lemma down_step l l' i j n :
  Forall P l → n ≤ length l → smaller_child l i j n → down_pre l i n →
  list_swap i j l = Some l' → down_pre l' j n.
Proof.
  intros HF Hn (Hj & Hj0 & Hpj & Hmin) [Hok Hgrand] Hs.
  pose proof (parent_lt j Hj0) as Hij.
  pose proof (list_swap_lookup_l _ _ _ _ Hs) as Hl.
  pose proof (list_swap_lookup_r _ _ _ _ Hs) as Hr.
  pose proof (λ k, list_swap_lookup_ne _ _ k _ _ Hs) as Hne.
  split.
  - intros c Hc0 Hcn Hcj Hpc a b Ha Hb. pose proof (parent_lt c Hc0).
    destruct (decide (c = i)) as [->|Hci].
    + rewrite Hl in Hb. rewrite (Hne (parent i)) in Ha by lia.
      by apply (Hgrand Hc0 j Hj0 Hj Hpj).
    + rewrite (Hne c) in Hb by done. destruct (decide (parent c = i)) as [E|E].
      * rewrite E, Hl in Ha. by apply (Hmin c Hc0 Hcn E).
      * rewrite (Hne (parent c)) in Ha by done. by apply (Hok c Hc0 Hcn Hci E).
  - intros _ c Hc0 Hcn Hpc a b Ha Hb. pose proof (parent_lt c Hc0).
    rewrite Hpj, Hl in Ha. rewrite (Hne c) in Hb by lia.
    apply (Hok c Hc0 Hcn); [lia|lia|by rewrite Hpc|done].
Qed.

Lemma down_merge l l' i j i' n :
  smaller_child l i j n → list_swap i j l = Some l' →
  (∃ x y, l !! j = Some x ∧ l !! i = Some y ∧ le x y) →
  ∀ l'', down_post l'' j i' n → j ≤ i' → (j = i' → l'' = l') →
  down_post l'' i i' n.
Proof.
  intros (Hj & Hj0 & Hpj & Hmin) Hs (x & y & Hx & Hy & Hle) l'' [Hok Hjp] Hi' Heq.
  pose proof (parent_lt j Hj0).
  assert (ok l'' i j) as Hij.
  { destruct (decide (j = i')) as [E|E].
    - rewrite (Heq E). intros a b Ha Hb.
      rewrite (list_swap_lookup_l _ _ _ _ Hs) in Ha.
      rewrite (list_swap_lookup_r _ _ _ _ Hs) in Hb. by simplify_eq.
    - rewrite <- Hpj. apply Hjp; lia. }
  split.
  - intros c Hc0 Hcn Hci. destruct (decide (c = j)) as [->|]; [by rewrite Hpj|by apply Hok].
  - intros _ Hi0. apply Hok; lia.
Qed.

Lemma smaller_child_spec l i n :
  Forall P l → n ≤ length l → 2 * i + 1 < n →
  ∃ j, (if decide (2 * i + 1 + 1 < n)
        then b ← h_less l (2 * i + 1 + 1) (2 * i + 1);
             Some (if b : bool then 2 * i + 1 + 1 else 2 * i + 1)
        else Some (2 * i + 1)) = Some j ∧ smaller_child l i j n.
Proof.
  intros HF Hn Hi. set (j1 := 2 * i + 1) in *.
  destruct (lookup_lt_is_Some_2 l j1) as [x Hx]; [lia|].
  assert (∀ c, 0 < c → parent c = i → c = j1 ∨ c = j1 + 1) as Hch.
  { intros c Hc0 Hc. apply (parent_child_iff i) in Hc; lia. }
  assert (parent j1 = i ∧ parent (j1 + 1) = i) as [Hp1 Hp2].
  { rewrite !parent_child_iff; lia. }
  assert (∀ k z, l !! k = Some z → ok l k k) as Hself.
  { intros k z Hz a b Ha Hb. simplify_eq. by apply le_refl; eapply lookup_P. }
  case_decide as Hj2.
  - destruct (lookup_lt_is_Some_2 l (j1 + 1)) as [y Hy]; [lia|].
    simpl. rewrite Hx, Hy. simpl. destruct (lt y x) eqn:Hlt; eexists; (split; [done|]).
    + repeat split; [lia..|]. intros c Hc0 Hcn Hpc.
      destruct (Hch c Hc0 Hpc) as [->| ->]; [|by eapply Hself].
      intros a b Ha Hb. simplify_eq. apply lt_le; eauto using lookup_P.
    + repeat split; [lia..|]. intros c Hc0 Hcn Hpc.
      destruct (Hch c Hc0 Hpc) as [->| ->]; [by eapply Hself|].
      intros a b Ha Hb. by simplify_eq.
  - exists j1. split; [done|]. repeat split; [lia..|]. intros c Hc0 Hcn Hpc.
    destruct (Hch c Hc0 Hpc) as [->| ->]; [by eapply Hself|lia].
Qed.

Lemma down_loop_list fuel l i n :
  Forall P l → n ≤ length l → n - i < fuel → down_pre l i n →
  ∃ l' i', Heap.down_loop fuel l i n = Some (l', i') ∧ l' ≡ₚ l ∧
    i ≤ i' ∧ (i = i' → l' = l) ∧ down_post l' i i' n ∧
    ∀ k, n ≤ k → k ≠ i → l' !! k = l !! k.
Proof.
  revert l i. induction fuel as [|fuel IH]; intros l i HF Hn Hf Hpre; [lia|].
  cbn [Heap.down_loop]. case_decide as Hj1.
  { exists l, i. split_and!; try done. split; [|lia].
    intros c Hc0 Hcn Hci. apply Hpre; [done..|]. rewrite parent_child_iff; lia. }
  destruct (smaller_child_spec l i n) as (j & Hj & Hsm); [done|lia..|].
  setoid_rewrite Hj. simpl. pose proof Hsm as (Hjn & Hj0 & Hpj & _).
  pose proof (parent_lt j Hj0).
  destruct (lookup_lt_is_Some_2 l j) as [x Hx]; [lia|].
  destruct (lookup_lt_is_Some_2 l i) as [y Hy]; [lia|].
  rewrite Hx, Hy. simpl. destruct (lt x y) eqn:Hlt; simpl.
  - destruct (list_swap_is_Some i j l) as [l1 Hs]; [lia..|]. rewrite Hs. simpl.
    destruct (IH l1 j) as (l' & i' & Hd & Hperm & Hi' & Heq & Hpost & Hout).
    + by eapply swap_Forall.
    + by rewrite (list_swap_length _ _ _ _ Hs).
    + lia.
    + by eapply down_step.
    + exists l', i'. split_and!; [done|..|lia|lia| |].
      * by rewrite Hperm, (list_swap_perm _ _ _ _ Hs).
      * eapply down_merge; eauto 10 using lt_le, lookup_P.
      * intros k Hk Hki. rewrite Hout by lia. apply (list_swap_lookup_ne _ _ _ _ _ Hs); lia.
  - exists l, i. split_and!; try done. eapply down_stop; eauto.
    intros a b Ha Hb. by simplify_eq.
Qed.
End lists.

(** ** Simulation

    An implementation that satisfies the laws computes what the algorithms
    compute on its list of elements. *)

Section simulation.
Context {S X : Type} {HI : HeapInterface S X} {lt : X → X → bool}
  {inv : S → Prop} {view : S → list X} {can_push : S → X → Prop}
  {laws : HeapLaws HI lt inv view can_push}.
Implicit Types s : S.

Lemma list_less_inv (l : list X) i j b :
  @h_less _ _ (list_heap lt) l i j = Some b →
  ∃ x y, l !! i = Some x ∧ l !! j = Some y ∧ b = lt x y.
Proof.
  simpl. destruct (l !! i), (l !! j); simpl; intros; simplify_eq. eauto.
Qed.

Lemma sim_less s i j b :
  inv s → @h_less _ _ (list_heap lt) (view s) i j = Some b → h_less s i j = Some b.
Proof.
  intros Hs (x & y & Hx & Hy & ->)%list_less_inv. by apply law_less.
Qed.

Lemma sim_up fuel s j l :
  inv s → @Heap.up _ _ (list_heap lt) fuel (view s) j = Some l →
  ∃ s', Heap.up fuel s j = Some s' ∧ inv s' ∧ view s' = l.
Proof.
  revert s j. induction fuel as [|fuel IH]; intros s j Hs; [done|].
  cbn [Heap.up]. cbv zeta. case_decide.
  { intros; simplify_eq. eauto. }
  destruct (@h_less _ _ (list_heap lt) (view s) j _) as [b|] eqn:Hb; [|done].
  rewrite (sim_less _ _ _ _ Hs Hb). simpl. destruct b; simpl.
  - destruct (list_swap _ j (view s)) as [l1|] eqn:Hsw; [|done]. simpl.
    destruct (law_swap s _ _ _ Hs Hsw) as (s1 & -> & Hs1 & <-). by apply IH.
  - intros; simplify_eq. eauto.
Qed.

Lemma sim_down_loop fuel s i n l i' :
  inv s → @Heap.down_loop _ _ (list_heap lt) fuel (view s) i n = Some (l, i') →
  ∃ s', Heap.down_loop fuel s i n = Some (s', i') ∧ inv s' ∧ view s' = l.
Proof.
  revert s i. induction fuel as [|fuel IH]; intros s i Hs; [done|].
  cbn [Heap.down_loop]. cbv zeta. case_decide.
  { intros; simplify_eq. eauto. }
  set (child := λ HI' : option bool, if decide (2 * i + 1 + 1 < n)
    then b ← HI'; Some (if b : bool then 2 * i + 1 + 1 else 2 * i + 1)
    else Some (2 * i + 1)).
  change (if decide (2 * i + 1 + 1 < n) then _ else _) with
    (child (@h_less _ _ (list_heap lt) (view s) (2 * i + 1 + 1) (2 * i + 1))) at 1.
  change (if decide (2 * i + 1 + 1 < n) then _ else _) with
    (child (h_less s (2 * i + 1 + 1) (2 * i + 1))).
  destruct (child (@h_less _ _ (list_heap lt) _ _ _)) as [j|] eqn:Hj; [|done].
  assert (child (h_less s (2 * i + 1 + 1) (2 * i + 1)) = Some j) as ->.
  { revert Hj. unfold child. case_decide; [|done].
    destruct (@h_less _ _ (list_heap lt) _ _ _) eqn:E; [|done].
    by rewrite (sim_less _ _ _ _ Hs E). }
  simpl. destruct (@h_less _ _ (list_heap lt) (view s) j i) as [b|] eqn:Hb;
    simpl in Hb; rewrite Hb; [|done].
  rewrite (sim_less _ _ _ _ Hs Hb). simpl. destruct b; simpl.
  - destruct (list_swap i j (view s)) as [l1|] eqn:Hsw; [|done]. simpl.
    destruct (law_swap s _ _ _ Hs Hsw) as (s1 & -> & Hs1 & <-). by apply IH.
  - intros; simplify_eq. eauto.
Qed.
End simulation.

#[global] Arguments Heap.up : simpl never.
#[global] Arguments Heap.down_loop : simpl never.

(** ** [heap.Push], [heap.Pop] and [heap.Remove] are correct

    On an implementation satisfying the laws, with a comparator that is a weak
    order among the elements involved: no call panics, the invariant and the
    heap order are preserved, and exactly the intended element comes or goes. *)

Section correctness.
Context {S X : Type} {HI : HeapInterface S X} {lt : X → X → bool}
  {inv : S → Prop} {view : S → list X} {can_push : S → X → Prop}
  {laws : HeapLaws HI lt inv view can_push}.
Context (P : X → Prop) (wo : weak_order lt P).
Implicit Types s : S.

Definition heap_ok s : Prop := inv s ∧ ordered lt (view s) (length (view s)).

Lemma ordered_app_l (l k : list X) n :
  n ≤ length l → ordered lt (l ++ k) n ↔ ordered lt l n.
Proof.
  intros Hn. split; intros Ho c Hc0 Hcn x y Hx Hy; pose proof (parent_lt c Hc0).
  - apply (Ho c); [done..| |]; rewrite lookup_app_l by lia; done.
  - rewrite lookup_app_l in Hx, Hy by lia. by apply (Ho c).
Qed.

Lemma take_last_split (l : list X) n x :
  length l = Datatypes.S n → l !! n = Some x → l = take n l ++ [x].
Proof.
  intros Hlen Hx. rewrite <- (take_drop n l) at 1. f_equal.
  rewrite (drop_S _ x) by done. by rewrite drop_ge by lia.
Qed.

Lemma heap_Push_ok s x :
  heap_ok s → can_push s x → Forall P (view s) → P x →
  ∃ s', Heap.Push s x = Some s' ∧ heap_ok s' ∧ view s' ≡ₚ x :: view s.
Proof.
  intros [Hs Ho] Hx HF HPx. unfold Heap.Push.
  destruct (law_push s x Hs Hx) as (s1 & -> & Hs1 & Hv1). simpl.
  rewrite (law_len s1) by done.
  assert (length (view s1) = Datatypes.S (length (view s))) as Hlen
    by (rewrite Hv1, length_app; simpl; lia).
  destruct (up_list lt P wo (length (view s1)) (view s1) (length (view s1) - 1)
    (length (view s1))) as (l & Hup & Hperm & Hord & _); [|lia..| |].
  - rewrite Hv1. apply Forall_app. auto.
  - rewrite Hlen, Hv1. split.
    + intros c Hc0 Hcn Hc. apply (ordered_app_l _ [x] (length (view s))); [done..|lia].
    + intros _ c Hc0 Hcn Hc. pose proof (parent_lt c Hc0). lia.
  - destruct (sim_up _ _ _ _ Hs1 Hup) as (s' & Hup' & Hs' & <-).
    exists s'. split; [done|]. split.
    + split; [done|]. by rewrite (Permutation_length Hperm).
    + by rewrite Hperm, Hv1, (Permutation_app_comm _ [x]).
Qed.

(** The common end of [Pop] and [Remove]: the doomed element is last. *)
Lemma heap_drop_last s x n :
  inv s → length (view s) = Datatypes.S n → view s !! n = Some x →
  ordered lt (view s) n →
  ∃ s', h_pop s = Some (x, s') ∧ heap_ok s' ∧ view s ≡ₚ x :: view s'.
Proof.
  intros Hs Hlen Hx Ho. pose proof (take_last_split _ _ _ Hlen Hx) as Hv.
  destruct (law_pop s (take n (view s)) x Hs Hv) as (s' & Hp & Hs' & Hv').
  assert (length (view s') = n) as Hn by (rewrite Hv', length_take; lia).
  exists s'. split; [done|]. split.
  - split; [done|]. rewrite Hn. rewrite Hv in Ho. rewrite Hv'.
    by apply (ordered_app_l _ [x]); [rewrite <- Hv', Hn|].
  - by rewrite Hv at 1; rewrite Hv', (Permutation_app_comm _ [x]).
Qed.

Lemma heap_swap_last s i x n :
  inv s → length (view s) = Datatypes.S n → view s !! i = Some x → i < n →
  Forall P (view s) → ordered lt (view s) (Datatypes.S n) →
  ∃ s1, h_swap s i n = Some s1 ∧ inv s1 ∧ view s1 ≡ₚ view s ∧
    view s1 !! n = Some x ∧ down_pre lt (view s1) i n.
Proof.
  intros Hs Hlen Hx Hi HF Ho.
  destruct (list_swap_is_Some i n (view s)) as [l Hl]; [lia..|].
  destruct (law_swap s i n l Hs Hl) as (s1 & -> & Hs1 & <-).
  pose proof (λ k, list_swap_lookup_ne _ _ k _ _ Hl) as Hne.
  exists s1. split_and!; try done; [by eapply list_swap_perm| |].
  { by rewrite (list_swap_lookup_r _ _ _ _ Hl). }
  split.
  - intros c Hc0 Hcn Hc Hpc a b Ha Hb. pose proof (parent_lt c Hc0).
    rewrite Hne in Ha, Hb by lia. by apply (Ho c Hc0); [lia|..].
  - intros Hi0 c Hc0 Hcn Hpc a b Ha Hb. pose proof (parent_lt c Hc0).
    pose proof (parent_lt i Hi0). rewrite Hne in Ha, Hb by lia.
    revert Ha Hb. apply (pair_ok_trans lt P wo _ _ i); [done|lia|apply Ho; lia|].
    rewrite <- Hpc at 1. apply Ho; lia.
Qed.

Lemma heap_Pop_ok s x l :
  heap_ok s → Forall P (view s) → view s = x :: l →
  ∃ s', Heap.Pop s = Some (x, s') ∧ heap_ok s' ∧ view s' ≡ₚ l.
Proof.
  intros [Hs Ho] HF Hv. unfold Heap.Pop. rewrite (law_len s) by done.
  set (n := length (view s) - 1).
  assert (length (view s) = Datatypes.S n) as Hlen by (subst n; rewrite Hv; simpl; lia).
  rewrite Hlen in Ho. unfold Heap.down.
  assert (∃ s1, h_swap s 0 n = Some s1 ∧ inv s1 ∧ view s1 ≡ₚ view s ∧
    view s1 !! n = Some x ∧ down_pre lt (view s1) 0 n)
    as (s1 & -> & Hs1 & Hperm1 & Hn1 & Hpre).
  { destruct (decide (0 < n)) as [Hn|Hn].
    - eapply heap_swap_last; eauto. by rewrite Hv.
    - assert (n = 0) as Hn0 by lia. rewrite Hn0.
      destruct (list_swap_is_Some 0 0 (view s)) as [k Hk]; [lia..|].
      destruct (law_swap s 0 0 k Hs Hk) as (s1 & -> & Hs1 & <-).
      exists s1. split_and!; try done; [by eapply list_swap_perm| |split; lia].
      by rewrite (list_swap_lookup_r _ _ _ _ Hk), Hv. }
  simpl. pose proof (Permutation_length Hperm1) as Hlen1.
  destruct (down_loop_list lt P wo (Datatypes.S n) (view s1) 0 n)
    as (l2 & i' & Hd & Hperm2 & _ & Heq & Hpost & Hout); [by rewrite Hperm1|lia..|done|].
  destruct (sim_down_loop _ _ _ _ _ _ Hs1 Hd) as (s2 & -> & Hs2 & <-). simpl.
  pose proof (Permutation_length Hperm2) as Hlen2.
  destruct (heap_drop_last s2 x n) as (s' & -> & Hs' & Hperm'); [done|lia|..].
  - destruct (decide (n = 0)) as [->|]; [|by rewrite Hout by lia].
    destruct i'; [by rewrite Heq|].
    assert (is_Some (view s2 !! 0)) as [y Hy] by (apply lookup_lt_is_Some; lia).
    assert (view s2 = [y]) as E2 by (destruct (view s2) as [|? [|]]; simplify_eq/=; lia).
    assert (view s1 = [x]) as E1 by (destruct (view s1) as [|? [|]]; simplify_eq/=; lia).
    rewrite E1, E2 in Hperm2. apply Permutation_singleton_inj in Hperm2 as ->. by rewrite E2.
  - intros c Hc0 Hcn. by apply Hpost; [..|lia].
  - exists s'. split_and!; try done.
    apply (Permutation_cons_inv (a := x)). by rewrite <- Hperm', Hperm2, Hperm1, Hv.
Qed.

Lemma heap_Remove_ok s i x :
  heap_ok s → Forall P (view s) → view s !! i = Some x →
  ∃ s', Heap.Remove s i = Some (x, s') ∧ heap_ok s' ∧ view s ≡ₚ x :: view s'.
Proof.
  intros [Hs Ho] HF Hx. unfold Heap.Remove. rewrite (law_len s) by done.
  pose proof (lookup_lt_Some _ _ _ Hx) as Hi.
  set (n := length (view s) - 1).
  assert (length (view s) = Datatypes.S n) as Hlen by (subst n; lia).
  rewrite Hlen in Ho. case_decide as Hni.
  { subst i. simpl. apply heap_drop_last with (n := n); [done..|].
    intros c Hc0 Hcn. apply Ho; lia. }
  destruct (heap_swap_last s i x n) as (s1 & -> & Hs1 & Hperm1 & Hn1 & Hpre);
    [done..|lia|done|done|]. simpl.
  pose proof (Permutation_length Hperm1) as Hlen1. unfold Heap.down.
  assert (Forall P (view s1)) as HF1 by by rewrite Hperm1.
  destruct (down_loop_list lt P wo (Datatypes.S n) (view s1) i n)
    as (l2 & i' & Hd & Hperm2 & Hii & Heq & Hpost & Hout); [done|lia..|done|].
  destruct (sim_down_loop _ _ _ _ _ _ Hs1 Hd) as (s2 & -> & Hs2 & <-). simpl.
  pose proof (Permutation_length Hperm2) as Hlen2.
  assert (view s2 !! n = Some x) as Hn2 by by rewrite Hout by lia.
  case_bool_decide as Hmoved.
  { simpl. destruct (heap_drop_last s2 x n) as (s' & -> & Hs' & Hperm'); [done|lia|done|..].
    - intros c Hc0 Hcn. destruct (decide (c = i)) as [->|]; by apply Hpost.
    - exists s'. by rewrite <- Hperm', Hperm2, Hperm1. }
  assert (i = i') as <- by lia. specialize (Heq eq_refl). rewrite Heq in Hpost.
  destruct (up_list lt P wo (Datatypes.S i) (view s2) i n)
    as (l3 & Hup & Hperm3 & Hord3 & Hout3); [by rewrite Hperm2|lia..| |].
  { rewrite Heq. split; [by apply Hpost|by apply Hpre]. }
  destruct (sim_up _ _ _ _ Hs2 Hup) as (s3 & -> & Hs3 & <-). simpl.
  pose proof (Permutation_length Hperm3) as Hlen3.
  destruct (heap_drop_last s3 x n) as (s' & -> & Hs' & Hperm'); [done|lia|..|done|].
  - by rewrite Hout3 by lia.
  - exists s'. by rewrite <- Hperm', Hperm3, Hperm2, Hperm1.
Qed.
End correctness.
