(* ===== verification/GoSort.v ===== *)
(** * Sorting: Go's [slices.SortFunc] and [sort.SliceStable]

    Both are modelled by a stable insertion sort, which is what the Go library
    runs on short slices.  [sort_canonical] shows that the choice of algorithm
    does not matter: on a slice whose comparator never calls two distinct
    elements equal, every sorted permutation is this one. *)

From S2P Require Import Prelude GoHeap.

Section sort.
Context {A : Type} (lt : A → A → bool).

(** Insert [x] behind the elements it does not precede. *)
Fixpoint insert_sorted (x : A) (l : list A) : list A :=
  match l with
  | [] => [x]
  | y :: l' => if lt x y then x :: l else y :: insert_sorted x l'
  end.

Definition insertion_sort (l : list A) : list A :=
  fold_left (λ acc x, insert_sorted x acc) l [].
End sort.

(** [slices.SortFunc(s, cmp)]: [cmp] is negative when its first argument
    comes first. *)
Definition SortFunc {A} (cmp : A → A → Z) (l : list A) : list A :=
  insertion_sort (λ a b, (cmp a b <? 0)%Z) l.

(** [sort.SliceStable(s, less)]. *)
Definition SliceStable {A} (less : A → A → bool) (l : list A) : list A :=
  insertion_sort less l.

(** No two distinct elements of the list are equivalent under [lt]. *)
Definition distinguishes {A} (lt : A → A → bool) (l : list A) : Prop :=
  ∀ x y, x ∈ l → y ∈ l → le lt x y → le lt y x → x = y.

Section theory.
Context {A : Type} (lt : A → A → bool) (P : A → Prop).
Hypothesis wo : weak_order lt P.
Implicit Types l : list A.

Lemma insert_sorted_perm x l : insert_sorted lt x l ≡ₚ x :: l.
Proof.
  induction l as [|y l IH]; simpl; [done|]. destruct (lt x y); [done|].
  rewrite IH. constructor.
Qed.

Lemma fold_insert_perm l acc :
  fold_left (λ acc x, insert_sorted lt x acc) l acc ≡ₚ l ++ acc.
Proof.
  revert acc. induction l as [|x l IH]; intros acc; simpl; [done|].
  rewrite IH, insert_sorted_perm. by rewrite <- Permutation_middle.
Qed.

Lemma insertion_sort_perm l : insertion_sort lt l ≡ₚ l.
Proof. unfold insertion_sort. by rewrite fold_insert_perm, app_nil_r. Qed.

Lemma insert_sorted_sorted x l :
  P x → Forall P l → StronglySorted (le lt) l → StronglySorted (le lt) (insert_sorted lt x l).
Proof.
  intros Hx. induction l as [|y l IH]; simpl; intros HP Hs.
  { by repeat constructor. }
  inversion HP as [|? ? Hy HPl]; inversion Hs as [|? ? Hsl Hall]; subst.
  destruct (lt x y) eqn:Hlt.
  - assert (le lt x y) by by apply (lt_le lt P wo).
    constructor; [done|]. constructor; [done|].
    rewrite Forall_forall in Hall, HPl |- *. intros z Hz.
    apply (wo_trans _ _ wo x y z); auto.
  - constructor; [by apply IH|]. rewrite insert_sorted_perm. by constructor.
Qed.

Lemma insertion_sort_sorted l : Forall P l → StronglySorted (le lt) (insertion_sort lt l).
Proof.
  unfold insertion_sort. assert (StronglySorted (le lt) ([] : list A)) as Hnil by constructor.
  assert (Forall P []) as HPnil by constructor. revert Hnil HPnil.
  generalize ([] : list A) as acc. induction l as [|x l IH]; simpl; intros acc Hs Ha HP; [done|].
  inversion HP; subst. apply IH; [by apply insert_sorted_sorted| |done].
  rewrite insert_sorted_perm. by constructor.
Qed.

(** Every sorted permutation of a list without ties is the sort's result. *)
Lemma sort_canonical l k :
  Forall P l → distinguishes lt l →
  k ≡ₚ l → StronglySorted (le lt) k → k = insertion_sort lt l.
Proof.
  intros HP Hd Hperm Hs. pose proof (insertion_sort_perm l) as Hp.
  apply (StronglySorted_unique_strong (le lt)).
  - intros x y Hx Hy. apply Hd; [by rewrite <- Hperm|by rewrite <- Hp].
  - done.
  - by apply insertion_sort_sorted.
  - by rewrite Hperm, Hp.
Qed.

Lemma distinguishes_perm l k : k ≡ₚ l → distinguishes lt l → distinguishes lt k.
Proof. intros Hp Hd x y. rewrite Hp. apply Hd. Qed.

(** The sort of a list without ties does not depend on its order. *)
Lemma insertion_sort_proper l k :
  Forall P l → distinguishes lt l → k ≡ₚ l → insertion_sort lt k = insertion_sort lt l.
Proof.
  intros HP Hd Hp. apply sort_canonical; [done..| |].
  - by rewrite insertion_sort_perm.
  - apply insertion_sort_sorted. by rewrite Hp.
Qed.
End theory.

Lemma insertion_sort_ext {A} (lt lt' : A → A → bool) (l : list A) :
  (∀ x y, x ∈ l → y ∈ l → lt x y = lt' x y) → insertion_sort lt l = insertion_sort lt' l.
Proof.
  unfold insertion_sort. intros Hext.
  assert (∀ x acc, (∀ y, y ∈ acc → lt x y = lt' x y) →
    insert_sorted lt x acc = insert_sorted lt' x acc) as Hins.
  { intros x acc. induction acc as [|y acc IH]; simpl; intros Hacc; [done|].
    rewrite Hacc by set_solver. rewrite IH; [done|set_solver]. }
  assert (∀ k acc, k ++ acc ⊆ l →
    fold_left (λ acc x, insert_sorted lt x acc) k acc =
    fold_left (λ acc x, insert_sorted lt' x acc) k acc) as Hfold.
  { intros k. induction k as [|x k IH]; simpl; intros acc Hsub; [done|].
    rewrite <- Hins by (intros y Hy; apply Hext; set_solver).
    apply IH. intros y. rewrite elem_of_app, insert_sorted_perm. set_solver. }
  apply Hfold. by rewrite app_nil_r.
Qed.

#[export] Hint Resolve insertion_sort_perm : go_list.
