(* ===== verification/GoStrconv.v ===== *)
(** * Go's [strconv]: decimal integers

    [Itoa] prints an integer the way [%d] and [encoding/json] do; [Atoi] parses
    an optionally signed decimal of int64 range.  Strings are Rocq strings of
    bytes, handled as lists of [ascii]. *)

From S2P Require Import Prelude.
From Stdlib Require Import Ascii.

Local Open Scope Z_scope.

(** Strings as lists of bytes. *)
Abbreviation bytes := (list ascii).
Abbreviation to_bytes := String.list_ascii_of_string.
Abbreviation of_bytes := String.string_of_list_ascii.

Definition byte_val (c : ascii) : Z := Z.of_N (N_of_ascii c).
Definition byte_of (z : Z) : ascii := ascii_of_N (Z.to_N z).

Definition is_digit (c : ascii) : bool := (48 <=? byte_val c) && (byte_val c <=? 57).

(** Digits of a non-negative integer, most significant first, in front of
    [acc].  A round of the loop divides by ten; [digit_fuel] rounds suffice. *)
Definition digit_fuel (n : Z) : nat := S (Z.to_nat (Z.log2 n)).

Fixpoint digits_loop (fuel : nat) (n : Z) (acc : bytes) : bytes :=
  match fuel with
  | O => acc
  | S fuel =>
      let acc' := byte_of (48 + n mod 10) :: acc in
      if n <? 10 then acc' else digits_loop fuel (n / 10) acc'
  end.

Definition format_uint (n : Z) : bytes := digits_loop (digit_fuel n) n [].

Definition format_int (n : Z) : bytes :=
  if n <? 0 then "-"%char :: format_uint (- n) else format_uint n.

Definition Itoa (n : Z) : string := of_bytes (format_int n).

(** The value of a run of digits, continuing from [acc]; [None] when a byte is
    not a digit. *)
Fixpoint parse_digits (acc : Z) (l : bytes) : option Z :=
  match l with
  | [] => Some acc
  | c :: l => if is_digit c then parse_digits (acc * 10 + (byte_val c - 48)) l else None
  end.

(** [strconv.Atoi] on a 64-bit platform; [None] stands for both [ErrSyntax] and
    [ErrRange]. *)
Definition Atoi (s : string) : option Z :=
  let '(neg, digits) :=
    match to_bytes s with
    | c :: l => if decide (c = "-"%char) then (true, l)
                else if decide (c = "+"%char) then (false, l) else (false, c :: l)
    | [] => (false, [])
    end in
  match digits with
  | [] => None
  | _ =>
      un ← parse_digits 0 digits;
      if neg : bool
      then if 2 ^ 63 <? un then None else Some (- un)
      else if 2 ^ 63 <=? un then None else Some un
  end.

(** ** Round trips *)

Lemma byte_val_of z : 0 <= z < 256 → byte_val (byte_of z) = z.
Proof.
  intros Hz. unfold byte_val, byte_of.
  rewrite N_ascii_embedding by lia. lia.
Qed.

Lemma byte_of_val c : byte_of (byte_val c) = c.
Proof. unfold byte_val, byte_of. rewrite N2Z.id. apply ascii_N_embedding. Qed.

Lemma is_digit_byte d : 0 <= d < 10 → is_digit (byte_of (48 + d)) = true.
Proof. intros Hd. unfold is_digit. rewrite byte_val_of by lia. lia. Qed.

Lemma is_digit_iff c : is_digit c = true ↔ 48 <= byte_val c <= 57.
Proof. unfold is_digit. lia. Qed.

Lemma parse_digits_app acc l k :
  parse_digits acc (l ++ k) = v ← parse_digits acc l; parse_digits v k.
Proof.
  revert acc. induction l as [|c l IH]; intros acc; simpl; [done|].
  by destruct (is_digit c).
Qed.

Lemma digits_loop_app fuel n acc : digits_loop fuel n acc = digits_loop fuel n [] ++ acc.
Proof.
  revert n acc. induction fuel as [|fuel IH]; intros n acc; simpl; [done|].
  destruct (n <? 10); [done|]. rewrite IH, (IH _ [_]). by rewrite <- app_assoc.
Qed.

Lemma log2_div10 n : 10 <= n → Z.log2 (n / 10) < Z.log2 n.
Proof.
  intros Hn. assert (0 < n / 10) by (apply Z.div_str_pos; lia).
  apply Z.log2_lt_pow2; [done|].
  pose proof (Z.log2_spec n ltac:(lia)) as [_ Hu]. rewrite Z.pow_succ_r in Hu by apply Z.log2_nonneg.
  apply Z.div_lt_upper_bound; [lia|]. nia.
Qed.

Lemma digits_loop_value fuel n :
  0 <= n → (digit_fuel n ≤ fuel)%nat → ∀ acc,
  parse_digits acc (digits_loop fuel n []) =
    Some (acc * 10 ^ Z.of_nat (length (digits_loop fuel n [])) + n).
Proof.
  revert n. induction fuel as [|fuel IH]; intros n Hn Hf acc; [unfold digit_fuel in Hf; lia|].
  assert (0 <= n mod 10 < 10) by (apply Z.mod_pos_bound; lia).
  simpl. destruct (Z.ltb_spec n 10).
  - rewrite Z.mod_small by lia. cbn [parse_digits length].
    rewrite is_digit_byte, byte_val_of by lia. f_equal. lia.
  - rewrite digits_loop_app, parse_digits_app.
    rewrite IH; [|apply Z.div_pos; lia|].
    2: { unfold digit_fuel in *. pose proof (log2_div10 n). pose proof (Z.log2_nonneg (n / 10)). lia. }
    cbn [mbind option_bind parse_digits]. rewrite is_digit_byte, byte_val_of by lia.
    rewrite length_app. f_equal. pose proof (Z.div_mod n 10 ltac:(lia)).
    rewrite Nat2Z.inj_add, Z.pow_add_r by lia. simpl. lia.
Qed.

Lemma digits_loop_digits fuel n : Forall (λ c, is_digit c = true) (digits_loop fuel n []).
Proof.
  revert n. induction fuel as [|fuel IH]; intros n; simpl; [constructor|].
  assert (is_digit (byte_of (48 + n mod 10)) = true)
    by (apply is_digit_byte, Z.mod_pos_bound; lia).
  destruct (n <? 10); [by repeat constructor|].
  rewrite digits_loop_app. apply Forall_app. auto.
Qed.

Lemma format_uint_digits n : Forall (λ c, is_digit c = true) (format_uint n).
Proof. apply digits_loop_digits. Qed.

Lemma format_uint_nonempty n : ∃ c l, format_uint n = c :: l ∧ is_digit c = true.
Proof.
  pose proof (format_uint_digits n) as HF.
  destruct (format_uint n) as [|c l] eqn:E; [|inversion HF; eauto].
  unfold format_uint, digit_fuel in E. simpl in E. destruct (n <? 10); [done|].
  rewrite digits_loop_app in E. by destruct (digits_loop _ _ []).
Qed.

Lemma parse_format_uint n : 0 <= n → parse_digits 0 (format_uint n) = Some n.
Proof. intros Hn. unfold format_uint. by rewrite digits_loop_value. Qed.

Lemma digit_not_sign c : is_digit c = true → c ≠ "-"%char ∧ c ≠ "+"%char.
Proof. intros Hc. split; intros ->; discriminate Hc. Qed.

Lemma to_of_bytes l : to_bytes (of_bytes l) = l.
Proof. apply String.list_ascii_of_string_of_list_ascii. Qed.

Lemma of_to_bytes s : of_bytes (to_bytes s) = s.
Proof. apply String.string_of_list_ascii_of_string. Qed.

Lemma to_bytes_inj s1 s2 : to_bytes s1 = to_bytes s2 → s1 = s2.
Proof. intros E. by rewrite <- (of_to_bytes s1), E, of_to_bytes. Qed.

(** What [Itoa] prints, [Atoi] reads back. *)
Lemma Atoi_Itoa n : in_i64 n → Atoi (Itoa n) = Some n.
Proof.
  unfold in_i64. intros Hn. unfold Atoi, Itoa, format_int. rewrite to_of_bytes.
  destruct (Z.ltb_spec n 0).
  - rewrite decide_True by done.
    destruct (format_uint_nonempty (- n)) as (c & l & E & _).
    pose proof (parse_format_uint (- n) ltac:(lia)) as Hp. rewrite E in Hp |- *.
    rewrite Hp. simpl. destruct (Z.ltb_spec (2 ^ 63) (- n)); [lia|]. f_equal. lia.
  - destruct (format_uint_nonempty n) as (c & l & E & Hc).
    pose proof (parse_format_uint n ltac:(lia)) as Hp. rewrite E in Hp |- *.
    destruct (digit_not_sign c Hc). rewrite !decide_False by done. rewrite Hp. simpl.
    destruct (Z.leb_spec (2 ^ 63) n); [lia|done].
Qed.

Lemma parse_digits_nonneg acc l n : parse_digits acc l = Some n → 0 <= acc → 0 <= n.
Proof.
  revert acc. induction l as [|c l IH]; intros acc; cbn [parse_digits]; [by intros [= ->]|].
  destruct (is_digit c) eqn:Ed; [|done]. unfold is_digit in Ed. intros Hp Ha. eapply IH; [exact Hp|]. lia.
Qed.

Lemma Atoi_range s n : Atoi s = Some n → in_i64 n.
Proof.
  unfold Atoi. destruct (match to_bytes s with [] => _ | _ => _ end) as [neg digits].
  destruct digits as [|c l]; [done|]. destruct (parse_digits 0 (c :: l)) as [un|] eqn:E; [|done].
  apply parse_digits_nonneg in E; [|done]. cbn [mbind option_bind]. unfold in_i64.
  destruct neg; repeat case_match; intros [= <-]; lia.
Qed.

#[export] Hint Rewrite to_of_bytes of_to_bytes : go_bytes.
