(* ===== verification/GoUtf8.v ===== *)
(** * UTF-8 as Go's [unicode/utf8] and [encoding/json] treat it

    A Go string is any sequence of bytes.  [chunks] cuts one into the pieces
    [utf8.DecodeRune] steps through: an ASCII byte, a well-formed multi-byte
    sequence, or a single byte that starts no well-formed sequence.  Code that
    copies a string rune by rune replaces the last kind by U+FFFD: [sanitize]. *)

From S2P Require Import Prelude GoStrconv.
From Stdlib Require Import Ascii.

Local Open Scope Z_scope.

Definition in_range (lo hi : Z) (c : ascii) : bool := (lo <=? byte_val c) && (byte_val c <=? hi).
Definition is_ascii (c : ascii) : bool := byte_val c <? 128.
Definition is_cont (c : ascii) : bool := in_range 128 191 c.

(** The well-formed sequences of two, three and four bytes: no overlong form,
    no surrogate, nothing above U+10FFFF. *)
Definition seq2 (a b : ascii) : bool := in_range 194 223 a && is_cont b.

Definition seq3 (a b c : ascii) : bool :=
  ((byte_val a =? 224) && in_range 160 191 b
   || in_range 225 236 a && is_cont b
   || (byte_val a =? 237) && in_range 128 159 b
   || in_range 238 239 a && is_cont b) && is_cont c.

Definition seq4 (a b c d : ascii) : bool :=
  ((byte_val a =? 240) && in_range 144 191 b
   || in_range 241 243 a && is_cont b
   || (byte_val a =? 244) && in_range 128 143 b) && is_cont c && is_cont d.

Inductive chunk :=
  | Single (c : ascii)      (** an ASCII byte *)
  | Multi (l : bytes)       (** a well-formed sequence of two to four bytes *)
  | Invalid (c : ascii).    (** a byte that decodes to (U+FFFD, 1) *)

Fixpoint chunks (l : bytes) : list chunk :=
  match l with
  | [] => []
  | a :: l1 =>
      if is_ascii a then Single a :: chunks l1
      else match l1 with
      | b :: l2 =>
          if seq2 a b then Multi [a; b] :: chunks l2
          else match l2 with
          | c :: l3 =>
              if seq3 a b c then Multi [a; b; c] :: chunks l3
              else match l3 with
              | d :: l4 =>
                  if seq4 a b c d then Multi [a; b; c; d] :: chunks l4
                  else Invalid a :: chunks l1
              | [] => Invalid a :: chunks l1
              end
          | [] => Invalid a :: chunks l1
          end
      | [] => Invalid a :: chunks l1
      end
  end.

(** U+FFFD. *)
Definition replacement : bytes := byte_of <$> [239; 191; 189].

Definition chunk_out (ch : chunk) : bytes :=
  match ch with Single c => [c] | Multi l => l | Invalid _ => replacement end.

(** The bytes a chunk was cut from. *)
Definition chunk_bytes (ch : chunk) : bytes :=
  match ch with Single c => [c] | Multi l => l | Invalid c => [c] end.

Definition sanitize (l : bytes) : bytes := chunks l ≫= chunk_out.

Definition is_valid_chunk (ch : chunk) : bool :=
  match ch with Invalid _ => false | _ => true end.

(** [utf8.Valid]. *)
Definition valid_utf8 (l : bytes) : bool := forallb is_valid_chunk (chunks l).

(** [utf8.AppendRune]: anything that is not a Unicode scalar value is encoded
    as U+FFFD. *)
Definition is_scalar (r : Z) : bool :=
  (0 <=? r) && (r <=? 1114111) && negb ((55296 <=? r) && (r <=? 57343)).

Definition encode_rune (r : Z) : bytes :=
  if negb (is_scalar r) then replacement
  else if r <? 128 then [byte_of r]
  else if r <? 2048 then [byte_of (192 + r / 64); byte_of (128 + r mod 64)]
  else if r <? 65536 then
    [byte_of (224 + r / 4096); byte_of (128 + r / 64 mod 64); byte_of (128 + r mod 64)]
  else
    [byte_of (240 + r / 262144); byte_of (128 + r / 4096 mod 64);
     byte_of (128 + r / 64 mod 64); byte_of (128 + r mod 64)].

(** [unicode.IsSpace] of the rune a chunk decodes to. *)
Definition space_runes : list bytes :=
  map (fmap byte_of)
    ([[194; 133]; [194; 160]; [225; 154; 128]; [226; 128; 168]; [226; 128; 169]; [226; 128; 175];
      [226; 129; 159]; [227; 128; 128]] ++ ((λ z, [226; 128; z]) <$> [128; 129; 130; 131; 132; 133; 134; 135; 136; 137; 138])).

Definition is_space_chunk (ch : chunk) : bool :=
  match ch with
  | Single c => in_range 9 13 c || (byte_val c =? 32)
  | Multi l => bool_decide (l ∈ space_runes)
  | Invalid _ => false
  end.

Fixpoint drop_space (cs : list chunk) : list chunk :=
  match cs with
  | ch :: cs' => if is_space_chunk ch then drop_space cs' else cs
  | [] => []
  end.

(** [bytes.TrimSpace] and [strings.TrimSpace]. *)
Definition TrimSpace (l : bytes) : bytes :=
  rev (drop_space (rev (drop_space (chunks l)))) ≫= chunk_bytes.

(** ** Facts *)

(** The shape of the chunks [chunks] produces. *)
Inductive wf_chunk : chunk → Prop :=
  | wf_Single c : is_ascii c = true → wf_chunk (Single c)
  | wf_Multi2 a b : seq2 a b = true → wf_chunk (Multi [a; b])
  | wf_Multi3 a b c : seq3 a b c = true → wf_chunk (Multi [a; b; c])
  | wf_Multi4 a b c d : seq4 a b c d = true → wf_chunk (Multi [a; b; c; d])
  | wf_Invalid c : is_ascii c = false → wf_chunk (Invalid c).

#[export] Hint Constructors wf_chunk : core.

(** The recursion of [chunks] is on suffixes: induct on the length. *)
Lemma bytes_suffix_ind (P : bytes → Prop) :
  (∀ l, (∀ l', (length l' < length l)%nat → P l') → P l) → ∀ l, P l.
Proof.
  intros H l. remember (length l) as n eqn:E. revert l E.
  induction n as [n IH] using lt_wf_ind. intros l ->. apply H. intros l' Hl. by apply (IH (length l')).
Qed.

Lemma chunks_wf l : Forall wf_chunk (chunks l).
Proof.
  induction l as [l IH] using bytes_suffix_ind.
  destruct l as [|a l1]; [constructor|]. simpl.
  assert (Forall wf_chunk (chunks l1)) by (apply IH; simpl; lia).
  destruct (is_ascii a) eqn:Ea; [by auto|].
  destruct l1 as [|b l2]; [by auto|].
  destruct (seq2 a b) eqn:E2; [constructor; [by auto|apply IH; simpl; lia]|].
  destruct l2 as [|c l3]; [by auto|].
  destruct (seq3 a b c) eqn:E3; [constructor; [by auto|apply IH; simpl; lia]|].
  destruct l3 as [|d l4]; [by auto|].
  destruct (seq4 a b c d) eqn:E4; [constructor; [by auto|apply IH; simpl; lia]|by auto].
Qed.

Ltac byte_tests :=
  unfold seq2, seq3, seq4, is_cont, in_range, is_ascii in *.

(** Well-formed sequences are recognised whatever follows them. *)
Lemma chunks_app ch rest :
  wf_chunk ch → is_valid_chunk ch = true → chunks (chunk_out ch ++ rest) = ch :: chunks rest.
Proof.
  intros [c Hc|a b Hs|a b c Hs|a b c d Hs|c Hc] Hv; try done; simpl.
  - by rewrite Hc.
  - assert (is_ascii a = false) as -> by (byte_tests; lia). by rewrite Hs.
  - assert (is_ascii a = false) as -> by (byte_tests; lia).
    assert (seq2 a b = false) as -> by (byte_tests; lia). by rewrite Hs.
  - assert (is_ascii a = false) as -> by (byte_tests; lia).
    assert (seq2 a b = false) as -> by (byte_tests; lia).
    assert (seq3 a b c = false) as -> by (byte_tests; lia). by rewrite Hs.
Qed.

Definition chunk_valid (ch : chunk) : chunk :=
  match ch with Invalid _ => Multi replacement | ch => ch end.

Lemma chunks_chunk_out ch rest :
  wf_chunk ch → chunks (chunk_out ch ++ rest) = chunk_valid ch :: chunks rest.
Proof.
  intros Hw. destruct ch as [c|l|c]; [by apply chunks_app|by apply chunks_app|].
  apply (chunks_app (Multi replacement)); [|done]. by apply wf_Multi3.
Qed.

Lemma chunks_sanitize l : chunks (sanitize l) = chunk_valid <$> chunks l.
Proof.
  unfold sanitize. pose proof (chunks_wf l) as HF.
  induction HF as [|ch cs Hw HF IH]; [done|].
  cbn [mbind list_bind fmap list_fmap]. rewrite chunks_chunk_out by done. by f_equal.
Qed.

Lemma sanitize_valid l : valid_utf8 (sanitize l) = true.
Proof.
  unfold valid_utf8. rewrite chunks_sanitize. apply forallb_forall. intros ch Hin.
  apply in_map_iff in Hin as ([] & <- & _); done.
Qed.

Lemma chunks_bytes l : chunks l ≫= chunk_bytes = l.
Proof.
  induction l as [l IH] using bytes_suffix_ind.
  destruct l as [|a l1]; [done|]. simpl.
  assert (∀ ch k, (length k < S (length l1))%nat →
    (ch :: chunks k) ≫= chunk_bytes = chunk_bytes ch ++ k) as Hk.
  { intros ch k Hk. csimpl. f_equal. by apply IH. }
  destruct (is_ascii a); [rewrite Hk; [done|lia]|].
  destruct l1 as [|b l2]; [done|].
  destruct (seq2 a b); [rewrite Hk; [done|simpl; lia]|].
  destruct l2 as [|c l3]; [rewrite Hk; [done|simpl; lia]|].
  destruct (seq3 a b c); [rewrite Hk; [done|simpl; lia]|].
  destruct l3 as [|d l4]; [rewrite Hk; [done|simpl; lia]|].
  destruct (seq4 a b c d); rewrite Hk; done || (simpl; lia).
Qed.

(** A valid string is its own sanitized copy. *)
Lemma sanitize_id l : valid_utf8 l = true → sanitize l = l.
Proof.
  unfold valid_utf8, sanitize. rewrite forallb_Forall. intros Hv.
  rewrite <- (chunks_bytes l) at 2. induction Hv as [|ch cs Hc _ IH]; [done|].
  csimpl. rewrite IH. by destruct ch.
Qed.

Lemma sanitize_idemp l : sanitize (sanitize l) = sanitize l.
Proof. apply sanitize_id, sanitize_valid. Qed.

(** What [encode_rune] writes is one well-formed chunk. *)
Lemma encode_rune_chunk r : ∃ ch, encode_rune r = chunk_out ch ∧ wf_chunk ch ∧ is_valid_chunk ch = true.
Proof.
  unfold encode_rune. destruct (is_scalar r) eqn:Es; simpl.
  2: { exists (Multi replacement). split_and!; try done. by apply wf_Multi3. }
  unfold is_scalar in Es.
  pose proof (Z.div_mod r 64 ltac:(lia)). pose proof (Z.mod_pos_bound r 64 ltac:(lia)).
  pose proof (Z.div_mod r 4096 ltac:(lia)). pose proof (Z.mod_pos_bound r 4096 ltac:(lia)).
  pose proof (Z.div_mod r 262144 ltac:(lia)). pose proof (Z.mod_pos_bound r 262144 ltac:(lia)).
  destruct (Z.ltb_spec r 128).
  { exists (Single (byte_of r)). split_and!; try done. constructor.
    unfold is_ascii. rewrite byte_val_of; lia. }
  destruct (Z.ltb_spec r 2048).
  { eexists (Multi [_; _]). split_and!; try done. constructor.
    byte_tests. rewrite !byte_val_of by lia. lia. }
  pose proof (Z.div_mod (r / 64) 64 ltac:(lia)). pose proof (Z.mod_pos_bound (r / 64) 64 ltac:(lia)).
  rewrite (Z.div_div r 64 64) in * by lia. change (64 * 64) with 4096 in *.
  destruct (Z.ltb_spec r 65536).
  { eexists (Multi [_; _; _]). split_and!; try done. constructor.
    byte_tests. rewrite !byte_val_of by lia. lia. }
  pose proof (Z.div_mod (r / 4096) 64 ltac:(lia)). pose proof (Z.mod_pos_bound (r / 4096) 64 ltac:(lia)).
  rewrite (Z.div_div r 4096 64) in * by lia. change (4096 * 64) with 262144 in *.
  eexists (Multi [_; _; _; _]). split_and!; try done. constructor.
  byte_tests. rewrite !byte_val_of by lia. lia.
Qed.

Lemma chunks_encode_rune r rest : ∃ ch,
  is_valid_chunk ch = true ∧ chunks (encode_rune r ++ rest) = ch :: chunks rest.
Proof.
  destruct (encode_rune_chunk r) as (ch & -> & Hw & Hv). exists ch.
  split; [done|]. by apply chunks_app.
Qed.

Lemma valid_utf8_app ch rest :
  wf_chunk ch → is_valid_chunk ch = true →
  valid_utf8 (chunk_out ch ++ rest) = valid_utf8 rest.
Proof. intros Hw Hv. unfold valid_utf8. rewrite chunks_app by done. simpl. by rewrite Hv. Qed.

Lemma valid_utf8_ascii l : Forall (λ c, is_ascii c = true) l → valid_utf8 l = true.
Proof.
  induction 1 as [|c l Hc _ IH]; [done|].
  rewrite <- IH. apply (valid_utf8_app (Single c) l); auto.
Qed.

(** A text between two bytes that are not white space is left alone. *)
Lemma TrimSpace_id c m d :
  is_ascii c = true → is_space_chunk (Single c) = false →
  is_ascii d = true → is_space_chunk (Single d) = false →
  TrimSpace (c :: m ++ [d]) = c :: m ++ [d].
Proof.
  intros Hc Hsc Hd Hsd.
  assert (∃ cs, chunks (m ++ [d]) = cs ++ [Single d]) as [cs Hcs].
  { induction m as [m IH] using bytes_suffix_ind. destruct m as [|a m1].
    { exists []. cbn [app chunks]. by rewrite Hd. }
    assert (∀ ch k, (length k < S (length m1))%nat → ∃ cs, ch :: chunks (k ++ [d]) = cs ++ [Single d]) as Hk.
    { intros ch k Hk. destruct (IH k Hk) as [cs ->]. by exists (ch :: cs). }
    cbn [app chunks]. destruct (is_ascii a); [apply Hk; simpl; lia|].
    assert (∀ x y z, seq2 x d = false ∧ seq3 x d y = false ∧ seq3 x y d = false
      ∧ seq4 x y z d = false ∧ seq4 x y d z = false ∧ seq4 x d y z = false) as Hno.
    { intros x y z. byte_tests. lia. }
    destruct m1 as [|b m2]; cbn [app].
    { destruct (Hno a a a) as (-> & _). apply (Hk _ []). simpl; lia. }
    destruct (seq2 a b); [apply Hk; simpl; lia|].
    destruct m2 as [|e m3]; cbn [app].
    { destruct (Hno a b b) as (_ & _ & -> & _). apply (Hk _ [b]). simpl; lia. }
    destruct (seq3 a b e); [apply Hk; simpl; lia|].
    destruct m3 as [|f m4]; cbn [app].
    { destruct (Hno a b e) as (_ & _ & _ & -> & _). apply (Hk _ [b; e]). simpl; lia. }
    destruct (seq4 a b e f); [apply Hk; simpl; lia|].
    apply (Hk _ (b :: e :: f :: m4)). simpl; lia. }
  unfold TrimSpace. assert (chunks (c :: m ++ [d]) = Single c :: cs ++ [Single d]) as E
    by (cbn [chunks]; by rewrite Hc, Hcs).
  assert (drop_space (chunks (c :: m ++ [d])) = chunks (c :: m ++ [d])) as ->.
  { rewrite E. cbn [drop_space]. by rewrite Hsc. }
  assert (rev (chunks (c :: m ++ [d])) = Single d :: rev (Single c :: cs)) as Er.
  { rewrite E, app_comm_cons, rev_app_distr. done. }
  assert (drop_space (rev (chunks (c :: m ++ [d]))) = rev (chunks (c :: m ++ [d]))) as ->.
  { rewrite Er. cbn [drop_space]. by rewrite Hsd. }
  rewrite rev_involutive. apply chunks_bytes.
Qed.
