(* ===== verification/GoJson.v ===== *)
(** * JSON as Go's [encoding/json] reads and writes it

    [step] is the scanner of [encoding/json], one byte at a time, with the
    stack of open arrays and objects; it also builds the tree of the value.
    Strings and numbers of the tree keep the bytes of the text, because what
    they mean depends on the Go type they are decoded into.  [render] prints a
    tree, compactly or indented; [quote] and [unquote] convert Go strings. *)

From S2P Require Import Prelude GoStrconv GoUtf8.
From Stdlib Require Import Ascii.

Local Open Scope Z_scope.

#[local] Unset Elimination Schemes.

Inductive json :=
  | JNull
  | JBool (b : bool)
  | JNum (lit : bytes)
  | JStr (raw : bytes)                  (** the bytes between the quotes *)
  | JArr (l : list json)
  | JObj (m : list (bytes * json)).     (** raw keys, in order of appearance *)

#[local] Set Elimination Schemes.

(** Induction on trees, with the hypothesis for every element and member. *)
Definition json_ind (P : json → Prop)
    (Hnull : P JNull) (Hbool : ∀ b, P (JBool b)) (Hnum : ∀ lit, P (JNum lit))
    (Hstr : ∀ raw, P (JStr raw))
    (Harr : ∀ l, Forall P l → P (JArr l))
    (Hobj : ∀ m, Forall (λ kv, P kv.2) m → P (JObj m)) : ∀ j, P j :=
  fix go j :=
    match j with
    | JNull => Hnull
    | JBool b => Hbool b
    | JNum lit => Hnum lit
    | JStr raw => Hstr raw
    | JArr l =>
        Harr l ((fix all l : Forall P l :=
          match l with [] => Forall_nil_2 P | x :: l => Forall_cons_2 P x l (go x) (all l) end) l)
    | JObj m =>
        Hobj m ((fix all m : Forall (λ kv, P kv.2) m :=
          match m with
          | [] => Forall_nil_2 _
          | kv :: m => Forall_cons_2 (λ kv, P kv.2) kv m (go kv.2) (all m)
          end) m)
    end.

Definition quote_char : ascii := "034"%char.

Definition ceq (c d : ascii) : bool := Ascii.eqb c d.

(** ** Lexical machines *)

Definition is_space (c : ascii) : bool :=
  ceq c " " || ceq c "009" || ceq c "010" || ceq c "013".

Definition hex_val (c : ascii) : option Z :=
  if is_digit c then Some (byte_val c - 48)
  else if in_range 97 102 c then Some (byte_val c - 87)
  else if in_range 65 70 c then Some (byte_val c - 55)
  else None.

(** Inside a string: plain, after a backslash, expecting hex digits. *)
Inductive str_state := SPlain | SEsc | SHex (n : nat).

Definition is_escape (c : ascii) : bool :=
  ceq c "b" || ceq c "f" || ceq c "n" || ceq c "r" || ceq c "t"
  || ceq c "\" || ceq c "/" || ceq c quote_char.

Definition str_step (s : str_state) (c : ascii) : option str_state :=
  match s with
  | SPlain =>
      if ceq c "\" then Some SEsc
      else if ceq c quote_char || (byte_val c <? 32) then None
      else Some SPlain
  | SEsc => if is_escape c then Some SPlain else if ceq c "u" then Some (SHex 3) else None
  | SHex n =>
      match hex_val c with
      | Some _ => Some (match n with O => SPlain | S n => SHex n end)
      | None => None
      end
  end.

(** Inside a number: [stateNeg], [state0], [state1], [stateDot], [stateDot0],
    [stateE], [stateESign], [stateE0] of the scanner. *)
Inductive num_state := NStart | NNeg | NZero | NInt | NDot | NFrac | NE | NESign | NExp.

Definition num_step (s : num_state) (c : ascii) : option num_state :=
  let exponent := if ceq c "e" || ceq c "E" then Some NE else None in
  let fraction := if ceq c "." then Some NDot else exponent in
  match s with
  | NStart => if ceq c "-" then Some NNeg
              else if ceq c "0" then Some NZero else if is_digit c then Some NInt else None
  | NNeg => if ceq c "0" then Some NZero else if is_digit c then Some NInt else None
  | NZero => fraction
  | NInt => if is_digit c then Some NInt else fraction
  | NDot => if is_digit c then Some NFrac else None
  | NFrac => if is_digit c then Some NFrac else exponent
  | NE => if ceq c "+" || ceq c "-" then Some NESign else if is_digit c then Some NExp else None
  | NESign => if is_digit c then Some NExp else None
  | NExp => if is_digit c then Some NExp else None
  end.

Definition num_final (s : num_state) : bool :=
  match s with NZero | NInt | NFrac | NExp => true | _ => false end.

(** ** The scanner *)

(** An open array with its elements so far, or an open object with its members
    so far and the key whose value is expected; latest first. *)
Inductive frame :=
  | FArr (done : list json)
  | FObj (done : list (bytes * json)) (key : option bytes).

Inductive mode :=
  | BeginValue
  | BeginValueOrEmpty
  | BeginKeyOrEmpty
  | BeginKey
  | AfterKey
  | AfterValue
  | EndTop (v : json)
  | InStr (s : str_state) (acc : bytes)
  | InNum (s : num_state) (acc : bytes)
  | InLit (rest : bytes) (v : json).

Abbreviation pstate := (mode * list frame)%type.

(** A value is complete. *)
Definition finish (v : json) (k : list frame) : option pstate :=
  match k with
  | [] => Some (EndTop v, [])
  | FArr done :: k => Some (AfterValue, FArr (v :: done) :: k)
  | FObj done (Some key) :: k => Some (AfterValue, FObj ((key, v) :: done) None :: k)
  | FObj done None :: k => None
  end.

(** [maxNestingDepth]. *)
Definition maxNestingDepth : Z := 10000.

Definition open_frame (m : mode) (f : frame) (k : list frame) : option pstate :=
  if maxNestingDepth <? Z.of_nat (length (f :: k)) then None else Some (m, f :: k).

Definition begin_value (c : ascii) (k : list frame) : option pstate :=
  if ceq c "{" then open_frame BeginKeyOrEmpty (FObj [] None) k
  else if ceq c "[" then open_frame BeginValueOrEmpty (FArr []) k
  else if ceq c quote_char then Some (InStr SPlain [], k)
  else if ceq c "t" then Some (InLit (to_bytes "rue") (JBool true), k)
  else if ceq c "f" then Some (InLit (to_bytes "alse") (JBool false), k)
  else if ceq c "n" then Some (InLit (to_bytes "ull") JNull, k)
  else match num_step NStart c with
       | Some s => Some (InNum s [c], k)
       | None => None
       end.

Definition close_array (k : list frame) : option pstate :=
  match k with FArr done :: k => finish (JArr (rev done)) k | _ => None end.

Definition close_object (k : list frame) : option pstate :=
  match k with FObj done None :: k => finish (JObj (rev done)) k | _ => None end.

(** [stateEndValue] and [stateEndTop]. *)
Definition after_value (c : ascii) (st : pstate) : option pstate :=
  if is_space c then Some st
  else match st with
  | (AfterValue, FArr _ :: _) =>
      if ceq c "," then Some (BeginValue, st.2)
      else if ceq c "]" then close_array st.2 else None
  | (AfterValue, FObj _ _ :: _) =>
      if ceq c "," then Some (BeginKey, st.2)
      else if ceq c "}" then close_object st.2 else None
  | _ => None
  end.

Definition end_string (raw : bytes) (k : list frame) : option pstate :=
  match k with
  | FObj done None :: k => Some (AfterKey, FObj done (Some raw) :: k)
  | _ => finish (JStr raw) k
  end.

Definition step (c : ascii) (st : pstate) : option pstate :=
  let '(m, k) := st in
  match m with
  | BeginValue => if is_space c then Some st else begin_value c k
  | BeginValueOrEmpty =>
      if is_space c then Some st
      else if ceq c "]" then close_array k else begin_value c k
  | BeginKeyOrEmpty =>
      if is_space c then Some st
      else if ceq c "}" then close_object k
      else if ceq c quote_char then Some (InStr SPlain [], k) else None
  | BeginKey =>
      if is_space c then Some st
      else if ceq c quote_char then Some (InStr SPlain [], k) else None
  | AfterKey =>
      if is_space c then Some st else if ceq c ":" then Some (BeginValue, k) else None
  | AfterValue | EndTop _ => after_value c st
  | InStr s acc =>
      match s, ceq c quote_char with
      | SPlain, true => end_string (rev acc) k
      | _, _ => s' ← str_step s c; Some (InStr s' (c :: acc), k)
      end
  | InNum s acc =>
      match num_step s c with
      | Some s' => Some (InNum s' (c :: acc), k)
      | None => if num_final s then finish (JNum (rev acc)) k ≫= after_value c else None
      end
  | InLit [] v => None
  | InLit (x :: rest) v =>
      if ceq c x then
        match rest with [] => finish v k | _ => Some (InLit rest v, k) end
      else None
  end.

Fixpoint scan (l : bytes) (st : pstate) : option pstate :=
  match l with
  | [] => Some st
  | c :: l => st' ← step c st; scan l st'
  end.

Definition initial : pstate := (BeginValue, []).

(** The end of the input counts as one space. *)
Definition eof (st : pstate) : option json :=
  match step " " st with Some (EndTop v, _) => Some v | _ => None end.

(** The one value of a text, white space around it allowed. *)
Definition parse (l : bytes) : option json := st ← scan l initial; eof st.

(** [json.Valid]. *)
Definition json_Valid (l : bytes) : bool := bool_decide (is_Some (parse l)).

(** ** Printing *)

Fixpoint join (sep : bytes) (ls : list bytes) : bytes :=
  match ls with
  | [] => []
  | [x] => x
  | x :: ls => x ++ sep ++ join sep ls
  end.

Definition in_quotes (raw : bytes) : bytes := quote_char :: raw ++ [quote_char].

(** [nl d] is what separates the lines at depth [d], [colon] what follows a
    key.  Empty arrays and objects stay on one line. *)
Section render.
Context (nl : nat → bytes) (colon : bytes).

Fixpoint render (d : nat) (j : json) : bytes :=
  match j with
  | JNull => to_bytes "null"
  | JBool true => to_bytes "true"
  | JBool false => to_bytes "false"
  | JNum lit => lit
  | JStr raw => in_quotes raw
  | JArr [] => to_bytes "[]"
  | JArr l =>
      "["%char :: nl (S d) ++ join (","%char :: nl (S d)) (map (render (S d)) l) ++ nl d ++ ["]"%char]
  | JObj [] => to_bytes "{}"
  | JObj m =>
      "{"%char :: nl (S d)
        ++ join (","%char :: nl (S d)) (map (λ kv, in_quotes kv.1 ++ colon ++ render (S d) kv.2) m)
        ++ nl d ++ ["}"%char]
  end.
End render.

(** [json.Marshal] and [json.MarshalIndent(v, _, two spaces)] of a tree. *)
Definition compact : json → bytes := render (λ _, []) [":"%char] 0.
Definition indented : json → bytes :=
  render (λ d, "010"%char :: replicate (2 * d) " "%char) [":"%char; " "%char] 0.

(** ** Strings *)

Definition hex_digit (z : Z) : ascii := byte_of (if z <? 10 then 48 + z else 87 + z).

(** [htmlSafeSet]: ASCII bytes copied as they are. *)
Definition html_safe (c : ascii) : bool :=
  (32 <=? byte_val c) && negb (ceq c quote_char || ceq c "\" || ceq c "<" || ceq c ">" || ceq c "&").

Definition quote_single (c : ascii) : bytes :=
  if html_safe c then [c]
  else if ceq c quote_char || ceq c "\" then ["\"%char; c]
  else if ceq c "008" then to_bytes "\b"
  else if ceq c "012" then to_bytes "\f"
  else if ceq c "010" then to_bytes "\n"
  else if ceq c "013" then to_bytes "\r"
  else if ceq c "009" then to_bytes "\t"
  else to_bytes "\u00" ++ [hex_digit (byte_val c / 16); hex_digit (byte_val c mod 16)].

(** U+2028 and U+2029 are escaped, as is a byte that is not UTF-8. *)
Definition line_separator : bytes := byte_of <$> [226; 128; 168].
Definition paragraph_separator : bytes := byte_of <$> [226; 128; 169].

Definition quote_chunk (ch : chunk) : bytes :=
  match ch with
  | Single c => quote_single c
  | Multi l =>
      if decide (l = line_separator) then to_bytes "\u2028"
      else if decide (l = paragraph_separator) then to_bytes "\u2029"
      else l
  | Invalid _ => to_bytes "\ufffd"
  end.

(** [appendString] with HTML escaping, without the quotes around it. *)
Definition quote (l : bytes) : bytes := chunks l ≫= quote_chunk.

Definition hex4 (a b c d : ascii) : option Z :=
  x ← hex_val a; y ← hex_val b; z ← hex_val c; w ← hex_val d;
  Some (x * 4096 + y * 256 + z * 16 + w).

Definition is_surrogate (r : Z) : bool := (55296 <=? r) && (r <? 57344).

(** [utf16.DecodeRune], [None] for U+FFFD. *)
Definition surrogate_pair (r1 r2 : Z) : option Z :=
  if (55296 <=? r1) && (r1 <? 56320) && (56320 <=? r2) && (r2 <? 57344)
  then Some ((r1 - 55296) * 1024 + (r2 - 56320) + 65536) else None.

Definition unescape (e : ascii) : option ascii :=
  if ceq e quote_char || ceq e "\" || ceq e "/" || ceq e "'" then Some e
  else if ceq e "b" then Some "008"%char
  else if ceq e "f" then Some "012"%char
  else if ceq e "n" then Some "010"%char
  else if ceq e "r" then Some "013"%char
  else if ceq e "t" then Some "009"%char
  else None.


(** [unquoteBytes], on the bytes between the quotes. *)
Fixpoint unquote (l : bytes) : option bytes :=
  match l with
  | [] => Some []
  | c :: l1 =>
    if ceq c "\" then
      match l1 with
      | [] => None
      | e :: l2 =>
        if ceq e "u" then
          match l2 with
          | h1 :: h2 :: h3 :: h4 :: l3 =>
            match hex4 h1 h2 h3 h4 with
            | None => None
            | Some r =>
              if is_surrogate r then
                match l3 with
                | b :: u :: g1 :: g2 :: g3 :: g4 :: l4 =>
                  match (if ceq b "\" && ceq u "u"
                         then hex4 g1 g2 g3 g4 ≫= surrogate_pair r else None) with
                  | Some r' => app (encode_rune r') <$> unquote l4
                  | None => app replacement <$> unquote l3
                  end
                | _ => app replacement <$> unquote l3
                end
              else app (encode_rune r) <$> unquote l3
            end
          | _ => None
          end
        else x ← unescape e; cons x <$> unquote l2
      end
    else if ceq c quote_char || (byte_val c <? 32) then None
    else if is_ascii c then cons c <$> unquote l1
    else match l1 with
      | b :: l2 =>
        if seq2 c b then app [c; b] <$> unquote l2
        else match l2 with
          | d :: l3 =>
            if seq3 c b d then app [c; b; d] <$> unquote l3
            else match l3 with
              | e :: l4 =>
                if seq4 c b d e then app [c; b; d; e] <$> unquote l4
                else app replacement <$> unquote l1
              | [] => app replacement <$> unquote l1
              end
          | [] => app replacement <$> unquote l1
          end
      | [] => app replacement <$> unquote l1
      end
  end.
