(* ===== verification/GoJsonFacts.v ===== *)
(** * Facts about the JSON scanner and printer

    Printing a tree and scanning it gives the tree back, whatever white space
    the printer puts between tokens; what the scanner builds is well formed; no
    proper prefix of the text of an object is accepted; [unquote] undoes [quote] up to the replacement of bytes that
    are not UTF-8. *)

From S2P Require Import Prelude GoStrconv GoUtf8 GoJson.
From Stdlib Require Import Ascii.

Local Open Scope Z_scope.

Fixpoint run {S} (f : S → ascii → option S) (l : bytes) (s : S) : option S :=
  match l with
  | [] => Some s
  | c :: l => s' ← f s c; run f l s'
  end.

Lemma run_app {S} (f : S → ascii → option S) l1 l2 s :
  run f (l1 ++ l2) s = run f l1 s ≫= run f l2.
Proof. revert s. induction l1 as [|c l1 IH]; intros s; simpl; [done|]. destruct (f s c); [apply IH|done]. Qed.

Definition is_plain (s : str_state) : bool := match s with SPlain => true | _ => false end.

(** What may stand between two quotes, and what is a number. *)
Definition raw_ok (raw : bytes) : bool :=
  match run str_step raw SPlain with Some s => is_plain s | None => false end.

Definition num_ok (lit : bytes) : bool :=
  match run num_step lit NStart with Some s => num_final s | None => false end.

Fixpoint wf_json (j : json) : bool :=
  match j with
  | JNull | JBool _ => true
  | JNum lit => num_ok lit
  | JStr raw => raw_ok raw
  | JArr l => forallb wf_json l
  | JObj m => forallb (λ kv, raw_ok kv.1 && wf_json kv.2) m
  end.

(** Nesting depth. *)
Fixpoint height (j : json) : nat :=
  match j with
  | JArr l => S (max_list (map height l))
  | JObj m => S (max_list (map (λ kv, height kv.2) m))
  | _ => 0
  end.

Lemma raw_ok_run raw : raw_ok raw = true ↔ run str_step raw SPlain = Some SPlain.
Proof. unfold raw_ok. destruct (run str_step raw SPlain) as [[]|]; naive_solver. Qed.

Lemma num_ok_run lit :
  num_ok lit = true ↔ ∃ s, run num_step lit NStart = Some s ∧ num_final s = true.
Proof. unfold num_ok. destruct (run num_step lit NStart); naive_solver. Qed.

(** ** Scanning pieces of a text *)

Lemma scan_app l1 l2 st : scan (l1 ++ l2) st = scan l1 st ≫= scan l2.
Proof. revert st. induction l1 as [|c l1 IH]; intros st; simpl; [done|]. destruct (step c st); [apply IH|done]. Qed.

Lemma ceq_iff c d : ceq c d = true ↔ c = d.
Proof. apply Ascii.eqb_eq. Qed.

Lemma str_step_quote s c :
  is_Some (str_step s c) → s = SPlain → ceq c quote_char = false.
Proof.
  intros [s' Hs] ->. simpl in Hs. destruct (ceq c quote_char) eqn:E; [|done].
  apply ceq_iff in E as ->. discriminate Hs.
Qed.

Lemma scan_str raw s s' acc k :
  run str_step raw s = Some s' → scan raw (InStr s acc, k) = Some (InStr s' (rev raw ++ acc), k).
Proof.
  revert s acc. induction raw as [|c raw IH]; intros s acc; simpl; [by intros [= ->]|].
  destruct (str_step s c) as [t|] eqn:E; [|done]. simpl. intros Hr.
  assert ((match s, ceq c quote_char with
           | SPlain, true => end_string (rev acc) k
           | _, _ => Some (InStr t (c :: acc), k) end) = Some (InStr t (c :: acc), k)) as Hs.
  { destruct s; try done. by rewrite (str_step_quote SPlain c) by eauto. }
  destruct s, (ceq c quote_char); simpl in *; simplify_option_eq;
    rewrite IH by done; by rewrite <- app_assoc.
Qed.

(** A quoted string, read where a value or a key may begin. *)
Definition begins_string (m : mode) : bool :=
  match m with
  | BeginValue | BeginValueOrEmpty | BeginKeyOrEmpty | BeginKey => true
  | _ => false
  end.

Lemma scan_quoted raw m k :
  raw_ok raw = true → begins_string m = true → scan (in_quotes raw) (m, k) = end_string raw k.
Proof.
  intros Hr%raw_ok_run Hm. unfold in_quotes.
  change (quote_char :: raw ++ [quote_char]) with ([quote_char] ++ raw ++ [quote_char]).
  rewrite scan_app.
  assert (scan [quote_char] (m, k) = Some (InStr SPlain [], k)) as -> by (by destruct m).
  cbn [mbind option_bind]. rewrite scan_app, (scan_str _ _ _ _ _ Hr), app_nil_r.
  cbn [mbind option_bind scan step]. change (ceq quote_char quote_char) with true. cbn iota.
  rewrite rev_involutive. by destruct (end_string raw k).
Qed.

Lemma scan_num lit s s' acc k :
  run num_step lit s = Some s' → scan lit (InNum s acc, k) = Some (InNum s' (rev lit ++ acc), k).
Proof.
  revert s acc. induction lit as [|c lit IH]; intros s acc; simpl; [by intros [= ->]|].
  destruct (num_step s c) as [t|] eqn:E; [|done]. simpl. intros Hr.
  rewrite IH by done. by rewrite <- app_assoc.
Qed.

Lemma num_start c s : num_step NStart c = Some s → c = "-"%char ∨ is_digit c = true.
Proof.
  unfold num_step. destruct (ceq c "-") eqn:E1; [rewrite ceq_iff in E1; auto|].
  destruct (ceq c "0") eqn:E2; [rewrite ceq_iff in E2; subst; auto|].
  by destruct (is_digit c); [right|].
Qed.

Lemma begin_num c s k : num_step NStart c = Some s →
  is_space c = false ∧ ceq c "]" = false ∧ begin_value c k = Some (InNum s [c], k).
Proof.
  intros Hs. destruct (num_start c s Hs) as [->|Hd].
  { simpl in Hs. by simplify_eq. }
  assert (∀ d, is_digit d = false → ceq c d = false) as Hne.
  { intros d Hd'. destruct (ceq c d) eqn:E; [|done]. apply ceq_iff in E. congruence. }
  unfold is_space, begin_value. rewrite !Hne by done. rewrite Hs. done.
Qed.

(** A number is not known to be complete until a byte follows that cannot
    continue it: [settle] completes it. *)
Definition settle (st : pstate) : option pstate :=
  match st with
  | (InNum s acc, k) => if num_final s then finish (JNum (rev acc)) k else None
  | _ => Some st
  end.

Definition delimiter (c : ascii) : bool := is_space c || ceq c "," || ceq c "]" || ceq c "}".

Lemma delimiter_num s c : delimiter c = true → num_final s = true → num_step s c = None.
Proof.
  unfold delimiter, is_space. rewrite !orb_true_iff, !ceq_iff.
  intros Hc Hs. destruct_or! Hc; subst; by destruct s.
Qed.

Lemma finish_after v k st c : finish v k = Some st → step c st = after_value c st.
Proof.
  destruct k as [|[done|done [key|]] k]; simpl; intros; by simplify_eq.
Qed.

Lemma settle_step c st st' : delimiter c = true → settle st = Some st' → step c st = step c st'.
Proof.
  intros Hc. destruct st as [m k]. destruct m; simpl; try by intros [= <-].
  destruct (num_final s) eqn:Es; [|done]. intros Hf.
  rewrite (delimiter_num s c) by done. rewrite Hf. simpl. by rewrite (finish_after _ _ _ _ Hf).
Qed.

Lemma scan_settle c l st st' :
  delimiter c = true → settle st = Some st' → scan (c :: l) st = scan (c :: l) st'.
Proof. intros Hc Hs. simpl. by rewrite (settle_step c st st'). Qed.

Lemma eof_settle st st' : settle st = Some st' → eof st = eof st'.
Proof. intros Hs. unfold eof. by rewrite (settle_step _ st st'). Qed.

(** White space between tokens. *)
Definition all_space (l : bytes) : Prop := Forall (λ c, is_space c = true) l.

Definition tolerant (m : mode) : bool :=
  match m with InStr _ _ | InNum _ _ | InLit _ _ => false | _ => true end.

Lemma scan_space l m k : all_space l → tolerant m = true → scan l (m, k) = Some (m, k).
Proof.
  intros Hl Hm. induction Hl as [|c l Hc _ IH]; [done|]. cbn [scan].
  assert (step c (m, k) = Some (m, k)) as ->; [|done].
  destruct m; try done; simpl; unfold after_value; by rewrite Hc.
Qed.

(** ** Printing and scanning *)

Section render.
Context (nl : nat → bytes) (colon : bytes).
Context (Hnl : ∀ d, all_space (nl d)).
Context (Hcolon : ∃ sp, colon = ":"%char :: sp ∧ all_space sp).

Lemma render_head d j : wf_json j = true → ∃ c l,
  render nl colon d j = c :: l ∧ is_space c = false ∧ ceq c "]" = false.
Proof.
  destruct j as [|[]|lit|raw|[|x l]|[|kv m]]; simpl; intros Hw; eauto 10.
  apply num_ok_run in Hw as (s & Hr & Hf). destruct lit as [|c lit]; cbn [run] in Hr; [by simplify_eq|].
  destruct (num_step NStart c) eqn:E; [|by simplify_eq/=].
  destruct (begin_num c _ [] E) as (? & ? & _). eauto.
Qed.

Lemma scan_or_empty d j k : wf_json j = true →
  scan (render nl colon d j) (BeginValueOrEmpty, k) = scan (render nl colon d j) (BeginValue, k).
Proof.
  intros Hw. destruct (render_head d j Hw) as (c & l & -> & Hs & Hb). simpl. by rewrite Hs, Hb.
Qed.

(** Scanning [l] from [st] reads one value and arrives at [st'], up to the
    completion of a number. *)
Definition arrives (l : bytes) (st st' : pstate) : Prop :=
  ∃ st1, scan l st = Some st1 ∧ settle st1 = Some st'.

Definition reads (j : json) : Prop := ∀ d k st',
  wf_json j = true → finish j k = Some st' →
  (Z.of_nat (length k) + Z.of_nat (height j) <= maxNestingDepth)%Z →
  arrives (render nl colon d j) (BeginValue, k) st'.

Lemma arrives_then l c rest st st1 :
  arrives l st st1 → delimiter c = true → scan (l ++ c :: rest) st = scan (c :: rest) st1.
Proof.
  intros (st2 & Hl & Hs) Hc. rewrite scan_app, Hl. cbn [mbind option_bind]. by apply scan_settle.
Qed.

Lemma arrives_space l sp st st1 rest :
  arrives l st st1 → all_space sp → tolerant st1.1 = true →
  ∀ c, delimiter c = true → scan (l ++ sp ++ c :: rest) st = scan (c :: rest) st1.
Proof.
  intros Ha Hsp Ht c Hc. destruct sp as [|c' sp]; [by apply arrives_then|].
  inversion Hsp as [|?? Hc' Hsp']; subst. cbn [app]. rewrite (arrives_then _ _ _ _ _ Ha).
  - rewrite app_comm_cons, scan_app. destruct st1 as [m k]. by rewrite scan_space.
  - unfold delimiter. by rewrite Hc'.
Qed.

Lemma reads_elements l : Forall reads l → ∀ d k acc,
  l ≠ [] → forallb wf_json l = true →
  (Z.of_nat (length k) + 1 + Z.of_nat (max_list (map height l)) <= maxNestingDepth)%Z →
  arrives (join (","%char :: nl d) (map (render nl colon d) l))
    (BeginValue, FArr acc :: k) (AfterValue, FArr (rev l ++ acc) :: k).
Proof.
  induction 1 as [|x l Hx HF IH]; intros d k acc Hne Hw Hh; [done|]. simpl in Hw, Hh.
  apply andb_true_iff in Hw as [Hwx Hwl].
  assert (arrives (render nl colon d x) (BeginValue, FArr acc :: k)
            (AfterValue, FArr (x :: acc) :: k)) as Ha.
  { apply (Hx d (FArr acc :: k)); [done|done|]. simpl. lia. }
  destruct l as [|y l]; [done|].
  change (join (","%char :: nl d) (map (render nl colon d) (x :: y :: l))) with
    (render nl colon d x ++ ","%char :: (nl d ++ join (","%char :: nl d) (map (render nl colon d) (y :: l)))).
  destruct (IH d k (x :: acc)) as (st2 & H2 & Hs2); [done|done|simpl in *; lia|].
  exists st2. split; [|by rewrite Hs2; simpl; rewrite <- !app_assoc].
  rewrite (arrives_then _ _ _ _ _ Ha) by done. cbn [scan].
  change (step "," (AfterValue, FArr (x :: acc) :: k)) with (Some (BeginValue, FArr (x :: acc) :: k)).
  cbn [mbind option_bind]. by rewrite scan_app, scan_space.
Qed.

Definition member d (kv : bytes * json) : bytes := in_quotes kv.1 ++ colon ++ render nl colon d kv.2.

Lemma reads_member kv : reads kv.2 → ∀ d k acc m,
  raw_ok kv.1 = true → wf_json kv.2 = true → m = BeginKey ∨ m = BeginKeyOrEmpty →
  (Z.of_nat (length k) + 1 + Z.of_nat (height kv.2) <= maxNestingDepth)%Z →
  arrives (member d kv) (m, FObj acc None :: k) (AfterValue, FObj (kv :: acc) None :: k).
Proof.
  destruct kv as [key v]. intros Hv d k acc m Hr Hw Hm Hh. destruct Hcolon as (sp & Ec & Hsp).
  destruct (Hv d (FObj acc (Some key) :: k) _ Hw eq_refl) as (st2 & H2 & Hs2); [simpl in *; lia|].
  exists st2. split; [|done]. unfold member. cbn [fst snd]. rewrite scan_app, scan_quoted;
    [|done|by destruct Hm as [-> | ->]].
  cbn [mbind option_bind end_string]. rewrite Ec in H2 |- *. cbn [app scan].
  change (step ":" (AfterKey, FObj acc (Some key) :: k)) with
    (Some (BeginValue, FObj acc (Some key) :: k)).
  cbn [mbind option_bind]. rewrite scan_app, scan_space by done. exact H2.
Qed.

Lemma reads_members ms : Forall (λ kv, reads kv.2) ms → ∀ d k acc m,
  ms ≠ [] → forallb (λ kv, raw_ok kv.1 && wf_json kv.2) ms = true →
  m = BeginKey ∨ m = BeginKeyOrEmpty →
  (Z.of_nat (length k) + 1 + Z.of_nat (max_list (map (λ kv, height kv.2) ms)) <= maxNestingDepth)%Z →
  arrives (join (","%char :: nl d) (map (member d) ms))
    (m, FObj acc None :: k) (AfterValue, FObj (rev ms ++ acc) None :: k).
Proof.
  induction 1 as [|kv ms Hx HF IH]; intros d k acc m Hne Hw Hm Hh; [done|]. simpl in Hw, Hh.
  apply andb_true_iff in Hw as [[Hr Hwx]%andb_true_iff Hwl].
  assert (arrives (member d kv) (m, FObj acc None :: k)
            (AfterValue, FObj (kv :: acc) None :: k)) as Ha
    by (apply reads_member; try done; lia).
  destruct ms as [|kv2 ms]; [done|].
  change (join (","%char :: nl d) (map (member d) (kv :: kv2 :: ms))) with
    (member d kv ++ ","%char :: (nl d ++ join (","%char :: nl d) (map (member d) (kv2 :: ms)))).
  destruct (IH d k (kv :: acc) BeginKey) as (st2 & H2 & Hs2); [done|done|by left|simpl in *; lia|].
  exists st2. split; [|by rewrite Hs2; simpl; rewrite <- !app_assoc].
  rewrite (arrives_then _ _ _ _ _ Ha) by done. cbn [scan].
  change (step "," (AfterValue, FObj (kv :: acc) None :: k)) with
    (Some (BeginKey, FObj (kv :: acc) None :: k)).
  cbn [mbind option_bind]. by rewrite scan_app, scan_space.
Qed.

Lemma open_frame_ok m f k :
  (Z.of_nat (length k) + 1 <= maxNestingDepth)%Z → open_frame m f k = Some (m, f :: k).
Proof. intros Hk. 
  unfold open_frame. destruct (Z.ltb_spec maxNestingDepth (Z.of_nat (length (f :: k)))) as [Hl|]; [|done].
  rewrite length_cons in Hl. lia.
 Qed.

Lemma finish_settled v k st : finish v k = Some st → settle st = Some st ∧ tolerant st.1 = true.
Proof. destruct k as [|[acc|acc [key|]] k]; simpl; intros; by simplify_eq. Qed.

Lemma join_cons sep x ls : ∃ t, join sep (x :: ls) = x ++ t.
Proof. destruct ls; [exists []; by rewrite app_nil_r|by eexists]. Qed.

Lemma reads_num lit : reads (JNum lit).
Proof.
  intros d k st' Hw Hf Hh; simpl in Hw.
  apply num_ok_run in Hw as (s & Hr & Hs).
  destruct lit as [|c lit]; cbn [run] in Hr; [by simplify_eq|].
  destruct (num_step NStart c) as [s0|] eqn:E; [|done]. cbn [mbind option_bind] in Hr.
  destruct (begin_num c s0 k E) as (Hsp & _ & Hb). 
  exists (InNum s (rev lit ++ [c]), k). split.
  { change (render nl colon d (JNum (c :: lit))) with (c :: lit). cbn [scan step].
    rewrite Hsp, Hb. by apply scan_num. }
  simpl. by rewrite Hs, rev_app_distr, rev_involutive.
Qed.

Lemma reads_array l : Forall reads l → reads (JArr l).
Proof.
  intros IH d k st' Hw Hf Hh; simpl in Hw.
  exists st'. split; [|by destruct (finish_settled _ _ _ Hf)].
  cbn [height] in Hh.
  assert (step "[" (BeginValue, k) = Some (BeginValueOrEmpty, FArr [] :: k)) as Ho
    by (apply open_frame_ok; lia).
  destruct l as [|x l].
  { change (render nl colon d (JArr [])) with ("["%char :: to_bytes "]").
    cbn [scan]. rewrite Ho. simpl. by rewrite Hf. }
  change (render nl colon d (JArr (x :: l))) with ("["%char :: (nl (S d) ++
    join (","%char :: nl (S d)) (map (render nl colon (S d)) (x :: l)) ++ nl d ++ ["]"%char])).
  cbn [scan]. rewrite Ho. cbn [mbind option_bind].
  rewrite scan_app, scan_space by done. cbn [mbind option_bind].
  assert (arrives (join (","%char :: nl (S d)) (map (render nl colon (S d)) (x :: l)))
    (BeginValueOrEmpty, FArr [] :: k) (AfterValue, FArr (rev (x :: l) ++ []) :: k)) as Ha.
  { destruct (reads_elements _ IH (S d) k []) as (st1 & H1 & Hs1); [done|done|lia|].
    exists st1. split; [|done]. rewrite <- H1. rewrite map_cons.
    destruct (join_cons (","%char :: nl (S d)) (render nl colon (S d) x)
      (map (render nl colon (S d)) l)) as [t ->].
    rewrite !scan_app, scan_or_empty; [done|]. simpl in Hw. by apply andb_true_iff in Hw as [? _]. }
  rewrite (arrives_space _ _ _ _ [] Ha) by done.
  cbn [scan]. change (step "]" (AfterValue, FArr (rev (x :: l) ++ []) :: k)) with
    (finish (JArr (rev (rev (x :: l) ++ []))) k).
  rewrite app_nil_r, rev_involutive. by rewrite Hf.
Qed.

Lemma reads_object m : Forall (λ kv, reads kv.2) m → reads (JObj m).
Proof.
  intros IH d k st' Hw Hf Hh; simpl in Hw.
  exists st'. split; [|by destruct (finish_settled _ _ _ Hf)].
  cbn [height] in Hh.
  assert (step "{" (BeginValue, k) = Some (BeginKeyOrEmpty, FObj [] None :: k)) as Ho
    by (apply open_frame_ok; lia).
  destruct m as [|kv m].
  { change (render nl colon d (JObj [])) with ("{"%char :: to_bytes "}").
    cbn [scan]. rewrite Ho. simpl. by rewrite Hf. }
  change (render nl colon d (JObj (kv :: m))) with ("{"%char :: (nl (S d) ++
    join (","%char :: nl (S d)) (map (member (S d)) (kv :: m)) ++ nl d ++ ["}"%char])).
  cbn [scan]. rewrite Ho. cbn [mbind option_bind].
  rewrite scan_app, scan_space by done. cbn [mbind option_bind].
  assert (arrives (join (","%char :: nl (S d)) (map (member (S d)) (kv :: m)))
    (BeginKeyOrEmpty, FObj [] None :: k) (AfterValue, FObj (rev (kv :: m) ++ []) None :: k)) as Ha
    by (apply reads_members; [done|done|done|by right|lia]).
  rewrite (arrives_space _ _ _ _ [] Ha) by done.
  cbn [scan]. change (step "}" (AfterValue, FObj (rev (kv :: m) ++ []) None :: k)) with
    (finish (JObj (rev (rev (kv :: m) ++ []))) k).
  rewrite app_nil_r, rev_involutive. by rewrite Hf.
Qed.

Lemma render_reads j : reads j.
Proof.
  induction j as [|b|lit|raw|l IH|m IH] using json_ind;
    [| |apply reads_num| |by apply reads_array|by apply reads_object]; intros d k st' Hw Hf Hh; simpl in Hw.
  - exists st'. simpl. rewrite Hf. by destruct (finish_settled _ _ _ Hf).
  - exists st'. destruct b; simpl; rewrite Hf; by destruct (finish_settled _ _ _ Hf).
  - exists st'. simpl render. rewrite scan_quoted by done.
    assert (end_string raw k = Some st') as ->; [|by destruct (finish_settled _ _ _ Hf)].
    by destruct k as [|[acc|acc [key|]] k].
Qed.

(** Printing then parsing is the identity, with white space around. *)
Lemma parse_render d j sp sp' :
  wf_json j = true → (Z.of_nat (height j) <= maxNestingDepth)%Z →
  all_space sp → all_space sp' → parse (sp ++ render nl colon d j ++ sp') = Some j.
Proof.
  intros Hw Hh Hsp Hsp'. unfold parse, initial. rewrite scan_app, scan_space by done.
  cbn [mbind option_bind].
  destruct (render_reads j d [] (EndTop j, []) Hw eq_refl) as (st1 & H1 & Hs1); [simpl; lia|].
  rewrite scan_app, H1. cbn [mbind option_bind].
  destruct sp' as [|c sp']; simpl.
  - rewrite (eof_settle _ _ Hs1). done.
  - change (scan (c :: sp') st1 ≫= eof = Some j).
    assert (delimiter c = true) as Hc.
    { apply Forall_cons in Hsp' as [Hc _]. unfold delimiter. by rewrite Hc. }
    rewrite (scan_settle c sp' _ _ Hc Hs1). by rewrite scan_space.
Qed.
End render.

Lemma parse_compact j :
  wf_json j = true → (Z.of_nat (height j) <= maxNestingDepth)%Z → parse (compact j) = Some j.
Proof.
  intros Hw Hh. rewrite <- (app_nil_r (compact j)).
  apply (parse_render _ _ ltac:(by intros; constructor) ltac:(by exists []; split; [|constructor])
    0%nat j [] []); done || by constructor.
Qed.

Lemma parse_indented j sp :
  wf_json j = true → (Z.of_nat (height j) <= maxNestingDepth)%Z → all_space sp →
  parse (indented j ++ sp) = Some j.
Proof.
  intros Hw Hh Hsp. apply (parse_render _ _) with (d := 0%nat) (sp := []); try done; [| |constructor].
  - intros d. constructor; [done|]. apply Forall_replicate. done.
  - exists [" "%char]. split; [done|]. by repeat constructor.
Qed.

(** ** No control characters in compact text *)

Definition printable (l : bytes) : Prop := Forall (λ c, 32 <= byte_val c) l.

Lemma run_printable {S} (f : S → ascii → option S) l s s' :
  (∀ s c s', f s c = Some s' → 32 <= byte_val c) → run f l s = Some s' → printable l.
Proof.
  intros Hf. revert s. induction l as [|c l IH]; intros s; [by constructor|]. cbn [run].
  destruct (f s c) as [t|] eqn:E; [|done]. intros Hr. constructor; [by eapply Hf|by eapply IH].
Qed.

Lemma is_digit_32 c : is_digit c = true → 32 <= byte_val c.
Proof. rewrite is_digit_iff. lia. Qed.

Lemma hex_val_32 c z : hex_val c = Some z → 32 <= byte_val c ∧ 0 <= z < 16.
Proof. unfold hex_val, is_digit, in_range. intros H. repeat case_match; simplify_eq; lia. Qed.

Ltac solve_ceq :=
  repeat match goal with H : ceq _ _ = true |- _ => apply ceq_iff in H as -> end; try done.

Lemma num_step_32 s c s' : num_step s c = Some s' → 32 <= byte_val c.
Proof.
  destruct (is_digit c) eqn:Ed; [by intros; apply is_digit_32|].
  unfold num_step. rewrite Ed. intros H. destruct s; repeat case_match; simplify_eq; solve_ceq.
  all: match goal with H : (_ || _) = true |- _ => apply orb_true_iff in H as [H|H] end; solve_ceq.
Qed.

Lemma str_step_32 s c s' : str_step s c = Some s' → 32 <= byte_val c.
Proof.
  destruct s; simpl.
  - destruct (ceq c "\") eqn:E; [intros; solve_ceq|].
    destruct (ceq c quote_char); simpl; [done|]. destruct (Z.ltb_spec (byte_val c) 32); [done|lia].
  - unfold is_escape. intros H. repeat case_match; simplify_eq; solve_ceq.
    repeat match goal with H : (_ || _) = true |- _ => apply orb_true_iff in H as [H|H] end; solve_ceq.
  - destruct (hex_val c) eqn:E; [|done]. intros _. by destruct (hex_val_32 _ _ E).
Qed.

Lemma raw_ok_printable raw : raw_ok raw = true → printable raw.
Proof. rewrite raw_ok_run. apply run_printable, str_step_32. Qed.

Lemma num_ok_printable lit : num_ok lit = true → printable lit.
Proof. intros (s & Hr & _)%num_ok_run. by eapply run_printable; [apply num_step_32|]. Qed.

Lemma join_Forall (P : ascii → Prop) sep ls :
  Forall P sep → Forall (Forall P) ls → Forall P (join sep ls).
Proof.
  intros Hs. induction 1 as [|x ls Hx HF IH]; [constructor|]. simpl.
  destruct ls; [done|]. by repeat apply Forall_app_2.
Qed.

Lemma in_quotes_printable raw : raw_ok raw = true → printable (in_quotes raw).
Proof.
  intros Hr. constructor; [done|]. apply Forall_app_2; [by apply raw_ok_printable|by repeat constructor].
Qed.

Lemma render_printable d j : wf_json j = true → printable (render (λ _, []) [":"%char] d j).
Proof.
  revert d. induction j as [|[]|lit|raw|l IH|m IH] using json_ind; intros d Hw; simpl in Hw;
    try by repeat constructor.
  - by apply num_ok_printable.
  - by apply in_quotes_printable.
  - destruct l as [|x l]; [by repeat constructor|]. apply forallb_Forall in Hw.
    constructor; [done|]. cbn [app]. apply Forall_app_2; [|by repeat constructor].
    apply join_Forall; [by repeat constructor|]. apply Forall_fmap.
    eapply Forall_impl; [apply Forall_and; split; [exact IH|exact Hw]|]. intros y [Hy Hwy]. by apply Hy.
  - destruct m as [|x m]; [by repeat constructor|]. apply forallb_Forall in Hw.
    constructor; [done|]. cbn [app]. apply Forall_app_2; [|by repeat constructor].
    apply join_Forall; [by repeat constructor|]. apply Forall_fmap.
    eapply Forall_impl; [apply Forall_and; split; [exact IH|exact Hw]|].
    intros [key v] [Hy [Hk Hv]%andb_true_iff].
    apply Forall_app_2; [by apply in_quotes_printable|]. constructor; [done|]. by apply Hy.
Qed.

Lemma compact_printable j : wf_json j = true → printable (compact j).
Proof. apply render_printable. Qed.

(** ** What the scanner builds is well formed *)

Definition wf_frame (f : frame) : Prop :=
  match f with
  | FArr done => forallb wf_json done = true
  | FObj done key => forallb (λ kv, raw_ok kv.1 && wf_json kv.2) done = true
      ∧ match key with Some raw => raw_ok raw = true | None => True end
  end.

Definition wf_mode (m : mode) : Prop :=
  match m with
  | EndTop v | InLit _ v => wf_json v = true
  | InStr s acc => run str_step (rev acc) SPlain = Some s
  | InNum s acc => run num_step (rev acc) NStart = Some s
  | BeginValue | BeginValueOrEmpty | BeginKeyOrEmpty | BeginKey | AfterKey | AfterValue => True
  end.

Definition wf_pstate (st : pstate) : Prop := wf_mode st.1 ∧ Forall wf_frame st.2.

Lemma finish_wf v k st : finish v k = Some st → wf_json v = true → Forall wf_frame k → wf_pstate st.
Proof.
  intros H Hv Hk. destruct k as [|[acc|acc [key|]] k]; simpl in H; simplify_eq; [done| |];
    apply Forall_cons in Hk as [Hf Hk]; (split; [done|]); constructor; try done; cbn [wf_frame forallb] in *.
  - by rewrite Hv.
  - destruct Hf as [Ha Hr]. split; [|done]. cbn [fst snd]. by rewrite Hr, Hv.
Qed.

Lemma begin_value_wf c k st : begin_value c k = Some st → Forall wf_frame k → wf_pstate st.
Proof.
  intros H Hk. unfold begin_value, open_frame in H.
  repeat case_match; simplify_eq; (split; [try done|try done; by constructor]).
  match goal with E : num_step NStart c = Some _ |- _ => cbn [fst wf_mode rev app run]; by rewrite E end.
Qed.

Lemma forallb_rev {A} (f : A → bool) l : forallb f (rev l) = forallb f l.
Proof.
  induction l as [|x l IH]; [done|]. cbn [rev]. rewrite forallb_app, IH. cbn [forallb].
  by rewrite andb_true_r, andb_comm.
Qed.

Lemma close_array_wf k st : close_array k = Some st → Forall wf_frame k → wf_pstate st.
Proof.
  intros H Hk. destruct k as [|[acc|] k]; try done. apply Forall_cons in Hk as [Hf Hk].
  eapply finish_wf; [done| |done]. cbn [wf_json]. by rewrite forallb_rev.
Qed.

Lemma close_object_wf k st : close_object k = Some st → Forall wf_frame k → wf_pstate st.
Proof.
  intros H Hk. destruct k as [|[|acc [|]] k]; try done. apply Forall_cons in Hk as [[Hf _] Hk].
  eapply finish_wf; [done| |done]. cbn [wf_json]. by rewrite forallb_rev.
Qed.

Lemma end_string_wf raw k st : end_string raw k = Some st → raw_ok raw = true → Forall wf_frame k → wf_pstate st.
Proof.
  intros H Hr Hk. destruct k as [|[acc|acc [key|]] k]; cbn [end_string] in H; try by eapply finish_wf.
  apply Forall_cons in Hk as [[Hf _] Hk]. simplify_eq. split; [done|]. by constructor.
Qed.

Lemma after_value_wf c st st' : after_value c st = Some st' → wf_pstate st → wf_pstate st'.
Proof.
  intros H [Hm Hk]. unfold after_value in H. destruct st as [m k].
  repeat case_match; simplify_eq; try done; (by eapply close_array_wf) || by eapply close_object_wf.
Qed.

Lemma run_last {S} (f : S → ascii → option S) l c s s1 s2 :
  run f l s = Some s1 → f s1 c = Some s2 → run f (l ++ [c]) s = Some s2.
Proof. intros H1 H2. rewrite run_app, H1. cbn. by rewrite H2. Qed.

Lemma step_wf c st st' : step c st = Some st' → wf_pstate st → wf_pstate st'.
Proof.
  destruct st as [m k]. intros H Hw. pose proof Hw as [Hm Hk]. cbn [fst snd] in Hm, Hk. destruct m; cbn [step] in H.
  - case_match; [by simplify_eq|]. by eapply begin_value_wf.
  - case_match; [by simplify_eq|]. case_match; [by eapply close_array_wf|by eapply begin_value_wf].
  - case_match; [by simplify_eq|]. case_match; [by eapply close_object_wf|]. case_match; by simplify_eq.
  - repeat case_match; by simplify_eq.
  - repeat case_match; by simplify_eq.
  - by eapply after_value_wf.
  - by eapply after_value_wf.
  - assert (∀ s', str_step s c = Some s' → wf_pstate (InStr s' (c :: acc), k)) as Hs.
    { intros s' Hs. split; [|done]. cbn [fst wf_mode rev]. by eapply run_last. }
    destruct s, (ceq c quote_char); try (destruct (str_step _ c); simplify_eq/=; by apply Hs).
    eapply end_string_wf; [done| |done]. by apply raw_ok_run.
  - destruct (num_step s c) as [s'|] eqn:E.
    { simplify_eq. split; [|done]. cbn [fst wf_mode rev]. by eapply run_last. }
    destruct (num_final s) eqn:Ef; [|done].
    destruct (finish (JNum (rev acc)) k) as [st1|] eqn:E1; [|done]. simpl in H.
    eapply after_value_wf; [done|]. eapply finish_wf; [done| |done].
    cbn [wf_json]. unfold num_ok. cbn [wf_mode] in Hm. by rewrite Hm.
  - repeat case_match; simplify_eq; try done. by eapply finish_wf.
Qed.

Lemma scan_wf l st st' : scan l st = Some st' → wf_pstate st → wf_pstate st'.
Proof.
  revert st. induction l as [|c l IH]; intros st; cbn [scan]; [by intros [= ->]|].
  destruct (step c st) eqn:E; [|done]. intros Hs Hw. eapply IH; [done|]. by eapply step_wf.
Qed.

(** The tree of a text has strings and numbers of the grammar. *)
Lemma parse_wf l j : parse l = Some j → wf_json j = true.
Proof.
  unfold parse, eof. destruct (scan l initial) as [st|] eqn:Es; [|done]. cbn [mbind option_bind].
  destruct (step " " st) as [[m k]|] eqn:Et; [|done]. destruct m; try done. intros [= ->].
  assert (wf_pstate (EndTop j, k)) as [Hj _]; [|exact Hj].
  eapply step_wf; [done|]. eapply scan_wf; [done|]. by split; [|constructor].
Qed.

(** ** Prefixes of the text of an object *)

(** Once an object is open, the scanner has open frames or is done. *)
Definition inside (st : pstate) : Prop :=
  match st with (EndTop _, _) => True | (_, k) => k ≠ [] end.

Lemma finish_inside v k st : finish v k = Some st → inside st.
Proof. destruct k as [|[acc|acc [key|]] k]; simpl; intros; by simplify_eq. Qed.

Lemma begin_value_inside c k st : begin_value c k = Some st → k ≠ [] → inside st.
Proof.
  unfold begin_value, open_frame. intros H Hk. repeat case_match; simplify_eq; done.
Qed.

Lemma end_string_inside raw k st : end_string raw k = Some st → inside st.
Proof.
  unfold end_string. intros H. repeat case_match; simplify_eq; try done; by eapply finish_inside.
Qed.

Lemma after_value_inside c st st' : inside st → after_value c st = Some st' → inside st'.
Proof.
  unfold after_value, close_array, close_object. intros Hi H. destruct st as [m k].
  repeat case_match; simplify_eq; try done; by eapply finish_inside.
Qed.

Lemma step_inside c st st' : step c st = Some st' → inside st → inside st'.
Proof.
  destruct st as [m k]. intros H Hi. destruct m; cbn [step] in H.
  - case_match; [by simplify_eq|]. by eapply begin_value_inside.
  - unfold close_array in H. repeat case_match; simplify_eq; try done;
      [by eapply finish_inside|by eapply begin_value_inside..].
  - unfold close_object in H. repeat case_match; simplify_eq; try done; by eapply finish_inside.
  - repeat case_match; by simplify_eq.
  - repeat case_match; by simplify_eq.
  - by eapply after_value_inside.
  - by eapply after_value_inside.
  - destruct s, (ceq c quote_char); simplify_option_eq; try done; by eapply end_string_inside.
  - destruct (num_step s c); [by simplify_eq|]. destruct (num_final s); [|done].
    destruct (finish (JNum (rev acc)) k) as [st1|] eqn:E; [|done]. simpl in H.
    eapply after_value_inside; [|done]. by eapply finish_inside.
  - repeat case_match; simplify_eq; try done; by eapply finish_inside.
Qed.

Lemma scan_inside l st st' : scan l st = Some st' → inside st → inside st'.
Proof.
  revert st. induction l as [|c l IH]; intros st; cbn [scan]; [by intros [= ->]|].
  destruct (step c st) eqn:E; [|done]. intros Hs Hi. eapply IH; [done|]. by eapply step_inside.
Qed.

Lemma eof_inside st v : eof st = Some v → inside st → ∃ k, st = (EndTop v, k).
Proof.
  unfold eof. intros He Hi. destruct st as [m k]. destruct m; cbn [step] in He;
    change (is_space " ") with true in He; cbn iota in He; simpl in Hi; try by simplify_eq.
  - unfold after_value in He. simpl in He. simplify_eq. eauto.
  - destruct s; simpl in He; done.
  - destruct (num_step s " ") eqn:E; [done|]. destruct (num_final s); [|done].
    by destruct k as [|[acc'|acc' [key|]] k].
  - destruct rest as [|x rest]; [done|]. destruct (ceq " " x); [|done].
    destruct rest; [|done]. by destruct k as [|[acc'|acc' [key|]] k].
Qed.

Lemma scan_top l v k st : scan l (EndTop v, k) = Some st → all_space l.
Proof.
  induction l as [|c l IH]; [by constructor|]. cbn [scan step]. unfold after_value.
  destruct (is_space c) eqn:E; [|done]. intros H. by constructor; [|apply IH].
Qed.

(** A text that starts like an object: when one of its prefixes is already a
    complete text, only white space follows. *)
Lemma object_prefix p q st v :
  scan ("{"%char :: p ++ q) initial = Some st → parse ("{"%char :: p) = Some v → all_space q.
Proof.
  unfold parse. cbn [scan]. change (step "{" initial) with (Some (BeginKeyOrEmpty, [FObj [] None])).
  cbn [mbind option_bind]. rewrite scan_app. intros Hs Hp.
  destruct (scan p (BeginKeyOrEmpty, [FObj [] None])) as [st1|] eqn:E; [|done]. simpl in Hs, Hp.
  pose proof (scan_inside _ _ _ E ltac:(done)) as Hi.
  destruct (eof_inside _ _ Hp Hi) as [k ->]. by eapply scan_top.
Qed.

(** ** Strings *)

(** A property of every byte, checked on the 256 of them. *)
Lemma all_bytes (P : ascii → bool) : 
  forallb P (ascii_of_nat <$> seq 0 256) = true → ∀ c, P c = true.
Proof.
  intros H c. apply forallb_Forall in H. rewrite Forall_forall in H. apply H.
  apply list_elem_of_fmap. exists (nat_of_ascii c). rewrite ascii_nat_embedding.
  split; [done|]. apply elem_of_seq. pose proof (nat_ascii_bounded c). lia.
Qed.

Lemma high_byte c : is_ascii c = false →
  ceq c "\" = false ∧ ceq c quote_char = false ∧ (byte_val c <? 32) = false.
Proof.
  unfold is_ascii. intros Hc. split_and!; [| |lia].
  - destruct (ceq c "\") eqn:E; [|done]. by apply ceq_iff in E as ->.
  - destruct (ceq c quote_char) eqn:E; [|done]. by apply ceq_iff in E as ->.
Qed.

Lemma high_run l : Forall (λ c, is_ascii c = false) l → run str_step l SPlain = Some SPlain.
Proof.
  induction 1 as [|c l Hc _ IH]; [done|]. cbn [run str_step].
  by destruct (high_byte c Hc) as (-> & -> & ->).
Qed.

Lemma wf_multi_high l : wf_chunk (Multi l) → Forall (λ c, is_ascii c = false) l.
Proof. intros H. inversion H; subst; repeat constructor; byte_tests; lia. Qed.

Lemma quote_chunk_raw ch : wf_chunk ch → raw_ok (quote_chunk ch) = true.
Proof.
  intros Hw. destruct ch as [c|l|c]; [|cbn [quote_chunk]|done].
  - revert c Hw. assert (∀ c, raw_ok (quote_single c) = true) as H by (by apply all_bytes).
    intros c _. apply H.
  - repeat case_decide; [done|done|]. apply raw_ok_run, high_run. by apply wf_multi_high.
Qed.

(** What [quote] writes may stand between quotes. *)
Lemma quote_raw l : raw_ok (quote l) = true.
Proof.
  unfold quote. apply raw_ok_run. induction (chunks_wf l) as [|ch cs Hw _ IH]; [done|].
  csimpl. rewrite run_app. apply quote_chunk_raw, raw_ok_run in Hw as ->. done.
Qed.

Lemma unquote_single c rest :
  is_ascii c = true → unquote (quote_single c ++ rest) = cons c <$> unquote rest.
Proof.
  intros Hc. destruct c as [[] [] [] [] [] [] [] []]; 
    try discriminate Hc; reflexivity.
Qed.

Lemma unquote_multi l rest :
  wf_chunk (Multi l) → unquote (l ++ rest) = app l <$> unquote rest.
Proof.
  intros Hw. inversion Hw as [|a b Hs|a b c Hs|a b c d Hs|]; subst; cbn [app unquote].
  - assert (is_ascii a = false) as Ha by (byte_tests; lia).
    destruct (high_byte a Ha) as (-> & -> & ->). by rewrite Ha, Hs.
  - assert (is_ascii a = false) as Ha by (byte_tests; lia).
    destruct (high_byte a Ha) as (-> & -> & ->). rewrite Ha.
    assert (seq2 a b = false) as -> by (byte_tests; lia). by rewrite Hs.
  - assert (is_ascii a = false) as Ha by (byte_tests; lia).
    destruct (high_byte a Ha) as (-> & -> & ->). rewrite Ha.
    assert (seq2 a b = false) as -> by (byte_tests; lia).
    assert (seq3 a b c = false) as -> by (byte_tests; lia). by rewrite Hs.
Qed.

Lemma unquote_chunk ch rest :
  wf_chunk ch → unquote (quote_chunk ch ++ rest) = app (chunk_out ch) <$> unquote rest.
Proof.
  intros Hw. destruct ch as [c|l|c]; cbn [quote_chunk chunk_out].
  - inversion Hw. by apply unquote_single.
  - repeat case_decide; subst; [done|done|]. by apply unquote_multi.
  - done.
Qed.

(** [unquote] undoes [quote], except that a byte that is not UTF-8 has become
    U+FFFD. *)
Lemma unquote_quote l : unquote (quote l) = Some (sanitize l).
Proof.
  unfold quote, sanitize. induction (chunks_wf l) as [|ch cs Hw _ IH]; [done|].
  csimpl. rewrite unquote_chunk by done. by rewrite IH.
Qed.

(** Decoding proceeds chunk by chunk: each round consumes input and produces one
    valid chunk. *)
Lemma unquote_ind (P : bytes → bytes → Prop) :
  P [] [] →
  (∀ l ch k y, wf_chunk ch → is_valid_chunk ch = true → (length k < length l)%nat →
    P k y → P l (chunk_out ch ++ y)) →
  ∀ l s, unquote l = Some s → P l s.
Proof.
  intros Hnil Hcons. induction l as [l IH] using bytes_suffix_ind. intros s.
  assert (∀ ch k x, wf_chunk ch → is_valid_chunk ch = true → (length k < length l)%nat →
    app (chunk_out ch) <$> unquote k = Some x → P l x) as Hch.
  { intros ch k x Hw Hv Hk (y & Hy & ->)%fmap_Some. apply (Hcons l ch k); auto. }
  assert (∀ k x, (length k < length l)%nat → app replacement <$> unquote k = Some x → P l x) as Hrep.
  { intros k x. apply (Hch (Multi replacement)); [by apply wf_Multi3|done]. }
  assert (∀ r k x, (length k < length l)%nat → app (encode_rune r) <$> unquote k = Some x → P l x) as Hrune.
  { intros r k x. destruct (encode_rune_chunk r) as (ch & -> & ? & ?). by apply Hch. }
  destruct l as [|c l1]; simpl; [by intros [= <-]|].
  destruct (ceq c "\") eqn:Ebs.
  - destruct l1 as [|e l2]; [done|]. destruct (ceq e "u").
    + destruct l2 as [|h1 [|h2 [|h3 [|h4 l3]]]]; try done.
      destruct (hex4 h1 h2 h3 h4) as [r|]; [|done].
      destruct (is_surrogate r); [|apply Hrune; simpl; lia].
      destruct l3 as [|b [|u [|g1 [|g2 [|g3 [|g4 l4]]]]]]; try (apply Hrep; simpl; lia).
      destruct (if ceq b "\" && ceq u "u" then _ else _);
        [apply Hrune; simpl; lia|apply Hrep; simpl; lia].
    + destruct (unescape e) as [x|] eqn:Ex; [|done]. cbn [mbind option_bind].
      apply (Hch (Single x)); [|done|simpl; lia]. constructor.
      assert (∀ e, default true (is_ascii <$> unescape e) = true) as Hun
        by (by apply all_bytes). specialize (Hun e). by rewrite Ex in Hun.
  - destruct (ceq c quote_char || (byte_val c <? 32)); [done|].
    destruct (is_ascii c) eqn:Ea; [apply (Hch (Single c)); [by constructor|done|simpl; lia]|].
    destruct l1 as [|b l2]; [by apply Hrep; simpl; lia|].
    destruct (seq2 c b) eqn:E2; [apply (Hch (Multi [c; b])); [by constructor|done|simpl; lia]|].
    destruct l2 as [|d l3]; [by apply Hrep; simpl; lia|].
    destruct (seq3 c b d) eqn:E3; [apply (Hch (Multi [c; b; d])); [by constructor|done|simpl; lia]|].
    destruct l3 as [|e l4]; [by apply Hrep; simpl; lia|].
    destruct (seq4 c b d e) eqn:E4;
      [apply (Hch (Multi [c; b; d; e])); [by constructor|done|simpl; lia]|apply Hrep; simpl; lia].
Qed.

(** Every decoded string is valid UTF-8. *)
Lemma unquote_valid l s : unquote l = Some s → valid_utf8 s = true.
Proof.
  apply (unquote_ind (λ _ s, valid_utf8 s = true)); [done|]. intros. by rewrite valid_utf8_app.
Qed.

(** Quoting again what was decoded takes at most six bytes for each byte of the
    text it was decoded from. *)
Lemma length_quote_chunk ch : wf_chunk ch → (length (quote_chunk ch) <= 6)%nat.
Proof.
  intros Hw. destruct ch as [c|l|c]; cbn [quote_chunk].
  - unfold quote_single. repeat case_match; simpl; lia.
  - repeat case_decide; [simpl; lia|simpl; lia|]. inversion Hw; simpl; lia.
  - simpl. lia.
Qed.

Lemma quote_app_chunk ch rest : wf_chunk ch → is_valid_chunk ch = true →
  quote (chunk_out ch ++ rest) = quote_chunk ch ++ quote rest.
Proof. intros Hw Hv. unfold quote. by rewrite chunks_app. Qed.

Lemma length_quote_unquote l s : unquote l = Some s → (length (quote s) <= 6 * length l)%nat.
Proof.
  apply (unquote_ind (λ l s, (length (quote s) <= 6 * length l)%nat)); [done|].
  intros l' ch k y Hw Hv Hk IH. rewrite quote_app_chunk, length_app by done.
  pose proof (length_quote_chunk ch Hw). lia.
Qed.

(** A string of plain ASCII bytes is quoted as it is. *)
Lemma quote_plain l : Forall (λ c, is_ascii c = true ∧ html_safe c = true) l → quote l = l.
Proof.
  unfold quote. induction 1 as [|c l [Ha Hs] _ IH]; [done|].
  cbn [chunks]. rewrite Ha. csimpl. unfold quote_single. rewrite Hs. csimpl. by f_equal.
Qed.

(** ** Numbers *)

Lemma run_digits l s :
  (s = NInt ∨ s = NNeg ∧ (∃ c l', l = c :: l' ∧ ceq c "0" = false)) →
  Forall (λ c, is_digit c = true) l → run num_step l s = Some NInt.
Proof.
  intros Hs Hl. revert s Hs. induction Hl as [|c l Hc _ IH]; intros s Hs.
  - destruct Hs as [->|[_ (?&?&?&_)]]; done.
  - cbn [run]. destruct Hs as [->|[-> (?&?&?&Hz)]]; simplify_eq; cbn [num_step];
      rewrite ?Hz, Hc; apply IH; by left.
Qed.

Lemma digits_loop_head fuel n : 1 <= n → (digit_fuel n ≤ fuel)%nat →
  ∃ c l, digits_loop fuel n [] = c :: l ∧ ceq c "0" = false.
Proof.
  revert n. induction fuel as [|fuel IH]; intros n Hn Hf; [unfold digit_fuel in Hf; lia|].
  simpl. destruct (Z.ltb_spec n 10).
  - exists (byte_of (48 + n mod 10)), []. split; [done|]. rewrite Z.mod_small by lia.
    destruct (ceq (byte_of (48 + n)) "0") eqn:E; [|done]. apply ceq_iff in E.
    pose proof (byte_val_of (48 + n) ltac:(lia)) as Hv. rewrite E in Hv. change (byte_val "0") with 48 in Hv. lia.
  - destruct (IH (n / 10)) as (c & l & E & Hc).
    { apply Z.div_le_lower_bound; lia. }
    { unfold digit_fuel in *. pose proof (log2_div10 n). pose proof (Z.log2_nonneg (n / 10)). lia. }
    exists c, (l ++ [byte_of (48 + n mod 10)]). rewrite digits_loop_app, E. done.
Qed.

Lemma format_uint_run n s : 0 <= n → s = NStart ∨ s = NNeg →
  ∃ s', run num_step (format_uint n) s = Some s' ∧ num_final s' = true.
Proof.
  intros Hn Hs. destruct (Z.eq_dec n 0) as [->|].
  { exists NZero. by destruct Hs as [-> | ->]. }
  destruct (digits_loop_head (digit_fuel n) n ltac:(lia) ltac:(lia)) as (c & l & E & Hc).
  pose proof (format_uint_digits n) as HF. unfold format_uint in *.
  exists NInt. split; [|done]. destruct Hs as [-> | ->].
  - rewrite E in *. apply Forall_cons in HF as [Hd HF]. cbn [run num_step].
    assert (ceq c "-" = false) as ->.
    { destruct (ceq c "-") eqn:Ec; [|done]. by apply ceq_iff in Ec as ->. }
    rewrite Hc, Hd. cbn [mbind option_bind]. apply run_digits; [by left|done].
  - apply run_digits; [|done]. right. eauto.
Qed.

Lemma format_uint_num n : 0 <= n → num_ok (format_uint n) = true.
Proof. intros Hn. apply num_ok_run, format_uint_run; auto. Qed.

Lemma format_int_num n : num_ok (format_int n) = true.
Proof.
  unfold format_int. destruct (Z.ltb_spec n 0).
  - apply num_ok_run. destruct (format_uint_run (- n) NNeg) as (s & Hs & Hf); [lia|auto|].
    exists s. cbn [run num_step]. by split.
  - by apply format_uint_num.
Qed.

#[export] Hint Resolve quote_raw format_uint_num format_int_num : go_json.

(** ** Two texts in one

    An unfinished object followed by another object's text is never a complete
    text, because the second object opens where no value may stand, or inside
    the first. *)

(** What the stack and the literals look like in a reachable state. *)
Definition placed (st : pstate) : Prop :=
  let '(m, k) := st in
  match m with
  | BeginValue | BeginValueOrEmpty | InNum _ _ =>
      match k with FObj _ None :: _ => False | _ => True end
  | InLit rest _ =>
      Forall (λ c, ceq "{" c = false) rest ∧ match k with FObj _ None :: _ => False | _ => True end
  | AfterKey => match k with FObj _ (Some _) :: _ => True | _ => False end
  | _ => True
  end.

Lemma finish_placed v k st : finish v k = Some st → placed st.
Proof. destruct k as [|[acc|acc [key|]] k]; simpl; intros; by simplify_eq. Qed.

Lemma begin_value_placed c k st :
  begin_value c k = Some st → placed (BeginValue, k) → placed st.
Proof.
  unfold begin_value, open_frame. intros H Hk. repeat case_match; simplify_eq; try done;
    simpl in *; split; try done; by repeat constructor.
Qed.

Lemma after_value_placed c st st' : after_value c st = Some st' → placed st → placed st'.
Proof.
  unfold after_value, close_array, close_object. intros H Hi. destruct st as [m k].
  repeat case_match; simplify_eq; try done; by eapply finish_placed.
Qed.

Lemma step_placed c st st' : step c st = Some st' → placed st → placed st'.
Proof.
  destruct st as [m k]. intros H Hi. destruct m; cbn [step] in H.
  - case_match; [by simplify_eq|]. by eapply begin_value_placed.
  - unfold close_array in H. case_match; [by simplify_eq|]. case_match.
    + repeat case_match; try done. by eapply finish_placed.
    + by eapply begin_value_placed.
  - unfold close_object in H. repeat case_match; simplify_eq; try done; by eapply finish_placed.
  - repeat case_match; by simplify_eq.
  - simpl in Hi. repeat case_match; by simplify_eq.
  - by eapply after_value_placed.
  - by eapply after_value_placed.
  - unfold end_string in H. destruct s, (ceq c quote_char); simplify_option_eq; try done.
    repeat case_match; simplify_eq; try done; by eapply finish_placed.
  - destruct (num_step s c); [by simplify_eq|]. destruct (num_final s); [|done].
    destruct (finish (JNum (rev acc)) k) as [st1|] eqn:E; [|done]. simpl in H.
    eapply after_value_placed; [done|]. by eapply finish_placed.
  - destruct rest as [|x rest]; [done|]. destruct Hi as [[Hx Hr]%Forall_cons Hk].
    destruct (ceq c x); [|done]. destruct rest; [by eapply finish_placed|]. by simplify_eq.
Qed.

Lemma scan_placed l st st' : scan l st = Some st' → placed st → placed st'.
Proof.
  revert st. induction l as [|c l IH]; intros st; cbn [scan]; [by intros [= ->]|].
  destruct (step c st) eqn:E; [|done]. intros Hs Hi. eapply IH; [done|]. by eapply step_placed.
Qed.

Lemma finish_placed_Some v m k : placed (m, k) → m = BeginValue ∨ m = BeginValueOrEmpty →
  ∃ st, finish v k = Some st ∧ (k ≠ [] → ∃ k', st = (AfterValue, k') ∧ k' ≠ []).
Proof.
  intros Hp Hm. destruct k as [|[acc|acc [key|]] k].
  - eexists. split; [done|]. done.
  - eexists. split; [done|]. eauto.
  - eexists. split; [done|]. eauto.
  - by destruct Hm as [-> | ->].
Qed.

(** The text of an object whose first member is named in letters. *)
Definition letter (c : ascii) : bool := in_range 97 122 c.

Lemma compact_first_member x raw v m : ∃ t, compact (JObj ((x :: raw, v) :: m)) = "{"%char :: quote_char :: x :: t.
Proof.
  unfold compact. cbn [render map].
  destruct (join_cons (","%char :: []) (in_quotes (x :: raw) ++ [":"%char] ++ render (λ _, []) [":"%char] 1 v)
    (map (λ kv, in_quotes kv.1 ++ [":"%char] ++ render (λ _, []) [":"%char] 1 kv.2) m)) as [t Ht].
  cbn [fst snd] in *. rewrite Ht. by eexists.
Qed.

Lemma letter_separators x : letter x = true →
  is_space x = false ∧ ceq x ":" = false ∧ ceq x "," = false ∧ ceq x "]" = false ∧ ceq x "}" = false.
Proof.
  intros Hx. assert (∀ x, negb (letter x) || (negb (is_space x) && negb (ceq x ":") && negb (ceq x ",")
    && negb (ceq x "]") && negb (ceq x "}")) = true) as H by (by apply all_bytes).
  specialize (H x). rewrite Hx in H. simpl negb in H. cbn [orb] in H.
  rewrite !andb_true_iff, !negb_true_iff in H. tauto.
Qed.

(** An object inside another value is not the end of the input. *)
Lemma nested_object_open x raw v m md k :
  let j := JObj ((x :: raw, v) :: m) in
  placed (md, k) → md = BeginValue ∨ md = BeginValueOrEmpty → k ≠ [] → wf_json j = true → height j = 1%nat →
  scan (compact j) (BeginValue, k) ≫= eof = None.
Proof.
  intros j Hpl Hm Hk Hw Hh. destruct (compact_first_member x raw v m) as [t Et]. fold j in Et.
  destruct (finish_placed_Some j md k Hpl Hm) as (st & Hf & Hst).
  destruct (Hst Hk) as (k' & -> & Hk').
  destruct (decide (Z.of_nat (length k) + 1 <= maxNestingDepth)%Z) as [Hd|Hd].
  - destruct (render_reads (λ _, []) [":"%char] ltac:(by intros; constructor)
      ltac:(by exists []; split; [|constructor]) j 0%nat k _ Hw Hf) as (st1 & H1 & Hs1);
      [rewrite Hh; lia|].
    unfold compact. rewrite H1. cbn [mbind option_bind]. by rewrite (eof_settle _ _ Hs1).
  - rewrite Et. cbn [scan]. assert (step "{" (BeginValue, k) = None) as ->; [|done].
    change (open_frame BeginKeyOrEmpty (FObj [] None) k = None). unfold open_frame.
    destruct (Z.ltb_spec maxNestingDepth (Z.of_nat (length (FObj [] None :: k)))) as [|Hl]; [done|].
    rewrite length_cons in Hl. lia.
Qed.

(** A quote ends the string before a letter that cannot follow it. *)
Lemma string_then_letter x t acc k : letter x = true →
  scan ("{"%char :: quote_char :: x :: t) (InStr SPlain acc, k) = None.
Proof.
  intros (Hx1 & Hx2 & Hx3 & Hx4 & Hx5)%letter_separators.
  assert (∀ st, end_string (rev ("{"%char :: acc)) k = Some st → step x st = None) as Hend.
  { intros st He. destruct k as [|[acc'|acc' [key|]] k]; simpl in He; simplify_eq; cbn [step];
      unfold after_value; by rewrite ?Hx1, ?Hx2, ?Hx3, ?Hx4, ?Hx5. }
  cbn [scan]. change (step "{" (InStr SPlain acc, k)) with (Some (InStr SPlain ("{"%char :: acc), k)).
  cbn [mbind option_bind].
  change (step quote_char (InStr SPlain ("{"%char :: acc), k)) with (end_string (rev ("{"%char :: acc)) k).
  destruct (end_string _ _) as [st|] eqn:Ee; [|done]. cbn [mbind option_bind]. by rewrite (Hend st).
Qed.

Lemma glued_objects p x raw v m :
  parse ("{"%char :: p) = None → letter x = true →
  wf_json (JObj ((x :: raw, v) :: m)) = true → height (JObj ((x :: raw, v) :: m)) = 1%nat →
  parse ("{"%char :: p ++ compact (JObj ((x :: raw, v) :: m))) = None.
Proof.
  set (j := JObj ((x :: raw, v) :: m)). intros Hp Hx Hw Hh. unfold parse in *. cbn [scan] in *.
  change (step "{" initial) with (Some (BeginKeyOrEmpty, [FObj [] None])) in *.
  cbn [mbind option_bind] in *. rewrite scan_app.
  destruct (scan p (BeginKeyOrEmpty, [FObj [] None])) as [[md k]|] eqn:E; [|done].
  pose proof (scan_inside _ _ _ E ltac:(done)) as Hi.
  pose proof (scan_placed _ _ _ E ltac:(done)) as Hpl. cbn [mbind option_bind] in *.
  destruct (compact_first_member x raw v m) as [t Et]. fold j in Et.
  destruct md as [| | | | | |v'|s acc|s acc|rest v'].
  - apply (nested_object_open _ _ _ _ BeginValue); auto.
  - unfold compact. rewrite scan_or_empty by (done || by intros; constructor).
    apply (nested_object_open _ _ _ _ BeginValueOrEmpty); auto.
  - by rewrite Et.
  - by rewrite Et.
  - by rewrite Et.
  - rewrite Et. by destruct k as [|[] k].
  - by rewrite Et.
  - destruct s as [| |n]; [|by rewrite Et..]. by rewrite Et, string_then_letter.
  - rewrite Et. cbn [scan].
    assert (step "{" (InNum s acc, k) = None) as ->; [|done].
    destruct s; try done; by destruct k as [|[acc'|acc' [key|]] k].
  - rewrite Et. cbn [scan]. assert (step "{" (InLit rest v', k) = None) as ->; [|done].
    destruct Hpl as [Hr _]. destruct rest as [|y rest]; [done|]. apply Forall_cons in Hr as [Hy _].
    cbn [step]. by rewrite Hy.
Qed.
