(* ===== verification/GoTimeFormat.v ===== *)
(** * Calendar dates and the RFC 3339 form of an instant

    [time.Time] is marshalled to JSON with [appendStrictRFC3339] and read back
    with [parseStrictRFC3339].  Dates are those of the proleptic Gregorian
    calendar, computed in cycles of 400, 100, 4 and 1 years from January 1,
    year 1, as [absDate] and [Date] do. *)

From S2P Require Import Prelude GoTime GoStrconv.
From Stdlib Require Import Ascii.

Local Open Scope Z_scope.

(** ** Dates *)

Definition isLeap (y : Z) : bool := (y mod 4 =? 0) && (negb (y mod 100 =? 0) || (y mod 400 =? 0)).

Definition daysBefore : list Z := [0; 31; 59; 90; 120; 151; 181; 212; 243; 273; 304; 334; 365].
Definition days_before (m : Z) : Z := nth (Z.to_nat m) daysBefore 0.

(** [daysIn], for a month from 1 to 12. *)
Definition daysIn (m y : Z) : Z :=
  if (m =? 2) && isLeap y then 29 else days_before m - days_before (m - 1).

(** The month and the day of the month of the [yday]-th day, counted from 0,
    of a year. *)
Definition month_day (leap : bool) (yday : Z) : Z * Z :=
  if leap && (yday =? 59) then (2, 29)
  else
    let day := if leap && (59 <? yday) then yday - 1 else yday in
    let month := day / 31 in
    let fin := days_before (month + 1) in
    if fin <=? day then (month + 2, day - fin + 1)
    else (month + 1, day - days_before month + 1).

(** Year and day of the year of the [d]-th day since January 1, year 1. *)
Definition year_day (d : Z) : Z * Z :=
  let d1 := d mod 146097 in
  let c := d1 / 36524 - d1 / 36524 / 4 in
  let d2 := d1 - 36524 * c in
  let q := d2 / 1461 in
  let d3 := d2 - 1461 * q in
  let y := d3 / 365 - d3 / 365 / 4 in
  (400 * (d / 146097) + 100 * c + 4 * q + y + 1, d3 - 365 * y).

(** Days from January 1, year 1 to January 1 of year [y]. *)
Definition days_to_year (y : Z) : Z :=
  let y := y - 1 in
  let r := y mod 400 in
  146097 * (y / 400) + 36524 * (r / 100) + 1461 * (r mod 100 / 4) + 365 * (r mod 100 mod 4).

Definition days_of_date (y m d : Z) : Z :=
  days_to_year y + days_before (m - 1) + (if isLeap y && (3 <=? m) then 1 else 0) + d - 1.

(** ** Formatting *)

(** [k] decimal digits of [n], zeros in front. *)
Fixpoint pad (k : nat) (n : Z) : bytes :=
  match k with O => [] | S k => pad k (n / 10) ++ [byte_of (48 + n mod 10)] end.

Fixpoint drop_zeros (l : bytes) : bytes :=
  match l with
  | [] => []
  | c :: l => if Ascii.eqb c "0" then drop_zeros l else c :: l
  end.

Definition trim_zeros (l : bytes) : bytes := rev (drop_zeros (rev l)).

(** [appendNano] with nine digits and trailing zeros dropped. *)
Definition format_nanos (n : Z) : bytes :=
  if n =? 0 then [] else "."%char :: trim_zeros (pad 9 n).

Definition format_zone (offset : Z) : bytes :=
  if offset =? 0 then ["Z"%char]
  else
    let zone := Z.quot offset 60 in
    (if zone <? 0 then "-"%char else "+"%char)
      :: pad 2 (Z.abs zone / 60) ++ ":"%char :: pad 2 (Z.abs zone mod 60).

Record Civil := MkCivil {
  c_year : Z; c_month : Z; c_day : Z; c_hour : Z; c_min : Z; c_sec : Z; c_nsec : Z
}.

(** Seconds of the presented (zone-adjusted) time since January 1, year 1. *)
Definition abs_sec (t : Time) : Z := t_wall t / Second + unixToInternal + t_zone t.

Definition civil (t : Time) : Civil :=
  let d := abs_sec t / 86400 in
  let s := abs_sec t mod 86400 in
  let '(y, yday) := year_day d in
  let '(m, md) := month_day (isLeap y) yday in
  MkCivil y m md (s / 3600) (s mod 3600 / 60) (s mod 60) (t_wall t mod Second).

Definition format_civil (c : Civil) : bytes :=
  pad 4 (c_year c) ++ "-"%char :: pad 2 (c_month c) ++ "-"%char :: pad 2 (c_day c)
  ++ "T"%char :: pad 2 (c_hour c) ++ ":"%char :: pad 2 (c_min c) ++ ":"%char :: pad 2 (c_sec c)
  ++ format_nanos (c_nsec c).

(** What [appendStrictRFC3339] accepts: a year of four digits, and a zone of
    less than a day. *)
Definition formattable (t : Time) : bool :=
  (0 <=? c_year (civil t)) && (c_year (civil t) <=? 9999)
  && (Z.abs (Z.quot (t_zone t) 60) / 60 <? 24).

(** [appendStrictRFC3339]; [None] is its error. *)
Definition format_rfc3339 (t : Time) : option bytes :=
  if formattable t then Some (format_civil (civil t) ++ format_zone (t_zone t)) else None.

(** ** Parsing *)

(** [k] digits whose value lies between [lo] and [hi], and what follows. *)
Definition parse_field (k : nat) (lo hi : Z) (l : bytes) : option (Z * bytes) :=
  if Nat.ltb (length l) k then None
  else x ← parse_digits 0 (take k l);
       if (lo <=? x) && (x <=? hi) then Some (x, drop k l) else None.

Definition expect (c : ascii) (l : bytes) : option bytes :=
  match l with d :: l => if Ascii.eqb d c then Some l else None | [] => None end.

Fixpoint span_digits (l : bytes) : bytes * bytes :=
  match l with
  | c :: l' => if is_digit c then let '(ds, r) := span_digits l' in (c :: ds, r) else ([], l)
  | [] => ([], [])
  end.

(** A fraction is optional; digits beyond nanoseconds are dropped. *)
Definition parse_fraction (l : bytes) : Z * bytes :=
  match l with
  | p :: d :: l' =>
      if Ascii.eqb p "." && is_digit d then
        let '(ds, r) := span_digits (d :: l') in
        let ds := take 9 ds in
        (default 0 (parse_digits 0 ds) * 10 ^ (9 - Z.of_nat (length ds)), r)
      else (0, l)
  | _ => (0, l)
  end.

Definition parse_zone (l : bytes) : option Z :=
  match l with
  | [z] => if Ascii.eqb z "Z" then Some 0 else None
  | sign :: l =>
      '(hr, l) ← parse_field 2 0 23 l;
      l ← expect ":" l;
      '(mm, l) ← parse_field 2 0 59 l;
      match l with
      | [] => if Ascii.eqb sign "-" then Some (- ((hr * 60 + mm) * 60))
              else if Ascii.eqb sign "+" then Some ((hr * 60 + mm) * 60) else None
      | _ => None
      end
  | [] => None
  end.

(** [parseStrictRFC3339]: an instant of the wall clock only. *)
Definition parse_rfc3339 (l : bytes) : option Time :=
  '(year, l) ← parse_field 4 0 9999 l;
  l ← expect "-" l;
  '(month, l) ← parse_field 2 1 12 l;
  l ← expect "-" l;
  '(day, l) ← parse_field 2 1 (daysIn month year) l;
  l ← expect "T" l;
  '(hour, l) ← parse_field 2 0 23 l;
  l ← expect ":" l;
  '(min, l) ← parse_field 2 0 59 l;
  l ← expect ":" l;
  '(sec, l) ← parse_field 2 0 59 l;
  let '(nsec, l) := parse_fraction l in
  offset ← parse_zone l;
  let abs := days_of_date year month day * 86400 + hour * 3600 + min * 60 + sec in
  Some (MkTime ((abs - unixToInternal - offset) * Second + nsec) None offset).

(** ** Dates there and back *)

Lemma isLeap_parts k c q y :
  0 <= c < 4 → 0 <= q < 25 → 0 <= y < 4 →
  isLeap (400 * k + 100 * c + 4 * q + y + 1) = (y =? 3) && (negb (q =? 24) || (c =? 3)).
Proof.
  intros Hc Hq Hy. unfold isLeap.
  pose proof (Z.div_mod (400 * k + 100 * c + 4 * q + y + 1) 4 ltac:(lia)).
  pose proof (Z.div_mod (400 * k + 100 * c + 4 * q + y + 1) 100 ltac:(lia)).
  pose proof (Z.div_mod (400 * k + 100 * c + 4 * q + y + 1) 400 ltac:(lia)).
  pose proof (Z.mod_pos_bound (400 * k + 100 * c + 4 * q + y + 1) 4 ltac:(lia)).
  pose proof (Z.mod_pos_bound (400 * k + 100 * c + 4 * q + y + 1) 100 ltac:(lia)).
  pose proof (Z.mod_pos_bound (400 * k + 100 * c + 4 * q + y + 1) 400 ltac:(lia)).
  lia.
Qed.

Lemma days_to_year_parts k c q y :
  0 <= c < 4 → 0 <= q < 25 → 0 <= y < 4 →
  days_to_year (400 * k + 100 * c + 4 * q + y + 1) = 146097 * k + 36524 * c + 1461 * q + 365 * y.
Proof.
  intros Hc Hq Hy. unfold days_to_year.
  replace (400 * k + 100 * c + 4 * q + y + 1 - 1) with ((100 * c + 4 * q + y) + k * 400) by lia.
  rewrite Z.mod_add, Z.div_add by lia.
  rewrite (Z.div_small (100 * c + 4 * q + y)), (Z.mod_small (100 * c + 4 * q + y)) by lia.
  replace (100 * c + 4 * q + y) with ((4 * q + y) + c * 100) by lia.
  rewrite Z.mod_add, Z.div_add by lia.
  rewrite (Z.div_small (4 * q + y)), (Z.mod_small (4 * q + y)) by lia.
  replace (4 * q + y) with (y + q * 4) by lia.
  rewrite Z.mod_add, Z.div_add by lia.
  rewrite (Z.div_small y), (Z.mod_small y) by lia. lia.
Qed.

(** The cycles a day falls into. *)
Lemma year_day_spec d : ∃ y yday,
  year_day d = (y, yday) ∧ days_to_year y + yday = d ∧
  0 <= yday < (if isLeap y then 366 else 365).
Proof.
  unfold year_day. set (d1 := d mod 146097).
  assert (0 <= d1 < 146097) as H1 by (apply Z.mod_pos_bound; lia).
  assert (d = 146097 * (d / 146097) + d1) as Hd by (apply Z.div_mod; lia).
  set (k := d / 146097) in *. clearbody k d1.
  set (c0 := d1 / 36524). assert (36524 * c0 <= d1 < 36524 * c0 + 36524) as Hc0
    by (subst c0; pose proof (Z.div_mod d1 36524); pose proof (Z.mod_pos_bound d1 36524); lia).
  set (c := c0 - c0 / 4). assert (c = if c0 =? 4 then 3 else c0) as Hc.
  { subst c. destruct (Z.eqb_spec c0 4) as [->|]; [done|]. rewrite Z.div_small by lia. lia. }
  clearbody c c0. assert (0 <= c < 4) by (destruct (Z.eqb_spec c0 4); lia).
  set (d2 := d1 - 36524 * c). assert (0 <= d2 < if c =? 3 then 36525 else 36524) as H2
    by (subst d2; destruct (Z.eqb_spec c0 4), (Z.eqb_spec c 3); lia).
  set (q := d2 / 1461). assert (1461 * q <= d2 < 1461 * q + 1461) as Hq
    by (subst q; pose proof (Z.div_mod d2 1461); pose proof (Z.mod_pos_bound d2 1461); lia).
  clearbody q. assert (0 <= q < 25) by (destruct (Z.eqb_spec c 3); lia).
  set (d3 := d2 - 1461 * q).
  assert (0 <= d3 < if (q =? 24) && negb (c =? 3) then 1460 else 1461) as H3
    by (subst d3; destruct (Z.eqb_spec c 3), (Z.eqb_spec q 24); simpl; lia).
  set (y0 := d3 / 365). assert (365 * y0 <= d3 < 365 * y0 + 365) as Hy0
    by (subst y0; pose proof (Z.div_mod d3 365); pose proof (Z.mod_pos_bound d3 365); lia).
  set (y := y0 - y0 / 4). assert (y = if y0 =? 4 then 3 else y0) as Hy.
  { subst y. assert (0 <= y0 <= 4) by (destruct ((q =? 24) && negb (c =? 3)); lia).
    destruct (Z.eqb_spec y0 4) as [->|]; [done|]. rewrite Z.div_small by lia. lia. }
  clearbody y y0. assert (0 <= y < 4)
    by (destruct ((q =? 24) && negb (c =? 3)), (Z.eqb_spec y0 4); lia).
  eexists _, _. split; [done|]. rewrite days_to_year_parts, isLeap_parts by lia.
  split; [lia|].
  destruct (Z.eqb_spec c 3), (Z.eqb_spec q 24), (Z.eqb_spec y0 4), (Z.eqb_spec y 3);
    simpl in *; lia.
Qed.

(** Days of the year are few enough to check one by one. *)
Definition month_day_ok (leap : bool) (yday : Z) : bool :=
  let '(m, d) := month_day leap yday in
  let y := if leap then 4 else 1 in
  (1 <=? m) && (m <=? 12) && (1 <=? d) && (d <=? daysIn m y)
  && (days_before (m - 1) + (if leap && (3 <=? m) then 1 else 0) + d - 1 =? yday).

Lemma month_day_all (leap : bool) yday :
  0 <= yday < (if leap then 366 else 365) → month_day_ok leap yday = true.
Proof.
  assert (∀ leap : bool, forallb (month_day_ok leap)
    (Z.of_nat <$> seq 0 (if leap then 366 else 365)) = true) as H by (by intros []; vm_compute).
  intros Hy. specialize (H leap). apply forallb_Forall in H. rewrite Forall_forall in H.
  apply H, list_elem_of_fmap. exists (Z.to_nat yday).
  split; [lia|]. apply elem_of_seq. destruct leap; lia.
Qed.

Lemma daysIn_leap m y : daysIn m y = daysIn m (if isLeap y then 4 else 1).
Proof. unfold daysIn. by destruct (isLeap y). Qed.

(** The date of a day is a date of the calendar, and is the date of that day. *)
Lemma date_roundtrip d y yday m md :
  year_day d = (y, yday) → month_day (isLeap y) yday = (m, md) →
  days_of_date y m md = d ∧ 1 <= m <= 12 ∧ 1 <= md <= daysIn m y.
Proof.
  intros Hy Hm. destruct (year_day_spec d) as (y' & yday' & E & Hd & Hr).
  rewrite Hy in E. simplify_eq.
  pose proof (month_day_all (isLeap y') yday' Hr) as Ho. unfold month_day_ok in Ho.
  rewrite Hm in Ho. rewrite daysIn_leap. unfold days_of_date. lia.
Qed.

(** ** Formatting then parsing *)

Lemma pad_length k n : length (pad k n) = k.
Proof. revert n. induction k as [|k IH]; intros n; [done|]. simpl. rewrite length_app, IH. simpl. lia. Qed.

Lemma pad_digits k n : Forall (λ c, is_digit c = true) (pad k n).
Proof.
  revert n. induction k as [|k IH]; intros n; [constructor|]. simpl. apply Forall_app_2; [done|].
  repeat constructor. by apply is_digit_byte, Z.mod_pos_bound.
Qed.

Lemma pad_value k n acc : 0 <= n < 10 ^ Z.of_nat k →
  parse_digits acc (pad k n) = Some (acc * 10 ^ Z.of_nat k + n).
Proof.
  revert n. induction k as [|k IH]; intros n Hn.
  { simpl in *. f_equal. lia. }
  rewrite Nat2Z.inj_succ, Z.pow_succ_r in * by lia. cbn [pad]. rewrite parse_digits_app, IH.
  2: { split; [apply Z.div_pos; lia|apply Z.div_lt_upper_bound; lia]. }
  pose proof (Z.mod_pos_bound n 10 ltac:(lia)). cbn [mbind option_bind parse_digits].
  rewrite is_digit_byte, byte_val_of by lia. f_equal. pose proof (Z.div_mod n 10 ltac:(lia)). lia.
Qed.

Lemma parse_field_pad k lo hi n rest :
  0 <= n < 10 ^ Z.of_nat k → lo <= n <= hi →
  parse_field k lo hi (pad k n ++ rest) = Some (n, rest).
Proof.
  intros Hn Hr. unfold parse_field. rewrite length_app, pad_length.
  destruct (Nat.ltb_spec (k + length rest) k); [lia|].
  rewrite take_app_length', drop_app_length' by (by rewrite pad_length).
  rewrite pad_value by done. cbn [mbind option_bind].
  replace (0 * 10 ^ Z.of_nat k + n) with n by lia.
  destruct (Z.leb_spec lo n), (Z.leb_spec n hi); simpl; done || lia.
Qed.

Lemma parse_field_bind {B} (f : Z * bytes → option B) k lo hi n rest :
  0 <= n < 10 ^ Z.of_nat k → lo <= n <= hi →
  parse_field k lo hi (pad k n ++ rest) ≫= f = f (n, rest).
Proof. intros Hn Hr. by rewrite parse_field_pad. Qed.

Lemma expect_bind {B} (f : bytes → option B) c rest : expect c (c :: rest) ≫= f = f rest.
Proof. unfold expect. by rewrite Ascii.eqb_refl. Qed.

Lemma expect_cons c rest : expect c (c :: rest) = Some rest.
Proof. unfold expect. by rewrite Ascii.eqb_refl. Qed.

(** The bytes that end a run of digits. *)
Definition no_digit_first (l : bytes) : Prop :=
  match l with c :: _ => is_digit c = false ∧ Ascii.eqb c "." = false | [] => True end.

Lemma span_digits_app ds rest :
  Forall (λ c, is_digit c = true) ds → no_digit_first rest → span_digits (ds ++ rest) = (ds, rest).
Proof.
  intros Hd Hr. induction Hd as [|c ds Hc _ IH]; simpl.
  - destruct rest as [|c rest]; [done|]. destruct Hr as [Hr _]. simpl. by rewrite Hr.
  - by rewrite Hc, IH.
Qed.

Lemma drop_zeros_spec l : ∃ k, l = replicate k "0"%char ++ drop_zeros l.
Proof.
  induction l as [|c l [k IH]]; [by exists 0%nat|]. simpl. destruct (Ascii.eqb c "0") eqn:E.
  - apply Ascii.eqb_eq in E as ->. exists (S k). simpl. by f_equal.
  - by exists 0%nat.
Qed.

Lemma trim_zeros_spec l : ∃ k, l = trim_zeros l ++ replicate k "0"%char.
Proof.
  unfold trim_zeros. destruct (drop_zeros_spec (rev l)) as [k E]. exists k.
  rewrite <- (rev_involutive l) at 1. rewrite E at 1. rewrite rev_app_distr. f_equal.
  clear E. induction k as [|k IH]; [done|]. simpl. rewrite IH. symmetry. apply replicate_cons_app.
Qed.

Lemma parse_digits_zeros v k : parse_digits v (replicate k "0"%char) = Some (v * 10 ^ Z.of_nat k).
Proof.
  revert v. induction k as [|k IH]; intros v; [simpl; f_equal; lia|].
  rewrite replicate_S. change (parse_digits v ("0"%char :: replicate k "0"%char)) with
    (parse_digits (v * 10 + 0) (replicate k "0"%char)).
  rewrite IH, Nat2Z.inj_succ, Z.pow_succ_r by lia. f_equal. lia.
Qed.

Lemma parse_digits_Some v l : Forall (λ c, is_digit c = true) l → is_Some (parse_digits v l).
Proof. intros H. revert v. induction H as [|c l Hc _ IH]; intros v; simpl; [eauto|]. by rewrite Hc. Qed.

Lemma parse_format_nanos n rest : 0 <= n < Second → no_digit_first rest →
  parse_fraction (format_nanos n ++ rest) = (n, rest).
Proof.
  intros Hn Hr. unfold format_nanos. destruct (Z.eqb_spec n 0) as [->|Hz].
  { cbn [app]. destruct rest as [|p [|d l]]; [done|done|]. destruct Hr as [_ Hp].
    unfold parse_fraction. by rewrite Hp. }
  destruct (trim_zeros_spec (pad 9 n)) as [k Ek]. set (ds := trim_zeros (pad 9 n)) in *.
  assert (Forall (λ c, is_digit c = true) ds) as Hd
    by (pose proof (pad_digits 9 n) as H; rewrite Ek, Forall_app in H; tauto).
  assert (length ds + k = 9)%nat as Hlen.
  { pose proof (pad_length 9 n) as H. rewrite Ek, length_app, length_replicate in H. done. }
  pose proof (pad_value 9 n 0 ltac:(done)) as Hv. rewrite Ek, parse_digits_app in Hv.
  destruct (parse_digits_Some 0 ds Hd) as [v Ev]. rewrite Ev in Hv. cbn [mbind option_bind] in Hv.
  rewrite parse_digits_zeros in Hv. injection Hv as Hv.
  clearbody ds. destruct ds as [|d ds].
  { simpl in Ev. by simplify_eq. }
  cbn [app]. unfold parse_fraction. pose proof Hd as [Hd1 _]%Forall_cons. rewrite Hd1.
  change (Ascii.eqb "." ".") with true. cbn [andb].
  rewrite app_comm_cons, span_digits_app by done.
  rewrite take_ge by lia. rewrite Ev. simpl default. f_equal.
  replace (9 - Z.of_nat (length (d :: ds))) with (Z.of_nat k) by lia. lia.
Qed.

Lemma parse_format_zone z : z mod 60 = 0 → Z.abs (Z.quot z 60) / 60 < 24 →
  parse_zone (format_zone z) = Some z ∧ no_digit_first (format_zone z).
Proof.
  intros Hm Hz. unfold format_zone. destruct (Z.eqb_spec z 0) as [->|Hne]; [done|].
  assert (z = 60 * (z / 60)) as Hq by (pose proof (Z.div_mod z 60); lia).
  assert (Z.quot z 60 = z / 60) as Eq.
  { rewrite Hq at 1. rewrite Z.mul_comm. by apply Z.quot_mul. }
  rewrite Eq in *. set (m := z / 60) in *. clearbody m.
  split; [|by destruct (m <? 0)]. set (a := Z.abs m) in *.
  assert (0 <= a / 60) by (apply Z.div_pos; lia).
  pose proof (Z.mod_pos_bound a 60 ltac:(lia)). pose proof (Z.div_mod a 60 ltac:(lia)).
  assert (∀ sign, parse_zone (sign :: pad 2 (a / 60) ++ ":"%char :: pad 2 (a mod 60)) =
    if Ascii.eqb sign "-" then Some (- (a * 60))
    else if Ascii.eqb sign "+" then Some (a * 60) else None) as Hp.
  { intros sign. unfold parse_zone.
    assert (∃ c l, pad 2 (a / 60) ++ ":"%char :: pad 2 (a mod 60) = c :: l) as (c & l & E) by (by eexists _, _).
    rewrite E. rewrite <- E. clear c l E.
    rewrite parse_field_pad by lia. cbn [mbind option_bind]. rewrite expect_cons. cbn [mbind option_bind].
    rewrite <- (app_nil_r (pad 2 (a mod 60))), parse_field_pad by lia. cbn [mbind option_bind].
    replace ((a / 60 * 60 + a mod 60) * 60) with (a * 60) by lia. done. }
  rewrite Hp. destruct (Z.ltb_spec m 0); simpl; f_equal; lia.
Qed.

Lemma civil_ranges t : let c := civil t in
  1 <= c_month c <= 12 ∧ 1 <= c_day c <= daysIn (c_month c) (c_year c)
  ∧ 0 <= c_hour c <= 23 ∧ 0 <= c_min c <= 59 ∧ 0 <= c_sec c <= 59 ∧ 0 <= c_nsec c < Second
  ∧ days_of_date (c_year c) (c_month c) (c_day c) * 86400 + c_hour c * 3600 + c_min c * 60 + c_sec c
    = abs_sec t.
Proof.
  unfold civil. destruct (year_day (abs_sec t / 86400)) as [y yday] eqn:Ey.
  destruct (month_day (isLeap y) yday) as [m md] eqn:Em. cbn.
  destruct (date_roundtrip _ _ _ _ _ Ey Em) as (-> & Hm & Hd).
  set (s := abs_sec t mod 86400). assert (0 <= s < 86400) by (apply Z.mod_pos_bound; lia).
  pose proof (Z.div_mod (abs_sec t) 86400 ltac:(lia)).
  pose proof (Z.div_mod s 3600 ltac:(lia)). pose proof (Z.mod_pos_bound s 3600 ltac:(lia)).
  pose proof (Z.div_mod (s mod 3600) 60 ltac:(lia)).
  pose proof (Z.mod_pos_bound (s mod 3600) 60 ltac:(lia)).
  pose proof (Z.div_mod s 60 ltac:(lia)). pose proof (Z.mod_pos_bound s 60 ltac:(lia)).
  split_and!; try done; try lia.
  - apply Z.mod_pos_bound. unfold Second. lia.
  - apply Z.mod_pos_bound. unfold Second. lia.
Qed.

Lemma daysIn_bound m y : 1 <= m <= 12 → daysIn m y <= 31.
Proof.
  intros Hm. assert (∀ m, m ∈ Z.of_nat <$> seq 1 12 → daysIn m 1 <= 31 ∧ daysIn m 4 <= 31) as H.
  { apply Forall_forall. by repeat constructor. }
  destruct (H m).
  - apply list_elem_of_fmap. exists (Z.to_nat m). split; [lia|]. apply elem_of_seq. lia.
  - rewrite daysIn_leap. by destruct (isLeap y).
Qed.

#[local] Opaque pad.

(** An instant that can be formatted is read back, on the wall clock. *)
Lemma parse_format_rfc3339 t l :
  format_rfc3339 t = Some l → t_zone t mod 60 = 0 →
  parse_rfc3339 l = Some (MkTime (t_wall t) None (t_zone t)).
Proof.
  unfold format_rfc3339. destruct (formattable t) eqn:Ef; [|done]. intros [= <-] Hz.
  unfold formattable in Ef.
  destruct (civil_ranges t) as (Hm & Hd & Hh & Hmi & Hs & Hn & Habs).
  pose proof (daysIn_bound (c_month (civil t)) (c_year (civil t)) Hm).
  destruct (parse_format_zone (t_zone t) Hz ltac:(lia)) as [Hpz Hnz].
  set (c := civil t) in *. unfold parse_rfc3339, format_civil.
  repeat (rewrite <- app_assoc; cbn [app]).
  repeat (rewrite parse_field_bind by lia; rewrite ?expect_bind).
  rewrite parse_format_nanos by done. rewrite Hpz. cbn [mbind option_bind].
  rewrite Habs. unfold abs_sec. do 2 f_equal. unfold c, civil.
  destruct (year_day _), (month_day _ _). cbn.
  pose proof (Z.div_mod (t_wall t) Second ltac:(done)). lia.
Qed.

Lemma format_rfc3339_Some t : formattable t = true → is_Some (format_rfc3339 t).
Proof. unfold format_rfc3339. intros ->. eauto. Qed.

Lemma at_most_three e : 0 <= e <= 4 → 0 <= e - e / 4 <= 3 ∧ e <= e - e / 4 + 1 ∧ (e < 4 → e - e / 4 = e).
Proof.
  intros He. assert (e = 0 ∨ e = 1 ∨ e = 2 ∨ e = 3 ∨ e = 4) as Hc by lia.
  destruct Hc as [->|[->|[->|[->| ->]]]]; vm_compute; intuition congruence.
Qed.

(** The years 1 to 9600, in UTC, can be written. *)
Lemma year_day_range d : 0 <= d < 24 * 146097 → 1 <= (year_day d).1 <= 9600.
Proof.
  intros Hd. unfold year_day. cbn [fst].
  pose proof (Z.div_mod d 146097 ltac:(lia)). pose proof (Z.mod_pos_bound d 146097 ltac:(lia)) as H1.
  set (d1 := d mod 146097) in *. clearbody d1.
  assert (0 <= d1 / 36524 <= 4) as He
    by (split; [apply Z.div_pos; lia|apply Z.lt_succ_r, Z.div_lt_upper_bound; lia]).
  destruct (at_most_three _ He) as (Hc & Hc1 & Hc2).
  pose proof (Z.div_mod d1 36524 ltac:(lia)). pose proof (Z.mod_pos_bound d1 36524 ltac:(lia)).
  set (e := d1 / 36524) in *. clearbody e. set (c := e - e / 4) in *. clearbody c.
  set (d2 := d1 - 36524 * c) in *. assert (0 <= d2 <= 36524) as Hd2 by lia. clearbody d2.
  assert (0 <= d2 / 1461 <= 24) as Hq
    by (split; [apply Z.div_pos; lia|apply Z.lt_succ_r, Z.div_lt_upper_bound; lia]).
  pose proof (Z.div_mod d2 1461 ltac:(lia)). pose proof (Z.mod_pos_bound d2 1461 ltac:(lia)).
  set (q := d2 / 1461) in *. clearbody q.
  set (d3 := d2 - 1461 * q) in *. assert (0 <= d3 < 1461) as Hd3 by lia. clearbody d3.
  assert (0 <= d3 / 365 <= 4) as Hy
    by (split; [apply Z.div_pos; lia|apply Z.lt_succ_r, Z.div_lt_upper_bound; lia]).
  destruct (at_most_three _ Hy) as (Hy3 & _ & _).
  assert (0 <= d / 146097 < 24) as Hd4
    by (split; [apply Z.div_pos; lia|apply Z.div_lt_upper_bound; lia]).
  lia.
Qed.

Lemma formattable_year t : t_zone t = 0 → 0 <= abs_sec t / 86400 < 24 * 146097 → formattable t = true.
Proof.
  intros Hz Hd. unfold formattable. rewrite Hz. pose proof (year_day_range _ Hd) as Hy.
  assert (c_year (civil t) = (year_day (abs_sec t / 86400)).1) as ->.
  { unfold civil. destruct (year_day _) as [y yday]. by destruct (month_day _ _). }
  change (Z.abs (Z.quot 0 60) / 60 <? 24) with true. lia.
Qed.
