(* ===== verification/Model.v ===== *)
(** * [pkg/model]: the data the queue's layers share

    The message record, the queue modes, the request of [POST /enqueue] with
    its validation, and the read-only views the service returns. *)

From S2P Require Import Prelude GoTime GoStrconv.

Local Open Scope Z_scope.

(** ** Modes *)

(** [type QueueMode string]. *)
Definition QueueMode := string.
Definition ModeFIFO : QueueMode := "FIFO".
Definition ModeLIFO : QueueMode := "LIFO".

(** [func (m QueueMode) Valid() bool]. *)
Definition Valid (m : QueueMode) : bool := bool_decide (m = ModeFIFO) || bool_decide (m = ModeLIFO).

(** The error of an unrecognised mode, in [ParseQueueMode] and the
    constructors of the engine and the service. *)
Definition ErrInvalidMode (m : string) : error :=
  let quote := of_bytes [byte_of 34] in
  ErrQuoted "invalid queue mode " m
    (": must be " +:+ quote +:+ ModeFIFO +:+ quote +:+ " or " +:+ quote +:+ ModeLIFO +:+ quote).

Definition ParseQueueMode (s : string) : result QueueMode :=
  if Valid s then Ok s else Err (ErrInvalidMode s).

(** ** Messages *)

(** [type Status string]. *)
Definition Status := string.
Definition StatusPending : Status := "PENDING".

Record Message := MkMessage {
  ID : string;
  Seq : Z;              (** uint64 *)
  Payload : string;
  Priority : Z;         (** int *)
  EnqueuedAt : Time;
  AvailableAt : Time;
  m_Status : Status
}.

#[export] Instance Message_eq_dec : EqDecision Message.
Proof. solve_decision. Defined.

(** [func (m *Message) Available(now time.Time) bool]. *)
Definition Available (m : Message) (now : Time) : bool := negb (Before now (AvailableAt m)).

(** ** Requests *)

Record EnqueueRequest := MkEnqueueRequest {
  r_Payload : string;
  r_Priority : Z;       (** int *)
  r_DelaySeconds : Z    (** int64 *)
}.

Definition MaxDelaySeconds : Z := 10 * 365 * 24 * 60 * 60.

(** [func (r *EnqueueRequest) Validate() error]: the first problem found. *)
Definition Validate (r : EnqueueRequest) : option error :=
  if bool_decide (r_Payload r = "") then Some (ErrNew "payload must not be empty")
  else if r_DelaySeconds r <? 0 then
    Some (ErrNew ("delay_seconds must be >= 0, got " +:+ Itoa (r_DelaySeconds r)))
  else if MaxDelaySeconds <? r_DelaySeconds r then
    Some (ErrNew ("delay_seconds must be <= " +:+ Itoa MaxDelaySeconds
      +:+ " (ten years), got " +:+ Itoa (r_DelaySeconds r)))
  else None.

(** ** Views *)

Record QueueStats := MkQueueStats {
  Total : Z;
  s_Available : Z;
  s_Delayed : Z
}.

Record QueueSnapshot := MkQueueSnapshot {
  sn_Mode : QueueMode;
  sn_Now : Time;
  sn_Stats : QueueStats;
  sn_Ready : list Message;
  sn_Delayed : list Message;
  sn_ReadyTruncated : bool;
  sn_DelayedTruncated : bool
}.

(** The records of a tail are raw JSON values: the bytes of log lines. *)
Record WalTail := MkWalTail {
  wt_Path : string;
  wt_SizeBytes : Z;
  wt_Truncated : bool;
  wt_Records : list bytes
}.

(** ** Facts *)

Lemma Valid_iff m : Valid m = true ↔ m = ModeFIFO ∨ m = ModeLIFO.
Proof. unfold Valid. rewrite orb_true_iff, !bool_decide_eq_true. done. Qed.

Lemma ParseQueueMode_Ok s m : ParseQueueMode s = Ok m ↔ s = m ∧ Valid m = true.
Proof.
  unfold ParseQueueMode. destruct (Valid s) eqn:E; (split; [intros; simplify_eq|]).
  - done.
  - by intros [-> _].
  - intros [-> ?]. congruence.
Qed.

Lemma Validate_None r :
  Validate r = None ↔ r_Payload r ≠ "" ∧ 0 <= r_DelaySeconds r <= MaxDelaySeconds.
Proof.
  unfold Validate. case_bool_decide; [naive_solver|].
  destruct (Z.ltb_spec (r_DelaySeconds r) 0); [split; [done|lia]|].
  destruct (Z.ltb_spec MaxDelaySeconds (r_DelaySeconds r)); [split; [done|lia]|].
  split; [|done]. split; [done|lia].
Qed.

(** The product [time.Duration(delay) * time.Second] of an accepted delay. *)
Lemma delay_no_overflow d :
  0 <= d <= MaxDelaySeconds → wrap_i64 (d * Second) = d * Second.
Proof. intros Hd. apply wrap_i64_small. unfold in_i64, MaxDelaySeconds, Second in *. lia. Qed.

Lemma Available_coherent off m now :
  coherent off (AvailableAt m) → coherent off now →
  Available m now = (t_wall (AvailableAt m) <=? t_wall now).
Proof.
  intros Hm Hn. unfold Available. rewrite (Before_coherent off) by done. lia.
Qed.
