(* ===== verification/Codec.v ===== *)
(** * The program's structs as JSON

    How [encoding/json] writes and reads the struct types of [pkg/model]: one
    encoder and one decoder per Go type, then the structs field by field in the
    order and under the names of their tags.  Decoding a struct is a fold over
    the members of the object: unknown names are skipped, a repeated name
    overrides, names match exactly or else up to case, [null] leaves the field
    as it was, and any mismatch makes the whole call fail. *)

From S2P Require Import Prelude GoTime GoStrconv GoUtf8 GoJson GoJsonFacts GoTimeFormat Model.
From Stdlib Require Import Ascii.

Local Open Scope Z_scope.

(** ** Field names *)

Definition upper (c : ascii) : ascii :=
  if in_range 97 122 c then byte_of (byte_val c - 32) else c.

(** [foldName]: upper case for ASCII.  Of the other runes, only the Kelvin sign
    and the long s fold to an ASCII letter; the rest never match a tag. *)
Definition fold_chunk (ch : chunk) : bytes :=
  match ch with
  | Single c => [upper c]
  | Multi l =>
      if decide (l = byte_of <$> [226; 132; 170]) then ["K"%char]
      else if decide (l = byte_of <$> [197; 191]) then ["S"%char] else l
  | Invalid _ => replacement
  end.

Definition fold_name (l : bytes) : bytes := chunks l ≫= fold_chunk.

Definition find_field (names : list string) (key : bytes) : option string :=
  if decide (of_bytes key ∈ names) then Some (of_bytes key)
  else snd <$> list_find (λ n, fold_name (to_bytes n) = fold_name key) names.

Section decode_struct.
Context {S : Type} (names : list string) (set : string → json → S → option S).

Fixpoint decode_members (m : list (bytes * json)) (s : S) : option S :=
  match m with
  | [] => Some s
  | (raw, v) :: m =>
      key ← unquote raw;
      match find_field names key with
      | Some f => s' ← set f v s; decode_members m s'
      | None => decode_members m s
      end
  end.

Definition decode_struct (j : json) (s : S) : option S :=
  match j with
  | JObj m => decode_members m s
  | JNull => Some s
  | _ => None
  end.

Lemma decode_member raw f v m s :
  unquote raw = Some (to_bytes f) → f ∈ names →
  decode_members ((raw, v) :: m) s = set f v s ≫= decode_members m.
Proof.
  intros Hr Hf. cbn [decode_members]. rewrite Hr. cbn [mbind option_bind].
  unfold find_field. by rewrite of_to_bytes, decide_True.
Qed.
End decode_struct.

(** ** Values *)

Definition enc_string (s : string) : json := JStr (quote (to_bytes s)).
Definition enc_int (n : Z) : json := JNum (format_int n).
Definition enc_uint (n : Z) : json := JNum (format_uint n).
Definition enc_time (t : Time) : option json := JStr <$> format_rfc3339 t.

Definition dec_string (j : json) (old : string) : option string :=
  match j with
  | JStr raw => of_bytes <$> unquote raw
  | JNull => Some old
  | _ => None
  end.

(** [int] and [int64]: a literal [strconv.ParseInt] accepts. *)
Definition dec_int (j : json) (old : Z) : option Z :=
  match j with
  | JNum lit => Atoi (of_bytes lit)
  | JNull => Some old
  | _ => None
  end.

Definition dec_uint (j : json) (old : Z) : option Z :=
  match j with
  | JNum lit => n ← parse_digits 0 lit; if n <? 2 ^ 64 then Some n else None
  | JNull => Some old
  | _ => None
  end.

Definition dec_bool (j : json) (old : bool) : option bool :=
  match j with
  | JBool b => Some b
  | JNull => Some old
  | _ => None
  end.

(** [Time.UnmarshalJSON] looks at the bytes between the quotes as they are. *)
Definition dec_time (j : json) (old : Time) : option Time :=
  match j with
  | JStr raw => parse_rfc3339 raw
  | JNull => Some old
  | _ => None
  end.

(** A pointer: [null] is nil. *)
Definition dec_ptr {A} (dec : json → A → option A) (zero : A) (j : json) (old : option A) : option (option A) :=
  match j with
  | JNull => Some None
  | _ => Some <$> dec j (default zero old)
  end.

(** A slice: elements are decoded over those already there. *)
Fixpoint dec_elements {A} (dec : json → A → option A) (zero : A) (l : list json) (old : list A) : option (list A) :=
  match l with
  | [] => Some []
  | j :: l => a ← dec j (hd zero old); cons a <$> dec_elements dec zero l (tl old)
  end.

Definition dec_slice {A} (dec : json → A → option A) (zero : A) (j : json) (old : list A) : option (list A) :=
  match j with
  | JArr l => dec_elements dec zero l old
  | JNull => Some []
  | _ => None
  end.

(** ** The structs of [pkg/model] *)

Definition field (name : string) (j : json) : bytes * json := (to_bytes name, j).

Definition zero_message : Message := MkMessage "" 0 "" 0 zero_time zero_time "".

Definition message_fields : list string :=
  ["id"; "seq"; "payload"; "priority"; "enqueued_at"; "available_at"; "status"].

Definition enc_message (m : Message) : option json :=
  e ← enc_time (EnqueuedAt m);
  a ← enc_time (AvailableAt m);
  Some (JObj [field "id" (enc_string (ID m)); field "seq" (enc_uint (Seq m));
              field "payload" (enc_string (Payload m)); field "priority" (enc_int (Priority m));
              field "enqueued_at" e; field "available_at" a;
              field "status" (enc_string (m_Status m))]).

Definition set_message (f : string) (j : json) (m : Message) : option Message :=
  let '(MkMessage id seq payload priority enq avail status) := m in
  if decide (f = "id") then x ← dec_string j id; Some (MkMessage x seq payload priority enq avail status)
  else if decide (f = "seq") then x ← dec_uint j seq; Some (MkMessage id x payload priority enq avail status)
  else if decide (f = "payload") then x ← dec_string j payload; Some (MkMessage id seq x priority enq avail status)
  else if decide (f = "priority") then x ← dec_int j priority; Some (MkMessage id seq payload x enq avail status)
  else if decide (f = "enqueued_at") then x ← dec_time j enq; Some (MkMessage id seq payload priority x avail status)
  else if decide (f = "available_at") then x ← dec_time j avail; Some (MkMessage id seq payload priority enq x status)
  else if decide (f = "status") then x ← dec_string j status; Some (MkMessage id seq payload priority enq avail x)
  else Some m.

Definition dec_message : json → Message → option Message := decode_struct message_fields set_message.

Definition zero_request : EnqueueRequest := MkEnqueueRequest "" 0 0.

Definition request_fields : list string := ["payload"; "priority"; "delay_seconds"].

Definition enc_request (r : EnqueueRequest) : json :=
  JObj [field "payload" (enc_string (r_Payload r)); field "priority" (enc_int (r_Priority r));
        field "delay_seconds" (enc_int (r_DelaySeconds r))].

Definition set_request (f : string) (j : json) (r : EnqueueRequest) : option EnqueueRequest :=
  let '(MkEnqueueRequest payload priority delay) := r in
  if decide (f = "payload") then x ← dec_string j payload; Some (MkEnqueueRequest x priority delay)
  else if decide (f = "priority") then x ← dec_int j priority; Some (MkEnqueueRequest payload x delay)
  else if decide (f = "delay_seconds") then x ← dec_int j delay; Some (MkEnqueueRequest payload priority x)
  else Some r.

Definition dec_request : json → EnqueueRequest → option EnqueueRequest :=
  decode_struct request_fields set_request.

Definition zero_stats : QueueStats := MkQueueStats 0 0 0.

Definition enc_stats (s : QueueStats) : json :=
  JObj [field "total" (enc_int (Total s)); field "ready" (enc_int (s_Available s));
        field "delayed" (enc_int (s_Delayed s))].

Definition set_stats (f : string) (j : json) (s : QueueStats) : option QueueStats :=
  let '(MkQueueStats total available delayed) := s in
  if decide (f = "total") then x ← dec_int j total; Some (MkQueueStats x available delayed)
  else if decide (f = "ready") then x ← dec_int j available; Some (MkQueueStats total x delayed)
  else if decide (f = "delayed") then x ← dec_int j delayed; Some (MkQueueStats total available x)
  else Some s.

Definition dec_stats : json → QueueStats → option QueueStats :=
  decode_struct ["total"; "ready"; "delayed"] set_stats.

Definition zero_snapshot : QueueSnapshot := MkQueueSnapshot "" zero_time zero_stats [] [] false false.

Definition snapshot_fields : list string :=
  ["mode"; "now"; "stats"; "ready"; "delayed"; "ready_truncated"; "delayed_truncated"].

Definition enc_snapshot (s : QueueSnapshot) : option json :=
  now ← enc_time (sn_Now s);
  ready ← mapM enc_message (sn_Ready s);
  delayed ← mapM enc_message (sn_Delayed s);
  Some (JObj [field "mode" (enc_string (sn_Mode s)); field "now" now;
              field "stats" (enc_stats (sn_Stats s));
              field "ready" (JArr ready); field "delayed" (JArr delayed);
              field "ready_truncated" (JBool (sn_ReadyTruncated s));
              field "delayed_truncated" (JBool (sn_DelayedTruncated s))]).

Definition set_snapshot (f : string) (j : json) (s : QueueSnapshot) : option QueueSnapshot :=
  let '(MkQueueSnapshot mode now stats ready delayed rt dt) := s in
  if decide (f = "mode") then x ← dec_string j mode; Some (MkQueueSnapshot x now stats ready delayed rt dt)
  else if decide (f = "now") then x ← dec_time j now; Some (MkQueueSnapshot mode x stats ready delayed rt dt)
  else if decide (f = "stats") then x ← dec_stats j stats; Some (MkQueueSnapshot mode now x ready delayed rt dt)
  else if decide (f = "ready") then
    x ← dec_slice dec_message zero_message j ready; Some (MkQueueSnapshot mode now stats x delayed rt dt)
  else if decide (f = "delayed") then
    x ← dec_slice dec_message zero_message j delayed; Some (MkQueueSnapshot mode now stats ready x rt dt)
  else if decide (f = "ready_truncated") then x ← dec_bool j rt; Some (MkQueueSnapshot mode now stats ready delayed x dt)
  else if decide (f = "delayed_truncated") then x ← dec_bool j dt; Some (MkQueueSnapshot mode now stats ready delayed rt x)
  else Some s.

Definition dec_snapshot : json → QueueSnapshot → option QueueSnapshot :=
  decode_struct snapshot_fields set_snapshot.

(** ** Raw records

    A [json.RawMessage] is parsed when it is marshalled, and its strings are
    escaped for HTML: angle brackets, ampersands and line separators. *)

Fixpoint escape_raw (l : bytes) : bytes :=
  match l with
  | [] => []
  | c :: l1 =>
      if ceq c "<" then to_bytes "\u003c" ++ escape_raw l1
      else if ceq c ">" then to_bytes "\u003e" ++ escape_raw l1
      else if ceq c "&" then to_bytes "\u0026" ++ escape_raw l1
      else match l1 with
           | b :: d :: l3 =>
               if decide ([c; b; d] = line_separator) then to_bytes "\u2028" ++ escape_raw l3
               else if decide ([c; b; d] = paragraph_separator) then to_bytes "\u2029" ++ escape_raw l3
               else c :: escape_raw l1
           | _ => c :: escape_raw l1
           end
  end.

Fixpoint escape_json (j : json) : json :=
  match j with
  | JStr raw => JStr (escape_raw raw)
  | JArr l => JArr (map escape_json l)
  | JObj m => JObj (map (λ kv, (escape_raw kv.1, escape_json kv.2)) m)
  | _ => j
  end.

Definition enc_raw (b : bytes) : option json := escape_json <$> parse b.

Definition enc_tail (t : WalTail) : option json :=
  records ← mapM enc_raw (wt_Records t);
  Some (JObj [field "path" (enc_string (wt_Path t)); field "size_bytes" (enc_int (wt_SizeBytes t));
              field "truncated" (JBool (wt_Truncated t)); field "records" (JArr records)]).

(** ** Calls *)

(** [json.Unmarshal(b, &v)] and [json.Marshal(v)]. *)
Definition Unmarshal {A} (dec : json → A → option A) (b : bytes) (old : A) : option A :=
  j ← parse b; dec j old.

(** [json.MarshalIndent(v, _, two spaces)]: indenting scans the text again, and
    the scanner refuses what is nested too deeply. *)
Definition MarshalIndent (j : option json) : option bytes :=
  j ← j; if Z.of_nat (height j) <=? maxNestingDepth then Some (indented j) else None.
