(* ===== verification/CodecFacts.v ===== *)
(** * Round trips of the encoders

    What [encoding/json] writes for a value it reads back, up to what JSON does
    not carry: a monotonic clock reading is dropped and bytes that are not
    UTF-8 become U+FFFD. *)

From S2P Require Import Prelude GoTime GoStrconv GoUtf8 GoJson GoJsonFacts GoTimeFormat Model Codec.
From Stdlib Require Import Ascii.

Local Open Scope Z_scope.

(** The instant and the string that come back. *)
Definition wall_time (t : Time) : Time := MkTime (t_wall t) None (t_zone t).
Definition valid_string (s : string) : string := of_bytes (sanitize (to_bytes s)).

(** A zone JSON can carry: whole minutes. *)
Definition time_ok (t : Time) : bool := formattable t && (t_zone t mod 60 =? 0).

Lemma valid_string_id s : valid_utf8 (to_bytes s) = true → valid_string s = s.
Proof. intros Hs. unfold valid_string. by rewrite sanitize_id, of_to_bytes. Qed.

Lemma valid_string_valid s : valid_utf8 (to_bytes (valid_string s)) = true.
Proof. unfold valid_string. rewrite to_of_bytes. apply sanitize_valid. Qed.

Lemma valid_string_empty s : valid_string s = "" ↔ s = "".
Proof.
  split; [|by intros ->]. intros Hs. apply to_bytes_inj.
  apply (f_equal to_bytes) in Hs. unfold valid_string in Hs. rewrite to_of_bytes in Hs.
  destruct (to_bytes s) as [|c l] eqn:E; [done|exfalso]. unfold sanitize in Hs.
  pose proof (chunks_wf (c :: l)) as HF. destruct (chunks (c :: l)) as [|ch cs] eqn:Ec.
  - assert (valid_utf8 (c :: l) = true) as Hv by (unfold valid_utf8; by rewrite Ec).
    apply sanitize_id in Hv. unfold sanitize in Hv. by rewrite Ec in Hv.
  - apply Forall_cons in HF as [Hw _]. csimpl in Hs. apply app_eq_nil in Hs as [Hs _].
    by destruct Hw.
Qed.

Lemma dec_enc_string s old : dec_string (enc_string s) old = Some (valid_string s).
Proof. unfold dec_string, enc_string. by rewrite unquote_quote. Qed.

Lemma dec_enc_int n old : in_i64 n → dec_int (enc_int n) old = Some n.
Proof. intros Hn. by apply Atoi_Itoa. Qed.

Lemma dec_enc_uint n old : in_u64 n → dec_uint (enc_uint n) old = Some n.
Proof.
  unfold in_u64. intros Hn. unfold dec_uint, enc_uint. rewrite parse_format_uint by lia.
  cbn [mbind option_bind]. destruct (Z.ltb_spec n (2 ^ 64)); [done|lia].
Qed.

Lemma dec_enc_time t j old :
  enc_time t = Some j → t_zone t mod 60 = 0 → dec_time j old = Some (wall_time t).
Proof.
  unfold enc_time. destruct (format_rfc3339 t) as [l|] eqn:E; [|done]. intros [= <-] Hz.
  by apply parse_format_rfc3339.
Qed.

Lemma enc_time_ok t : time_ok t = true → ∃ j, enc_time t = Some j.
Proof.
  unfold time_ok. intros [Hf _]%andb_true_iff. unfold enc_time.
  destruct (format_rfc3339_Some t Hf) as [l ->]. by eexists.
Qed.

(** ** Well-formed trees *)

(** The bytes of a formatted instant need no escape. *)
Definition stamp_byte (c : ascii) : bool :=
  is_digit c || ceq c "-" || ceq c ":" || ceq c "T" || ceq c "." || ceq c "Z" || ceq c "+".

Abbreviation stamp := (Forall (λ c, stamp_byte c = true)).

Lemma digits_stamp l : Forall (λ c, is_digit c = true) l → stamp l.
Proof. intros H. eapply Forall_impl; [exact H|]. unfold stamp_byte. by intros c ->. Qed.

Lemma trim_stamp l : stamp l → stamp (trim_zeros l).
Proof. destruct (trim_zeros_spec l) as [k E]. rewrite E at 1. rewrite Forall_app. tauto. Qed.

#[local] Opaque pad.

Ltac solve_stamp :=
  repeat (apply Forall_app_2 || (apply Forall_cons_2; [done|]));
  auto using digits_stamp, pad_digits, trim_stamp.

Lemma format_stamp t l : format_rfc3339 t = Some l → stamp l.
Proof.
  unfold format_rfc3339. destruct (formattable t); [|done]. intros [= <-].
  assert (stamp (format_nanos (c_nsec (civil t)))) as Hn.
  { unfold format_nanos. case_match; [constructor|]. solve_stamp. }
  assert (stamp (format_zone (t_zone t))) as Hz.
  { unfold format_zone. case_match; [by repeat constructor|].
    apply Forall_cons_2; [by case_match|]. solve_stamp. }
  unfold format_civil. solve_stamp.
Qed.

Lemma stamp_raw l : stamp l → raw_ok l = true.
Proof.
  intros Hl. apply raw_ok_run. induction Hl as [|c l Hc _ IH]; [done|]. cbn [run].
  assert (∀ c, negb (stamp_byte c) || match str_step SPlain c with Some SPlain => true | _ => false end = true)
    as H by (by apply all_bytes).
  specialize (H c). rewrite Hc in H. simpl negb in H. cbn [orb] in H.
  destruct (str_step SPlain c) as [[]|]; done.
Qed.

Lemma enc_time_wf t j : enc_time t = Some j → wf_json j = true ∧ height j = 0%nat.
Proof.
  unfold enc_time. destruct (format_rfc3339 t) as [l|] eqn:E; [|done]. intros [= <-].
  split; [|done]. by eapply stamp_raw, format_stamp.
Qed.

Lemma enc_string_wf s : wf_json (enc_string s) = true.
Proof. apply quote_raw. Qed.

Lemma enc_int_wf n : wf_json (enc_int n) = true.
Proof. apply format_int_num. Qed.

Lemma enc_uint_wf n : 0 <= n → wf_json (enc_uint n) = true.
Proof. apply format_uint_num. Qed.

#[export] Hint Resolve enc_string_wf enc_int_wf enc_uint_wf : go_json.

(** ** Messages and requests *)

Record message_ok (m : Message) : Prop := {
  mok_seq : in_u64 (Seq m);
  mok_priority : in_i64 (Priority m);
  mok_enqueued : time_ok (EnqueuedAt m) = true;
  mok_available : time_ok (AvailableAt m) = true
}.

(** The message as it is read back. *)
Definition wire_message (m : Message) : Message :=
  MkMessage (valid_string (ID m)) (Seq m) (valid_string (Payload m)) (Priority m)
    (wall_time (EnqueuedAt m)) (wall_time (AvailableAt m)) (valid_string (m_Status m)).

(** Decoding an object written field by field: compute down to the decoders of
    the fields, then apply their round trips. *)
Ltac decode_fields :=
  lazy -[dec_string dec_uint dec_int dec_time dec_bool dec_slice dec_stats
         enc_string enc_uint enc_int enc_stats valid_string wall_time];
  repeat (first
    [ rewrite dec_enc_string
    | rewrite dec_enc_uint by assumption
    | rewrite dec_enc_int by assumption
    | match goal with H : enc_time ?t = Some ?j |- context [dec_time ?j ?old] =>
        rewrite (dec_enc_time t j old H) by assumption end ]; cbn beta iota).

Lemma enc_message_ok m : message_ok m → ∃ j, enc_message m = Some j.
Proof.
  intros [_ _ He Ha]. unfold enc_message.
  destruct (enc_time_ok _ He) as [je ->], (enc_time_ok _ Ha) as [ja ->]. by eexists.
Qed.

Lemma dec_enc_message m j old :
  message_ok m → enc_message m = Some j → dec_message j old = Some (wire_message m).
Proof.
  intros [Hs Hp He Ha] E. unfold enc_message in E.
  destruct (enc_time (EnqueuedAt m)) as [je|] eqn:Ee; [|done].
  destruct (enc_time (AvailableAt m)) as [ja|] eqn:Ea; [|done]. injection E as <-.
  apply andb_true_iff in He as [_ He%Z.eqb_eq], Ha as [_ Ha%Z.eqb_eq].
  destruct m, old. cbn [Model.Seq Model.Priority Model.EnqueuedAt Model.AvailableAt] in *. decode_fields. done.
Qed.

(** A tree whose parts are well-formed leaves is well-formed. *)
Ltac solve_wf :=
  cbn [wf_json height forallb map fst snd max_list foldr]; repeat (rewrite andb_true_iff; split);
  try reflexivity; auto with go_json.

Lemma enc_message_wf m j :
  0 <= Seq m → enc_message m = Some j → wf_json j = true ∧ height j = 1%nat.
Proof.
  unfold enc_message. intros Hs E.
  destruct (enc_time (EnqueuedAt m)) as [je|] eqn:Ee; [|done].
  destruct (enc_time (AvailableAt m)) as [ja|] eqn:Ea; [|done]. injection E as <-.
  destruct (enc_time_wf _ _ Ee) as [We He]. destruct (enc_time_wf _ _ Ea) as [Wa Ha].
  split; [unfold field; solve_wf|].
  simpl. by rewrite He, Ha.
Qed.

(** What a decoder makes of the compact form of a tree. *)
Lemma Unmarshal_compact {A} (dec : json → A → option A) j old :
  wf_json j = true → (Z.of_nat (height j) <= maxNestingDepth)%Z →
  Unmarshal dec (compact j) old = dec j old.
Proof. intros Hw Hh. unfold Unmarshal. by rewrite parse_compact. Qed.

Lemma Unmarshal_indented {A} (dec : json → A → option A) j old sp :
  wf_json j = true → (Z.of_nat (height j) <= maxNestingDepth)%Z → all_space sp →
  Unmarshal dec (indented j ++ sp) old = dec j old.
Proof. intros Hw Hh Hsp. unfold Unmarshal. by rewrite parse_indented. Qed.

Record request_ok (r : EnqueueRequest) : Prop := {
  rok_priority : in_i64 (r_Priority r);
  rok_delay : in_i64 (r_DelaySeconds r)
}.

Definition wire_request (r : EnqueueRequest) : EnqueueRequest :=
  MkEnqueueRequest (valid_string (r_Payload r)) (r_Priority r) (r_DelaySeconds r).

Lemma dec_enc_request r old : request_ok r → dec_request (enc_request r) old = Some (wire_request r).
Proof. destruct r, old. intros [Hp Hd]. cbn [Model.r_Priority Model.r_DelaySeconds] in *. decode_fields. done. Qed.

Lemma enc_request_wf r : wf_json (enc_request r) = true ∧ height (enc_request r) = 1%nat.
Proof. split; [unfold enc_request, field; solve_wf|done]. Qed.

(** ** Snapshots *)

Record stats_ok (s : QueueStats) : Prop := {
  sok_total : in_i64 (Total s);
  sok_available : in_i64 (s_Available s);
  sok_delayed : in_i64 (s_Delayed s)
}.

Record snapshot_ok (s : QueueSnapshot) : Prop := {
  snok_now : time_ok (sn_Now s) = true;
  snok_stats : stats_ok (sn_Stats s);
  snok_messages : Forall message_ok (sn_Ready s ++ sn_Delayed s)
}.

(** The snapshot as it is read back. *)
Definition wire_snapshot (s : QueueSnapshot) : QueueSnapshot :=
  MkQueueSnapshot (valid_string (sn_Mode s)) (wall_time (sn_Now s)) (sn_Stats s)
    (wire_message <$> sn_Ready s) (wire_message <$> sn_Delayed s) (sn_ReadyTruncated s) (sn_DelayedTruncated s).

Lemma dec_enc_stats s old : stats_ok s → dec_stats (enc_stats s) old = Some s.
Proof.
  destruct s, old. intros [Ht Ha Hd]. cbn [Model.Total Model.s_Available Model.s_Delayed] in *.
  lazy -[dec_int enc_int]. repeat (rewrite dec_enc_int by assumption; cbn beta iota). done.
Qed.

Lemma enc_messages_ok l : Forall message_ok l → ∃ js, mapM enc_message l = Some js.
Proof.
  induction 1 as [|m l Hm _ [js IH]]; [by eexists|].
  destruct (enc_message_ok m Hm) as [j Ej]. exists (j :: js). cbn [mapM]. by rewrite Ej, IH.
Qed.

Lemma dec_enc_messages l js old :
  Forall message_ok l → mapM enc_message l = Some js →
  dec_slice dec_message zero_message (JArr js) old = Some (wire_message <$> l).
Proof.
  intros Hl. cbn [dec_slice]. revert js old.
  induction Hl as [|m l Hm _ IH]; intros js old; cbn [mapM]; [by intros [= <-]|].
  destruct (enc_message m) as [j|] eqn:Ej; [|done]. destruct (mapM enc_message l) as [js'|]; [|done].
  cbn [mbind option_bind]. intros [= <-]. cbn [dec_elements].
  rewrite (dec_enc_message _ _ _ Hm Ej). cbn [mbind option_bind]. by rewrite (IH js').
Qed.

Lemma enc_messages_wf l js : Forall message_ok l → mapM enc_message l = Some js →
  Forall (λ j, wf_json j = true ∧ height j = 1%nat) js.
Proof.
  intros Hl. revert js. induction Hl as [|m l Hm _ IH]; intros js; cbn [mapM]; [by intros [= <-]; constructor|].
  destruct (enc_message m) as [j|] eqn:Ej; [|done]. destruct (mapM enc_message l) as [js'|]; [|done].
  cbn [mbind option_bind]. intros [= <-]. constructor; [|by apply IH].
  eapply enc_message_wf; [apply (mok_seq m Hm)|done].
Qed.

Lemma dec_enc_snapshot s j old :
  snapshot_ok s → enc_snapshot s = Some j → dec_snapshot j old = Some (wire_snapshot s).
Proof.
  intros [Hn Hs Hm] E. unfold enc_snapshot in E. apply Forall_app in Hm as [Hr Hd].
  destruct (enc_time (sn_Now s)) as [jn|] eqn:En; [|done].
  destruct (mapM enc_message (sn_Ready s)) as [jr|] eqn:Er; [|done].
  destruct (mapM enc_message (sn_Delayed s)) as [jd|] eqn:Ed; [|done]. injection E as <-.
  apply andb_true_iff in Hn as [_ Hn%Z.eqb_eq].
  destruct s, old. cbn [Model.sn_Now Model.sn_Stats Model.sn_Ready Model.sn_Delayed] in *.
  match goal with |- _ = Some ?w => remember w as result eqn:Hw end.
  lazy -[dec_string dec_time dec_slice dec_stats enc_string enc_stats dec_message zero_message].
  rewrite dec_enc_string; cbn beta iota. rewrite (dec_enc_time _ _ _ En) by done; cbn beta iota.
  rewrite dec_enc_stats by done; cbn beta iota.
  rewrite (dec_enc_messages _ _ _ Hr Er); cbn beta iota.
  rewrite (dec_enc_messages _ _ _ Hd Ed); cbn beta iota. by rewrite Hw.
Qed.

Lemma enc_snapshot_ok s : snapshot_ok s → ∃ j, enc_snapshot s = Some j ∧ wf_json j = true ∧ (height j <= 3)%nat.
Proof.
  intros [Hn Hs [Hr Hd]%Forall_app]. unfold enc_snapshot.
  destruct (enc_time_ok _ Hn) as [jn En], (enc_messages_ok _ Hr) as [jr Er], (enc_messages_ok _ Hd) as [jd Ed].
  rewrite En, Er, Ed. cbn [mbind option_bind]. eexists. split; [done|].
  destruct (enc_time_wf _ _ En) as [Wn Hhn].
  pose proof (enc_messages_wf _ _ Hr Er) as Wr. pose proof (enc_messages_wf _ _ Hd Ed) as Wd.
  assert (∀ js, Forall (λ j, wf_json j = true ∧ height j = 1%nat) js →
    forallb wf_json js = true ∧ (max_list (map height js) <= 1)%nat) as Hjs.
  { intros js. induction 1 as [|j js [Hw Hh] _ [IH1 IH2]]; [split; [done|cbn; lia]|]. cbn [forallb map].
    rewrite Hw, IH1, Hh. split; [done|]. change (max_list (1%nat :: map height js)) with (Nat.max 1 (max_list (map height js))). lia. }
  destruct (Hjs _ Wr) as [W1 H1], (Hjs _ Wd) as [W2 H2].
  split; [unfold field, enc_stats, field; solve_wf|].
  revert H1 H2. cbn. fold (max_list (map height jr)) (max_list (map height jd)). rewrite Hhn. intros. lia.
Qed.

(** ** Indented texts *)

Lemma MarshalIndent_ok j : Z.of_nat (height j) <= maxNestingDepth → MarshalIndent (Some j) = Some (indented j).
Proof.
  intros H. unfold MarshalIndent. cbn [mbind option_bind].
  by destruct (Z.leb_spec (Z.of_nat (height j)) maxNestingDepth); [|lia].
Qed.

Lemma MarshalIndent_Some v body : MarshalIndent v = Some body →
  ∃ j, v = Some j ∧ body = indented j ∧ Z.of_nat (height j) <= maxNestingDepth.
Proof.
  unfold MarshalIndent. destruct v as [j|]; [|done]. cbn [mbind option_bind].
  destruct (Z.leb_spec (Z.of_nat (height j)) maxNestingDepth); [|done]. intros [= <-]. eauto.
Qed.

(** ** Raw records *)

(** A byte that [escape_raw] replaces can only stand where a string is plain. *)
Lemma html_plain s c t : str_step s c = Some t → c = "<"%char ∨ c = ">"%char ∨ c = "&"%char → s = SPlain ∧ t = SPlain.
Proof. intros H [-> | [-> | ->]]; destruct s; by simplify_eq/=. Qed.

Lemma high_plain s c t : str_step s c = Some t → c = byte_of 226 → s = SPlain ∧ t = SPlain.
Proof. intros H ->; destruct s; by simplify_eq/=. Qed.

Lemma escape_raw_cons c l : escape_raw (c :: l) =
  if ceq c "<" then to_bytes "\u003c" ++ escape_raw l
  else if ceq c ">" then to_bytes "\u003e" ++ escape_raw l
  else if ceq c "&" then to_bytes "\u0026" ++ escape_raw l
  else match l with
       | b :: d :: l3 =>
           if decide ([c; b; d] = line_separator) then to_bytes "\u2028" ++ escape_raw l3
           else if decide ([c; b; d] = paragraph_separator) then to_bytes "\u2029" ++ escape_raw l3
           else c :: escape_raw l
       | _ => c :: escape_raw l
       end.
Proof. done. Qed.

Lemma escape_raw_run n l s t : (length l <= n)%nat →
  run str_step l s = Some t → run str_step (escape_raw l) s = Some t.
Proof.
  revert l s. induction n as [|n IH]; intros [|c l] s Hn; cbn [length] in Hn; [done|lia|done|].
  cbn [run]. destruct (str_step s c) as [s1|] eqn:E; [|done]. cbn [mbind option_bind]. intros Hr.
  assert (run str_step (c :: escape_raw l) s = Some t) as Hplain.
  { cbn [run]. rewrite E. cbn [mbind option_bind]. apply IH; [lia|done]. }
  assert (∀ e, c = "<"%char ∨ c = ">"%char ∨ c = "&"%char → run str_step e SPlain = Some SPlain →
    run str_step (e ++ escape_raw l) s = Some t) as Hesc.
  { intros e Hc He. destruct (html_plain _ _ _ E Hc) as [-> ->]. rewrite run_app, He. apply IH; [lia|done]. }
  assert (∀ e b d l3, c = byte_of 226 → l = b :: d :: l3 → is_ascii b = false → is_ascii d = false →
    run str_step e SPlain = Some SPlain → run str_step (e ++ escape_raw l3) s = Some t) as Hsep.
  { intros e b d l3 Hc -> Hb Hd He. destruct (high_plain _ _ _ E Hc) as [-> ->]. rewrite run_app, He.
    cbn [mbind option_bind]. cbn [length] in Hn. apply IH; [lia|].
    change (b :: d :: l3) with ([b; d] ++ l3) in Hr. by rewrite run_app, high_run in Hr by (by repeat constructor). }
  rewrite escape_raw_cons.
  destruct (ceq c "<") eqn:E1; [apply ceq_iff in E1; by apply Hesc; auto|].
  destruct (ceq c ">") eqn:E2; [apply ceq_iff in E2; by apply Hesc; auto|].
  destruct (ceq c "&") eqn:E3; [apply ceq_iff in E3; by apply Hesc; auto|].
  destruct l as [|b [|d l3]]; [exact Hplain..|].
  destruct (decide ([c; b; d] = line_separator)) as [Hs|_].
  { injection Hs as -> -> ->. by eapply Hsep. }
  destruct (decide ([c; b; d] = paragraph_separator)) as [Hs|_]; [|exact Hplain].
  injection Hs as -> -> ->. by eapply Hsep.
Qed.

Lemma escape_raw_ok raw : raw_ok raw = true → raw_ok (escape_raw raw) = true.
Proof. rewrite !raw_ok_run. by apply (escape_raw_run (length raw)). Qed.

Lemma escape_json_wf j : wf_json j = true → wf_json (escape_json j) = true.
Proof.
  induction j as [| | |raw|l IH|m IH] using json_ind; intros Hw; try done; cbn [escape_json wf_json] in *.
  - by apply escape_raw_ok.
  - apply forallb_Forall in Hw. apply forallb_Forall, Forall_fmap.
    eapply Forall_impl; [apply Forall_and; split; [exact IH|exact Hw]|]. intros x [Hx Hwx]. by apply Hx.
  - apply forallb_Forall in Hw. apply forallb_Forall, Forall_fmap.
    eapply Forall_impl; [apply Forall_and; split; [exact IH|exact Hw]|].
    intros [k v] [Hv [Hk Hwv]%andb_true_iff]. cbn in *. by rewrite escape_raw_ok, Hv.
Qed.

(** The tree of a tail is well formed, whatever records the log holds. *)
Lemma enc_tail_wf t j : enc_tail t = Some j → wf_json j = true.
Proof.
  unfold enc_tail. destruct (mapM enc_raw (wt_Records t)) as [js|] eqn:Em; [|done]. intros [= <-].
  assert (wf_json (JArr js) = true) as Hjs.
  { cbn [wf_json]. apply forallb_Forall, Forall_forall. intros j Hj.
    apply mapM_Some_1 in Em. apply list_elem_of_lookup_1 in Hj as [i Hi].
    destruct (Forall2_lookup_r _ _ _ _ _ Em Hi) as (b & _ & E).
    unfold enc_raw in E. destruct (parse b) as [j0|] eqn:Ep; [|done]. injection E as <-.
    by apply escape_json_wf, (parse_wf b). }
  unfold field. solve_wf.
Qed.
