(* ===== verification/LogRecord.v ===== *)
(** * Records of the write-ahead log

    [logEntry] and its JSON line.  [LogCodec] is what [pkg/storage] uses of
    [encoding/json] for records, [LogCodecLaws] what it relies on; the JSON of
    the program, [json_codec], satisfies the laws. *)

From S2P Require Import Prelude GoTime GoStrconv GoUtf8 GoJson GoJsonFacts GoTimeFormat Model.
From S2P Require Import Codec CodecFacts.
From Stdlib Require Import Ascii.

Local Open Scope Z_scope.

Record logEntry := MkEntry {
  V : Z;                           (** int *)
  Op : string;
  le_Seq : Z;                      (** uint64 *)
  TS : Time;
  le_ID : string;
  MsgSeq : Z;                      (** uint64 *)
  le_Payload : string;
  le_Priority : option Z;          (** *int *)
  le_EnqueuedAt : option Time;     (** *time.Time *)
  le_AvailableAt : option Time;    (** *time.Time *)
  le_Status : Status
}.

Definition zero_entry : logEntry := MkEntry 0 "" 0 zero_time "" 0 "" None None None "".

Definition OP_ENQUEUE : string := "ENQUEUE".
Definition OP_DEQUEUE : string := "DEQUEUE".

(** ** The codec the log needs *)

Class LogCodec := {
  marshal : logEntry → option bytes;      (** [json.Marshal(rec)] *)
  unmarshal : bytes → option logEntry;    (** [json.Unmarshal(line, &rec)] *)
  valid : bytes → bool                    (** [json.Valid(line)] *)
}.

(** One line: no control characters, braces at both ends. *)
Definition record_line (b : bytes) : Prop :=
  printable b ∧ ∃ m, b = "{"%char :: m ++ ["}"%char].

(** The integers of a record fit their Go types, and its instants can be
    written. *)
Record writable (e : logEntry) : Prop := {
  wr_V : in_i64 (V e);
  wr_Seq : in_u64 (le_Seq e);
  wr_MsgSeq : in_u64 (MsgSeq e);
  wr_Priority : match le_Priority e with Some p => in_i64 p | None => True end;
  wr_TS : time_ok (TS e) = true;
  wr_EnqueuedAt : match le_EnqueuedAt e with Some t => time_ok t = true | None => True end;
  wr_AvailableAt : match le_AvailableAt e with Some t => time_ok t = true | None => True end
}.

(** The record as it is read back. *)
Definition read_back (e : logEntry) : logEntry :=
  MkEntry (V e) (valid_string (Op e)) (le_Seq e) (wall_time (TS e)) (valid_string (le_ID e))
    (MsgSeq e) (valid_string (le_Payload e)) (le_Priority e)
    (wall_time <$> le_EnqueuedAt e) (wall_time <$> le_AvailableAt e) (valid_string (le_Status e)).

Class LogCodecLaws (C : LogCodec) : Prop := {
  marshal_writable e : writable e → ∃ b, marshal e = Some b;
  marshal_round e b : writable e → marshal e = Some b → unmarshal b = Some (read_back e);
  marshal_line e b : writable e → marshal e = Some b → record_line b;
  marshal_valid e b : writable e → marshal e = Some b → valid b = true;
  (** a record cut short is not a record *)
  marshal_torn e p q : writable e → marshal e = Some (p ++ q) → p ≠ [] → q ≠ [] →
    unmarshal p = None ∧ valid p = false;
  (** nor is a record cut short with another one behind it *)
  marshal_glued e p q e' b' : writable e → writable e' →
    marshal e = Some (p ++ q) → p ≠ [] → q ≠ [] → marshal e' = Some b' →
    unmarshal (p ++ b') = None ∧ valid (p ++ b') = false;
  (** the payload is in the line *)
  marshal_length e b : writable e → marshal e = Some b →
    (String.length (le_Payload e) <= length b)%nat
}.

(** ** The program's records as JSON *)

(** A field with [omitempty]. *)
Definition omit_empty (empty : bool) (name : string) (j : json) : list (bytes * json) :=
  if empty then [] else [field name j].

Definition enc_opt_time (t : option Time) : option (option json) :=
  match t with Some t => Some <$> enc_time t | None => Some None end.

Definition entry_json (e : logEntry) : option json :=
  ts ← enc_time (TS e);
  enq ← enc_opt_time (le_EnqueuedAt e);
  avail ← enc_opt_time (le_AvailableAt e);
  Some (JObj (
    [field "v" (enc_int (V e)); field "op" (enc_string (Op e));
     field "seq" (enc_uint (le_Seq e)); field "ts" ts]
    ++ omit_empty (bool_decide (le_ID e = "")) "id" (enc_string (le_ID e))
    ++ omit_empty (MsgSeq e =? 0) "msg_seq" (enc_uint (MsgSeq e))
    ++ omit_empty (bool_decide (le_Payload e = "")) "payload" (enc_string (le_Payload e))
    ++ match le_Priority e with Some p => [field "priority" (enc_int p)] | None => [] end
    ++ match enq with Some j => [field "enqueued_at" j] | None => [] end
    ++ match avail with Some j => [field "available_at" j] | None => [] end
    ++ omit_empty (bool_decide (le_Status e = "")) "status" (enc_string (le_Status e)))).

Definition entry_fields : list string :=
  ["v"; "op"; "seq"; "ts"; "id"; "msg_seq"; "payload"; "priority"; "enqueued_at"; "available_at"; "status"].

Definition set_entry (f : string) (j : json) (e : logEntry) : option logEntry :=
  let '(MkEntry v op seq ts id mseq payload prio enq avail status) := e in
  if decide (f = "v") then x ← dec_int j v; Some (MkEntry x op seq ts id mseq payload prio enq avail status)
  else if decide (f = "op") then x ← dec_string j op; Some (MkEntry v x seq ts id mseq payload prio enq avail status)
  else if decide (f = "seq") then x ← dec_uint j seq; Some (MkEntry v op x ts id mseq payload prio enq avail status)
  else if decide (f = "ts") then x ← dec_time j ts; Some (MkEntry v op seq x id mseq payload prio enq avail status)
  else if decide (f = "id") then x ← dec_string j id; Some (MkEntry v op seq ts x mseq payload prio enq avail status)
  else if decide (f = "msg_seq") then x ← dec_uint j mseq; Some (MkEntry v op seq ts id x payload prio enq avail status)
  else if decide (f = "payload") then x ← dec_string j payload; Some (MkEntry v op seq ts id mseq x prio enq avail status)
  else if decide (f = "priority") then
    x ← dec_ptr dec_int 0 j prio; Some (MkEntry v op seq ts id mseq payload x enq avail status)
  else if decide (f = "enqueued_at") then
    x ← dec_ptr dec_time zero_time j enq; Some (MkEntry v op seq ts id mseq payload prio x avail status)
  else if decide (f = "available_at") then
    x ← dec_ptr dec_time zero_time j avail; Some (MkEntry v op seq ts id mseq payload prio enq x status)
  else if decide (f = "status") then x ← dec_string j status; Some (MkEntry v op seq ts id mseq payload prio enq avail x)
  else Some e.

Definition dec_entry : json → logEntry → option logEntry := decode_struct entry_fields set_entry.

#[export] Instance json_codec : LogCodec := {
  marshal e := compact <$> entry_json e;
  unmarshal b := Unmarshal dec_entry b zero_entry;
  valid := json_Valid
}.

(** ** The program's codec satisfies the laws *)

Lemma decode_members_app {S} names (set : string → json → S → option S) m1 m2 s :
  decode_members names set (m1 ++ m2) s = decode_members names set m1 s ≫= decode_members names set m2.
Proof.
  revert s. induction m1 as [|[raw v] m1 IH]; intros s; [done|].
  cbn [app decode_members]. destruct (unquote raw); [|done]. cbn [mbind option_bind].
  destruct (find_field names l); [|apply IH]. destruct (set s0 v s); [apply IH|done].
Qed.

Lemma enc_opt_time_inv t j :
  enc_opt_time t = Some j →
  match t, j with
  | Some t, Some j => enc_time t = Some j
  | None, None => True
  | _, _ => False
  end.
Proof.
  destruct t as [t|]; simpl; [|by intros [= <-]].
  destruct (enc_time t); simpl; intros; by simplify_eq.
Qed.

Lemma enc_opt_time_ok t :
  match t with Some t => time_ok t = true | None => True end → ∃ j, enc_opt_time t = Some j.
Proof.
  destruct t as [t|]; [|by eexists]. intros (j & E)%enc_time_ok. simpl. rewrite E. by eexists.
Qed.

Lemma time_ok_zone t : time_ok t = true → t_zone t mod 60 = 0.
Proof. unfold time_ok. lia. Qed.

Lemma entry_json_ok e : writable e → ∃ m, entry_json e = Some (JObj m).
Proof.
  intros [_ _ _ _ Ht He Ha]. unfold entry_json.
  destruct (enc_time_ok _ Ht) as [jt ->], (enc_opt_time_ok _ He) as [je ->], (enc_opt_time_ok _ Ha) as [ja ->].
  by eexists.
Qed.

(** One member, or none when the value is the zero value already there. *)
Ltac decode_piece :=
  match goal with
  | |- context [decode_members ?n ?f (omit_empty (bool_decide (?s = "")) ?k ?j ++ ?m) ?r] =>
      rewrite (decode_members_app n f (omit_empty (bool_decide (s = "")) k j));
      case_bool_decide; [subst|]; cbn [omit_empty]
  end.

Lemma decode_entry_pieces v op seq ts id mseq payload prio enq avail status je ja :
  in_u64 mseq → match prio with Some p => in_i64 p | None => True end →
  match enq, je with Some t, Some j => enc_time t = Some j ∧ t_zone t mod 60 = 0 | None, None => True | _, _ => False end →
  match avail, ja with Some t, Some j => enc_time t = Some j ∧ t_zone t mod 60 = 0 | None, None => True | _, _ => False end →
  decode_members entry_fields set_entry
    (omit_empty (bool_decide (id = "")) "id" (enc_string id)
    ++ omit_empty (mseq =? 0) "msg_seq" (enc_uint mseq)
    ++ omit_empty (bool_decide (payload = "")) "payload" (enc_string payload)
    ++ match prio with Some p => [field "priority" (enc_int p)] | None => [] end
    ++ match je with Some j => [field "enqueued_at" j] | None => [] end
    ++ match ja with Some j => [field "available_at" j] | None => [] end
    ++ omit_empty (bool_decide (status = "")) "status" (enc_string status))
    (MkEntry v op seq ts "" 0 "" None None None "") =
  Some (MkEntry v op seq ts (valid_string id) mseq (valid_string payload) prio
    (wall_time <$> enq) (wall_time <$> avail) (valid_string status)).
Proof.
  intros Hm Hp He Ha.
  assert (∀ s, s = "" → valid_string s = "") as Hempty by (by intros s ->).
  rewrite decode_members_app.
  match goal with |- ?x ≫= _ = _ =>
    assert (x = Some (MkEntry v op seq ts (valid_string id) 0 "" None None None "")) as -> end.
  { case_bool_decide; [by rewrite Hempty|]. unfold omit_empty. decode_fields. done. }
  cbn [mbind option_bind]. rewrite decode_members_app.
  match goal with |- ?x ≫= _ = _ =>
    assert (x = Some (MkEntry v op seq ts (valid_string id) mseq "" None None None "")) as -> end.
  { destruct (Z.eqb_spec mseq 0) as [->|]; [done|]. unfold omit_empty. decode_fields. done. }
  cbn [mbind option_bind]. rewrite decode_members_app.
  match goal with |- ?x ≫= _ = _ =>
    assert (x = Some (MkEntry v op seq ts (valid_string id) mseq (valid_string payload) None None None "")) as -> end.
  { case_bool_decide; [by rewrite (Hempty payload)|]. unfold omit_empty. decode_fields. done. }
  cbn [mbind option_bind]. rewrite decode_members_app.
  match goal with |- ?x ≫= _ = _ =>
    assert (x = Some (MkEntry v op seq ts (valid_string id) mseq (valid_string payload) prio None None "")) as -> end.
  { destruct prio; [|done]. lazy -[dec_int enc_int valid_string]. by rewrite dec_enc_int. }
  cbn [mbind option_bind]. rewrite decode_members_app.
  match goal with |- ?x ≫= _ = _ =>
    assert (x = Some (MkEntry v op seq ts (valid_string id) mseq (valid_string payload) prio
      (wall_time <$> enq) None "")) as -> end.
  { destruct enq as [t|], je as [j|]; try done. destruct He as [He Hz].
    assert (j ≠ JNull) as Hn by (intros ->; unfold enc_time in He; by destruct (format_rfc3339 t)).
    lazy -[dec_time valid_string wall_time].
    destruct j; try done; by rewrite (dec_enc_time t _ _ He Hz). }
  cbn [mbind option_bind]. rewrite decode_members_app.
  match goal with |- ?x ≫= _ = _ =>
    assert (x = Some (MkEntry v op seq ts (valid_string id) mseq (valid_string payload) prio
      (wall_time <$> enq) (wall_time <$> avail) "")) as -> end.
  { destruct avail as [t|], ja as [j|]; try done. destruct Ha as [Ha Hz].
    assert (j ≠ JNull) as Hn by (intros ->; unfold enc_time in Ha; by destruct (format_rfc3339 t)).
    lazy -[dec_time valid_string wall_time].
    destruct j; try done; by rewrite (dec_enc_time t _ _ Ha Hz). }
  cbn [mbind option_bind].
  case_bool_decide; [by rewrite (Hempty status)|]. unfold omit_empty. decode_fields. done.
Qed.

Lemma dec_entry_json e j : writable e → entry_json e = Some j →
  dec_entry j zero_entry = Some (read_back e).
Proof.
  intros [Hv Hs Hm Hp Ht He Ha] E. unfold entry_json in E.
  destruct (enc_time (TS e)) as [jt|] eqn:Et; [|done]. cbn [mbind option_bind] in E.
  destruct (enc_opt_time (le_EnqueuedAt e)) as [je|] eqn:Ee; [|done]. cbn [mbind option_bind] in E.
  destruct (enc_opt_time (le_AvailableAt e)) as [ja|] eqn:Ea; [|done]. injection E as <-.
  apply enc_opt_time_inv in Ee, Ea. apply time_ok_zone in Ht.
  unfold dec_entry, decode_struct.
  match goal with |- decode_members ?n ?f (?a :: ?b :: ?c :: ?d :: ?m) ?s = _ =>
    change (a :: b :: c :: d :: m) with ([a; b; c; d] ++ m) end.
  rewrite decode_members_app.
  match goal with |- ?x ≫= _ = _ =>
    assert (x = Some (MkEntry (V e) (valid_string (Op e)) (le_Seq e) (wall_time (TS e)) "" 0 "" None None None "")) as -> end.
  { destruct e. cbn [LogRecord.V LogRecord.Op LogRecord.le_Seq LogRecord.TS] in *. decode_fields. done. }
  cbn [mbind option_bind]. apply decode_entry_pieces; [done|done| |].
  - destruct (le_EnqueuedAt e), je; try done. split; [done|]. by apply time_ok_zone.
  - destruct (le_AvailableAt e), ja; try done. split; [done|]. by apply time_ok_zone.
Qed.

(** The shape of a record: a flat object whose first member is ["v"]. *)
Definition flat (kv : bytes * json) : Prop :=
  raw_ok kv.1 = true ∧ wf_json kv.2 = true ∧ height kv.2 = 0%nat.

Lemma flat_wf m : Forall flat m → wf_json (JObj m) = true ∧ height (JObj m) = 1%nat.
Proof.
  intros HF. simpl. split.
  - apply forallb_Forall. eapply Forall_impl; [exact HF|]. intros kv (-> & -> & _). done.
  - f_equal. induction HF as [|kv m (_ & _ & Hh) _ IH]; [done|]. simpl. by rewrite Hh, IH.
Qed.

Lemma omit_flat b name j :
  raw_ok (to_bytes name) = true → wf_json j = true → height j = 0%nat →
  Forall flat (omit_empty b name j).
Proof. destruct b; repeat constructor; done. Qed.

Lemma entry_json_flat e j : writable e → entry_json e = Some j →
  ∃ v m, j = JObj ((to_bytes "v", v) :: m) ∧ Forall flat ((to_bytes "v", v) :: m).
Proof.
  intros [Hv Hs Hm Hp Ht He Ha] E. unfold entry_json in E. unfold in_u64 in *.
  destruct (enc_time (TS e)) as [jt|] eqn:Et; [|done]. cbn [mbind option_bind] in E.
  destruct (enc_opt_time (le_EnqueuedAt e)) as [je|] eqn:Ee; [|done]. cbn [mbind option_bind] in E.
  destruct (enc_opt_time (le_AvailableAt e)) as [ja|] eqn:Ea; [|done]. injection E as <-.
  apply enc_opt_time_inv in Ee, Ea. eexists _, _. split; [reflexivity|].
  assert (∀ name t j, raw_ok (to_bytes name) = true → enc_time t = Some j → flat (field name j)) as Htime.
  { intros name t j Hn [Hw Hh]%enc_time_wf. done. }
  assert (∀ name j, raw_ok (to_bytes name) = true → wf_json j = true → height j = 0%nat → flat (field name j))
    as Hf by done.
  assert (wf_json (enc_uint (le_Seq e)) = true) by (apply enc_uint_wf; lia).
  assert (wf_json (enc_uint (MsgSeq e)) = true) by (apply enc_uint_wf; lia).
  do 3 (apply Forall_cons_2; [by apply Hf; auto with go_json|]).
  apply Forall_cons_2; [by eapply Htime|].
  repeat apply Forall_app_2; try (apply omit_flat; auto with go_json).
  - destruct (le_Priority e); repeat constructor; auto with go_json. apply format_int_num.
  - destruct (le_EnqueuedAt e), je; try done. apply Forall_cons_2; [by eapply Htime|constructor].
  - destruct (le_AvailableAt e), ja; try done. apply Forall_cons_2; [by eapply Htime|constructor].
Qed.

Lemma compact_object kv m : compact (JObj (kv :: m)) =
  "{"%char :: join [","%char] (map (λ kv, in_quotes kv.1 ++ [":"%char]
    ++ render (λ _, []) [":"%char] 1 kv.2) (kv :: m)) ++ ["}"%char].
Proof. done. Qed.

Lemma compact_object_line kv m :
  wf_json (JObj (kv :: m)) = true → record_line (compact (JObj (kv :: m))).
Proof. intros Hw. split; [by apply compact_printable|]. rewrite compact_object. by eexists. Qed.

(** A text of an object has no proper prefix that is a text. *)
Lemma compact_object_torn kv m p q :
  wf_json (JObj (kv :: m)) = true → height (JObj (kv :: m)) = 1%nat →
  compact (JObj (kv :: m)) = p ++ q → p ≠ [] → q ≠ [] →
  parse p = None ∧ ∃ p', p = "{"%char :: p'.
Proof.
  intros Hw Hh E Hp Hq. destruct p as [|c p]; [done|].
  destruct (compact_object_line kv m Hw) as [_ [b Eb]].
  assert (c = "{"%char) as -> by (rewrite Eb in E; by injection E).
  split; [|eauto]. destruct (parse ("{"%char :: p)) as [v|] eqn:Ep; [|done]. exfalso.
  pose proof (parse_compact (JObj (kv :: m)) Hw ltac:(rewrite Hh; done)) as Hparse.
  rewrite E in Hparse. unfold parse in Hparse. cbn [app] in Hparse.
  destruct (scan ("{"%char :: p ++ q) initial) as [st|] eqn:Es; [|done].
  pose proof (object_prefix _ _ _ _ Es Ep) as Hsp.
  destruct (exists_last Hq) as (q' & d & ->). rewrite Eb in E.
  assert (last ("{"%char :: b ++ ["}"%char]) = Some "}"%char) as Hl
    by (rewrite app_comm_cons; apply last_snoc).
  rewrite E, app_assoc, last_snoc in Hl. injection Hl as ->.
  apply Forall_app in Hsp as [_ Hsp]. by apply Forall_cons in Hsp as [? _].
Qed.

Lemma join_length sep ls l : l ∈ ls → (length l <= length (join sep ls))%nat.
Proof.
  induction 1 as [l ls|l x ls _ IH]; simpl; [destruct ls; rewrite ?length_app; lia|].
  destruct ls as [|y ls]; [simpl in *; lia|].
  rewrite !length_app. lia.
Qed.

Lemma compact_member kv m raw :
  kv ∈ m → kv.2 = JStr raw → (length raw <= length (compact (JObj m)))%nat.
Proof.
  intros Hkv E. destruct m as [|x m]; [by apply not_elem_of_nil in Hkv|].
  rewrite compact_object. cbn [length]. rewrite length_app.
  match goal with |- context [length (join ?sep ?ls)] =>
    pose proof (join_length sep ls (in_quotes kv.1 ++ [":"%char] ++ in_quotes raw)) as Hj end.
  rewrite !length_app in Hj. unfold in_quotes in Hj. cbn [length] in Hj. rewrite !length_app in Hj.
  assert (length raw ≤ length (join [","%char]
    (map (λ kv, in_quotes kv.1 ++ [":"%char] ++ render (λ _, []) [":"%char] 1 kv.2) (x :: m))))%nat; [|simpl in *; lia].
  etrans; [|apply Hj]; [lia|]. apply list_elem_of_fmap. exists kv. by rewrite E.
Qed.

Lemma quote_length l : (length l <= length (quote l))%nat.
Proof.
  rewrite <- (chunks_bytes l) at 1. unfold quote.
  induction (chunks_wf l) as [|ch cs Hw _ IH]; [done|]. csimpl. rewrite !length_app.
  assert (length (chunk_bytes ch) ≤ length (quote_chunk ch))%nat; [|lia].
  destruct ch as [c|l'|c]; cbn [chunk_bytes quote_chunk].
  - unfold quote_single. repeat case_match; simpl; lia.
  - repeat case_decide; subst; simpl; lia.
  - simpl. lia.
Qed.

Lemma length_to_bytes s : length (to_bytes s) = String.length s.
Proof. induction s; simpl; congruence. Qed.

#[export] Instance json_codec_laws : LogCodecLaws json_codec.
Proof.
  assert (∀ e j, writable e → entry_json e = Some j → ∃ v m, j = JObj ((to_bytes "v", v) :: m)
    ∧ wf_json j = true ∧ height j = 1%nat) as Hshape.
  { intros e j Hw E. destruct (entry_json_flat e j Hw E) as (v & m & -> & HF).
    destruct (flat_wf _ HF). eauto 10. }
  split.
  - intros e [m E]%entry_json_ok. simpl. rewrite E. by eexists.
  - intros e b Hw (j & E & ->)%fmap_Some. destruct (Hshape e j Hw E) as (v & m & Ej & Hwf & Hh).
    simpl. rewrite Unmarshal_compact; [by apply dec_entry_json|done|by rewrite Hh].
  - intros e b Hw (j & E & ->)%fmap_Some. destruct (Hshape e j Hw E) as (v & m & -> & Hwf & Hh).
    by apply compact_object_line.
  - intros e b Hw (j & E & ->)%fmap_Some. destruct (Hshape e j Hw E) as (v & m & Ej & Hwf & Hh).
    simpl. unfold json_Valid. rewrite parse_compact by (done || by rewrite Hh). by eexists.
  - intros e p q Hw (j & E & Epq)%fmap_Some Hp Hq.
    destruct (Hshape e j Hw E) as (v & m & -> & Hwf & Hh).
    destruct (compact_object_torn _ _ p q Hwf Hh (eq_sym Epq) Hp Hq) as [Hn _].
    simpl. unfold Unmarshal, json_Valid. by rewrite Hn.
  - intros e p q e' b' Hw Hw' (j & E & Epq)%fmap_Some Hp Hq (j' & E' & ->)%fmap_Some.
    destruct (Hshape e j Hw E) as (v & m & -> & Hwf & Hh).
    destruct (Hshape e' j' Hw' E') as (v' & m' & -> & Hwf' & Hh').
    destruct (compact_object_torn _ _ p q Hwf Hh (eq_sym Epq) Hp Hq) as [Hn [p' ->]].
    pose proof (glued_objects p' "v" [] v' m' Hn eq_refl Hwf' Hh') as Hg.
    simpl. unfold Unmarshal, json_Valid. cbn [app]. by rewrite Hg.
  - intros e b Hw (j & E & ->)%fmap_Some. destruct (bool_decide_reflect (le_Payload e = "")) as [->|Hne];
      [simpl; lia|].
    rewrite <- length_to_bytes. etrans; [apply quote_length|].
    destruct (Hshape e j Hw E) as (v & m & Ej & _). unfold entry_json in E.
    destruct (enc_time (TS e)) as [jt|]; [|done]. cbn [mbind option_bind] in E.
    destruct (enc_opt_time (le_EnqueuedAt e)) as [je|]; [|done]. cbn [mbind option_bind] in E.
    destruct (enc_opt_time (le_AvailableAt e)) as [ja|]; [|done]. injection E as <-.
    apply (compact_member (field "payload" (enc_string (le_Payload e)))); [|done].
    rewrite (bool_decide_eq_false_2 (le_Payload e = "")) by done. cbn [omit_empty].
    do 4 right. rewrite !elem_of_app. do 2 right. left. by left.
Qed.
