(* ===== verification/Engine.v ===== *)
(** * [pkg/engine]: FrankensteinQueue

    The in-memory queue as [queue.go] writes it: items are heap-allocated cells
    shared by pointer between two heap slices and the ID index, [Swap], [Push]
    and [Pop] keep each cell's [index] and [loc] fields, and [Remove] trusts
    them.  A pointer is an index into the list of allocated cells.  Every
    operation returns [None] exactly when the Go code would panic. *)

From S2P Require Import Prelude GoTime GoHeap GoSort GoStrconv Model.

(** ** Items and the memory they live in *)

Inductive location := inDelayed | inReady.

#[export] Instance location_eq_dec : EqDecision location.
Proof. solve_decision. Defined.

Record item := MkItem {
  it_msg : Message;
  it_order : Z;        (** uint64: arrival counter assigned at Push *)
  it_loc : location;
  it_index : Z         (** int: position inside the heap identified by loc *)
}.

Abbreviation ptr := nat.
Abbreviation Mem := (list item).

(** [it.index = i] through the pointer. *)
Definition set_index (m : Mem) (p : ptr) (i : Z) : option Mem :=
  it ← m !! p; Some (<[p := MkItem (it_msg it) (it_order it) (it_loc it) i]> m).

(** ** The two heaps *)

Record readyHeap := MkReadyHeap { rh_mode : QueueMode; rh_items : list ptr }.
Record delayedHeap := MkDelayedHeap { dh_items : list ptr }.

(** [func (h *readyHeap) less(a, b *item) bool]: the selection rule. *)
Definition ready_less (mode : QueueMode) (a b : item) : bool :=
  if bool_decide (Priority (it_msg a) ≠ Priority (it_msg b)) then
    (Priority (it_msg b) <? Priority (it_msg a))%Z
  else if bool_decide (mode = ModeLIFO) then
    if bool_decide (Seq (it_msg a) ≠ Seq (it_msg b)) then
      (Seq (it_msg b) <? Seq (it_msg a))%Z
    else (it_order b <? it_order a)%Z
  else if bool_decide (Seq (it_msg a) ≠ Seq (it_msg b)) then
    (Seq (it_msg a) <? Seq (it_msg b))%Z
  else (it_order a <? it_order b)%Z.

(** [func (h *delayedHeap) less(a, b *item) bool]. *)
Definition delayed_less (a b : item) : bool :=
  if negb (Equal (AvailableAt (it_msg a)) (AvailableAt (it_msg b))) then
    Before (AvailableAt (it_msg a)) (AvailableAt (it_msg b))
  else (it_order a <? it_order b)%Z.

(** The [heap.Interface] methods, which the two heaps implement with the same
    text up to their [less] and the location they stamp. *)
Definition slice_Less (less : item → item → bool) (s : Mem * list ptr) (i j : nat) : option bool :=
  let '(m, items) := s in
  a ← items !! i; b ← items !! j;
  ia ← m !! a; ib ← m !! b;
  Some (less ia ib).

Definition slice_Swap (s : Mem * list ptr) (i j : nat) : option (Mem * list ptr) :=
  let '(m, items) := s in
  items' ← list_swap i j items;
  a ← items' !! i; m1 ← set_index m a (Z.of_nat i);
  b ← items' !! j; m2 ← set_index m1 b (Z.of_nat j);
  Some (m2, items').

Definition slice_Push (here : location) (s : Mem * list ptr) (p : ptr) : option (Mem * list ptr) :=
  let '(m, items) := s in
  it ← m !! p;
  Some (<[p := MkItem (it_msg it) (it_order it) here (Z.of_nat (length items))]> m,
        items ++ [p]).

Definition slice_Pop (s : Mem * list ptr) : option (ptr * (Mem * list ptr)) :=
  let '(m, items) := s in
  it ← last items;
  m' ← set_index m it (-1);
  Some (it, (m', take (length items - 1) items)).

Definition slice_heap (less : item → item → bool) (here : location) :
    HeapInterface (Mem * list ptr) ptr := {|
  h_len s := length (snd s);
  h_less := slice_Less less;
  h_swap := slice_Swap;
  h_push := slice_Push here;
  h_pop := slice_Pop
|}.

(** [*readyHeap] and [*delayedHeap] as [heap.Interface] values. *)
Definition ready_iface (mode : QueueMode) : HeapInterface (Mem * list ptr) ptr :=
  slice_heap (ready_less mode) inReady.
Definition delayed_iface : HeapInterface (Mem * list ptr) ptr :=
  slice_heap delayed_less inDelayed.

(** ** The queue *)

Record FrankensteinQueue := MkQueue {
  q_mem : Mem;                  (** every item allocated so far *)
  q_ready : readyHeap;
  q_delayed : delayedHeap;
  q_byID : gmap string ptr;
  q_nextOrder : Z               (** uint64 *)
}.

Definition NewFrankensteinQueue (mode : QueueMode) : result FrankensteinQueue :=
  if negb (Valid mode) then Err (ErrInvalidMode mode)
  else Ok (MkQueue [] (MkReadyHeap mode []) (MkDelayedHeap []) ∅ 0).

Definition Mode (q : FrankensteinQueue) : QueueMode := rh_mode (q_ready q).

(** The queue after a call on one of its heaps. *)
Definition with_ready (q : FrankensteinQueue) (s : Mem * list ptr) : FrankensteinQueue :=
  MkQueue (fst s) (MkReadyHeap (rh_mode (q_ready q)) (snd s)) (q_delayed q) (q_byID q) (q_nextOrder q).
Definition with_delayed (q : FrankensteinQueue) (s : Mem * list ptr) : FrankensteinQueue :=
  MkQueue (fst s) (q_ready q) (MkDelayedHeap (snd s)) (q_byID q) (q_nextOrder q).
Definition with_byID (q : FrankensteinQueue) (ix : gmap string ptr) : FrankensteinQueue :=
  MkQueue (q_mem q) (q_ready q) (q_delayed q) ix (q_nextOrder q).

Definition ready_state (q : FrankensteinQueue) : Mem * list ptr := (q_mem q, rh_items (q_ready q)).
Definition delayed_state (q : FrankensteinQueue) : Mem * list ptr := (q_mem q, dh_items (q_delayed q)).

(** The calls [heap.Push(&q.ready, x)], [heap.Pop(&q.ready)], ... *)
Definition ready_Push (q : FrankensteinQueue) (p : ptr) : option FrankensteinQueue :=
  s ← Heap.Push (HI := ready_iface (Mode q)) (ready_state q) p;
  Some (with_ready q s).
Definition ready_Pop (q : FrankensteinQueue) : option (ptr * FrankensteinQueue) :=
  '(p, s) ← Heap.Pop (HI := ready_iface (Mode q)) (ready_state q);
  Some (p, with_ready q s).
Definition ready_Remove (q : FrankensteinQueue) (i : nat) : option (ptr * FrankensteinQueue) :=
  '(p, s) ← Heap.Remove (HI := ready_iface (Mode q)) (ready_state q) i;
  Some (p, with_ready q s).
Definition delayed_Push (q : FrankensteinQueue) (p : ptr) : option FrankensteinQueue :=
  s ← Heap.Push (HI := delayed_iface) (delayed_state q) p;
  Some (with_delayed q s).
Definition delayed_Pop (q : FrankensteinQueue) : option (ptr * FrankensteinQueue) :=
  '(p, s) ← Heap.Pop (HI := delayed_iface) (delayed_state q);
  Some (p, with_delayed q s).
Definition delayed_Remove (q : FrankensteinQueue) (i : nat) : option (ptr * FrankensteinQueue) :=
  '(p, s) ← Heap.Remove (HI := delayed_iface) (delayed_state q) i;
  Some (p, with_delayed q s).

(** [func (q *FrankensteinQueue) Push(msg model.Message)]. *)
Definition Push (q : FrankensteinQueue) (msg : Message) : option FrankensteinQueue :=
  match q_byID q !! ID msg with
  | Some _ => Some q
  | None =>
      let it := length (q_mem q) in
      let q1 := MkQueue (q_mem q ++ [MkItem msg (q_nextOrder q) inDelayed 0])
        (q_ready q) (q_delayed q) (q_byID q) (wrap_u64 (q_nextOrder q + 1)) in
      q2 ← delayed_Push q1 it;
      Some (with_byID q2 (<[ID msg := it]> (q_byID q2)))
  end.

(** [promoteLocked]: one unit of fuel per round; a round that does not return
    takes an item off the delayed heap. *)
Fixpoint promote_loop (fuel : nat) (q : FrankensteinQueue) (now : Time) : option FrankensteinQueue :=
  match fuel with
  | O => None
  | S fuel =>
      match dh_items (q_delayed q) with
      | [] => Some q
      | top :: _ =>
          it ← q_mem q !! top;
          if negb (Available (it_msg it) now) then Some q
          else
            '(_, q1) ← delayed_Pop q;
            q2 ← ready_Push q1 top;
            promote_loop fuel q2 now
      end
  end.

Definition promoteLocked (q : FrankensteinQueue) (now : Time) : option FrankensteinQueue :=
  promote_loop (S (length (dh_items (q_delayed q)))) q now.

(** [Pop] and [Peek] return the message, or [None] when no message is
    eligible ([nil, false] in the code), with the new queue. *)
Definition Pop (q : FrankensteinQueue) (now : Time) : option (option Message * FrankensteinQueue) :=
  q1 ← promoteLocked q now;
  if bool_decide (length (rh_items (q_ready q1)) = 0) then Some (None, q1)
  else
    '(p, q2) ← ready_Pop q1;
    it ← q_mem q2 !! p;
    Some (Some (it_msg it), with_byID q2 (delete (ID (it_msg it)) (q_byID q2))).

Definition Peek (q : FrankensteinQueue) (now : Time) : option (option Message * FrankensteinQueue) :=
  q1 ← promoteLocked q now;
  if bool_decide (length (rh_items (q_ready q1)) = 0) then Some (None, q1)
  else
    p ← rh_items (q_ready q1) !! 0;
    it ← q_mem q1 !! p;
    Some (Some (it_msg it), q1).

Definition Len (q : FrankensteinQueue) : nat := size (q_byID q).

Definition AvailableLen (q : FrankensteinQueue) (now : Time) : option (nat * FrankensteinQueue) :=
  q1 ← promoteLocked q now;
  Some (length (rh_items (q_ready q1)), q1).

(** An [int] used as a slice index: negative indices panic. *)
Definition as_index (z : Z) : option nat := if (z <? 0)%Z then None else Some (Z.to_nat z).

Definition Remove (q : FrankensteinQueue) (id : string) : option (bool * FrankensteinQueue) :=
  match q_byID q !! id with
  | None => Some (false, q)
  | Some p =>
      let q1 := with_byID q (delete id (q_byID q)) in
      it ← q_mem q1 !! p;
      i ← as_index (it_index it);
      '(_, q2) ← match it_loc it with
                 | inReady => ready_Remove q1 i
                 | inDelayed => delayed_Remove q1 i
                 end;
      Some (true, q2)
  end.

(** ** Inspection *)

Record View := MkView {
  v_Ready : list Message;
  v_Delayed : list Message;
  v_ReadyTruncated : bool;
  v_DelayedTruncated : bool;
  v_ReadyLen : nat;
  v_DelayedLen : nat
}.

(** The three-way comparison [orderedMessages] hands to [slices.SortFunc]. *)
Definition less_cmp (less : item → item → bool) (a b : item) : Z :=
  if less a b then -1 else if less b a then 1 else 0.

Definition orderedMessages (m : Mem) (items : list ptr) (less : item → item → bool)
    (limit : Z) : option (list Message * bool) :=
  if bool_decide (length items = 0) then Some ([], false)
  else
    its ← mapM (λ p, m !! p) items;
    let sorted := SortFunc (less_cmp less) its in
    let cut := ((0 <? limit) && (limit <? Z.of_nat (length sorted)))%Z in
    let sorted' := if cut then take (Z.to_nat limit) sorted else sorted in
    Some (it_msg <$> sorted', cut).

Definition Snapshot (q : FrankensteinQueue) (now : Time) (limit : Z) :
    option (View * FrankensteinQueue) :=
  q1 ← promoteLocked q now;
  '(ready, readyTruncated) ←
    orderedMessages (q_mem q1) (rh_items (q_ready q1)) (ready_less (Mode q1)) limit;
  '(delayed, delayedTruncated) ←
    orderedMessages (q_mem q1) (dh_items (q_delayed q1)) delayed_less limit;
  Some (MkView ready delayed readyTruncated delayedTruncated
    (length (rh_items (q_ready q1))) (length (dh_items (q_delayed q1))), q1).
