(* ===== verification/EngineHeap.v ===== *)
(** * The engine's heap slices satisfy the laws of [container/heap]

    [Swap], [Push] and [Pop] of the two heaps keep, for every pointer in the
    slice, the cell's [index] equal to its position and its [loc] equal to the
    heap it is in.  [slice_laws] discharges [HeapLaws] for them; the lemmas
    [slice_Push_ok], [slice_Pop_ok] and [slice_Remove_ok] are what the queue's
    operations use. *)

From S2P Require Import Prelude GoTime GoHeap GoSort GoStrconv Model Engine.

(** What no heap operation changes in a cell. *)
Definition core (it : item) : Message * Z := (it_msg it, it_order it).
#[global] Arguments core : simpl never.

(** Each pointer of the slice points to a cell that knows its place. *)
Definition slice_ok (here : location) (m : Mem) (items : list ptr) : Prop :=
  ∀ i p, items !! i = Some p →
    ∃ it, m !! p = Some it ∧ it_loc it = here ∧ it_index it = Z.of_nat i.

(** [m'] differs from [m] at most in the bookkeeping of the cells [T]. *)
Definition frame (T : list ptr) (m m' : Mem) : Prop :=
  (∀ p, core <$> m' !! p = core <$> m !! p) ∧ (∀ p, p ∉ T → m' !! p = m !! p).

Definition ptr_less (less : item → item → bool) (m : Mem) (p q : ptr) : bool :=
  match m !! p, m !! q with Some a, Some b => less a b | _, _ => false end.

(** The comparators look at the core only. *)
Class CoreLess (less : item → item → bool) : Prop :=
  core_less a a' b b' : core a = core a' → core b = core b' → less a b = less a' b'.

#[export] Instance ready_core_less mode : CoreLess (ready_less mode).
Proof. intros [] [] [] []. unfold core. intros. by simplify_eq/=. Qed.

#[export] Instance delayed_core_less : CoreLess delayed_less.
Proof. intros [] [] [] []. unfold core. intros. by simplify_eq/=. Qed.

(** ** Frames and slices *)

#[export] Instance frame_refl T : Reflexive (frame T).
Proof. by split. Qed.

Lemma frame_trans T m1 m2 m3 : frame T m1 m2 → frame T m2 m3 → frame T m1 m3.
Proof.
  intros [Hc1 Hf1] [Hc2 Hf2]. split.
  - intros p. by rewrite Hc2.
  - intros p Hp. by rewrite Hf2, Hf1.
Qed.

Lemma frame_mono T T' m m' : T ⊆ T' → frame T m m' → frame T' m m'.
Proof. intros HT [Hc Hf]. split; [done|]. intros p Hp. apply Hf. set_solver. Qed.

Lemma frame_insert T m p it it' :
  m !! p = Some it → core it' = core it → p ∈ T → frame T m (<[p := it']> m).
Proof.
  intros Hp Hc HT. pose proof (lookup_lt_Some _ _ _ Hp). split.
  - intros k. destruct (decide (k = p)) as [->|].
    + rewrite list_lookup_insert_eq by done. by rewrite Hp; simpl; rewrite Hc.
    + by rewrite list_lookup_insert_ne by done.
  - intros k Hk. rewrite list_lookup_insert_ne; [done|set_solver].
Qed.

Lemma frame_lookup T m m' p it :
  frame T m m' → m !! p = Some it → ∃ it', m' !! p = Some it' ∧ core it' = core it.
Proof.
  intros [Hc _] Hp. specialize (Hc p). rewrite Hp in Hc. simpl in Hc.
  destruct (m' !! p) as [it'|]; [|done]. exists it'. split; [done|simpl in Hc; congruence].
Qed.

Lemma frame_lookup_r T m m' p it' :
  frame T m m' → m' !! p = Some it' → ∃ it, m !! p = Some it ∧ core it' = core it.
Proof.
  intros [Hc _] Hp. specialize (Hc p). rewrite Hp in Hc. simpl in Hc.
  destruct (m !! p) as [it|]; [|done]. exists it. split; [done|simpl in Hc; congruence].
Qed.

Lemma frame_ptr_less less `{!CoreLess less} T m m' p q :
  frame T m m' → ptr_less less m' p q = ptr_less less m p q.
Proof.
  intros [Hc _]. unfold ptr_less. pose proof (Hc p) as Hp. pose proof (Hc q) as Hq.
  destruct (m !! p), (m' !! p), (m !! q), (m' !! q); try done.
  simpl in *. apply core_less; congruence.
Qed.

Lemma slice_ok_inj here m items i j p :
  slice_ok here m items → items !! i = Some p → items !! j = Some p → i = j.
Proof.
  intros Hs (it & Hp & _ & Hi)%Hs (it' & Hp' & _ & Hj)%Hs. simplify_eq. lia.
Qed.

Lemma slice_ok_NoDup here m items : slice_ok here m items → NoDup items.
Proof. intros Hs. apply NoDup_alt. eauto using slice_ok_inj. Qed.

Lemma slice_ok_elem here m items p :
  slice_ok here m items → p ∈ items → ∃ it, m !! p = Some it ∧ it_loc it = here.
Proof. intros Hs [i Hi]%list_elem_of_lookup. destruct (Hs i p Hi) as (it & ? & ? & _). eauto. Qed.

(** A change outside the slice does not concern it. *)
Lemma slice_ok_frame here T m m' items :
  frame T m m' → (∀ p, p ∈ items → p ∉ T) → slice_ok here m items → slice_ok here m' items.
Proof.
  intros [_ Hf] HT Hs i p Hi. rewrite Hf; [by apply Hs|].
  apply HT, list_elem_of_lookup. eauto.
Qed.

Lemma set_index_Some m p it i :
  m !! p = Some it →
  set_index m p i = Some (<[p := MkItem (it_msg it) (it_order it) (it_loc it) i]> m).
Proof. intros Hp. unfold set_index. by rewrite Hp. Qed.

(** ** The laws *)

Section laws.
Context (less : item → item → bool) `{!CoreLess less} (here : location).
Context (m0 : Mem) (T : list ptr).

Definition slice_inv (s : Mem * list ptr) : Prop :=
  slice_ok here (fst s) (snd s) ∧ snd s ⊆ T ∧ frame T m0 (fst s).

Definition slice_can_push (s : Mem * list ptr) (p : ptr) : Prop :=
  p ∈ T ∧ ¬ p ∈ snd s ∧ is_Some (m0 !! p).

(** One pointer store inside the slice. *)
Lemma set_index_ok m items p i :
  slice_ok here m items → items ⊆ T → frame T m0 m → p ∈ items →
  ∃ it m', m !! p = Some it ∧ it_loc it = here ∧ set_index m p i = Some m' ∧
    frame T m0 m' ∧
    m' !! p = Some (MkItem (it_msg it) (it_order it) here i) ∧
    ∀ q, q ≠ p → m' !! q = m !! q.
Proof.
  intros Hs HT Hf Hp. destruct (slice_ok_elem _ _ _ _ Hs Hp) as (it & Hit & Hloc).
  pose proof (lookup_lt_Some _ _ _ Hit).
  eexists it, _. split_and!; [done|done|by apply set_index_Some|..].
  - eapply frame_trans; [done|]. by eapply frame_insert; [..|set_solver].
  - rewrite list_lookup_insert_eq by done. by rewrite Hloc.
  - intros q Hq. by apply list_lookup_insert_ne.
Qed.

Lemma slice_Swap_ok m items i j l :
  slice_inv (m, items) → list_swap i j items = Some l →
  ∃ m', slice_Swap (m, items) i j = Some (m', l) ∧ slice_inv (m', l).
Proof.
  intros (Hs & HT & Hf) Hsw. simpl in *. rewrite Hsw. simpl.
  pose proof (list_swap_perm _ _ _ _ Hsw) as Hperm.
  destruct (list_swap_bounds _ _ _ _ Hsw) as [Hi Hj].
  pose proof (list_swap_length _ _ _ _ Hsw) as Hlen.
  destruct (lookup_lt_is_Some_2 l i) as [a Ha]; [lia|].
  destruct (lookup_lt_is_Some_2 l j) as [b Hb]; [lia|].
  assert (NoDup l) as Hnd by (rewrite Hperm; by eapply slice_ok_NoDup).
  assert (∀ p, p ∈ l → p ∈ items) as Hsub by (intros p; by rewrite Hperm).
  assert (a ∈ l) by (eapply list_elem_of_lookup; eauto).
  assert (b ∈ l) by (eapply list_elem_of_lookup; eauto).
  destruct (set_index_ok m items a (Z.of_nat i)) as (ita & m1 & Hia & Hla & Hs1 & Hf1 & Hm1a & Hm1);
    [by auto..|].
  rewrite Ha. simpl. rewrite Hs1. simpl. rewrite Hb. simpl.
  assert (∃ itb, m1 !! b = Some itb ∧ it_loc itb = here) as (itb & Hib & Hlb).
  { destruct (decide (b = a)) as [->|]; [eauto|].
    rewrite Hm1 by done. apply (slice_ok_elem _ _ _ _ Hs). auto. }
  rewrite (set_index_Some _ _ _ _ Hib). simpl. eexists. split; [done|].
  pose proof (lookup_lt_Some _ _ _ Hib). split_and!; simpl.
  - intros k p Hk. destruct (decide (p = b)) as [->|Hpb].
    { assert (k = j) as -> by by eapply NoDup_lookup.
      rewrite list_lookup_insert_eq by done. eauto. }
    rewrite list_lookup_insert_ne by done. destruct (decide (p = a)) as [->|Hpa].
    { assert (k = i) as -> by by eapply NoDup_lookup. eauto. }
    rewrite Hm1 by done. apply Hs. rewrite <- Hk. symmetry.
    apply (list_swap_lookup_ne _ _ _ _ _ Hsw); congruence.
  - by rewrite Hperm.
  - eapply frame_trans; [done|]. eapply frame_insert; [done|done|]. set_solver.
Qed.

Lemma slice_push_ok m items p :
  slice_inv (m, items) → slice_can_push (m, items) p →
  ∃ m', slice_Push here (m, items) p = Some (m', items ++ [p]) ∧ slice_inv (m', items ++ [p]).
Proof.
  intros (Hs & HT & Hf) (HpT & Hp & [it0 Hit0]). simpl in *.
  destruct (frame_lookup _ _ _ _ _ Hf Hit0) as (it & Hit & _).
  pose proof (lookup_lt_Some _ _ _ Hit).
  rewrite Hit. simpl. eexists. split; [done|]. split_and!; simpl.
  - intros i q. rewrite lookup_app_Some. intros [Hi|[Hi Hq]].
    + rewrite list_lookup_insert_ne; [by apply Hs|]. intros ->.
      apply Hp, list_elem_of_lookup. eauto.
    + destruct (i - length items) eqn:E; simplify_eq/=.
      rewrite list_lookup_insert_eq by done. eexists. split; [done|]. simpl.
      split; [done|]. lia.
  - set_solver.
  - eapply frame_trans; [done|]. by eapply frame_insert.
Qed.

Lemma slice_pop_ok m items p :
  slice_inv (m, items ++ [p]) →
  ∃ m', slice_Pop (m, items ++ [p]) = Some (p, (m', items)) ∧ slice_inv (m', items).
Proof.
  intros (Hs & HT & Hf). unfold slice_Pop. rewrite last_snoc. simpl in *.
  pose proof (slice_ok_NoDup _ _ _ Hs) as (_ & Hnin & _)%NoDup_app.
  destruct (set_index_ok m (items ++ [p]) p (-1)) as (it & m' & _ & _ & Hset & Hf' & _ & Hne);
    [done..|set_solver|].
  rewrite Hset. simpl. rewrite length_app, Nat.add_sub, take_app_length.
  exists m'. split; [done|]. split_and!; simpl; [|set_solver|done].
  intros i q Hi. rewrite Hne; [by apply Hs, lookup_app_l_Some|].
  intros ->. apply (Hnin p); [|set_solver]. apply list_elem_of_lookup. eauto.
Qed.

#[export] Instance slice_laws :
  HeapLaws (slice_heap less here) (ptr_less less m0) slice_inv snd slice_can_push.
Proof.
  split.
  - done.
  - intros [m items] i j x y (Hs & _ & Hf) Hx Hy. simpl in *. rewrite Hx, Hy. simpl.
    destruct (Hs i x Hx) as (a & Ha & _). destruct (Hs j y Hy) as (b & Hb & _).
    rewrite Ha, Hb. simpl. rewrite <- (frame_ptr_less less _ _ _ x y Hf).
    unfold ptr_less. by rewrite Ha, Hb.
  - intros [m items] i j l Hinv Hsw. destruct (slice_Swap_ok _ _ _ _ _ Hinv Hsw) as (m' & ? & ?).
    by exists (m', l).
  - intros [m items] p Hinv Hp. destruct (slice_push_ok _ _ _ Hinv Hp) as (m' & ? & ?).
    by exists (m', items ++ [p]).
  - intros [m items] l p Hinv Hv. simpl in Hv. subst items.
    destruct (slice_pop_ok _ _ _ Hinv) as (m' & ? & ?). by exists (m', l).
Qed.
End laws.

(** ** The heap operations on a slice *)

(** A slice whose bookkeeping is right and which is heap-ordered. *)
Definition heap_slice (less : item → item → bool) (here : location) (m : Mem) (items : list ptr) : Prop :=
  slice_ok here m items ∧ ordered (ptr_less less m) items (length items).

Lemma heap_slice_nil less here m : heap_slice less here m [].
Proof. split; [intros i p Hi; inversion Hi|]. intros c Hc0 Hcn. simpl in Hcn. lia. Qed.

Section operations.
Context (less : item → item → bool) `{!CoreLess less} (here : location) (P : item → Prop).
Hypothesis wo : weak_order less P.

(** The pointers to cells the comparator orders. *)
Definition points_to (m : Mem) (p : ptr) : Prop := ∃ it, m !! p = Some it ∧ P it.

Lemma ptr_weak_order m : weak_order (ptr_less less m) (points_to m).
Proof.
  split; unfold ptr_less, le.
  - intros x y (a & Ha & HPa) (b & Hb & HPb). rewrite Ha, Hb. by apply (wo_asym _ _ wo).
  - intros x y z (a & Ha & HPa) (b & Hb & HPb) (c & Hc & HPc). rewrite Ha, Hb, Hc.
    by apply (wo_trans _ _ wo).
Qed.

Lemma heap_slice_frame T m m' items :
  frame T m m' → slice_ok here m' items → heap_slice less here m items →
  heap_slice less here m' items.
Proof.
  intros Hf Hs [_ Ho]. split; [done|]. intros c Hc0 Hcn x y Hx Hy.
  unfold le. rewrite (frame_ptr_less less _ _ _ _ _ Hf). by apply (Ho c).
Qed.

Lemma heap_ok_slice m T m' items :
  heap_ok (lt := ptr_less less m) (inv := slice_inv here m T)
    (view := snd) (m', items) →
  heap_slice less here m' items ∧ frame T m m'.
Proof.
  intros [(Hs & HT & Hf) Ho]. simpl in *. split; [|done]. split; [done|].
  intros c Hc0 Hcn x y Hx Hy. unfold le. rewrite (frame_ptr_less less _ _ _ _ _ Hf).
  by apply (Ho c).
Qed.

Lemma slice_heap_ok m T items :
  heap_slice less here m items → items ⊆ T →
  heap_ok (lt := ptr_less less m) (inv := slice_inv here m T)
    (view := snd) (m, items).
Proof. intros [Hs Ho] HT. by repeat split. Qed.

Lemma slice_Push_ok m items p :
  heap_slice less here m items → Forall (points_to m) (p :: items) → p ∉ items →
  ∃ m' items', Heap.Push (HI := slice_heap less here) (m, items) p = Some (m', items') ∧
    heap_slice less here m' items' ∧ frame (p :: items) m m' ∧ items' ≡ₚ p :: items.
Proof.
  intros Hh [Hp HF]%Forall_cons Hnin.
  destruct (heap_Push_ok (laws := slice_laws less here m (p :: items)) (points_to m)
    (ptr_weak_order m) (m, items) p) as ([m' items'] & Heq & Hok & Hperm).
  - apply slice_heap_ok; [done|set_solver].
  - split_and!; [set_solver|done|]. destruct Hp as (? & ? & _). eauto.
  - done.
  - done.
  - destruct (heap_ok_slice _ _ _ _ Hok). eauto 10.
Qed.

Lemma slice_Pop_ok m items p :
  heap_slice less here m (p :: items) → Forall (points_to m) (p :: items) →
  ∃ m' items', Heap.Pop (HI := slice_heap less here) (m, p :: items) = Some (p, (m', items')) ∧
    heap_slice less here m' items' ∧ frame (p :: items) m m' ∧ items' ≡ₚ items.
Proof.
  intros Hh HF.
  destruct (heap_Pop_ok (laws := slice_laws less here m (p :: items)) (points_to m)
    (ptr_weak_order m) (m, p :: items) p items) as ([m' items'] & Heq & Hok & Hperm).
  - by apply slice_heap_ok.
  - done.
  - done.
  - destruct (heap_ok_slice _ _ _ _ Hok). eauto 10.
Qed.

Lemma slice_Remove_ok m items i p :
  heap_slice less here m items → Forall (points_to m) items → items !! i = Some p →
  ∃ m' items', Heap.Remove (HI := slice_heap less here) (m, items) i = Some (p, (m', items')) ∧
    heap_slice less here m' items' ∧ frame items m m' ∧ items ≡ₚ p :: items'.
Proof.
  intros Hh HF Hi.
  destruct (heap_Remove_ok (laws := slice_laws less here m items) (points_to m)
    (ptr_weak_order m) (m, items) i p) as ([m' items'] & Heq & Hok & Hperm).
  - by apply slice_heap_ok.
  - done.
  - done.
  - destruct (heap_ok_slice _ _ _ _ Hok). eauto 10.
Qed.

(** The root of a heap slice is least. *)
Lemma heap_slice_root m p items q :
  heap_slice less here m (p :: items) → Forall (points_to m) (p :: items) →
  q ∈ p :: items → le (ptr_less less m) p q.
Proof.
  intros [_ Ho] HF [i Hi]%list_elem_of_lookup.
  eapply (ordered_root _ _ (ptr_weak_order m) _ _ i HF); [done|done| |done|done].
  by eapply lookup_lt_Some.
Qed.
End operations.

(** ** The comparators are weak orders *)

Lemma ready_le mode a b :
  le (ready_less mode) a b ↔
  (Priority (it_msg b) < Priority (it_msg a) ∨
   Priority (it_msg b) = Priority (it_msg a) ∧
   if bool_decide (mode = ModeLIFO)
   then Seq (it_msg b) < Seq (it_msg a) ∨
        Seq (it_msg b) = Seq (it_msg a) ∧ it_order b <= it_order a
   else Seq (it_msg a) < Seq (it_msg b) ∨
        Seq (it_msg b) = Seq (it_msg a) ∧ it_order a <= it_order b)%Z.
Proof.
  unfold le, ready_less. repeat case_bool_decide; rewrite Z.ltb_ge; lia.
Qed.

Lemma delayed_le off a b :
  coherent off (AvailableAt (it_msg a)) → coherent off (AvailableAt (it_msg b)) →
  le delayed_less a b ↔
  (t_wall (AvailableAt (it_msg a)) < t_wall (AvailableAt (it_msg b)) ∨
   t_wall (AvailableAt (it_msg a)) = t_wall (AvailableAt (it_msg b)) ∧
   it_order a <= it_order b)%Z.
Proof.
  intros Ha Hb. unfold le, delayed_less.
  rewrite (Equal_coherent off), (Before_coherent off) by done.
  destruct (Z.eqb_spec (t_wall (AvailableAt (it_msg b))) (t_wall (AvailableAt (it_msg a))));
    simpl; rewrite Z.ltb_ge; lia.
Qed.

Lemma ready_weak_order mode : weak_order (ready_less mode) (λ _, True).
Proof.
  split.
  - intros a b _ _ Hlt. rewrite ready_le. revert Hlt. unfold ready_less.
    repeat case_bool_decide; rewrite Z.ltb_lt; lia.
  - intros a b c _ _ _. rewrite !ready_le. case_bool_decide; lia.
Qed.

Lemma delayed_weak_order off :
  weak_order delayed_less (λ it, coherent off (AvailableAt (it_msg it))).
Proof.
  split.
  - intros a b Ha Hb. rewrite (delayed_le off) by done. unfold delayed_less.
    rewrite (Equal_coherent off), (Before_coherent off) by done.
    destruct (Z.eqb_spec (t_wall (AvailableAt (it_msg a))) (t_wall (AvailableAt (it_msg b))));
      simpl; rewrite Z.ltb_lt; lia.
  - intros a b c Ha Hb Hc. rewrite !(delayed_le off) by done. lia.
Qed.
