(* ===== verification/EngineSpec.v ===== *)
(** * What FrankensteinQueue promises

    The abstract queue keeps the visible messages in the order they will be
    delivered and the hidden ones in the order they will mature; each entry is
    a message with its arrival number.  Every operation on it is a line or two
    of list code.  [abs] reads the abstract queue off a concrete one and [wf]
    is the representation invariant; [EngineRefine] proves that the operations
    of [Engine] implement the ones below. *)

From S2P Require Import Prelude GoTime GoHeap GoSort GoStrconv Model Engine EngineHeap.

Abbreviation entry := (Message * Z)%type.

(** ** The two orders *)

Definition lex_lt (a b : Z * Z * Z) : bool :=
  let '(a1, a2, a3) := a in let '(b1, b2, b3) := b in
  ((a1 <? b1) || ((a1 =? b1) && ((a2 <? b2) || ((a2 =? b2) && (a3 <? b3)))))%Z.

(** Delivery: highest priority, then oldest (FIFO) or newest (LIFO). *)
Definition sel_key (mode : QueueMode) (e : entry) : Z * Z * Z :=
  let dir := if bool_decide (mode = ModeLIFO) then (-1)%Z else 1%Z in
  (- Priority (fst e), dir * Seq (fst e), dir * snd e)%Z.
Definition sel_less (mode : QueueMode) (e1 e2 : entry) : bool :=
  lex_lt (sel_key mode e1) (sel_key mode e2).

(** Maturity: earliest [AvailableAt], then earliest arrival. *)
Definition mat_key (e : entry) : Z * Z * Z := (t_wall (AvailableAt (fst e)), snd e, 0%Z).
Definition mat_less (e1 e2 : entry) : bool := lex_lt (mat_key e1) (mat_key e2).

Abbreviation by_selection mode := (insertion_sort (sel_less mode)).
Abbreviation by_maturity := (insertion_sort mat_less).

(** ** The abstract queue *)

Record AQueue := MkAQueue {
  a_mode : QueueMode;
  a_ready : list entry;     (** in delivery order *)
  a_delayed : list entry;   (** in maturity order *)
  a_next : Z
}.

Definition a_ids (a : AQueue) : list string := (λ e, ID (fst e)) <$> (a_ready a ++ a_delayed a).

Definition a_push (msg : Message) (a : AQueue) : AQueue :=
  if bool_decide (ID msg ∈ a_ids a) then a
  else MkAQueue (a_mode a) (a_ready a) (by_maturity ((msg, a_next a) :: a_delayed a)) (a_next a + 1).

Definition matured (now : Time) (e : entry) : Prop := Available (fst e) now = true.
#[export] Instance matured_dec now e : Decision (matured now e).
Proof. unfold matured. apply _. Defined.

Definition a_promote (now : Time) (a : AQueue) : AQueue :=
  MkAQueue (a_mode a)
    (by_selection (a_mode a) (a_ready a ++ filter (matured now) (a_delayed a)))
    (filter (λ e, ¬ matured now e) (a_delayed a)) (a_next a).

Definition a_pop (now : Time) (a : AQueue) : option Message * AQueue :=
  let a1 := a_promote now a in
  match a_ready a1 with
  | [] => (None, a1)
  | e :: r => (Some (fst e), MkAQueue (a_mode a1) r (a_delayed a1) (a_next a1))
  end.

Definition a_peek (now : Time) (a : AQueue) : option Message :=
  fst <$> head (a_ready (a_promote now a)).

Definition a_remove (id : string) (a : AQueue) : bool * AQueue :=
  (bool_decide (id ∈ a_ids a),
   MkAQueue (a_mode a) (filter (λ e, ID (fst e) ≠ id) (a_ready a))
     (filter (λ e, ID (fst e) ≠ id) (a_delayed a)) (a_next a)).

(** A page of at most [limit] messages, when there is a limit. *)
Definition page (limit : Z) (l : list entry) : list Message * bool :=
  if ((0 <? limit) && (limit <? Z.of_nat (length l)))%Z
  then (fst <$> take (Z.to_nat limit) l, true) else (fst <$> l, false).

Definition a_view (limit : Z) (a : AQueue) : View :=
  MkView (fst (page limit (a_ready a))) (fst (page limit (a_delayed a)))
    (snd (page limit (a_ready a))) (snd (page limit (a_delayed a)))
    (length (a_ready a)) (length (a_delayed a)).

(** ** Abstraction and invariant *)

(** The entries a slice points to. *)
Definition entries (m : Mem) (items : list ptr) : list entry :=
  omap (λ p, core <$> m !! p) items.

Definition items (q : FrankensteinQueue) : list ptr :=
  rh_items (q_ready q) ++ dh_items (q_delayed q).
Definition ready_entries (q : FrankensteinQueue) : list entry :=
  entries (q_mem q) (rh_items (q_ready q)).
Definition delayed_entries (q : FrankensteinQueue) : list entry :=
  entries (q_mem q) (dh_items (q_delayed q)).

Definition abs (q : FrankensteinQueue) : AQueue :=
  MkAQueue (Mode q) (by_selection (Mode q) (ready_entries q))
    (by_maturity (delayed_entries q)) (q_nextOrder q).

(** [live q p e]: pointer [p] is in one of the heaps and its cell holds [e]. *)
Definition live (q : FrankensteinQueue) (p : ptr) (e : entry) : Prop :=
  p ∈ items q ∧ core <$> q_mem q !! p = Some e.

(** [off] is the distance between the wall clock and the monotonic clock. *)
Record wf (off : Z) (q : FrankensteinQueue) : Prop := {
  wf_mode : Valid (Mode q) = true;
  wf_ready : heap_slice (ready_less (Mode q)) inReady (q_mem q) (rh_items (q_ready q));
  wf_delayed : heap_slice delayed_less inDelayed (q_mem q) (dh_items (q_delayed q));
  wf_byID id p : q_byID q !! id = Some p ↔ ∃ e, live q p e ∧ ID (fst e) = id;
  wf_coherent p e : live q p e → coherent off (AvailableAt (fst e));
  wf_order p e : live q p e → (0 <= snd e < q_nextOrder q)%Z;
  wf_order_inj p p' e e' : live q p e → live q p' e' → snd e = snd e' → p = p';
  wf_next : (0 <= q_nextOrder q)%Z
}.

(** ** The orders are weak orders without ties *)

Lemma lex_lt_false a b :
  lex_lt a b = false ↔
  (let '(a1, a2, a3) := a in let '(b1, b2, b3) := b in
   b1 < a1 ∨ b1 = a1 ∧ (b2 < a2 ∨ b2 = a2 ∧ b3 <= a3))%Z.
Proof. destruct a as [[]], b as [[]]. unfold lex_lt. lia. Qed.

Lemma lex_lt_weak_order {A} (key : A → Z * Z * Z) :
  weak_order (λ x y, lex_lt (key x) (key y)) (λ _, True).
Proof.
  split; unfold le.
  - intros x y _ _. destruct (key x) as [[]], (key y) as [[]]. unfold lex_lt. lia.
  - intros x y z _ _ _. destruct (key x) as [[]], (key y) as [[]], (key z) as [[]].
    unfold lex_lt. lia.
Qed.

Lemma sel_weak_order mode : weak_order (sel_less mode) (λ _, True).
Proof. apply (lex_lt_weak_order (sel_key mode)). Qed.

Lemma mat_weak_order : weak_order mat_less (λ _, True).
Proof. apply (lex_lt_weak_order mat_key). Qed.

(** Arrival numbers identify entries. *)
Definition arrivals_distinct (l : list entry) : Prop :=
  ∀ e e', e ∈ l → e' ∈ l → snd e = snd e' → e = e'.

Lemma sel_distinguishes mode l : arrivals_distinct l → distinguishes (sel_less mode) l.
Proof.
  intros Hd x y Hx Hy. unfold le, sel_less. rewrite !lex_lt_false. simpl.
  intros H1 H2. apply Hd; [done|done|]. case_bool_decide; lia.
Qed.

Lemma mat_distinguishes l : arrivals_distinct l → distinguishes mat_less l.
Proof.
  intros Hd x y Hx Hy. unfold le, mat_less. rewrite !lex_lt_false. simpl.
  intros H1 H2. apply Hd; [done|done|]. lia.
Qed.

Lemma arrivals_distinct_sub l k : k ⊆ l → arrivals_distinct l → arrivals_distinct k.
Proof. intros Hs Hd e e' He He'. apply Hd; auto. Qed.

Lemma Forall_True {A} (l : list A) : Forall (λ _, True) l.
Proof. by apply Forall_true. Qed.
#[export] Hint Resolve Forall_True : go_list.

Lemma by_selection_perm mode l k :
  arrivals_distinct l → k ≡ₚ l → by_selection mode k = by_selection mode l.
Proof.
  intros Hd. apply (insertion_sort_proper _ _ (sel_weak_order mode)); [auto with go_list|].
  by apply sel_distinguishes.
Qed.

Lemma by_maturity_perm l k :
  arrivals_distinct l → k ≡ₚ l → by_maturity k = by_maturity l.
Proof.
  intros Hd. apply (insertion_sort_proper _ _ mat_weak_order); [auto with go_list|].
  by apply mat_distinguishes.
Qed.

(** A list that is sorted already is its own sort. *)
Lemma by_selection_sorted mode l :
  arrivals_distinct l → StronglySorted (le (sel_less mode)) l → by_selection mode l = l.
Proof.
  intros Hd Hs. symmetry. apply (sort_canonical _ _ (sel_weak_order mode));
    auto using sel_distinguishes with go_list.
Qed.

Lemma by_maturity_sorted l :
  arrivals_distinct l → StronglySorted (le mat_less) l → by_maturity l = l.
Proof.
  intros Hd Hs. symmetry. apply (sort_canonical _ _ mat_weak_order);
    auto using mat_distinguishes with go_list.
Qed.

Lemma StronglySorted_filter {A} (R : A → A → Prop) (P : A → Prop) `{∀ x, Decision (P x)} l :
  StronglySorted R l → StronglySorted R (filter P l).
Proof.
  induction 1 as [|x l Hs IH Hall]; [constructor|]. rewrite filter_cons.
  case_decide; [|done]. constructor; [done|].
  rewrite Forall_forall in Hall |- *. intros y [_ Hy]%list_elem_of_filter. auto.
Qed.

(** Filtering a sorted list sorts the filtered list. *)
Lemma by_maturity_filter (P : entry → Prop) `{∀ e, Decision (P e)} l :
  arrivals_distinct l → filter P (by_maturity l) = by_maturity (filter P l).
Proof.
  intros Hd. apply (sort_canonical _ _ mat_weak_order); [auto with go_list|..].
  - apply mat_distinguishes. eapply arrivals_distinct_sub; [|done].
    intros e [_ He]%list_elem_of_filter. done.
  - by rewrite (insertion_sort_perm _ l).
  - apply StronglySorted_filter, (insertion_sort_sorted _ _ mat_weak_order). auto with go_list.
Qed.

Lemma by_selection_filter mode (P : entry → Prop) `{∀ e, Decision (P e)} l :
  arrivals_distinct l → filter P (by_selection mode l) = by_selection mode (filter P l).
Proof.
  intros Hd. apply (sort_canonical _ _ (sel_weak_order mode)); [auto with go_list|..].
  - apply sel_distinguishes. eapply arrivals_distinct_sub; [|done].
    intros e [_ He]%list_elem_of_filter. done.
  - by rewrite (insertion_sort_perm _ l).
  - apply StronglySorted_filter, (insertion_sort_sorted _ _ (sel_weak_order mode)).
    auto with go_list.
Qed.

(** ** The code's comparators are the specification's orders *)

Lemma ready_less_sel mode a b : ready_less mode a b = sel_less mode (core a) (core b).
Proof.
  unfold ready_less, sel_less, sel_key, lex_lt, core; simpl. repeat case_bool_decide; lia.
Qed.

Lemma delayed_less_mat off a b :
  coherent off (AvailableAt (it_msg a)) → coherent off (AvailableAt (it_msg b)) →
  delayed_less a b = mat_less (core a) (core b).
Proof.
  intros Ha Hb. unfold delayed_less, mat_less, mat_key, lex_lt, core; simpl.
  rewrite (Equal_coherent off), (Before_coherent off) by done.
  destruct (Z.eqb_spec (t_wall (AvailableAt (it_msg a))) (t_wall (AvailableAt (it_msg b))));
    simpl; lia.
Qed.

(** ** Entries *)

Lemma entries_frame T m m' l : frame T m m' → entries m' l = entries m l.
Proof.
  intros [Hc _]. induction l as [|p l IH]; [done|]. unfold entries in *. simpl.
  rewrite Hc. destruct (core <$> m !! p); [f_equal|]; apply IH.
Qed.

Lemma entries_app m l k : entries m (l ++ k) = entries m l ++ entries m k.
Proof. apply omap_app. Qed.

#[export] Instance entries_proper m : Proper ((≡ₚ) ==> (≡ₚ)) (entries m).
Proof. intros l k Hp. unfold entries. by rewrite Hp. Qed.

Lemma elem_of_entries m l e :
  e ∈ entries m l ↔ ∃ p, p ∈ l ∧ core <$> m !! p = Some e.
Proof. unfold entries. by rewrite list_elem_of_omap. Qed.

Lemma length_entries m l :
  (∀ p, p ∈ l → is_Some (m !! p)) → length (entries m l) = length l.
Proof.
  unfold entries. induction l as [|p l IH]; intros Hl; [done|]. simpl.
  destruct (Hl p ltac:(set_solver)) as [it ->]. simpl. f_equal. apply IH. set_solver.
Qed.
