(* ===== verification/EngineRefine.v ===== *)
(** * FrankensteinQueue implements its specification

    Every operation of [Engine] preserves the representation invariant [wf],
    does not panic, and acts on the abstract queue exactly as the operation of
    [EngineSpec] of the same name. *)

From S2P Require Import Prelude GoTime GoHeap GoSort GoStrconv Model Engine EngineHeap EngineSpec.

(** ** Consequences of the invariant *)

Lemma live_ready q p e :
  p ∈ rh_items (q_ready q) → core <$> q_mem q !! p = Some e → live q p e.
Proof. unfold live, items. set_solver. Qed.

Lemma live_delayed q p e :
  p ∈ dh_items (q_delayed q) → core <$> q_mem q !! p = Some e → live q p e.
Proof. unfold live, items. set_solver. Qed.

Lemma live_entry q e : (∃ p, live q p e) ↔ e ∈ ready_entries q ++ delayed_entries q.
Proof.
  unfold ready_entries, delayed_entries. rewrite <- entries_app, elem_of_entries. done.
Qed.

Lemma slices_disjoint m r d p :
  slice_ok inReady m r → slice_ok inDelayed m d → p ∈ r → p ∈ d → False.
Proof.
  intros Hr Hd Hpr Hpd.
  destruct (slice_ok_elem _ _ _ _ Hr Hpr) as (it & Hit & Hl).
  destruct (slice_ok_elem _ _ _ _ Hd Hpd) as (it' & Hit' & Hl'). congruence.
Qed.

Section wf.
Context (off : Z) (q : FrankensteinQueue) (Hwf : wf off q).

Lemma wf_disjoint p : p ∈ rh_items (q_ready q) → p ∈ dh_items (q_delayed q) → False.
Proof.
  destruct (wf_ready _ _ Hwf) as [Hr _]. destruct (wf_delayed _ _ Hwf) as [Hd _].
  by eapply slices_disjoint.
Qed.

Lemma wf_NoDup : NoDup (items q).
Proof.
  destruct (wf_ready _ _ Hwf) as [Hr _]. destruct (wf_delayed _ _ Hwf) as [Hd _].
  apply NoDup_app. split_and!; [by eapply slice_ok_NoDup|exact wf_disjoint|by eapply slice_ok_NoDup].
Qed.

Lemma wf_cell p : p ∈ items q → ∃ it, q_mem q !! p = Some it ∧ live q p (core it).
Proof.
  intros Hp. assert (∃ it, q_mem q !! p = Some it) as [it Hit].
  { destruct (wf_ready _ _ Hwf) as [Hr _]. destruct (wf_delayed _ _ Hwf) as [Hd _].
    unfold items in Hp. apply elem_of_app in Hp as [Hp|Hp].
    - destruct (slice_ok_elem _ _ _ _ Hr Hp) as (it & ? & _). eauto.
    - destruct (slice_ok_elem _ _ _ _ Hd Hp) as (it & ? & _). eauto. }
  exists it. split; [done|]. split; [done|]. by rewrite Hit.
Qed.

Lemma wf_ready_points :
  Forall (points_to (λ _, True) (q_mem q)) (rh_items (q_ready q)).
Proof.
  apply Forall_forall. intros p Hp.
  destruct (wf_cell p) as (it & Hit & _); [unfold items; set_solver|]. by exists it.
Qed.

Lemma wf_delayed_points :
  Forall (points_to (λ it, coherent off (AvailableAt (it_msg it))) (q_mem q))
    (dh_items (q_delayed q)).
Proof.
  apply Forall_forall. intros p Hp.
  destruct (wf_cell p) as (it & Hit & Hl); [unfold items; set_solver|].
  exists it. split; [done|]. by apply (wf_coherent _ _ Hwf) in Hl.
Qed.

Lemma wf_live_det p e e' : live q p e → live q p e' → e = e'.
Proof. intros [_ He] [_ He']. congruence. Qed.

Lemma wf_entries_inj e e' : (∃ p, live q p e) → (∃ p, live q p e') → snd e = snd e' → e = e'.
Proof.
  intros [p Hp] [p' Hp'] He. assert (p = p') as -> by by eapply (wf_order_inj _ _ Hwf).
  by eapply wf_live_det.
Qed.

Lemma wf_arrivals : arrivals_distinct (ready_entries q ++ delayed_entries q).
Proof. intros e e' He%live_entry He'%live_entry. by apply wf_entries_inj. Qed.

Lemma wf_arrivals_ready : arrivals_distinct (ready_entries q).
Proof. eapply arrivals_distinct_sub; [|apply wf_arrivals]. set_solver. Qed.

Lemma wf_arrivals_delayed : arrivals_distinct (delayed_entries q).
Proof. eapply arrivals_distinct_sub; [|apply wf_arrivals]. set_solver. Qed.

(** An ID present twice is the same pointer. *)
Lemma wf_ID_inj p p' e e' :
  live q p e → live q p' e' → ID (fst e) = ID (fst e') → p = p'.
Proof.
  intros Hp Hp' HID. assert (q_byID q !! ID (fst e) = Some p) as H1.
  { apply (wf_byID _ _ Hwf). eauto. }
  assert (q_byID q !! ID (fst e) = Some p') as H2.
  { apply (wf_byID _ _ Hwf). eauto. }
  congruence.
Qed.
End wf.

(** ** Transferring the invariant *)

Lemma live_frame T q q' p e :
  frame T (q_mem q) (q_mem q') → items q' ≡ₚ items q → live q' p e ↔ live q p e.
Proof. intros [Hc _] Hp. unfold live. by rewrite Hp, Hc. Qed.

Lemma wf_transfer off T q q' :
  wf off q → frame T (q_mem q) (q_mem q') → items q' ≡ₚ items q →
  Mode q' = Mode q → q_byID q' = q_byID q → q_nextOrder q' = q_nextOrder q →
  heap_slice (ready_less (Mode q')) inReady (q_mem q') (rh_items (q_ready q')) →
  heap_slice delayed_less inDelayed (q_mem q') (dh_items (q_delayed q')) →
  wf off q'.
Proof.
  intros [] Hf Hp HM Hb Hn Hr Hd.
  assert (∀ p e, live q' p e ↔ live q p e) as Hl by (intros; by eapply live_frame).
  split; rewrite ?HM, ?Hb, ?Hn; try done.
  - by rewrite <- HM.
  - setoid_rewrite Hl. done.
  - intros p e. rewrite Hl. eauto.
  - intros p e. rewrite Hl. eauto.
  - intros p p' e e'. rewrite !Hl. eauto.
Qed.

(** The other heap is untouched by an operation on one of them. *)
Lemma other_heap less `{!CoreLess less} here T m m' l :
  heap_slice less here m l → frame T m m' → (∀ p, p ∈ l → p ∉ T) →
  heap_slice less here m' l.
Proof.
  intros Hh Hf HT. eapply heap_slice_frame; [done..| |done].
  eapply slice_ok_frame; [done|done|]. apply Hh.
Qed.

(** ** One round of [promoteLocked] *)

Lemma promote_step off q top rest :
  wf off q → dh_items (q_delayed q) = top :: rest →
  ∃ q1 q2, delayed_Pop q = Some (top, q1) ∧ ready_Push q1 top = Some q2 ∧
    wf off q2 ∧ frame (items q) (q_mem q) (q_mem q2) ∧
    rh_items (q_ready q2) ≡ₚ top :: rh_items (q_ready q) ∧
    dh_items (q_delayed q2) ≡ₚ rest ∧
    Mode q2 = Mode q ∧ q_byID q2 = q_byID q ∧ q_nextOrder q2 = q_nextOrder q.
Proof.
  intros Hwf Hd. pose proof (wf_delayed_points _ _ Hwf) as HPd.
  pose proof (wf_ready_points _ _ Hwf) as HPr. pose proof (wf_disjoint _ _ Hwf) as Hdisj.
  pose proof (wf_NoDup _ _ Hwf) as Hnd. unfold items in Hnd.
  pose proof (wf_delayed _ _ Hwf) as Hhd. pose proof (wf_ready _ _ Hwf) as Hhr.
  rewrite Hd in *.
  destruct (slice_Pop_ok delayed_less inDelayed _ (delayed_weak_order off) (q_mem q) rest top)
    as (m1 & d1 & Hpop & Hhd1 & Hf1 & Hp1); [done..|].
  assert (heap_slice (ready_less (Mode q)) inReady m1 (rh_items (q_ready q))) as Hhr1.
  { eapply other_heap; [apply _|done|done|]. naive_solver. }
  destruct (slice_Push_ok (ready_less (Mode q)) inReady _ (ready_weak_order (Mode q)) m1
    (rh_items (q_ready q)) top) as (m2 & r2 & Hpush & Hhr2 & Hf2 & Hp2); [done|..].
  { constructor.
    - apply Forall_cons_1 in HPd as [(it & Hit & _) _].
      destruct (frame_lookup _ _ _ _ _ Hf1 Hit) as (it' & ? & _). by exists it'.
    - eapply Forall_impl; [done|]. intros p (it & Hit & _).
      destruct (frame_lookup _ _ _ _ _ Hf1 Hit) as (it' & ? & _). by exists it'. }
  { intros Htop. by apply (Hdisj top); [|left]. }
  exists (with_delayed q (m1, d1)), (with_ready (with_delayed q (m1, d1)) (m2, r2)).
  assert (frame (items q) (q_mem q) m2) as Hf.
  { unfold items. rewrite Hd. eapply frame_trans; (eapply frame_mono; [|done]); set_solver. }
  unfold delayed_Pop, ready_Push, delayed_state, ready_state. rewrite Hd.
  unfold delayed_iface, ready_iface. rewrite Hpop. simpl.
  change (Mode (with_delayed q (m1, d1))) with (Mode q). rewrite Hpush. simpl.
  split_and!; try done. eapply wf_transfer; [done|simpl; exact Hf|..]; try done; simpl.
  - unfold items. simpl. rewrite Hp2, Hp1, Hd. simpl. by rewrite Permutation_middle.
  - eapply other_heap; [apply _|done|done|]. intros p. rewrite Hp1.
    apply NoDup_app in Hnd as (_ & Hnd & [Hnin _]%NoDup_cons). set_solver.
Qed.

(** ** [promoteLocked] *)

(** No entry is mature when the root of the delayed heap is not. *)
Lemma root_not_matured off q now top rest it :
  wf off q → coherent off now → dh_items (q_delayed q) = top :: rest →
  q_mem q !! top = Some it → Available (it_msg it) now = false →
  filter (matured now) (delayed_entries q) = [].
Proof.
  intros Hwf Hnow Hd Hit Hna. apply filter_none.
  intros e (p & Hp & He)%elem_of_entries Hm. unfold matured in Hm.
  pose proof (wf_delayed_points _ _ Hwf) as HPd.
  assert (live q p e) as Hlp by by apply live_delayed.
  assert (live q top (core it)) as Hlt.
  { apply live_delayed; [rewrite Hd; set_solver|by rewrite Hit]. }
  apply (wf_coherent _ _ Hwf) in Hlp, Hlt.
  assert (le (ptr_less delayed_less (q_mem q)) top p) as Hle.
  { rewrite Hd in HPd, Hp. pose proof (wf_delayed _ _ Hwf) as Hh. rewrite Hd in Hh.
    by eapply (heap_slice_root _ _ _ (delayed_weak_order off)). }
  unfold le, ptr_less in Hle. rewrite Hit in Hle.
  destruct (q_mem q !! p) as [itp|]; simplify_eq/=.
  apply (delayed_le off) in Hle; [|done|done].
  rewrite (Available_coherent off) in Hna, Hm by done. simpl in *. lia.
Qed.

Lemma promote_loop_ok off fuel q now :
  wf off q → coherent off now → length (dh_items (q_delayed q)) < fuel →
  ∃ q', promote_loop fuel q now = Some q' ∧ wf off q' ∧
    ready_entries q' ≡ₚ ready_entries q ++ filter (matured now) (delayed_entries q) ∧
    delayed_entries q' ≡ₚ filter (λ e, ¬ matured now e) (delayed_entries q) ∧
    frame (items q) (q_mem q) (q_mem q') ∧ items q' ≡ₚ items q ∧
    Mode q' = Mode q ∧ q_byID q' = q_byID q ∧ q_nextOrder q' = q_nextOrder q.
Proof.
  revert q. induction fuel as [|fuel IH]; intros q Hwf Hnow Hlen; [lia|].
  cbn [promote_loop]. destruct (dh_items (q_delayed q)) as [|top rest] eqn:Hd.
  { exists q. unfold delayed_entries, entries. rewrite Hd. simpl. by rewrite app_nil_r. }
  destruct (wf_cell _ _ Hwf top) as (it & Hit & Hl); [unfold items; rewrite Hd; set_solver|].
  rewrite Hit. cbn [mbind option_bind].
  destruct (Available (it_msg it) now) eqn:Hav; cbn [negb].
  2: { exists q. pose proof (root_not_matured _ _ _ _ _ _ Hwf Hnow Hd Hit Hav) as Hnil.
    rewrite Hnil, (filter_nil_complement _ _ Hnil), app_nil_r. done. }
  destruct (promote_step _ _ _ _ Hwf Hd)
    as (q1 & q2 & -> & Hpush & Hwf2 & Hf & Hr & Hdd & HM & Hb & Hn).
  cbn [mbind option_bind]. rewrite Hpush. cbn [mbind option_bind].
  assert (items q2 ≡ₚ items q) as Hitems.
  { unfold items. rewrite Hr, Hdd, Hd. simpl. by rewrite Permutation_middle. }
  destruct (IH q2) as (q' & -> & Hwf' & Hr' & Hd' & Hf' & Hi' & HM' & Hb' & Hn');
    [done|done|rewrite (Permutation_length Hdd); simpl in Hlen; lia|].
  assert (ready_entries q2 ≡ₚ core it :: ready_entries q) as Hre.
  { unfold ready_entries. rewrite (entries_frame _ _ _ _ Hf), Hr.
    unfold entries. simpl. by rewrite Hit. }
  assert (delayed_entries q ≡ₚ core it :: delayed_entries q2) as Hde.
  { unfold delayed_entries. rewrite (entries_frame _ _ _ _ Hf), Hdd, Hd.
    unfold entries. simpl. by rewrite Hit. }
  exists q'. split_and!; [done|done|..].
  - rewrite Hr', Hre, Hde, filter_cons, decide_True by done. simpl.
    by rewrite Permutation_middle.
  - rewrite Hd', Hde, filter_cons, decide_False; [done|]. intros Hc. by apply Hc.
  - eapply frame_trans; [done|]. eapply frame_mono; [|done]. intros p. by rewrite Hitems.
  - by rewrite Hi'.
  - by rewrite HM'.
  - by rewrite Hb'.
  - by rewrite Hn'.
Qed.

Lemma promoteLocked_ok off q now :
  wf off q → coherent off now →
  ∃ q', promoteLocked q now = Some q' ∧ wf off q' ∧ abs q' = a_promote now (abs q) ∧
    items q' ≡ₚ items q ∧ frame (items q) (q_mem q) (q_mem q') ∧ q_byID q' = q_byID q.
Proof.
  intros Hwf Hnow.
  destruct (promote_loop_ok off (S (length (dh_items (q_delayed q)))) q now)
    as (q' & Heq & Hwf' & Hr & Hd & Hf & Hi & HM & Hb & Hn); [done|done|lia|].
  exists q'. split_and!; try done. unfold abs, a_promote. simpl. rewrite HM, Hn.
  pose proof (wf_arrivals_ready _ _ Hwf') as Hdr.
  pose proof (wf_arrivals_delayed _ _ Hwf) as Hdd. f_equal.
  - symmetry. apply by_selection_perm; [done|].
    by rewrite Hr, !insertion_sort_perm.
  - rewrite by_maturity_filter by done. apply by_maturity_perm; [|done].
    eapply arrivals_distinct_sub; [|done]. intros e [_ He]%list_elem_of_filter. done.
Qed.

(** ** Removing an item *)

Lemma wf_delete off T q q' p e :
  wf off q → live q p e → frame T (q_mem q) (q_mem q') → items q ≡ₚ p :: items q' →
  Mode q' = Mode q → q_byID q' = delete (ID (fst e)) (q_byID q) →
  q_nextOrder q' = q_nextOrder q →
  heap_slice (ready_less (Mode q')) inReady (q_mem q') (rh_items (q_ready q')) →
  heap_slice delayed_less inDelayed (q_mem q') (dh_items (q_delayed q')) →
  wf off q'.
Proof.
  intros Hwf Hp Hf Hi HM Hb Hn Hr Hd.
  assert (∀ k x, live q' k x ↔ live q k x ∧ k ≠ p) as Hl.
  { intros k x. pose proof (wf_NoDup _ _ Hwf) as Hnd. rewrite Hi in Hnd.
    apply NoDup_cons in Hnd as [Hnin _]. destruct Hf as [Hc _].
    unfold live. rewrite Hc, Hi. set_solver. }
  split; rewrite ?HM, ?Hn; try done.
  - apply Hwf.
  - by rewrite <- HM.
  - intros id k. rewrite Hb, lookup_delete. setoid_rewrite Hl. case_decide as Hid.
    + split; [done|]. intros (x & [Hx Hkp] & Hxid). destruct Hkp.
      eapply wf_ID_inj; [done|exact Hx|exact Hp|congruence].
    + rewrite (wf_byID _ _ Hwf). split.
      * intros (x & Hx & Hxid). exists x. split; [split; [done|]|done].
        intros ->. apply Hid. rewrite <- Hxid. f_equal. f_equal. by eapply wf_live_det.
      * intros (x & [Hx _] & Hxid). eauto.
  - intros k x [Hx _]%Hl. by eapply wf_coherent.
  - intros k x [Hx _]%Hl. by eapply wf_order.
  - intros k k' x x' [Hx _]%Hl [Hx' _]%Hl. by eapply wf_order_inj.
  - apply Hwf.
Qed.

(** The head of the delivery order is the root of the ready heap. *)
Lemma by_selection_root mode e l :
  arrivals_distinct (e :: l) → (∀ x, x ∈ l → le (sel_less mode) e x) →
  by_selection mode (e :: l) = e :: by_selection mode l.
Proof.
  intros Hd Hle. symmetry. apply (sort_canonical _ _ (sel_weak_order mode)).
  - auto with go_list.
  - by apply sel_distinguishes.
  - by rewrite insertion_sort_perm.
  - constructor.
    + apply (insertion_sort_sorted _ _ (sel_weak_order mode)). auto with go_list.
    + apply Forall_forall. intros x. rewrite insertion_sort_perm. apply Hle.
Qed.

Lemma ready_root off q p rest it :
  wf off q → rh_items (q_ready q) = p :: rest → q_mem q !! p = Some it →
  ready_entries q = core it :: entries (q_mem q) rest ∧
  by_selection (Mode q) (ready_entries q) =
    core it :: by_selection (Mode q) (entries (q_mem q) rest).
Proof.
  intros Hwf Hr Hit. pose proof (wf_ready _ _ Hwf) as Hh. pose proof (wf_ready_points _ _ Hwf) as HP.
  assert (ready_entries q = core it :: entries (q_mem q) rest) as He.
  { unfold ready_entries, entries. rewrite Hr. simpl. by rewrite Hit. }
  split; [done|]. rewrite He. apply by_selection_root.
  - rewrite <- He. by eapply wf_arrivals_ready.
  - intros x (k & Hk & Hx)%elem_of_entries. rewrite Hr in *.
    assert (le (ptr_less (ready_less (Mode q)) (q_mem q)) p k) as Hle.
    { eapply (heap_slice_root _ _ _ (ready_weak_order (Mode q))); [done|done|by right]. }
    unfold le, ptr_less in *. rewrite Hit in Hle. destruct (q_mem q !! k) as [itk|]; [|done].
    rewrite ready_less_sel in Hle. simpl in Hx. by simplify_eq.
Qed.

(** The head of the maturity order is the root of the delayed heap. *)
Lemma delayed_root off q p rest it :
  wf off q → dh_items (q_delayed q) = p :: rest → q_mem q !! p = Some it →
  head (by_maturity (delayed_entries q)) = Some (core it).
Proof.
  intros Hwf Hr Hit. pose proof (wf_delayed _ _ Hwf) as Hh. pose proof (wf_delayed_points _ _ Hwf) as HP.
  pose proof (wf_arrivals_delayed _ _ Hwf) as Hd.
  assert (delayed_entries q = core it :: entries (q_mem q) rest) as He.
  { unfold delayed_entries, entries. rewrite Hr. simpl. by rewrite Hit. }
  assert (by_maturity (delayed_entries q) = core it :: by_maturity (entries (q_mem q) rest)) as ->; [|done].
  rewrite He in *. symmetry. apply (sort_canonical _ _ mat_weak_order).
  - auto with go_list.
  - by apply mat_distinguishes.
  - by rewrite insertion_sort_perm.
  - constructor; [apply (insertion_sort_sorted _ _ mat_weak_order); auto with go_list|].
    apply Forall_forall. intros x. rewrite insertion_sort_perm. intros (k & Hk & Hx)%elem_of_entries.
    assert (live q p (core it)) as Hlp.
    { apply live_delayed; [rewrite Hr; by left|by rewrite Hit]. }
    assert (live q k x) as Hlk by (apply live_delayed; [rewrite Hr; by right|done]).
    apply (wf_coherent _ _ Hwf) in Hlp, Hlk. rewrite Hr in *.
    assert (le (ptr_less delayed_less (q_mem q)) p k) as Hle.
    { eapply (heap_slice_root _ _ _ (delayed_weak_order off)); [done|done|by right]. }
    unfold le, ptr_less in *. rewrite Hit in Hle. destruct (q_mem q !! k) as [itk|]; [|done].
    simplify_eq/=. by rewrite <- (delayed_less_mat off).
Qed.

(** Taking the root off the ready heap. *)
Lemma ready_Pop_ok off q p rest it :
  wf off q → rh_items (q_ready q) = p :: rest → q_mem q !! p = Some it →
  ∃ q2, ready_Pop q = Some (p, q2) ∧
    wf off (with_byID q2 (delete (ID (it_msg it)) (q_byID q2))) ∧
    core <$> q_mem q2 !! p = Some (core it) ∧
    ready_entries q2 ≡ₚ entries (q_mem q) rest ∧ delayed_entries q2 = delayed_entries q ∧
    Mode q2 = Mode q ∧ q_byID q2 = q_byID q ∧ q_nextOrder q2 = q_nextOrder q.
Proof.
  intros Hwf Hr Hit. pose proof (wf_ready_points _ _ Hwf) as HP. pose proof (wf_ready _ _ Hwf) as Hh.
  assert (live q p (core it)) as Hl by (apply live_ready; [rewrite Hr; set_solver|by rewrite Hit]).
  rewrite Hr in *.
  destruct (slice_Pop_ok (ready_less (Mode q)) inReady _ (ready_weak_order (Mode q)) (q_mem q)
    rest p) as (m1 & r1 & Hpop & Hh1 & Hf1 & Hp1); [done..|].
  exists (with_ready q (m1, r1)). unfold ready_Pop, ready_state, ready_iface.
  rewrite Hr, Hpop. cbn [mbind option_bind]. split_and!; try done.
  - eapply wf_delete; [done|exact Hl|exact Hf1|..]; try done.
    + unfold items. simpl. by rewrite Hr, Hp1.
    + simpl. eapply other_heap; [apply _|by eapply wf_delayed|done|].
      intros k Hk Hkr. eapply (wf_disjoint _ _ Hwf); [by rewrite Hr|done].
  - destruct Hf1 as [Hc _]. simpl. by rewrite Hc, Hit.
  - unfold ready_entries. simpl. by rewrite (entries_frame _ _ _ _ Hf1), Hp1.
  - unfold delayed_entries. simpl. by rewrite (entries_frame _ _ _ _ Hf1).
Qed.

(** ** The operations *)

Lemma New_ok off mode :
  Valid mode = true →
  ∃ q, NewFrankensteinQueue mode = Ok q ∧ wf off q ∧ abs q = MkAQueue mode [] [] 0.
Proof.
  intros Hm. unfold NewFrankensteinQueue. rewrite Hm. eexists. split; [done|]. split; [|done].
  assert (∀ p e, live (MkQueue [] (MkReadyHeap mode []) (MkDelayedHeap []) ∅ 0) p e → False)
    as Hl by (intros p e [Hp _]; inversion Hp).
  split; simpl; try apply heap_slice_nil; try done.
  - intros id p. rewrite lookup_empty. naive_solver.
  - naive_solver.
  - naive_solver.
  - naive_solver.
Qed.

Lemma promoted_mode now a : a_mode (a_promote now a) = a_mode a.
Proof. done. Qed.

Lemma Pop_ok off q now :
  wf off q → coherent off now →
  ∃ r q', Pop q now = Some (r, q') ∧ wf off q' ∧ a_pop now (abs q) = (r, abs q').
Proof.
  intros Hwf Hnow. destruct (promoteLocked_ok off q now Hwf Hnow)
    as (q1 & Hpr & Hwf1 & Habs & _). unfold Pop. rewrite Hpr. cbn [mbind option_bind].
  unfold a_pop. rewrite <- Habs. destruct (rh_items (q_ready q1)) as [|p rest] eqn:Hr.
  { exists None, q1. split_and!; [done|done|]. unfold abs at 1. simpl.
    unfold ready_entries, entries. by rewrite Hr. }
  cbn [length bool_decide]. rewrite bool_decide_false by done.
  destruct (wf_cell _ _ Hwf1 p) as (it & Hit & _); [unfold items; rewrite Hr; set_solver|].
  destruct (ready_Pop_ok _ _ _ _ _ Hwf1 Hr Hit)
    as (q2 & -> & Hwf2 & Hp2 & Hr2 & Hd2 & HM & Hb & Hn). cbn [mbind option_bind].
  destruct (q_mem q2 !! p) as [it2|] eqn:Hit2; [|done]. cbn [mbind option_bind].
  assert (it_msg it2 = it_msg it) as Hmsg.
  { simpl in Hp2. unfold core in Hp2. congruence. }
  rewrite Hmsg. eexists _, _. split_and!; [done|done|].
  destruct (ready_root _ _ _ _ _ Hwf1 Hr Hit) as [He Hs]. unfold abs at 1. cbn [a_ready].
  rewrite Hs. cbn [fst]. f_equal.
  unfold abs; cbn. change (Mode (with_byID ?q _)) with (Mode q).
  change (ready_entries (with_byID ?q _)) with (ready_entries q).
  change (delayed_entries (with_byID ?q _)) with (delayed_entries q).
  rewrite HM, Hn, Hd2. f_equal. symmetry. apply by_selection_perm; [|done].
  apply (arrivals_distinct_sub (ready_entries q1)); [rewrite He; set_solver|].
  by eapply wf_arrivals_ready.
Qed.

Lemma Peek_ok off q now :
  wf off q → coherent off now →
  ∃ q', Peek q now = Some (a_peek now (abs q), q') ∧ wf off q' ∧ abs q' = a_promote now (abs q).
Proof.
  intros Hwf Hnow. destruct (promoteLocked_ok off q now Hwf Hnow)
    as (q1 & Hpr & Hwf1 & Habs & _). unfold Peek. rewrite Hpr. cbn [mbind option_bind].
  unfold a_peek. rewrite <- Habs. exists q1.
  destruct (rh_items (q_ready q1)) as [|p rest] eqn:Hr.
  { split_and!; [|done..]. simpl. unfold ready_entries, entries. by rewrite Hr. }
  cbn [length]. rewrite bool_decide_false by done. simpl.
  destruct (wf_cell _ _ Hwf1 p) as (it & Hit & _); [unfold items; rewrite Hr; set_solver|].
  destruct (ready_root _ _ _ _ _ Hwf1 Hr Hit) as [_ Hs].
  rewrite Hit. simpl. rewrite Hs. done.
Qed.

Lemma length_ready_entries off q :
  wf off q → length (ready_entries q) = length (rh_items (q_ready q)).
Proof.
  intros Hwf. apply length_entries. intros p Hp.
  destruct (wf_cell _ _ Hwf p) as (it & -> & _); [unfold items; set_solver|done].
Qed.

Lemma length_delayed_entries off q :
  wf off q → length (delayed_entries q) = length (dh_items (q_delayed q)).
Proof.
  intros Hwf. apply length_entries. intros p Hp.
  destruct (wf_cell _ _ Hwf p) as (it & -> & _); [unfold items; set_solver|done].
Qed.

Lemma length_isort {A} (lt : A → A → bool) l : length (insertion_sort lt l) = length l.
Proof. apply Permutation_length, insertion_sort_perm. Qed.

Lemma AvailableLen_ok off q now :
  wf off q → coherent off now →
  ∃ q', AvailableLen q now = Some (length (a_ready (a_promote now (abs q))), q') ∧
    wf off q' ∧ abs q' = a_promote now (abs q).
Proof.
  intros Hwf Hnow. destruct (promoteLocked_ok off q now Hwf Hnow)
    as (q1 & Hpr & Hwf1 & Habs & _). unfold AvailableLen. rewrite Hpr. cbn [mbind option_bind].
  exists q1. rewrite <- Habs. split_and!; [|done..]. simpl.
  by rewrite length_isort, (length_ready_entries _ _ Hwf1).
Qed.

(** ** [Push] *)

Lemma lookup_alloc (m : Mem) x p it :
  m !! p = Some it → (m ++ [x]) !! p = Some it ∧ p ≠ length m.
Proof.
  intros Hp. pose proof (lookup_lt_Some _ _ _ Hp). split; [by apply lookup_app_l_Some|lia].
Qed.

(** Allocation does not concern the existing heaps. *)
Lemma heap_slice_alloc less here m x l :
  heap_slice less here m l → heap_slice less here (m ++ [x]) l.
Proof.
  intros [Hs Ho].
  assert (∀ p, p ∈ l → (m ++ [x]) !! p = m !! p) as Hsame.
  { intros p Hp. destruct (slice_ok_elem _ _ _ _ Hs Hp) as (it & Hit & _).
    rewrite Hit. by apply lookup_alloc. }
  assert (∀ i p, l !! i = Some p → (m ++ [x]) !! p = m !! p) as Hsame'.
  { intros i p Hi. apply Hsame, list_elem_of_lookup. eauto. }
  split.
  - intros i p Hi. rewrite (Hsame' _ _ Hi). by apply Hs.
  - intros c Hc0 Hcn a b Ha Hb. unfold le, ptr_less.
    rewrite (Hsame' _ _ Ha), (Hsame' _ _ Hb). by apply (Ho c).
Qed.

(** The cell [Push] allocates, before it enters the delayed heap. *)
Definition alloc_item (q : FrankensteinQueue) (msg : Message) : FrankensteinQueue :=
  MkQueue (q_mem q ++ [MkItem msg (q_nextOrder q) inDelayed 0])
    (q_ready q) (q_delayed q) (q_byID q) (wrap_u64 (q_nextOrder q + 1)).

Lemma alloc_delayed_Push off q msg :
  wf off q → coherent off (AvailableAt msg) →
  ∃ m d, delayed_Push (alloc_item q msg) (length (q_mem q)) =
      Some (with_delayed (alloc_item q msg) (m, d)) ∧
    heap_slice delayed_less inDelayed m d ∧
    heap_slice (ready_less (Mode q)) inReady m (rh_items (q_ready q)) ∧
    d ≡ₚ length (q_mem q) :: dh_items (q_delayed q) ∧
    (∀ p, core <$> m !! p = core <$> q_mem (alloc_item q msg) !! p).
Proof.
  intros Hwf Hcoh. set (new := MkItem msg (q_nextOrder q) inDelayed 0).
  pose proof (heap_slice_alloc _ _ _ new _ (wf_ready _ _ Hwf)) as Hr.
  pose proof (heap_slice_alloc _ _ _ new _ (wf_delayed _ _ Hwf)) as Hd.
  assert (∀ p, p ∈ items q → p ≠ length (q_mem q)) as Hfresh.
  { intros p Hp. destruct (wf_cell _ _ Hwf p Hp) as (it & Hit & _).
    by apply (lookup_alloc _ new) in Hit as [_ ?]. }
  destruct (slice_Push_ok delayed_less inDelayed _ (delayed_weak_order off) (q_mem q ++ [new])
    (dh_items (q_delayed q)) (length (q_mem q))) as (m & d & Hpush & Hh & Hf & Hp); [done|..].
  - constructor.
    + exists new. split; [|done]. by rewrite lookup_app_r, Nat.sub_diag by lia.
    + eapply Forall_impl; [by apply wf_delayed_points|]. intros p (it & Hit & ?).
      exists it. split; [|done]. by apply lookup_alloc.
  - intros Hin. apply (Hfresh (length (q_mem q))); [unfold items; set_solver|done].
  - exists m, d. unfold delayed_Push, delayed_state, delayed_iface. simpl. fold new.
    rewrite Hpush. simpl. split_and!; [done|done| |done|apply Hf].
    eapply other_heap; [apply _|done|done|]. intros p Hpr [->|Hpd]%elem_of_cons.
    + eapply Hfresh; [|done]. unfold items. set_solver.
    + by eapply (wf_disjoint _ _ Hwf).
Qed.

Lemma Push_new_live q msg m d p e :
  (∀ p, p ∈ items q → is_Some (q_mem q !! p)) →
  d ≡ₚ length (q_mem q) :: dh_items (q_delayed q) →
  (∀ p, core <$> m !! p = core <$> q_mem (alloc_item q msg) !! p) →
  live (with_byID (with_delayed (alloc_item q msg) (m, d))
    (<[ID msg := length (q_mem q)]> (q_byID q))) p e ↔
  live q p e ∨ p = length (q_mem q) ∧ e = (msg, q_nextOrder q).
Proof.
  intros Hc Hd Hm. unfold live, items at 1. simpl. rewrite Hd, Hm. simpl.
  set (new := MkItem msg (q_nextOrder q) inDelayed 0).
  assert (core <$> (q_mem q ++ [new]) !! length (q_mem q) = Some (msg, q_nextOrder q)) as Hnew
    by (by rewrite lookup_app_r, Nat.sub_diag by lia).
  assert (∀ k, k ∈ items q → (q_mem q ++ [new]) !! k = q_mem q !! k ∧ k ≠ length (q_mem q)) as Hold.
  { intros k Hk. destruct (Hc k Hk) as [it Hit]. rewrite Hit. by apply lookup_alloc. }
  split.
  - intros [Hp He]. destruct (decide (p = length (q_mem q))) as [->|Hne].
    + right. split; [done|]. rewrite Hnew in He. by simplify_eq.
    + left. assert (p ∈ items q) as Hpi by (unfold items; set_solver).
      split; [done|]. by rewrite <- (proj1 (Hold p Hpi)).
  - intros [[Hp He]|[-> ->]]; [|split; [set_solver|done]].
    split; [unfold items in Hp; set_solver|]. by rewrite (proj1 (Hold p Hp)).
Qed.

Lemma entries_alloc m m' x l :
  (∀ p, p ∈ l → is_Some (m !! p)) →
  (∀ p, core <$> m' !! p = core <$> (m ++ [x]) !! p) → entries m' l = entries m l.
Proof.
  intros Hl Hc. apply list_omap_ext, Forall2_same_length_lookup_2; [done|].
  intros i p p' Hi Hi'. simplify_eq. rewrite Hc.
  destruct (Hl p) as [it Hit]; [apply list_elem_of_lookup; eauto|].
  by rewrite Hit, (proj1 (lookup_alloc _ x _ _ Hit)).
Qed.

Lemma Push_new_ok off q msg :
  wf off q → coherent off (AvailableAt msg) → (q_nextOrder q + 1 < 2 ^ 64)%Z →
  q_byID q !! ID msg = None →
  ∃ q', Push q msg = Some q' ∧ wf off q' ∧ Mode q' = Mode q ∧
    ready_entries q' = ready_entries q ∧
    delayed_entries q' ≡ₚ (msg, q_nextOrder q) :: delayed_entries q ∧
    q_nextOrder q' = (q_nextOrder q + 1)%Z ∧
    q_byID q' = <[ID msg := length (q_mem q)]> (q_byID q).
Proof.
  intros Hwf Hcoh Hord Hnew. unfold Push. rewrite Hnew. fold (alloc_item q msg).
  destruct (alloc_delayed_Push _ _ _ Hwf Hcoh) as (m & d & -> & Hh & Hr & Hp & Hc).
  cbn [mbind option_bind]. eexists. split; [done|].
  pose proof (wf_next _ _ Hwf) as Hn0.
  assert (wrap_u64 (q_nextOrder q + 1) = q_nextOrder q + 1)%Z as Hw
    by (apply wrap_u64_small; unfold in_u64; lia).
  assert (∀ p, p ∈ items q → is_Some (q_mem q !! p)) as Hcell.
  { intros p Hpi. destruct (wf_cell _ _ Hwf p Hpi) as (it & -> & _). done. }
  pose proof (λ p e, Push_new_live q msg m d p e Hcell Hp Hc) as Hl.
  assert (∀ e, ¬ live q (length (q_mem q)) e) as Hfresh.
  { intros e [Hpi _]. destruct (Hcell _ Hpi) as [it Hit%lookup_lt_Some]. lia. }
  split_and!; [split|..]; try done.
  - apply Hwf.
  - intros id p. simpl. setoid_rewrite Hl. rewrite lookup_insert. case_decide as Hid.
    + split; [intros; simplify_eq; eauto|]. intros (e & [Hlp|[-> _]] & He); [|done].
      assert (q_byID q !! ID msg = Some p); [|congruence].
      apply (wf_byID _ _ Hwf). rewrite Hid. eauto.
    + rewrite (wf_byID _ _ Hwf). split; [naive_solver|].
      intros (e & [Hlp|[_ ->]] & He); [eauto|done].
  - intros p e [Hlp|[_ ->]]%Hl; [by eapply wf_coherent|done].
  - simpl. rewrite Hw. intros p e [Hlp|[_ ->]]%Hl; [|simpl; lia].
    pose proof (wf_order _ _ Hwf _ _ Hlp). lia.
  - intros p p' e e' [Hlp|[-> ->]]%Hl [Hlp'|[-> ->]]%Hl; simpl; intros He.
    + by eapply (wf_order_inj _ _ Hwf).
    + pose proof (wf_order _ _ Hwf _ _ Hlp). lia.
    + pose proof (wf_order _ _ Hwf _ _ Hlp'). lia.
    + done.
  - simpl. lia.
  - unfold ready_entries. simpl. eapply entries_alloc; [|exact Hc].
    intros p Hpr. apply Hcell. unfold items. set_solver.
  - unfold delayed_entries. simpl. rewrite Hp.
    assert (entries m (length (q_mem q) :: dh_items (q_delayed q)) =
      (msg, q_nextOrder q) :: entries m (dh_items (q_delayed q))) as ->.
    { unfold entries. simpl. rewrite Hc. simpl. by rewrite lookup_app_r, Nat.sub_diag by lia. }
    rewrite (entries_alloc (q_mem q) m (MkItem msg (q_nextOrder q) inDelayed 0));
      [done| |exact Hc].
    intros p Hpr. apply Hcell. unfold items. set_solver.
Qed.

(** The ID index and the abstract queue hold the same IDs. *)
Lemma elem_of_a_ids off q id :
  wf off q → id ∈ a_ids (abs q) ↔ ∃ p, q_byID q !! id = Some p.
Proof.
  intros Hwf. unfold a_ids. rewrite list_elem_of_fmap. simpl.
  setoid_rewrite elem_of_app. setoid_rewrite (insertion_sort_perm _ _).
  setoid_rewrite <- elem_of_app. setoid_rewrite <- live_entry.
  setoid_rewrite (wf_byID _ _ Hwf). naive_solver.
Qed.

Lemma Push_ok off q msg :
  wf off q → coherent off (AvailableAt msg) → (q_nextOrder q + 1 < 2 ^ 64)%Z →
  ∃ q', Push q msg = Some q' ∧ wf off q' ∧ abs q' = a_push msg (abs q).
Proof.
  intros Hwf Hcoh Hord. unfold a_push. case_bool_decide as Hid.
  - apply (elem_of_a_ids _ _ _ Hwf) in Hid as [p Hp]. unfold Push. rewrite Hp. eauto.
  - rewrite (elem_of_a_ids _ _ _ Hwf) in Hid.
    destruct (q_byID q !! ID msg) as [p|] eqn:Hp; [naive_solver|].
    destruct (Push_new_ok _ _ _ Hwf Hcoh Hord Hp) as (q' & -> & Hwf' & HM & Hr & Hd & Hn & _).
    exists q'. split_and!; [done|done|].
    assert (by_maturity (delayed_entries q') =
      by_maturity ((msg, q_nextOrder q) :: by_maturity (delayed_entries q))) as Hdd.
    { symmetry. apply by_maturity_perm; [by eapply wf_arrivals_delayed|].
      by rewrite Hd, (insertion_sort_perm _ (delayed_entries q)). }
    unfold abs at 1. by rewrite HM, Hr, Hn, Hdd.
Qed.

(** ** [Len] *)

Lemma byID_items off q : wf off q → (map_to_list (q_byID q)).*2 ≡ₚ items q.
Proof.
  intros Hwf. apply NoDup_Permutation.
  - apply NoDup_fmap_2_strong; [|apply NoDup_map_to_list].
    intros [i p] [j p'] Hi%elem_of_map_to_list Hj%elem_of_map_to_list; simpl. intros ->.
    apply (wf_byID _ _ Hwf) in Hi as (e & He & <-). apply (wf_byID _ _ Hwf) in Hj as (e' & He' & <-).
    by rewrite (wf_live_det _ _ _ _ He He').
  - by eapply wf_NoDup.
  - intros p. rewrite list_elem_of_fmap. split.
    + intros ([i k] & -> & (e & [Hk _] & _)%elem_of_map_to_list%(wf_byID _ _ Hwf)). done.
    + intros Hp. destruct (wf_cell _ _ Hwf p Hp) as (it & _ & Hl).
      exists (ID (it_msg it), p). split; [done|]. apply elem_of_map_to_list, (wf_byID _ _ Hwf). eauto.
Qed.

Lemma Len_ok off q :
  wf off q → Len q = length (a_ready (abs q)) + length (a_delayed (abs q)).
Proof.
  intros Hwf. unfold Len. rewrite <- length_map_to_list, <- (length_fmap snd).
  rewrite (Permutation_length (byID_items _ _ Hwf)). unfold items. rewrite length_app. simpl.
  by rewrite !length_isort, (length_ready_entries _ _ Hwf), (length_delayed_entries _ _ Hwf).
Qed.

(** ** [Remove] *)

(** Dropping the entries with the ID of a live pointer drops that entry. *)
Lemma filter_ID off q p e l rest :
  wf off q → live q p e → l ≡ₚ p :: rest → NoDup l → l ⊆ items q →
  filter (λ x, ID (fst x) ≠ ID (fst e)) (entries (q_mem q) l) ≡ₚ entries (q_mem q) rest.
Proof.
  intros Hwf Hl Hp Hnd Hsub. rewrite Hp. rewrite Hp in Hnd.
  apply NoDup_cons in Hnd as [Hnin _]. pose proof Hl as [_ He].
  unfold entries at 1. simpl. rewrite He. simpl.
  rewrite filter_cons_False by (intros Hc; by apply Hc).
  rewrite filter_id; [done|]. intros x (k & Hk & Hx)%elem_of_entries Hid.
  assert (k = p) as ->; [|done].
  eapply (wf_ID_inj _ _ Hwf); [|done|done]. split; [|done].
  apply Hsub. rewrite Hp. set_solver.
Qed.

Lemma filter_ID_other off q p e l :
  wf off q → live q p e → p ∉ l → l ⊆ items q →
  filter (λ x, ID (fst x) ≠ ID (fst e)) (entries (q_mem q) l) = entries (q_mem q) l.
Proof.
  intros Hwf Hl Hnin Hsub. apply filter_id. intros x (k & Hk & Hx)%elem_of_entries Hid.
  apply Hnin. assert (k = p) as <-; [|done].
  eapply (wf_ID_inj _ _ Hwf); [|done|done]. split; [by apply Hsub|done].
Qed.

Lemma Remove_ready_ok off q p e i :
  wf off q → live q p e → rh_items (q_ready q) !! i = Some p →
  ∃ q', ready_Remove (with_byID q (delete (ID (fst e)) (q_byID q))) i = Some (p, q') ∧
    wf off q' ∧ abs q' = snd (a_remove (ID (fst e)) (abs q)).
Proof.
  intros Hwf Hl Hi. pose proof (wf_ready _ _ Hwf) as Hh. pose proof (wf_NoDup _ _ Hwf) as Hnd.
  apply NoDup_app in Hnd as (Hndr & _ & _).
  destruct (slice_Remove_ok (ready_less (Mode q)) inReady _ (ready_weak_order (Mode q)) (q_mem q)
    (rh_items (q_ready q)) i p) as (m & r & Hrem & Hh' & Hf & Hp);
    [done|by eapply wf_ready_points|done|].
  set (q1 := with_byID q (delete (ID (fst e)) (q_byID q))). exists (with_ready q1 (m, r)).
  unfold ready_Remove, ready_state, ready_iface. simpl.
  change (Mode q1) with (Mode q). rewrite Hrem. simpl. split; [done|].
  assert (p ∈ rh_items (q_ready q)) as Hpr by (apply list_elem_of_lookup; eauto).
  assert (wf off (with_ready q1 (m, r))) as Hwf'.
  { eapply wf_delete; [done|exact Hl|exact Hf|..]; try done; simpl.
    - unfold items. simpl. by rewrite Hp.
    - eapply other_heap; [apply _|by eapply wf_delayed|done|].
      intros k Hkd Hkr. by eapply (wf_disjoint _ _ Hwf). }
  split; [done|]. unfold abs, a_remove. simpl. change (Mode (with_ready q1 (m, r))) with (Mode q).
  f_equal.
  - rewrite by_selection_filter by by eapply wf_arrivals_ready.
    symmetry. apply by_selection_perm; [by eapply wf_arrivals_ready|].
    unfold ready_entries at 2. simpl. rewrite (entries_frame _ _ _ _ Hf).
    eapply filter_ID; [done|done|done|done|unfold items; set_solver].
  - rewrite by_maturity_filter by by eapply wf_arrivals_delayed. f_equal.
    unfold delayed_entries. simpl. rewrite (entries_frame _ _ _ _ Hf). symmetry.
    eapply filter_ID_other; [done|done| |unfold items; set_solver].
    intros Hpd. by eapply (wf_disjoint _ _ Hwf).
Qed.

Lemma Remove_delayed_ok off q p e i :
  wf off q → live q p e → dh_items (q_delayed q) !! i = Some p →
  ∃ q', delayed_Remove (with_byID q (delete (ID (fst e)) (q_byID q))) i = Some (p, q') ∧
    wf off q' ∧ abs q' = snd (a_remove (ID (fst e)) (abs q)).
Proof.
  intros Hwf Hl Hi. pose proof (wf_delayed _ _ Hwf) as Hh. pose proof (wf_NoDup _ _ Hwf) as Hnd.
  apply NoDup_app in Hnd as (_ & _ & Hndd).
  destruct (slice_Remove_ok delayed_less inDelayed _ (delayed_weak_order off) (q_mem q)
    (dh_items (q_delayed q)) i p) as (m & d & Hrem & Hh' & Hf & Hp);
    [done|by eapply wf_delayed_points|done|].
  set (q1 := with_byID q (delete (ID (fst e)) (q_byID q))). exists (with_delayed q1 (m, d)).
  unfold delayed_Remove, delayed_state, delayed_iface. simpl. rewrite Hrem. simpl. split; [done|].
  assert (p ∈ dh_items (q_delayed q)) as Hpd by (apply list_elem_of_lookup; eauto).
  assert (wf off (with_delayed q1 (m, d))) as Hwf'.
  { eapply wf_delete; [done|exact Hl|exact Hf|..]; try done; simpl.
    - unfold items. simpl. by rewrite Hp, Permutation_middle.
    - eapply other_heap; [apply _|exact (wf_ready _ _ Hwf)|done|].
      intros k Hkr Hkd. by eapply (wf_disjoint _ _ Hwf). }
  split; [done|]. unfold abs, a_remove. simpl. change (Mode (with_delayed q1 (m, d))) with (Mode q).
  f_equal.
  - rewrite by_selection_filter by by eapply wf_arrivals_ready. f_equal.
    unfold ready_entries. simpl. rewrite (entries_frame _ _ _ _ Hf). symmetry.
    eapply filter_ID_other; [done|done| |unfold items; set_solver].
    intros Hpr. by eapply (wf_disjoint _ _ Hwf).
  - rewrite by_maturity_filter by by eapply wf_arrivals_delayed.
    symmetry. apply by_maturity_perm; [by eapply wf_arrivals_delayed|].
    unfold delayed_entries at 2. simpl. rewrite (entries_frame _ _ _ _ Hf).
    eapply filter_ID; [done|done|done|done|unfold items; set_solver].
Qed.

Lemma as_index_of_nat i : as_index (Z.of_nat i) = Some i.
Proof. unfold as_index. destruct (Z.ltb_spec (Z.of_nat i) 0); [lia|]. by rewrite Nat2Z.id. Qed.

Lemma Remove_ok off q id :
  wf off q →
  ∃ q', Remove q id = Some (fst (a_remove id (abs q)), q') ∧ wf off q' ∧
    abs q' = snd (a_remove id (abs q)).
Proof.
  intros Hwf. unfold Remove. unfold a_remove at 1. cbn [fst].
  case_bool_decide as Hid; rewrite (elem_of_a_ids _ _ _ Hwf) in Hid.
  - destruct Hid as [p Hp]. rewrite Hp. apply (wf_byID _ _ Hwf) in Hp as (e & Hl & <-).
    pose proof Hl as [Hitems He]. cbn zeta. cbn [q_mem with_byID].
    destruct (wf_ready _ _ Hwf) as [Hr _]. destruct (wf_delayed _ _ Hwf) as [Hd _].
    unfold items in Hitems. apply elem_of_app in Hitems as [[i Hi]%list_elem_of_lookup|[i Hi]%list_elem_of_lookup].
    + destruct (Hr _ _ Hi) as (it & -> & Hloc & Hix). cbn [mbind option_bind].
      rewrite Hix, as_index_of_nat, Hloc. cbn [mbind option_bind].
      destruct (Remove_ready_ok _ _ _ _ _ Hwf Hl Hi) as (q' & -> & Hwf' & Habs). simpl. eauto.
    + destruct (Hd _ _ Hi) as (it & -> & Hloc & Hix). cbn [mbind option_bind].
      rewrite Hix, as_index_of_nat, Hloc. cbn [mbind option_bind].
      destruct (Remove_delayed_ok _ _ _ _ _ Hwf Hl Hi) as (q' & -> & Hwf' & Habs). simpl. eauto.
  - destruct (q_byID q !! id) as [p|] eqn:Hp; [naive_solver|].
    exists q. split_and!; [done|done|]. unfold a_remove, abs; simpl.
    assert (∀ l, l ⊆ ready_entries q ++ delayed_entries q →
      filter (λ x, ID (fst x) ≠ id) l = l) as Hid'.
    { intros l Hsub. apply filter_id. intros x Hx%Hsub%live_entry Heq.
      destruct Hx as [k Hk]. rewrite <- Heq in Hp.
      assert (q_byID q !! ID (fst x) = Some k); [|congruence]. apply (wf_byID _ _ Hwf). eauto. }
    rewrite !Hid'; [done|..]; intros x; rewrite (insertion_sort_perm _ _); set_solver.
Qed.

(** ** [Snapshot] *)

Lemma mapM_cells m l :
  (∀ p, p ∈ l → is_Some (m !! p)) →
  ∃ its, mapM (λ p, m !! p) l = Some its ∧ core <$> its = entries m l.
Proof.
  induction l as [|p l IH]; intros Hl; [by exists []|].
  destruct (Hl p) as [it Hit]; [set_solver|]. destruct IH as (its & Hm & He); [set_solver|].
  exists (it :: its). split.
  - simpl. by rewrite Hit, Hm.
  - unfold entries in *. csimpl. rewrite Hit. csimpl. by rewrite He.
Qed.

Lemma insertion_sort_fmap {A B} (f : A → B) ltA ltB (l : list A) :
  (∀ x y, x ∈ l → y ∈ l → ltA x y = ltB (f x) (f y)) →
  f <$> insertion_sort ltA l = insertion_sort ltB (f <$> l).
Proof.
  intros Hext. rewrite (insertion_sort_ext ltA (λ x y, ltB (f x) (f y))) by done.
  clear Hext. unfold insertion_sort. change (@nil B) with (f <$> @nil A).
  generalize (@nil A) as acc. induction l as [|x l IH]; intros acc; simpl; [done|].
  rewrite IH. f_equal. clear. induction acc as [|y acc IH]; simpl; [done|].
  destruct (ltB (f x) (f y)); [done|]. csimpl. by rewrite IH.
Qed.

(** A comparator [cmp] built from an asymmetric [less] sorts by [less]. *)
Lemma less_cmp_neg (less : item → item → bool) a b : (less_cmp less a b <? 0)%Z = less a b.
Proof. unfold less_cmp. destruct (less a b); [done|]. by destruct (less b a). Qed.

Lemma orderedMessages_ok m l less spec limit :
  (∀ p, p ∈ l → is_Some (m !! p)) →
  (∀ p p' a b, p ∈ l → p' ∈ l → m !! p = Some a → m !! p' = Some b →
    less a b = spec (core a) (core b)) →
  orderedMessages m l less limit = Some (page limit (insertion_sort spec (entries m l))).
Proof.
  intros Hl Hless. unfold orderedMessages. case_bool_decide as Hlen.
  { destruct l; [|done]. unfold page. simpl. destruct limit; done. }
  destruct (mapM_cells m l Hl) as (its & Hm & He). rewrite Hm. cbn [mbind option_bind].
  assert (core <$> SortFunc (less_cmp less) its = insertion_sort spec (entries m l)) as Hs.
  { rewrite <- He. apply insertion_sort_fmap. intros a b Ha Hb. rewrite less_cmp_neg.
    apply mapM_Some in Hm. rewrite Forall2_lookup in Hm.
    apply list_elem_of_lookup in Ha as [i Hi], Hb as [j Hj].
    pose proof (Hm i) as Hmi. pose proof (Hm j) as Hmj. rewrite Hi in Hmi. rewrite Hj in Hmj.
    inversion Hmi as [p ? Hp Hli|]; inversion Hmj as [p' ? Hp' Hlj|]; subst.
    eapply Hless; [..|exact Hp|exact Hp']; apply list_elem_of_lookup; eauto. }
  assert (∀ k : list item, it_msg <$> k = fst <$> (core <$> k)) as Hmsg
    by (intros k; by rewrite <- list_fmap_compose).
  unfold page. rewrite <- Hs, length_fmap.
  destruct ((0 <? limit)%Z && _); rewrite Hmsg; [|done].
  by rewrite fmap_take.
Qed.

Lemma Snapshot_ok off q now limit :
  wf off q → coherent off now →
  ∃ q', Snapshot q now limit = Some (a_view limit (a_promote now (abs q)), q') ∧
    wf off q' ∧ abs q' = a_promote now (abs q).
Proof.
  intros Hwf Hnow. destruct (promoteLocked_ok off q now Hwf Hnow)
    as (q1 & Hpr & Hwf1 & Habs & _). unfold Snapshot. rewrite Hpr. cbn [mbind option_bind].
  rewrite (orderedMessages_ok _ _ (ready_less (Mode q1)) (sel_less (Mode q1))); cycle 1.
  { intros p Hp. destruct (wf_cell _ _ Hwf1 p) as (it & -> & _); [unfold items; set_solver|done]. }
  { intros. apply ready_less_sel. }
  rewrite (orderedMessages_ok _ _ delayed_less mat_less); cycle 1.
  { intros p Hp. destruct (wf_cell _ _ Hwf1 p) as (it & -> & _); [unfold items; set_solver|done]. }
  { intros p p' a b Hp Hp' Ha Hb. apply (delayed_less_mat off).
    - apply (wf_coherent _ _ Hwf1 p (core a)), live_delayed; [done|by rewrite Ha].
    - apply (wf_coherent _ _ Hwf1 p' (core b)), live_delayed; [done|by rewrite Hb]. }
  fold (ready_entries q1) (delayed_entries q1).
  exists q1. rewrite <- Habs. split_and!; [|done..]. unfold a_view. simpl.
  rewrite <- (length_ready_entries _ _ Hwf1), <- (length_delayed_entries _ _ Hwf1).
  rewrite !length_isort.
  by destruct (page limit (by_selection _ _)), (page limit (by_maturity _)).
Qed.
