(* ===== verification/EngineTheorems.v ===== *)
(** * Theorems about FrankensteinQueue

    The consequences of the refinement in [EngineRefine] that a user of the
    queue relies on: every sequence of calls behaves like the abstract queue
    and never panics; [Pop] takes exactly the message the selection rule
    names; nothing is delivered early while the clock does not go back;
    [Snapshot] lists what draining the queue would return. *)

From S2P Require Import Prelude GoTime GoHeap GoSort GoStrconv Model.
From S2P Require Import Engine EngineHeap EngineSpec EngineRefine.

(** ** Sequences of calls

    The engine's mutex makes each method atomic, so every interleaving of
    concurrent callers is a sequence of calls. *)

Inductive op :=
  | OPush (msg : Message)
  | OPop (now : Time)
  | OPeek (now : Time)
  | OLen
  | OAvailableLen (now : Time)
  | ORemove (id : string)
  | OSnapshot (now : Time) (limit : Z).

Inductive out :=
  | RUnit
  | RMsg (m : option Message)
  | RNat (n : nat)
  | RBool (b : bool)
  | RView (v : View).

Definition exec (o : op) (q : FrankensteinQueue) : option (out * FrankensteinQueue) :=
  match o with
  | OPush msg => q' ← Push q msg; Some (RUnit, q')
  | OPop now => '(r, q') ← Pop q now; Some (RMsg r, q')
  | OPeek now => '(r, q') ← Peek q now; Some (RMsg r, q')
  | OLen => Some (RNat (Len q), q)
  | OAvailableLen now => '(n, q') ← AvailableLen q now; Some (RNat n, q')
  | ORemove id => '(b, q') ← Remove q id; Some (RBool b, q')
  | OSnapshot now limit => '(v, q') ← Snapshot q now limit; Some (RView v, q')
  end.

Fixpoint run (ops : list op) (q : FrankensteinQueue) : option (list out * FrankensteinQueue) :=
  match ops with
  | [] => Some ([], q)
  | o :: ops =>
      '(r, q1) ← exec o q;
      '(rs, q2) ← run ops q1;
      Some (r :: rs, q2)
  end.

(** The same calls on the abstract queue. *)
Definition a_exec (o : op) (a : AQueue) : out * AQueue :=
  match o with
  | OPush msg => (RUnit, a_push msg a)
  | OPop now => let '(r, a') := a_pop now a in (RMsg r, a')
  | OPeek now => (RMsg (a_peek now a), a_promote now a)
  | OLen => (RNat (length (a_ready a) + length (a_delayed a)), a)
  | OAvailableLen now => (RNat (length (a_ready (a_promote now a))), a_promote now a)
  | ORemove id => let '(b, a') := a_remove id a in (RBool b, a')
  | OSnapshot now limit => (RView (a_view limit (a_promote now a)), a_promote now a)
  end.

Fixpoint a_run (ops : list op) (a : AQueue) : list out * AQueue :=
  match ops with
  | [] => ([], a)
  | o :: ops =>
      let '(r, a1) := a_exec o a in
      let '(rs, a2) := a_run ops a1 in (r :: rs, a2)
  end.

(** The instants a call mentions come from one clock. *)
Definition op_coherent (off : Z) (o : op) : Prop :=
  match o with
  | OPush msg => coherent off (AvailableAt msg)
  | OPop now | OPeek now | OAvailableLen now | OSnapshot now _ => coherent off now
  | OLen | ORemove _ => True
  end.
#[export] Instance op_coherent_dec off o : Decision (op_coherent off o).
Proof. destruct o; simpl; apply _. Defined.

Lemma exec_ok off o q :
  wf off q → op_coherent off o → (q_nextOrder q + 1 < 2 ^ 64)%Z →
  ∃ r q', exec o q = Some (r, q') ∧ wf off q' ∧ a_exec o (abs q) = (r, abs q').
Proof.
  intros Hwf Ho Hn. destruct o as [msg|now|now| |now|id|now limit]; cbn [exec a_exec op_coherent] in *.
  - destruct (Push_ok off q msg) as (q' & -> & Hwf' & <-); [done..|]. simpl. eauto.
  - destruct (Pop_ok off q now) as (r & q' & -> & Hwf' & ->); [done..|]. simpl. eauto.
  - destruct (Peek_ok off q now) as (q' & -> & Hwf' & <-); [done..|]. simpl. eauto.
  - rewrite (Len_ok off) by done. eauto.
  - destruct (AvailableLen_ok off q now) as (q' & -> & Hwf' & <-); [done..|]. simpl. eauto.
  - destruct (Remove_ok off q id) as (q' & -> & Hwf' & Habs); [done..|].
    rewrite (surjective_pairing (a_remove id (abs q))), <- Habs. simpl. eauto.
  - destruct (Snapshot_ok off q now limit) as (q' & -> & Hwf' & <-); [done..|]. simpl. eauto.
Qed.

Lemma a_exec_next o a : (a_next (snd (a_exec o a)) <= a_next a + 1)%Z.
Proof.
  destruct o; simpl; try lia.
  - unfold a_push. case_bool_decide; simpl; lia.
  - unfold a_pop. destruct (a_ready (a_promote now a)); simpl; lia.
Qed.

Lemma run_ok off ops q :
  wf off q → Forall (op_coherent off) ops →
  (q_nextOrder q + Z.of_nat (length ops) < 2 ^ 64)%Z →
  ∃ rs q', run ops q = Some (rs, q') ∧ wf off q' ∧ a_run ops (abs q) = (rs, abs q').
Proof.
  revert q. induction ops as [|o ops IH]; intros q Hwf Hops Hn; [by eexists _, _|].
  apply Forall_cons in Hops as [Ho Hops]. cbn [length] in Hn.
  destruct (exec_ok off o q) as (r & q1 & He & Hwf1 & Ha1); [done|done|lia|].
  pose proof (a_exec_next o (abs q)) as Hnext. rewrite Ha1 in Hnext. simpl in Hnext.
  destruct (IH q1) as (rs & q2 & Hr & Hwf2 & Ha2); [done|done|lia|].
  exists (r :: rs), q2. simpl. by rewrite He, Ha1; simpl; rewrite Hr, Ha2.
Qed.

(** ** What the queue contains *)

Definition contents (q : FrankensteinQueue) : list entry := ready_entries q ++ delayed_entries q.

(** Visible to a call at [now]: promoted already, or due. *)
Definition eligible (q : FrankensteinQueue) (now : Time) (e : entry) : Prop :=
  e ∈ ready_entries q ∨ e ∈ delayed_entries q ∧ Available (fst e) now = true.

Lemma abs_contents q : a_ready (abs q) ++ a_delayed (abs q) ≡ₚ contents q.
Proof. unfold abs, contents; simpl. by rewrite !insertion_sort_perm. Qed.

Lemma elem_a_promote q now e :
  e ∈ a_ready (a_promote now (abs q)) ↔ eligible q now e.
Proof.
  unfold a_promote, eligible. simpl.
  rewrite insertion_sort_perm, elem_of_app, list_elem_of_filter, !insertion_sort_perm.
  unfold matured. naive_solver.
Qed.

Lemma a_promote_perm now a :
  a_ready (a_promote now a) ++ a_delayed (a_promote now a) ≡ₚ a_ready a ++ a_delayed a.
Proof.
  simpl. rewrite insertion_sort_perm, <- app_assoc.
  by rewrite (filter_app_complement (matured now)).
Qed.

(** The first of a sorted list precedes the others. *)
Lemma by_selection_head mode l e r :
  arrivals_distinct l → by_selection mode l = e :: r →
  ∀ e', e' ∈ l → e' = e ∨ sel_less mode e e' = true.
Proof.
  intros Hd Hs e' He'. pose proof (insertion_sort_perm (sel_less mode) l) as Hp.
  pose proof (insertion_sort_sorted _ _ (sel_weak_order mode) l (Forall_True _)) as Hsort.
  rewrite Hs in Hp, Hsort. inversion Hsort as [|? ? _ Hall]; subst.
  rewrite <- Hp in He'.
  apply elem_of_cons in He' as [->|He']; [by left|].
  rewrite Forall_forall in Hall. specialize (Hall _ He'). unfold le in Hall.
  destruct (sel_less mode e e') eqn:Hlt; [by right|left].
  apply (sel_distinguishes mode l Hd); [by rewrite <- Hp; right|by rewrite <- Hp; left|done|done].
Qed.

Lemma abs_arrivals off q now :
  wf off q → arrivals_distinct (a_ready (a_promote now (abs q)) ++ a_delayed (a_promote now (abs q))).
Proof.
  intros Hwf. eapply arrivals_distinct_sub; [|by eapply wf_arrivals].
  intros e. by rewrite a_promote_perm, abs_contents.
Qed.

Lemma promoted_selection off q now :
  wf off q →
  by_selection (Mode q) (a_ready (a_promote now (abs q))) = a_ready (a_promote now (abs q)).
Proof.
  intros Hwf. apply by_selection_sorted.
  - eapply arrivals_distinct_sub; [|by eapply (abs_arrivals off q now)]. set_solver.
  - apply (insertion_sort_sorted _ _ (sel_weak_order _)). auto with go_list.
Qed.

(** [Pop] in terms of the contents of the queue. *)
Lemma Pop_selects off q now :
  wf off q → coherent off now →
  ∃ r q', Pop q now = Some (r, q') ∧ wf off q' ∧
    match r with
    | None => (∀ e, ¬ eligible q now e) ∧ contents q' ≡ₚ contents q
    | Some m => ∃ e, fst e = m ∧ eligible q now e ∧
        (∀ e', eligible q now e' → e' = e ∨ sel_less (Mode q) e e' = true) ∧
        contents q ≡ₚ e :: contents q'
    end.
Proof.
  intros Hwf Hnow. destruct (Pop_ok off q now Hwf Hnow) as (r & q' & Hpop & Hwf' & Ha).
  exists r, q'. split_and!; [done|done|]. unfold a_pop in Ha.
  pose proof (a_promote_perm now (abs q)) as Hperm. rewrite abs_contents in Hperm.
  pose proof (promoted_selection off q now Hwf) as Hsel.
  pose proof (abs_arrivals off q now Hwf) as Hd.
  pose proof (elem_a_promote q now) as Hel. pose proof (abs_contents q') as Hc.
  destruct (a_ready (a_promote now (abs q))) as [|e l] eqn:Hr;
    apply pair_equal_spec in Ha as [<- Habs]; rewrite <- Habs in Hc.
  - split; [intros e He%Hel; inversion He|]. rewrite <- Hc, <- Hperm. simpl in Hr |- *. by rewrite Hr.
  - exists e. split_and!; [done|apply Hel; by left|..].
    + intros e' He'%Hel. eapply by_selection_head; [|exact Hsel|done].
      eapply arrivals_distinct_sub; [|exact Hd]. set_solver.
    + by rewrite <- Hperm, <- Hc.
Qed.

(** ** Draining *)

(** [Pop] until it finds nothing. *)
Fixpoint drain (fuel : nat) (q : FrankensteinQueue) (now : Time) :
    option (list Message * FrankensteinQueue) :=
  match fuel with
  | O => None
  | S fuel =>
      '(r, q1) ← Pop q now;
      match r with
      | None => Some ([], q1)
      | Some m => '(ms, q2) ← drain fuel q1 now; Some (m :: ms, q2)
      end
  end.

Lemma a_promote_again now mode l d n :
  by_selection mode l = l → filter (matured now) d = [] →
  a_promote now (MkAQueue mode l d n) = MkAQueue mode l d n.
Proof.
  intros Hl Hd. unfold a_promote. simpl. rewrite Hd, app_nil_r, Hl.
  by rewrite filter_nil_complement.
Qed.

Lemma filter_filter_not {A} (P : A → Prop) `{∀ x, Decision (P x)} (l : list A) :
  filter P (filter (λ x, ¬ P x) l) = [].
Proof. apply filter_none. intros x [Hx _]%list_elem_of_filter. done. Qed.

(** Draining yields the delivery order, whole. *)
Lemma drain_promoted off fuel q now :
  wf off q → coherent off now → length (a_ready (a_promote now (abs q))) < fuel →
  ∃ q', drain fuel q now = Some (fst <$> a_ready (a_promote now (abs q)), q') ∧ wf off q' ∧
    a_ready (abs q') = [] ∧ a_delayed (abs q') = a_delayed (a_promote now (abs q)).
Proof.
  revert q. induction fuel as [|fuel IH]; intros q Hwf Hnow Hlen; [lia|]. cbn [drain].
  destruct (Pop_ok off q now Hwf Hnow) as (r & q1 & -> & Hwf1 & Ha). cbn [mbind option_bind].
  pose proof (promoted_selection off q now Hwf) as Hsel. unfold a_pop in Ha.
  destruct (a_ready (a_promote now (abs q))) as [|e l] eqn:Hr;
    apply pair_equal_spec in Ha as [<- Habs].
  { exists q1. by rewrite <- Habs. }
  assert (a_promote now (abs q1) = abs q1) as Hagain.
  { rewrite <- Habs. apply a_promote_again; [|apply filter_filter_not].
    apply by_selection_sorted.
    - eapply arrivals_distinct_sub; [|by eapply (abs_arrivals off q now)].
      rewrite Hr. set_solver.
    - pose proof (insertion_sort_sorted _ _ (sel_weak_order (Mode q)) (e :: l) (Forall_True _)) as Hs.
      rewrite Hsel in Hs. by inversion Hs. }
  assert (a_ready (abs q1) = l) as Hl by (by rewrite <- Habs).
  destruct (IH q1) as (q' & -> & Hwf' & He & Hd); [done|done|rewrite Hagain, Hl; simpl in Hlen; lia|].
  exists q'. rewrite Hagain, Hl. split_and!; [done|done|done|].
  by rewrite Hd, Hagain, <- Habs.
Qed.

(** ** Clocks that run forward *)

Definition op_time (o : op) : option Time :=
  match o with
  | OPop now | OPeek now | OAvailableLen now | OSnapshot now _ => Some now
  | OPush _ | OLen | ORemove _ => None
  end.

(** The engine's time contract: the instants of successive calls do not go
    back. *)
Fixpoint forward (last : Time) (ops : list op) : Prop :=
  match ops with
  | [] => True
  | o :: ops =>
      match op_time o with
      | Some now => Before now last = false ∧ forward now ops
      | None => forward last ops
      end
  end.

(** Everything promoted so far is due at wall time [w]. *)
Definition due_by (w : Z) (a : AQueue) : Prop :=
  ∀ e, e ∈ a_ready a → (t_wall (AvailableAt (fst e)) <= w)%Z.

Lemma due_by_promote off q now w :
  wf off q → coherent off now → (w <= t_wall now)%Z →
  due_by w (abs q) → due_by (t_wall now) (a_promote now (abs q)).
Proof.
  intros Hwf Hnow Hw Hdue e [He|[He Hav]]%elem_a_promote.
  - transitivity w; [|done]. apply Hdue. simpl. by rewrite insertion_sort_perm.
  - rewrite (Available_coherent off) in Hav; [lia| |done].
    assert (∃ p, live q p e) as [p Hp] by (apply live_entry; set_solver).
    by eapply wf_coherent.
Qed.

Lemma due_by_exec off o q w r a' :
  wf off q → op_coherent off o → due_by w (abs q) →
  (∀ now, op_time o = Some now → (w <= t_wall now)%Z) →
  a_exec o (abs q) = (r, a') →
  due_by (default w (t_wall <$> op_time o)) a' ∧
  ∀ now m, o = OPop now → r = RMsg (Some m) → (t_wall (AvailableAt m) <= t_wall now)%Z.
Proof.
  intros Hwf Ho Hdue Hw. destruct o as [msg|now|now| |now|id|now limit];
    cbn [a_exec op_time fmap option_fmap option_map default] in *.
  - intros [= <- <-]. split; [|done]. unfold a_push. case_bool_decide; [done|]. apply Hdue.
  - pose proof (due_by_promote off q now w Hwf Ho (Hw _ eq_refl) Hdue) as Hp. unfold a_pop.
    destruct (a_ready (a_promote now (abs q))) as [|e l] eqn:Hr.
    + intros [= <- <-]. by split.
    + intros [= <- <-]. split.
      * intros x Hx. apply Hp. rewrite Hr. by right.
      * intros now' m [= <-] [= <-]. apply Hp. rewrite Hr. by left.
  - intros [= <- <-]. split; [|done]. eapply due_by_promote; eauto.
  - intros [= <- <-]. by split.
  - intros [= <- <-]. split; [|done]. eapply due_by_promote; eauto.
  - unfold a_remove. intros [= <- <-]. split; [|done].
    intros e. simpl. rewrite list_elem_of_filter. intros [_ He]. by apply Hdue.
  - intros [= <- <-]. split; [|done]. eapply due_by_promote; eauto.
Qed.

Lemma forward_due off ops q rs q' last :
  wf off q → coherent off last → Forall (op_coherent off) ops → forward last ops →
  (q_nextOrder q + Z.of_nat (length ops) < 2 ^ 64)%Z → due_by (t_wall last) (abs q) →
  run ops q = Some (rs, q') →
  ∀ i now m, ops !! i = Some (OPop now) → rs !! i = Some (RMsg (Some m)) → Available m now = true.
Proof.
  revert q rs last. induction ops as [|o ops IH]; intros q rs last Hwf Hlast Hops Hfw Hn Hdue Hrun; [done|].
  apply Forall_cons in Hops as [Ho Hops]. cbn [length] in Hn. cbn [run] in Hrun.
  destruct (exec_ok off o q) as (r & q1 & He & Hwf1 & Ha); [done|done|lia|].
  rewrite He in Hrun. cbn [mbind option_bind] in Hrun.
  destruct (run ops q1) as [[rs1 q2]|] eqn:Hrun1; [|done]. simpl in Hrun.
  injection Hrun as <- <-.
  assert (∀ now, op_time o = Some now → (t_wall last <= t_wall now)%Z ∧ coherent off now) as Hw.
  { intros now Hnow. cbn [forward] in Hfw. rewrite Hnow in Hfw. destruct Hfw as [Hb _].
    assert (coherent off now) as Hc by (destruct o; naive_solver).
    rewrite (Before_coherent off) in Hb by done. split; [lia|done]. }
  destruct (due_by_exec off o q (t_wall last) r (abs q1)) as [Hdue1 Hpop];
    [done|done|done|intros now Hnow; by apply Hw|done|].
  pose proof (a_exec_next o (abs q)) as Hnext. rewrite Ha in Hnext. simpl in Hnext.
  intros [|i] now m Hi Hri; simpl in Hi, Hri.
  - injection Hi as ->. injection Hri as ->.
    assert (Hm := Hpop now m eq_refl eq_refl).
    assert (m ∈ (fst <$> contents q)) as [e [-> Hin]]%list_elem_of_fmap.
    { destruct (Pop_selects off q now) as (r & q' & Hp & _ & Hsel); [done|done|].
      cbn [exec] in He. rewrite Hp in He. simpl in He. injection He as -> ->.
      destruct Hsel as (e & <- & _ & _ & Hc). rewrite Hc. by left. }
    rewrite (Available_coherent off); [lia| |done].
    apply live_entry in Hin as [p Hp]. exact (wf_coherent _ _ Hwf _ _ Hp).
  - destruct (op_time o) as [t|] eqn:Ht; cbn [forward] in Hfw; rewrite Ht in Hfw.
    + destruct (Hw t eq_refl). destruct Hfw. eapply (IH q1 rs1 t); try done. lia.
    + eapply (IH q1 rs1 last); try done. lia.
Qed.

(** ** Nothing is lost or delivered twice *)

Definition pushed (ops : list op) : list Message :=
  omap (λ o, match o with OPush m => Some m | _ => None end) ops.

Definition delivered (ops : list op) (rs : list out) : list Message :=
  omap (λ x, match x with (OPop _, RMsg (Some m)) => Some m | _ => None end) (zip ops rs).

Definition is_remove (o : op) : bool := match o with ORemove _ => true | _ => false end.

Definition a_contents (a : AQueue) : list Message := fst <$> (a_ready a ++ a_delayed a).

Lemma a_contents_promote now a : a_contents (a_promote now a) ≡ₚ a_contents a.
Proof. unfold a_contents. by rewrite a_promote_perm. Qed.

Lemma a_exec_conserves o a r a' :
  is_remove o = false → NoDup (ID <$> a_contents a ++ pushed [o]) →
  a_exec o a = (r, a') →
  a_contents a ++ pushed [o] ≡ₚ delivered [o] [r] ++ a_contents a'.
Proof.
  intros Hrm Hnd. destruct o as [msg|now|now| |now|id|now limit]; cbn [a_exec]; try done.
  - intros [= <- <-]. unfold delivered. simpl in *. unfold a_push. case_bool_decide as Hid.
    + exfalso. rewrite fmap_app in Hnd. apply NoDup_app in Hnd as (_ & Hnd & _).
      apply (Hnd (ID msg)); [|set_solver].
      unfold a_ids in Hid. unfold a_contents. by rewrite <- list_fmap_compose.
    + unfold a_contents. cbn [a_ready a_delayed]. rewrite insertion_sort_perm.
      rewrite <- (Permutation_middle (a_ready a)). csimpl. by rewrite Permutation_app_comm.
  - unfold a_pop. rewrite <- (a_contents_promote now a). cbn [pushed omap list_omap].
    unfold a_contents at 1. destruct (a_ready (a_promote now a)) as [|e l] eqn:Hr;
      intros [<- <-]%pair_equal_spec; rewrite app_nil_r; [|done].
    unfold a_contents. by rewrite Hr.
  - intros [= <- <-]. unfold delivered. cbn [pushed omap list_omap zip zip_with app].
    by rewrite app_nil_r, a_contents_promote.
  - intros [= <- <-]. unfold delivered. simpl. by rewrite app_nil_r.
  - intros [= <- <-]. unfold delivered. cbn [pushed omap list_omap zip zip_with app].
    by rewrite app_nil_r, a_contents_promote.
  - intros [= <- <-]. unfold delivered. cbn [pushed omap list_omap zip zip_with app].
    by rewrite app_nil_r, a_contents_promote.
Qed.

Lemma pushed_cons o ops : pushed (o :: ops) = pushed [o] ++ pushed ops.
Proof. by destruct o. Qed.

Lemma delivered_cons o ops r rs :
  delivered (o :: ops) (r :: rs) = delivered [o] [r] ++ delivered ops rs.
Proof. unfold delivered. simpl. by destruct o, r as [|[]| | |]. Qed.

Lemma a_run_conserves ops a rs a' :
  Forall (λ o, is_remove o = false) ops → NoDup (ID <$> a_contents a ++ pushed ops) →
  a_run ops a = (rs, a') →
  a_contents a ++ pushed ops ≡ₚ delivered ops rs ++ a_contents a'.
Proof.
  revert a rs. induction ops as [|o ops IH]; intros a rs Hrm Hnd Hrun.
  { injection Hrun as <- <-. by rewrite app_nil_r. }
  apply Forall_cons in Hrm as [Ho Hrm]. cbn [a_run] in Hrun.
  destruct (a_exec o a) as [r a1] eqn:He. destruct (a_run ops a1) as [rs1 a2] eqn:Hr.
  injection Hrun as <- <-. rewrite pushed_cons, delivered_cons in *. rewrite app_assoc in *.
  assert (a_contents a ++ pushed [o] ≡ₚ delivered [o] [r] ++ a_contents a1) as Hstep.
  { apply a_exec_conserves; [done| |done]. rewrite fmap_app in Hnd. by apply NoDup_app in Hnd as [? _]. }
  rewrite Hstep, <- !app_assoc. f_equiv. apply (IH a1); [done| |done].
  rewrite Hstep in Hnd. rewrite <- app_assoc, fmap_app in Hnd. by apply NoDup_app in Hnd as (_ & _ & ?).
Qed.

(** ** Queues built from scratch *)

Lemma run_from_new off mode ops :
  Valid mode = true → Forall (op_coherent off) ops → (Z.of_nat (length ops) < 2 ^ 64)%Z →
  ∃ q0 rs q, NewFrankensteinQueue mode = Ok q0 ∧ run ops q0 = Some (rs, q) ∧
    wf off q0 ∧ wf off q ∧ abs q0 = MkAQueue mode [] [] 0 ∧
    a_run ops (MkAQueue mode [] [] 0) = (rs, abs q).
Proof.
  intros Hm Hops Hn. destruct (New_ok off mode Hm) as (q0 & Hq0 & Hwf0 & Ha0).
  assert (q_nextOrder q0 = 0%Z) as Hn0.
  { change (a_next (abs q0) = 0%Z). by rewrite Ha0. }
  destruct (run_ok off ops q0) as (rs & q & Hr & Hwf & Ha); [done|done|rewrite Hn0; lia|].
  rewrite Ha0 in Ha. exists q0, rs, q. done.
Qed.

(** A small FIFO queue for the examples: two visible messages, one delayed. *)
Module Sample.

Definition off : Z := 1700000000000000000.
Definition at_ms (ms : Z) : Time := MkTime (off + ms * Millisecond) (Some (ms * Millisecond))%Z 0.
Definition msg (id : string) (seq prio due : Z) : Message :=
  MkMessage id seq id prio (at_ms 0) (at_ms due) StatusPending.
Definition ops : list op :=
  [OPush (msg "a" 1 1 0); OPush (msg "b" 2 5 0); OPush (msg "c" 3 9 800); OPush (msg "d" 4 5 0);
   OPush (msg "b" 5 7 0); OPop (at_ms 10)].
Definition queue_after (mode : QueueMode) (ops : list op) : FrankensteinQueue :=
  match NewFrankensteinQueue mode with
  | Ok q0 => match run ops q0 with Some (_, q) => q | None => q0 end
  | Err _ => MkQueue [] (MkReadyHeap mode []) (MkDelayedHeap []) ∅ 0
  end.
Definition q : FrankensteinQueue := queue_after ModeFIFO ops.

Lemma ops_coherent : Forall (op_coherent off) ops.
Proof. by apply (bool_decide_unpack _). Qed.

Lemma queue_wf l : Forall (op_coherent off) l → (Z.of_nat (length l) < 2 ^ 64)%Z →
  wf off (queue_after ModeFIFO l).
Proof.
  intros Hc Hl. destruct (run_from_new off ModeFIFO l) as (q0 & rs & q' & Hq0 & Hr & _ & Hwf & _);
    [done..|].
  unfold queue_after. by rewrite Hq0, Hr.
Qed.

Lemma q_wf : wf off q.
Proof. apply queue_wf; [apply ops_coherent|done]. Qed.

Lemma at_ms_coherent ms : coherent off (at_ms ms).
Proof. unfold coherent, at_ms. simpl. lia. Qed.
End Sample.

(** ** The properties *)

(** C3: every finite sequence of calls on a new queue with instants from one
    clock runs without a panic, and returns exactly what the abstract queue
    returns; the representation invariant (heap order, index and location of
    every item, agreement of the ID index with the heaps) holds at the end. *)
Theorem engine_refines_spec off mode ops :
  Valid mode = true → Forall (op_coherent off) ops → (Z.of_nat (length ops) < 2 ^ 64)%Z →
  ∃ q0 rs q, NewFrankensteinQueue mode = Ok q0 ∧ run ops q0 = Some (rs, q) ∧ wf off q ∧
    a_run ops (MkAQueue mode [] [] 0) = (rs, abs q).
Proof.
  intros Hm Hops Hn. destruct (run_from_new off mode ops Hm Hops Hn)
    as (q0 & rs & q & Hq0 & Hr & _ & Hwf & _ & Ha).
  exists q0, rs, q. done.
Qed.

Lemma engine_refines_spec_witness :
  ∃ q0 rs q, NewFrankensteinQueue ModeFIFO = Ok q0 ∧ run Sample.ops q0 = Some (rs, q) ∧
    wf Sample.off q ∧ a_run Sample.ops (MkAQueue ModeFIFO [] [] 0) = (rs, abs q).
Proof.
  apply (engine_refines_spec Sample.off ModeFIFO Sample.ops);
    [reflexivity|apply Sample.ops_coherent|reflexivity].
Defined.

(** [Pop] at [now] never panics.  When a message is visible it returns the
    one that precedes every other visible message in the selection order
    (highest priority, then smallest Seq in FIFO mode and largest in LIFO mode)
    and removes exactly that message; otherwise it returns nothing and the
    contents stay as they are. *)
Theorem pop_takes_the_selected_message off q now :
  wf off q → coherent off now →
  ∃ r q', Pop q now = Some (r, q') ∧ wf off q' ∧
    match r with
    | None => (∀ e, ¬ eligible q now e) ∧ contents q' ≡ₚ contents q
    | Some m => ∃ e, fst e = m ∧ eligible q now e ∧
        (∀ e', eligible q now e' → e' = e ∨ sel_less (Mode q) e e' = true) ∧
        contents q ≡ₚ e :: contents q'
    end.
Proof. apply Pop_selects. Qed.

Lemma pop_takes_the_selected_message_witness :
  wf Sample.off Sample.q ∧ ∃ r q', Pop Sample.q (Sample.at_ms 800) = Some (r, q') ∧
    wf Sample.off q' ∧
    match r with
    | None => (∀ e, ¬ eligible Sample.q (Sample.at_ms 800) e) ∧ contents q' ≡ₚ contents Sample.q
    | Some m => ∃ e, fst e = m ∧ eligible Sample.q (Sample.at_ms 800) e ∧
        (∀ e', eligible Sample.q (Sample.at_ms 800) e' →
           e' = e ∨ sel_less (Mode Sample.q) e e' = true) ∧
        contents Sample.q ≡ₚ e :: contents q'
    end.
Proof.
  split; [apply Sample.q_wf|].
  apply (pop_takes_the_selected_message Sample.off Sample.q (Sample.at_ms 800));
    [apply Sample.q_wf|apply Sample.at_ms_coherent].
Defined.

(** C20: an unlimited [Snapshot] lists, as its ready messages, exactly what
    calling [Pop] at the same instant until it finds nothing returns, in that
    order, and as its delayed messages what is left, earliest first. *)
Theorem snapshot_lists_the_drain_order off q now :
  wf off q → coherent off now →
  ∃ v q1 q2, Snapshot q now 0 = Some (v, q1) ∧
    drain (S (v_ReadyLen v)) q now = Some (v_Ready v, q2) ∧
    v_Delayed v = fst <$> a_delayed (abs q2) ∧ v_ReadyTruncated v = false ∧
    a_ready (abs q2) = [].
Proof.
  intros Hwf Hnow. destruct (Snapshot_ok off q now 0 Hwf Hnow) as (q1 & Hs & _ & _).
  destruct (drain_promoted off (S (length (a_ready (a_promote now (abs q))))) q now)
    as (q2 & Hd & _ & Hr & Hde); [done|done|lia|].
  eexists _, q1, q2. split; [exact Hs|]. unfold a_view, page. cbn [Z.ltb Z.compare andb fst snd].
  cbn [v_ReadyLen v_Ready v_Delayed v_ReadyTruncated]. by rewrite Hd, Hde.
Qed.

Lemma snapshot_lists_the_drain_order_witness :
  wf Sample.off Sample.q ∧
  ∃ v q1 q2, Snapshot Sample.q (Sample.at_ms 20) 0 = Some (v, q1) ∧
    drain (S (v_ReadyLen v)) Sample.q (Sample.at_ms 20) = Some (v_Ready v, q2) ∧
    v_Delayed v = fst <$> a_delayed (abs q2) ∧ v_ReadyTruncated v = false ∧
    a_ready (abs q2) = [].
Proof.
  split; [apply Sample.q_wf|].
  apply (snapshot_lists_the_drain_order Sample.off Sample.q (Sample.at_ms 20));
    [apply Sample.q_wf|apply Sample.at_ms_coherent].
Defined.

(** C18: as long as the instants passed to successive calls do not go back, no
    [Pop] ever returns a message before its [AvailableAt]. *)
Theorem never_delivered_early off mode ops q0 rs q start :
  NewFrankensteinQueue mode = Ok q0 → run ops q0 = Some (rs, q) →
  Forall (op_coherent off) ops → coherent off start → forward start ops →
  (Z.of_nat (length ops) < 2 ^ 64)%Z →
  ∀ i now m, ops !! i = Some (OPop now) → rs !! i = Some (RMsg (Some m)) → Available m now = true.
Proof.
  intros Hq0 Hrun Hops Hstart Hfw Hn.
  assert (Valid mode = true) as Hm.
  { unfold NewFrankensteinQueue in Hq0. by destruct (Valid mode). }
  destruct (New_ok off mode Hm) as (q0' & Hq0' & Hwf0 & Ha0).
  rewrite Hq0 in Hq0'. injection Hq0' as <-.
  assert (q_nextOrder q0 = 0%Z) as Hn0.
  { change (a_next (abs q0) = 0%Z). by rewrite Ha0. }
  eapply (forward_due off); try done; [by rewrite Hn0|].
  rewrite Ha0. intros e He. inversion He.
Qed.

Lemma never_delivered_early_witness :
  ∃ m, (run Sample.ops (Sample.queue_after ModeFIFO [])) ≫= (λ x, fst x !! 5) = Some (RMsg (Some m)) ∧
    Available m (Sample.at_ms 10) = true.
Proof.
  eexists. split; [vm_compute; reflexivity|].
  eapply (never_delivered_early Sample.off ModeFIFO Sample.ops (Sample.queue_after ModeFIFO [])
    _ _ (Sample.at_ms 0)) with (i := 5);
    [reflexivity|vm_compute; reflexivity|apply Sample.ops_coherent|apply Sample.at_ms_coherent| | | |].
  - simpl. split; reflexivity.
  - reflexivity.
  - reflexivity.
  - reflexivity.
Defined.

(** C17: over any sequence of calls without [Remove] that pushes distinct IDs,
    the messages pushed are exactly those delivered by [Pop] together with
    those still in the queue: none is lost and none is delivered twice. *)
Theorem nothing_lost_or_duplicated off mode ops :
  Valid mode = true → Forall (op_coherent off) ops → (Z.of_nat (length ops) < 2 ^ 64)%Z →
  Forall (λ o, is_remove o = false) ops → NoDup (ID <$> pushed ops) →
  ∃ q0 rs q, NewFrankensteinQueue mode = Ok q0 ∧ run ops q0 = Some (rs, q) ∧
    pushed ops ≡ₚ delivered ops rs ++ (fst <$> contents q).
Proof.
  intros Hm Hops Hn Hrm Hnd. destruct (run_from_new off mode ops Hm Hops Hn)
    as (q0 & rs & q & Hq0 & Hr & _ & _ & _ & Ha).
  exists q0, rs, q. split_and!; [done|done|].
  assert (a_contents (MkAQueue mode [] [] 0) = []) as Hempty by done.
  pose proof (a_run_conserves ops _ _ _ Hrm ltac:(by rewrite Hempty) Ha) as Hc.
  rewrite Hempty in Hc. simpl in Hc. rewrite Hc. f_equiv. unfold a_contents. by rewrite abs_contents.
Qed.

Lemma nothing_lost_or_duplicated_witness :
  let ops := take 4 Sample.ops ++ [OPop (Sample.at_ms 10)] in
  NoDup (ID <$> pushed ops) ∧
  ∃ q0 rs q, NewFrankensteinQueue ModeFIFO = Ok q0 ∧ run ops q0 = Some (rs, q) ∧
    pushed ops ≡ₚ delivered ops rs ++ (fst <$> contents q).
Proof.
  split; [by apply (bool_decide_unpack _)|].
  apply (nothing_lost_or_duplicated Sample.off ModeFIFO);
    try reflexivity; by apply (bool_decide_unpack _).
Defined.

(** [Remove] never panics, although it trusts the [loc] and [index] fields
    kept up by the heaps' swaps; it reports whether the ID was present and
    takes out exactly the entries with that ID. *)
Theorem remove_deletes_exactly off q id :
  wf off q →
  ∃ q', Remove q id = Some (bool_decide (id ∈ (λ e, ID (fst e)) <$> contents q), q') ∧
    wf off q' ∧ contents q' ≡ₚ filter (λ e, ID (fst e) ≠ id) (contents q).
Proof.
  intros Hwf. destruct (Remove_ok off q id Hwf) as (q' & Hr & Hwf' & Ha).
  exists q'. split_and!; [|done|].
  - rewrite Hr. unfold a_remove. cbn [fst]. do 2 f_equal. apply bool_decide_ext.
    unfold a_ids. by rewrite abs_contents.
  - rewrite <- (abs_contents q'), Ha. unfold a_remove. cbn [snd a_ready a_delayed].
    by rewrite <- filter_app, abs_contents.
Qed.

Lemma remove_deletes_exactly_witness :
  wf Sample.off Sample.q ∧ ∃ q',
    Remove Sample.q "a" = Some (bool_decide ("a" ∈ (λ e, ID (fst e)) <$> contents Sample.q), q') ∧
    wf Sample.off q' ∧ contents q' ≡ₚ filter (λ e, ID (fst e) ≠ "a") (contents Sample.q).
Proof.
  split; [apply Sample.q_wf|].
  apply (remove_deletes_exactly Sample.off Sample.q "a"). apply Sample.q_wf.
Defined.

(** [Peek] returns the message [Pop] would return for the same instant,
    and leaves the contents alone. *)
Theorem peek_agrees_with_pop off q now :
  wf off q → coherent off now →
  ∃ r q1 q2, Peek q now = Some (r, q1) ∧ Pop q now = Some (r, q2) ∧ wf off q1 ∧
    contents q1 ≡ₚ contents q.
Proof.
  intros Hwf Hnow. destruct (Peek_ok off q now Hwf Hnow) as (q1 & Hp & Hwf1 & Ha1).
  destruct (Pop_ok off q now Hwf Hnow) as (r & q2 & Hpop & _ & Ha2).
  exists r, q1, q2. split_and!; [|done|done|].
  - rewrite Hp. do 2 f_equal. unfold a_pop, a_peek in *.
    by destruct (a_ready (a_promote now (abs q))); apply pair_equal_spec in Ha2 as [<- _].
  - by rewrite <- (abs_contents q1), Ha1, a_promote_perm, abs_contents.
Qed.

Lemma peek_agrees_with_pop_witness :
  wf Sample.off Sample.q ∧ ∃ r q1 q2, Peek Sample.q (Sample.at_ms 900) = Some (r, q1) ∧
    Pop Sample.q (Sample.at_ms 900) = Some (r, q2) ∧ wf Sample.off q1 ∧
    contents q1 ≡ₚ contents Sample.q.
Proof.
  split; [apply Sample.q_wf|].
  apply (peek_agrees_with_pop Sample.off Sample.q (Sample.at_ms 900));
    [apply Sample.q_wf|apply Sample.at_ms_coherent].
Defined.

(** When nothing is visible and the root of the delayed heap is not due, [Pop]
    finds nothing, whatever lies below the root. *)
Lemma Pop_blocked off q now other :
  wf off q → a_ready (abs q) = [] → head (a_delayed (abs q)) = Some other →
  Available (fst other) now = false → Pop q now = Some (None, q).
Proof.
  intros Hwf Hr Hd Hna.
  assert (rh_items (q_ready q) = []) as Hr'.
  { apply length_zero_iff_nil. rewrite <- (length_ready_entries off q Hwf).
    rewrite <- (length_isort (sel_less (Mode q)) (ready_entries q)). cbn [abs a_ready] in Hr. by rewrite Hr. }
  cbn [abs a_delayed] in Hd. destruct (dh_items (q_delayed q)) as [|top rest] eqn:Ed.
  { exfalso. unfold delayed_entries, entries in Hd. rewrite Ed in Hd. done. }
  destruct (wf_cell _ _ Hwf top) as (it & Hit & _); [unfold items; rewrite Ed; set_solver|].
  rewrite (delayed_root _ _ _ _ _ Hwf Ed Hit) in Hd. injection Hd as <-.
  unfold Pop, promoteLocked. cbn [promote_loop]. rewrite Ed, Hit. cbn [mbind option_bind].
  change (fst (core it)) with (it_msg it) in Hna. rewrite Hna. cbn [negb mbind option_bind].
  by rewrite bool_decide_true by (by rewrite Hr').
Qed.

(** C37: A wall clock stepped back hides messages that are due.  [off] is the
    distance between the clocks before the step and [d] its size.  Suppose
    nothing is visible yet and the message that matures first, [other], was
    recovered from the log, so that its instant has no monotonic reading, and
    is not due by the stepped wall clock.  Then [Pop] at an instant read after
    the step finds nothing and leaves the queue as it is, although every message
    [late] pushed by this process whose delay has elapsed (by the monotonic
    clock, which was not stepped) is [Available] at that very instant; without
    the step [Pop] would have found a message there. *)
Theorem stepped_clock_hides_due_message off d q mono zone other late :
  let now := MkTime (mono + off - d) (Some mono) zone in
  let unstepped := MkTime (mono + off) (Some mono) zone in
  wf off q → a_ready (abs q) = [] →
  head (a_delayed (abs q)) = Some other →
  t_mono (AvailableAt (fst other)) = None → (t_wall now < t_wall (AvailableAt (fst other)))%Z →
  late ∈ contents q → t_mono (AvailableAt (fst late)) ≠ None → Available (fst late) unstepped = true →
  Available (fst late) now = true ∧ Available (fst other) now = false ∧
  Pop q now = Some (None, q) ∧
  ∃ m q', Pop q unstepped = Some (Some m, q').
Proof.
  intros now unstepped Hwf Hr Hd Hm Hw Hlate Hlm Hav.
  assert (Available (fst other) now = false) as Hna.
  { unfold Available, Before. rewrite Hm. cbn [now t_mono]. by apply negb_false_iff, Z.ltb_lt. }
  split_and!; [|done|by eapply Pop_blocked|].
  - revert Hav. unfold Available, Before, now, unstepped. cbn [t_mono].
    by destruct (t_mono (AvailableAt (fst late))).
  - destruct (Pop_selects off q unstepped Hwf) as ([m|] & q' & Hp & _ & Hs);
      [unfold coherent, unstepped; simpl; lia|eauto|].
    destruct Hs as [Hnone _]. destruct (Hnone late). unfold contents in Hlate.
    apply elem_of_app in Hlate as [Hl|Hl]; [by left|by right].
Qed.

(** A message recovered with the instant it was due at, half a second after the
    start, and one pushed by this process due 300 ms later.  At 900 ms the wall
    clock has been stepped back by 600 ms. *)
Lemma stepped_clock_hides_due_message_witness :
  let other := MkMessage "other" 1 "x" 0 zero_time (MkTime (Sample.off + 500 * Millisecond) None 0) StatusPending in
  let late := Sample.msg "late" 2 0 800 in
  let q := Sample.queue_after ModeFIFO [OPush other; OPush late] in
  let now := MkTime (Sample.off + 300 * Millisecond) (Some (900 * Millisecond)%Z) 0 in
  Available late now = true ∧ Available other now = false ∧ Pop q now = Some (None, q) ∧
  ∃ m q', Pop q (Sample.at_ms 900) = Some (Some m, q').
Proof.
  intros other late q now.
  assert (900 * Millisecond + Sample.off - 600 * Millisecond = Sample.off + 300 * Millisecond)%Z as E by reflexivity.
  pose proof (stepped_clock_hides_due_message Sample.off (600 * Millisecond) q (900 * Millisecond) 0
    (other, 0%Z) (late, 1%Z)) as H.
  rewrite E in H. apply H; clear H E.
  - apply Sample.queue_wf; [by apply (bool_decide_unpack _)|done].
  - vm_compute. reflexivity.
  - vm_compute. reflexivity.
  - reflexivity.
  - vm_compute. reflexivity.
  - apply (bool_decide_unpack _). vm_compute. reflexivity.
  - done.
  - vm_compute. reflexivity.
Defined.
