(* ===== verification/Wal.v ===== *)
(** * [pkg/storage]: the write-ahead log

    The log is a file of JSONL records.  A [File] is the bytes written so far
    and how many of them are known to be on disk; a [WAL] is the open handle
    with its record counter.  Every method takes both and returns both, with
    what the operating system answered ([io]) as an argument: the clock, an
    error of the write or of the sync, an error of a seek or of a read.  The
    mutex makes each method one atomic step. *)

From S2P Require Import Prelude GoTime GoStrconv GoUtf8 GoSort Model LogRecord.
From Stdlib Require Import Ascii.

Local Open Scope Z_scope.

Definition recordVersion : Z := 1.
Definition maxRecordBytes : Z := Z.shiftl 16 20.
Definition tailWindowBytes : Z := Z.shiftl 4 20.

Definition ErrClosed : error := ErrVar "storage.ErrClosed".
Definition ErrEmptyID : error := ErrVar "storage.ErrEmptyID".

(** The texts of errors of [encoding/json] are not modelled. *)
Definition ErrJSON : error := ErrNew "json".
Definition ErrTooLong : error := ErrVar "bufio.ErrTooLong".

Record File := MkFile {
  f_data : bytes;    (** all bytes written, through O_APPEND *)
  f_synced : nat     (** the length of the prefix that survives a crash *)
}.

Record WAL := MkWAL {
  w_open : bool;     (** [file != nil] *)
  w_path : string;
  w_seq : Z          (** uint64 *)
}.

(** What the system answers to one append: a failed write has written a prefix
    of the record. *)
Record append_io := MkAppendIO {
  io_now : Time;
  io_write : option (nat * error);
  io_sync : option error
}.

(** What it answers to one read of the file: a failed read has returned a
    prefix of the data. *)
Record read_io := MkReadIO {
  io_stat : option error;
  io_seek : option error;
  io_read : option (nat * error)
}.

Definition read_ok : read_io := MkReadIO None None None.

(** [NewWAL]; the file exists afterwards, as it was or empty. *)
Definition NewWAL (path : string) (open_err : option error) : result WAL :=
  match open_err with
  | Some e => Err (ErrWrapQuoted "opening WAL" path e)
  | None => Ok (MkWAL true path 0)
  end.

Section wal.
Context `{LogCodec}.

(** ** Writing *)

Definition newline : ascii := "010"%char.

Definition appendLocked (io : append_io) (rec : logEntry) (w : WAL) (f : File)
    : option error * WAL * File :=
  if negb (w_open w) then (Some ErrClosed, w, f)
  else
    let w := MkWAL (w_open w) (w_path w) (wrap_u64 (w_seq w + 1)) in
    let rec := MkEntry recordVersion (Op rec) (w_seq w) (UTC (io_now io)) (le_ID rec)
      (MsgSeq rec) (le_Payload rec) (le_Priority rec) (le_EnqueuedAt rec) (le_AvailableAt rec)
      (le_Status rec) in
    match marshal rec with
    | None => (Some (ErrWrap "marshaling WAL record" ErrJSON), w, f)
    | Some b =>
        let b := b ++ [newline] in
        match io_write io with
        | Some (n, e) =>
            (Some (ErrWrap "writing WAL record" e), w, MkFile (f_data f ++ take n b) (f_synced f))
        | None =>
            let f := MkFile (f_data f ++ b) (f_synced f) in
            match io_sync io with
            | Some e => (Some (ErrWrap "syncing WAL" e), w, f)
            | None => (None, w, MkFile (f_data f) (length (f_data f)))
            end
        end
    end.

Definition wrap_error (context : string) (r : option error * WAL * File) : option error * WAL * File :=
  let '(err, w, f) := r in (ErrWrap context <$> err, w, f).

Definition WriteEnqueue (io : append_io) (msg : Message) (w : WAL) (f : File)
    : option error * WAL * File :=
  if bool_decide (ID msg = "") then (Some ErrEmptyID, w, f)
  else
    let status := if bool_decide (m_Status msg = "") then StatusPending else m_Status msg in
    let rec := MkEntry 0 OP_ENQUEUE 0 zero_time (ID msg) (Seq msg) (Payload msg)
      (Some (Priority msg)) (Some (EnqueuedAt msg)) (Some (AvailableAt msg)) status in
    wrap_error "appending enqueue record" (appendLocked io rec w f).

Definition WriteDequeue (io : append_io) (msgID : string) (w : WAL) (f : File)
    : option error * WAL * File :=
  if bool_decide (msgID = "") then (Some ErrEmptyID, w, f)
  else
    let rec := MkEntry 0 OP_DEQUEUE 0 zero_time msgID 0 "" None None None "" in
    wrap_error "appending dequeue record" (appendLocked io rec w f).

(** ** Recovery *)

Definition derefInt (v : option Z) : Z := match v with None => 0 | Some v => v end.
Definition derefTime (t : option Time) : Time := match t with None => zero_time | Some t => t end.

(** The state of the fold: the live messages and the largest record number. *)
Record Fold := MkFold {
  fo_live : gmap string Message;
  fo_maxSeq : Z
}.

Definition empty_fold : Fold := MkFold ∅ 0.

(** The message an ENQUEUE record carries. *)
Definition record_message (rec : logEntry) : Message :=
  let status := if bool_decide (le_Status rec = "") then StatusPending else le_Status rec in
  let msgSeq := if MsgSeq rec =? 0 then le_Seq rec else MsgSeq rec in
  MkMessage (le_ID rec) msgSeq (le_Payload rec) (derefInt (le_Priority rec))
    (derefTime (le_EnqueuedAt rec)) (derefTime (le_AvailableAt rec)) status.

(** One record folded into the state. *)
Definition applyEntry (st : Fold) (rec : logEntry) : Fold :=
  let st := if fo_maxSeq st <? le_Seq rec then MkFold (fo_live st) (le_Seq rec) else st in
  if bool_decide (Op rec = OP_ENQUEUE) then
    if bool_decide (le_ID rec = "") then st
    else match fo_live st !! le_ID rec with
         | Some _ => st
         | None => MkFold (<[le_ID rec := record_message rec]> (fo_live st)) (fo_maxSeq st)
         end
  else if bool_decide (Op rec = OP_DEQUEUE) then
    if bool_decide (le_ID rec = "") then st
    else MkFold (delete (le_ID rec) (fo_live st)) (fo_maxSeq st)
  else st.

(** [applyLine]: [None] is a line that does not parse. *)
Definition applyLine (line : bytes) (st : Fold) : option Fold :=
  match line with
  | [] => Some st
  | _ => rec ← unmarshal line; Some (applyEntry st rec)
  end.

(** [bufio.ScanLines]: the lines without their terminator, one carriage return
    dropped from the end of each; an unterminated last line counts unless it is
    empty. *)
Definition dropCR (line : bytes) : bytes :=
  match rev line with
  | c :: l => if decide (c = "013"%char) then rev l else line
  | [] => []
  end.

(** The lines with [acc] read already of the first of them, in reverse. *)
Fixpoint raw_lines (acc l : bytes) : list bytes :=
  match l with
  | [] => match acc with [] => [] | _ => [rev acc] end
  | c :: l => if decide (c = newline) then rev acc :: raw_lines [] l else raw_lines (c :: acc) l
  end.

(** [bufio.Scanner] over the data with a buffer of [maxRecordBytes]: the tokens
    up to the first line that does not fit, and whether there is one. *)
Fixpoint tokens (lines : list bytes) : list bytes * bool :=
  match lines with
  | [] => ([], false)
  | l :: lines =>
      if maxRecordBytes <=? Z.of_nat (length l) then ([], true)
      else let '(ts, long) := tokens lines in (dropCR l :: ts, long)
  end.

(** The loop over the tokens, one line behind: every line that has a successor
    must parse. [n] is the number of the pending line. *)
Fixpoint fold_pending (pending : bytes) (n : Z) (ts : list bytes) (st : Fold) : result (bytes * Fold) :=
  match ts with
  | [] => Ok (pending, st)
  | t :: ts =>
      match applyLine pending st with
      | None => Err (ErrWrap ("corrupt WAL record at line " +:+ Itoa n) ErrJSON)
      | Some st => fold_pending t (n + 1) ts st
      end
  end.

(** The comparator of the final sort: message number, then ID. *)
Definition seq_cmp (a b : Message) : Z :=
  if negb (Seq a =? Seq b) then if Seq a <? Seq b then -1 else 1
  else match String.compare (ID a) (ID b) with Lt => -1 | Gt => 1 | Eq => 0 end.

(** The messages of a fold in enqueue order. *)
Definition sorted_messages (st : Fold) : list Message :=
  SortFunc seq_cmp (snd <$> map_to_list (fo_live st)).

Definition Recover (io : read_io) (w : WAL) (f : File) : result (list Message) * WAL :=
  if negb (w_open w) then (Err ErrClosed, w)
  else match io_seek io with
  | Some e => (Err (ErrWrap "seeking WAL for recovery" e), w)
  | None =>
      let '(data, read_err) :=
        match io_read io with
        | Some (n, e) => (take n (f_data f), Some e)
        | None => (f_data f, None)
        end in
      let '(ts, long) := tokens (raw_lines [] data) in
      let scanned :=
        match ts with
        | [] => Ok ([], empty_fold)
        | t :: ts => fold_pending t 1 ts empty_fold
        end in
      match scanned with
      | Err e => (Err e, w)
      | Ok (pending, st) =>
          match (if long then Some ErrTooLong else read_err) with
          | Some e => (Err (ErrWrap "reading WAL" e), w)
          | None =>
              (* the last line is the only one allowed to be broken *)
              let st := default st (applyLine pending st) in
              (Ok (sorted_messages st), MkWAL (w_open w) (w_path w) (fo_maxSeq st))
          end
      end
  end.

(** ** Inspection *)

(** [bytes.Split(window, "\n")], which has one more piece than separators. *)
Fixpoint split_newlines (acc l : bytes) : list bytes :=
  match l with
  | [] => [rev acc]
  | c :: l => if decide (c = newline) then rev acc :: split_newlines [] l else split_newlines (c :: acc) l
  end.

(** The lines a reader of the tail is shown. *)
Definition tail_record (line : bytes) : option bytes :=
  match TrimSpace line with
  | [] => None
  | line => if valid line then Some line else None
  end.

Definition Tail (io : read_io) (maxRecords : Z) (w : WAL) (f : File) : result WalTail :=
  if negb (w_open w) then Err ErrClosed
  else match io_stat io with
  | Some e => Err (ErrWrap "stat WAL" e)
  | None =>
      let size := Z.of_nat (length (f_data f)) in
      let start := if tailWindowBytes <? size then size - tailWindowBytes else 0 in
      match io_seek io with
      | Some e => Err (ErrWrap "seeking WAL for tail" e)
      | None =>
          match io_read io with
          | Some (_, e) => Err (ErrWrap "reading WAL tail" e)
          | None =>
              let window := drop (Z.to_nat start) (f_data f) in
              let lines := split_newlines [] window in
              let lines := if 0 <? start then tl lines else lines in
              let records := omap tail_record lines in
              let n := Z.of_nat (length records) in
              let capped := (0 <? maxRecords) && (maxRecords <? n) in
              let records := if capped then drop (Z.to_nat (n - maxRecords)) records else records in
              Ok (MkWalTail (w_path w) size ((0 <? start) || capped) records)
          end
      end
  end.

(** ** Closing *)

Definition Close (close_err : option error) (w : WAL) : option error * WAL :=
  if negb (w_open w) then (None, w)
  else (ErrWrap "closing WAL" <$> close_err, MkWAL false (w_path w) (w_seq w)).
End wal.
