(* ===== verification/WalFacts.v ===== *)
(** * How a log file reads back

    The specification of recovery, [replay], and the lemmas that connect it to
    [Recover] on the bytes of a file: a file made of whole records, with or
    without a torn tail. *)

From S2P Require Import Prelude GoTime GoStrconv GoUtf8 GoHeap GoSort GoJson GoJsonFacts Model.
From S2P Require Import Codec CodecFacts LogRecord Wal.
From Stdlib Require Import Ascii.

Local Open Scope Z_scope.

Section facts.
Context `{LC : LogCodec} {LL : LogCodecLaws LC}.

(** The bytes of a log with the given lines. *)
Definition log_bytes (bs : list bytes) : bytes := bs ≫= λ b, b ++ [newline].

(** [b] is the line of record [e], short enough to be read again. *)
Definition is_line (e : logEntry) (b : bytes) : Prop :=
  writable e ∧ marshal e = Some b ∧ Z.of_nat (length b) < maxRecordBytes.

(** [bs] are the lines of the records [es]. *)
Definition written (es : list logEntry) (bs : list bytes) : Prop := Forall2 is_line es bs.

(** What folding the records gives. *)
Definition replay_from (st : Fold) (es : list logEntry) : Fold :=
  foldl applyEntry st (read_back <$> es).
Definition replay (es : list logEntry) : Fold := replay_from empty_fold es.

Lemma replay_from_app st es1 es2 :
  replay_from st (es1 ++ es2) = replay_from (replay_from st es1) es2.
Proof. unfold replay_from. by rewrite fmap_app, foldl_app. Qed.

Lemma log_bytes_app bs1 bs2 : log_bytes (bs1 ++ bs2) = log_bytes bs1 ++ log_bytes bs2.
Proof. apply bind_app. Qed.

Lemma written_app es1 es2 bs1 bs2 :
  written es1 bs1 → written es2 bs2 → written (es1 ++ es2) (bs1 ++ bs2).
Proof. apply Forall2_app. Qed.

(** ** Lines of a record *)

Lemma is_line_record e b : is_line e b → record_line b.
Proof. intros (Hw & Hm & _). by eapply marshal_line. Qed.

Lemma record_line_newline b : record_line b → newline ∉ b.
Proof.
  intros [Hp _] Hn. unfold printable in Hp. rewrite Forall_forall in Hp.
  specialize (Hp _ Hn). by vm_compute in Hp.
Qed.

Lemma record_line_nonempty b : record_line b → b ≠ [].
Proof. by intros [_ [m ->]]. Qed.

Lemma record_line_dropCR b : record_line b → dropCR b = b.
Proof.
  intros [_ [m ->]]. unfold dropCR. by rewrite app_comm_cons, rev_app_distr.
Qed.

Lemma record_line_TrimSpace b : record_line b → TrimSpace b = b.
Proof. intros [_ [m ->]]. by apply TrimSpace_id. Qed.

Lemma is_line_apply e b st : is_line e b → applyLine b st = Some (applyEntry st (read_back e)).
Proof.
  intros Hl. pose proof (record_line_nonempty _ (is_line_record _ _ Hl)) as Hne.
  destruct Hl as (Hw & Hm & _). unfold applyLine. rewrite (marshal_round _ _ Hw Hm).
  by destruct b.
Qed.

(** ** Splitting into lines *)

Lemma raw_lines_nl acc l r :
  newline ∉ l → raw_lines acc (l ++ newline :: r) = (rev acc ++ l) :: raw_lines [] r.
Proof.
  revert acc. induction l as [|c l IH]; intros acc Hl.
  - cbn [app raw_lines]. rewrite decide_True by done. by rewrite app_nil_r.
  - cbn [app raw_lines]. rewrite decide_False by set_solver. rewrite IH by set_solver.
    simpl. by rewrite <- app_assoc.
Qed.

Lemma raw_lines_last acc l :
  newline ∉ l → raw_lines acc l = match rev acc ++ l with [] => [] | x => [x] end.
Proof.
  revert acc. induction l as [|c l IH]; intros acc Hl.
  - cbn [raw_lines]. rewrite app_nil_r. destruct acc as [|c acc]; [done|].
    simpl. by destruct (rev acc).
  - cbn [raw_lines]. rewrite decide_False by set_solver. rewrite IH by set_solver.
    simpl. by rewrite <- app_assoc.
Qed.

(** The last, unterminated piece of a file, when there is one. *)
Definition tail_line (p : bytes) : list bytes := match p with [] => [] | _ => [p] end.

Lemma raw_lines_log bs rest :
  Forall (λ b, newline ∉ b) bs → raw_lines [] (log_bytes bs ++ rest) = bs ++ raw_lines [] rest.
Proof.
  induction 1 as [|b bs Hb _ IH]; [done|]. unfold log_bytes. csimpl.
  rewrite <- !app_assoc. cbn [app]. rewrite raw_lines_nl by done. cbn [rev app]. f_equal. exact IH.
Qed.

Lemma raw_lines_tail p : newline ∉ p → raw_lines [] p = tail_line p.
Proof. intros Hp. rewrite raw_lines_last by done. simpl. by destruct p. Qed.

Lemma tokens_app bs ls :
  Forall (λ b, Z.of_nat (length b) < maxRecordBytes) bs →
  tokens (bs ++ ls) = ((dropCR <$> bs) ++ (tokens ls).1, (tokens ls).2).
Proof.
  induction 1 as [|b bs Hb _ IH]; simpl; [by destruct (tokens ls)|].
  destruct (Z.leb_spec maxRecordBytes (Z.of_nat (length b))); [lia|]. rewrite IH. done.
Qed.

Lemma written_lines es bs : written es bs →
  Forall (λ b, newline ∉ b) bs ∧ Forall (λ b, Z.of_nat (length b) < maxRecordBytes) bs
  ∧ dropCR <$> bs = bs.
Proof.
  induction 1 as [|e b es bs Hl _ (IH1 & IH2 & IH3)]; [done|].
  pose proof (is_line_record _ _ Hl) as Hr. split_and!.
  - constructor; [by apply record_line_newline|done].
  - constructor; [by destruct Hl as (_ & _ & ?)|done].
  - csimpl. by rewrite record_line_dropCR, IH3.
Qed.

(** ** The fold over the lines *)

(** The result of the loop and of the final, tolerant step. *)
Definition fold_tokens (ts : list bytes) : result Fold :=
  match ts with
  | [] => Ok empty_fold
  | t :: ts =>
      match fold_pending t 1 ts empty_fold with
      | Err e => Err e
      | Ok (pending, st) => Ok (default st (applyLine pending st))
      end
  end.

Lemma fold_pending_log t es bs : written es bs → ∀ n st b ts,
  b :: ts = bs ++ [t] → fold_pending b n ts st = Ok (t, replay_from st es).
Proof.
  induction 1 as [|e b es bs Hl _ IH]; intros n st b' ts E; simpl in E; simplify_eq; [done|].
  destruct (bs ++ [t]) as [|b2 ts2] eqn:E2; [by destruct bs|].
  cbn [fold_pending]. rewrite (is_line_apply _ _ _ Hl). by apply IH.
Qed.

Lemma fold_tokens_torn es bs t : written es bs →
  fold_tokens (bs ++ [t]) = Ok (default (replay es) (applyLine t (replay es))).
Proof.
  intros Hw. destruct (bs ++ [t]) as [|b ts] eqn:E; [by destruct bs|].
  cbn [fold_tokens]. by rewrite (fold_pending_log t es bs Hw _ _ _ _ (eq_sym E)).
Qed.

Lemma fold_tokens_log es bs : written es bs → fold_tokens bs = Ok (replay es).
Proof.
  intros Hw. destruct es as [|e es _] using rev_ind.
  { apply Forall2_nil_inv_l in Hw as ->. done. }
  apply Forall2_app_inv_l in Hw as (bs1 & bs2 & H1 & H2 & ->).
  apply Forall2_cons_inv_l in H2 as (b & bs3 & Hl & H3 & ->). apply Forall2_nil_inv_l in H3 as ->.
  rewrite (fold_tokens_torn es bs1 b H1), (is_line_apply _ _ _ Hl).
  cbn [default]. unfold replay. by rewrite replay_from_app.
Qed.

(** A line that is followed by another must parse. *)
Lemma fold_pending_corrupt t more ts es bs : written es bs → unmarshal t = None → t ≠ [] →
  ∀ n st b rest, b :: rest = bs ++ t :: more :: ts →
  fold_pending b n rest st =
    Err (ErrWrap ("corrupt WAL record at line " +:+ Itoa (n + Z.of_nat (length bs))) ErrJSON).
Proof.
  intros Hw Ht Hne. induction Hw as [|e b es bs Hl _ IH]; intros n st b' rest E; simpl in E; simplify_eq.
  - cbn [fold_pending applyLine]. destruct t; [done|]. cbn [applyLine]. rewrite Ht. simpl.
    by rewrite Z.add_0_r.
  - destruct (bs ++ t :: more :: ts) as [|b2 ts2] eqn:E2; [by destruct bs|].
    cbn [fold_pending]. rewrite (is_line_apply _ _ _ Hl). rewrite (IH _ _ _ _ eq_refl).
    cbn [length]. do 4 f_equal. lia.
Qed.

(** ** Recover on a file *)

Abbreviation open_wal path seq := (MkWAL true path seq).

Lemma Recover_tokens path seq data s ts :
  tokens (raw_lines [] data) = (ts, false) →
  Recover read_ok (open_wal path seq) (MkFile data s) =
    match fold_tokens ts with
    | Ok st => (Ok (sorted_messages st), open_wal path (fo_maxSeq st))
    | Err e => (Err e, open_wal path seq)
    end.
Proof.
  intros Ht. unfold Recover. cbn [w_open negb io_seek io_read read_ok f_data w_path].
  rewrite Ht. destruct ts as [|t ts]; [done|]. cbn [fold_tokens].
  by destruct (fold_pending t 1 ts empty_fold) as [[p st]|e].
Qed.

(** A file of whole records. *)
Lemma Recover_log path seq es bs s : written es bs →
  Recover read_ok (open_wal path seq) (MkFile (log_bytes bs) s) =
    (Ok (sorted_messages (replay es)), open_wal path (fo_maxSeq (replay es))).
Proof.
  intros Hw. destruct (written_lines _ _ Hw) as (Hn & Hl & Hd).
  rewrite (Recover_tokens _ _ _ _ bs); [by rewrite (fold_tokens_log es bs)|].
  rewrite <- (app_nil_r (log_bytes bs)), raw_lines_log by done.
  rewrite tokens_app by done. by rewrite Hd, app_nil_r.
Qed.

(** A file with an unterminated piece behind its records. *)
Lemma Recover_torn path seq es bs p s : written es bs →
  newline ∉ p → p ≠ [] → Z.of_nat (length p) < maxRecordBytes →
  let st := default (replay es) (applyLine (dropCR p) (replay es)) in
  Recover read_ok (open_wal path seq) (MkFile (log_bytes bs ++ p) s) =
    (Ok (sorted_messages st), open_wal path (fo_maxSeq st)).
Proof.
  intros Hw Hp Hne Hlen. destruct (written_lines _ _ Hw) as (Hn & Hl & Hd).
  rewrite (Recover_tokens _ _ _ _ (bs ++ [dropCR p])); [by rewrite (fold_tokens_torn es bs)|].
  rewrite raw_lines_log, raw_lines_tail by done. rewrite tokens_app by done. rewrite Hd.
  destruct p as [|c p]; [done|]. cbn [tail_line tokens].
  destruct (Z.leb_spec maxRecordBytes (Z.of_nat (length (c :: p)))); [lia|done].
Qed.

(** A line that does not parse, with more behind it. *)
Lemma Recover_corrupt path seq es bs t rest s : written es bs →
  newline ∉ t → Z.of_nat (length t) < maxRecordBytes → dropCR t ≠ [] → unmarshal (dropCR t) = None →
  rest ≠ [] → (tokens (raw_lines [] rest)).1 ≠ [] → 
  Recover read_ok (open_wal path seq) (MkFile (log_bytes bs ++ t ++ newline :: rest) s) =
    (Err (ErrWrap ("corrupt WAL record at line " +:+ Itoa (1 + Z.of_nat (length bs))) ErrJSON),
     open_wal path seq).
Proof.
  intros Hw Ht Hlen Hne Hu Hrest Htok. destruct (written_lines _ _ Hw) as (Hn & Hl & Hd).
  unfold Recover. cbn [w_open negb io_seek io_read read_ok f_data w_path].
  rewrite raw_lines_log by done. rewrite raw_lines_nl by done. cbn [rev app].
  rewrite tokens_app, Hd by done. cbn [tokens].
  destruct (Z.leb_spec maxRecordBytes (Z.of_nat (length t))); [lia|].
  destruct (tokens (raw_lines [] rest)) as [[|more ts] long]; [done|]. cbn [fst snd].
  destruct (bs ++ dropCR t :: more :: ts) as [|b ts2] eqn:E; [by destruct bs|].
  by rewrite (fold_pending_corrupt (dropCR t) more ts es bs Hw Hu Hne _ _ _ _ (eq_sym E)).
Qed.

(** A line that does not parse, with a line behind it that does not fit the
    buffer: the scan ends with the broken line still pending. *)
Lemma Recover_overlong path seq es bs t rest s : written es bs →
  newline ∉ t → Z.of_nat (length t) < maxRecordBytes →
  tokens (raw_lines [] rest) = ([], true) →
  Recover read_ok (open_wal path seq) (MkFile (log_bytes bs ++ t ++ newline :: rest) s) =
    (Err (ErrWrap "reading WAL" ErrTooLong), open_wal path seq).
Proof.
  intros Hw Ht Hlen Htok. destruct (written_lines _ _ Hw) as (Hn & Hl & Hd).
  unfold Recover. cbn [w_open negb io_seek io_read read_ok f_data w_path].
  rewrite raw_lines_log by done. rewrite raw_lines_nl by done. cbn [rev app].
  rewrite tokens_app, Hd by done. cbn [tokens].
  destruct (Z.leb_spec maxRecordBytes (Z.of_nat (length t))); [lia|]. rewrite Htok. cbn [fst snd].
  destruct (bs ++ [dropCR t]) as [|b ts] eqn:E; [by destruct bs|].
  by rewrite (fold_pending_log (dropCR t) es bs Hw 1 empty_fold b ts (eq_sym E)).
Qed.

(** ** Cutting a log anywhere *)

Lemma take_log n bs : ∃ k p,
  take n (log_bytes bs) = log_bytes (take k bs) ++ p ∧ (k <= length bs)%nat ∧
  (n < length (log_bytes (take (S k) bs)) ∨ k = length bs)%nat ∧
  (p = [] ∨ ∃ b q, bs !! k = Some b ∧ b = p ++ q).
Proof.
  revert n. induction bs as [|b bs IH]; intros n.
  { exists 0%nat, []. split_and!; [by destruct n|simpl; lia|by right|by left]. }
  unfold log_bytes. csimpl. fold (log_bytes bs).
  destruct (decide (n <= length b)%nat) as [Hn|Hn].
  - exists 0%nat, (take n b). rewrite <- app_assoc, take_app_le by done.
    split_and!; [done|lia| |].
    { left. cbn [take]. csimpl. rewrite !length_app. simpl. lia. }
    right. exists b, (drop n b). by rewrite take_drop.
  - destruct (IH (n - S (length b))%nat) as (k & p & Hk & Hle & Hlen & Hp).
    exists (S k), p. cbn [take]. csimpl. fold (log_bytes (take k bs)). fold (log_bytes (take (S k) bs)).
    rewrite take_app_ge by (rewrite length_app; simpl; lia).
    rewrite length_app. cbn [length]. replace (n - (length b + 1))%nat with (n - S (length b))%nat by lia.
    rewrite Hk. split_and!; [by rewrite <- !app_assoc|simpl; lia| |].
    + rewrite !length_app in *. cbn [length] in *. destruct Hlen; [left|right]; lia.
    + destruct Hp as [->|(b' & q & Hb & E)]; [by left|right]. eauto.
Qed.

Lemma log_bytes_take_mono i k bs : (i <= k)%nat →
  (length (log_bytes (take i bs)) <= length (log_bytes (take k bs)))%nat.
Proof.
  intros Hik. replace (take i bs) with (take i (take k bs)) by (rewrite take_take; f_equal; lia).
  rewrite <- (take_drop i (take k bs)) at 2. rewrite log_bytes_app, length_app. lia.
Qed.

Lemma written_take es bs k : written es bs → written (take k es) (take k bs).
Proof. apply Forall2_take. Qed.

Lemma written_length es bs : written es bs → length es = length bs.
Proof. apply Forall2_length. Qed.

(** A prefix of a record's line: nothing of it is read, unless it is all
    there. *)
Lemma prefix_newline b p q : record_line b → b = p ++ q → (newline ∉ p) ∧ dropCR p = p.
Proof.
  intros Hr ->. pose proof (record_line_newline _ Hr) as Hn. split; [set_solver|].
  unfold dropCR. destruct (rev p) as [|c r] eqn:E.
  { destruct p as [|d p]; [done|]. simpl in E. by destruct (rev p). }
  destruct Hr as [Hp _]. apply Forall_app in Hp as [Hp _].
  assert (c ∈ p) as Hc by (rewrite <- (rev_involutive p), E; simpl; set_solver).
  rewrite Forall_forall in Hp. specialize (Hp _ Hc).
  rewrite decide_False; [done|]. intros ->. by vm_compute in Hp.
Qed.

Lemma Recover_prefix path seq es bs e b p q s :
  written es bs → is_line e b → b = p ++ q → q ≠ [] →
  Recover read_ok (open_wal path seq) (MkFile (log_bytes bs ++ p) s) =
    (Ok (sorted_messages (replay es)), open_wal path (fo_maxSeq (replay es))).
Proof.
  intros Hw Hl E Hq. destruct p as [|c p]; [rewrite app_nil_r; by apply Recover_log|].
  destruct (prefix_newline _ _ _ (is_line_record _ _ Hl) E) as [Hn Hd].
  destruct Hl as (Hwr & Hm & Hlen). rewrite E in Hm, Hlen. rewrite length_app in Hlen.
  rewrite (Recover_torn path seq es bs) by (done || lia).
  rewrite Hd. unfold applyLine.
  destruct (marshal_torn e (c :: p) q Hwr Hm ltac:(done) Hq) as [-> _]. done.
Qed.

(** ** The live messages, as a list

    [contents] is what a log means: an enqueue appends its message unless the ID
    is live, a dequeue removes it. *)

Definition a_apply (l : list Message) (rec : logEntry) : list Message :=
  if bool_decide (Op rec = OP_ENQUEUE) then
    if bool_decide (le_ID rec = "" ∨ le_ID rec ∈ ID <$> l) then l else l ++ [record_message rec]
  else if bool_decide (Op rec = OP_DEQUEUE) then filter (λ m, ID m ≠ le_ID rec) l
  else l.

Definition contents_from (l : list Message) (es : list logEntry) : list Message :=
  foldl a_apply l (read_back <$> es).
Definition contents (es : list logEntry) : list Message := contents_from [] es.

(** The map of the fold and the list hold the same messages. *)
Record mirrors (st : Fold) (l : list Message) : Prop := {
  mi_ids : NoDup (ID <$> l);
  mi_named : Forall (λ m, ID m ≠ "") l;
  mi_live id m : fo_live st !! id = Some m ↔ m ∈ l ∧ ID m = id
}.

Lemma mirrors_none st l id : mirrors st l → (fo_live st !! id = None ↔ id ∉ ID <$> l).
Proof.
  intros Hm. rewrite eq_None_not_Some, list_elem_of_fmap. apply not_iff_compat.
  split.
  - intros [m [Hin <-]%(mi_live _ _ Hm)]. eauto.
  - intros (m & -> & Hin). exists m. by apply (mi_live _ _ Hm).
Qed.

Lemma mirrors_maxSeq st l n : mirrors st l → mirrors (MkFold (fo_live st) n) l.
Proof. intros [H1 H2 H3]. by split. Qed.

Lemma mirrors_insert st l m n : mirrors st l → ID m ∉ ID <$> l → ID m ≠ "" →
  mirrors (MkFold (<[ID m := m]> (fo_live st)) n) (l ++ [m]).
Proof.
  intros [Hn Hf Hl] Hm He. split.
  - rewrite fmap_app, NoDup_app. split_and!; [done| |apply NoDup_singleton].
    intros x Hx Hx'. apply list_elem_of_singleton in Hx' as ->. done.
  - apply Forall_app_2; [done|]. by repeat constructor.
  - intros id m'. cbn [fo_live]. rewrite elem_of_app, list_elem_of_singleton.
    destruct (decide (ID m = id)) as [<-|Hne].
    + rewrite lookup_insert_eq. split; [intros [= <-]; auto|].
      intros [[Hin| ->] E]; [|done]. exfalso. apply Hm. rewrite <- E. by apply list_elem_of_fmap_2.
    + rewrite lookup_insert_ne, Hl by done. naive_solver.
Qed.

Lemma mirrors_delete st l id n : mirrors st l →
  mirrors (MkFold (delete id (fo_live st)) n) (filter (λ m, ID m ≠ id) l).
Proof.
  intros [Hn Hf Hl]. split.
  - eapply sublist_NoDup; [exact Hn|]. apply fmap_sublist, sublist_filter.
  - rewrite Forall_forall in *. intros m [_ Hin]%list_elem_of_filter. auto.
  - intros id' m. cbn [fo_live]. rewrite list_elem_of_filter.
    destruct (decide (id = id')) as [<-|Hne].
    + rewrite lookup_delete_eq. naive_solver.
    + rewrite lookup_delete_ne, Hl by done. naive_solver.
Qed.

Lemma mirrors_apply st l rec : mirrors st l → mirrors (applyEntry st rec) (a_apply l rec).
Proof.
  intros Hm. unfold applyEntry, a_apply.
  set (st1 := if fo_maxSeq st <? le_Seq rec then MkFold (fo_live st) (le_Seq rec) else st).
  assert (mirrors st1 l) as Hm1 by (unfold st1; case_match; auto using mirrors_maxSeq).
  clearbody st1. case_bool_decide.
  - case_bool_decide as Hid.
    { rewrite bool_decide_eq_true_2 by auto. done. }
    destruct (fo_live st1 !! le_ID rec) as [m|] eqn:E.
    { rewrite bool_decide_eq_true_2; [done|]. right.
      apply (mi_live _ _ Hm1) in E as [Hin <-]. by apply list_elem_of_fmap_2. }
    apply (mirrors_none _ _ _ Hm1) in E. rewrite bool_decide_eq_false_2 by naive_solver.
    by apply (mirrors_insert st1 l (record_message rec)).
  - case_bool_decide; [|done]. case_bool_decide as Hid; [|by apply mirrors_delete].
    rewrite filter_id; [done|]. intros m Hin. rewrite Hid.
    pose proof (mi_named _ _ Hm1) as Hf. rewrite Forall_forall in Hf. auto.
Qed.

Lemma mirrors_empty : mirrors empty_fold [].
Proof.
  split; [constructor|constructor|]. intros id m. cbn [fo_live empty_fold]. rewrite lookup_empty.
  split; [done|]. intros [[]%not_elem_of_nil _].
Qed.

Lemma mirrors_replay_from st l es :
  mirrors st l → mirrors (replay_from st es) (contents_from l es).
Proof.
  unfold replay_from, contents_from. revert st l.
  induction (read_back <$> es) as [|e es' IH]; intros st l Hm; [done|]. simpl. auto using mirrors_apply.
Qed.

Lemma mirrors_replay es : mirrors (replay es) (contents es).
Proof. apply mirrors_replay_from, mirrors_empty. Qed.

(** ** Enqueue order *)

Definition seq_lt (a b : Message) : bool := seq_cmp a b <? 0.

Lemma seq_le a b : le seq_lt a b ↔
  Seq a < Seq b ∨ Seq a = Seq b ∧ String.le (ID a) (ID b).
Proof.
  unfold le, seq_lt, seq_cmp, String.le, String.leb.
  rewrite (String.compare_antisym (ID a) (ID b)).
  destruct (Z.eqb_spec (Seq b) (Seq a)) as [E|E]; cbn [negb].
  - destruct (String.compare (ID b) (ID a)); simpl;
      (split; [intros; try done; right; done|intros [|[_ ?]]; [lia|done]]).
  - destruct (Z.ltb_spec (Seq b) (Seq a)); simpl; (split; [intros; try done; lia|lia]).
Qed.

Lemma seq_weak_order : weak_order seq_lt (λ _, True).
Proof.
  split.
  - intros x y _ _ Hlt. destruct (seq_lt y x) eqn:E; [|done]. exfalso.
    assert (¬ le seq_lt y x) as H1 by (unfold le; congruence).
    assert (¬ le seq_lt x y) as H2 by (unfold le; congruence).
    rewrite seq_le in H1, H2. destruct (Z.lt_trichotomy (Seq x) (Seq y)) as [Hs|[Hs|Hs]].
    + apply H2. by left.
    + destruct (total String.le (ID x) (ID y)); [apply H2|apply H1]; right; done.
    + apply H1. left. lia.
  - intros x y z _ _ _. rewrite !seq_le. intros H1 H2.
    destruct H1 as [|[? H1]], H2 as [|[? H2]]; try (left; lia). right. split; [lia|by trans (ID y)].
Qed.

Lemma seq_distinguishes l : NoDup (ID <$> l) → distinguishes seq_lt l.
Proof.
  intros Hn x y Hx Hy. rewrite !seq_le. intros H1 H2.
  assert (ID x = ID y) as E.
  { destruct H1 as [|[? H1]], H2 as [|[? H2]]; try lia. by apply (anti_symm String.le). }
  clear H1 H2. apply list_elem_of_lookup in Hx as [i Hi], Hy as [j Hj].
  assert (i = j) as ->; [|congruence].
  eapply (NoDup_lookup (ID <$> l)); [done|by rewrite list_lookup_fmap, Hi|].
  rewrite list_lookup_fmap, Hj. simpl. by rewrite E.
Qed.

(** Messages in enqueue order. *)
Definition by_seq (l : list Message) : list Message := insertion_sort seq_lt l.

Lemma mirrors_perm st l : mirrors st l → (map_to_list (fo_live st)).*2 ≡ₚ l.
Proof.
  intros [Hn Hf Hl]. apply NoDup_Permutation.
  - pose proof (NoDup_map_to_list (fo_live st)) as Hm.
    assert (∀ kv, kv ∈ map_to_list (fo_live st) → kv.1 = ID kv.2) as Hk.
    { intros [k v] Hin%elem_of_map_to_list%Hl. by destruct Hin as [_ <-]. }
    revert Hm Hk. generalize (map_to_list (fo_live st)). intros kvs.
    induction 1 as [|[k v] kvs Hkv Hkvs IH]; intros Hk; csimpl; constructor.
    + intros ([k' v'] & -> & Hin)%list_elem_of_fmap. apply Hkv.
      pose proof (Hk (k, v') ltac:(by left)) as E1. pose proof (Hk (k', v') ltac:(by right)) as E2.
      simpl in *. by subst.
    + apply IH. intros kv Hin. apply Hk. by right.
  - by apply NoDup_fmap_1 in Hn.
  - intros m. rewrite list_elem_of_fmap. split.
    + intros ([k v] & -> & Hin%elem_of_map_to_list). by apply Hl in Hin as [? _].
    + intros Hin. exists (ID m, m). split; [done|]. apply elem_of_map_to_list. by apply Hl.
Qed.

Lemma mirrors_sorted st l : mirrors st l → sorted_messages st = by_seq l.
Proof.
  intros Hm. unfold sorted_messages, SortFunc, by_seq.
  apply (insertion_sort_proper _ _ seq_weak_order); [by apply Forall_true| |by apply mirrors_perm].
  apply seq_distinguishes. by apply (mi_ids _ _ Hm).
Qed.

(** Messages numbered in the order of the list are in enqueue order already. *)
Definition numbered (l : list Message) : Prop := StronglySorted (λ a b, Seq a < Seq b) l.

Lemma by_seq_numbered l : NoDup (ID <$> l) → numbered l → by_seq l = l.
Proof.
  intros Hn Hs. symmetry. apply (sort_canonical _ _ seq_weak_order); [by apply Forall_true| |done|].
  - by apply seq_distinguishes.
  - induction Hs as [|x l _ IH Hall]; constructor.
    + apply IH. by apply NoDup_cons in Hn as [_ ?].
    + eapply Forall_impl; [exact Hall|]. intros y Hy. apply seq_le. by left.
Qed.

Lemma replay_sorted es : sorted_messages (replay es) = by_seq (contents es).
Proof. apply mirrors_sorted, mirrors_replay. Qed.

(** The record counter resumes at the largest number in the log. *)
Lemma replay_maxSeq_from st es :
  fo_maxSeq (replay_from st es) = foldl Z.max (fo_maxSeq st) (le_Seq <$> es).
Proof.
  unfold replay_from. revert st. induction es as [|e es IH]; intros st; [done|]. csimpl. rewrite IH.
  f_equal. unfold applyEntry. cbn [read_back le_Seq].
  destruct (Z.ltb_spec (fo_maxSeq st) (le_Seq e)); repeat case_match; simpl; lia.
Qed.
End facts.
