(* ===== verification/WalTheorems.v ===== *)
(** * What the write-ahead log guarantees

    Reading back what was written, crashes at every byte, corruption, replay,
    the outcomes of an append, the tail, and two ways in which acknowledged
    records are lost. *)

From S2P Require Import Prelude GoTime GoStrconv GoUtf8 GoHeap GoSort GoJson GoJsonFacts GoTimeFormat Model.
From S2P Require Import Codec CodecFacts LogRecord Wal WalFacts.
From Stdlib Require Import Ascii.

Local Open Scope Z_scope.

Section theory.
Context `{LC : LogCodec} {LL : LogCodecLaws LC}.

(** ** Appends *)

(** The record an enqueue, or a dequeue, writes. *)
Definition enqueue_entry (io : append_io) (msg : Message) (w : WAL) : logEntry :=
  MkEntry recordVersion OP_ENQUEUE (wrap_u64 (w_seq w + 1)) (UTC (io_now io)) (ID msg) (Seq msg)
    (Payload msg) (Some (Priority msg)) (Some (EnqueuedAt msg)) (Some (AvailableAt msg))
    (if bool_decide (m_Status msg = "") then StatusPending else m_Status msg).

Definition dequeue_entry (io : append_io) (id : string) (w : WAL) : logEntry :=
  MkEntry recordVersion OP_DEQUEUE (wrap_u64 (w_seq w + 1)) (UTC (io_now io)) id 0 "" None None None "".

Definition next_wal (w : WAL) : WAL := MkWAL (w_open w) (w_path w) (wrap_u64 (w_seq w + 1)).

(** The append of a record, case by case. *)
Definition append_spec (context : string) (rec : logEntry) (io : append_io) (w : WAL) (f : File)
    : option error * WAL * File :=
  match marshal rec with
  | None => (Some (ErrWrap context (ErrWrap "marshaling WAL record" ErrJSON)), next_wal w, f)
  | Some b =>
      match io_write io, io_sync io with
      | Some (n, e), _ =>
          (Some (ErrWrap context (ErrWrap "writing WAL record" e)), next_wal w,
           MkFile (f_data f ++ take n (b ++ [newline])) (f_synced f))
      | None, Some e =>
          (Some (ErrWrap context (ErrWrap "syncing WAL" e)), next_wal w,
           MkFile (f_data f ++ b ++ [newline]) (f_synced f))
      | None, None =>
          (None, next_wal w,
           MkFile (f_data f ++ b ++ [newline]) (length (f_data f ++ b ++ [newline])))
      end
  end.

Lemma WriteEnqueue_spec io msg w f : w_open w = true → ID msg ≠ "" →
  WriteEnqueue io msg w f = append_spec "appending enqueue record" (enqueue_entry io msg w) io w f.
Proof.
  intros Ho Hid. unfold WriteEnqueue, append_spec, appendLocked.
  rewrite bool_decide_eq_false_2 by done. rewrite Ho. cbn [negb].
  unfold enqueue_entry. cbn [Op w_seq le_ID MsgSeq le_Payload le_Priority le_EnqueuedAt le_AvailableAt le_Status].
  destruct (marshal _) as [b|]; [|by unfold next_wal; rewrite Ho].
  destruct (io_write io) as [[n e]|]; [by unfold next_wal; rewrite Ho|].
  destruct (io_sync io); by unfold next_wal; rewrite Ho.
Qed.

Lemma WriteDequeue_spec io id w f : w_open w = true → id ≠ "" →
  WriteDequeue io id w f = append_spec "appending dequeue record" (dequeue_entry io id w) io w f.
Proof.
  intros Ho Hid. unfold WriteDequeue, append_spec, appendLocked.
  rewrite bool_decide_eq_false_2 by done. rewrite Ho. cbn [negb].
  unfold dequeue_entry. cbn [Op w_seq le_ID MsgSeq le_Payload le_Priority le_EnqueuedAt le_AvailableAt le_Status].
  destruct (marshal _) as [b|]; [|by unfold next_wal; rewrite Ho].
  destruct (io_write io) as [[n e]|]; [by unfold next_wal; rewrite Ho|].
  destruct (io_sync io); by unfold next_wal; rewrite Ho.
Qed.

Lemma enqueue_writable io msg w :
  message_ok msg → time_ok (UTC (io_now io)) = true → writable (enqueue_entry io msg w).
Proof. intros [Hs Hp He Ha] Ht. split; simpl; auto with go_arith. done. Qed.

Lemma dequeue_writable io id w :
  time_ok (UTC (io_now io)) = true → writable (dequeue_entry io id w).
Proof. intros Ht. split; simpl; auto with go_arith; done. Qed.

(** ** Replaying a log twice *)

(** What a record does to the message of one ID. *)
Definition step_id (id : string) (o : option Message) (rec : logEntry) : option Message :=
  if bool_decide (le_ID rec = id ∧ id ≠ "") then
    if bool_decide (Op rec = OP_ENQUEUE) then
      match o with Some _ => o | None => Some (record_message rec) end
    else if bool_decide (Op rec = OP_DEQUEUE) then None else o
  else o.

Lemma applyEntry_lookup st rec id :
  fo_live (applyEntry st rec) !! id = step_id id (fo_live st !! id) rec.
Proof.
  unfold applyEntry, step_id.
  set (st1 := if fo_maxSeq st <? le_Seq rec then MkFold (fo_live st) (le_Seq rec) else st).
  assert (fo_live st !! id = fo_live st1 !! id) as -> by (unfold st1; by case_match).
  clearbody st1. destruct (decide (le_ID rec = id)) as [<-|Hne].
  - repeat case_bool_decide; try naive_solver.
    + destruct (fo_live st1 !! le_ID rec) eqn:E; [done|]. cbn [fo_live]. by rewrite lookup_insert_eq.
    + cbn [fo_live]. by rewrite lookup_delete_eq.
  - rewrite (bool_decide_eq_false_2 (le_ID rec = id ∧ id ≠ "")) by naive_solver.
    repeat case_bool_decide; try done.
    + destruct (fo_live st1 !! le_ID rec) eqn:E; [done|]. cbn [fo_live]. by rewrite lookup_insert_ne.
    + cbn [fo_live]. by rewrite lookup_delete_ne.
Qed.

Lemma replay_from_lookup st es id :
  fo_live (replay_from st es) !! id = foldl (step_id id) (fo_live st !! id) (read_back <$> es).
Proof.
  unfold replay_from. revert st. induction (read_back <$> es) as [|e es' IH]; intros st; [done|].
  simpl. by rewrite IH, applyEntry_lookup.
Qed.

(** A sequence of records either determines the message whatever was there, or
    keeps the one that was there. *)
Lemma steps_constant_or_keep id es :
  (∀ o, foldl (step_id id) o es = foldl (step_id id) None es)
  ∨ (∀ m, foldl (step_id id) (Some m) es = Some m).
Proof.
  induction es as [|e es [IH|IH]]; simpl; [by right|..].
  - left. intros o. by rewrite (IH (step_id id o e)), (IH (step_id id None e)).
  - assert ((∀ o, step_id id o e = None) ∨ (∀ m, step_id id (Some m) e = Some m)) as [H|H].
    { unfold step_id. repeat case_bool_decide; auto. }
    + left. intros o. by rewrite !H.
    + right. intros m. by rewrite H.
Qed.

Lemma replay_twice es : fo_live (replay (es ++ es)) = fo_live (replay es).
Proof.
  apply map_eq. intros id. unfold replay. rewrite replay_from_app, !replay_from_lookup.
  cbn [fo_live empty_fold]. rewrite lookup_empty.
  destruct (steps_constant_or_keep id (read_back <$> es)) as [H|H]; [by rewrite (H (foldl _ _ _))|].
  destruct (foldl (step_id id) None (read_back <$> es)) as [m|] eqn:E; [by rewrite H|done].
Qed.

(** ** The tail *)

Lemma split_newlines_nl acc l r :
  newline ∉ l → split_newlines acc (l ++ newline :: r) = (rev acc ++ l) :: split_newlines [] r.
Proof.
  revert acc. induction l as [|c l IH]; intros acc Hl; cbn [app split_newlines].
  - rewrite decide_True by done. by rewrite app_nil_r.
  - rewrite decide_False by set_solver. rewrite IH by set_solver. simpl. by rewrite <- app_assoc.
Qed.

Lemma split_newlines_last acc l : newline ∉ l → split_newlines acc l = [rev acc ++ l].
Proof.
  revert acc. induction l as [|c l IH]; intros acc Hl; cbn [split_newlines]; [by rewrite app_nil_r|].
  rewrite decide_False by set_solver. rewrite IH by set_solver. simpl. by rewrite <- app_assoc.
Qed.

Lemma split_newlines_log bs p : Forall (λ b, newline ∉ b) bs → newline ∉ p →
  split_newlines [] (log_bytes bs ++ p) = bs ++ [p].
Proof.
  intros Hbs Hp. induction Hbs as [|b bs Hb _ IH]; [by apply split_newlines_last|].
  unfold log_bytes. csimpl. fold (log_bytes bs). rewrite <- !app_assoc. cbn [app].
  by rewrite split_newlines_nl, IH.
Qed.

(** Cutting the front off a log leaves a piece of a line and whole lines. *)
Lemma drop_log n bs p : Forall (λ b, newline ∉ b) bs → newline ∉ p → ∃ k frag,
  (k <= length bs)%nat ∧ (newline ∉ frag) ∧
  (drop n (log_bytes bs ++ p) = frag ++ newline :: log_bytes (drop k bs) ++ p
   ∨ drop n (log_bytes bs ++ p) = frag ∧ k = length bs).
Proof.
  intros Hbs Hp. revert n. induction Hbs as [|b bs Hb Hbs IH]; intros n.
  { exists 0%nat, (drop n p). split_and!; [simpl; lia| |by right].
    intros H. apply Hp. rewrite <- (take_drop n p). set_solver. }
  unfold log_bytes. csimpl. fold (log_bytes bs). rewrite <- !app_assoc.
  destruct (decide (n <= length b)%nat) as [Hn|Hn].
  - exists 1%nat, (drop n b). split_and!; [simpl; lia| |].
    + intros H. apply Hb. rewrite <- (take_drop n b). set_solver.
    + left. rewrite drop_app_le by done. done.
  - destruct (IH (n - S (length b))%nat) as (k & frag & Hk & Hf & Hd).
    exists (S k), frag. split_and!; [simpl; lia|done|].
    rewrite drop_app_ge by lia. cbn [app].
    replace (n - length b)%nat with (S (n - S (length b)))%nat by lia. cbn [drop].
    destruct Hd as [Hd|[Hd ->]]; [left|right]; by rewrite Hd.
Qed.

Lemma tail_of_split n bs p : Forall (λ b, newline ∉ b) bs → newline ∉ p → (0 < n)%nat → ∃ k,
  (k <= length bs)%nat ∧
  (tl (split_newlines [] (drop n (log_bytes bs ++ p))) = drop k bs ++ [p]
   ∨ tl (split_newlines [] (drop n (log_bytes bs ++ p))) = [] ∧ k = length bs).
Proof.
  intros Hbs Hp Hn. destruct (drop_log n bs p Hbs Hp) as (k & frag & Hk & Hf & [Hd|[Hd ->]]);
    rewrite Hd.
  - exists k. split; [done|]. left. rewrite split_newlines_nl by done. cbn [tl].
    apply split_newlines_log; [by apply Forall_drop|done].
  - exists (length bs). split; [done|]. right. by rewrite split_newlines_last.
Qed.

(** ** What a torn line shows in the tail: nothing. *)

Lemma TrimSpace_prefix c m : is_ascii c = true → is_space_chunk (Single c) = false →
  ∃ p q, TrimSpace (c :: m) = c :: p ∧ m = p ++ q.
Proof.
  intros Hc Hs. unfold TrimSpace. cbn [chunks]. rewrite Hc. cbn [drop_space]. rewrite Hs.
  assert (∀ cs, ∃ cs1 cs2, rev (drop_space (rev (Single c :: cs))) = Single c :: cs1 ∧ cs = cs1 ++ cs2) as H.
  { intros cs. induction cs as [|ch cs IH] using rev_ind.
    - exists [], []. split; [|done]. cbn [rev app drop_space]. by rewrite Hs.
    - rewrite app_comm_cons, rev_app_distr. cbn [rev app drop_space].
      destruct (is_space_chunk ch).
      + destruct IH as (cs1 & cs2 & E1 & E2). exists cs1, (cs2 ++ [ch]).
        split; [exact E1|]. by rewrite E2, app_assoc.
      + exists (cs ++ [ch]), []. split; [|by rewrite app_nil_r].
        change (rev (ch :: rev (Single c :: cs)) = Single c :: cs ++ [ch]).
        simpl. by rewrite rev_app_distr, rev_involutive. }
  destruct (H (chunks m)) as (cs1 & cs2 & -> & E).
  exists (cs1 ≫= chunk_bytes), (cs2 ≫= chunk_bytes). split; [done|].
  rewrite <- bind_app, <- E. symmetry. apply chunks_bytes.
Qed.

Lemma tail_record_line e b : is_line e b → tail_record b = Some b.
Proof.
  intros Hl. pose proof (is_line_record _ _ Hl) as Hr. destruct Hl as (Hw & Hm & _).
  unfold tail_record. rewrite (record_line_TrimSpace _ Hr).
  pose proof (marshal_valid _ _ Hw Hm) as Hv. destruct Hr as [_ [m ->]]. by rewrite Hv.
Qed.

Lemma tail_record_torn e p q : writable e → marshal e = Some (p ++ q) → q ≠ [] → tail_record p = None.
Proof.
  intros Hw Hm Hq. destruct p as [|c p]; [done|].
  destruct (marshal_line _ _ Hw Hm) as [_ [b Eb]]. simpl in Eb. injection Eb as -> _.
  destruct (TrimSpace_prefix "{" p eq_refl eq_refl) as (p1 & p2 & Et & ->).
  unfold tail_record. rewrite Et. rewrite app_comm_cons, <- app_assoc in Hm.
  destruct (marshal_torn e ("{"%char :: p1) (p2 ++ q) Hw Hm) as [_ ->]; [done|by destruct p2|done].
Qed.

Lemma omap_lines es bs : written es bs → omap tail_record bs = bs.
Proof.
  induction 1 as [|e b es bs Hl _ IH]; [done|]. cbn [omap list_omap].
  by rewrite (tail_record_line _ _ Hl), IH.
Qed.

(** A piece of a line behind the last record, or nothing. *)
Definition torn_piece (p : bytes) : Prop :=
  ∃ e q, writable e ∧ marshal e = Some (p ++ q) ∧ q ≠ [].

Lemma torn_piece_facts p : torn_piece p → (newline ∉ p) ∧ tail_record p = None.
Proof.
  intros (e & q & Hw & Hm & Hq). split.
  - pose proof (marshal_line _ _ Hw Hm) as Hr. by destruct (prefix_newline _ p q Hr eq_refl).
  - by eapply tail_record_torn.
Qed.

(** The lines of the window: the last lines of the log. *)
Lemma Tail_lines es bs p n : written es bs → torn_piece p → ∃ k, (k <= length bs)%nat ∧
  omap tail_record (let lines := split_newlines [] (drop n (log_bytes bs ++ p)) in
                    if (0 <? n)%nat then tl lines else lines) = drop k bs ∧ (n = 0%nat → k = 0%nat).
Proof.
  intros Hw Ht. destruct (torn_piece_facts p Ht) as [Hp Hr].
  destruct (written_lines _ _ Hw) as (Hn & _ & _).
  assert (∀ k, omap tail_record (drop k bs ++ [p]) = drop k bs) as Ho.
  { intros k. rewrite omap_app, (omap_lines (drop k es)) by (by apply Forall2_drop).
    cbn [omap list_omap]. by rewrite Hr, app_nil_r. }
  destruct (Nat.ltb_spec 0 n) as [Hpos|Hz].
  - destruct (tail_of_split n bs p Hn Hp Hpos) as (k & Hk & [E|[E ->]]); simpl; rewrite E.
    + exists k. split_and!; [done|apply Ho|lia].
    + exists (length bs). split_and!; [done|by rewrite drop_all|lia].
  - assert (n = 0%nat) as -> by lia. exists 0%nat. split_and!; [lia| |done].
    change (0 <? 0)%nat with false. cbn zeta iota. rewrite drop_0, split_newlines_log by done.
    apply (Ho 0%nat).
Qed.
End theory.

(** ** A sample log: two enqueues, then the first message is consumed *)

Module Sample.

Definition at_s (s : Z) : Time := MkTime (s * Second) None 0.
Definition base : Z := 1700000000.
Definition msg (id : string) (seq prio delay : Z) : Message :=
  MkMessage id seq ("payload of " +:+ id) prio (at_s (base + seq)) (at_s (base + seq + delay)) StatusPending.
Definition io (s : Z) : append_io := MkAppendIO (at_s (base + s)) None None.

Definition wal (n : Z) : WAL := MkWAL true "queue.wal" n.
Definition entries : list logEntry :=
  [enqueue_entry (io 1) (msg "a" 1 0 0) (wal 0);
   enqueue_entry (io 2) (msg "b" 2 5 60) (wal 1);
   dequeue_entry (io 3) "a" (wal 2)].
Definition lines : list bytes := Eval vm_compute in omap marshal entries.

Lemma is_line_dec e b :
  marshal e = Some b → writable e → (Z.of_nat (length b) <? maxRecordBytes) = true → is_line e b.
Proof. intros Hm Hw Hl. split; [done|]. split; [done|]. lia. Qed.

Lemma msg_ok id seq prio delay :
  in_u64 seq → in_i64 prio → time_ok (at_s (base + seq)) = true → time_ok (at_s (base + seq + delay)) = true →
  message_ok (msg id seq prio delay).
Proof. by split. Qed.

(** The side conditions of a sample record. *)
Ltac solve_msg := apply msg_ok; [unfold in_u64; lia|unfold in_i64; lia|by vm_compute|by vm_compute].
Ltac solve_line :=
  apply is_line_dec;
    [vm_compute; reflexivity
    |first [apply enqueue_writable; [solve_msg|by vm_compute] | apply dequeue_writable; by vm_compute]
    |vm_compute; reflexivity].

Lemma entries_written : written entries lines.
Proof.
  unfold written, entries, lines. repeat (apply Forall2_cons; split; [solve_line|]). apply Forall2_nil_2.
Qed.
End Sample.

(** C9: Recovery of a log file of whole records returns exactly the live
    messages of the log, in enqueue order, each as the JSON of its record
    carries it, and the record counter resumes at the largest number. *)
Theorem recover_reads_back_the_log path seq es bs s :
  written es bs →
  Recover read_ok (MkWAL true path seq) (MkFile (log_bytes bs) s) =
    (Ok (by_seq (contents es)), MkWAL true path (foldl Z.max 0 (le_Seq <$> es))).
Proof.
  intros Hw. rewrite (Recover_log path seq es bs s Hw), replay_sorted.
  unfold replay. by rewrite replay_maxSeq_from.
Qed.

Lemma recover_reads_back_the_log_witness :
  Recover read_ok (Sample.wal 0) (MkFile (log_bytes Sample.lines) 0) =
    (Ok [Sample.msg "b" 2 5 60], Sample.wal 3).
Proof.
  etrans; [apply (recover_reads_back_the_log "queue.wal" 0 Sample.entries Sample.lines 0)|].
  - apply Sample.entries_written.
  - vm_compute. reflexivity.
Defined.

(** C10: Cutting a log at any byte, as a crash may, loses whole records from its
    end and nothing else: recovery succeeds and returns the messages of the
    first [j] records, where [j] counts at least every record whose line lies
    within the bytes that survived. *)
Theorem crash_recovers_a_prefix path seq es bs n s :
  written es bs → ∃ j, (j <= length es)%nat
    ∧ (∀ i, (i <= length es)%nat → (length (log_bytes (take i bs)) <= n)%nat → (i <= j)%nat)
    ∧ Recover read_ok (MkWAL true path seq) (MkFile (take n (log_bytes bs)) s) =
        (Ok (by_seq (contents (take j es))), MkWAL true path (fo_maxSeq (replay (take j es)))).
Proof.
  intros Hw. pose proof (written_length _ _ Hw) as Hlen.
  destruct (take_log n bs) as (k & p & -> & Hk & Hn & Hp).
  assert (∀ j, (k <= j)%nat → ∀ i, (i <= length es)%nat →
    (length (log_bytes (take i bs)) <= n)%nat → (i <= j)%nat) as Hdur.
  { intros j Hj i Hi Hin. destruct (decide (i <= k)%nat); [lia|].
    pose proof (log_bytes_take_mono (S k) i bs ltac:(lia)). lia. }
  destruct Hp as [->|(b & q & Hb & Eb)].
  - exists k. rewrite app_nil_r, (Recover_log _ _ (take k es)) by (by apply written_take).
    rewrite replay_sorted. split_and!; [lia|by apply Hdur|done].
  - destruct (Forall2_lookup_r _ _ _ _ _ Hw Hb) as (e & He & Hl).
    destruct q as [|c q].
    + exists (S k). rewrite app_nil_r in Eb. subst p.
      pose proof (lookup_lt_Some _ _ _ He). split_and!; [lia|apply Hdur; lia|].
      pose proof (is_line_record _ _ Hl) as Hr.
      rewrite (Recover_torn path seq (take k es) (take k bs) b);
        [|by apply written_take|by apply record_line_newline|by apply record_line_nonempty
         |by destruct Hl as (_ & _ & ?)].
      rewrite (record_line_dropCR _ Hr), (is_line_apply _ _ _ Hl). cbn [default].
      rewrite (take_S_r es k e He), <- replay_sorted. unfold replay. by rewrite replay_from_app.
    + exists k. rewrite (Recover_prefix path seq (take k es) (take k bs) e b p (c :: q));
        [|by apply written_take|done|done|done].
      rewrite replay_sorted. split_and!; [lia|by apply Hdur|done].
Qed.

Lemma crash_recovers_a_prefix_witness : ∃ j, (j <= 3)%nat
    ∧ (∀ i, (i <= 3)%nat → (length (log_bytes (take i Sample.lines)) <= 400)%nat → (i <= j)%nat)
    ∧ Recover read_ok (Sample.wal 0) (MkFile (take 400 (log_bytes Sample.lines)) 0) =
        (Ok (by_seq (contents (take j Sample.entries))),
         MkWAL true "queue.wal" (fo_maxSeq (replay (take j Sample.entries)))).
Proof.
  apply (crash_recovers_a_prefix "queue.wal" 0 Sample.entries Sample.lines 400 0).
  apply Sample.entries_written.
Defined.

(** A line read as it stands: what a corrupt line must satisfy. *)
Definition unreadable (t : bytes) : Prop :=
  (newline ∉ t) ∧ Z.of_nat (length t) < maxRecordBytes ∧ dropCR t ≠ [] ∧ unmarshal (dropCR t) = None.

Lemma raw_lines_head l : l ≠ [] → ∃ x ls, raw_lines [] l = x :: ls ∧ (length x <= length l)%nat.
Proof.
  intros Hl. assert (∀ l acc, acc ++ l ≠ [] → ∃ x ls, raw_lines acc l = x :: ls ∧
    (length x <= length acc + length l)%nat) as H.
  { clear. induction l as [|c l IH]; intros acc Hne; cbn [raw_lines].
    - destruct acc as [|c acc]; [done|]. eexists _, _. split; [done|]. rewrite length_rev. simpl. lia.
    - case_decide; [eexists _, _; split; [done|]; rewrite length_rev; lia|].
      destruct (IH (c :: acc)) as (x & ls & E & Hx); [done|]. eexists _, _. split; [done|].
      simpl in *. lia. }
  by apply (H l []).
Qed.

(** The first line of what follows does not fit the scanner's buffer. *)
Definition overlong (rest : bytes) : bool :=
  match raw_lines [] rest with
  | x :: _ => maxRecordBytes <=? Z.of_nat (length x)
  | [] => false
  end.

Lemma overlong_tokens rest : rest ≠ [] →
  tokens (raw_lines [] rest) = ([], true) ∧ overlong rest = true ∨
  (tokens (raw_lines [] rest)).1 ≠ [] ∧ overlong rest = false.
Proof.
  intros Hr. unfold overlong. destruct (raw_lines_head rest Hr) as (x & ls & -> & _). cbn [tokens].
  destruct (maxRecordBytes <=? Z.of_nat (length x)); [by left|right]. by destruct (tokens ls).
Qed.

(** C28: A line that does not parse and has anything behind it, however much,
    makes recovery fail with no state built and the counter left alone.  The
    error names the line, unless the line right behind it does not fit the
    scanner's buffer: the scan then ends before the broken line is parsed, and
    the error is that of the scanner. *)
Theorem corrupt_line_is_an_error path seq es bs t rest s :
  written es bs → unreadable t → rest ≠ [] →
  Recover read_ok (MkWAL true path seq) (MkFile (log_bytes bs ++ t ++ newline :: rest) s) =
    (Err (if overlong rest then ErrWrap "reading WAL" ErrTooLong
          else ErrWrap ("corrupt WAL record at line " +:+ Itoa (1 + Z.of_nat (length bs))) ErrJSON),
     MkWAL true path seq).
Proof.
  intros Hw (Hn & Hlen & Hne & Hu) Hrest.
  destruct (overlong_tokens rest Hrest) as [[Ht ->]|[Ht ->]].
  - by apply (Recover_overlong path seq es).
  - by apply (Recover_corrupt path seq es).
Qed.

Lemma corrupt_line_is_an_error_witness :
  Recover read_ok (Sample.wal 0)
    (MkFile (log_bytes Sample.lines ++ to_bytes "{oops" ++ newline :: to_bytes "{}") 0) =
    (Err (ErrWrap "corrupt WAL record at line 4" ErrJSON), Sample.wal 0).
Proof.
  apply (corrupt_line_is_an_error "queue.wal" 0 Sample.entries Sample.lines (to_bytes "{oops") (to_bytes "{}") 0).
  - apply Sample.entries_written.
  - split; [|split_and!; vm_compute; done].
    assert (bool_decide (newline ∉ to_bytes "{oops") = true) as H by (vm_compute; reflexivity).
    by apply bool_decide_eq_true in H.
  - done.
Defined.

(** An append the system carries out in full, of a message that can be
    written. *)
Record clean_append (io : append_io) (msg : Message) : Prop := {
  ca_message : message_ok msg;
  ca_id : ID msg ≠ "";
  ca_write : io_write io = None;
  ca_sync : io_sync io = None;
  ca_now : time_ok (UTC (io_now io)) = true
}.

(** C33: After a crash has left a torn line, recovery succeeds but leaves the
    piece in the file, and the next append lands behind it on the same line.
    That append is acknowledged and synced, yet its message is gone at the next
    recovery; and once a second append has followed, recovery fails. *)
Theorem torn_tail_swallows_the_next_record path seq es bs e p q s io msg io' msg' b b' :
  let w1 := MkWAL true path (fo_maxSeq (replay es)) in
  written es bs → is_line e (p ++ q) → p ≠ [] → q ≠ [] →
  clean_append io msg → marshal (enqueue_entry io msg w1) = Some b →
  clean_append io' msg' → marshal (enqueue_entry io' msg' (next_wal w1)) = Some b' →
  Z.of_nat (length p + length b + length b' + 1) < maxRecordBytes →
  ∃ w2 f2 w3 f3,
    Recover read_ok (MkWAL true path seq) (MkFile (log_bytes bs ++ p) s) = (Ok (by_seq (contents es)), w1)
    ∧ WriteEnqueue io msg w1 (MkFile (log_bytes bs ++ p) s) = (None, w2, f2)
    ∧ f_synced f2 = length (f_data f2)
    ∧ (Recover read_ok w2 f2).1 = Ok (by_seq (contents es))
    ∧ WriteEnqueue io' msg' w2 f2 = (None, w3, f3)
    ∧ ∃ err, (Recover read_ok w3 f3).1 = Err err.
Proof.
  intros w1 Hw Hl Hp Hq [Hm Hid Hiw His Hit] Hb [Hm' Hid' Hiw' His' Hit'] Hb' Hlen.
  rewrite (Recover_prefix path seq es bs e (p ++ q) p q s Hw Hl eq_refl Hq), replay_sorted.
  pose proof (marshal_line _ _ (enqueue_writable io msg w1 Hm Hit) Hb) as Hrb.
  pose proof (marshal_line _ _ (enqueue_writable io' msg' (next_wal w1) Hm' Hit') Hb') as Hrb'.
  pose proof Hl as (Hwe & Hme & _).
  destruct (marshal_glued _ _ _ _ _ Hwe (enqueue_writable io msg w1 Hm Hit) Hme Hp Hq Hb) as [Hglue _].
  assert (newline ∉ p ++ b) as Hnl.
  { pose proof (record_line_newline _ Hrb).
    destruct (prefix_newline _ p q (is_line_record _ _ Hl) eq_refl) as [Hpn _].
    by apply not_elem_of_app. }
  assert (dropCR (p ++ b) = p ++ b) as Hcr.
  { destruct Hrb as [_ [m ->]]. unfold dropCR. by rewrite app_comm_cons, app_assoc, rev_app_distr. }
  assert (p ++ b ≠ []) as Hne by (by destruct p).
  assert ((log_bytes bs ++ p) ++ b ++ [newline] = log_bytes bs ++ (p ++ b) ++ [newline]) as Ed
    by (by rewrite <- !app_assoc).
  eexists (next_wal w1), _, (next_wal (next_wal w1)), _. split_and!; [done| | | | |].
  - rewrite WriteEnqueue_spec by done. unfold append_spec. by rewrite Hb, Hiw, His.
  - done.
  - cbn [f_data]. rewrite Ed. change (next_wal w1) with (MkWAL true path (wrap_u64 (w_seq w1 + 1))).
    rewrite (Recover_tokens _ _ _ _ (bs ++ [p ++ b])).
    + rewrite (fold_tokens_torn es bs) by done. unfold applyLine. rewrite Hglue.
      rewrite <- replay_sorted. by destruct (p ++ b).
    + destruct (written_lines _ _ Hw) as (Hn & Hll & Hd).
      rewrite raw_lines_log, raw_lines_nl by done. rewrite tokens_app, Hd by done.
      cbn [tokens raw_lines rev app]. rewrite length_app.
      destruct (Z.leb_spec maxRecordBytes (Z.of_nat (length p + length b))); [lia|]. cbn. by rewrite Hcr.
  - rewrite WriteEnqueue_spec by done. unfold append_spec. by rewrite Hb', Hiw', His'.
  - eexists. cbn [f_data]. rewrite Ed. rewrite <- !app_assoc. cbn [app].
    change (next_wal (next_wal w1)) with (MkWAL true path (wrap_u64 (w_seq (next_wal w1) + 1))).
    rewrite (app_assoc p b).
    rewrite (Recover_corrupt _ _ es bs (p ++ b)); [done|done|done| | | | |].
    + rewrite length_app. lia.
    + by rewrite Hcr.
    + by rewrite Hcr.
    + by destruct b'.
    + destruct (raw_lines_head (b' ++ [newline])) as (x & ls & -> & Hx); [by destruct b'|]. cbn [tokens].
      rewrite length_app in Hx. simpl in Hx.
      destruct (Z.leb_spec maxRecordBytes (Z.of_nat (length x))); [lia|]. by destruct (tokens ls).
Qed.

Lemma torn_tail_swallows_the_next_record_witness : ∃ w2 f2 w3 f3,
    Recover read_ok (Sample.wal 0) (MkFile (log_bytes (take 1 Sample.lines) ++ to_bytes "{") 0)
      = (Ok [Sample.msg "a" 1 0 0], Sample.wal 1)
    ∧ WriteEnqueue (Sample.io 4) (Sample.msg "c" 4 0 0) (Sample.wal 1)
        (MkFile (log_bytes (take 1 Sample.lines) ++ to_bytes "{") 0) = (None, w2, f2)
    ∧ f_synced f2 = length (f_data f2)
    ∧ (Recover read_ok w2 f2).1 = Ok [Sample.msg "a" 1 0 0]
    ∧ WriteEnqueue (Sample.io 5) (Sample.msg "d" 5 0 0) w2 f2 = (None, w3, f3)
    ∧ ∃ err, (Recover read_ok w3 f3).1 = Err err.
Proof.
  assert (by_seq (contents (take 1 Sample.entries)) = [Sample.msg "a" 1 0 0]) as E
    by (vm_compute; reflexivity).
  pose (b := default [] (marshal (enqueue_entry (Sample.io 4) (Sample.msg "c" 4 0 0) (Sample.wal 1)))).
  pose (b' := default [] (marshal (enqueue_entry (Sample.io 5) (Sample.msg "d" 5 0 0) (Sample.wal 2)))).
  rewrite <- E.
  apply (torn_tail_swallows_the_next_record "queue.wal" 0 (take 1 Sample.entries) (take 1 Sample.lines)
    (enqueue_entry (Sample.io 2) (Sample.msg "b" 2 5 60) (Sample.wal 1)) (to_bytes "{")
    (tl (nth 1 Sample.lines [])) 0 (Sample.io 4) (Sample.msg "c" 4 0 0) (Sample.io 5) (Sample.msg "d" 5 0 0) b b').
  - apply written_take, Sample.entries_written.
  - apply (proj1 (Forall2_cons _ _ _ _ _) (proj2 (proj1 (Forall2_cons _ _ _ _ _) Sample.entries_written))).
  - done.
  - vm_compute. discriminate.
  - split; [Sample.solve_msg|done|done|done|by vm_compute].
  - vm_compute. reflexivity.
  - split; [Sample.solve_msg|done|done|done|by vm_compute].
  - vm_compute. reflexivity.
  - vm_compute. reflexivity.
Defined.

(** C27: Every append, whatever the system answers: a success means the whole
    line is behind the old data and synced; a failure leaves the old data with
    at most a prefix of the line behind it and syncs nothing; the record
    counter moves by one on an open log, also when the append fails. *)
Theorem append_outcomes io msg w f :
  let '(err, w', f') := WriteEnqueue io msg w f in
  let line := default [] (marshal (enqueue_entry io msg w)) ++ [newline] in
  match err with
  | None => w_open w = true ∧ ID msg ≠ "" ∧ is_Some (marshal (enqueue_entry io msg w))
      ∧ f_data f' = f_data f ++ line ∧ f_synced f' = length (f_data f')
      ∧ w' = next_wal w
  | Some e => f_synced f' = f_synced f ∧ (∃ n, f_data f' = f_data f ++ take n line)
      ∧ (w' = w ∧ f' = f ∧ (ID msg = "" ∧ e = ErrEmptyID
                             ∨ w_open w = false ∧ errors_Is e "storage.ErrClosed" = true)
         ∨ w' = next_wal w ∧ w_open w = true
           ∧ (marshal (enqueue_entry io msg w) = None ∨ is_Some (io_write io) ∨ is_Some (io_sync io)))
  end.
Proof.
  destruct (WriteEnqueue io msg w f) as [[err w'] f'] eqn:E.
  assert (∀ l : bytes, ∃ n, f_data f = f_data f ++ take n l) as H0
    by (intros l; exists 0%nat; by rewrite app_nil_r).
  destruct (decide (ID msg = "")) as [Hid|Hid].
  { unfold WriteEnqueue in E. rewrite bool_decide_eq_true_2 in E by done. injection E as <- <- <-.
    split_and!; [done|apply H0|left]. split_and!; [done|done|by left]. }
  destruct (w_open w) eqn:Ho.
  2: { unfold WriteEnqueue, appendLocked in E. rewrite bool_decide_eq_false_2, Ho in E by done.
       injection E as <- <- <-. split_and!; [done|apply H0|left]. split_and!; [done|done|by right]. }
  rewrite WriteEnqueue_spec in E by done. unfold append_spec in E.
  destruct (marshal _) as [b|] eqn:Eb.
  2: { injection E as <- <- <-. split_and!; [done|apply H0|right]. split_and!; [done|done|by left]. }
  cbn [default]. destruct (io_write io) as [[n e]|] eqn:Ew.
  { injection E as <- <- <-. split_and!; [done|by exists n|right]. split_and!; [done|done|].
    right; left. by eexists. }
  destruct (io_sync io) as [e|] eqn:Es; injection E as <- <- <-.
  - split_and!; [done| |right; split_and!; [done|done|right; right; by eexists]].
    exists (length (b ++ [newline])). by rewrite take_ge.
  - split_and!; done || by eexists.
Qed.

(** Replaying a log a second time changes nothing: recovery from the log
    written twice gives the same messages. *)
Theorem replay_is_idempotent path seq es bs s :
  written es bs →
  (Recover read_ok (MkWAL true path seq) (MkFile (log_bytes (bs ++ bs)) s)).1 =
  (Recover read_ok (MkWAL true path seq) (MkFile (log_bytes bs) s)).1.
Proof.
  intros Hw. rewrite (Recover_log _ _ (es ++ es)), (Recover_log _ _ es) by auto using written_app.
  cbn [fst]. unfold sorted_messages. by rewrite replay_twice.
Qed.

Lemma replay_is_idempotent_witness :
  (Recover read_ok (Sample.wal 0) (MkFile (log_bytes (Sample.lines ++ Sample.lines)) 0)).1 =
  (Recover read_ok (Sample.wal 0) (MkFile (log_bytes Sample.lines) 0)).1.
Proof. apply (replay_is_idempotent _ _ Sample.entries), Sample.entries_written. Defined.

(** C31: The tail of a log shows its newest records, byte for byte and in log
    order, whether or not a torn line is behind them: all of them when the file
    fits the window and the limit, at most [limit] when there is a limit, and it
    says so whenever older records are left out. *)
Theorem tail_shows_the_newest_records path seq es bs p s limit :
  written es bs → torn_piece p →
  let size := Z.of_nat (length (log_bytes bs ++ p)) in
  ∃ k truncated, (k <= length bs)%nat ∧
    Tail read_ok limit (MkWAL true path seq) (MkFile (log_bytes bs ++ p) s) =
      Ok (MkWalTail path size truncated (drop k bs))
    ∧ (0 < limit → Z.of_nat (length (drop k bs)) <= limit)
    ∧ ((0 < k)%nat → truncated = true)
    ∧ (size <= tailWindowBytes →
        k = (if (0 <? limit)%Z then length bs - Z.to_nat limit else 0)%nat ∧ truncated = (0 <? k)%nat).
Proof.
  intros Hw Ht size. unfold Tail. cbn [w_open negb io_stat io_seek io_read read_ok f_data w_path].
  fold size. set (start := if tailWindowBytes <? size then size - tailWindowBytes else 0).
  destruct (Tail_lines es bs p (Z.to_nat start) Hw Ht) as (k & Hk & Ho & Hz).
  assert ((0 <? Z.to_nat start)%nat = (0 <? start)) as Eb
    by (destruct (Nat.ltb_spec 0 (Z.to_nat start)), (Z.ltb_spec 0 start); lia).
  rewrite Eb in Ho. cbn zeta in Ho |- *. rewrite Ho. clear Ho Eb.
  assert (length (drop k bs) = (length bs - k)%nat) as Hl by apply length_drop.
  set (capped := (0 <? limit) && (limit <? Z.of_nat (length (drop k bs)))).
  exists (if capped then (length bs - Z.to_nat limit)%nat else k), ((0 <? start) || capped).
  assert (size <= tailWindowBytes → start = 0 ∧ k = 0%nat) as Hwin.
  { intros Hs. subst start. destruct (Z.ltb_spec tailWindowBytes size); [lia|]. split; [done|].
    apply Hz. done. }
  assert (capped = true → 0 < limit ∧ limit < Z.of_nat (length bs) - Z.of_nat k) as Hcap by (subst capped; lia).
  split_and!.
  - destruct capped; lia.
  - destruct capped; [|done]. do 2 f_equal. rewrite drop_drop. f_equal. specialize (Hcap eq_refl). lia.
  - intros Hlim. rewrite length_drop. subst capped. destruct (Z.ltb_spec 0 limit); [|lia]. simpl.
    destruct (Z.ltb_spec limit (Z.of_nat (length (drop k bs)))); lia.
  - intros Hpos. destruct capped; [by rewrite orb_true_r|]. destruct (Z.ltb_spec 0 start); [done|].
    rewrite Hz in Hpos by lia. lia.
  - intros [Es Ek]%Hwin. subst k. rewrite Es. subst capped. rewrite drop_0.
    change (0 <? 0) with false. cbn [orb].
    destruct (Z.ltb_spec 0 limit); cbn [andb]; [|done].
    destruct (Z.ltb_spec limit (Z.of_nat (length bs))).
    + split; [done|]. destruct (Nat.ltb_spec 0 (length bs - Z.to_nat limit)); [done|lia].
    + split; [lia|done].
Qed.

Lemma tail_shows_the_newest_records_witness :
  let size := Z.of_nat (length (log_bytes Sample.lines ++ to_bytes "{")) in
  ∃ k truncated, (k <= 3)%nat ∧
    Tail read_ok 2 (Sample.wal 0) (MkFile (log_bytes Sample.lines ++ to_bytes "{") 0) =
      Ok (MkWalTail "queue.wal" size truncated (drop k Sample.lines))
    ∧ (0 < 2 → Z.of_nat (length (drop k Sample.lines)) <= 2)
    ∧ ((0 < k)%nat → truncated = true)
    ∧ (size <= tailWindowBytes → k = 1%nat ∧ truncated = (0 <? k)%nat).
Proof.
  apply (tail_shows_the_newest_records "queue.wal" 0 Sample.entries Sample.lines (to_bytes "{") 0 2).
  - apply Sample.entries_written.
  - exists (enqueue_entry (Sample.io 1) (Sample.msg "a" 1 0 0) (Sample.wal 0)), (tl (nth 0 Sample.lines [])).
    split; [|split; [vm_compute; reflexivity|vm_compute; discriminate]].
    apply enqueue_writable; [Sample.solve_msg|by vm_compute].
Defined.

(** ** Records too long to be read again *)

Lemma raw_lines_long bs b rest : Forall (λ b, newline ∉ b) bs → (newline ∉ b) →
  raw_lines [] (log_bytes bs ++ b ++ newline :: rest) = bs ++ b :: raw_lines [] rest.
Proof. intros Hbs Hb. by rewrite raw_lines_log, raw_lines_nl. Qed.

(** C34: The log accepts a record that recovery will not read: an enqueue with a
    payload of [maxRecordBytes] or more is acknowledged and synced, and from
    then on every recovery fails, whatever is appended later. *)
Theorem oversized_record_blocks_recovery path seq es bs s io msg :
  written es bs → clean_append io msg →
  maxRecordBytes <= Z.of_nat (String.length (Payload msg)) →
  ∃ w' f', WriteEnqueue io msg (MkWAL true path seq) (MkFile (log_bytes bs) s) = (None, w', f')
    ∧ f_synced f' = length (f_data f')
    ∧ ∀ more w'', w_open w'' = true →
        (Recover read_ok w'' (MkFile (f_data f' ++ more) 0)).1 = Err (ErrWrap "reading WAL" ErrTooLong).
Proof.
  intros Hw [Hm Hid Hiw His Hit] Hlong. set (w := MkWAL true path seq).
  destruct (marshal_writable (enqueue_entry io msg w)) as [b Hb]; [by apply enqueue_writable|].
  pose proof (enqueue_writable io msg w Hm Hit) as Hwr.
  pose proof (marshal_length _ _ Hwr Hb) as Hl. cbn [enqueue_entry le_Payload] in Hl.
  pose proof (record_line_newline _ (marshal_line _ _ Hwr Hb)) as Hn.
  eexists _, _. split_and!.
  - rewrite WriteEnqueue_spec by done. unfold append_spec. by rewrite Hb, Hiw, His.
  - done.
  - intros more [o path' seq'] Ho. cbn [w_open] in Ho. subst o. cbn [f_data].
    destruct (written_lines _ _ Hw) as (Hbs & Hll & Hd).
    unfold Recover. cbn [w_open negb io_seek io_read read_ok f_data].
    rewrite <- !app_assoc. cbn [app]. rewrite raw_lines_long by done.
    rewrite tokens_app, Hd by done. cbn [tokens].
    destruct (Z.leb_spec maxRecordBytes (Z.of_nat (length b))); [|lia]. cbn [fst snd]. rewrite app_nil_r.
    destruct bs as [|b0 bs]; [done|].
    inversion Hw as [|e0 ? es' ? Hl0 Hw']; subst.
    destruct (exists_last (l := b0 :: bs)) as (bs1 & b1 & E); [done|].
    destruct (exists_last (l := e0 :: es')) as (es1 & e1 & Ee); [done|].
    rewrite E, Ee in Hw. apply Forall2_app_inv in Hw as [Hw1 _].
    2: { apply (f_equal length) in E, Ee. apply Forall2_length in Hw. rewrite !length_app in *. simpl in *. lia. }
    by rewrite (fold_pending_log b1 es1 bs1 Hw1 1 empty_fold b0 bs E).
Qed.

Lemma length_of_bytes l : String.length (of_bytes l) = length l.
Proof. by rewrite <- length_to_bytes, to_of_bytes. Qed.

Lemma oversized_record_blocks_recovery_witness :
  let payload := of_bytes (replicate (Z.to_nat maxRecordBytes) "x"%char) in
  let msg := MkMessage "big" 1 payload 0 (Sample.at_s Sample.base) (Sample.at_s Sample.base) StatusPending in
  ∃ w' f', WriteEnqueue (Sample.io 0) msg (Sample.wal 0) (MkFile (log_bytes []) 0) = (None, w', f')
    ∧ f_synced f' = length (f_data f')
    ∧ ∀ more w'', w_open w'' = true →
        (Recover read_ok w'' (MkFile (f_data f' ++ more) 0)).1 = Err (ErrWrap "reading WAL" ErrTooLong).
Proof.
  intros payload msg.
  apply (oversized_record_blocks_recovery "queue.wal" 0 [] [] 0 (Sample.io 0) msg).
  - apply Forall2_nil_2.
  - split; [split; unfold in_u64, in_i64; simpl; try lia; by vm_compute|done|done|done|by vm_compute].
  - cbn [msg Payload]. unfold payload. rewrite length_of_bytes, length_replicate.
    rewrite Z2Nat.id; [apply Z.le_refl|]. vm_compute. discriminate.
Defined.
