(* ===== verification/Service.v ===== *)
(** * [pkg/service]: the durable queue

    A [QueueService] owns the engine's queue, the open log, the message counter
    and the closed flag; the log file is threaded beside it.  What a call gets
    from outside is an argument: the reading of the service's clock ([s.now()]),
    the bytes of [rand.Read], the answers of the file system.  The service lock
    makes each call one step.  [None] is a panic of the engine. *)

From S2P Require Import Prelude GoTime GoStrconv GoJson Model Engine LogRecord.
From S2P Require Wal.
From Stdlib Require Import Ascii.

Import Wal (WAL, File, append_io, read_io, f_data, f_synced).

Local Open Scope Z_scope.

Definition ErrClosed : error := ErrVar "service.ErrClosed".

Record QueueService := MkService {
  s_queue : FrankensteinQueue;
  s_wal : WAL;
  s_seq : Z;          (** uint64 *)
  s_closed : bool
}.

(** ** Message IDs *)

(** [fmt.Sprintf("%x", b)] of a byte slice. *)
Definition hex_bytes (l : list Z) : bytes := l ≫= λ b, [hex_digit (b / 16); hex_digit (b mod 16)].

(** [newUUID]: the argument is what [rand.Read] does with the 16 bytes. *)
Definition newUUID (random : result (list Z)) : result string :=
  match random with
  | Err e => Err e
  | Ok b =>
      let b := alter (λ x, Z.lor (Z.land x 15) 64) 6%nat b in
      let b := alter (λ x, Z.lor (Z.land x 63) 128) 8%nat b in
      let part i j := hex_bytes (take (j - i)%nat (drop i b)) in
      Ok (of_bytes (part 0%nat 4%nat ++ "-"%char :: part 4%nat 6%nat ++ "-"%char :: part 6%nat 8%nat
        ++ "-"%char :: part 8%nat 10%nat ++ "-"%char :: part 10%nat 16%nat))
  end.

Section service.
Context `{LogCodec}.

(** ** Opening *)

(** [for _, msg := range recovered { q.Push(msg); ... }] *)
Fixpoint push_recovered (msgs : list Message) (q : FrankensteinQueue) (maxSeq : Z)
    : option (FrankensteinQueue * Z) :=
  match msgs with
  | [] => Some (q, maxSeq)
  | msg :: msgs =>
      q ← Push q msg;
      push_recovered msgs q (if maxSeq <? Seq msg then Seq msg else maxSeq)
  end.

(** [NewQueueService] on the file [f]. *)
Definition NewQueueService (walPath : string) (mode : QueueMode) (open_err : option error)
    (io : read_io) (f : File) : option (result QueueService) :=
  if negb (Valid mode) then Some (Err (ErrInvalidMode mode))
  else match Wal.NewWAL walPath open_err with
  | Err e => Some (Err e)
  | Ok wal =>
      match NewFrankensteinQueue mode with
      | Err e => Some (Err e)
      | Ok q =>
          match Wal.Recover io wal f with
          | (Err e, _) => Some (Err (ErrWrap "recovering WAL" e))
          | (Ok recovered, wal) =>
              '(q, maxSeq) ← push_recovered recovered q 0;
              Some (Ok (MkService q wal maxSeq false))
          end
      end
  end.

(** ** Calls *)

(** [Enqueue(req)]. *)
Definition Enqueue (now : Time) (random : result (list Z)) (io : append_io) (req : EnqueueRequest)
    (s : QueueService) (f : File) : option (result Message * QueueService * File) :=
  match Validate req with
  | Some e => Some (Err e, s, f)
  | None =>
      match newUUID random with
      | Err e => Some (Err (ErrWrap "generating message id" e), s, f)
      | Ok id =>
          if s_closed s then Some (Err ErrClosed, s, f)
          else
            let now := UTC now in
            let seq := wrap_u64 (s_seq s + 1) in
            let msg := MkMessage id seq (r_Payload req) (r_Priority req) now
              (Add now (wrap_i64 (r_DelaySeconds req * Second))) StatusPending in
            match Wal.WriteEnqueue io msg (s_wal s) f with
            | (Some e, wal, f) =>
                Some (Err e, MkService (s_queue s) wal (wrap_u64 (seq - 1)) (s_closed s), f)
            | (None, wal, f) =>
                q ← Push (s_queue s) msg;
                Some (Ok msg, MkService q wal seq (s_closed s), f)
            end
      end
  end.

(** [Dequeue()]; [Ok None] is [nil, nil]. *)
Definition Dequeue (now : Time) (io : append_io) (s : QueueService) (f : File)
    : option (result (option Message) * QueueService * File) :=
  if s_closed s then Some (Err ErrClosed, s, f)
  else
    '(popped, q) ← Pop (s_queue s) (UTC now);
    match popped with
    | None => Some (Ok None, MkService q (s_wal s) (s_seq s) (s_closed s), f)
    | Some msg =>
        match Wal.WriteDequeue io (ID msg) (s_wal s) f with
        | (Some e, wal, f) =>
            q ← Push q msg;
            Some (Err e, MkService q wal (s_seq s) (s_closed s), f)
        | (None, wal, f) => Some (Ok (Some msg), MkService q wal (s_seq s) (s_closed s), f)
        end
    end.

Definition with_queue (s : QueueService) (q : FrankensteinQueue) : QueueService :=
  MkService q (s_wal s) (s_seq s) (s_closed s).

(** [Snapshot(limit)]. *)
Definition Snapshot (now : Time) (limit : Z) (s : QueueService)
    : option (QueueSnapshot * QueueService) :=
  let now := UTC now in
  '(view, q) ← Engine.Snapshot (s_queue s) now limit;
  Some (MkQueueSnapshot (Mode q) now
          (MkQueueStats (Z.of_nat (v_ReadyLen view + v_DelayedLen view))
             (Z.of_nat (v_ReadyLen view)) (Z.of_nat (v_DelayedLen view)))
          (v_Ready view) (v_Delayed view) (v_ReadyTruncated view) (v_DelayedTruncated view),
        with_queue s q).

(** [Stats()]: [Len] and then [AvailableLen], which promotes. *)
Definition Stats (now : Time) (s : QueueService) : option (QueueStats * QueueService) :=
  let total := Len (s_queue s) in
  '(available, q) ← AvailableLen (s_queue s) (UTC now);
  Some (MkQueueStats (Z.of_nat total) (Z.of_nat available) (Z.of_nat total - Z.of_nat available),
        with_queue s q).

(** [WalTail(limit)]. *)
Definition WalTail (io : read_io) (limit : Z) (s : QueueService) (f : File) : result Model.WalTail :=
  if s_closed s then Err ErrClosed else Wal.Tail io limit (s_wal s) f.

(** [Close()]. *)
Definition Close (close_err : option error) (s : QueueService) : option error * QueueService :=
  if s_closed s then (None, s)
  else
    let '(err, wal) := Wal.Close close_err (s_wal s) in
    (err, MkService (s_queue s) wal (s_seq s) true).
End service.
