(* ===== verification/ServiceFacts.v ===== *)
(** * Memory and log of the service agree

    The invariant that ties the messages a [QueueService] holds to the records
    of its log file, and how each call keeps it: what is in memory is what
    recovery would read, one record per acknowledged change. *)

From S2P Require Import Prelude GoTime GoStrconv GoUtf8 GoHeap GoSort GoJson GoTimeFormat Model.
From S2P Require Import Codec CodecFacts LogRecord Engine EngineHeap EngineSpec EngineRefine EngineTheorems.
From S2P Require Wal WalFacts WalTheorems.
From S2P Require Import Service.
From Stdlib Require Import Ascii.

Import Wal (WAL, File, MkFile, append_io, read_io, f_data, f_synced, io_now, io_write, io_sync, w_open, read_ok).
Import WalFacts (log_bytes, written, is_line, a_apply).
Import WalTheorems (enqueue_entry, dequeue_entry, next_wal).

Local Open Scope Z_scope.

(** The messages in memory. *)
Definition held (s : QueueService) : list Message := a_contents (abs (s_queue s)).

(** A message the log can hold and give back under the same ID. *)
Record storable (m : Message) : Prop := {
  st_ok : message_ok m;
  st_named : ID m ≠ "";
  st_id : valid_string (ID m) = ID m;
  st_status : m_Status m ≠ ""
}.

Section facts.
Context `{LC : LogCodec} {LL : LogCodecLaws LC}.

Abbreviation log_contents := WalFacts.contents.

Record inv (off : Z) (s : QueueService) (f : File) (es : list logEntry) (bs : list bytes) : Prop := {
  inv_closed : s_closed s = false;
  inv_open : w_open (s_wal s) = true;
  inv_wf : wf off (s_queue s);
  inv_written : written es bs;
  inv_data : f_data f = log_bytes bs;
  inv_synced : f_synced f = length (f_data f);
  inv_same : log_contents es ≡ₚ wire_message <$> held s;
  inv_storable : Forall storable (held s);
  inv_seqs : NoDup (Seq <$> held s);
  inv_bound : Forall (λ m, 1 <= Seq m <= s_seq s) (held s);
  inv_counter : in_u64 (s_seq s)
}.

(** ** Records and messages *)

Lemma wire_ID m : storable m → ID (wire_message m) = ID m.
Proof. intros [_ _ Hid _]. done. Qed.

Lemma wire_IDs l : Forall storable l → (ID ∘ wire_message) <$> l = ID <$> l.
Proof. induction 1 as [|m l Hm _ IH]; [done|]. csimpl. rewrite IH. f_equal. by apply wire_ID. Qed.

Lemma enqueue_entry_apply l io msg w : storable msg → 1 <= Seq msg → ID msg ∉ ID <$> l →
  a_apply l (read_back (enqueue_entry io msg w)) = l ++ [wire_message msg].
Proof.
  intros [Hok Hne Hid Hst] Hs Hfresh. unfold a_apply.
  change (Op (read_back (enqueue_entry io msg w))) with OP_ENQUEUE.
  rewrite bool_decide_eq_true_2 by done. cbn [read_back enqueue_entry le_ID]. rewrite Hid.
  rewrite bool_decide_eq_false_2 by naive_solver. f_equal. f_equal.
  unfold Wal.record_message, wire_message.
  cbn [read_back enqueue_entry le_ID le_Payload le_Seq MsgSeq le_Status le_Priority le_EnqueuedAt le_AvailableAt].
  destruct (Z.eqb_spec (Seq msg) 0); [lia|].
  rewrite (bool_decide_eq_false_2 (m_Status msg = "")) by done.
  rewrite (bool_decide_eq_false_2 (valid_string (m_Status msg) = "")); [done|].
  by rewrite valid_string_empty.
Qed.

Lemma dequeue_entry_apply l io id w : valid_string id = id →
  a_apply l (read_back (dequeue_entry io id w)) = filter (λ m, ID m ≠ id) l.
Proof.
  intros Hid. unfold a_apply. change (Op (read_back (dequeue_entry io id w))) with OP_DEQUEUE.
  rewrite bool_decide_eq_false_2 by done. rewrite bool_decide_eq_true_2 by done.
  cbn [read_back dequeue_entry le_ID]. by rewrite Hid.
Qed.

Lemma contents_snoc es e : log_contents (es ++ [e]) = a_apply (log_contents es) (read_back e).
Proof. unfold WalFacts.contents, WalFacts.contents_from. by rewrite fmap_app, foldl_app. Qed.

(** ** The engine's calls on the contents *)

Lemma Push_held off q msg :
  wf off q → coherent off (AvailableAt msg) → q_nextOrder q + 1 < 2 ^ 64 →
  ID msg ∉ ID <$> a_contents (abs q) →
  ∃ q', Push q msg = Some q' ∧ wf off q' ∧ a_contents (abs q') ≡ₚ msg :: a_contents (abs q)
    ∧ Mode q' = Mode q ∧ q_nextOrder q' = q_nextOrder q + 1
    ∧ a_ready (abs q') = a_ready (abs q).
Proof.
  intros Hwf Hc Hn Hid. destruct (Push_ok off q msg Hwf Hc Hn) as (q' & Hp & Hwf' & Ha).
  exists q'. unfold a_push in Ha. rewrite bool_decide_eq_false_2 in Ha.
  2: { unfold a_ids. unfold a_contents in Hid. by rewrite <- list_fmap_compose in Hid. }
  assert (Mode q' = a_mode (abs q')) as HM by done.
  assert (q_nextOrder q' = a_next (abs q')) as HN by done.
  rewrite HM, HN. rewrite Ha. split_and!; try done.
  unfold a_contents. cbn [a_ready a_delayed]. rewrite insertion_sort_perm.
  rewrite <- (Permutation_middle (a_ready (abs q))). done.
Qed.

Lemma Pop_held off q now :
  wf off q → coherent off now →
  ∃ r q', Pop q now = Some (r, q') ∧ wf off q' ∧ Mode q' = Mode q ∧ q_nextOrder q' = q_nextOrder q ∧
    match r with
    | None => a_contents (abs q') ≡ₚ a_contents (abs q)
    | Some m => a_contents (abs q) ≡ₚ m :: a_contents (abs q')
    end.
Proof.
  intros Hwf Hnow. destruct (Pop_ok off q now Hwf Hnow) as (r & q' & Hp & Hwf' & Ha).
  exists r, q'. pose proof (a_contents_promote now (abs q)) as Hc.
  assert (Mode q' = a_mode (abs q')) as -> by done.
  assert (q_nextOrder q' = a_next (abs q')) as -> by done.
  unfold a_pop in Ha. unfold a_contents in *.
  destruct (a_ready (a_promote now (abs q))) as [|e l] eqn:Hr;
    apply pair_equal_spec in Ha as [<- Habs]; rewrite <- Habs; split_and!; try done.
  rewrite <- Hc. cbn [a_ready a_delayed] in *. by rewrite Hr.
Qed.

Lemma ids_NoDup off q : wf off q → NoDup (ID <$> a_contents (abs q)).
Proof.
  intros Hwf. unfold a_contents. rewrite abs_contents.
  assert (contents q = entries (q_mem q) (items q)) as ->
    by (unfold contents, ready_entries, delayed_entries, items; by rewrite entries_app).
  rewrite <- (byID_items off q Hwf).
  assert (∀ kv, kv ∈ map_to_list (q_byID q) → ∃ e, core <$> q_mem q !! kv.2 = Some e ∧ ID (fst e) = kv.1) as Hk.
  { intros [id p] (e & [_ He] & Hid)%elem_of_map_to_list%(wf_byID _ _ Hwf). eauto. }
  pose proof (NoDup_fst_map_to_list (q_byID q)) as Hn. revert Hk Hn.
  generalize (map_to_list (q_byID q)) as kvs. intros kvs Hk Hn.
  assert (ID <$> (fst <$> entries (q_mem q) kvs.*2) = kvs.*1) as ->; [|done].
  clear Hn. induction kvs as [|[id p] kvs IH]; [done|]. csimpl.
  destruct (Hk (id, p) ltac:(by left)) as (e & He & Hid). unfold entries in *. csimpl.
  cbn [fst snd] in *. rewrite He. csimpl. rewrite Hid. f_equal. apply IH. intros kv Hin. apply Hk. by right.
Qed.

Lemma held_ids off s : wf off (s_queue s) → NoDup (ID <$> held s).
Proof. apply ids_NoDup. Qed.

(** The IDs in the log are those in memory. *)
Lemma inv_log_ids off s f es bs : inv off s f es bs → ID <$> log_contents es ≡ₚ ID <$> held s.
Proof.
  intros Hi. rewrite (inv_same _ _ _ _ _ Hi), <- list_fmap_compose.
  pose proof (inv_storable _ _ _ _ _ Hi) as Hs.
  by rewrite wire_IDs.
Qed.

(** ** A clean enqueue *)

(** The system carries out an append in full, or fails it without having
    written anything. *)
Definition carried_out (io : append_io) : Prop :=
  io_write io = None ∧ io_sync io = None ∧ time_ok (UTC (io_now io)) = true.

Definition refused (io : append_io) : Prop := ∃ e, io_write io = Some (0%nat, e).

(** The new record can be read again. *)
Definition readable (e : logEntry) : Prop :=
  ∀ b, marshal e = Some b → Z.of_nat (length b) < Wal.maxRecordBytes.

(** The message an accepted request becomes. *)
Definition new_message (now : Time) (id : string) (req : EnqueueRequest) (s : QueueService) : Message :=
  MkMessage id (s_seq s + 1) (r_Payload req) (r_Priority req) (UTC now)
    (Add (UTC now) (r_DelaySeconds req * Second)) StatusPending.

Lemma Enqueue_carried_out off now random id io req s f es bs :
  inv off s f es bs → Validate req = None → newUUID random = Ok id →
  storable (new_message now id req s) → coherent off (AvailableAt (new_message now id req s)) →
  id ∉ ID <$> held s → s_seq s + 1 < 2 ^ 64 → q_nextOrder (s_queue s) + 1 < 2 ^ 64 →
  carried_out io → readable (enqueue_entry io (new_message now id req s) (s_wal s)) →
  let m := new_message now id req s in
  ∃ s' f' b, Enqueue now random io req s f = Some (Ok m, s', f')
    ∧ inv off s' f' (es ++ [enqueue_entry io m (s_wal s)]) (bs ++ [b])
    ∧ held s' ≡ₚ m :: held s ∧ s_seq s' = s_seq s + 1 ∧ Mode (s_queue s') = Mode (s_queue s)
    ∧ q_nextOrder (s_queue s') = q_nextOrder (s_queue s) + 1
    ∧ a_ready (abs (s_queue s')) = a_ready (abs (s_queue s))
    ∧ s_wal s' = next_wal (s_wal s).
Proof.
  intros [Hcl Ho Hwf Hw Hd Hsy Hsame Hst Hsq Hb Hc] Hv Hu Hm Hcoh Hfresh Hs Hn (Hiw & His & Hit) Hr m.
  unfold in_u64 in Hc. apply Validate_None in Hv as [Hp Hdl].
  assert (Hv : Validate req = None) by (by apply Validate_None).
  unfold Enqueue. rewrite Hv, Hu, Hcl. rewrite delay_no_overflow by done.
  rewrite (wrap_u64_small (s_seq s + 1)) by (unfold in_u64; lia). fold (new_message now id req s). fold m.
  destruct (Push_held off (s_queue s) m Hwf Hcoh Hn Hfresh) as (q' & Hpush & Hwf' & Hc' & HM & HN & HR).
  assert (writable (enqueue_entry io m (s_wal s))) as Hwr
    by (apply WalTheorems.enqueue_writable; [apply Hm|done]).
  destruct (marshal_writable _ Hwr) as [b Eb].
  rewrite WalTheorems.WriteEnqueue_spec by (done || apply Hm). unfold WalTheorems.append_spec.
  rewrite Eb, Hiw, His. rewrite Hpush. cbn [mbind option_bind].
  eexists _, _, b. split; [done|]. split; [|done].
  assert (held (MkService q' (next_wal (s_wal s)) (s_seq s + 1) false) ≡ₚ m :: held s) as Hh by done.
  split; cbn [s_closed s_wal s_queue s_seq f_data f_synced]; try done.
  - apply WalFacts.written_app; [done|]. apply Forall2_cons; split; [|apply Forall2_nil_2].
    split_and!; [done|done|by apply Hr].
  - rewrite WalFacts.log_bytes_app, Hd. unfold log_bytes. csimpl. by rewrite app_nil_r.
  - rewrite contents_snoc, enqueue_entry_apply; [|done|simpl; lia|].
    + rewrite Hh. csimpl. rewrite Hsame. by rewrite Permutation_app_comm.
    + rewrite (inv_log_ids off s f es bs) by (by split). done.
  - rewrite Hh. by constructor.
  - rewrite Hh. csimpl. constructor; [|done].
    intros (m' & E & Hin)%list_elem_of_fmap. rewrite Forall_forall in Hb. specialize (Hb _ Hin).
    simpl in E. lia.
  - rewrite Hh. constructor; [simpl; lia|]. eapply Forall_impl; [exact Hb|]. simpl. lia.
  - unfold in_u64. lia.
Qed.

(** ** The other calls *)

Lemma Enqueue_refused off now random id io req s f es bs :
  inv off s f es bs → Validate req = None → newUUID random = Ok id →
  storable (new_message now id req s) → s_seq s + 1 < 2 ^ 64 → refused io →
  time_ok (UTC (io_now io)) = true →
  ∃ err s', Enqueue now random io req s f = Some (Err err, s', f)
    ∧ inv off s' f es bs ∧ s_queue s' = s_queue s ∧ s_seq s' = s_seq s
    ∧ s_wal s' = next_wal (s_wal s).
Proof.
  intros [Hcl Ho Hwf Hw Hd Hsy Hsame Hst Hsq Hb Hc] Hv Hu Hm Hs [e He] Hit. unfold in_u64 in Hc.
  apply Validate_None in Hv as [Hp Hdl]. assert (Hv : Validate req = None) by (by apply Validate_None).
  unfold Enqueue. rewrite Hv, Hu, Hcl. rewrite delay_no_overflow by done.
  rewrite (wrap_u64_small (s_seq s + 1)) by (unfold in_u64; lia). fold (new_message now id req s).
  set (m := new_message now id req s) in *.
  assert (writable (enqueue_entry io m (s_wal s))) as Hwr
    by (apply WalTheorems.enqueue_writable; [apply Hm|done]).
  destruct (marshal_writable _ Hwr) as [b Eb].
  rewrite WalTheorems.WriteEnqueue_spec by (done || apply Hm). unfold WalTheorems.append_spec.
  rewrite Eb, He. cbn [take]. rewrite app_nil_r.
  replace (s_seq s + 1 - 1) with (s_seq s) by lia. rewrite wrap_u64_small by (unfold in_u64; lia).
  destruct f as [data synced]. cbn [f_data f_synced] in *.
  eexists _, _. split; [done|]. split_and!; [by split|done..].
Qed.

Lemma inv_queue off s f es bs q' :
  inv off s f es bs → wf off q' → a_contents (abs q') ≡ₚ held s → inv off (with_queue s q') f es bs.
Proof.
  intros [Hcl Ho Hwf Hw Hd Hsy Hsame Hst Hsq Hb Hc] Hwf' Hp.
  assert (held (with_queue s q') ≡ₚ held s) as Hh by done.
  split; try done; by rewrite Hh.
Qed.

Lemma Dequeue_empty off now io s f es bs q' :
  inv off s f es bs → Pop (s_queue s) (UTC now) = Some (None, q') →
  Dequeue now io s f = Some (Ok None, with_queue s q', f).
Proof. intros Hi Hp. unfold Dequeue, with_queue. rewrite (inv_closed _ _ _ _ _ Hi), Hp. done. Qed.

Lemma filter_wire m l : storable m → Forall storable l → NoDup (ID <$> m :: l) →
  filter (λ x, ID x ≠ ID m) (wire_message <$> m :: l) = wire_message <$> l.
Proof.
  intros Hm Hl Hn. csimpl in *. apply NoDup_cons in Hn as [Hm' Hn].
  rewrite filter_cons_False by (rewrite (wire_ID m Hm); naive_solver).
  apply filter_id. intros x (y & -> & Hy)%list_elem_of_fmap.
  rewrite Forall_forall in Hl. rewrite (wire_ID y (Hl y Hy)). intros E. apply Hm'.
  rewrite <- E. by apply list_elem_of_fmap_2.
Qed.

Lemma Dequeue_carried_out off now io s f es bs m q' :
  inv off s f es bs → Pop (s_queue s) (UTC now) = Some (Some m, q') → coherent off now →
  carried_out io → readable (dequeue_entry io (ID m) (s_wal s)) →
  ∃ s' f' b, Dequeue now io s f = Some (Ok (Some m), s', f')
    ∧ inv off s' f' (es ++ [dequeue_entry io (ID m) (s_wal s)]) (bs ++ [b])
    ∧ held s ≡ₚ m :: held s' ∧ s_seq s' = s_seq s ∧ s_queue s' = q'.
Proof.
  intros Hi Hp Hnow (Hiw & His & Hit) Hr. pose proof (held_ids off s (inv_wf _ _ _ _ _ Hi)) as Hids.
  destruct Hi as [Hcl Ho Hwf Hw Hd Hsy Hsame Hst Hsq Hb Hc].
  destruct (Pop_held off (s_queue s) (UTC now) Hwf Hnow) as (r & q1 & Hp' & Hwf' & HM & HN & Hc').
  rewrite Hp in Hp'. injection Hp' as <- <-. fold (held s) in Hc'.
  rewrite Hc' in Hst, Hsq, Hb, Hids. apply Forall_cons in Hst as [Hm Hst].
  apply Forall_cons in Hb as [_ Hb]. csimpl in Hsq. apply NoDup_cons in Hsq as [_ Hsq].
  unfold Dequeue. rewrite Hcl, Hp. cbn [mbind option_bind].
  pose proof (WalTheorems.dequeue_writable io (ID m) (s_wal s) Hit) as Hwr.
  destruct (marshal_writable _ Hwr) as [b Eb].
  rewrite WalTheorems.WriteDequeue_spec by (done || apply Hm). unfold WalTheorems.append_spec.
  rewrite Eb, Hiw, His. eexists _, _, b. split; [done|].
  assert (held (MkService q' (next_wal (s_wal s)) (s_seq s) (s_closed s)) = a_contents (abs q')) as Hh by done.
  split; [|done].
  split; rewrite ?Hh; cbn [s_closed s_wal s_queue s_seq f_data f_synced]; try done.
  - apply WalFacts.written_app; [done|]. apply Forall2_cons; split; [|apply Forall2_nil_2].
    split_and!; [done|done|by apply Hr].
  - rewrite WalFacts.log_bytes_app, Hd. unfold log_bytes. csimpl. by rewrite app_nil_r.
  - rewrite contents_snoc, dequeue_entry_apply by apply Hm.
    rewrite Hsame, Hc'. by rewrite filter_wire.
Qed.

Lemma Dequeue_refused off now io s f es bs m q' :
  inv off s f es bs → Pop (s_queue s) (UTC now) = Some (Some m, q') → coherent off now →
  coherent off (AvailableAt m) → q_nextOrder (s_queue s) + 1 < 2 ^ 64 →
  refused io → time_ok (UTC (io_now io)) = true →
  ∃ err s', Dequeue now io s f = Some (Err err, s', f)
    ∧ inv off s' f es bs ∧ held s' ≡ₚ held s ∧ s_seq s' = s_seq s
    ∧ a_ready (abs (s_queue s')) = a_ready (abs q') ∧ Mode (s_queue s') = Mode (s_queue s).
Proof.
  intros Hi Hp Hnow Hcoh Hn [e He] Hit. pose proof (held_ids off s (inv_wf _ _ _ _ _ Hi)) as Hids.
  destruct (Pop_held off (s_queue s) (UTC now) (inv_wf _ _ _ _ _ Hi) Hnow) as (r & q1 & Hp' & Hwf' & HM & HN & Hc').
  rewrite Hp in Hp'. injection Hp' as <- <-. fold (held s) in Hc'. rewrite Hc' in Hids.
  pose proof (inv_storable _ _ _ _ _ Hi) as Hst. rewrite Hc' in Hst. apply Forall_cons in Hst as [Hm Hst].
  csimpl in Hids. apply NoDup_cons in Hids as [Hfresh _].
  destruct (Push_held off q' m Hwf' Hcoh) as (q2 & Hpush & Hwf2 & Hc2 & HM2 & HN2 & HR2); [lia|done|].
  unfold Dequeue. rewrite (inv_closed _ _ _ _ _ Hi), Hp. cbn [mbind option_bind].
  pose proof (WalTheorems.dequeue_writable io (ID m) (s_wal s) Hit) as Hwr.
  destruct (marshal_writable _ Hwr) as [b Eb].
  rewrite WalTheorems.WriteDequeue_spec by (apply (inv_open _ _ _ _ _ Hi) || apply Hm).
  unfold WalTheorems.append_spec. rewrite Eb, He. cbn [take]. rewrite app_nil_r, Hpush.
  destruct f as [data synced]. cbn [f_data f_synced mbind option_bind].
  assert (a_contents (abs q2) ≡ₚ held s) as Hh by (by rewrite Hc2, Hc').
  eexists _, _. split; [done|]. split_and!; [|done|done|done|exact (eq_trans HM2 HM)].
  destruct (inv_queue _ _ _ _ _ q2 Hi Hwf2 Hh) as [Hcl Ho Hw2 Hw Hd Hsy Hsame Hst2 Hsq Hb Hc].
  by split.
Qed.

(** ** Delivery order

    The order in which draining delivers messages, when their numbers differ:
    it depends on the messages only, not on the history of the queue. *)

Definition msg_key (mode : QueueMode) (m : Message) : Z * Z * Z :=
  (- Priority m, (if bool_decide (mode = ModeLIFO) then -1 else 1) * Seq m, 0).

Definition msg_less (mode : QueueMode) (a b : Message) : bool := lex_lt (msg_key mode a) (msg_key mode b).

Definition delivery_order (mode : QueueMode) (now : Time) (l : list Message) : list Message :=
  insertion_sort (msg_less mode) (filter (λ m, Available m now = true) l).

(** No two messages of the list share a number. *)
Abbreviation distinct_seqs l := (NoDup (Seq <$> l)).

Lemma distinct_seqs_inj l a b : distinct_seqs l → a ∈ l → b ∈ l → Seq a = Seq b → a = b.
Proof.
  intros Hn [i Hi]%list_elem_of_lookup [j Hj]%list_elem_of_lookup E.
  assert (i = j) as ->; [|congruence].
  eapply (NoDup_lookup (Seq <$> l)); [done|by rewrite list_lookup_fmap, Hi|].
  rewrite list_lookup_fmap, Hj. simpl. by rewrite E.
Qed.

Lemma delivery_order_perm mode now l k :
  distinct_seqs l → k ≡ₚ l → delivery_order mode now k = delivery_order mode now l.
Proof.
  intros Hn Hp. apply (insertion_sort_proper _ _ (lex_lt_weak_order (msg_key mode))).
  - by apply Forall_true.
  - intros a b [_ Ha]%list_elem_of_filter [_ Hb]%list_elem_of_filter. unfold le.
    rewrite !lex_lt_false. cbn [msg_key]. intros H1 H2.
    apply (distinct_seqs_inj l); [done|done|done|]. case_bool_decide; lia.
  - by rewrite Hp.
Qed.

(** The ready list of a queue whose promoted messages are still due. *)
Lemma ready_delivery off q now :
  wf off q → distinct_seqs (a_contents (abs q)) →
  Forall (λ m, Available m now = true) (fst <$> a_ready (abs q)) →
  fst <$> a_ready (a_promote now (abs q)) = delivery_order (Mode q) now (a_contents (abs q)).
Proof.
  intros Hwf Hn Hdue. unfold delivery_order, a_contents.
  rewrite fmap_app, filter_app. rewrite (filter_id _ (fst <$> a_ready (abs q))).
  2: { rewrite Forall_forall in Hdue. exact Hdue. }
  rewrite filter_fmap, <- fmap_app. cbn [a_promote a_ready a_mode abs].
  apply insertion_sort_fmap. intros x y Hx Hy.
  assert (∀ e, e ∈ by_selection (Mode q) (ready_entries q) ++ filter (matured now) (by_maturity (delayed_entries q)) →
    e ∈ contents q) as Hsub.
  { intros e. rewrite elem_of_app, list_elem_of_filter, !insertion_sort_perm. unfold contents. set_solver. }
  apply Hsub in Hx, Hy. unfold sel_less, msg_less, sel_key, msg_key, lex_lt.
  set (d := if bool_decide (Mode q = ModeLIFO) then -1 else 1).
  assert (d = 1 ∨ d = -1) as Hd by (unfold d; case_bool_decide; auto).
  destruct (decide (Seq (fst x) = Seq (fst y))) as [E|E]; [|destruct Hd as [-> | ->]; lia].
  assert (x = y) as ->; [|lia].
  assert (NoDup (Seq ∘ fst <$> contents q)) as Hnc.
  { unfold a_contents in Hn. rewrite abs_contents in Hn. by rewrite <- list_fmap_compose in Hn. }
  apply list_elem_of_lookup in Hx as [i Hi], Hy as [j Hj].
  assert (i = j) as ->; [|congruence].
  eapply (NoDup_lookup (Seq ∘ fst <$> contents q)); [done|by rewrite list_lookup_fmap, Hi|].
  rewrite list_lookup_fmap, Hj. simpl. by rewrite E.
Qed.

(** The wire form of a message is delivered like the message. *)
Lemma wire_available off m now now' : coherent off (AvailableAt m) → coherent off now →
  t_wall now' = t_wall now → Available (wire_message m) now' = Available m now.
Proof.
  intros Hm Hn Hw. rewrite (Available_coherent off m) by done.
  rewrite (Available_coherent (match t_mono now' with Some k => t_wall now' - k | None => 0 end)); simpl.
  - by rewrite Hw.
  - done.
  - unfold coherent. destruct (t_mono now'); [lia|done].
Qed.

Lemma delivery_order_wire off mode now now' l :
  Forall (λ m, coherent off (AvailableAt m)) l → coherent off now → t_wall now' = t_wall now →
  delivery_order mode now' (wire_message <$> l) = wire_message <$> delivery_order mode now l.
Proof.
  intros Hl Hn Hw. unfold delivery_order. rewrite filter_fmap.
  rewrite (insertion_sort_fmap wire_message (msg_less mode) (msg_less mode)) by done. do 2 f_equal.
  apply filter_ext_in. intros m Hm. rewrite Forall_forall in Hl.
  by rewrite (wire_available off m now now') by auto.
Qed.

(** ** Opening the service on a log *)

(** The number the service continues from. *)
Definition max_seq (l : list Message) : Z := foldl Z.max 0 (Seq <$> l).

Lemma foldl_max_spec l n : n <= foldl Z.max n l ∧ Forall (λ x, x <= foldl Z.max n l) l
  ∧ (foldl Z.max n l = n ∨ foldl Z.max n l ∈ l).
Proof.
  revert n. induction l as [|x l IH]; intros n; simpl; [split_and!; [lia|constructor|by left]|].
  destruct (IH (Z.max n x)) as (H1 & H2 & H3). split_and!; [lia|constructor; [lia|done]|].
  destruct H3 as [H3|H3]; [|right; by right].
  rewrite H3. destruct (Z.max_spec n x) as [[? ->]|[? ->]]; [right; by left|by left].
Qed.

Lemma push_recovered_ok off msgs q n :
  wf off q → Forall (λ m, coherent off (AvailableAt m)) msgs →
  q_nextOrder q + Z.of_nat (length msgs) < 2 ^ 64 →
  NoDup (ID <$> msgs) → (∀ m, m ∈ msgs → ID m ∉ ID <$> a_contents (abs q)) →
  ∃ q', push_recovered msgs q n = Some (q', foldl Z.max n (Seq <$> msgs)) ∧ wf off q'
    ∧ a_contents (abs q') ≡ₚ msgs ++ a_contents (abs q) ∧ Mode q' = Mode q
    ∧ a_ready (abs q') = a_ready (abs q)
    ∧ q_nextOrder q' = q_nextOrder q + Z.of_nat (length msgs).
Proof.
  intros Hwf Hc. revert q n Hwf. induction Hc as [|m msgs Hm Hc IH]; intros q n Hwf Hn Hids Hfresh.
  { exists q. simpl. split_and!; try done. lia. }
  cbn [length] in Hn. csimpl in Hids. apply NoDup_cons in Hids as [Hid Hids].
  destruct (Push_held off q m Hwf Hm) as (q1 & Hp & Hwf1 & Hc1 & HM & HN & HR); [lia|apply Hfresh; by left|].
  destruct (IH q1 (Z.max n (Seq m)) Hwf1) as (q' & Hp' & Hwf' & Hc' & HM' & HR' & HN'); [lia|done| |].
  { intros m' Hm'. rewrite Hc1. csimpl. rewrite not_elem_of_cons. split.
    - intros E. apply Hid. rewrite <- E. by apply list_elem_of_fmap_2.
    - apply Hfresh. by right. }
  exists q'. cbn [push_recovered]. rewrite Hp. cbn [mbind option_bind].
  replace (if n <? Seq m then Seq m else n) with (Z.max n (Seq m)) by (destruct (Z.ltb_spec n (Seq m)); lia).
  split_and!; [exact Hp'|done| |congruence|congruence|cbn [length]; lia].
  rewrite Hc', Hc1. by rewrite <- Permutation_middle.
Qed.

Lemma wire_wire m : storable m → wire_message (wire_message m) = wire_message m.
Proof.
  intros _. unfold wire_message. cbn [ID Payload m_Status EnqueuedAt AvailableAt Seq Priority].
  by rewrite !(valid_string_id (valid_string _)) by apply valid_string_valid.
Qed.

Lemma wire_storable m : storable m → storable (wire_message m).
Proof.
  intros [[Hs Hp He Ha] Hne Hid Hst]. split.
  - by split.
  - cbn [wire_message ID]. by rewrite Hid.
  - cbn [wire_message ID]. by rewrite !Hid.
  - cbn [wire_message m_Status]. by rewrite valid_string_empty.
Qed.

(** A recovered instant has no monotonic reading: it is coherent with the clock
    of any process. *)
Lemma wire_coherent off m : coherent off (AvailableAt (wire_message m)).
Proof. done. Qed.

Lemma wire_all (l : list Message) : Forall storable l → wire_message <$> (wire_message <$> l) = wire_message <$> l.
Proof. induction 1 as [|m l Hm _ IH]; [done|]. csimpl. by rewrite IH, wire_wire. Qed.

(** What a service started on a log that can be read holds. *)
Lemma open_recovered off mode path f l w :
  Valid mode = true → w_open w = true →
  Wal.Recover read_ok (Wal.MkWAL true path 0) f = (Ok l, w) →
  NoDup (ID <$> l) → Forall (λ m, coherent off (AvailableAt m)) l → Z.of_nat (length l) < 2 ^ 64 →
  ∃ s, NewQueueService path mode None read_ok f = Some (Ok s)
    ∧ wf off (s_queue s) ∧ held s ≡ₚ l ∧ s_seq s = max_seq l ∧ s_closed s = false
    ∧ s_wal s = w ∧ Mode (s_queue s) = mode ∧ a_ready (abs (s_queue s)) = []
    ∧ q_nextOrder (s_queue s) = Z.of_nat (length l).
Proof.
  intros Hmode Ho Hrec Hids Hcoh Hlen. unfold NewQueueService. rewrite Hmode. cbn [negb Wal.NewWAL].
  destruct (New_ok off mode Hmode) as (q & -> & Hwf & Habs). rewrite Hrec.
  assert (a_contents (abs q) = []) as Hc by (by rewrite Habs).
  assert (q_nextOrder q = 0) as HN by (change (q_nextOrder q) with (a_next (abs q)); by rewrite Habs).
  destruct (push_recovered_ok off l q 0 Hwf) as (q' & -> & Hwf' & Hc' & HM & HR & HN');
    [done|lia|done|rewrite Hc; intros ? _; apply not_elem_of_nil|].
  eexists. split; [done|]. cbn [s_queue s_seq s_closed s_wal]. rewrite Hc, app_nil_r in Hc'.
  split_and!; try done.
  - rewrite HM. change (Mode q) with (a_mode (abs q)). by rewrite Habs.
  - by rewrite HR, Habs.
  - lia.
Qed.

(** The restart of a service. *)
Lemma restart_ok off off' mode path s f es bs :
  inv off s f es bs → Valid mode = true → Z.of_nat (length (held s)) < 2 ^ 64 →
  ∃ s', NewQueueService path mode None read_ok f = Some (Ok s') ∧ inv off' s' f es bs
    ∧ held s' ≡ₚ wire_message <$> held s ∧ Mode (s_queue s') = mode
    ∧ a_ready (abs (s_queue s')) = [] ∧ s_seq s' = max_seq (WalFacts.by_seq (log_contents es))
    ∧ q_nextOrder (s_queue s') = Z.of_nat (length (held s))
    ∧ w_open (s_wal s') = true.
Proof.
  intros Hi Hmode Hlen. pose proof (held_ids off s (inv_wf _ _ _ _ _ Hi)) as Hids.
  pose proof (inv_log_ids _ _ _ _ _ Hi) as Hlids.
  destruct Hi as [Hcl Ho Hwf Hw Hd Hsy Hsame Hst Hsq Hb Hc].
  set (l := WalFacts.by_seq (log_contents es)).
  assert (l ≡ₚ wire_message <$> held s) as Hl by (rewrite <- Hsame; apply insertion_sort_perm).
  assert (Seq <$> l ≡ₚ Seq <$> held s) as Hseqs by (rewrite Hl, <- list_fmap_compose; done).
  destruct f as [data synced]. cbn [f_data f_synced] in *.
  destruct (open_recovered off' mode path (MkFile data synced) l
      (Wal.MkWAL true path (Wal.fo_maxSeq (WalFacts.replay es)))) as (s' & Hn & Hwf' & Hh & Hs & Hc' & Hwal & HM & HR & HN).
  - done.
  - done.
  - rewrite Hd, (WalFacts.Recover_log path 0 es bs synced Hw). by rewrite WalFacts.replay_sorted.
  - unfold l, WalFacts.by_seq. rewrite insertion_sort_perm. by rewrite Hlids.
  - rewrite Hl, Forall_fmap. by apply Forall_true.
  - rewrite Hl, length_fmap. done.
  - exists s'. split; [done|]. rewrite Hl in Hh. split_and!; try done.
    2: { rewrite HN, Hl, length_fmap. done. }
    2: { by rewrite Hwal. }
    destruct (foldl_max_spec (Seq <$> l) 0) as (H0 & Hmax & Hin).
    assert (∀ m, m ∈ held s → Seq m <= max_seq l) as Hm.
    { intros m Hm. rewrite Forall_forall in Hmax. apply Hmax. rewrite Hseqs. by apply list_elem_of_fmap_2. }
    assert (Forall (λ x, 0 <= x < 2 ^ 64) (Seq <$> l)) as Hbl.
    { rewrite Hseqs, Forall_fmap. eapply Forall_impl; [exact Hb|]. unfold in_u64 in Hc. simpl. lia. }
    split; try done.
    + by rewrite Hwal.
    + rewrite Hh, wire_all by done. done.
    + rewrite Hh, Forall_fmap. eapply Forall_impl; [exact Hst|]. apply wire_storable.
    + by rewrite Hh, <- list_fmap_compose.
    + rewrite Hh, Forall_fmap, Hs. rewrite Forall_forall in Hb |- *. intros m Hin'.
      specialize (Hb m Hin'). specialize (Hm m Hin'). cbn. lia.
    + rewrite Hs. unfold max_seq, in_u64. destruct Hin as [->|Hin]; [lia|].
      rewrite Forall_forall in Hbl. by apply Hbl.
Qed.

(** ** A crash while a record is being appended *)

Lemma Recover_cut path es bs e b n s : written es bs → is_line e b →
  ∃ es', (es' = es ∨ es' = es ++ [e]) ∧
    Wal.Recover read_ok (Wal.MkWAL true path 0) (MkFile (log_bytes bs ++ take n (b ++ [Wal.newline])) s) =
      (Ok (WalFacts.by_seq (log_contents es')), Wal.MkWAL true path (Wal.fo_maxSeq (WalFacts.replay es'))).
Proof.
  intros Hw Hl. pose proof (WalFacts.is_line_record _ _ Hl) as Hr.
  destruct (decide (n < length b)%nat) as [Hn|Hn].
  { exists es. split; [by left|]. rewrite take_app_le by lia. rewrite <- WalFacts.replay_sorted.
    apply (WalFacts.Recover_prefix path 0 es bs e b (take n b) (drop n b)); [done|done|by rewrite take_drop|].
    intros E. apply (f_equal length) in E. rewrite length_drop in E. simpl in E. lia. }
  exists (es ++ [e]). split; [by right|]. rewrite <- WalFacts.replay_sorted.
  destruct (decide (n = length b)) as [->|Hn'].
  - rewrite take_app_length. rewrite (WalFacts.Recover_torn path 0 es bs b);
      [|done|by apply WalFacts.record_line_newline|by apply WalFacts.record_line_nonempty|by destruct Hl as (_ & _ & ?)].
    rewrite (WalFacts.record_line_dropCR _ Hr), (WalFacts.is_line_apply _ _ _ Hl). cbn [default].
    unfold WalFacts.replay. by rewrite WalFacts.replay_from_app.
  - rewrite take_ge by (rewrite length_app; simpl; lia).
    rewrite <- (WalFacts.Recover_log path 0 (es ++ [e]) (bs ++ [b]) s).
    + rewrite WalFacts.log_bytes_app. unfold log_bytes. csimpl. by rewrite app_nil_r.
    + apply WalFacts.written_app; [done|]. apply Forall2_cons. split; [done|apply Forall2_nil_2].
Qed.
End facts.
