(* ===== verification/ServiceTrace.v ===== *)
(** * Runs of the service

    What a run of the service may do: the calls with their environment, and
    restarts from the log.  Each step is one call of the service or one restart;
    it carries the messages it acknowledged to producers and those it handed to
    consumers.  The invariant of [ServiceFacts] is kept by every step. *)

From S2P Require Import Prelude GoTime GoStrconv GoUtf8 GoHeap GoSort GoJson GoTimeFormat Model.
From S2P Require Import Codec CodecFacts LogRecord Engine EngineHeap EngineSpec EngineRefine EngineTheorems.
From S2P Require Wal WalFacts WalTheorems.
From S2P Require Import Service ServiceFacts.
From Stdlib Require Import Ascii.

Import Wal (WAL, File, MkFile, append_io, read_io, f_data, f_synced, io_now, io_write, io_sync, w_open, read_ok).
Import WalFacts (log_bytes, written, is_line, a_apply).
Import WalTheorems (enqueue_entry, dequeue_entry, next_wal).

Local Open Scope Z_scope.

(** ** Message IDs *)

(** Sixteen random bytes. *)
Definition random_block (b : list Z) : Prop := length b = 16%nat ∧ Forall (λ x, 0 <= x < 256) b.

(** The bits of a block that [newUUID] keeps. *)
Definition masked (b : list Z) : list Z :=
  alter (λ x, Z.lor (Z.land x 63) 128) 8%nat (alter (λ x, Z.lor (Z.land x 15) 64) 6%nat b).

Lemma below_cases n (P : Z → bool) : forallb P (seqZ 0 n) = true → ∀ x, 0 <= x < n → P x = true.
Proof. rewrite forallb_Forall, Forall_forall. intros H x Hx. apply H. by apply elem_of_seqZ. Qed.

Lemma masked_bytes b : random_block b → Forall (λ x, 0 <= x < 256) (masked b).
Proof.
  assert (∀ x, 0 <= x < 256 → 0 <= Z.lor (Z.land x 15) 64 < 256 ∧ 0 <= Z.lor (Z.land x 63) 128 < 256) as Hr.
  { intros x Hx. apply (bool_decide_unpack (0 <= _ < 256 ∧ 0 <= _ < 256)), Is_true_true.
    revert x Hx. apply below_cases. by vm_compute. }
  intros [_ Hb]. unfold masked.
  repeat (apply Forall_alter; [|intros x _ Hx; by apply Hr]). done.
Qed.

Lemma length_masked b : length (masked b) = length b.
Proof. unfold masked. by rewrite !length_alter. Qed.

(** The text of sixteen bytes. *)
Definition uuid_text (b : list Z) : bytes :=
  hex_bytes (take 4 b) ++ "-"%char :: hex_bytes (take 2 (drop 4 b)) ++ "-"%char
  :: hex_bytes (take 2 (drop 6 b)) ++ "-"%char :: hex_bytes (take 2 (drop 8 b)) ++ "-"%char
  :: hex_bytes (take 6 (drop 10 b)).

Lemma newUUID_text b : newUUID (Ok b) = Ok (of_bytes (uuid_text (masked b))).
Proof. done. Qed.

Definition hex_char (c : ascii) : bool := is_digit c || in_range 97 102 c.

(** A byte in hexadecimal: two digits, from which it can be read back. *)
Lemma hex_byte x : 0 <= x < 256 →
  hex_char (hex_digit (x / 16)) = true ∧ hex_char (hex_digit (x mod 16)) = true
  ∧ (a ← hex_val (hex_digit (x / 16)); b ← hex_val (hex_digit (x mod 16)); Some (16 * a + b)) = Some x.
Proof.
  set (read := λ x, a ← hex_val (hex_digit (x / 16)); b ← hex_val (hex_digit (x mod 16)); Some (16 * a + b)).
  intros Hx. assert (hex_char (hex_digit (x / 16)) && hex_char (hex_digit (x mod 16))
    && match read x with Some y => y =? x | None => false end = true) as H.
  { revert x Hx. apply below_cases. vm_compute. reflexivity. }
  rewrite !andb_true_iff in H. destruct H as [[H1 H2] H3]. split_and!; [done..|]. fold (read x).
  destruct (read x); [|done]. f_equal. lia.
Qed.

(** The digits that carry version and variant. *)
Lemma version_digits x : 0 <= x < 256 →
  hex_digit (Z.lor (Z.land x 15) 64 / 16) = "4"%char
  ∧ hex_digit (Z.lor (Z.land x 63) 128 / 16) ∈ ["8"; "9"; "a"; "b"]%char.
Proof.
  intros Hx. assert (Ascii.eqb (hex_digit (Z.lor (Z.land x 15) 64 / 16)) "4"
    && bool_decide (hex_digit (Z.lor (Z.land x 63) 128 / 16) ∈ ["8"; "9"; "a"; "b"]%char) = true) as H.
  { revert x Hx. apply below_cases. vm_compute. reflexivity. }
  rewrite andb_true_iff, bool_decide_eq_true in H. destruct H as [H1 H2].
  split; [by apply Ascii.eqb_eq|done].
Qed.

Abbreviation is_byte := (λ x, 0 <= x < 256).

Lemma length_hex_bytes l : length (hex_bytes l) = (2 * length l)%nat.
Proof. induction l as [|x l IH]; [done|]. unfold hex_bytes in *. csimpl. rewrite IH. lia. Qed.

Lemma hex_bytes_chars l : Forall is_byte l → Forall (λ c, hex_char c = true) (hex_bytes l).
Proof.
  induction 1 as [|x l Hx _ IH]; [constructor|]. destruct (hex_byte x Hx) as (H1 & H2 & _).
  unfold hex_bytes. csimpl. by repeat constructor.
Qed.

Lemma hex_bytes_inj l k : Forall is_byte l → Forall is_byte k → length l = length k →
  hex_bytes l = hex_bytes k → l = k.
Proof.
  intros Hl. revert k. induction Hl as [|x l Hx _ IH]; intros [|y k] Hk Hlen E; try done.
  apply Forall_cons in Hk as [Hy Hk]. unfold hex_bytes in E. csimpl in E. injection E as E1 E2 E3.
  destruct (hex_byte x Hx) as (_ & _ & Rx), (hex_byte y Hy) as (_ & _ & Ry).
  f_equal; [|apply IH; [done|simpl in Hlen; lia|done]].
  rewrite E1, E2, Ry in Rx. by injection Rx.
Qed.

Lemma uuid_text_inj b c : random_block b → random_block c → uuid_text b = uuid_text c → b = c.
Proof.
  intros [Lb Hb] [Lc Hc] E. unfold uuid_text in E.
  assert (∀ i n, Forall is_byte (take n (drop i b)) ∧ Forall is_byte (take n (drop i c))) as Hpart
    by (intros; split; by apply Forall_take, Forall_drop).
  assert (∀ i n, (i + n <= 16)%nat → length (take n (drop i b)) = n ∧ length (take n (drop i c)) = n) as Hlen
    by (intros; rewrite !length_take, !length_drop, Lb, Lc; lia).
  assert (∀ i n (r r' : bytes), (i + n <= 16)%nat →
    hex_bytes (take n (drop i b)) ++ r = hex_bytes (take n (drop i c)) ++ r' →
    take n (drop i b) = take n (drop i c) ∧ r = r') as Hcut.
  { intros i n r r' Hi Er. destruct (Hpart i n), (Hlen i n Hi) as [L1 L2].
    apply app_inj_1 in Er as [Ex Er]; [|by rewrite !length_hex_bytes, L1, L2].
    split; [apply hex_bytes_inj; congruence|done]. }
  apply (Hcut 0%nat 4%nat) in E as [E0 E]; [|lia]. injection E as E.
  apply Hcut in E as [E1 E]; [|lia]. injection E as E. apply Hcut in E as [E2 E]; [|lia]. injection E as E.
  apply Hcut in E as [E3 E]; [|lia]. injection E as E.
  rewrite <- (app_nil_r (hex_bytes _)), <- (app_nil_r (hex_bytes (take 6 (drop 10 c)))) in E.
  apply Hcut in E as [E4 _]; [|lia].
  assert (∀ l : list Z, length l = 16%nat → l = take 4 (drop 0 l) ++ take 2 (drop 4 l) ++ take 2 (drop 6 l)
    ++ take 2 (drop 8 l) ++ take 6 (drop 10 l)) as Hsplit.
  { intros l Hl. do 17 (destruct l as [|? l]; try done). }
  rewrite (Hsplit b Lb), (Hsplit c Lc). congruence.
Qed.

Lemma masked_block b : random_block b → random_block (masked b).
Proof. intros Hb. split; [rewrite length_masked; apply Hb|by apply masked_bytes]. Qed.

Lemma hex_char_ascii c : hex_char c = true → is_ascii c = true.
Proof. unfold hex_char, is_digit, is_ascii, in_range. lia. Qed.

Lemma uuid_ascii b : random_block b → Forall (λ c, is_ascii c = true) (uuid_text b).
Proof.
  intros [_ Hb].
  assert (∀ i n, Forall (λ c, is_ascii c = true) (hex_bytes (take n (drop i b)))) as Hpart.
  { intros i n. eapply Forall_impl; [apply hex_bytes_chars; by apply Forall_take, Forall_drop|]. apply hex_char_ascii. }
  unfold uuid_text. pose proof (Hpart 0%nat 4%nat). 
  repeat (apply Forall_app; split; [apply Hpart || done|apply Forall_cons; split; [done|]]). apply Hpart.
Qed.

(** The IDs of the service pass through the log unchanged. *)
Lemma newUUID_id random id :
  match random with Ok b => random_block b | Err _ => True end → newUUID random = Ok id →
  id ≠ "" ∧ valid_string id = id.
Proof.
  destruct random as [b|e]; [|done]. intros Hb. rewrite newUUID_text. intros [= <-].
  pose proof (uuid_ascii _ (masked_block b Hb)) as Ha. split.
  - unfold uuid_text. intros E. apply (f_equal String.length) in E.
    rewrite WalTheorems.length_of_bytes in E. rewrite !length_app in E. cbn [length] in E. 
    simpl in E. lia.
  - apply valid_string_id. rewrite to_of_bytes. by apply valid_utf8_ascii.
Qed.

(** ** Steps *)

(** A running service, with the offset of its process's clocks and the wall
    time of its last call. *)
Record Config := MkConfig {
  c_off : Z;
  c_last : Z;
  c_svc : QueueService;
  c_file : File
}.

(** What a crash leaves of the file at least. *)
Definition crash (f : File) : File := MkFile (take (f_synced f) (f_data f)) (f_synced f).

(** The clock of the process: readings of one clock that is not stepped, in a
    plausible year, and not before the last call. *)
Record clock (c : Config) (now : Time) : Prop := {
  ck_coherent : coherent (c_off c) now;
  ck_plausible : plausible now;
  ck_forward : c_last c <= t_wall now
}.

(** The sizes of the counters. *)
Record room (s : QueueService) : Prop := {
  rm_seq : s_seq s + 1 < 2 ^ 64;
  rm_order : q_nextOrder (s_queue s) + 1 < 2 ^ 64;
  rm_held : Z.of_nat (length (held s)) < 2 ^ 64
}.

Section trace.
Context `{LC : LogCodec} {LL : LogCodecLaws LC}.

(** What the system does to an append: all of it, or nothing. *)
Definition answers (io : append_io) : Prop :=
  carried_out io ∨ refused io ∧ time_ok (UTC (io_now io)) = true.

(** A call of [Enqueue]: any request whose priority is an [int], random bytes or
    an error for them, an ID not in use, a record below the limit of recovery. *)
Record may_enqueue (c : Config) (now : Time) (random : result (list Z)) (io : append_io)
    (req : EnqueueRequest) : Prop := {
  me_clock : clock c now;
  me_room : room (c_svc c);
  me_io : answers io;
  me_priority : in_i64 (r_Priority req);
  me_random : match random with Ok b => random_block b | Err _ => True end;
  me_fresh id : newUUID random = Ok id → id ∉ ID <$> held (c_svc c);
  me_size id : newUUID random = Ok id →
    readable (enqueue_entry io (new_message now id req (c_svc c)) (s_wal (c_svc c)))
}.

Record may_dequeue (c : Config) (now : Time) (io : append_io) : Prop := {
  md_clock : clock c now;
  md_room : room (c_svc c);
  md_io : answers io;
  md_size m : m ∈ held (c_svc c) → readable (dequeue_entry io (ID m) (s_wal (c_svc c)))
}.

(** The messages an enqueue acknowledged, and those a dequeue handed out. *)
Definition accepted (r : result Message) : list Message := match r with Ok m => [m] | Err _ => [] end.
Definition handed (r : result (option Message)) : list Message :=
  match r with Ok (Some m) => [m] | _ => [] end.

(** [step c acc del c']. *)
Inductive step : Config → list Message → list Message → Config → Prop :=
  | step_enqueue c now random io req r s' f' :
      may_enqueue c now random io req →
      Enqueue now random io req (c_svc c) (c_file c) = Some (r, s', f') →
      step c (accepted r) [] (MkConfig (c_off c) (t_wall now) s' f')
  | step_dequeue c now io r s' f' :
      may_dequeue c now io →
      Dequeue now io (c_svc c) (c_file c) = Some (r, s', f') →
      step c [] (handed r) (MkConfig (c_off c) (t_wall now) s' f')
  | step_snapshot c now limit v s' :
      clock c now → Snapshot now limit (c_svc c) = Some (v, s') →
      step c [] [] (MkConfig (c_off c) (t_wall now) s' (c_file c))
  | step_stats c now v s' :
      clock c now → Stats now (c_svc c) = Some (v, s') →
      step c [] [] (MkConfig (c_off c) (t_wall now) s' (c_file c))
  | step_restart c off' path mode s' :
      room (c_svc c) →
      NewQueueService path mode None read_ok (crash (c_file c)) = Some (Ok s') →
      step c [] [] (MkConfig off' (c_last c) s' (crash (c_file c))).

Inductive run : Config → list Message → list Message → Config → Prop :=
  | run_nil c : run c [] [] c
  | run_step c a d c1 a1 d1 c2 : step c a d c1 → run c1 a1 d1 c2 → run c (a ++ a1) (d ++ d1) c2.

(** A service just opened on an empty file. *)
Definition started (c : Config) : Prop :=
  ∃ path mode, f_data (c_file c) = [] ∧ f_synced (c_file c) = 0%nat ∧
    NewQueueService path mode None read_ok (c_file c) = Some (Ok (c_svc c)).

(** ** The invariant of runs *)

Record good (c : Config) (es : list logEntry) (bs : list bytes) : Prop := {
  gd_inv : inv (c_off c) (c_svc c) (c_file c) es bs;
  gd_due : due_by (c_last c) (abs (s_queue (c_svc c)))
}.

(** What a step keeps: nothing accepted is lost, nothing is handed out twice or
    too early. *)
Record keeps (c : Config) (acc del : list Message) (c' : Config) : Prop := {
  kp_good : ∃ es bs, good c' es bs;
  kp_messages : wire_message <$> acc ++ held (c_svc c) ≡ₚ wire_message <$> del ++ held (c_svc c');
  kp_due : Forall (λ m, t_wall (AvailableAt m) <= c_last c') del;
  kp_forward : c_last c <= c_last c'
}.

(** What one step keeps; it writes at most one record. *)
Record moves (c : Config) (es : list logEntry) (bs : list bytes) (acc del : list Message) (c' : Config) : Prop := {
  mv_good : ∃ de db, good c' (es ++ de) (bs ++ db) ∧ (length db <= 1)%nat;
  mv_messages : wire_message <$> acc ++ held (c_svc c) ≡ₚ wire_message <$> del ++ held (c_svc c');
  mv_due : Forall (λ m, t_wall (AvailableAt m) <= c_last c') del;
  mv_forward : c_last c <= c_last c'
}.

Lemma moves_keeps c es bs acc del c' : moves c es bs acc del c' → keeps c acc del c'.
Proof. intros [(de & db & Hg & _) Hm Hd Hf]. split; eauto. Qed.

Lemma good_still c es bs : good c es bs → ∃ de db, good c (es ++ de) (bs ++ db) ∧ (length db <= 1)%nat.
Proof. exists [], []. rewrite !app_nil_r. split; [done|simpl; lia]. Qed.

Lemma crash_good c es bs : good c es bs → crash (c_file c) = c_file c.
Proof.
  intros [Hi _]. pose proof (inv_synced _ _ _ _ _ Hi) as Hs. unfold crash. rewrite Hs, firstn_all.
  destruct (c_file c) as [data synced]. cbn in *. by rewrite Hs.
Qed.

Lemma due_by_mono w w' a : w <= w' → due_by w a → due_by w' a.
Proof. intros Hw Hd e He. specialize (Hd e He). lia. Qed.

Lemma time_ok_UTC now : time_ok (UTC now) = time_ok (MkTime (t_wall now + 0) None 0).
Proof. rewrite Z.add_0_r. done. Qed.

(** The current instants of the years up to 2146 and those ten years later can
    be written. *)
Lemma plausible_time_ok t d : plausible t → 0 <= d <= 331128000 * Second →
  time_ok (MkTime (t_wall t + d) None 0) = true.
Proof.
  intros [Hw _] Hd. unfold time_ok. rewrite andb_true_iff. split; [|done].
  apply formattable_year; [done|]. unfold abs_sec. cbn [t_wall t_zone].
  unfold wallToInternal, unixToInternal, Second in *.
  assert (- 3000000000 <= (t_wall t + d) / 1000000000 < 6000000000) as Hq
    by (split; [apply Z.div_le_lower_bound|apply Z.div_lt_upper_bound]; lia).
  generalize dependent ((t_wall t + d) / 1000000000). intros q Hq.
  split; [apply Z.div_pos|apply Z.div_lt_upper_bound]; lia.
Qed.

Lemma delay_range d : 0 <= d <= MaxDelaySeconds → 0 <= d * Second <= 331128000 * Second.
Proof. unfold MaxDelaySeconds, Second. lia. Qed.

(** The message of an accepted request can be stored, and becomes available
    exactly [DelaySeconds] after the call. *)
Lemma new_message_ok c now id req : clock c now → room (c_svc c) → in_i64 (r_Priority req) →
  Validate req = None → id ≠ "" → valid_string id = id → 0 <= s_seq (c_svc c) →
  let m := new_message now id req (c_svc c) in
  storable m ∧ coherent (c_off c) (AvailableAt m) ∧
  t_wall (AvailableAt m) = t_wall now + r_DelaySeconds req * Second.
Proof.
  intros [Hc Hp Hf] [Hs Ho Hh] Hprio [_ Hd]%Validate_None Hne Hid Hseq. cbn zeta.
  pose proof (delay_range _ Hd) as Hr.
  assert (plausible (UTC now)) as Hp' by done.
  assert (AvailableAt (new_message now id req (c_svc c)) =
    MkTime (t_wall now + r_DelaySeconds req * Second) ((λ m, m + r_DelaySeconds req * Second) <$> t_mono now) 0)
    as Hav by (cbn [new_message AvailableAt]; by rewrite Add_plausible).
  rewrite Hav. split_and!; [split|..]; try done.
  - split; try done; cbn [new_message Seq EnqueuedAt]; [unfold in_u64; lia| |].
    + rewrite time_ok_UTC. apply plausible_time_ok; [done|unfold Second; lia].
    + rewrite Hav. exact (plausible_time_ok now _ Hp Hr).
  - rewrite <- Hav. apply Add_coherent; [done|done|done].
Qed.

(** ** Each call keeps the invariant *)

Lemma moves_same c es bs now s' f' :
  good c es bs → clock c now → inv (c_off c) s' f' es bs → held s' ≡ₚ held (c_svc c) →
  due_by (t_wall now) (abs (s_queue s')) →
  moves c es bs [] [] (MkConfig (c_off c) (t_wall now) s' f').
Proof.
  intros Hg Hck Hi Hh Hd. split; cbn [c_svc c_last].
  - by apply good_still.
  - cbn [app]. by rewrite Hh.
  - constructor.
  - apply Hck.
Qed.

Lemma Enqueue_invalid now random io req s f : (∃ e, Validate req = Some e) ∨ (∃ e, newUUID random = Err e) →
  ∃ e, Enqueue now random io req s f = Some (Err e, s, f).
Proof.
  unfold Enqueue. destruct (Validate req) as [e|]; [eauto|].
  intros [[? [=]]|[e ->]]. eauto.
Qed.

Lemma Enqueue_moves c es bs now random io req :
  good c es bs → may_enqueue c now random io req →
  ∃ r s' f', Enqueue now random io req (c_svc c) (c_file c) = Some (r, s', f')
    ∧ moves c es bs (accepted r) [] (MkConfig (c_off c) (t_wall now) s' f')
    ∧ match r with
      | Ok m => storable m ∧ Payload m = r_Payload req ∧ Priority m = r_Priority req
          ∧ held s' ≡ₚ m :: held (c_svc c)
      | Err _ => held s' = held (c_svc c) ∧ f' = c_file c
      end.
Proof.
  intros Hg [Hck Hrm Hio Hprio Hrand Hfresh Hsize]. pose proof Hg as [Hi Hdue].
  assert (due_by (t_wall now) (abs (s_queue (c_svc c)))) as Hdue' by (eapply due_by_mono, Hdue; apply Hck).
  assert (((∃ e, Validate req = Some e) ∨ (∃ e, newUUID random = Err e))
    ∨ Validate req = None ∧ ∃ id, newUUID random = Ok id) as Hcase.
  { destruct (Validate req), (newUUID random); eauto 6. }
  destruct Hcase as [Hbad|[Hv [id Hid]]].
  { destruct (Enqueue_invalid now random io req (c_svc c) (c_file c) Hbad) as [e He].
    exists (Err e), (c_svc c), (c_file c). split_and!; [done| |done|done]. by eapply moves_same. }
  destruct (newUUID_id random id Hrand Hid) as [Hne Hval].
  assert (0 <= s_seq (c_svc c)) as Hs0 by apply (inv_counter _ _ _ _ _ Hi).
  destruct (new_message_ok c now id req Hck Hrm Hprio Hv Hne Hval Hs0) as (Hst & Hcoh & Hav).
  destruct Hio as [Hio|[Href Hit]].
  - destruct (Enqueue_carried_out (c_off c) now random id io req (c_svc c) (c_file c) es bs)
      as (s' & f' & b & He & Hi' & Hh & Hsq & HM & HN & HR & HW); eauto; [apply Hrm..|].
    exists (Ok (new_message now id req (c_svc c))), s', f'. split_and!; [done| |done..].
    split; cbn [c_svc c_last].
    + exists [enqueue_entry io (new_message now id req (c_svc c)) (s_wal (c_svc c))], [b].
      split; [|done]. split; [done|]. cbn [c_svc c_last]. unfold due_by in *. by rewrite HR.
    + cbn [accepted app]. by rewrite Hh.
    + constructor.
    + apply Hck.
  - destruct (Enqueue_refused (c_off c) now random id io req (c_svc c) (c_file c) es bs)
      as (e & s' & He & Hi' & Hq & Hsq & HW); eauto; [apply Hrm|].
    exists (Err e), s', (c_file c). split_and!; [done| |by unfold held; rewrite Hq|done].
    eapply moves_same; eauto; [unfold held; by rewrite Hq|by rewrite Hq].
Qed.

(** The selected message is due, and so is what is promoted with it. *)
Lemma Pop_due off q now w r q' :
  wf off q → coherent off now → w <= t_wall now → due_by w (abs q) → Pop q now = Some (r, q') →
  due_by (t_wall now) (abs q') ∧ ∀ m, r = Some m → t_wall (AvailableAt m) <= t_wall now.
Proof.
  intros Hwf Hc Hw Hdue Hp. pose proof (due_by_promote off q now w Hwf Hc Hw Hdue) as Hd.
  destruct (Pop_ok off q now Hwf Hc) as (r1 & q1 & Hp1 & _ & Ha). rewrite Hp in Hp1. injection Hp1 as <- <-.
  unfold a_pop in Ha. destruct (a_ready (a_promote now (abs q))) as [|e l] eqn:Hr;
    apply pair_equal_spec in Ha as [<- <-]; (split; [|intros m Hm; simplify_eq]).
  - done.
  - intros x Hx. apply Hd. rewrite Hr. by right.
  - apply Hd. rewrite Hr. by left.
Qed.

Lemma held_coherent off s f es bs m : inv off s f es bs → m ∈ held s → coherent off (AvailableAt m).
Proof.
  intros Hi Hm. unfold held, a_contents in Hm. rewrite abs_contents in Hm.
  apply list_elem_of_fmap in Hm as (e & -> & [p Hp]%live_entry).
  exact (wf_coherent _ _ (inv_wf _ _ _ _ _ Hi) _ _ Hp).
Qed.

(** A dequeue that found nothing, and one that selected [m]. *)
Lemma Dequeue_none_moves c es bs now io q' :
  good c es bs → clock c now → Pop (s_queue (c_svc c)) (UTC now) = Some (None, q') →
  Dequeue now io (c_svc c) (c_file c) = Some (Ok None, with_queue (c_svc c) q', c_file c)
  ∧ moves c es bs [] [] (MkConfig (c_off c) (t_wall now) (with_queue (c_svc c) q') (c_file c))
  ∧ held (with_queue (c_svc c) q') ≡ₚ held (c_svc c).
Proof.
  intros Hg Hck Hp. pose proof Hg as [Hi Hdue]. pose proof (inv_wf _ _ _ _ _ Hi) as Hwf.
  assert (coherent (c_off c) (UTC now)) as Hc by apply Hck.
  destruct (Pop_held (c_off c) (s_queue (c_svc c)) (UTC now) Hwf Hc) as (r & q1 & Hp1 & Hwf' & _ & _ & Hcont).
  rewrite Hp in Hp1. injection Hp1 as <- <-.
  destruct (Pop_due _ _ _ (c_last c) _ _ Hwf Hc ltac:(apply Hck) Hdue Hp) as [Hd _].
  split_and!; [by eapply Dequeue_empty| |exact Hcont].
  eapply moves_same; eauto. by apply inv_queue.
Qed.

Lemma Dequeue_some_moves c es bs now io m q' :
  good c es bs → clock c now → room (c_svc c) → answers io →
  Pop (s_queue (c_svc c)) (UTC now) = Some (Some m, q') →
  (m ∈ held (c_svc c) → readable (dequeue_entry io (ID m) (s_wal (c_svc c)))) →
  ∃ r s' f', Dequeue now io (c_svc c) (c_file c) = Some (r, s', f')
    ∧ moves c es bs [] (handed r) (MkConfig (c_off c) (t_wall now) s' f')
    ∧ match r with
      | Ok (Some m) => storable m ∧ held (c_svc c) ≡ₚ m :: held s'
      | _ => held s' ≡ₚ held (c_svc c) ∧ f' = c_file c
      end.
Proof.
  intros Hg Hck Hrm Hio Hp Hsize. pose proof Hg as [Hi Hdue]. pose proof (inv_wf _ _ _ _ _ Hi) as Hwf.
  assert (coherent (c_off c) (UTC now)) as Hc by apply Hck.
  destruct (Pop_held (c_off c) (s_queue (c_svc c)) (UTC now) Hwf Hc) as (r & q1 & Hp1 & _ & _ & _ & Hcont).
  rewrite Hp in Hp1. injection Hp1 as <- <-. fold (held (c_svc c)) in Hcont.
  destruct (Pop_due _ _ _ (c_last c) _ _ Hwf Hc ltac:(apply Hck) Hdue Hp) as [Hd Hm].
  assert (m ∈ held (c_svc c)) as Hin by (rewrite Hcont; by left).
  destruct Hio as [Hio|[Href Hit]].
  - destruct (Dequeue_carried_out (c_off c) now io (c_svc c) (c_file c) es bs m q')
      as (s' & f' & b & He & Hi' & Hh & Hs & Hq); auto.
    exists (Ok (Some m)), s', f'.
    pose proof (inv_storable _ _ _ _ _ Hi) as Hst. rewrite Forall_forall in Hst.
    split_and!; [done| |by apply Hst|done].
    split; cbn [c_svc c_last handed app].
    + exists [dequeue_entry io (ID m) (s_wal (c_svc c))], [b].
      split; [|done]. split; [done|]. cbn [c_svc c_last]. rewrite Hq. exact Hd.
    + by rewrite Hh.
    + constructor; [by apply Hm|constructor].
    + apply Hck.
  - destruct (Dequeue_refused (c_off c) now io (c_svc c) (c_file c) es bs m q')
      as (e & s' & He & Hi' & Hh & Hs & HR & HM'); eauto using held_coherent; [apply Hrm|].
    exists (Err e), s', (c_file c). split_and!; [done| |done|done].
    eapply moves_same; eauto. unfold due_by in *. by rewrite HR.
Qed.

Lemma Dequeue_moves c es bs now io :
  good c es bs → may_dequeue c now io →
  ∃ r s' f', Dequeue now io (c_svc c) (c_file c) = Some (r, s', f')
    ∧ moves c es bs [] (handed r) (MkConfig (c_off c) (t_wall now) s' f')
    ∧ match r with
      | Ok (Some m) => storable m ∧ held (c_svc c) ≡ₚ m :: held s'
      | _ => held s' ≡ₚ held (c_svc c) ∧ f' = c_file c
      end.
Proof.
  intros Hg [Hck Hrm Hio Hsize]. pose proof Hg as [Hi _].
  assert (coherent (c_off c) (UTC now)) as Hc by apply Hck.
  destruct (Pop_held (c_off c) (s_queue (c_svc c)) (UTC now) (inv_wf _ _ _ _ _ Hi) Hc)
    as ([m|] & q' & Hp & _).
  - eapply Dequeue_some_moves; eauto.
  - destruct (Dequeue_none_moves c es bs now io q' Hg Hck Hp) as (He & Hm & Hh).
    exists (Ok None), (with_queue (c_svc c) q'), (c_file c). by split_and!.
Qed.

Lemma promoted_moves c es bs now q' :
  good c es bs → clock c now → wf (c_off c) q' → abs q' = a_promote (UTC now) (abs (s_queue (c_svc c))) →
  moves c es bs [] [] (MkConfig (c_off c) (t_wall now) (with_queue (c_svc c) q') (c_file c))
  ∧ held (with_queue (c_svc c) q') ≡ₚ held (c_svc c).
Proof.
  intros Hg Hck Hwf' Ha. pose proof Hg as [Hi Hdue].
  assert (a_contents (abs q') ≡ₚ held (c_svc c)) as Hh by (rewrite Ha; apply a_contents_promote).
  split; [|exact Hh].
  eapply moves_same; eauto; [by apply inv_queue|]. cbn [with_queue s_queue]. rewrite Ha.
  apply (due_by_promote (c_off c) _ (UTC now) (c_last c)); [apply Hi|apply Hck|apply Hck|done].
Qed.

Lemma Snapshot_moves c es bs now limit :
  good c es bs → clock c now →
  ∃ v s', Snapshot now limit (c_svc c) = Some (v, s')
    ∧ moves c es bs [] [] (MkConfig (c_off c) (t_wall now) s' (c_file c))
    ∧ held s' ≡ₚ held (c_svc c).
Proof.
  intros Hg Hck. pose proof Hg as [Hi Hdue].
  destruct (Snapshot_ok (c_off c) (s_queue (c_svc c)) (UTC now) limit) as (q' & Hs & Hwf' & Ha);
    [apply Hi|apply Hck|].
  unfold Snapshot. rewrite Hs. cbn [mbind option_bind].
  eexists _, _. split; [done|]. by eapply promoted_moves.
Qed.

Lemma Stats_moves c es bs now :
  good c es bs → clock c now →
  ∃ v s', Stats now (c_svc c) = Some (v, s')
    ∧ moves c es bs [] [] (MkConfig (c_off c) (t_wall now) s' (c_file c))
    ∧ held s' ≡ₚ held (c_svc c).
Proof.
  intros Hg Hck. pose proof Hg as [Hi Hdue].
  destruct (AvailableLen_ok (c_off c) (s_queue (c_svc c)) (UTC now)) as (q' & Hs & Hwf' & Ha);
    [apply Hi|apply Hck|].
  unfold Stats. rewrite Hs. cbn [mbind option_bind].
  eexists _, _. split; [done|]. by eapply promoted_moves.
Qed.

Lemma restart_moves c es bs off' path mode :
  good c es bs → room (c_svc c) → Valid mode = true →
  ∃ s', NewQueueService path mode None read_ok (crash (c_file c)) = Some (Ok s')
    ∧ moves c es bs [] [] (MkConfig off' (c_last c) s' (crash (c_file c))).
Proof.
  intros Hg Hrm Hmode. rewrite (crash_good _ _ _ Hg). pose proof Hg as [Hi _].
  destruct (restart_ok (c_off c) off' mode path (c_svc c) (c_file c) es bs)
    as (s' & Hn & Hi' & Hh & HM & HR & _); [done|done|apply Hrm|].
  exists s'. split; [done|]. split; cbn [c_svc c_last app].
  - apply good_still. split; [done|]. cbn [c_svc c_last]. intros e. rewrite HR. intros He. by apply not_elem_of_nil in He.
  - rewrite Hh, wire_all by apply Hi. done.
  - constructor.
  - done.
Qed.

Lemma NewQueueService_valid path mode oe io f s :
  NewQueueService path mode oe io f = Some (Ok s) → Valid mode = true.
Proof. unfold NewQueueService. by destruct (Valid mode). Qed.

Lemma step_moves c es bs a d c' : good c es bs → step c a d c' → moves c es bs a d c'.
Proof.
  intros Hg Hs. destruct Hs.
  - destruct (Enqueue_moves c es bs now random io req) as (? & ? & ? & ? & ? & _); [done..|]. by simplify_eq.
  - destruct (Dequeue_moves c es bs now io) as (? & ? & ? & ? & ? & _); [done..|]. by simplify_eq.
  - destruct (Snapshot_moves c es bs now limit) as (? & ? & ? & ? & _); [done..|]. by simplify_eq.
  - destruct (Stats_moves c es bs now) as (? & ? & ? & ? & _); [done..|]. by simplify_eq.
  - destruct (restart_moves c es bs off' path mode) as (? & ? & ?); [done|done|by eapply NewQueueService_valid|].
    by simplify_eq.
Qed.

Lemma perm_chain {A} (a d h a1 d1 h1 h2 : list A) :
  a ++ h ≡ₚ d ++ h1 → a1 ++ h1 ≡ₚ d1 ++ h2 → (a ++ a1) ++ h ≡ₚ (d ++ d1) ++ h2.
Proof.
  intros H1 H2. rewrite (Permutation_app_comm a a1), <- !app_assoc, H1, <- H2.
  rewrite !app_assoc. by rewrite (Permutation_app_comm a1 d).
Qed.

Lemma keeps_trans c a d c1 a1 d1 c2 : keeps c a d c1 → keeps c1 a1 d1 c2 → keeps c (a ++ a1) (d ++ d1) c2.
Proof.
  intros [_ Hm1 Hd1 Hf1] [Hg Hm2 Hd2 Hf2]. split.
  - done.
  - rewrite !fmap_app in *. eapply perm_chain; [exact Hm1|exact Hm2].
  - apply Forall_app. split; [|done]. eapply Forall_impl; [exact Hd1|]. simpl. lia.
  - lia.
Qed.

Lemma run_snoc c a d c1 a1 d1 c2 : run c a d c1 → step c1 a1 d1 c2 → run c (a ++ a1) (d ++ d1) c2.
Proof.
  intros Hr Hs. induction Hr as [c|c a d c1 a2 d2 c3 Hs' _ IH].
  - pose proof (run_step _ _ _ _ _ _ _ Hs (run_nil c2)) as H. by rewrite !app_nil_r in H.
  - rewrite <- !app_assoc. eapply run_step; [exact Hs'|]. by apply IH.
Qed.

Lemma run_keeps c a d c' es bs : good c es bs → run c a d c' → keeps c a d c'.
Proof.
  intros Hg Hr. revert es bs Hg. induction Hr as [c|c a d c1 a1 d1 c2 Hs _ IH]; intros es bs Hg.
  - split; cbn [app]; [by exists es, bs|done|constructor|done].
  - pose proof (moves_keeps _ _ _ _ _ _ (step_moves _ _ _ _ _ _ Hg Hs)) as Hk. destruct (kp_good _ _ _ _ Hk) as (es1 & bs1 & Hg1).
    eapply keeps_trans; [exact Hk|]. by eapply IH.
Qed.

Lemma started_good c : started c → good c [] [] ∧ held (c_svc c) = [].
Proof.
  intros (path & mode & Hd & Hs & Hn). pose proof (NewQueueService_valid _ _ _ _ _ _ Hn) as Hmode.
  destruct c as [off last s f]. cbn [c_svc c_file c_off c_last] in *. destruct f as [data synced].
  cbn [f_data f_synced] in *. subst.
  destruct (open_recovered off mode path (MkFile [] 0) [] (Wal.MkWAL true path 0))
    as (s' & Hn' & Hwf & Hh & Hs & Hcl & HW & HM & HR & HN); try done; [constructor..|].
  rewrite Hn in Hn'. injection Hn' as <-. apply Permutation_nil_r in Hh.
  assert (held s = []) as Hh0 by exact Hh.
  split; [|done]. split; cbn [c_svc c_last].
  - split; cbn [c_off c_file]; rewrite ?Hh0; try done; try constructor; rewrite ?HW, ?Hs; try done.
  - intros e. rewrite HR. intros He. by apply not_elem_of_nil in He.
Qed.
End trace.
