(* ===== verification/ServiceTheorems.v ===== *)
(** * What the durable queue guarantees

    Durability across restarts and crashes, the order and the time of
    deliveries, the numbering of messages, the error paths of every call, and
    what a failed sync leaves behind. *)

From S2P Require Import Prelude GoTime GoStrconv GoUtf8 GoHeap GoSort GoJson GoTimeFormat Model.
From S2P Require Import Codec CodecFacts LogRecord Engine EngineHeap EngineSpec EngineRefine EngineTheorems.
From S2P Require Wal WalFacts WalTheorems.
From S2P Require Import Service ServiceFacts ServiceTrace.
From Stdlib Require Import Ascii.

Import Wal (WAL, File, MkFile, append_io, MkAppendIO, read_io, f_data, f_synced, io_now, io_write, io_sync, w_open, read_ok).
Import WalFacts (log_bytes, written, is_line, a_apply).
Import WalTheorems (enqueue_entry, dequeue_entry, next_wal).

Local Open Scope Z_scope.

Section theory.
Context `{LC : LogCodec} {LL : LogCodecLaws LC}.

(** ** Delivery order of a running service *)

(** A configuration a service can get into. *)
Definition reachable (c : Config) : Prop := ∃ c0 acc del, started c0 ∧ run c0 acc del c.

Lemma reachable_good c : reachable c → ∃ es bs, good c es bs.
Proof.
  intros (c0 & acc & del & Hs & Hr). destruct (started_good _ Hs) as [Hg _].
  exact (kp_good _ _ _ _ (run_keeps _ _ _ _ _ _ Hg Hr)).
Qed.

Lemma due_available off q w now :
  wf off q → coherent off now → w <= t_wall now → due_by w (abs q) →
  Forall (λ m, Available m now = true) (fst <$> a_ready (abs q)).
Proof.
  intros Hwf Hc Hw Hdue. rewrite Forall_fmap, Forall_forall. intros e He. cbn.
  rewrite (Available_coherent off); [specialize (Hdue e He); lia| |done].
  assert (∃ p, live q p e) as [p Hp].
  { apply live_entry. cbn [abs a_ready] in He. rewrite insertion_sort_perm in He. set_solver. }
  exact (wf_coherent _ _ Hwf _ _ Hp).
Qed.

Lemma promoted_order c es bs now :
  good c es bs → clock c now →
  fst <$> a_ready (a_promote (UTC now) (abs (s_queue (c_svc c)))) =
    delivery_order (Mode (s_queue (c_svc c))) now (held (c_svc c)).
Proof.
  intros [Hi Hdue] Hck. unfold held.
  rewrite (ready_delivery (c_off c) (s_queue (c_svc c)) (UTC now)); [done|apply Hi| |].
  - apply (inv_seqs _ _ _ _ _ Hi).
  - apply (due_available (c_off c) _ (c_last c)); [apply Hi|apply Hck|apply Hck|done].
Qed.

Lemma delayed_order c es bs now :
  good c es bs → clock c now →
  fst <$> a_delayed (a_promote (UTC now) (abs (s_queue (c_svc c)))) ≡ₚ
    filter (λ m, Available m now = false) (held (c_svc c)).
Proof.
  intros [Hi Hdue] Hck. set (a := abs (s_queue (c_svc c))). cbn [a_promote a_delayed].
  unfold held, a_contents. fold a. rewrite fmap_app, filter_app.
  rewrite (filter_none _ (fst <$> a_ready a)).
  - rewrite filter_fmap. cbn [app]. apply fmap_Permutation.
    erewrite filter_ext_in; [done|]. intros e _. unfold matured.
    rewrite not_true_iff_false. done.
  - pose proof (due_available (c_off c) (s_queue (c_svc c)) (c_last c) now) as Hav.
    rewrite Forall_forall in Hav. intros m Hm. rewrite Hav; [done|apply Hi|apply Hck|apply Hck|done|done].
Qed.
(** ** Opening what a crash leaves *)

Lemma open_log c es bs off mode path f w :
  good c es bs → Valid mode = true → w_open w = true → Z.of_nat (length (held (c_svc c))) < 2 ^ 64 →
  Wal.Recover read_ok (Wal.MkWAL true path 0) f = (Ok (WalFacts.by_seq (WalFacts.contents es)), w) →
  ∃ s', NewQueueService path mode None read_ok f = Some (Ok s') ∧ wf off (s_queue s')
    ∧ held s' ≡ₚ wire_message <$> held (c_svc c).
Proof.
  intros [Hi _] Hmode Hw Hlen Hrec.
  assert (WalFacts.by_seq (WalFacts.contents es) ≡ₚ wire_message <$> held (c_svc c)) as Hl.
  { unfold WalFacts.by_seq. rewrite insertion_sort_perm. apply Hi. }
  destruct (open_recovered off mode path f _ w Hmode Hw Hrec) as (s' & Hn & Hwf & Hh & _).
  - unfold WalFacts.by_seq. rewrite insertion_sort_perm, (inv_log_ids _ _ _ _ _ Hi).
    exact (held_ids _ _ (inv_wf _ _ _ _ _ Hi)).
  - rewrite Hl, Forall_fmap. by apply Forall_true.
  - by rewrite Hl, length_fmap.
  - exists s'. by rewrite Hh, Hl.
Qed.

(** A file that ends anywhere in what was appended at the end. *)
Lemma crash_cut c es bs c' de db off mode path n :
  good c es bs → good c' (es ++ de) (bs ++ db) → (length db <= 1)%nat →
  Z.of_nat (length (held (c_svc c))) < 2 ^ 64 → Z.of_nat (length (held (c_svc c'))) < 2 ^ 64 → Valid mode = true →
  (length (f_data (c_file c)) <= n)%nat →
  ∃ s', NewQueueService path mode None read_ok (MkFile (take n (f_data (c_file c'))) n) = Some (Ok s')
    ∧ wf off (s_queue s')
    ∧ (held s' ≡ₚ wire_message <$> held (c_svc c) ∨ held s' ≡ₚ wire_message <$> held (c_svc c')).
Proof.
  intros Hg Hg' Hlen Hr Hr' Hmode Hn. pose proof Hg as [Hi _]. pose proof Hg' as [Hi' _].
  pose proof (inv_written _ _ _ _ _ Hi) as Hw. pose proof (inv_written _ _ _ _ _ Hi') as Hw'.
  rewrite (inv_data _ _ _ _ _ Hi'). rewrite (inv_data _ _ _ _ _ Hi) in Hn.
  rewrite WalFacts.log_bytes_app. rewrite take_app_ge by done.
  assert (Forall2 is_line de db) as Hde.
  { apply Forall2_app_inv in Hw' as [_ Hde]; [done|]. by eapply Forall2_length. }
  destruct db as [|b [|? ?]]; [| |simpl in Hlen; lia].
  - apply Forall2_nil_inv_r in Hde as ->. cbn [log_bytes mbind list_bind]. rewrite take_nil, app_nil_r.
    destruct (open_log c es bs off mode path (MkFile (log_bytes bs) n)
      (Wal.MkWAL true path (Wal.fo_maxSeq (WalFacts.replay es)))) as (s' & ? & ? & ?);
      [done|done|done|done|by rewrite (WalFacts.Recover_log path 0 es bs n Hw), WalFacts.replay_sorted|].
    exists s'. eauto.
  - apply Forall2_cons_inv_r in Hde as (e & de' & Hl & Hnil & ->). apply Forall2_nil_inv_r in Hnil as ->.
    assert (log_bytes [b] = b ++ [Wal.newline]) as -> by (unfold log_bytes; csimpl; by rewrite app_nil_r).
    destruct (Recover_cut path es bs e b (n - length (log_bytes bs)) n Hw Hl) as (es' & [->| ->] & Hrec).
    + destruct (open_log c es bs off mode path _ (Wal.MkWAL true path _) Hg Hmode eq_refl Hr Hrec) as (s' & ? & ? & ?).
      exists s'. eauto.
    + destruct (open_log c' (es ++ [e]) (bs ++ [b]) off mode path _ (Wal.MkWAL true path _) Hg' Hmode eq_refl Hr' Hrec)
        as (s' & ? & ? & ?).
      exists s'. eauto.
Qed.

Lemma crash_in_step c es bs acc del c' off mode path n :
  good c es bs → step c acc del c' → room (c_svc c) → room (c_svc c') → Valid mode = true →
  (length (f_data (c_file c)) <= n)%nat →
  ∃ s', NewQueueService path mode None read_ok (MkFile (take n (f_data (c_file c'))) n) = Some (Ok s')
    ∧ wf off (s_queue s')
    ∧ (held s' ≡ₚ wire_message <$> held (c_svc c) ∨ held s' ≡ₚ wire_message <$> held (c_svc c')).
Proof.
  intros Hg Hs Hr Hr' Hmode Hn.
  destruct (mv_good _ _ _ _ _ _ (step_moves _ _ _ _ _ _ Hg Hs)) as (de & db & Hg' & Hlen).
  eapply crash_cut; [exact Hg|exact Hg'|exact Hlen|apply Hr|apply Hr'|done|done].
Qed.

(** ** Single calls *)

Lemma Snapshot_lists c es bs now :
  good c es bs → clock c now →
  ∃ s', Snapshot now 0 (c_svc c) = Some
    (let a := a_promote (UTC now) (abs (s_queue (c_svc c))) in
     MkQueueSnapshot (Mode (s_queue (c_svc c))) (UTC now)
      (MkQueueStats (Z.of_nat (length (held (c_svc c)))) (Z.of_nat (length (a_ready a))) (Z.of_nat (length (a_delayed a))))
      (fst <$> a_ready a) (fst <$> a_delayed a) false false, s').
Proof.
  intros [Hi Hdue] Hck.
  destruct (Snapshot_ok (c_off c) (s_queue (c_svc c)) (UTC now) 0) as (q' & Hs & Hwf' & Ha);
    [apply Hi|apply Hck|].
  exists (with_queue (c_svc c) q'). unfold Snapshot. rewrite Hs. cbn [mbind option_bind].
  assert (Mode q' = Mode (s_queue (c_svc c))) as -> by exact (f_equal a_mode Ha).
  cbn zeta. set (a := a_promote _ _) in *. unfold a_view, page. cbn [Z.ltb Z.compare andb fst snd v_ReadyLen v_DelayedLen v_Ready v_Delayed v_ReadyTruncated v_DelayedTruncated].
  do 4 f_equal. 
  assert (length (a_contents a) = length (held (c_svc c))) as <-.
  { apply Permutation_length. unfold a. apply a_contents_promote. }
  unfold a_contents. rewrite length_fmap, length_app. done.
Qed.

(** What the next pop takes. *)
Lemma Pop_next c es bs now :
  good c es bs → clock c now →
  let r := head (delivery_order (Mode (s_queue (c_svc c))) now (held (c_svc c))) in
  ∃ q', Pop (s_queue (c_svc c)) (UTC now) = Some (r, q') ∧ wf (c_off c) q'
    ∧ Mode q' = Mode (s_queue (c_svc c)) ∧ q_nextOrder q' = q_nextOrder (s_queue (c_svc c))
    ∧ match r with
      | Some m => m ∈ held (c_svc c) ∧ Available m now = true ∧ held (c_svc c) ≡ₚ m :: a_contents (abs q')
      | None => a_contents (abs q') ≡ₚ held (c_svc c)
      end.
Proof.
  intros Hg Hck. pose proof Hg as [Hi _]. pose proof (inv_wf _ _ _ _ _ Hi) as Hwf.
  assert (coherent (c_off c) (UTC now)) as Hc by apply Hck.
  destruct (Pop_ok _ _ _ Hwf Hc) as (r & q' & Hp & Hwf' & Ha).
  destruct (Pop_held _ _ _ Hwf Hc) as (r1 & q1 & Hp1 & _ & HM & HN & Hcont).
  rewrite Hp in Hp1. injection Hp1 as <- <-. cbn zeta.
  assert (r = head (delivery_order (Mode (s_queue (c_svc c))) now (held (c_svc c)))) as Hr.
  { rewrite <- (promoted_order c es bs now Hg Hck). unfold a_pop in Ha.
    destruct (a_ready _) as [|e l]; by apply pair_equal_spec in Ha as [<- _]. }
  rewrite <- Hr. exists q'. split_and!; try done. destruct r as [m|]; [|done].
  symmetry in Hr. apply head_Some_elem_of in Hr. unfold delivery_order in Hr.
  rewrite insertion_sort_perm in Hr. by apply list_elem_of_filter in Hr as [Hav Hin].
Qed.

(** What the log gives back is delivered like what was in memory. *)
Lemma wire_delivery c es bs now now' l :
  good c es bs → clock c now → t_wall now' = t_wall now → l ≡ₚ wire_message <$> held (c_svc c) →
  delivery_order (Mode (s_queue (c_svc c))) now' l =
    wire_message <$> delivery_order (Mode (s_queue (c_svc c))) now (held (c_svc c))
  ∧ filter (λ m, Available m now' = false) l ≡ₚ
    wire_message <$> filter (λ m, Available m now = false) (held (c_svc c)).
Proof.
  intros [Hi _] Hck Hw Hl. split.
  - rewrite <- (delivery_order_wire (c_off c) _ now now').
    + apply delivery_order_perm; [|done]. rewrite <- list_fmap_compose. apply (inv_seqs _ _ _ _ _ Hi).
    + apply Forall_forall. intros m Hm. by eapply held_coherent.
    + apply Hck.
    + done.
  - rewrite Hl, filter_fmap. apply fmap_Permutation. erewrite filter_ext_in; [done|].
    intros m Hm. cbn. rewrite (wire_available (c_off c) m now now'); [done|by eapply held_coherent|apply Hck|done].
Qed.
End theory.

(** ** A sample run: two messages, then the first is consumed *)

Module Sample.

Definition off : Z := 1700000000 * Second.
Definition at_s (s : Z) : Time := MkTime (off + s * Second) (Some (s * Second)) 0.
Definition io (s : Z) : append_io := MkAppendIO (at_s s) None None.

(** A full disk: the write fails without a byte written. *)
Definition io_full : append_io := MkAppendIO (at_s 3) (Some (0%nat, ErrNew "no space left on device")) None.
Definition io_unsynced : append_io := MkAppendIO (at_s 3) None (Some (ErrNew "input/output error")).
Definition req (payload : string) (prio delay : Z) : EnqueueRequest := MkEnqueueRequest payload prio delay.
Definition block (k : Z) : list Z := seqZ k 16.

Definition opened (f : File) : QueueService :=
  match NewQueueService "queue.wal" ModeFIFO None read_ok f with
  | Some (Ok s) => s
  | _ => MkService (MkQueue [] (MkReadyHeap ModeFIFO []) (MkDelayedHeap []) ∅ 0) (Wal.MkWAL false "" 0) 0 true
  end.

Definition c0 : Config := MkConfig off off (opened (MkFile [] 0)) (MkFile [] 0).

Definition enqueue (c : Config) (s k : Z) (r : EnqueueRequest) : Config :=
  match Enqueue (at_s s) (Ok (block k)) (io s) r (c_svc c) (c_file c) with
  | Some (_, s', f') => MkConfig (c_off c) (t_wall (at_s s)) s' f'
  | None => c
  end.

Definition dequeue (c : Config) (s : Z) : Config :=
  match Dequeue (at_s s) (io s) (c_svc c) (c_file c) with
  | Some (_, s', f') => MkConfig (c_off c) (t_wall (at_s s)) s' f'
  | None => c
  end.

Definition message (k seq s : Z) (r : EnqueueRequest) : Message :=
  MkMessage (match newUUID (Ok (block k)) with Ok id => id | Err _ => "" end) seq (r_Payload r) (r_Priority r)
    (at_s s) (at_s (s + r_DelaySeconds r)) StatusPending.

Definition first : EnqueueRequest := req "first" 0 0.
Definition second : EnqueueRequest := req "second" 5 60.
Definition c1 : Config := Eval vm_compute in enqueue c0 1 10 first.
Definition c2 : Config := Eval vm_compute in enqueue c1 2 50 second.
Definition c3 : Config := Eval vm_compute in dequeue c2 3.

Lemma c0_started : started c0.
Proof. exists "queue.wal", ModeFIFO. split_and!; reflexivity. Qed.

Ltac solve_decision_vm := apply (bool_decide_unpack _); vm_compute; exact I.
Ltac solve_clock := split; [by vm_compute|solve_decision_vm|by vm_compute].
Ltac solve_room := split; by vm_compute.
Ltac solve_carried_out := by split_and!; vm_compute.
Ltac solve_readable := intros ? E; vm_compute in E; injection E as <-; by vm_compute.
Ltac solve_may_enqueue :=
  split; [solve_clock|solve_room|left; solve_carried_out|by vm_compute
    |split; [done|solve_decision_vm]
    |intros id E; vm_compute in E; injection E as <-; solve_decision_vm
    |intros id E; vm_compute in E; injection E as <-; solve_readable].
Ltac compute_held Hm :=
  match type of Hm with
  | _ ∈ ?h =>
      let l := eval vm_compute in h in
      let E := fresh in assert (h = l) as E by (vm_compute; reflexivity); rewrite E in Hm; clear E
  end.
Ltac solve_may_dequeue :=
  split; [solve_clock|solve_room|left; solve_carried_out
    |intros m Hm; compute_held Hm; repeat (apply elem_of_cons in Hm as [->|Hm]; [solve_readable|]); inversion Hm].

Lemma c1_step : step c0 [message 10 1 1 first] [] c1.
Proof.
  apply (step_enqueue c0 (at_s 1) (Ok (block 10)) (io 1) first (Ok (message 10 1 1 first)) (c_svc c1) (c_file c1)).
  - solve_may_enqueue.
  - vm_compute. reflexivity.
Qed.

Lemma c2_step : step c1 [message 50 2 2 second] [] c2.
Proof.
  apply (step_enqueue c1 (at_s 2) (Ok (block 50)) (io 2) second (Ok (message 50 2 2 second)) (c_svc c2) (c_file c2)).
  - solve_may_enqueue.
  - vm_compute. reflexivity.
Qed.

Lemma c3_step : step c2 [] [message 10 1 1 first] c3.
Proof.
  apply (step_dequeue c2 (at_s 3) (io 3) (Ok (Some (message 10 1 1 first))) (c_svc c3) (c_file c3)).
  - solve_may_dequeue.
  - vm_compute. reflexivity.
Qed.

Lemma c3_run : run c0 [message 10 1 1 first; message 50 2 2 second] [message 10 1 1 first] c3.
Proof.
  apply (run_step c0 [_] [] c1 [_] [_] c3 c1_step), (run_step c1 [_] [] c2 [] [_] c3 c2_step).
  apply (run_step c2 [] [_] c3 [] [] c3 c3_step), run_nil.
Qed.

Lemma c1_reachable : reachable c1.
Proof.
  exists c0, [message 10 1 1 first], []. split; [exact c0_started|].
  apply (run_step c0 [_] [] c1 [] [] c1 c1_step), run_nil.
Qed.

Lemma c2_reachable : reachable c2.
Proof.
  exists c0, [message 10 1 1 first; message 50 2 2 second], []. split; [exact c0_started|].
  apply (run_step c0 [_] [] c1 [_] [] c2 c1_step), (run_step c1 [_] [] c2 [] [] c2 c2_step), run_nil.
Qed.

(** The first message enqueued and consumed: an empty queue with a log. *)
Definition drained : Config := Eval vm_compute in dequeue c1 3.

Lemma drained_step : step c1 [] [message 10 1 1 first] drained.
Proof.
  apply (step_dequeue c1 (at_s 3) (io 3) (Ok (Some (message 10 1 1 first))) (c_svc drained) (c_file drained)).
  - solve_may_dequeue.
  - vm_compute. reflexivity.
Qed.

Lemma drained_reachable : reachable drained.
Proof.
  exists c0, [message 10 1 1 first], [message 10 1 1 first]. split; [exact c0_started|].
  apply (run_step c0 [_] [] c1 [] [_] drained c1_step), (run_step c1 [] [_] drained [] [] drained drained_step), run_nil.
Qed.
End Sample.

(** C5: In any run of a service that began on an empty log, through any
    sequence of calls, of appends the system carries out or refuses whole (an
    error with no byte written), and of restarts after crashes, the messages
    acknowledged to producers are exactly those handed to consumers together
    with those a service started from the log now would hold: none is lost and
    none is handed out twice.  Messages are compared in the form in which the
    log carries them.  A write that fails half way and a sync that fails are not
    in such runs: what they do is [torn_tail_swallows_the_next_record],
    [unsynced_dequeue_loses_the_message] and [unsynced_enqueue_leaves_a_ghost]. *)
Theorem acknowledged_messages_are_durable `{LL : LogCodecLaws} c0 acc del c off' path mode :
  started c0 → run c0 acc del c → room (c_svc c) → Valid mode = true →
  ∃ s', NewQueueService path mode None read_ok (crash (c_file c)) = Some (Ok s')
    ∧ wire_message <$> acc ≡ₚ wire_message <$> del ++ held s'
    ∧ ∃ es bs, inv off' s' (crash (c_file c)) es bs.
Proof.
  intros Hs Hr Hrm Hmode. destruct (started_good _ Hs) as [Hg Hh].
  pose proof (run_keeps _ _ _ _ _ _ Hg Hr) as Hk. destruct (kp_good _ _ _ _ Hk) as (es & bs & Hg').
  destruct (restart_moves c es bs off' path mode Hg' Hrm Hmode) as (s' & Hn & Hk'%moves_keeps).
  exists s'. split; [done|]. pose proof (kp_messages _ _ _ _ (keeps_trans _ _ _ _ _ _ _ Hk Hk')) as Hm.
  rewrite Hh, !app_nil_r in Hm. split; [exact Hm|].
  destruct (kp_good _ _ _ _ Hk') as (es' & bs' & [Hi _]). by exists es', bs'.
Qed.

Lemma acknowledged_messages_are_durable_witness : ∃ s',
  NewQueueService "queue.wal" ModeFIFO None read_ok (crash (c_file Sample.c3)) = Some (Ok s')
    ∧ wire_message <$> [Sample.message 10 1 1 Sample.first; Sample.message 50 2 2 Sample.second]
        ≡ₚ wire_message <$> [Sample.message 10 1 1 Sample.first] ++ held s'
    ∧ ∃ es bs, inv 0 s' (crash (c_file Sample.c3)) es bs.
Proof.
  apply (acknowledged_messages_are_durable Sample.c0 _ _ Sample.c3 0 "queue.wal" ModeFIFO).
  - exact Sample.c0_started.
  - exact Sample.c3_run.
  - Sample.solve_room.
  - reflexivity.
Defined.

(** C6: In every configuration the service can get into, a dequeue that the log
    accepts returns the first message of the delivery order of the messages in
    memory (highest priority, then lowest or highest number by mode, among those
    that are due), which is due; that message and no other leaves the memory.
    When no message is due it returns nothing and changes no contents and no
    byte of the log. *)
Theorem dequeue_delivers_in_order `{LL : LogCodecLaws} c now io :
  reachable c → may_dequeue c now io → carried_out io →
  let next := head (delivery_order (Mode (s_queue (c_svc c))) now (held (c_svc c))) in
  ∃ s' f', Dequeue now io (c_svc c) (c_file c) = Some (Ok next, s', f') ∧
    match next with
    | Some m => Available m now = true ∧ held (c_svc c) ≡ₚ m :: held s'
    | None => held (c_svc c) ≡ₚ held s' ∧ f' = c_file c
    end.
Proof.
  intros (es & bs & Hg)%reachable_good [Hck Hrm _ Hsize] Hio. cbn zeta. pose proof Hg as [Hi _].
  destruct (Pop_next c es bs now Hg Hck) as (q' & Hp & Hwf' & _ & _ & Hr). cbn zeta in Hp, Hr.
  destruct (head _) as [m|].
  - destruct Hr as (Hin & Hav & Hcont).
    destruct (Dequeue_carried_out (c_off c) now io (c_svc c) (c_file c) es bs m q')
      as (s' & f' & b & He & _ & Hh & _); auto; [apply Hck|].
    exists s', f'. by split_and!.
  - exists (with_queue (c_svc c) q'), (c_file c). split; [by eapply Dequeue_empty|]. by split.
Qed.

Lemma dequeue_delivers_in_order_witness :
  ∃ s' f', Dequeue (Sample.at_s 3) (Sample.io 3) (c_svc Sample.c2) (c_file Sample.c2)
      = Some (Ok (Some (Sample.message 10 1 1 Sample.first)), s', f') ∧
    Available (Sample.message 10 1 1 Sample.first) (Sample.at_s 3) = true
    ∧ held (c_svc Sample.c2) ≡ₚ Sample.message 10 1 1 Sample.first :: held s'.
Proof.
  apply (dequeue_delivers_in_order Sample.c2 (Sample.at_s 3) (Sample.io 3)).
  - exact Sample.c2_reachable.
  - Sample.solve_may_dequeue.
  - Sample.solve_carried_out.
Defined.

(** C7: A restart preserves the queue: at the same wall time, whatever the
    clock offset of the new process, the snapshot of the restarted service lists
    the same messages as ready in the same order, the same messages as delayed,
    and the same counts; only what the log's text does not carry is lost (the
    monotonic readings, and bytes that are not UTF-8). *)
Theorem restart_preserves_the_queue `{LL : LogCodecLaws} c off' path now now' :
  reachable c → room (c_svc c) → clock c now → coherent off' now' → t_wall now' = t_wall now →
  plausible now' →
  ∃ s' v s1 v' s2,
    NewQueueService path (Mode (s_queue (c_svc c))) None read_ok (crash (c_file c)) = Some (Ok s')
    ∧ Snapshot now 0 (c_svc c) = Some (v, s1) ∧ Snapshot now' 0 s' = Some (v', s2)
    ∧ sn_Ready v' = wire_message <$> sn_Ready v
    ∧ sn_Delayed v' ≡ₚ wire_message <$> sn_Delayed v
    ∧ sn_Stats v' = sn_Stats v ∧ sn_Mode v' = sn_Mode v.
Proof.
  intros (es & bs & Hg)%reachable_good Hrm Hck Hc' Hw Hpl.
  rewrite (crash_good _ _ _ Hg). pose proof Hg as [Hi _].
  assert (Valid (Mode (s_queue (c_svc c))) = true) as Hmode by apply (wf_mode _ _ (inv_wf _ _ _ _ _ Hi)).
  destruct (restart_ok (c_off c) off' _ path (c_svc c) (c_file c) es bs Hi Hmode)
    as (s' & Hn & Hi' & Hh & HM & HR & _); [apply Hrm|].
  set (c' := MkConfig off' (t_wall now) s' (c_file c)).
  assert (good c' es bs) as Hg'.
  { split; [done|]. intros e. cbn [c' c_svc]. rewrite HR. intros He. by apply not_elem_of_nil in He. }
  assert (clock c' now') as Hck' by (split; [done|done|cbn; lia]).
  destruct (Snapshot_lists c es bs now Hg Hck) as [s1 Hs1].
  destruct (Snapshot_lists c' es bs now' Hg' Hck') as [s2 Hs2].
  pose proof (promoted_order c es bs now Hg Hck) as HrA. pose proof (promoted_order c' es bs now' Hg' Hck') as HrB.
  pose proof (delayed_order c es bs now Hg Hck) as HdA. pose proof (delayed_order c' es bs now' Hg' Hck') as HdB.
  cbn [c' c_svc] in *. rewrite HM in HrB.
  destruct (wire_delivery c es bs now now' (held s') Hg Hck Hw Hh) as [Ho Hf].
  eexists s', _, s1, _, s2. split_and!; [done|exact Hs1|exact Hs2|..]; cbn [sn_Ready sn_Delayed sn_Stats sn_Mode].
  4: exact HM.
  - by rewrite HrB, HrA, Ho.
  - by rewrite HdB, HdA, Hf.
  - f_equal.
    + by rewrite Hh, length_fmap.
    + rewrite <- (length_fmap fst (a_ready (a_promote (UTC now') _))), <- (length_fmap fst (a_ready (a_promote (UTC now) _))).
      by rewrite HrB, HrA, Ho, length_fmap.
    + rewrite <- (length_fmap fst (a_delayed (a_promote (UTC now') _))), <- (length_fmap fst (a_delayed (a_promote (UTC now) _))).
      by rewrite HdB, HdA, Hf, length_fmap.
Qed.

Lemma restart_preserves_the_queue_witness : ∃ s' v s1 v' s2,
    NewQueueService "queue.wal" ModeFIFO None read_ok (crash (c_file Sample.c2)) = Some (Ok s')
    ∧ Snapshot (Sample.at_s 3) 0 (c_svc Sample.c2) = Some (v, s1)
    ∧ Snapshot (MkTime (t_wall (Sample.at_s 3)) None 0) 0 s' = Some (v', s2)
    ∧ sn_Ready v' = wire_message <$> sn_Ready v
    ∧ sn_Delayed v' ≡ₚ wire_message <$> sn_Delayed v
    ∧ sn_Stats v' = sn_Stats v ∧ sn_Mode v' = sn_Mode v.
Proof.
  apply (restart_preserves_the_queue Sample.c2 5).
  - exact Sample.c2_reachable.
  - Sample.solve_room.
  - Sample.solve_clock.
  - by vm_compute.
  - reflexivity.
  - Sample.solve_decision_vm.
Defined.

(** C8: A crash during a call.  Whatever call is under way and wherever the
    system stopped writing its record, beyond the bytes the file had before the
    call, a service started from the file holds the messages that were in memory
    before the call, or those that are in memory after it: the call happened or
    it did not. *)
Theorem crash_during_a_call `{LL : LogCodecLaws} c acc del c' off mode path n :
  reachable c → step c acc del c' → room (c_svc c) → room (c_svc c') → Valid mode = true →
  (length (f_data (c_file c)) <= n)%nat →
  ∃ s', NewQueueService path mode None read_ok (MkFile (take n (f_data (c_file c'))) n) = Some (Ok s')
    ∧ wf off (s_queue s')
    ∧ (held s' ≡ₚ wire_message <$> held (c_svc c) ∨ held s' ≡ₚ wire_message <$> held (c_svc c')).
Proof. intros (es & bs & Hg)%reachable_good. by apply (crash_in_step c es bs). Qed.

Lemma crash_during_a_call_witness :
  ∃ s', NewQueueService "queue.wal" ModeFIFO None read_ok (MkFile (take 500 (f_data (c_file Sample.c3))) 500) = Some (Ok s')
    ∧ wf 0 (s_queue s')
    ∧ (held s' ≡ₚ wire_message <$> held (c_svc Sample.c2) ∨ held s' ≡ₚ wire_message <$> held (c_svc Sample.c3)).
Proof.
  apply (crash_during_a_call Sample.c2 [] [Sample.message 10 1 1 Sample.first] Sample.c3).
  - exact Sample.c2_reachable.
  - exact Sample.c3_step.
  - Sample.solve_room.
  - Sample.solve_room.
  - reflexivity.
  - apply Nat.leb_le. vm_compute. reflexivity.
Defined.

(** How an enqueue fails, in the order of the code's checks: the error, and the
    log and the file it leaves. *)
Inductive failed_enqueue `{LogCodec} (now : Time) (random : result (list Z)) (io : append_io)
    (req : EnqueueRequest) (s : QueueService) (f : File) : error → WAL → File → Prop :=
  | failed_invalid e :
      Validate req = Some e → failed_enqueue now random io req s f e (s_wal s) f
  | failed_random e :
      Validate req = None → newUUID random = Err e →
      failed_enqueue now random io req s f (ErrWrap "generating message id" e) (s_wal s) f
  | failed_closed id :
      Validate req = None → newUUID random = Ok id → s_closed s = true →
      failed_enqueue now random io req s f ErrClosed (s_wal s) f
  | failed_marshal id :
      Validate req = None → newUUID random = Ok id → s_closed s = false →
      time_ok (UTC (io_now io)) = false →
      failed_enqueue now random io req s f
        (ErrWrap "appending enqueue record" (ErrWrap "marshaling WAL record" Wal.ErrJSON)) (next_wal (s_wal s)) f
  | failed_write id line n e :
      Validate req = None → newUUID random = Ok id → s_closed s = false →
      marshal (enqueue_entry io (new_message now id req s) (s_wal s)) = Some line →
      io_write io = Some (n, e) →
      failed_enqueue now random io req s f
        (ErrWrap "appending enqueue record" (ErrWrap "writing WAL record" e)) (next_wal (s_wal s))
        (MkFile (f_data f ++ take n (line ++ [Wal.newline])) (f_synced f))
  | failed_sync id line e :
      Validate req = None → newUUID random = Ok id → s_closed s = false →
      marshal (enqueue_entry io (new_message now id req s) (s_wal s)) = Some line →
      io_write io = None → io_sync io = Some e →
      failed_enqueue now random io req s f
        (ErrWrap "appending enqueue record" (ErrWrap "syncing WAL" e)) (next_wal (s_wal s))
        (MkFile (f_data f ++ line ++ [Wal.newline]) (f_synced f)).

(** What an enqueue answers and leaves behind. *)
Definition enqueue_promise `{LogCodec} (now : Time) (random : result (list Z)) (io : append_io)
    (req : EnqueueRequest) (s : QueueService) (f : File) (r : result Message) (s' : QueueService) (f' : File) : Prop :=
  match r with
  | Ok m =>
      Validate req = None ∧ newUUID random = Ok (ID m) ∧ s_closed s = false
      ∧ Payload m = r_Payload req ∧ Priority m = r_Priority req ∧ m_Status m = StatusPending
      ∧ Seq m = s_seq s + 1 ∧ s_seq s' = Seq m ∧ Forall (λ x, Seq x < Seq m) (held s)
      ∧ t_wall (EnqueuedAt m) = t_wall now
      ∧ t_wall (AvailableAt m) = t_wall now + r_DelaySeconds req * Second
      ∧ held s' ≡ₚ m :: held s ∧ s_wal s' = next_wal (s_wal s) ∧ s_closed s' = false
      ∧ io_write io = None ∧ io_sync io = None
      ∧ ∃ line, marshal (enqueue_entry io m (s_wal s)) = Some line
          ∧ f' = MkFile (f_data f ++ line ++ [Wal.newline]) (length (f_data f ++ line ++ [Wal.newline]))
  | Err e =>
      failed_enqueue now random io req s f e (s_wal s') f'
      ∧ s_queue s' = s_queue s ∧ s_seq s' = s_seq s ∧ s_closed s' = s_closed s
  end.

(** The branches behind the guards, of an open service. *)
Lemma enqueue_open `{LL : LogCodecLaws} off c now random id io req s f es bs :
  inv off s (c_file c) es bs → c_svc c = s → off = c_off c → clock c now → room s → in_i64 (r_Priority req) →
  Validate req = None → newUUID random = Ok id → id ≠ "" → valid_string id = id → id ∉ ID <$> held s →
  ∃ r s' f', Enqueue now random io req s f = Some (r, s', f') ∧ enqueue_promise now random io req s f r s' f'.
Proof.
  intros Hi Hsv -> Hck Hrm Hprio Hv Hid Hne Hval Hfresh.
  pose proof (inv_counter _ _ _ _ _ Hi) as Hc. unfold in_u64 in Hc. pose proof (rm_seq _ Hrm) as Hs1.
  destruct (new_message_ok c now id req) as (Hst & Hcoh & Hav); rewrite ?Hsv in *; try done; [apply Hc|].
  destruct (Push_held (c_off c) (s_queue s) (new_message now id req s) (inv_wf _ _ _ _ _ Hi) Hcoh (rm_order _ Hrm) Hfresh)
    as (q' & Hpush & _ & Hc' & _).
  pose proof (inv_closed _ _ _ _ _ Hi) as Hcl.
  unfold Enqueue. rewrite Hv, Hid, Hcl. rewrite delay_no_overflow by (by apply Validate_None in Hv as []).
  rewrite (wrap_u64_small (s_seq s + 1)) by (unfold in_u64; lia). fold (new_message now id req s).
  set (m := new_message now id req s) in *.
  replace (s_seq s + 1 - 1) with (s_seq s) by lia. rewrite (wrap_u64_small (s_seq s)) by (unfold in_u64; lia).
  rewrite WalTheorems.WriteEnqueue_spec by (apply Hi || apply Hst). unfold WalTheorems.append_spec.
  destruct (marshal (enqueue_entry io m (s_wal s))) as [line|] eqn:Em.
  2: { eexists (Err _), _, f. split; [done|]. split_and!; [|done..]. eapply failed_marshal; try done.
    destruct (time_ok (UTC (io_now io))) eqn:Ht; [|done].
    destruct (marshal_writable (enqueue_entry io m (s_wal s))) as [b Eb]; [|congruence].
    apply WalTheorems.enqueue_writable; [apply Hst|done]. }
  destruct (io_write io) as [[n e]|] eqn:Ew.
  { eexists (Err _), _, _. split; [done|]. split_and!; [|done..]. by eapply failed_write. }
  destruct (io_sync io) as [e|] eqn:Es.
  { eexists (Err _), _, _. split; [done|]. split_and!; [|done..]. by eapply failed_sync. }
  rewrite Hpush. cbn [mbind option_bind]. eexists (Ok m), _, _. split; [done|]. unfold enqueue_promise. split_and!; try done.
  - eapply Forall_impl; [apply (inv_bound _ _ _ _ _ Hi)|]. cbn. lia.
  - by exists line.
Qed.

(** C21: What an enqueue does, on every branch, whatever the file holds, whatever
    the system answers, and also on a closed service.  A success returns a
    message with the payload and the priority of the request, the next number,
    which is above those of all messages in memory, the status PENDING and an
    availability exactly [DelaySeconds] after the call; the message is added to
    the memory, and its record is the last line of the file, written and
    synced.  A failure leaves the messages in memory and the counter as they
    were, and is one of these: an invalid request, no random bytes, a closed
    service or a record that cannot be written as JSON, which leave the file
    alone; a failed write, which leaves the bytes the system wrote of the line; a
    failed sync, which leaves the whole line behind, not synced. *)
Theorem enqueue_outcomes `{LL : LogCodecLaws} c s f now random io req :
  reachable c → s = c_svc c ∨ (∃ close_err, s = (Close close_err (c_svc c)).2) →
  clock c now → room (c_svc c) → in_i64 (r_Priority req) →
  match random with Ok b => random_block b | Err _ => True end →
  (∀ id, newUUID random = Ok id → id ∉ ID <$> held (c_svc c)) →
  ∃ r s' f', Enqueue now random io req s f = Some (r, s', f') ∧ enqueue_promise now random io req s f r s' f'.
Proof.
  intros (es & bs & [Hi _])%reachable_good Hs Hck Hrm Hprio Hrand Hfresh.
  destruct (Validate req) as [e|] eqn:Hv.
  { exists (Err e), s, f. unfold Enqueue. rewrite Hv. split; [done|]. split_and!; [|done..]. by apply failed_invalid. }
  destruct (newUUID random) as [id|e] eqn:Hid.
  2: { eexists (Err _), s, f. unfold Enqueue. rewrite Hv, Hid. split; [done|]. split_and!; [|done..]. by apply failed_random. }
  destruct (newUUID_id random id Hrand Hid) as [Hne Hval]. specialize (Hfresh id eq_refl).
  destruct Hs as [->|[close_err ->]].
  - by apply (enqueue_open (c_off c) c now random id io req (c_svc c) f es bs).
  - assert (s_closed (Close close_err (c_svc c)).2 = true) as Hcl.
    { unfold Close. destruct (s_closed (c_svc c)) eqn:E; [done|]. by destruct (Wal.Close close_err _). }
    eexists (Err _), _, f. unfold Enqueue. rewrite Hv, Hid, Hcl. split; [done|]. split_and!; [|done..]. by eapply failed_closed.
Qed.

Lemma enqueue_outcomes_witness : ∃ r s' f',
  Enqueue (Sample.at_s 2) (Ok (Sample.block 50)) (Sample.io 2) Sample.second (c_svc Sample.c1) (c_file Sample.c1)
    = Some (r, s', f') ∧ r = Ok (Sample.message 50 2 2 Sample.second) ∧ held s' ≡ₚ Sample.message 50 2 2 Sample.second :: held (c_svc Sample.c1).
Proof.
  destruct (enqueue_outcomes Sample.c1 (c_svc Sample.c1) (c_file Sample.c1) (Sample.at_s 2) (Ok (Sample.block 50)) (Sample.io 2) Sample.second)
    as (r & s' & f' & He & Hr).
  - exact Sample.c1_reachable.
  - by left.
  - Sample.solve_clock.
  - Sample.solve_room.
  - by vm_compute.
  - split; [done|Sample.solve_decision_vm].
  - intros id E. vm_compute in E. injection E as <-. Sample.solve_decision_vm.
  - exists r, s', f'. assert (r = Ok (Sample.message 50 2 2 Sample.second)) as ->
      by (vm_compute in He; injection He as <- _ _; vm_compute; reflexivity).
    split; [exact He|]. split; [reflexivity|]. apply Hr.
Defined.

(** C22: A dequeue whose record the log refuses fails and changes nothing that
    shows: the memory holds the same messages, the file is the same, and the
    same message is next at every later time. *)
Theorem failed_dequeue_restores_the_message `{LL : LogCodecLaws} c now io m :
  reachable c → may_dequeue c now io → refused io →
  head (delivery_order (Mode (s_queue (c_svc c))) now (held (c_svc c))) = Some m →
  ∃ err s', Dequeue now io (c_svc c) (c_file c) = Some (Err err, s', c_file c)
    ∧ held s' ≡ₚ held (c_svc c) ∧ s_seq s' = s_seq (c_svc c)
    ∧ reachable (MkConfig (c_off c) (t_wall now) s' (c_file c))
    ∧ ∀ later, delivery_order (Mode (s_queue s')) later (held s')
        = delivery_order (Mode (s_queue (c_svc c))) later (held (c_svc c)).
Proof.
  intros Hreach Hmay Href Hnext. pose proof Hmay as [Hck Hrm Hans Hsize].
  destruct (reachable_good _ Hreach) as (es & bs & Hg). pose proof Hg as [Hi Hdue].
  assert (time_ok (UTC (io_now io)) = true) as Hit by (by destruct Hans as [(? & ? & ?)|[]]).
  destruct (Pop_next c es bs now Hg Hck) as (q' & Hp & Hwf' & _ & _ & Hr). cbn zeta in Hp, Hr.
  rewrite Hnext in Hp, Hr. destruct Hr as (Hin & _ & _).
  destruct (Dequeue_refused (c_off c) now io (c_svc c) (c_file c) es bs m q')
    as (e & s' & He & Hi' & Hh & Hs & HR & HM'); eauto using held_coherent; [apply Hck|apply Hrm|].
  exists e, s'. split_and!; [done|done|done| |].
  - destruct Hreach as (c0 & acc & del & Hs0 & Hr). exists c0, acc, del. split; [done|].
    rewrite <- (app_nil_r acc), <- (app_nil_r del). eapply run_snoc; [exact Hr|].
    by eapply (step_dequeue c now io (Err e)).
  - intros later. rewrite HM'. apply delivery_order_perm; [|done].
    apply (inv_seqs _ _ _ _ _ Hi).
Qed.

Lemma failed_dequeue_restores_the_message_witness : ∃ err s',
  Dequeue (Sample.at_s 3) Sample.io_full (c_svc Sample.c2) (c_file Sample.c2) = Some (Err err, s', c_file Sample.c2)
    ∧ held s' ≡ₚ held (c_svc Sample.c2) ∧ s_seq s' = 2
    ∧ reachable (MkConfig Sample.off (t_wall (Sample.at_s 3)) s' (c_file Sample.c2))
    ∧ ∀ later, delivery_order (Mode (s_queue s')) later (held s')
        = delivery_order ModeFIFO later (held (c_svc Sample.c2)).
Proof.
  apply (failed_dequeue_restores_the_message Sample.c2 (Sample.at_s 3) Sample.io_full (Sample.message 10 1 1 Sample.first)).
  - exact Sample.c2_reachable.
  - split; [Sample.solve_clock|Sample.solve_room|right; split; [by eexists|by vm_compute]|].
    intros m Hm. Sample.compute_held Hm. repeat (apply elem_of_cons in Hm as [->|Hm]; [Sample.solve_readable|]). inversion Hm.
  - by eexists.
  - vm_compute. reflexivity.
Defined.

(** ** A sync that fails *)

(** The record is written and the sync fails. *)
Definition unsynced (io : append_io) : Prop :=
  io_write io = None ∧ (∃ e, io_sync io = Some e) ∧ time_ok (UTC (io_now io)) = true.

(** What a service holds that is started from a log with one more record. *)
Lemma open_appended `{LL : LogCodecLaws} c es bs e b off mode path s :
  good c es bs → is_line e b → Valid mode = true →
  let l := WalFacts.contents (es ++ [e]) in
  NoDup (ID <$> l) → Forall (λ m, coherent off (AvailableAt m)) l → Z.of_nat (length l) < 2 ^ 64 →
  ∃ s2, NewQueueService path mode None read_ok (MkFile (f_data (c_file c) ++ b ++ [Wal.newline]) s) = Some (Ok s2)
    ∧ wf off (s_queue s2) ∧ held s2 ≡ₚ l.
Proof.
  intros [Hi _] Hl Hmode l Hids Hcoh Hlen.
  assert (WalFacts.by_seq l ≡ₚ l) as Hp by apply insertion_sort_perm.
  destruct (open_recovered off mode path (MkFile (f_data (c_file c) ++ b ++ [Wal.newline]) s)
    (WalFacts.by_seq l) (Wal.MkWAL true path (Wal.fo_maxSeq (WalFacts.replay (es ++ [e])))))
    as (s2 & Hn & Hwf & Hh & _); try done; [|by rewrite Hp..|exists s2; by rewrite Hh].
  unfold l. rewrite <- WalFacts.replay_sorted, <- (WalFacts.Recover_log path 0 (es ++ [e]) (bs ++ [b]) s).
  - rewrite WalFacts.log_bytes_app, (inv_data _ _ _ _ _ Hi). unfold log_bytes. csimpl. by rewrite app_nil_r.
  - apply WalFacts.written_app; [apply Hi|]. apply Forall2_cons; split; [done|apply Forall2_nil_2].
Qed.

(** C35: A dequeue whose record is written but not synced loses its message.
    The caller gets an error and the message is put back in memory, but the
    record stays in the file: a service started from that file no longer holds
    the message, which no consumer ever received. *)
Theorem unsynced_dequeue_loses_the_message `{LL : LogCodecLaws} c now io m off mode path :
  reachable c → clock c now → room (c_svc c) → unsynced io → Valid mode = true →
  readable (dequeue_entry io (ID m) (s_wal (c_svc c))) →
  head (delivery_order (Mode (s_queue (c_svc c))) now (held (c_svc c))) = Some m →
  ∃ err s' f' s2, Dequeue now io (c_svc c) (c_file c) = Some (Err err, s', f')
    ∧ held s' ≡ₚ held (c_svc c)
    ∧ NewQueueService path mode None read_ok f' = Some (Ok s2)
    ∧ wire_message <$> held (c_svc c) ≡ₚ wire_message m :: held s2
    ∧ wf off (s_queue s2).
Proof.
  intros (es & bs & Hg)%reachable_good Hck Hrm (Hiw & [e His] & Hit) Hmode Hr Hnext. pose proof Hg as [Hi _].
  destruct (Pop_next c es bs now Hg Hck) as (q' & Hp & Hwf' & HM & HN & Hc). cbn zeta in Hp, Hc.
  rewrite Hnext in Hp, Hc. destruct Hc as (Hin & _ & Hcont).
  pose proof (inv_storable _ _ _ _ _ Hi) as Hst. pose proof (held_ids _ _ (inv_wf _ _ _ _ _ Hi)) as Hids.
  pose proof (inv_log_ids _ _ _ _ _ Hi) as Hlids. rewrite Hcont in Hids, Hst.
  apply Forall_cons in Hst as [Hm Hst]. pose proof Hids as Hids2. csimpl in Hids2. apply NoDup_cons in Hids2 as [Hfresh Hids2].
  destruct (Push_held (c_off c) q' m Hwf') as (q2 & Hpush & Hwf2 & Hc2 & _);
    [by eapply held_coherent|rewrite HN; apply Hrm|done|].
  unfold Dequeue. rewrite (inv_closed _ _ _ _ _ Hi), Hp. cbn [mbind option_bind].
  pose proof (WalTheorems.dequeue_writable io (ID m) (s_wal (c_svc c)) Hit) as Hwr.
  destruct (marshal_writable _ Hwr) as [b Eb].
  rewrite WalTheorems.WriteDequeue_spec by (apply (inv_open _ _ _ _ _ Hi) || apply Hm).
  unfold WalTheorems.append_spec. rewrite Eb, Hiw, His, Hpush. cbn [mbind option_bind].
  assert (WalFacts.contents (es ++ [dequeue_entry io (ID m) (s_wal (c_svc c))]) ≡ₚ wire_message <$> a_contents (abs q')) as Hl.
  { rewrite contents_snoc, dequeue_entry_apply by apply Hm. rewrite (inv_same _ _ _ _ _ Hi), Hcont. by rewrite filter_wire. }
  destruct (open_appended c es bs _ b off mode path (f_synced (c_file c)) Hg ltac:(by split_and!; [| |apply Hr]) Hmode)
    as (s2 & Hn & Hwf3 & Hh).
  - by rewrite Hl, <- list_fmap_compose, wire_IDs.
  - rewrite Hl, Forall_fmap. by apply Forall_true.
  - rewrite Hl, length_fmap. pose proof (rm_held _ Hrm). rewrite Hcont in *. cbn [length] in *. lia.
  - eexists _, _, _, s2. split_and!; [done| |exact Hn| |exact Hwf3].
    + unfold held at 1. cbn [s_queue]. by rewrite Hc2, Hcont.
    + by rewrite Hcont, Hh, Hl.
Qed.

Lemma unsynced_dequeue_loses_the_message_witness : ∃ err s' f' s2,
  Dequeue (Sample.at_s 3) Sample.io_unsynced (c_svc Sample.c2) (c_file Sample.c2) = Some (Err err, s', f')
    ∧ held s' ≡ₚ held (c_svc Sample.c2)
    ∧ NewQueueService "queue.wal" ModeFIFO None read_ok f' = Some (Ok s2)
    ∧ wire_message <$> held (c_svc Sample.c2) ≡ₚ wire_message (Sample.message 10 1 1 Sample.first) :: held s2
    ∧ wf 0 (s_queue s2).
Proof.
  apply (unsynced_dequeue_loses_the_message Sample.c2 (Sample.at_s 3) Sample.io_unsynced).
  - exact Sample.c2_reachable.
  - Sample.solve_clock.
  - Sample.solve_room.
  - split_and!; [done|by eexists|by vm_compute].
  - reflexivity.
  - Sample.solve_readable.
  - vm_compute. reflexivity.
Defined.

(** C36: An enqueue whose record is written but not synced fails, takes its
    number back and leaves the memory as it was; but its record stays in the
    file, and a service started from that file holds the message whose producer
    was told that it was not accepted. *)
Theorem unsynced_enqueue_leaves_a_ghost `{LL : LogCodecLaws} c now random id io req off mode path :
  reachable c → clock c now → room (c_svc c) → unsynced io → Valid mode = true →
  in_i64 (r_Priority req) → Validate req = None → newUUID random = Ok id →
  match random with Ok b => random_block b | Err _ => True end → id ∉ ID <$> held (c_svc c) →
  let m := new_message now id req (c_svc c) in
  readable (enqueue_entry io m (s_wal (c_svc c))) → Z.of_nat (length (held (c_svc c))) + 1 < 2 ^ 64 →
  ∃ err s' f' s2, Enqueue now random io req (c_svc c) (c_file c) = Some (Err err, s', f')
    ∧ s_queue s' = s_queue (c_svc c) ∧ s_seq s' = s_seq (c_svc c)
    ∧ NewQueueService path mode None read_ok f' = Some (Ok s2)
    ∧ held s2 ≡ₚ wire_message <$> m :: held (c_svc c)
    ∧ wf off (s_queue s2).
Proof.
  intros (es & bs & Hg)%reachable_good Hck Hrm (Hiw & [e His] & Hit) Hmode Hprio Hv Hid Hrand Hfresh m Hr Hlen.
  pose proof Hg as [Hi _]. destruct (newUUID_id random id Hrand Hid) as [Hne Hval].
  pose proof (inv_counter _ _ _ _ _ Hi) as Hcnt. pose proof (rm_seq _ Hrm) as Hroom. unfold in_u64 in Hcnt.
  destruct (new_message_ok c now id req Hck Hrm Hprio Hv Hne Hval) as (Hst & Hcoh & Hav); [apply Hcnt|].
  fold m in Hst, Hcoh, Hav. pose proof Hv as [_ Hdl]%Validate_None.
  unfold Enqueue. rewrite Hv, Hid, (inv_closed _ _ _ _ _ Hi), delay_no_overflow by done.
  rewrite (wrap_u64_small (s_seq (c_svc c) + 1)) by (unfold in_u64; lia).
  fold (new_message now id req (c_svc c)). fold m.
  pose proof (WalTheorems.enqueue_writable io m (s_wal (c_svc c)) (st_ok _ Hst) Hit) as Hwr.
  destruct (marshal_writable _ Hwr) as [b Eb].
  rewrite WalTheorems.WriteEnqueue_spec by (apply (inv_open _ _ _ _ _ Hi) || apply Hst).
  unfold WalTheorems.append_spec. rewrite Eb, Hiw, His.
  replace (s_seq (c_svc c) + 1 - 1) with (s_seq (c_svc c)) by lia. rewrite wrap_u64_small by done.
  assert (WalFacts.contents (es ++ [enqueue_entry io m (s_wal (c_svc c))]) ≡ₚ wire_message <$> m :: held (c_svc c)) as Hl.
  { rewrite contents_snoc, enqueue_entry_apply; [|done|cbn; lia|by rewrite (inv_log_ids _ _ _ _ _ Hi)].
    csimpl. rewrite (inv_same _ _ _ _ _ Hi). by rewrite Permutation_app_comm. }
  destruct (open_appended c es bs _ b off mode path (f_synced (c_file c)) Hg ltac:(by split_and!; [| |apply Hr]) Hmode)
    as (s2 & Hn & Hwf3 & Hh).
  - rewrite Hl, <- list_fmap_compose, wire_IDs by (constructor; [done|apply Hi]).
    csimpl. constructor; [done|]. exact (held_ids _ _ (inv_wf _ _ _ _ _ Hi)).
  - rewrite Hl, Forall_fmap. by apply Forall_true.
  - rewrite Hl, length_fmap. cbn [length]. lia.
  - eexists _, _, _, s2. split_and!; [done..|exact Hn| |exact Hwf3]. by rewrite Hh.
Qed.

Lemma unsynced_enqueue_leaves_a_ghost_witness : ∃ err s' f' s2,
  Enqueue (Sample.at_s 3) (Ok (Sample.block 90)) Sample.io_unsynced Sample.first (c_svc Sample.c2) (c_file Sample.c2)
    = Some (Err err, s', f')
    ∧ s_queue s' = s_queue (c_svc Sample.c2) ∧ s_seq s' = 2
    ∧ NewQueueService "queue.wal" ModeFIFO None read_ok f' = Some (Ok s2)
    ∧ held s2 ≡ₚ wire_message <$> Sample.message 90 3 3 Sample.first :: held (c_svc Sample.c2)
    ∧ wf 0 (s_queue s2).
Proof.
  apply (unsynced_enqueue_leaves_a_ghost Sample.c2 (Sample.at_s 3) (Ok (Sample.block 90))
    (ID (Sample.message 90 3 3 Sample.first)) Sample.io_unsynced Sample.first).
  - exact Sample.c2_reachable.
  - Sample.solve_clock.
  - Sample.solve_room.
  - split_and!; [done|by eexists|by vm_compute].
  - reflexivity.
  - by vm_compute.
  - reflexivity.
  - reflexivity.
  - split; [done|Sample.solve_decision_vm].
  - Sample.solve_decision_vm.
  - Sample.solve_readable.
  - vm_compute. reflexivity.
Defined.

(** After [Close] the service refuses every call that needs the log
    (a dequeue, a tail, and an enqueue that gets past validation and ID
    generation) with [ErrClosed] and without touching memory or file; inspection
    answers as before; closing again does nothing. *)
Theorem closed_service_refuses `{LogCodec} (s : QueueService) (f : File) close_err :
  let s' := (Close close_err s).2 in
  s_closed s' = true
  ∧ (∀ err, Close err s' = (None, s'))
  ∧ (∀ now io, Dequeue now io s' f = Some (Err ErrClosed, s', f))
  ∧ (∀ now random io req, Enqueue now random io req s' f =
      Some (Err (match Validate req, newUUID random with
                 | Some e, _ => e
                 | None, Err e => ErrWrap "generating message id" e
                 | None, Ok _ => ErrClosed
                 end), s', f))
  ∧ (∀ io limit, WalTail io limit s' f = Err ErrClosed)
  ∧ (∀ now limit, fst <$> Snapshot now limit s' = fst <$> Snapshot now limit s)
  ∧ (∀ now, fst <$> Stats now s' = fst <$> Stats now s).
Proof.
  assert (s_closed (Close close_err s).2 = true ∧ s_queue (Close close_err s).2 = s_queue s) as [Hc Hq].
  { unfold Close. destruct (s_closed s) eqn:E; [done|].
    by destruct (Wal.Close close_err (s_wal s)). }
  cbn zeta. set (s' := (Close close_err s).2) in *. clearbody s'.
  split_and!; [done|..]; intros.
  - unfold Close. by rewrite Hc.
  - unfold Dequeue. by rewrite Hc.
  - unfold Enqueue. destruct (Validate req), (newUUID random); try done. by rewrite Hc.
  - unfold WalTail. by rewrite Hc.
  - unfold Snapshot. rewrite Hq. by destruct (Engine.Snapshot _ _ _) as [[]|].
  - unfold Stats. rewrite Hq. by destruct (AvailableLen _ _) as [[]|].
Qed.

(** C32: Inspection is consistent and consumes nothing: at any time [Stats] and
    [Snapshot] report the same counts, those of all messages, the due and the
    hidden ones; the ready page is the head of the delivery order, and the flag
    of a page says whether anything was cut. *)
Theorem inspection_is_consistent `{LL : LogCodecLaws} c now limit :
  reachable c → clock c now →
  let due := delivery_order (Mode (s_queue (c_svc c))) now (held (c_svc c)) in
  let hidden := filter (λ m, Available m now = false) (held (c_svc c)) in
  let cut n := (0 <? limit) && (limit <? Z.of_nat n) in
  let counts := MkQueueStats (Z.of_nat (length (held (c_svc c)))) (Z.of_nat (length due)) (Z.of_nat (length hidden)) in
  ∃ v s1 s2, Snapshot now limit (c_svc c) = Some (v, s1) ∧ Stats now (c_svc c) = Some (counts, s2)
    ∧ sn_Stats v = counts ∧ sn_Mode v = Mode (s_queue (c_svc c))
    ∧ sn_Ready v = (if cut (length due) then take (Z.to_nat limit) due else due)
    ∧ sn_ReadyTruncated v = cut (length due) ∧ sn_DelayedTruncated v = cut (length hidden)
    ∧ (length (sn_Delayed v) = if cut (length hidden) then Z.to_nat limit else length hidden)
    ∧ held s1 ≡ₚ held (c_svc c) ∧ held s2 ≡ₚ held (c_svc c).
Proof.
  intros (es & bs & Hg)%reachable_good Hck. cbn zeta. pose proof Hg as [Hi _].
  pose proof (inv_wf _ _ _ _ _ Hi) as Hwf. assert (coherent (c_off c) (UTC now)) as Hc by apply Hck.
  pose proof (promoted_order c es bs now Hg Hck) as Hready.
  pose proof (delayed_order c es bs now Hg Hck) as Hdelayed.
  destruct (Snapshot_ok (c_off c) _ _ limit Hwf Hc) as (q1 & Hs1 & Hwf1 & Ha1).
  destruct (AvailableLen_ok (c_off c) _ _ Hwf Hc) as (q2 & Hs2 & Hwf2 & Ha2).
  unfold Snapshot, Stats. rewrite Hs1, Hs2. cbn [mbind option_bind].
  set (a := a_promote (UTC now) (abs (s_queue (c_svc c)))) in *.
  assert (length (a_contents a) = length (held (c_svc c))) as Hlen
    by apply Permutation_length, a_contents_promote.
  unfold a_contents in Hlen. rewrite length_fmap, length_app in Hlen.
  apply (f_equal length) in Hready as Hlr. apply Permutation_length in Hdelayed as Hld. rewrite length_fmap in Hlr, Hld.
  rewrite <- Hlr, <- Hld, <- Hready.
  assert (Len (s_queue (c_svc c)) = length (held (c_svc c))) as HL.
  { rewrite (Len_ok _ _ Hwf). unfold held, a_contents. by rewrite length_fmap, length_app. }
  assert (Mode q1 = Mode (s_queue (c_svc c))) as HM by exact (f_equal a_mode Ha1).
  assert (∀ l, (page limit l).1 = (if (0 <? limit) && (limit <? Z.of_nat (length l)) then take (Z.to_nat limit) (fst <$> l) else fst <$> l)
    ∧ (page limit l).2 = ((0 <? limit) && (limit <? Z.of_nat (length l)))) as Hpage.
  { intros l. unfold page. destruct ((0 <? limit) && _); [by rewrite fmap_take|done]. }
  eexists _, _, _. split_and!; [reflexivity| |..]; cbn [sn_Stats sn_Mode sn_Ready sn_Delayed sn_ReadyTruncated sn_DelayedTruncated].
  - rewrite HL. do 3 f_equal. lia.
  - unfold a_view. cbn [v_ReadyLen v_DelayedLen]. by rewrite Hlen.
  - done.
  - apply Hpage.
  - apply Hpage.
  - apply Hpage.
  - unfold a_view. cbn [v_Delayed]. rewrite (proj1 (Hpage (a_delayed a))).
    destruct (Z.ltb_spec 0 limit), (Z.ltb_spec limit (Z.of_nat (length (a_delayed a)))); cbn [andb];
      rewrite ?length_take, length_fmap; lia.
  - unfold held at 1. cbn [with_queue s_queue]. rewrite Ha1. apply a_contents_promote.
  - unfold held at 1. cbn [with_queue s_queue]. rewrite Ha2. apply a_contents_promote.
Qed.

Lemma inspection_is_consistent_witness : ∃ v s1 s2,
  Snapshot (Sample.at_s 3) 1 (c_svc Sample.c2) = Some (v, s1)
    ∧ Stats (Sample.at_s 3) (c_svc Sample.c2) = Some (MkQueueStats 2 1 1, s2)
    ∧ sn_Stats v = MkQueueStats 2 1 1 ∧ sn_Mode v = ModeFIFO
    ∧ sn_Ready v = [Sample.message 10 1 1 Sample.first]
    ∧ sn_ReadyTruncated v = false ∧ sn_DelayedTruncated v = false ∧ length (sn_Delayed v) = 1%nat
    ∧ held s1 ≡ₚ held (c_svc Sample.c2) ∧ held s2 ≡ₚ held (c_svc Sample.c2).
Proof.
  apply (inspection_is_consistent Sample.c2 (Sample.at_s 3) 1).
  - exact Sample.c2_reachable.
  - Sample.solve_clock.
Defined.

(** An ID is the RFC 4122 form of its random block: 36 characters, hyphens
    after the 8th, 12th, 16th and 20th digit, version 4 and variant 8, 9, a or b;
    two blocks have the same ID exactly when they agree on the 122 bits that are
    not overwritten. *)
Theorem uuid_version_4 b c :
  random_block b → random_block c →
  ∃ id id', newUUID (Ok b) = Ok id ∧ newUUID (Ok c) = Ok id'
    ∧ length (to_bytes id) = 36%nat
    ∧ Forall (λ i, to_bytes id !! i = Some "-"%char) [8; 13; 18; 23]%nat
    ∧ to_bytes id !! 14%nat = Some "4"%char
    ∧ (∃ v, to_bytes id !! 19%nat = Some v ∧ v ∈ ["8"; "9"; "a"; "b"]%char)
    ∧ (id = id' ↔ masked b = masked c).
Proof.
  intros Hb Hc. exists (of_bytes (uuid_text (masked b))), (of_bytes (uuid_text (masked c))).
  rewrite !newUUID_text, !to_of_bytes. split_and!; [done|done|..].
  5: { split; [|by intros ->]. intros E. apply uuid_text_inj; [by apply masked_block..|].
       by rewrite <- (to_of_bytes (uuid_text (masked b))), E, to_of_bytes. }
  all: destruct Hb as [Hl Hb]; do 16 (destruct b as [|? b]; [discriminate Hl|]); destruct b; [|discriminate Hl]; repeat apply Forall_cons in Hb as [? Hb].
  - reflexivity.
  - by repeat constructor.
  - pose proof (version_digits z5 ltac:(done)) as [Hv _]. cbn. by rewrite Hv.
  - pose proof (version_digits z7 ltac:(done)) as [_ Hv]. eexists. split; [reflexivity|exact Hv].
Qed.

Lemma uuid_version_4_witness : ∃ id id', newUUID (Ok (Sample.block 10)) = Ok id ∧ newUUID (Ok (Sample.block 50)) = Ok id'
    ∧ length (to_bytes id) = 36%nat
    ∧ Forall (λ i, to_bytes id !! i = Some "-"%char) [8; 13; 18; 23]%nat
    ∧ to_bytes id !! 14%nat = Some "4"%char
    ∧ (∃ v, to_bytes id !! 19%nat = Some v ∧ v ∈ ["8"; "9"; "a"; "b"]%char)
    ∧ (id = id' ↔ masked (Sample.block 10) = masked (Sample.block 50)).
Proof. apply uuid_version_4; (split; [done|Sample.solve_decision_vm]). Defined.

(** Numbers are not unique over the life of a log: when every message has
    been consumed, a restarted service numbers from 1 again, whatever numbers
    were given before. *)
Theorem numbers_restart_from_one `{LL : LogCodecLaws} c path mode :
  reachable c → room (c_svc c) → Valid mode = true → held (c_svc c) = [] →
  ∃ s', NewQueueService path mode None read_ok (crash (c_file c)) = Some (Ok s') ∧ s_seq s' = 0
    ∧ ∀ now random io req f m s2 f2, Enqueue now random io req s' f = Some (Ok m, s2, f2) → Seq m = 1.
Proof.
  intros (es & bs & Hg)%reachable_good Hrm Hmode Hh. rewrite (crash_good _ _ _ Hg). pose proof Hg as [Hi _].
  destruct (restart_ok (c_off c) 0 mode path (c_svc c) (c_file c) es bs) as (s' & Hn & Hi' & Hh' & _ & _ & Hs & _);
    [done|done|apply Hrm|].
  exists s'. split; [done|]. assert (s_seq s' = 0) as H0.
  { rewrite Hs. assert (WalFacts.by_seq (WalFacts.contents es) = []) as ->; [|done].
    apply Permutation_nil_r. unfold WalFacts.by_seq. rewrite insertion_sort_perm, (inv_same _ _ _ _ _ Hi), Hh. done. }
  split; [done|]. intros now random io req f m s2 f2 He.
  unfold Enqueue in He. destruct (Validate req); [done|]. destruct (newUUID random); [|done].
  rewrite (inv_closed _ _ _ _ _ Hi') in He.
  destruct (Wal.WriteEnqueue _ _ _ _) as [[[?|] ?] ?]; [done|]. destruct (Engine.Push _ _); [|done].
  cbn in He. injection He as <- _ _. cbn [Seq]. by rewrite H0.
Qed.

Lemma numbers_restart_from_one_witness :
  ∃ s', NewQueueService "queue.wal" ModeFIFO None read_ok (crash (c_file Sample.drained)) = Some (Ok s')
    ∧ s_seq s' = 0
    ∧ ∀ now random io req f m s2 f2, Enqueue now random io req s' f = Some (Ok m, s2, f2) → Seq m = 1.
Proof.
  apply (numbers_restart_from_one Sample.drained "queue.wal" ModeFIFO).
  - exact Sample.drained_reachable.
  - Sample.solve_room.
  - reflexivity.
  - vm_compute. reflexivity.
Defined.
