(* ===== verification/Concurrent.v ===== *)
(** * [pkg/service] under concurrent calls

    Every HTTP request calls the service from its own goroutine.  The calls meet
    at [QueueService.mu], a [sync.RWMutex]; the locks of the engine and of the
    log are leaves, each held within one call into that component, so such a call
    is one step.  A state is the service, the log file, the service lock and a
    frame per call, with the place the call has reached; [exec] is one step of
    one call, and a schedule is any sequence of invocations and steps. *)

From S2P Require Import Prelude GoTime GoStrconv GoJson Model Engine LogRecord Service.
From S2P Require Wal.

Import Wal (WAL, File, append_io, read_io).

Local Open Scope Z_scope.

(** Calls in progress are told apart by number. *)
Abbreviation tid := nat.

(** ** [sync.RWMutex]

    [Lock] claims the lock and then waits until the readers have left; from the
    claim on, [RLock] waits. *)

Record RWMutex := MkRWMutex {
  mu_writer : option tid;
  mu_readers : gset tid
}.

Definition Lock_claim (t : tid) (mu : RWMutex) : option RWMutex :=
  match mu_writer mu with
  | None => Some (MkRWMutex (Some t) (mu_readers mu))
  | Some _ => None
  end.

(** The end of [Lock]: the readers have left. *)
Definition Lock_entered (mu : RWMutex) : bool := bool_decide (mu_readers mu = ∅).

Definition Unlock (mu : RWMutex) : RWMutex := MkRWMutex None (mu_readers mu).

Definition RLock (t : tid) (mu : RWMutex) : option RWMutex :=
  match mu_writer mu with
  | None => Some (MkRWMutex None ({[t]} ∪ mu_readers mu))
  | Some _ => None
  end.

Definition RUnlock (t : tid) (mu : RWMutex) : RWMutex :=
  MkRWMutex (mu_writer mu) (mu_readers mu ∖ {[t]}).

(** ** Calls and their frames *)

Inductive call :=
  | CallEnqueue (req : EnqueueRequest)
  | CallDequeue
  | CallSnapshot (limit : Z)
  | CallStats
  | CallWalTail (limit : Z)
  | CallClose.

Inductive answer :=
  | AnsEnqueue (r : result Message)
  | AnsDequeue (r : result (option Message))
  | AnsSnapshot (v : QueueSnapshot)
  | AnsStats (v : QueueStats)
  | AnsWalTail (r : result Model.WalTail)
  | AnsClose (err : option error).

(** Where a call is that holds the lock for writing. *)
Inductive writer :=
  | EnqueueIn (req : EnqueueRequest) (id : string)
  | EnqueueStamped (msg : Message)                (** [s.seq++] is done *)
  | EnqueueWritten (msg : Message)
  | EnqueueFailed (e : error)
  | DequeueIn
  | DequeueTimed (now : Time)
  | DequeuePopped (msg : Message)
  | DequeueFailed (msg : Message) (e : error)
  | CloseIn
  | CloseMarked.                                  (** [s.closed = true] is done *)

(** Where a call is that holds the lock for reading. *)
Inductive reader :=
  | SnapshotIn (limit : Z)
  | SnapshotTimed (limit : Z) (now : Time)
  | StatsIn
  | StatsTimed (now : Time)
  | StatsCounted (now : Time) (total : nat)
  | WalTailIn (limit : Z).

Inductive pc :=
  | Called
  | Locking (w : writer)
  | Claimed (w : writer)
  | Writing (w : writer)
  | WriteDone (a : answer)
  | RLocking (r : reader)
  | Reading (r : reader)
  | ReadDone (a : answer)
  | Returned (a : answer).

Record Frame := MkFrame { fr_call : call; fr_pc : pc }.

Record Conc := MkConc {
  k_svc : QueueService;
  k_file : File;
  k_last : Z;            (** wall time of the last reading of the service's clock *)
  k_mu : RWMutex;
  k_calls : gmap tid Frame
}.

(** What the environment gives to a step. *)
Record Inputs := MkInputs {
  i_now : Time;
  i_random : result (list Z);
  i_append : append_io;
  i_read : read_io;
  i_close : option error
}.

Section concurrent.
Context `{LogCodec}.

(** ** The bodies of the calls, step by step *)

(** What [Enqueue] does before it takes the lock. *)
Definition enqueue_prepare (random : result (list Z)) (req : EnqueueRequest) : result string :=
  match Validate req with
  | Some e => Err e
  | None =>
      match newUUID random with
      | Err e => Err (ErrWrap "generating message id" e)
      | Ok id => Ok id
      end
  end.

Definition with_seq (s : QueueService) (seq : Z) : QueueService :=
  MkService (s_queue s) (s_wal s) seq (s_closed s).
Definition with_wal (s : QueueService) (wal : WAL) : QueueService :=
  MkService (s_queue s) wal (s_seq s) (s_closed s).

(** One step under the write lock: on to another place, or to the answer. *)
Definition write_step (i : Inputs) (w : writer) (s : QueueService) (f : File)
    : option ((writer + answer) * QueueService * File) :=
  match w with
  | EnqueueIn req id =>
      if s_closed s then Some (inr (AnsEnqueue (Err ErrClosed)), s, f)
      else
        let now := UTC (i_now i) in
        let s := with_seq s (wrap_u64 (s_seq s + 1)) in
        let msg := MkMessage id (s_seq s) (r_Payload req) (r_Priority req) now
          (Add now (wrap_i64 (r_DelaySeconds req * Second))) StatusPending in
        Some (inl (EnqueueStamped msg), s, f)
  | EnqueueStamped msg =>
      match Wal.WriteEnqueue (i_append i) msg (s_wal s) f with
      | (Some e, wal, f) => Some (inl (EnqueueFailed e), with_wal s wal, f)
      | (None, wal, f) => Some (inl (EnqueueWritten msg), with_wal s wal, f)
      end
  | EnqueueWritten msg =>
      q ← Push (s_queue s) msg;
      Some (inr (AnsEnqueue (Ok msg)), with_queue s q, f)
  | EnqueueFailed e =>
      Some (inr (AnsEnqueue (Err e)), with_seq s (wrap_u64 (s_seq s - 1)), f)
  | DequeueIn =>
      if s_closed s then Some (inr (AnsDequeue (Err ErrClosed)), s, f)
      else Some (inl (DequeueTimed (UTC (i_now i))), s, f)
  | DequeueTimed now =>
      '(popped, q) ← Pop (s_queue s) now;
      match popped with
      | None => Some (inr (AnsDequeue (Ok None)), with_queue s q, f)
      | Some msg => Some (inl (DequeuePopped msg), with_queue s q, f)
      end
  | DequeuePopped msg =>
      match Wal.WriteDequeue (i_append i) (ID msg) (s_wal s) f with
      | (Some e, wal, f) => Some (inl (DequeueFailed msg e), with_wal s wal, f)
      | (None, wal, f) => Some (inr (AnsDequeue (Ok (Some msg))), with_wal s wal, f)
      end
  | DequeueFailed msg e =>
      q ← Push (s_queue s) msg;
      Some (inr (AnsDequeue (Err e)), with_queue s q, f)
  | CloseIn =>
      if s_closed s then Some (inr (AnsClose None), s, f)
      else Some (inl CloseMarked, MkService (s_queue s) (s_wal s) (s_seq s) true, f)
  | CloseMarked =>
      let '(err, wal) := Wal.Close (i_close i) (s_wal s) in
      Some (inr (AnsClose err), with_wal s wal, f)
  end.

(** One step under the read lock.  The engine is changed all the same: what
    matured is promoted. *)
Definition read_step (i : Inputs) (r : reader) (s : QueueService) (f : File)
    : option ((reader + answer) * QueueService) :=
  match r with
  | SnapshotIn limit => Some (inl (SnapshotTimed limit (UTC (i_now i))), s)
  | SnapshotTimed limit now =>
      '(view, q) ← Engine.Snapshot (s_queue s) now limit;
      Some (inr (AnsSnapshot (MkQueueSnapshot (Mode q) now
              (MkQueueStats (Z.of_nat (v_ReadyLen view + v_DelayedLen view))
                 (Z.of_nat (v_ReadyLen view)) (Z.of_nat (v_DelayedLen view)))
              (v_Ready view) (v_Delayed view) (v_ReadyTruncated view) (v_DelayedTruncated view))),
            with_queue s q)
  | StatsIn => Some (inl (StatsTimed (UTC (i_now i))), s)
  | StatsTimed now => Some (inl (StatsCounted now (Len (s_queue s))), s)
  | StatsCounted now total =>
      '(available, q) ← AvailableLen (s_queue s) now;
      Some (inr (AnsStats (MkQueueStats (Z.of_nat total) (Z.of_nat available)
              (Z.of_nat total - Z.of_nat available))), with_queue s q)
  | WalTailIn limit =>
      Some (inr (AnsWalTail (if s_closed s then Err ErrClosed
                             else Wal.Tail (i_read i) limit (s_wal s) f)), s)
  end.

(** The steps that read the service's clock. *)
Definition reads_clock (p : pc) (s : QueueService) : bool :=
  match p with
  | Writing (EnqueueIn _ _) | Writing DequeueIn => negb (s_closed s)
  | Reading (SnapshotIn _) | Reading StatsIn => true
  | _ => false
  end.

(** ** One step of call [t] *)

Definition goto (k : Conc) (t : tid) (c : call) (p : pc) (mu : RWMutex) : Conc :=
  MkConc (k_svc k) (k_file k) (k_last k) mu (<[t := MkFrame c p]> (k_calls k)).

Definition exec (t : tid) (i : Inputs) (k : Conc) : option Conc :=
  fr ← k_calls k !! t;
  let c := fr_call fr in
  let go p := goto k t c p (k_mu k) in
  let last := if reads_clock (fr_pc fr) (k_svc k) then t_wall (i_now i) else k_last k in
  match fr_pc fr with
  | Called =>
      match c with
      | CallEnqueue req =>
          match enqueue_prepare (i_random i) req with
          | Err e => Some (go (Returned (AnsEnqueue (Err e))))
          | Ok id => Some (go (Locking (EnqueueIn req id)))
          end
      | CallDequeue => Some (go (Locking DequeueIn))
      | CallClose => Some (go (Locking CloseIn))
      | CallSnapshot limit => Some (go (RLocking (SnapshotIn limit)))
      | CallStats => Some (go (RLocking StatsIn))
      | CallWalTail limit => Some (go (RLocking (WalTailIn limit)))
      end
  | Locking w => mu ← Lock_claim t (k_mu k); Some (goto k t c (Claimed w) mu)
  | Claimed w => if Lock_entered (k_mu k) then Some (go (Writing w)) else None
  | Writing w =>
      '(r, s, f) ← write_step i w (k_svc k) (k_file k);
      let p := match r with inl w => Writing w | inr a => WriteDone a end in
      Some (MkConc s f last (k_mu k) (<[t := MkFrame c p]> (k_calls k)))
  | WriteDone a => Some (goto k t c (Returned a) (Unlock (k_mu k)))
  | RLocking r => mu ← RLock t (k_mu k); Some (goto k t c (Reading r) mu)
  | Reading r =>
      '(res, s) ← read_step i r (k_svc k) (k_file k);
      let p := match res with inl r => Reading r | inr a => ReadDone a end in
      Some (MkConc s (k_file k) last (k_mu k) (<[t := MkFrame c p]> (k_calls k)))
  | ReadDone a => Some (goto k t c (Returned a) (RUnlock t (k_mu k)))
  | Returned _ => None
  end.

(** A new call. *)
Definition invoke (t : tid) (c : call) (k : Conc) : option Conc :=
  match k_calls k !! t with
  | Some _ => None
  | None => Some (goto k t c Called (k_mu k))
  end.

(** ** Schedules and what the callers see *)

Inductive action :=
  | Invoke (t : tid) (c : call)
  | Step (t : tid) (i : Inputs).

Inductive event :=
  | Invoked (t : tid) (c : call)
  | Responded (t : tid) (a : answer).

(** The answer of a call that has returned. *)
Definition answer_of (k : Conc) (t : tid) : option answer :=
  match fr_pc <$> k_calls k !! t with Some (Returned a) => Some a | _ => None end.

Definition act (x : action) (k : Conc) : option (list event * Conc) :=
  match x with
  | Invoke t c => k' ← invoke t c k; Some ([Invoked t c], k')
  | Step t i =>
      k' ← exec t i k;
      Some (match answer_of k' t with Some a => [Responded t a] | None => [] end, k')
  end.

Fixpoint schedule (l : list action) (k : Conc) : option (list event * Conc) :=
  match l with
  | [] => Some ([], k)
  | x :: l =>
      '(h, k) ← act x k;
      '(h', k) ← schedule l k;
      Some (h ++ h', k)
  end.

(** A service without calls in progress. *)
Definition idle (s : QueueService) (f : File) (last : Z) : Conc :=
  MkConc s f last (MkRWMutex None ∅) ∅.

(** ** The calls one after the other *)

(** A call with what the environment gives it as a whole. *)
Inductive op :=
  | OpEnqueue (now : Time) (random : result (list Z)) (io : append_io) (req : EnqueueRequest)
  | OpDequeue (now : Time) (io : append_io)
  | OpSnapshot (now : Time) (limit : Z)
  | OpStats (now : Time)
  | OpWalTail (io : read_io) (limit : Z)
  | OpClose (close_err : option error).

Definition op_call (o : op) : call :=
  match o with
  | OpEnqueue _ _ _ req => CallEnqueue req
  | OpDequeue _ _ => CallDequeue
  | OpSnapshot _ limit => CallSnapshot limit
  | OpStats _ => CallStats
  | OpWalTail _ limit => CallWalTail limit
  | OpClose _ => CallClose
  end.

(** The call as [Service] has it: one step. *)
Definition perform (o : op) (st : QueueService * File) : option (answer * (QueueService * File)) :=
  let '(s, f) := st in
  match o with
  | OpEnqueue now random io req =>
      '(r, s, f) ← Enqueue now random io req s f; Some (AnsEnqueue r, (s, f))
  | OpDequeue now io => '(r, s, f) ← Dequeue now io s f; Some (AnsDequeue r, (s, f))
  | OpSnapshot now limit => '(v, s) ← Snapshot now limit s; Some (AnsSnapshot v, (s, f))
  | OpStats now => '(v, s) ← Stats now s; Some (AnsStats v, (s, f))
  | OpWalTail io limit => Some (AnsWalTail (WalTail io limit s f), (s, f))
  | OpClose close_err => let '(err, s) := Close close_err s in Some (AnsClose err, (s, f))
  end.

(** ** How far a call is from its end *)

Definition write_left (w : writer) : nat :=
  match w with
  | EnqueueIn _ _ | DequeueIn => 4
  | EnqueueStamped _ | DequeueTimed _ => 3
  | EnqueueWritten _ | EnqueueFailed _ | DequeuePopped _ | CloseIn => 2
  | DequeueFailed _ _ | CloseMarked => 1
  end.

Definition read_left (r : reader) : nat :=
  match r with
  | StatsIn => 3
  | SnapshotIn _ | StatsTimed _ => 2
  | SnapshotTimed _ _ | StatsCounted _ _ | WalTailIn _ => 1
  end.

Definition steps_left (p : pc) : nat :=
  match p with
  | Called => 8
  | Locking w => 3 + write_left w
  | Claimed w => 2 + write_left w
  | Writing w => 1 + write_left w
  | RLocking r => 2 + read_left r
  | Reading r => 1 + read_left r
  | WriteDone _ | ReadDone _ => 1
  | Returned _ => 0
  end.

(** The steps the calls in progress can still make together. *)
Definition total_left (k : Conc) : nat :=
  map_fold (λ _ fr n, steps_left (fr_pc fr) + n)%nat 0%nat (k_calls k).
End concurrent.
