(* ===== verification/ConcurrentFacts.v ===== *)
(** * Every interleaving has an order

    The lock invariant, and the argument that the calls of any schedule take
    effect one after the other.  [Section linearization] is that argument for any
    account of the calls: an abstract state, a relation that says how a whole
    call moves it, and what is known of a call halfway.  [ConcurrentTheorems]
    uses it twice, once for all schedules and all inputs, and once for the runs
    of [ServiceTrace]. *)

From S2P Require Import Prelude GoTime GoStrconv GoJson Model Engine LogRecord Service Concurrent.
From S2P Require Wal.

Import Wal (WAL, File).

Local Open Scope Z_scope.

(** ** Histories with the instants at which the calls take effect *)

Inductive gevent :=
  | GInvoked (t : tid) (c : call)
  | GCommitted (t : tid) (o : op) (a : answer)
  | GResponded (t : tid) (a : answer).

Definition ev_tid (e : gevent) : tid :=
  match e with GInvoked t _ | GCommitted t _ _ | GResponded t _ => t end.

Definition visible (H : list gevent) : list event :=
  omap (λ e, match e with
             | GInvoked t c => Some (Invoked t c)
             | GResponded t a => Some (Responded t a)
             | GCommitted _ _ _ => None
             end) H.

Definition commits (H : list gevent) : list (op * answer) :=
  omap (λ e, match e with GCommitted _ o a => Some (o, a) | _ => None end) H.

Definition of_call (t : tid) (H : list gevent) : list gevent := filter (λ e, ev_tid e = t) H.

(** What a frame says about the past of its call: it was invoked with this call,
    it took effect once it has an answer, and it responded when it returned. *)
Definition past (t : tid) (fr : option Frame) (l : list gevent) : Prop :=
  match fr with
  | None => l = []
  | Some (MkFrame c p) =>
      match p with
      | WriteDone a | ReadDone a => ∃ o, op_call o = c ∧ l = [GInvoked t c; GCommitted t o a]
      | Returned a => ∃ o, op_call o = c ∧ l = [GInvoked t c; GCommitted t o a; GResponded t a]
      | _ => l = [GInvoked t c]
      end
  end.

Lemma visible_app H H' : visible (H ++ H') = visible H ++ visible H'.
Proof. apply omap_app. Qed.
Lemma commits_app H H' : commits (H ++ H') = commits H ++ commits H'.
Proof. apply omap_app. Qed.
Lemma of_call_app t H H' : of_call t (H ++ H') = of_call t H ++ of_call t H'.
Proof. apply filter_app. Qed.

Lemma of_call_own t H : Forall (λ e, ev_tid e = t) H → of_call t H = H.
Proof. induction 1 as [|e H He _ IH]; [done|]. unfold of_call in *. by rewrite filter_cons_True, IH. Qed.

Lemma of_call_other t t' H : t' ≠ t → Forall (λ e, ev_tid e = t) H → of_call t' H = [].
Proof.
  intros Ht. induction 1 as [|e H He _ IH]; [done|]. unfold of_call in *.
  rewrite filter_cons_False; [done|]. by rewrite He.
Qed.

(** ** The lock *)

Definition holds_write (p : pc) : bool :=
  match p with Claimed _ | Writing _ | WriteDone _ => true | _ => false end.
Definition in_write (p : pc) : bool :=
  match p with Writing _ | WriteDone _ => true | _ => false end.
Definition holds_read (p : pc) : bool :=
  match p with Reading _ | ReadDone _ => true | _ => false end.

Definition pc_at (k : Conc) (t : tid) : option pc := fr_pc <$> k_calls k !! t.

(** The lock says who holds it, and a writer inside is alone. *)
Record lock_ok (k : Conc) : Prop := {
  lk_writer t : mu_writer (k_mu k) = Some t ↔ ∃ p, pc_at k t = Some p ∧ holds_write p = true;
  lk_readers t : t ∈ mu_readers (k_mu k) ↔ ∃ p, pc_at k t = Some p ∧ holds_read p = true;
  lk_alone t p : pc_at k t = Some p → in_write p = true → mu_readers (k_mu k) = ∅
}.

Lemma in_holds p : in_write p = true → holds_write p = true.
Proof. by destruct p. Qed.

Section locks.
Context (k : Conc) (L : lock_ok k).

Lemma writer_is t p : pc_at k t = Some p → holds_write p = true → mu_writer (k_mu k) = Some t.
Proof. intros. apply (lk_writer k L). eauto. Qed.

Lemma writers_same t t' p p' : pc_at k t = Some p → pc_at k t' = Some p' →
  holds_write p = true → holds_write p' = true → t = t'.
Proof.
  intros E E' Hp Hp'. pose proof (writer_is t p E Hp). pose proof (writer_is t' p' E' Hp'). congruence.
Qed.

Lemma no_writer t p : mu_writer (k_mu k) = None → pc_at k t = Some p → holds_write p = false.
Proof.
  intros Hn E. destruct (holds_write p) eqn:Hp; [|done]. by rewrite (writer_is t p E Hp) in Hn.
Qed.

Lemma no_reader_inside t t' p p' : pc_at k t = Some p → in_write p = true →
  pc_at k t' = Some p' → holds_read p' = false.
Proof.
  intros E Hp E'. destruct (holds_read p') eqn:Hr; [|done].
  assert (t' ∈ mu_readers (k_mu k)) as Hin by (apply (lk_readers k L); eauto).
  rewrite (lk_alone k L t p E Hp) in Hin. by apply not_elem_of_empty in Hin.
Qed.

Lemma no_writer_inside t t' p p' : pc_at k t = Some p → holds_read p = true →
  pc_at k t' = Some p' → in_write p' = false.
Proof.
  intros E Hp E'. destruct (in_write p') eqn:Hw; [|done].
  pose proof (no_reader_inside t' t p' p E' Hw E). congruence.
Qed.
End locks.

(** The state after a step of call [t]. *)
Definition advance (k : Conc) (t : tid) (c : call) (p : pc) (mu : RWMutex) (s : QueueService) (f : File)
    (last : Z) : Conc :=
  MkConc s f last mu (<[t := MkFrame c p]> (k_calls k)).

Lemma pc_at_self k t c p mu s f last : pc_at (advance k t c p mu s f last) t = Some p.
Proof. unfold pc_at, advance. cbn [k_calls]. by rewrite lookup_insert_eq. Qed.

Lemma pc_at_other k t t' c p mu s f last : t' ≠ t →
  pc_at (advance k t c p mu s f last) t' = pc_at k t'.
Proof. intros. unfold pc_at, advance. cbn [k_calls]. by rewrite lookup_insert_ne. Qed.

Lemma pc_at_frame k t fr : k_calls k !! t = Some fr → pc_at k t = Some (fr_pc fr).
Proof. unfold pc_at. by intros ->. Qed.

(** A step keeps the lock invariant if the lock says the truth about [t], and the
    same as before about the others. *)
Lemma lock_ok_advance k t c p mu s f last :
  lock_ok k →
  (∀ t', t' ≠ t → mu_writer mu = Some t' ↔ mu_writer (k_mu k) = Some t') →
  (mu_writer mu = Some t ↔ holds_write p = true) →
  (∀ t', t' ≠ t → t' ∈ mu_readers mu ↔ t' ∈ mu_readers (k_mu k)) →
  (t ∈ mu_readers mu ↔ holds_read p = true) →
  (∀ t' p', (t' = t ∧ p' = p) ∨ (t' ≠ t ∧ pc_at k t' = Some p') → in_write p' = true → mu_readers mu = ∅) →
  lock_ok (advance k t c p mu s f last).
Proof.
  intros L Hw Hwt Hr Hrt Ha. split; cbn [advance k_mu].
  - intros t'. destruct (decide (t' = t)) as [->|Ht].
    + rewrite Hwt, pc_at_self. naive_solver.
    + rewrite (Hw t' Ht), pc_at_other by done. apply L.
  - intros t'. destruct (decide (t' = t)) as [->|Ht].
    + rewrite Hrt, pc_at_self. naive_solver.
    + rewrite (Hr t' Ht), pc_at_other by done. apply L.
  - intros t' p'. destruct (decide (t' = t)) as [->|Ht].
    + rewrite pc_at_self. intros [= <-]. apply (Ha t). by left.
    + rewrite pc_at_other by done. intros E. apply (Ha t'). by right.
Qed.

(** A step that leaves the lock alone. *)
Lemma lock_ok_stay k t c p p' s f last :
  lock_ok k → pc_at k t = Some p → holds_write p' = holds_write p → holds_read p' = holds_read p →
  (in_write p' = true → in_write p = true) →
  lock_ok (advance k t c p' (k_mu k) s f last).
Proof.
  intros L E Hw Hr Hi. apply lock_ok_advance; [done|done| |done| |].
  - rewrite Hw, (lk_writer k L), E. naive_solver.
  - rewrite Hr, (lk_readers k L), E. naive_solver.
  - intros t' p1 [[-> ->]|[_ E']] Hp; [by eapply (lk_alone k L), Hi|by eapply (lk_alone k L)].
Qed.

Lemma lock_ok_enter k t c w s f last :
  lock_ok k → pc_at k t = Some (Claimed w) → Lock_entered (k_mu k) = true →
  lock_ok (advance k t c (Writing w) (k_mu k) s f last).
Proof.
  intros L E He%bool_decide_eq_true. apply lock_ok_advance; [done|done| |done| |done].
  - rewrite (lk_writer k L), E. naive_solver.
  - rewrite (lk_readers k L), E. naive_solver.
Qed.

Lemma lock_ok_claim k t c w mu s f last :
  lock_ok k → pc_at k t = Some (Locking w) → Lock_claim t (k_mu k) = Some mu →
  lock_ok (advance k t c (Claimed w) mu s f last).
Proof.
  unfold Lock_claim. intros L E Hc. destruct (mu_writer (k_mu k)) eqn:Hn; [done|]. injection Hc as <-.
  apply lock_ok_advance; cbn [mu_writer mu_readers]; [done| |done|done| |].
  - intros t' Ht. rewrite Hn. split; congruence.
  - rewrite (lk_readers k L), E. naive_solver.
  - intros t' p [[-> ->]|[_ E']] Hp; [done|]. by eapply (lk_alone k L).
Qed.

Lemma lock_ok_unlock k t c a s f last :
  lock_ok k → pc_at k t = Some (WriteDone a) →
  lock_ok (advance k t c (Returned a) (Unlock (k_mu k)) s f last).
Proof.
  intros L E. pose proof (writer_is k L t _ E eq_refl) as Hw.
  apply lock_ok_advance; cbn [Unlock mu_writer mu_readers]; [done| |done|done| |].
  - intros t' Ht. rewrite Hw. split; congruence.
  - rewrite (lk_readers k L), E. naive_solver.
  - intros t' p [[-> ->]|[_ E']] Hp; [done|]. by eapply (lk_alone k L).
Qed.

Lemma lock_ok_rlock k t c r mu s f last :
  lock_ok k → pc_at k t = Some (RLocking r) → RLock t (k_mu k) = Some mu →
  lock_ok (advance k t c (Reading r) mu s f last).
Proof.
  unfold RLock. intros L E Hc. destruct (mu_writer (k_mu k)) eqn:Hn; [done|]. injection Hc as <-.
  apply lock_ok_advance; cbn [mu_writer mu_readers]; [done| |done| | |].
  - intros t' Ht. by rewrite Hn.
  - intros t' Ht. set_solver.
  - set_solver.
  - intros t' p [[-> ->]|[_ E']] Hp; [done|].
    pose proof (no_writer k L t' p Hn E') as H1. by rewrite (in_holds p Hp) in H1.
Qed.

Lemma lock_ok_runlock k t c a s f last :
  lock_ok k → pc_at k t = Some (ReadDone a) →
  lock_ok (advance k t c (Returned a) (RUnlock t (k_mu k)) s f last).
Proof.
  intros L E. apply lock_ok_advance; cbn [RUnlock mu_writer mu_readers]; [done|done| | | |].
  - rewrite (lk_writer k L), E. naive_solver.
  - intros t' Ht. set_solver.
  - set_solver.
  - intros t' p [[-> ->]|[_ E']] Hp; [done|].
    pose proof (no_writer_inside k L t t' _ p E eq_refl E'). congruence.
Qed.

Lemma lock_ok_idle s f last : lock_ok (idle s f last).
Proof.
  split; cbn; unfold pc_at; cbn.
  - intros t. rewrite lookup_empty. naive_solver.
  - intros t. rewrite lookup_empty. cbn. set_solver.
  - intros t p. by rewrite lookup_empty.
Qed.

(** ** The call that is writing *)

Definition inside (k : Conc) : option (call * writer) :=
  t ← mu_writer (k_mu k);
  fr ← k_calls k !! t;
  match fr_pc fr with Writing w => Some (fr_call fr, w) | _ => None end.

Lemma inside_writing k t c w : lock_ok k → k_calls k !! t = Some (MkFrame c (Writing w)) →
  inside k = Some (c, w).
Proof.
  intros L E. unfold inside. rewrite (writer_is k L t (Writing w)); [|by rewrite (pc_at_frame _ _ _ E)|done].
  cbn [mbind option_bind]. by rewrite E.
Qed.

Lemma inside_none k : lock_ok k → (∀ t p, pc_at k t = Some p → ∀ w, p ≠ Writing w) → inside k = None.
Proof.
  intros L Hno. unfold inside. destruct (mu_writer (k_mu k)) as [t|]; [|done]. cbn [mbind option_bind].
  destruct (k_calls k !! t) as [[c p]|] eqn:E; [|done]. cbn [mbind option_bind fr_pc].
  specialize (Hno t p). rewrite (pc_at_frame _ _ _ E) in Hno. specialize (Hno eq_refl).
  destruct p; try done. naive_solver.
Qed.

Lemma inside_some k c w : inside k = Some (c, w) →
  ∃ t, mu_writer (k_mu k) = Some t ∧ k_calls k !! t = Some (MkFrame c (Writing w)).
Proof.
  unfold inside. destruct (mu_writer (k_mu k)) as [t|]; [|done]. cbn [mbind option_bind].
  destruct (k_calls k !! t) as [[c' p]|] eqn:E; [|done]. cbn [mbind option_bind fr_pc fr_call].
  destruct p; try done. intros [= -> ->]. eauto.
Qed.

(** Nobody is inside next to a call that holds the lock. *)
Lemma inside_held k t p : lock_ok k → pc_at k t = Some p →
  holds_write p = true ∨ holds_read p = true → (∀ w, p ≠ Writing w) → inside k = None.
Proof.
  intros L E Hp Hno. apply inside_none; [done|]. intros t' p' E' w ->.
  destruct Hp as [Hp|Hp].
  - rewrite (writers_same k L t t' p _ E E' Hp eq_refl) in E. naive_solver.
  - pose proof (no_writer_inside k L t t' p _ E Hp E'). done.
Qed.

(** The steps of the others do not change who is inside. *)
Lemma inside_advance k t c c0 p0 p mu s f last :
  k_calls k !! t = Some (MkFrame c0 p0) ∨ k_calls k !! t = None ∧ p0 = Called →
  (∀ w, p0 ≠ Writing w) → (∀ w, p ≠ Writing w) → mu_writer mu = mu_writer (k_mu k) →
  inside (advance k t c p mu s f last) = inside k.
Proof.
  intros E H0 Hp Hmu. unfold inside, advance. cbn [k_mu k_calls]. rewrite Hmu.
  destruct (mu_writer (k_mu k)) as [t'|]; [|done]. cbn [mbind option_bind].
  destruct (decide (t' = t)) as [->|Ht]; [|by rewrite lookup_insert_ne].
  rewrite lookup_insert_eq. cbn [mbind option_bind fr_pc].
  destruct E as [E|[E _]]; rewrite E; cbn [mbind option_bind fr_pc].
  - destruct p, p0; try done; naive_solver.
  - destruct p; try done; naive_solver.
Qed.

(** ** The order of the calls *)

(** A call has reached a place of its own body. *)
Definition reader_call (r : reader) : call :=
  match r with
  | SnapshotIn limit | SnapshotTimed limit _ => CallSnapshot limit
  | StatsIn | StatsTimed _ | StatsCounted _ _ => CallStats
  | WalTailIn limit => CallWalTail limit
  end.
Definition fresh_reader (r : reader) : bool :=
  match r with SnapshotIn _ | StatsIn | WalTailIn _ => true | _ => false end.

(** The last reading of the clock after a step at place [p]. *)
Definition last_after (i : Inputs) (p : pc) (s : QueueService) (last : Z) : Z :=
  if reads_clock p s then t_wall (i_now i) else last.

(** The steps inside the lock. *)
Lemma exec_writing `{LC : LogCodec} t i k c w : k_calls k !! t = Some (MkFrame c (Writing w)) →
  exec t i k =
    '(r, s, f) ← write_step i w (k_svc k) (k_file k);
    Some (advance k t c (match r with inl w => Writing w | inr a => WriteDone a end) (k_mu k) s f
            (last_after i (Writing w) (k_svc k) (k_last k))).
Proof.
  unfold exec. intros ->. cbn [mbind option_bind fr_pc fr_call].
  by destruct (write_step i w (k_svc k) (k_file k)) as [[[[w'|a] s'] f']|].
Qed.

Lemma exec_reading `{LC : LogCodec} t i k c r : k_calls k !! t = Some (MkFrame c (Reading r)) →
  exec t i k =
    '(res, s) ← read_step i r (k_svc k) (k_file k);
    Some (advance k t c (match res with inl r => Reading r | inr a => ReadDone a end) (k_mu k) s (k_file k)
            (last_after i (Reading r) (k_svc k) (k_last k))).
Proof.
  unfold exec. intros ->. cbn [mbind option_bind fr_pc fr_call].
  by destruct (read_step i r (k_svc k) (k_file k)) as [[[r'|a] s']|].
Qed.

Section chain.
Context {St : Type} (P : St → op → answer → St → Prop).

Inductive chain (A : St) : list (op * answer) → St → Prop :=
  | chain_nil : chain A [] A
  | chain_snoc l B o a C : chain A l B → P B o a C → chain A (l ++ [(o, a)]) C.

Lemma chain_one A o a B : P A o a B → chain A [(o, a)] B.
Proof. intros HP. exact (chain_snoc A [] A o a B (chain_nil A) HP). Qed.

Lemma chain_app A l B l' C : chain A l B → chain B l' C → chain A (l ++ l') C.
Proof.
  intros H1. induction 1 as [|l' D o a E _ IH HP]; [by rewrite app_nil_r|].
  rewrite app_assoc. by eapply chain_snoc.
Qed.
End chain.

Section linearization.
Context `{LC : LogCodec}.
(** [St] is the state between the calls, with the service and the file in it;
    [Inv] what is known of it together with the clock, [P] a whole call. *)
Context {St : Type} (svc : St → QueueService) (file : St → File).
Context (Inv : St → Z → Prop) (P : St → op → answer → St → Prop).
(** What is known of a call that waits for the lock, of one that writes, with
    the state before it, and of one that reads. *)
Context (E : call → writer → Prop).
Context (W : St → call → writer → QueueService → File → Z → Prop).
Context (R : St → reader → Z → Prop).
(** What the environment may give to a step. *)
Context (mayC : call → Inputs → Prop).
Context (mayW : writer → QueueService → Z → Inputs → Prop).
Context (mayR : reader → Z → Inputs → Prop).

Definition may (k : Conc) (t : tid) (i : Inputs) : Prop :=
  match k_calls k !! t with
  | Some (MkFrame c Called) => mayC c i
  | Some (MkFrame _ (Writing w)) => mayW w (k_svc k) (k_last k) i
  | Some (MkFrame _ (Reading r)) => mayR r (k_last k) i
  | _ => True
  end.

Definition pc_ok (c : call) (p : pc) : Prop :=
  match p with
  | Locking w | Claimed w => E c w
  | RLocking r => reader_call r = c ∧ fresh_reader r = true
  | Reading r => reader_call r = c
  | _ => True
  end.

Definition state_ok (A : St) (k : Conc) : Prop :=
  match inside k with
  | Some (c, w) => W A c w (k_svc k) (k_file k) (k_last k)
  | None => k_svc k = svc A ∧ k_file k = file A
  end.

(** The schedule so far has the order [commits H], which leads to [A]. *)
Record linear (A0 : St) (k : Conc) (H : list gevent) (A : St) : Prop := {
  ln_past t : past t (k_calls k !! t) (of_call t H);
  ln_pcs t c p : k_calls k !! t = Some (MkFrame c p) → pc_ok c p;
  ln_lock : lock_ok k;
  ln_chain : chain P A0 (commits H) A;
  ln_inv : Inv A (k_last k);
  ln_state : state_ok A k;
  ln_readers t c r : k_calls k !! t = Some (MkFrame c (Reading r)) → R A r (k_last k)
}.

Lemma linear_idle A last : Inv A last → linear A (idle (svc A) (file A) last) [] A.
Proof.
  intros HI. split; cbn [idle k_calls k_last]; try done; try (intros t *; rewrite lookup_empty; done).
  - apply lock_ok_idle.
  - constructor.
Qed.

(** A step of [t], with the events it adds. *)
Lemma linear_advance A0 k H A t c p mu s f last evs B :
  linear A0 k H A →
  Forall (λ e, ev_tid e = t) evs → past t (Some (MkFrame c p)) (of_call t H ++ evs) → pc_ok c p →
  lock_ok (advance k t c p mu s f last) → chain P A (commits evs) B → Inv B last →
  state_ok B (advance k t c p mu s f last) →
  (∀ r, p = Reading r → R B r last) →
  (∀ t' c' r, t' ≠ t → k_calls k !! t' = Some (MkFrame c' (Reading r)) → R A r (k_last k) → R B r last) →
  linear A0 (advance k t c p mu s f last) (H ++ evs) B.
Proof.
  intros [Hp Hpc HL Hc HI HS HR] Hev Hpast Hpc' HL' Hc' HI' HS' Hr Hrs. split; try done.
  - intros t'. rewrite of_call_app. cbn [advance k_calls]. destruct (decide (t' = t)) as [->|Ht].
    + by rewrite lookup_insert_eq, (of_call_own t evs).
    + rewrite lookup_insert_ne, (of_call_other t t' evs), app_nil_r by done. apply Hp.
  - intros t' c' p'. cbn [advance k_calls]. destruct (decide (t' = t)) as [->|Ht].
    + rewrite lookup_insert_eq. by intros [= <- <-].
    + rewrite lookup_insert_ne by done. apply Hpc.
  - rewrite commits_app. by eapply chain_app.
  - intros t' c' r. cbn [advance k_calls k_last]. destruct (decide (t' = t)) as [->|Ht].
    + rewrite lookup_insert_eq. intros [= <- ->]. by apply Hr.
    + rewrite lookup_insert_ne by done. intros E'. eapply Hrs; eauto.
Qed.

(** A step that neither commits nor changes what is protected. *)
Lemma linear_quiet A0 k H A t c c0 p0 p mu evs :
  linear A0 k H A →
  k_calls k !! t = Some (MkFrame c0 p0) ∨ k_calls k !! t = None ∧ p0 = Called →
  (∀ w, p0 ≠ Writing w) → (∀ w, p ≠ Writing w) →
  (inside k = None ∨ mu_writer mu = mu_writer (k_mu k)) →
  Forall (λ e, ev_tid e = t) evs → commits evs = [] →
  past t (Some (MkFrame c p)) (of_call t H ++ evs) → pc_ok c p →
  lock_ok (advance k t c p mu (k_svc k) (k_file k) (k_last k)) →
  (∀ r, p = Reading r → R A r (k_last k)) →
  linear A0 (advance k t c p mu (k_svc k) (k_file k) (k_last k)) (H ++ evs) A.
Proof.
  intros L E0 H0 Hp Hin Hev Hco Hpast Hpc HL Hr. eapply linear_advance; try done.
  - rewrite Hco. constructor.
  - apply L.
  - pose proof (ln_state _ _ _ _ L) as HS. unfold state_ok in *.
    assert (inside (advance k t c p mu (k_svc k) (k_file k) (k_last k)) = inside k) as ->; [|done].
    destruct Hin as [Hin|Hmu]; [|by eapply inside_advance].
    rewrite Hin. apply inside_none; [done|]. intros t' p' Ep w ->.
    destruct (decide (t' = t)) as [->|Ht]; [rewrite pc_at_self in Ep; naive_solver|].
    rewrite pc_at_other in Ep by done. unfold pc_at in Ep.
    destruct (k_calls k !! t') as [[c' p']|] eqn:E'; [|done]. injection Ep as Ep. cbn [fr_pc] in Ep. subst p'.
    by rewrite (inside_writing k t' c' w (ln_lock _ _ _ _ L) E') in Hin.
Qed.

(** ** Every step keeps the order *)

Hypothesis E_enqueue : ∀ req i id,
  mayC (CallEnqueue req) i → enqueue_prepare (i_random i) req = Ok id → E (CallEnqueue req) (EnqueueIn req id).
Hypothesis E_dequeue : E CallDequeue DequeueIn.
Hypothesis E_close : E CallClose CloseIn.
Hypothesis P_rejected : ∀ A last req i e,
  Inv A last → mayC (CallEnqueue req) i → enqueue_prepare (i_random i) req = Err e →
  P A (OpEnqueue (i_now i) (i_random i) (i_append i) req) (AnsEnqueue (Err e)) A.
Hypothesis W_start : ∀ A c w last, E c w → Inv A last → W A c w (svc A) (file A) last.
Hypothesis W_step : ∀ A c w s f last i w' s' f',
  W A c w s f last → Inv A last → mayW w s last i → write_step i w s f = Some (inl w', s', f') →
  W A c w' s' f' (last_after i (Writing w) s last) ∧ Inv A (last_after i (Writing w) s last).
Hypothesis W_done : ∀ A c w s f last i a s' f',
  W A c w s f last → Inv A last → mayW w s last i → write_step i w s f = Some (inr a, s', f') →
  ∃ o B, op_call o = c ∧ P A o a B ∧ svc B = s' ∧ file B = f' ∧ Inv B (last_after i (Writing w) s last).
Hypothesis R_start : ∀ A r last, fresh_reader r = true → R A r last.
Hypothesis R_step : ∀ A r last i r' s',
  R A r last → Inv A last → mayR r last i → read_step i r (svc A) (file A) = Some (inl r', s') →
  let last' := last_after i (Reading r) (svc A) last in
  s' = svc A ∧ reader_call r' = reader_call r ∧ R A r' last' ∧ Inv A last' ∧ (∀ r2, R A r2 last → R A r2 last').
Hypothesis R_done : ∀ A r last i a s',
  R A r last → Inv A last → mayR r last i → read_step i r (svc A) (file A) = Some (inr a, s') →
  let last' := last_after i (Reading r) (svc A) last in
  ∃ o B, op_call o = reader_call r ∧ P A o a B ∧ svc B = s' ∧ file B = file A ∧ Inv B last'
    ∧ (∀ r2, R A r2 last → R B r2 last').

(** What a step adds to the history. *)
Definition responses (k : Conc) (t : tid) : list event :=
  match answer_of k t with Some a => [Responded t a] | None => [] end.

Definition stays (A0 : St) (H : list gevent) (k' : Conc) (evs : list event) : Prop :=
  ∃ H' B, linear A0 k' (H ++ H') B ∧ visible H' = evs.

Lemma answer_advance k t c p mu s f last :
  answer_of (advance k t c p mu s f last) t = match p with Returned a => Some a | _ => None end.
Proof. unfold answer_of. fold (pc_at (advance k t c p mu s f last) t). by rewrite pc_at_self. Qed.

Lemma stays_quiet A0 k H A t c c0 p0 p mu :
  linear A0 k H A →
  k_calls k !! t = Some (MkFrame c0 p0) →
  (∀ w, p0 ≠ Writing w) → (∀ w, p ≠ Writing w) → (∀ a, p ≠ Returned a) →
  (inside k = None ∨ mu_writer mu = mu_writer (k_mu k)) →
  past t (Some (MkFrame c p)) (of_call t H) → pc_ok c p →
  lock_ok (advance k t c p mu (k_svc k) (k_file k) (k_last k)) →
  (∀ r, p = Reading r → R A r (k_last k)) →
  stays A0 H (advance k t c p mu (k_svc k) (k_file k) (k_last k))
    (responses (advance k t c p mu (k_svc k) (k_file k) (k_last k)) t).
Proof.
  intros. exists [], A. split.
  - eapply linear_quiet; eauto. by rewrite app_nil_r.
  - unfold responses. rewrite answer_advance. destruct p; naive_solver.
Qed.

Lemma past_invoked A0 k H A t c p : linear A0 k H A → k_calls k !! t = Some (MkFrame c p) →
  match p with WriteDone _ | ReadDone _ | Returned _ => False | _ => True end → of_call t H = [GInvoked t c].
Proof. intros L Ek Hp. pose proof (ln_past _ _ _ _ L t) as Hq. rewrite Ek in Hq. by destruct p. Qed.

(** The return of a call. *)
Lemma stays_return A0 k H A t c p a mu :
  linear A0 k H A → k_calls k !! t = Some (MkFrame c p) → p = WriteDone a ∨ p = ReadDone a →
  lock_ok (advance k t c (Returned a) mu (k_svc k) (k_file k) (k_last k)) →
  stays A0 H (advance k t c (Returned a) mu (k_svc k) (k_file k) (k_last k))
    (responses (advance k t c (Returned a) mu (k_svc k) (k_file k) (k_last k)) t).
Proof.
  intros L Ek Hp Hl. exists [GResponded t a], A. split.
  - eapply linear_quiet; [done|by left|by destruct Hp as [->| ->]|done| |by constructor|done| |done|done|done].
    + left. eapply (inside_held k t p); [apply L|by rewrite (pc_at_frame _ _ _ Ek)| |];
        destruct Hp as [->| ->]; auto.
    + pose proof (ln_past _ _ _ _ L t) as Hq. rewrite Ek in Hq.
      destruct Hp as [->| ->]; destruct Hq as (o & Ho & ->); by exists o.
  - unfold responses. by rewrite answer_advance.
Qed.

Lemma commit_events A0 k H A t c p o a : linear A0 k H A → k_calls k !! t = Some (MkFrame c p) →
  match p with WriteDone _ | ReadDone _ | Returned _ => False | _ => True end → op_call o = c →
  ∃ o', op_call o' = c ∧ of_call t H ++ [GCommitted t o a] = [GInvoked t c; GCommitted t o' a].
Proof. intros L Ek Hp Ho. exists o. split; [done|]. by rewrite (past_invoked A0 k H A t c p). Qed.

Lemma stays_writing A0 k H A t c w i k' :
  linear A0 k H A → k_calls k !! t = Some (MkFrame c (Writing w)) → may k t i → exec t i k = Some k' →
  stays A0 H k' (responses k' t).
Proof.
  intros L Ek Hm He. pose proof (ln_lock _ _ _ _ L) as HL.
  pose proof (pc_at_frame _ _ _ Ek) as Ep. cbn [fr_pc] in Ep.
  assert (W A c w (k_svc k) (k_file k) (k_last k)) as HW.
  { pose proof (ln_state _ _ _ _ L) as HS. unfold state_ok in HS. by rewrite (inside_writing k t c w) in HS. }
  unfold may in Hm. rewrite Ek in Hm. rewrite (exec_writing t i k c w Ek) in He.
  destruct (write_step i w (k_svc k) (k_file k)) as [[[[w'|a] s'] f']|] eqn:Hs; [..|done]; injection He as <-;
    set (last' := last_after i (Writing w) (k_svc k) (k_last k)).
  - pose proof (W_step _ _ _ _ _ _ _ _ _ _ HW (ln_inv _ _ _ _ L) Hm Hs) as [HW' HI']. fold last' in HW', HI'.
    assert (lock_ok (advance k t c (Writing w') (k_mu k) s' f' last')) as HL' by (by eapply lock_ok_stay).
    exists [], A. split; [|unfold responses; by rewrite answer_advance].
    eapply (linear_advance A0 k H A t c _ _ _ _ _ []); try done; [| constructor | |].
    + rewrite app_nil_r. exact (past_invoked A0 k H A t c _ L Ek I).
    + unfold state_ok. rewrite (inside_writing _ t c w'); [done|done|]. cbn [advance k_calls]. by rewrite lookup_insert_eq.
    + intros t' c' r _ E'. pose proof (no_reader_inside k HL t t' _ _ Ep eq_refl (pc_at_frame _ _ _ E')). done.
  - pose proof (W_done _ _ _ _ _ _ _ _ _ _ HW (ln_inv _ _ _ _ L) Hm Hs) as (o & B & Ho & HP & HsB & HfB & HIB).
    fold last' in HIB.
    assert (lock_ok (advance k t c (WriteDone a) (k_mu k) s' f' last')) as HL' by (by eapply lock_ok_stay).
    exists [GCommitted t o a], B. split; [|unfold responses; by rewrite answer_advance].
    eapply linear_advance; try done; [by constructor| |by apply chain_one| |].
    + exact (commit_events A0 k H A t c _ o a L Ek I Ho).
    + unfold state_ok. rewrite (inside_held _ t (WriteDone a)); [done|done|by rewrite pc_at_self|by left|done].
    + intros t' c' r _ E'. pose proof (no_reader_inside k HL t t' _ _ Ep eq_refl (pc_at_frame _ _ _ E')). done.
Qed.

Lemma stays_reading A0 k H A t c r i k' :
  linear A0 k H A → k_calls k !! t = Some (MkFrame c (Reading r)) → may k t i → exec t i k = Some k' →
  stays A0 H k' (responses k' t).
Proof.
  intros L Ek Hm He. pose proof (ln_lock _ _ _ _ L) as HL. pose proof (ln_readers _ _ _ _ L t c r Ek) as HR.
  pose proof (ln_pcs _ _ _ _ L t c _ Ek) as Hc. cbn [pc_ok] in Hc.
  pose proof (pc_at_frame _ _ _ Ek) as Ep. cbn [fr_pc] in Ep.
  assert (k_svc k = svc A ∧ k_file k = file A) as [HsA HfA].
  { pose proof (ln_state _ _ _ _ L) as HS. unfold state_ok in HS.
    rewrite (inside_held k t (Reading r)) in HS; [done|done|done|by right|done]. }
  unfold may in Hm. rewrite Ek in Hm. rewrite (exec_reading t i k c r Ek), HsA, HfA in He.
  destruct (read_step i r (svc A) (file A)) as [[[r'|a] s']|] eqn:Hs; [..|done]; injection He as <-;
    set (last' := last_after i (Reading r) (svc A) (k_last k)).
  - pose proof (R_step _ _ _ _ _ _ HR (ln_inv _ _ _ _ L) Hm Hs) as (-> & Hc' & HR' & HI' & Hall). fold last' in HR', HI', Hall.
    assert (lock_ok (advance k t c (Reading r') (k_mu k) (svc A) (file A) last')) as HL' by (by eapply lock_ok_stay).
    exists [], A. split; [|unfold responses; by rewrite answer_advance].
    eapply (linear_advance A0 k H A t c _ _ _ _ _ []); try done; [|cbn [pc_ok]; congruence|constructor| |naive_solver|eauto].
    + rewrite app_nil_r. exact (past_invoked A0 k H A t c _ L Ek I).
    + unfold state_ok. rewrite (inside_held _ t (Reading r')); [done|done|by rewrite pc_at_self|by right|done].
  - pose proof (R_done _ _ _ _ _ _ HR (ln_inv _ _ _ _ L) Hm Hs) as (o & B & Ho & HP & HsB & HfB & HIB & Hall). fold last' in HIB, Hall.
    assert (lock_ok (advance k t c (ReadDone a) (k_mu k) s' (file A) last')) as HL' by (by eapply lock_ok_stay).
    exists [GCommitted t o a], B. split; [|unfold responses; by rewrite answer_advance].
    eapply linear_advance; try done; [by constructor| |by apply chain_one| |eauto].
    + apply (commit_events A0 k H A t c _ o a L Ek I). congruence.
    + unfold state_ok. rewrite (inside_held _ t (ReadDone a)); [done|done|by rewrite pc_at_self|by right|done].
Qed.

(** What a call does before it takes a lock. *)
Lemma stays_called A0 k H A t c i k' :
  linear A0 k H A → k_calls k !! t = Some (MkFrame c Called) → may k t i → exec t i k = Some k' →
  stays A0 H k' (responses k' t).
Proof.
  intros L Ek Hm He. pose proof (ln_lock _ _ _ _ L) as HL.
  pose proof (pc_at_frame _ _ _ Ek) as Ep. cbn [fr_pc] in Ep.
  pose proof (past_invoked A0 k H A t c Called L Ek I) as Hpast.
  assert (∀ p, p ≠ Called → (∀ w, p ≠ Writing w) → (∀ r, p ≠ Reading r) → (∀ a, p ≠ Returned a) →
    pc_ok c p → holds_write p = false → holds_read p = false → past t (Some (MkFrame c p)) [GInvoked t c] →
    stays A0 H (goto k t c p (k_mu k)) (responses (goto k t c p (k_mu k)) t)) as Hgo.
  { intros p H0 Hw Hr Ha Hok Hhw Hhr Hps. eapply stays_quiet; [done|done|done|done|done|by right|by rewrite Hpast|done| |].
    - eapply lock_ok_stay; [done|done|by rewrite Hhw|by rewrite Hhr|]. intros Hi. by rewrite (in_holds p Hi) in Hhw.
    - intros r ->. by destruct (Hr r). }
  unfold may in Hm. rewrite Ek in Hm. unfold exec in He. rewrite Ek in He.
  cbn [mbind option_bind fr_pc fr_call] in He.
  destruct c as [req| |limit| |limit|];
    [destruct (enqueue_prepare (i_random i) req) as [id|e] eqn:Hid|..]; injection He as <-; try by apply Hgo.
  - apply Hgo; try done. by eapply E_enqueue.
  - set (o := OpEnqueue (i_now i) (i_random i) (i_append i) req).
    set (a := AnsEnqueue (Err e)). set (k' := goto k t (CallEnqueue req) (Returned a) (k_mu k)).
    assert (lock_ok k') as HL' by (by eapply lock_ok_stay).
    assert (inside k' = inside k) as Hin by (apply (inside_advance k t _ (CallEnqueue req) Called (Returned a)); [by left|done..]).
    exists [GCommitted t o a; GResponded t a], A. split.
    + unfold k' in *. eapply (linear_advance A0 k H A t _ _ _ _ _ _ [GCommitted t o a; GResponded t a]); try done;
        [by repeat constructor| | | |].
      * rewrite Hpast. by exists o.
      * apply chain_one. exact (P_rejected A (k_last k) req i e (ln_inv _ _ _ _ L) Hm Hid).
      * apply L.
      * pose proof (ln_state _ _ _ _ L) as HS. unfold state_ok in *.
        change (advance k t (CallEnqueue req) (Returned a) (k_mu k) (k_svc k) (k_file k) (k_last k))
          with (goto k t (CallEnqueue req) (Returned a) (k_mu k)). by rewrite Hin.
    + unfold responses, k', goto. fold (advance k t (CallEnqueue req) (Returned a) (k_mu k) (k_svc k) (k_file k) (k_last k)).
      by rewrite answer_advance.
Qed.

(** The steps at the lock itself. *)
Lemma stays_locking A0 k H A t c w i k' :
  linear A0 k H A → k_calls k !! t = Some (MkFrame c (Locking w)) → exec t i k = Some k' →
  stays A0 H k' (responses k' t).
Proof.
  intros L Ek He. pose proof (ln_lock _ _ _ _ L) as HL.
  unfold exec in He. rewrite Ek in He. cbn [mbind option_bind fr_pc fr_call] in He.
  destruct (Lock_claim t (k_mu k)) as [mu|] eqn:Hc; [|done]. injection He as <-.
  eapply stays_quiet; [done|done|done|done|done| | |exact (ln_pcs _ _ _ _ L t c _ Ek)| |done].
  - left. unfold Lock_claim in Hc. unfold inside. by destruct (mu_writer (k_mu k)).
  - exact (past_invoked A0 k H A t c _ L Ek I).
  - eapply lock_ok_claim; [done|by apply (pc_at_frame _ _ _ Ek)|done].
Qed.

Lemma stays_claimed A0 k H A t c w i k' :
  linear A0 k H A → k_calls k !! t = Some (MkFrame c (Claimed w)) → exec t i k = Some k' →
  stays A0 H k' (responses k' t).
Proof.
  intros L Ek He. pose proof (ln_lock _ _ _ _ L) as HL.
  pose proof (pc_at_frame _ _ _ Ek) as Ep. cbn [fr_pc] in Ep.
  unfold exec in He. rewrite Ek in He. cbn [mbind option_bind fr_pc fr_call] in He.
  destruct (Lock_entered (k_mu k)) eqn:Hl; [|done]. injection He as <-.
  assert (k_svc k = svc A ∧ k_file k = file A) as [HsA HfA].
  { pose proof (ln_state _ _ _ _ L) as HS. unfold state_ok in HS.
    rewrite (inside_held k t (Claimed w)) in HS; [done|done|done|by left|done]. }
  set (k' := advance k t c (Writing w) (k_mu k) (k_svc k) (k_file k) (k_last k)).
  change (goto k t c (Writing w) (k_mu k)) with k'.
  assert (lock_ok k') as HL' by (eapply lock_ok_enter; eauto).
  exists [], A. split; [|unfold responses, k'; by rewrite answer_advance].
  unfold k' in *. eapply (linear_advance A0 k H A t c _ _ _ _ _ []); try done; [|constructor|apply L|].
  - rewrite app_nil_r. exact (past_invoked A0 k H A t c _ L Ek I).
  - unfold state_ok. rewrite (inside_writing _ t c w); [|done|cbn [advance k_calls]; by rewrite lookup_insert_eq].
    cbn [advance k_svc k_file k_last]. rewrite HsA, HfA.
    apply W_start; [exact (ln_pcs _ _ _ _ L t c _ Ek)|apply L].
Qed.

Lemma stays_rlocking A0 k H A t c r i k' :
  linear A0 k H A → k_calls k !! t = Some (MkFrame c (RLocking r)) → exec t i k = Some k' →
  stays A0 H k' (responses k' t).
Proof.
  intros L Ek He. pose proof (ln_lock _ _ _ _ L) as HL.
  pose proof (ln_pcs _ _ _ _ L t c _ Ek) as [Hc Hf].
  unfold exec in He. rewrite Ek in He. cbn [mbind option_bind fr_pc fr_call] in He.
  destruct (RLock t (k_mu k)) as [mu|] eqn:Hr; [|done]. injection He as <-.
  eapply stays_quiet; [done|done|done|done|done| | |done| |].
  - left. unfold RLock in Hr. unfold inside. by destruct (mu_writer (k_mu k)).
  - exact (past_invoked A0 k H A t c _ L Ek I).
  - eapply lock_ok_rlock; [done|by apply (pc_at_frame _ _ _ Ek)|done].
  - intros r' [= <-]. by apply R_start.
Qed.

Lemma stays_exec A0 k H A t i k' :
  linear A0 k H A → may k t i → exec t i k = Some k' → stays A0 H k' (responses k' t).
Proof.
  intros L Hm He. destruct (k_calls k !! t) as [[c p]|] eqn:Ek; [|by (unfold exec in He; rewrite Ek in He)].
  pose proof (pc_at_frame _ _ _ Ek) as Ep. cbn [fr_pc] in Ep. pose proof (ln_lock _ _ _ _ L) as HL.
  destruct p as [|w|w|w|a|r|r|a|a].
  - by eapply stays_called.
  - by eapply stays_locking.
  - by eapply stays_claimed.
  - by eapply stays_writing.
  - unfold exec in He. rewrite Ek in He. injection He as <-.
    eapply stays_return; [done|done|by left|]. by apply lock_ok_unlock.
  - by eapply stays_rlocking.
  - by eapply stays_reading.
  - unfold exec in He. rewrite Ek in He. injection He as <-.
    eapply stays_return; [done|done|by right|]. by apply lock_ok_runlock.
  - unfold exec in He. by rewrite Ek in He.
Qed.

Lemma stays_invoke A0 k H A t c k' :
  linear A0 k H A → invoke t c k = Some k' → stays A0 H k' [Invoked t c].
Proof.
  unfold invoke. intros L Hi. destruct (k_calls k !! t) eqn:Ek; [done|]. injection Hi as <-.
  pose proof (ln_past _ _ _ _ L t) as Hp. rewrite Ek in Hp. cbn [past] in Hp.
  assert (pc_at k t = None) as Ep by (unfold pc_at; by rewrite Ek).
  exists [GInvoked t c], A. split; [|done].
  eapply (linear_quiet A0 k H A t c c Called); [done|by right|done|done|by right|by constructor|done|by rewrite Hp|done| |done].
  apply lock_ok_advance; [apply L|done| |done| |].
  - rewrite (lk_writer k (ln_lock _ _ _ _ L)), Ep. naive_solver.
  - rewrite (lk_readers k (ln_lock _ _ _ _ L)), Ep. naive_solver.
  - intros t' p [[-> ->]|[_ E']] Hw; [done|]. by eapply (lk_alone k (ln_lock _ _ _ _ L)).
Qed.

(** ** Schedules *)

(** The environment keeps to [may] along the schedule. *)
Fixpoint allowed (l : list action) (k : Conc) : Prop :=
  match l with
  | [] => True
  | x :: l =>
      match x with Step t i => may k t i | Invoke _ _ => True end
      ∧ match act x k with Some (_, k) => allowed l k | None => True end
  end.

Theorem schedule_linear A0 l k H A h k' :
  linear A0 k H A → allowed l k → schedule l k = Some (h, k') → stays A0 H k' h.
Proof.
  revert k H A h. induction l as [|x l IH]; intros k H A h L Hal Hs; cbn [schedule] in Hs.
  - injection Hs as <- <-. exists [], A. by rewrite app_nil_r.
  - destruct Hal as [Hm Hal]. destruct (act x k) as [[h1 k1]|] eqn:Ha; [|done]. cbn [mbind option_bind] in Hs.
    destruct (schedule l k1) as [[h2 k2]|] eqn:Hs2; [|done]. injection Hs as <- <-.
    assert (stays A0 H k1 h1) as (H1 & A1 & L1 & Hv1).
    { destruct x as [t c|t i]; cbn [act] in Ha.
      - destruct (invoke t c k) eqn:Hi; [|done]. injection Ha as <- <-. by eapply stays_invoke.
      - destruct (exec t i k) eqn:He; [|done]. injection Ha as <- <-. by eapply stays_exec. }
    destruct (IH k1 (H ++ H1) A1 h2 L1 Hal Hs2) as (H2 & A2 & L2 & Hv2).
    exists (H1 ++ H2), A2. by rewrite app_assoc, visible_app, Hv1, Hv2.
Qed.
End linearization.
