(* ===== verification/ConcurrentOrder.v ===== *)
(** * The calls of a schedule take effect one after the other

    The account of [ConcurrentFacts] without any assumption: what a writer does
    inside the lock ends as the whole call of [Service] would have ended, and what
    a reader has found out stays true while others read. *)

From S2P Require Import Prelude GoTime GoHeap GoStrconv GoJson Model Engine LogRecord Service.
From S2P Require Import Concurrent ConcurrentFacts.
From S2P Require Wal.
From Stdlib Require Import Ascii.

Import Wal (WAL, File).

Local Open Scope Z_scope.

(** ** Promotion does not change the number of messages *)

Lemma promote_loop_byID fuel q now q' : promote_loop fuel q now = Some q' →
  q_byID q' = q_byID q ∧ Mode q' = Mode q.
Proof.
  revert q. induction fuel as [|fuel IH]; intros q; [done|]. cbn [promote_loop].
  destruct (dh_items (q_delayed q)) as [|top l]; [by intros [= <-]|].
  destruct (q_mem q !! top) as [it|]; [|done]. cbn [mbind option_bind].
  destruct (negb _); [by intros [= <-]|]. unfold delayed_Pop, ready_Push.
  destruct (Heap.Pop _) as [[p s]|]; [|done]. cbn [mbind option_bind].
  destruct (Heap.Push _ _) as [s'|]; [|done]. cbn [mbind option_bind].
  intros Hq. destruct (IH _ Hq) as [-> ->]. done.
Qed.

Lemma Snapshot_Len q now limit v q' : Engine.Snapshot q now limit = Some (v, q') → Len q' = Len q.
Proof.
  unfold Engine.Snapshot, promoteLocked, Len. destruct (promote_loop _ q now) as [q1|] eqn:Hp; [|done].
  cbn [mbind option_bind]. destruct (orderedMessages _ (rh_items _) _ _) as [[? ?]|]; [|done]. cbn [mbind option_bind].
  destruct (orderedMessages _ _ _ _) as [[? ?]|]; [|done]. cbn [mbind option_bind]. intros [= _ <-].
  by destruct (promote_loop_byID _ _ _ _ Hp) as [-> _].
Qed.

Lemma AvailableLen_Len q now n q' : AvailableLen q now = Some (n, q') → Len q' = Len q.
Proof.
  unfold AvailableLen, promoteLocked, Len. destruct (promote_loop _ q now) as [q1|] eqn:Hp; [|done].
  cbn [mbind option_bind]. intros [= _ <-]. by destruct (promote_loop_byID _ _ _ _ Hp) as [-> _].
Qed.

(** The two services are built in different ways from the same fields. *)
Ltac same_service :=
  unfold with_queue, with_seq, with_wal; cbn [mbind option_bind s_queue s_wal s_seq s_closed] in *; congruence.

Section theory.
Context `{LC : LogCodec}.

(** ** Calls in isolation *)

(** A call that entered at state [A] and stands at [w] now: whatever the rest of
    its steps get from the environment, it ends as the whole call would have
    ended on [A]. *)
Inductive completes (c : call) (A : QueueService * File) (w : writer) (s : QueueService) (f : File) : Prop :=
  completes_intro :
    (∀ i w' s' f', write_step i w s f = Some (inl w', s', f') → completes c A w' s' f') →
    (∀ i a s' f', write_step i w s f = Some (inr a, s', f') →
      ∃ o, op_call o = c ∧ perform o A = Some (a, (s', f'))) →
    completes c A w s f.

Definition entered (c : call) (w : writer) : Prop :=
  match w, c with
  | EnqueueIn req id, CallEnqueue req' => req' = req ∧ ∃ random, enqueue_prepare random req = Ok id
  | DequeueIn, CallDequeue | CloseIn, CallClose => True
  | _, _ => False
  end.

Lemma prepare_ok random req id : enqueue_prepare random req = Ok id →
  Validate req = None ∧ newUUID random = Ok id.
Proof.
  unfold enqueue_prepare. destruct (Validate req); [done|]. destruct (newUUID random); [|done].
  by intros [= ->].
Qed.

Lemma prepare_err random req e : enqueue_prepare random req = Err e →
  ∀ now io s f, Enqueue now random io req s f = Some (Err e, s, f).
Proof.
  unfold enqueue_prepare, Enqueue. destruct (Validate req); [by intros [= ->]|].
  destruct (newUUID random); [done|]. by intros [= <-].
Qed.

(** The message a request becomes in the state [s], and the call from there on. *)
Definition stamped (now : Time) (id : string) (req : EnqueueRequest) (s : QueueService) : Message :=
  MkMessage id (wrap_u64 (s_seq s + 1)) (r_Payload req) (r_Priority req) (UTC now)
    (Add (UTC now) (wrap_i64 (r_DelaySeconds req * Second))) StatusPending.

Lemma Enqueue_stamped now random id io req s f :
  enqueue_prepare random req = Ok id → s_closed s = false →
  Enqueue now random io req s f =
    match Wal.WriteEnqueue io (stamped now id req s) (s_wal s) f with
    | (Some e, wal, f) =>
        Some (Err e, MkService (s_queue s) wal (wrap_u64 (wrap_u64 (s_seq s + 1) - 1)) false, f)
    | (None, wal, f) =>
        q ← Push (s_queue s) (stamped now id req s);
        Some (Ok (stamped now id req s), MkService q wal (wrap_u64 (s_seq s + 1)) false, f)
    end.
Proof. intros [Hv Hu]%prepare_ok Hcl. unfold Enqueue, stamped. rewrite Hv, Hu, Hcl. reflexivity. Qed.

Lemma enqueue_completes req id random A : enqueue_prepare random req = Ok id →
  completes (CallEnqueue req) A (EnqueueIn req id) A.1 A.2.
Proof.
  intros Hid. destruct A as [s f]. cbn [fst snd].
  destruct (s_closed s) eqn:Hcl.
  - constructor; intros i1; cbn [write_step]; rewrite Hcl; [intros ? ? ? [=]|].
    intros a s' f' [= <- <- <-]. exists (OpEnqueue (i_now i1) random (i_append i1) req). split; [done|].
    cbn [perform]. unfold Enqueue. destruct (prepare_ok _ _ _ Hid) as [-> ->]. by rewrite Hcl.
  - constructor; intros i1; cbn [write_step]; rewrite Hcl; [|intros ? ? ? [=]].
    intros w' s' f' [= <- <- <-]. cbn [with_seq s_seq]. fold (stamped (i_now i1) id req s).
    pose proof (λ io, Enqueue_stamped (i_now i1) random id io req s f Hid Hcl) as Heq.
    constructor; intros i2; cbn [write_step with_seq s_wal]; specialize (Heq (i_append i2)); intros w2 s2 f2;
      destruct (Wal.WriteEnqueue _ _ _ _) as [[[e|] wal] f1]; intros [=]; subst.
    + constructor; intros i3; cbn [write_step]; intros w3 s3 f3 [=]. subst.
      exists (OpEnqueue (i_now i1) random (i_append i2) req). split; [done|].
      cbn [perform]. rewrite Heq. same_service.
    + constructor; intros i3; cbn [write_step with_seq with_wal s_queue]; intros w3 s3 f3;
        destruct (Push (s_queue s) _) as [q|] eqn:Hq; cbn [mbind option_bind] in *; intros [=]; subst.
      exists (OpEnqueue (i_now i1) random (i_append i2) req). split; [done|].
      cbn [perform]. rewrite Heq. same_service.
Qed.

Lemma dequeue_completes A : completes CallDequeue A DequeueIn A.1 A.2.
Proof.
  destruct A as [s f]. cbn [fst snd].
  destruct (s_closed s) eqn:Hcl.
  - constructor; intros i1; cbn [write_step]; rewrite Hcl; intros ? ? ? [=]. subst.
    exists (OpDequeue (i_now i1) (i_append i1)). split; [done|].
    cbn [perform]. unfold Dequeue. by rewrite Hcl.
  - constructor; intros i1; cbn [write_step]; rewrite Hcl; intros w1 s1 f1 [=]. subst.
    constructor; intros i2; cbn [write_step]; intros w2 s2 f2;
      destruct (Pop (s_queue s1) (UTC (i_now i1))) as [[[msg|] q]|] eqn:Hp; cbn [mbind option_bind]; intros [=]; subst.
    + constructor; intros i3; cbn [write_step with_queue s_wal]; intros w3 s3 f3;
        destruct (Wal.WriteDequeue _ _ _ _) as [[[e|] wal] f4] eqn:Hw; intros [=]; subst.
      * constructor; intros i4; cbn [write_step with_wal with_queue s_queue]; intros w5 s5 f5;
          destruct (Push q msg) as [q'|] eqn:Hq; cbn [mbind option_bind]; intros [=]; subst.
        exists (OpDequeue (i_now i1) (i_append i3)). split; [done|].
        cbn [perform]. unfold Dequeue. rewrite Hcl, Hp. cbn [mbind option_bind]. rewrite Hw, Hq. same_service.
      * exists (OpDequeue (i_now i1) (i_append i3)). split; [done|].
        cbn [perform]. unfold Dequeue. rewrite Hcl, Hp. cbn [mbind option_bind]. rewrite Hw. same_service.
    + exists (OpDequeue (i_now i1) (i_append i2)). split; [done|].
      cbn [perform]. unfold Dequeue. rewrite Hcl, Hp. same_service.
Qed.

Lemma close_completes A : completes CallClose A CloseIn A.1 A.2.
Proof.
  destruct A as [s f]. cbn [fst snd]. destruct (s_closed s) eqn:Hcl.
  - constructor; intros i1; cbn [write_step]; rewrite Hcl; intros ? ? ? [=]. subst.
    exists (OpClose (i_close i1)). split; [done|]. cbn [perform]. unfold Close. by rewrite Hcl.
  - constructor; intros i1; cbn [write_step]; rewrite Hcl; intros w1 s1 f1 [=]. subst.
    constructor; intros i2; cbn [write_step with_wal s_wal]; intros w2 s2 f2;
      destruct (Wal.Close (i_close i2) (s_wal s)) as [err wal] eqn:Hw; intros [=]; subst.
    exists (OpClose (i_close i2)). split; [done|]. cbn [perform]. unfold Close. by rewrite Hcl, Hw.
Qed.

Lemma entered_completes c w A : entered c w → completes c A w A.1 A.2.
Proof.
  destruct w, c; cbn [entered]; intros Hc; try (destruct Hc; fail).
  - destruct Hc as [-> [random Hid]]. by apply (enqueue_completes req id random).
  - apply dequeue_completes.
  - apply close_completes.
Qed.

(** What a reader has found out stays true while others read. *)
Definition observed (A : QueueService * File) (r : reader) : Prop :=
  match r with
  | SnapshotTimed _ now | StatsTimed now => UTC now = now
  | StatsCounted now total => UTC now = now ∧ total = Len (s_queue A.1)
  | _ => True
  end.

Definition happens (A : QueueService * File) (o : op) (a : answer) (B : QueueService * File) : Prop :=
  perform o A = Some (a, B).

Lemma observed_queue s f q r : Len q = Len (s_queue s) → observed (s, f) r → observed (with_queue s q, f) r.
Proof. destruct r; cbn [observed fst with_queue s_queue]; try done. by intros ->. Qed.

Lemma read_more A r i r' s' :
  observed A r → read_step i r A.1 A.2 = Some (inl r', s') →
  s' = A.1 ∧ reader_call r' = reader_call r ∧ observed A r'.
Proof.
  destruct A as [s f]. cbn [fst snd]. destruct r; cbn [read_step observed]; try done.
  - by intros _ [= <- <-].
  - by destruct (Engine.Snapshot _ _ _) as [[? ?]|].
  - by intros _ [= <- <-].
  - by intros ? [= <- <-].
  - by destruct (AvailableLen _ _) as [[? ?]|].
Qed.

Lemma read_ends A r i a s' :
  observed A r → read_step i r A.1 A.2 = Some (inr a, s') →
  ∃ o, op_call o = reader_call r ∧ happens A o a (s', A.2)
    ∧ ∃ q, Len q = Len (s_queue A.1) ∧ s' = with_queue A.1 q.
Proof.
  destruct A as [s f]. unfold happens. cbn [fst snd]. destruct r as [l|l now| |now|now total|l]; cbn [read_step observed]; try done.
  - intros Hu. destruct (Engine.Snapshot (s_queue s) now l) as [[v q]|] eqn:Hs; [|done]. intros [= <- <-].
    exists (OpSnapshot now l). split; [done|]. split.
    + cbn [perform]. unfold Snapshot. rewrite Hu, Hs. done.
    + exists q. split; [by eapply Snapshot_Len|done].
  - intros [Hu ->]. destruct (AvailableLen (s_queue s) now) as [[n q]|] eqn:Hs; [|done]. intros [= <- <-].
    exists (OpStats now). split; [done|]. split.
    + cbn [perform]. unfold Stats. rewrite Hu, Hs. done.
    + exists q. split; [by eapply AvailableLen_Len|done].
  - intros _ [= <- <-]. exists (OpWalTail (i_read i) l). split; [done|]. split; [done|].
    exists (s_queue s). by destruct s.
Qed.

(** ** The order of the calls *)

(** The calls one after the other, with their answers. *)
Fixpoint perform_all (l : list op) (st : QueueService * File) : option (list answer * (QueueService * File)) :=
  match l with
  | [] => Some ([], st)
  | o :: l =>
      '(a, st) ← perform o st;
      '(r, st) ← perform_all l st;
      Some (a :: r, st)
  end.

(** A call is invoked, takes effect once, as a call with these arguments, and
    responds with the answer it had then. *)
Definition call_history (l : list gevent) : Prop :=
  match l with
  | [] | [GInvoked _ _] => True
  | [GInvoked _ c; GCommitted _ o _] => op_call o = c
  | [GInvoked _ c; GCommitted _ o a; GResponded _ a'] => op_call o = c ∧ a' = a
  | _ => False
  end.

Lemma past_history t fr l : past t fr l → call_history l.
Proof.
  destruct fr as [[c p]|]; cbn [past]; [|by intros ->].
  destruct p; try (intros ->; exact I); intros (o & Ho & ->); cbn [call_history]; auto.
Qed.

Lemma perform_all_app l l' A r B r' C :
  perform_all l A = Some (r, B) → perform_all l' B = Some (r', C) → perform_all (l ++ l') A = Some (r ++ r', C).
Proof.
  revert A r. induction l as [|o l IH]; intros A r; cbn [perform_all app].
  - by intros [= <- <-] ->.
  - destruct (perform o A) as [[a A']|]; [|done]. cbn [mbind option_bind].
    destruct (perform_all l A') as [[r1 B1]|] eqn:Hl; [|done]. cbn [mbind option_bind].
    intros [= <- ->] H'. by rewrite (IH A' r1 Hl H').
Qed.

Lemma chain_perform A l B : chain happens A l B → perform_all l.*1 A = Some (l.*2, B).
Proof.
  induction 1 as [|l B o a C _ IH HP]; [done|]. rewrite !fmap_app. cbn [fmap list_fmap fst snd].
  eapply perform_all_app; [exact IH|]. cbn [perform_all]. unfold happens in HP. by rewrite HP.
Qed.

(** Whatever the schedule, and whatever the steps get from the environment. *)
Lemma schedule_order s f last l h k :
  schedule l (idle s f last) = Some (h, k) →
  ∃ H st, visible H = h
    ∧ linear fst snd (λ _ _, True) happens entered (λ A c w s f _, completes c A w s f)
        (λ A r _, observed A r) (s, f) k H st.
Proof.
  intros Hs.
  assert (stays fst snd (λ _ _, True) happens entered (λ A c w s f _, completes c A w s f)
    (λ A r _, observed A r) (s, f) [] k h) as (H & B & L & Hv); [|by exists H, B].
  apply (schedule_linear fst snd (λ _ _, True) happens entered (λ A c w s f _, completes c A w s f)
    (λ A r _, observed A r) (λ _ _, True) (λ _ _ _ _, True) (λ _ _ _, True)) with l (idle s f last) (s, f).
  - intros req i id _ Hid. split; [done|by exists (i_random i)].
  - exact I.
  - exact I.
  - intros [s1 f1] last1 req i e _ _ He. unfold happens. cbn [perform]. by rewrite (prepare_err _ _ _ He).
  - intros A c w last1 Hc _. by apply entered_completes.
  - intros A c w s1 f1 last1 i w' s' f' [Hgo _] _ _ Hw. split; [by eapply Hgo|exact I].
  - intros A c w s1 f1 last1 i a s' f' [_ Hend] _ _ Hw. destruct (Hend i a s' f' Hw) as (o & Ho & HP).
    by exists o, (s', f').
  - intros A r last1. by destruct r.
  - intros A r last1 i r' s' Hr _ _ Hs'. destruct (read_more A r i r' s' Hr Hs') as (-> & Hc & Hr'). done.
  - intros A r last1 i a s' Hr _ _ Hs'. destruct (read_ends A r i a s' Hr Hs') as (o & Ho & HP & q & Hq & ->).
    exists o, (with_queue A.1 q, A.2). split_and!; [done..|]. intros r2. destruct A. by apply observed_queue.
  - by apply (linear_idle fst snd (λ _ _, True) happens entered _ _ (s, f)).
  - clear Hs. generalize (idle s f last). induction l as [|x l IH]; intros k0; [done|]. cbn [allowed].
    split; [|destruct (act x k0) as [[? ?]|]; [apply IH|done]].
    destruct x as [|t i]; [done|]. unfold may. by destruct (k_calls k0 !! t) as [[? []]|].
  - done.
Qed.

(** The history of a schedule, with the instants at which its calls take effect. *)
Lemma schedule_sequential s f last l h k :
  schedule l (idle s f last) = Some (h, k) →
  ∃ H st, visible H = h ∧ (∀ t, call_history (of_call t H))
    ∧ perform_all (commits H).*1 (s, f) = Some ((commits H).*2, st)
    ∧ (mu_writer (k_mu k) = None → st = (k_svc k, k_file k)).
Proof.
  intros Hs. destruct (schedule_order s f last l h k Hs) as (H & st & Hv & L).
  exists H, st. split_and!; [done| |by eapply chain_perform, L|].
  - intros t. eapply past_history, (ln_past _ _ _ _ _ _ _ _ _ _ _ L).
  - intros Hn. pose proof (ln_state _ _ _ _ _ _ _ _ _ _ _ L) as HS. unfold state_ok, inside in HS.
    rewrite Hn in HS. cbn [mbind option_bind] in HS. destruct st, HS. cbn [fst snd] in *. congruence.
Qed.
End theory.
