(* ===== verification/ConcurrentRuns.v ===== *)
(** * Concurrent calls of a healthy service

    The account of [Section linearization] for the runs of [ServiceTrace]: a
    service opened from its log, a clock that is not stepped, appends the system
    carries out or refuses.  Every call moves the state as a step of a run does,
    the engine never panics, and what a writer has put into the file at any point
    is either nothing or the record of its call. *)

From S2P Require Import Prelude GoTime GoSort GoStrconv GoUtf8 GoJson GoTimeFormat Model Codec CodecFacts LogRecord Engine EngineSpec EngineRefine EngineTheorems.
From S2P Require Import Service ServiceFacts ServiceTrace ServiceTheorems Concurrent ConcurrentFacts ConcurrentOrder.
From S2P Require Wal WalFacts WalTheorems.

Import Wal (WAL, File, MkWAL, w_open, w_path, w_seq, read_ok).
Import WalTheorems (enqueue_entry, dequeue_entry).

Local Open Scope Z_scope.

(** The service as its log keeps it: [Close] changes no message. *)
Definition unclosed (s : QueueService) : QueueService :=
  MkService (s_queue s) (MkWAL true (w_path (s_wal s)) (w_seq (s_wal s))) (s_seq s) false.

Definition alive (A : Config) : Config :=
  MkConfig (c_off A) (c_last A) (unclosed (c_svc A)) (c_file A).

Lemma unclosed_open s : s_closed s = false → w_open (s_wal s) = true → unclosed s = s.
Proof. destruct s as [q [o p n] sq cl]. cbn. by intros -> ->. Qed.

(** What a call took in or gave out. *)
Definition accepted_by (a : answer) : list Message :=
  match a with AnsEnqueue r => accepted r | _ => [] end.
Definition handed_by (a : answer) : list Message :=
  match a with AnsDequeue r => handed r | _ => [] end.

(** ** Sums over what is numbered *)

Section sums.
Context {A : Type} (f : A → nat).

Definition map_sum (m : gmap tid A) : nat := map_fold (λ _ x n, f x + n)%nat 0%nat m.

Lemma map_sum_new m t x : m !! t = None → map_sum (<[t := x]> m) = (f x + map_sum m)%nat.
Proof. intros Hm. unfold map_sum. by rewrite map_fold_insert_L by (done || intros; lia). Qed.

Lemma map_sum_old m t x y : m !! t = Some y → (map_sum (<[t := x]> m) + f y = map_sum m + f x)%nat.
Proof.
  intros Hm. rewrite <- (insert_delete_id m t y Hm) at 2. rewrite <- insert_delete_eq.
  rewrite !map_sum_new by apply lookup_delete_eq. lia.
Qed.
End sums.

Section runs.
Context `{LC : LogCodec} {LL : LogCodecLaws LC}.
Context (off : Z).

(** ** The account *)

Record healthy (A : Config) (last : Z) : Prop := {
  he_off : c_off A = off;
  he_last : c_last A <= last;
  he_good : ∃ es bs, good (alive A) es bs;
  he_open : s_closed (c_svc A) = false → w_open (s_wal (c_svc A)) = true
}.

Record carries (A : Config) (o : op) (a : answer) (B : Config) : Prop := {
  ca_perform : perform o (c_svc A, c_file A) = Some (a, (c_svc B, c_file B));
  ca_keeps : keeps (alive A) (accepted_by a) (handed_by a) (alive B);
  ca_log : ∃ es bs de db, good (alive A) es bs ∧ good (alive B) (es ++ de) (bs ++ db) ∧ (length db <= 1)%nat;
  ca_off : c_off B = c_off A
}.

(** What the environment may give: bytes of the right size, a clock that is not
    stepped, whole appends or none, an ID that is not in use, a record the log
    can read back, and room in the counters. *)
Definition fair_call (c : call) (i : Inputs) : Prop :=
  match c with
  | CallEnqueue req =>
      in_i64 (r_Priority req) ∧ match i_random i with Ok b => random_block b | Err _ => True end
  | _ => True
  end.

Definition fair_clock (last : Z) (now : Time) : Prop :=
  coherent off now ∧ plausible now ∧ last <= t_wall now.

Definition fair_write (w : writer) (s : QueueService) (last : Z) (i : Inputs) : Prop :=
  match w with
  | EnqueueIn _ _ | DequeueIn => s_closed s = false → (fair_clock last (i_now i) ∧ room s)
  | EnqueueStamped msg =>
      answers (i_append i) ∧ (ID msg ∉ ID <$> held s) ∧ readable (enqueue_entry (i_append i) msg (s_wal s))
  | DequeuePopped msg => answers (i_append i) ∧ readable (dequeue_entry (i_append i) (ID msg) (s_wal s))
  | _ => True
  end.

Definition fair_read (r : reader) (last : Z) (i : Inputs) : Prop :=
  match r with SnapshotIn _ | StatsIn => fair_clock last (i_now i) | _ => True end.

(** A call at the lock. *)
Definition prepared (c : call) (w : writer) : Prop :=
  match w, c with
  | EnqueueIn req id, CallEnqueue req' =>
      req' = req ∧ in_i64 (r_Priority req) ∧ ∃ b, random_block b ∧ enqueue_prepare (Ok b) req = Ok id
  | DequeueIn, CallDequeue | CloseIn, CallClose => True
  | _, _ => False
  end.

(** What a reader has found out. *)
Definition noted (A : Config) (r : reader) (last : Z) : Prop :=
  match r with
  | SnapshotTimed _ now | StatsTimed now =>
      UTC now = now ∧ coherent off now ∧ plausible now ∧ t_wall now <= last
  | StatsCounted now total =>
      UTC now = now ∧ coherent off now ∧ plausible now ∧ t_wall now <= last ∧ total = Len (s_queue (c_svc A))
  | _ => True
  end.

(** A writer that entered at [A]: the file holds nothing of its call yet, or all
    of it; it can go on; and its last step makes it a whole call. *)
Inductive underway (A : Config) (c : call) : writer → QueueService → File → Z → Prop :=
  underway_intro w s f last :
    f = c_file A ∨ (∃ o a B, op_call o = c ∧ carries A o a B ∧ healthy B last ∧ f = c_file B) →
    (∀ i, fair_write w s last i → is_Some (write_step i w s f)) →
    (∀ i w' s' f', fair_write w s last i → write_step i w s f = Some (inl w', s', f') →
      underway A c w' s' f' (last_after i (Writing w) s last)) →
    (∀ i a s' f', fair_write w s last i → write_step i w s f = Some (inr a, s', f') →
      ∃ o B, op_call o = c ∧ carries A o a B ∧ c_svc B = s' ∧ c_file B = f'
        ∧ healthy B (last_after i (Writing w) s last)) →
    underway A c w s f last.

(** ** Whole calls *)

Lemma healthy_later A last last' : healthy A last → last <= last' → healthy A last'.
Proof. intros [H1 H2 H3 H4] Hl. split; [done|lia|done|done]. Qed.

Lemma healthy_alive A last : healthy A last → s_closed (c_svc A) = false → alive A = A.
Proof. intros Hh Hc. unfold alive. rewrite unclosed_open; [by destruct A|done|by apply Hh]. Qed.

Lemma keeps_refl c es bs : good c es bs → keeps c [] [] c.
Proof. intros Hg. split; [eauto|done|constructor|lia]. Qed.

Lemma same_log c c' es bs : good c es bs → good c' es bs →
  ∃ es bs de db, good c es bs ∧ good c' (es ++ de) (bs ++ db) ∧ (length db <= 1)%nat.
Proof. intros Hg Hg'. exists es, bs, [], []. rewrite !app_nil_r. split_and!; [done|done|simpl; lia]. Qed.

Lemma carries_same A last o a : healthy A last →
  perform o (c_svc A, c_file A) = Some (a, (c_svc A, c_file A)) →
  accepted_by a = [] → handed_by a = [] → carries A o a A.
Proof.
  intros Hh Hp Ha Hd. destruct (he_good _ _ Hh) as (es & bs & Hg).
  split; [done| |by eapply same_log|done]. rewrite Ha, Hd. by eapply keeps_refl.
Qed.

(** A call that changed an open service as a step of a run does. *)
Lemma carries_moves A last es bs o a s' f' last' :
  healthy A last → s_closed (c_svc A) = false → good (alive A) es bs →
  perform o (c_svc A, c_file A) = Some (a, (s', f')) →
  moves (alive A) es bs (accepted_by a) (handed_by a) (MkConfig off last' s' f') →
  let B := MkConfig off last' s' f' in carries A o a B ∧ healthy B last'.
Proof.
  intros Hh Hcl Hg Hp Hm B. destruct (mv_good _ _ _ _ _ _ Hm) as (de & db & Hg' & Hlen).
  pose proof Hg' as [Hi _]. cbn [c_svc c_file] in Hi.
  assert (alive B = B) as HB.
  { unfold alive, B. cbn [c_off c_last c_svc c_file].
    by rewrite unclosed_open by (apply (inv_closed _ _ _ _ _ Hi) || apply (inv_open _ _ _ _ _ Hi)). }
  split; split; cbn [B c_off c_last c_svc c_file]; try done.
  - rewrite HB. by eapply moves_keeps.
  - rewrite HB. by exists es, bs, de, db.
  - by rewrite (he_off _ _ Hh).
  - rewrite HB. eauto.
  - intros _. apply (inv_open _ _ _ _ _ Hi).
Qed.

Lemma fair_write_later w s last i : fair_write w s last i → last <= last_after i (Writing w) s last.
Proof.
  unfold last_after. destruct w; cbn [fair_write reads_clock]; try lia; destruct (s_closed s); cbn; try lia;
    intros H; destruct (H eq_refl) as [(_ & _ & ?) _]; lia.
Qed.

Lemma fair_read_later r s last i : fair_read r last i → last <= last_after i (Reading r) s last.
Proof. unfold last_after, fair_clock. destruct r; cbn [fair_read reads_clock]; try lia; intros (_ & _ & ?); lia. Qed.

(** An open service: the good configuration it is, and the clock of the call. *)
Lemma healthy_good A last now : healthy A last → s_closed (c_svc A) = false → fair_clock last now →
  ∃ es bs, good A es bs ∧ clock A now.
Proof.
  intros Hh Hcl (Hc & Hp & Hl). destruct (he_good _ _ Hh) as (es & bs & Hg).
  rewrite (healthy_alive A last Hh Hcl) in Hg. exists es, bs. split; [done|].
  split; [by rewrite (he_off _ _ Hh)|done|]. pose proof (he_last _ _ Hh). lia.
Qed.

Lemma stamped_new now id req s : Validate req = None → in_u64 (s_seq s) → s_seq s + 1 < 2 ^ 64 →
  stamped now id req s = new_message now id req s.
Proof.
  intros [_ Hd]%Validate_None [Hs _] Hr. unfold stamped, new_message.
  rewrite delay_no_overflow by done. by rewrite wrap_u64_small by (unfold in_u64; lia).
Qed.

(** ** Each writer is underway *)

(** The appends: what the call as a whole makes of each outcome. *)
Lemma enqueue_outcome A last now b io req id :
  healthy A last → s_closed (c_svc A) = false → fair_clock last now → room (c_svc A) →
  in_i64 (r_Priority req) → random_block b → enqueue_prepare (Ok b) req = Ok id →
  let msg := stamped now id req (c_svc A) in
  answers io → id ∉ ID <$> held (c_svc A) → readable (enqueue_entry io msg (s_wal (c_svc A))) →
  ∃ r s' f', Enqueue now (Ok b) io req (c_svc A) (c_file A) = Some (r, s', f')
    ∧ (∀ e, r = Err e → f' = c_file A)
    ∧ let B := MkConfig off (t_wall now) s' f' in
      carries A (OpEnqueue now (Ok b) io req) (AnsEnqueue r) B ∧ healthy B (t_wall now).
Proof.
  intros Hh Hcl Hck Hrm Hprio Hb Hid msg Hio Hfresh Hsize.
  destruct (healthy_good A last now Hh Hcl Hck) as (es & bs & Hg & Hclock).
  destruct (prepare_ok _ _ _ Hid) as [Hv Hu]. pose proof Hg as [Hi _].
  unfold msg in Hsize. rewrite stamped_new in Hsize by (done || apply Hi || apply Hrm).
  destruct (Enqueue_moves A es bs now (Ok b) io req) as (r & s' & f' & He & Hm & Hr); [done| |].
  { split; try done; intros id'; rewrite Hu; by intros [= <-]. }
  exists r, s', f'. split; [done|]. split; [intros e ->; apply Hr|].
  rewrite (he_off _ _ Hh) in Hm.
  eapply carries_moves; [exact Hh|exact Hcl|by rewrite (healthy_alive A last)| |rewrite (healthy_alive A last) by done; exact Hm].
  cbn [perform]. by rewrite He.
Qed.

Lemma underway_failed A c e s f last B o :
  f = c_file A → op_call o = c →
  carries A o (AnsEnqueue (Err e)) B → c_svc B = with_seq s (wrap_u64 (s_seq s - 1)) → c_file B = f →
  healthy B last → underway A c (EnqueueFailed e) s f last.
Proof.
  intros Hf Ho Hc Hs HfB Hh. constructor; cbn [write_step fair_write]; [by left|by eexists|intros ? ? ? ? _ [=]|].
  intros i a s' f' _ [= <- <- <-]. by exists o, B.
Qed.

Lemma underway_written A c msg s f last B o q :
  op_call o = c → carries A o (AnsEnqueue (Ok msg)) B →
  Push (s_queue s) msg = Some q → c_svc B = with_queue s q → c_file B = f →
  healthy B last → underway A c (EnqueueWritten msg) s f last.
Proof.
  intros Ho Hc Hq Hs Hf Hh.
  constructor; cbn [write_step fair_write]; rewrite ?Hq; [right; by exists o, (AnsEnqueue (Ok msg)), B|by eexists|intros ? ? ? ? _ [=]|].
  intros i a s' f' _ [= <- <- <-]. by exists o, B.
Qed.

Lemma underway_stamped A last now b req id :
  healthy A last → s_closed (c_svc A) = false → fair_clock last now → room (c_svc A) →
  in_i64 (r_Priority req) → random_block b → enqueue_prepare (Ok b) req = Ok id →
  underway A (CallEnqueue req) (EnqueueStamped (stamped now id req (c_svc A)))
    (with_seq (c_svc A) (wrap_u64 (s_seq (c_svc A) + 1))) (c_file A) (t_wall now).
Proof.
  intros Hh Hcl Hck Hrm Hprio Hb Hid.
  constructor; cbn [write_step with_seq s_wal]; [by left| | |].
  - intros i _. destruct (Wal.WriteEnqueue _ _ _ _) as [[[e|] wal] f]; by eexists.
  - intros i w' s' f' (Hio & Hfresh & Hsize) Hw. unfold last_after. cbn [reads_clock].
    destruct (enqueue_outcome A last now b (i_append i) req id Hh Hcl Hck Hrm Hprio Hb Hid Hio Hfresh Hsize)
      as (r & s1 & f1 & He & Hr & Hc & HB).
    rewrite (Enqueue_stamped _ _ _ _ _ _ _ Hid Hcl) in He.
    destruct (Wal.WriteEnqueue _ _ _ _) as [[[e|] wal] f2]; injection Hw as <- <- <-.
    + injection He as <- <- <-. eapply (underway_failed A _ e _ _ _ _ _ (Hr e eq_refl)); [|exact Hc| |done|exact HB]; [done|].
      cbn [c_svc]. same_service.
    + destruct (Push (s_queue (c_svc A)) _) as [q|] eqn:Hq; [|done]. injection He as <- <- <-.
      eapply (underway_written A _ _ _ _ _ _ _ q); [|exact Hc|exact Hq| |done|exact HB]; [done|]. cbn [c_svc]. same_service.
  - intros i a s' f' _ Hw. by destruct (Wal.WriteEnqueue _ _ _ _) as [[[e|] wal] f].
Qed.

Lemma underway_enqueue A last req id :
  healthy A last → prepared (CallEnqueue req) (EnqueueIn req id) →
  underway A (CallEnqueue req) (EnqueueIn req id) (c_svc A) (c_file A) last.
Proof.
  intros Hh (_ & Hprio & b & Hb & Hid).
  constructor; cbn [write_step fair_write]; unfold last_after; cbn [reads_clock]; destruct (s_closed (c_svc A)) eqn:Hcl;
    try (by left); try (intros ? ? ? ? _ [=]; fail); try (intros i _; by eexists); cbn [negb].
  - intros i w' s' f' Hf [= <- <- <-]. destruct (Hf eq_refl) as [Hck Hrm]. by apply underway_stamped with (last := last) (b := b).
  - intros i a s' f' _ [= <- <- <-]. exists (OpEnqueue (i_now i) (Ok b) (i_append i) req), A.
    split; [done|]. split; [|done]. eapply carries_same; [done| |done|done]. cbn [perform]. unfold Enqueue.
    destruct (prepare_ok _ _ _ Hid) as [-> ->]. by rewrite Hcl.
Qed.

Lemma Dequeue_selected now io s f msg q : s_closed s = false → Pop (s_queue s) (UTC now) = Some (Some msg, q) →
  Dequeue now io s f =
    match Wal.WriteDequeue io (ID msg) (s_wal s) f with
    | (Some e, wal, f) => q ← Push q msg; Some (Err e, MkService q wal (s_seq s) false, f)
    | (None, wal, f) => Some (Ok (Some msg), MkService q wal (s_seq s) false, f)
    end.
Proof. intros Hcl Hp. unfold Dequeue. by rewrite Hcl, Hp. Qed.

Lemma underway_restoring A c msg e s f last B o q :
  f = c_file A → op_call o = c → carries A o (AnsDequeue (Err e)) B →
  Push (s_queue s) msg = Some q → c_svc B = with_queue s q → c_file B = f → healthy B last →
  underway A c (DequeueFailed msg e) s f last.
Proof.
  intros Hf Ho Hc Hq Hs HfB Hh.
  constructor; cbn [write_step fair_write]; rewrite ?Hq; [by left|by eexists|intros ? ? ? ? _ [=]|].
  intros i a s' f' _ [= <- <- <-]. by exists o, B.
Qed.

Lemma dequeue_outcome A last now io msg q :
  healthy A last → s_closed (c_svc A) = false → fair_clock last now → room (c_svc A) →
  Pop (s_queue (c_svc A)) (UTC now) = Some (Some msg, q) → answers io →
  readable (dequeue_entry io (ID msg) (s_wal (c_svc A))) →
  ∃ r s' f', Dequeue now io (c_svc A) (c_file A) = Some (r, s', f')
    ∧ (∀ e, r = Err e → f' = c_file A)
    ∧ let B := MkConfig off (t_wall now) s' f' in
      carries A (OpDequeue now io) (AnsDequeue r) B ∧ healthy B (t_wall now).
Proof.
  intros Hh Hcl Hck Hrm Hp Hio Hsize.
  destruct (healthy_good A last now Hh Hcl Hck) as (es & bs & Hg & Hclock).
  destruct (Dequeue_some_moves A es bs now io msg q Hg Hclock Hrm Hio Hp) as (r & s' & f' & He & Hm & Hr); [done|].
  exists r, s', f'. split; [done|]. split; [intros e ->; apply Hr|].
  rewrite (he_off _ _ Hh) in Hm.
  eapply carries_moves; [exact Hh|exact Hcl|by rewrite (healthy_alive A last)| |rewrite (healthy_alive A last) by done; exact Hm].
  cbn [perform]. by rewrite He.
Qed.

Lemma underway_popped A last now msg q :
  healthy A last → s_closed (c_svc A) = false → fair_clock last now → room (c_svc A) →
  Pop (s_queue (c_svc A)) (UTC now) = Some (Some msg, q) →
  underway A CallDequeue (DequeuePopped msg) (with_queue (c_svc A) q) (c_file A) (t_wall now).
Proof.
  intros Hh Hcl Hck Hrm Hp.
  pose proof (λ i (Hf : fair_write (DequeuePopped msg) (with_queue (c_svc A) q) (t_wall now) i),
    dequeue_outcome A last now (i_append i) msg q Hh Hcl Hck Hrm Hp (proj1 Hf) (proj2 Hf)) as Hout.
  constructor; cbn [write_step with_queue s_wal]; [by left| | |].
  - intros i _. destruct (Wal.WriteDequeue _ _ _ _) as [[[e|] wal] f]; by eexists.
  - intros i w' s' f' Hf Hw. unfold last_after. cbn [reads_clock].
    destruct (Hout i Hf) as (r & s1 & f1 & He & Hr & Hc & HB). rewrite (Dequeue_selected _ _ _ _ _ _ Hcl Hp) in He.
    destruct (Wal.WriteDequeue _ _ _ _) as [[[e|] wal] f2]; [|done]. injection Hw as <- <- <-.
    destruct (Push q msg) as [q2|] eqn:Hq; [|done]. injection He as <- <- <-.
    eapply (underway_restoring A _ _ e _ _ _ _ _ q2 (Hr e eq_refl)); [|exact Hc|exact Hq| |done|exact HB]; [done|]. cbn [c_svc]. same_service.
  - intros i a s' f' Hf Hw. unfold last_after. cbn [reads_clock].
    destruct (Hout i Hf) as (r & s1 & f1 & He & Hr & Hc & HB). rewrite (Dequeue_selected _ _ _ _ _ _ Hcl Hp) in He.
    destruct (Wal.WriteDequeue _ _ _ _) as [[[e|] wal] f2]; [done|]. injection Hw as <- <- <-. injection He as <- <- <-.
    exists (OpDequeue now (i_append i)), (MkConfig off (t_wall now) (MkService q wal (s_seq (c_svc A)) false) f2).
    split_and!; [done|done| |done|done]. cbn [c_svc]. same_service.
Qed.

Lemma underway_timed A last now :
  healthy A last → s_closed (c_svc A) = false → fair_clock last now → room (c_svc A) →
  underway A CallDequeue (DequeueTimed (UTC now)) (c_svc A) (c_file A) (t_wall now).
Proof.
  intros Hh Hcl Hck Hrm. destruct (healthy_good A last now Hh Hcl Hck) as (es & bs & Hg & Hclock).
  pose proof Hg as [Hi _].
  destruct (Pop_held (c_off A) (s_queue (c_svc A)) (UTC now) (inv_wf _ _ _ _ _ Hi)) as (r & q & Hp & _); [apply Hclock|].
  constructor; cbn [write_step]; rewrite ?Hp; cbn [mbind option_bind]; unfold last_after; cbn [reads_clock]; [by left| | |].
  - intros i _. destruct r; by eexists.
  - intros i w' s' f' _ Hw. destruct r as [msg|]; [|done]. injection Hw as <- <- <-. by apply (underway_popped A last).
  - intros i a s' f' _ Hw. destruct r as [msg|]; [done|]. injection Hw as <- <- <-.
    destruct (Dequeue_none_moves A es bs now (i_append i) q Hg Hclock Hp) as (He & Hm & _).
    rewrite (he_off _ _ Hh) in Hm.
    exists (OpDequeue now (i_append i)), (MkConfig off (t_wall now) (with_queue (c_svc A) q) (c_file A)).
    assert (carries A (OpDequeue now (i_append i)) (AnsDequeue (Ok None)) (MkConfig off (t_wall now) (with_queue (c_svc A) q) (c_file A))
      ∧ healthy (MkConfig off (t_wall now) (with_queue (c_svc A) q) (c_file A)) (t_wall now)) as [Hc HB]; [|done].
    eapply carries_moves; [exact Hh|exact Hcl|by rewrite (healthy_alive A last)| |rewrite (healthy_alive A last) by done; exact Hm].
    cbn [perform]. by rewrite He.
Qed.

Lemma underway_dequeue A last : healthy A last → underway A CallDequeue DequeueIn (c_svc A) (c_file A) last.
Proof.
  intros Hh.
  constructor; cbn [write_step fair_write]; unfold last_after; cbn [reads_clock]; destruct (s_closed (c_svc A)) eqn:Hcl;
    try (by left); try (intros ? ? ? ? _ [=]; fail); try (intros i _; by eexists); cbn [negb].
  - intros i w' s' f' Hf [= <- <- <-]. destruct (Hf eq_refl) as [Hck Hrm]. by apply underway_timed with (last := last).
  - intros i a s' f' _ [= <- <- <-]. exists (OpDequeue (i_now i) (i_append i)), A.
    split; [done|]. split; [|done]. eapply carries_same; [done| |done|done]. cbn [perform]. unfold Dequeue. by rewrite Hcl.
Qed.

Lemma unclosed_Close err s : unclosed (Close err s).2 = unclosed s.
Proof. unfold Close, Wal.Close. by destruct (s_closed s), (w_open (s_wal s)). Qed.

Lemma underway_close A last : healthy A last → underway A CallClose CloseIn (c_svc A) (c_file A) last.
Proof.
  intros Hh.
  constructor; cbn [write_step fair_write]; unfold last_after; cbn [reads_clock]; destruct (s_closed (c_svc A)) eqn:Hcl;
    try (by left); try (intros ? ? ? ? _ [=]; fail); try (intros i _; by eexists).
  - intros i1 w' s' f' _ [= <- <- <-].
    constructor; cbn [write_step fair_write s_wal]; [by left| | |].
    + intros i _. destruct (Wal.Close _ _); by eexists.
    + intros i w' s' f' _. by destruct (Wal.Close _ _).
    + intros i a s' f' _. unfold last_after. cbn [reads_clock].
      pose proof (unclosed_Close (i_close i) (c_svc A)) as HU. unfold Close in HU. rewrite Hcl in HU.
      destruct (Wal.Close (i_close i) (s_wal (c_svc A))) as [err wal] eqn:Hw. cbn [snd] in HU. intros [= <- <- <-].
      set (B := MkConfig (c_off A) (c_last A) (MkService (s_queue (c_svc A)) wal (s_seq (c_svc A)) true) (c_file A)).
      assert (alive B = alive A) as HB by (unfold alive, B; cbn [c_off c_last c_svc c_file]; by rewrite HU).
      destruct (he_good _ _ Hh) as (es & bs & Hg).
      exists (OpClose (i_close i)), B. split_and!; [done| |done|done|].
      * split; [cbn [perform]; unfold Close; by rewrite Hcl, Hw|rewrite HB; by eapply keeps_refl|rewrite HB; by eapply same_log|done].
      * split; [apply Hh|apply Hh|rewrite HB; eauto|done].
  - intros i a s' f' _ [= <- <- <-]. exists (OpClose (i_close i)), A.
    split; [done|]. split; [|done]. eapply carries_same; [done| |done|done]. cbn [perform]. unfold Close. by rewrite Hcl.
Qed.

Lemma underway_start A c w last : prepared c w → healthy A last → underway A c w (c_svc A) (c_file A) last.
Proof.
  destruct w as [req id| | | | | | | |  |], c as [req'| | | | |]; cbn [prepared]; intros Hc Hh; try (destruct Hc; fail).
  - pose proof Hc as [-> _]. by apply underway_enqueue.
  - by apply underway_dequeue.
  - by apply underway_close.
Qed.

(** ** Readers *)

Lemma noted_later A r last last' : noted A r last → last <= last' → noted A r last'.
Proof. destruct r; cbn [noted]; try done; intros H Hl; naive_solver lia. Qed.

(** Everything that is ready is due by the last reading of the clock, also when a
    reader with an older reading promotes. *)
Lemma due_by_promote_late o q now w : wf o q → coherent o now → due_by w (abs q) →
  due_by (Z.max w (t_wall now)) (a_promote now (abs q)).
Proof.
  intros Hwf Hnow Hdue. destruct (Z.le_ge_cases w (t_wall now)) as [Hl|Hl].
  - rewrite Z.max_r by done. by apply (due_by_promote o q now w).
  - rewrite Z.max_l by done. intros e [He|[He Hav]]%elem_a_promote.
    + apply Hdue. simpl. by rewrite insertion_sort_perm.
    + rewrite (Available_coherent o) in Hav; [lia| |done].
      assert (∃ p, live q p e) as [p Hp] by (apply live_entry; apply elem_of_app; by right).
      by eapply wf_coherent.
Qed.

Lemma carries_promoted A last now q o a :
  healthy A last → coherent off now → t_wall now <= last →
  wf off q → abs q = a_promote now (abs (s_queue (c_svc A))) →
  perform o (c_svc A, c_file A) = Some (a, (with_queue (c_svc A) q, c_file A)) →
  accepted_by a = [] → handed_by a = [] →
  let B := MkConfig off (Z.max (c_last A) (t_wall now)) (with_queue (c_svc A) q) (c_file A) in
  carries A o a B ∧ healthy B last.
Proof.
  intros Hh Hnow Hl Hwf Ha Hp Hacc Hhd B. destruct (he_good _ _ Hh) as (es & bs & Hg).
  pose proof Hg as [Hi Hdue]. cbn [alive c_svc c_file c_last c_off] in Hi, Hdue. rewrite (he_off _ _ Hh) in Hi.
  assert (a_contents (abs q) ≡ₚ held (unclosed (c_svc A))) as Hc by (rewrite Ha; apply a_contents_promote).
  assert (good (alive B) es bs) as HgB.
  { split; cbn [alive B c_off c_last c_svc c_file].
    - exact (inv_queue _ _ _ _ _ q Hi Hwf Hc).
    - cbn [unclosed with_queue s_queue]. rewrite Ha. apply (due_by_promote_late off); [apply Hi|done|done]. }
  split; split; cbn [B c_off c_last c_svc c_file]; try done.
  - rewrite Hacc, Hhd. split; cbn [alive B c_off c_last c_svc c_file app]; [eauto| |constructor|lia].
    change (held (unclosed (with_queue (c_svc A) q))) with (a_contents (abs q)). by rewrite Hc.
  - by eapply same_log.
  - by rewrite (he_off _ _ Hh).
  - pose proof (he_last _ _ Hh). lia.
  - eauto.
  - apply Hh.
Qed.

Lemma noted_queue A r last B : noted A r last → Len (s_queue (c_svc B)) = Len (s_queue (c_svc A)) → noted B r last.
Proof. destruct r; cbn [noted]; try done. by intros H ->. Qed.

Lemma healthy_wf A last : healthy A last → wf off (s_queue (c_svc A)).
Proof.
  intros Hh. destruct (he_good _ _ Hh) as (es & bs & [Hi _]). pose proof (inv_wf _ _ _ _ _ Hi) as Hwf.
  cbn [alive c_off] in Hwf. by rewrite (he_off _ _ Hh) in Hwf.
Qed.

Lemma read_can A r last i : noted A r last → healthy A last → is_Some (read_step i r (c_svc A) (c_file A)).
Proof.
  intros Hn Hh. pose proof (healthy_wf A last Hh) as Hwf. destruct r as [l|l now| |now|now total|l]; cbn [read_step]; try by eexists.
  - destruct Hn as (_ & Hc & _). destruct (Snapshot_ok off _ now l Hwf Hc) as (q & Hq & _). rewrite Hq. by eexists.
  - destruct Hn as (_ & Hc & _). destruct (AvailableLen_ok off _ now Hwf Hc) as (q & Hq & _). rewrite Hq. by eexists.
Qed.

Lemma read_on A r last i r' s' : noted A r last → healthy A last → fair_read r last i →
  read_step i r (c_svc A) (c_file A) = Some (inl r', s') →
  let last' := last_after i (Reading r) (c_svc A) last in
  s' = c_svc A ∧ reader_call r' = reader_call r ∧ noted A r' last' ∧ healthy A last'
  ∧ (∀ r2, noted A r2 last → noted A r2 last').
Proof.
  intros Hn Hh Hf Hs last'. pose proof (fair_read_later r (c_svc A) last i Hf) as Hl. fold last' in Hl.
  assert (s' = c_svc A ∧ reader_call r' = reader_call r ∧ noted A r' last') as (-> & Hc & Hn').
  { unfold last', last_after. destruct r as [l|l now| |now|now total|l]; cbn [read_step reads_clock fair_read noted] in *; try done.
    - injection Hs as <- <-. destruct Hf as (? & ? & ?). by split_and!.
    - by destruct (Engine.Snapshot _ _ _) as [[? ?]|].
    - injection Hs as <- <-. destruct Hf as (? & ? & ?). by split_and!.
    - injection Hs as <- <-. cbn [noted]. destruct Hn as (? & ? & ? & ?). by split_and!.
    - by destruct (AvailableLen _ _) as [[? ?]|]. }
  split_and!; [done..|by eapply healthy_later|]. intros r2 H2. by eapply noted_later.
Qed.

Lemma read_end A r last i a s' : noted A r last → healthy A last → fair_read r last i →
  read_step i r (c_svc A) (c_file A) = Some (inr a, s') →
  let last' := last_after i (Reading r) (c_svc A) last in
  ∃ o B, op_call o = reader_call r ∧ carries A o a B ∧ c_svc B = s' ∧ c_file B = c_file A ∧ healthy B last'
    ∧ (∀ r2, noted A r2 last → noted B r2 last').
Proof.
  intros Hn Hh Hf Hs. pose proof (healthy_wf A last Hh) as Hwf. unfold last_after.
  destruct r as [l|l now| |now|now total|l]; cbn [read_step reads_clock] in *; try done.
  - destruct Hn as (Hu & Hc & _ & Hl). destruct (Snapshot_ok off _ now l Hwf Hc) as (q & Hq & Hwf' & Ha).
    rewrite Hq in Hs. injection Hs as <- <-. pose proof (Snapshot_Len _ _ _ _ _ Hq) as HL.
    edestruct (carries_promoted A last now q (OpSnapshot now l)) as [Hca HB]; [exact Hh|exact Hc|exact Hl|exact Hwf'|exact Ha| | | |].
    { cbn [perform]. unfold Snapshot. rewrite Hu, Hq. done. }
    { done. } { done. }
    exists (OpSnapshot now l). eexists. split; [done|]. split; [exact Hca|]. split_and!; [done|done|done|].
    intros r2 H2. by eapply noted_queue.
  - destruct Hn as (Hu & Hc & _ & Hl & ->). destruct (AvailableLen_ok off _ now Hwf Hc) as (q & Hq & Hwf' & Ha).
    rewrite Hq in Hs. injection Hs as <- <-. pose proof (AvailableLen_Len _ _ _ _ Hq) as HL.
    edestruct (carries_promoted A last now q (OpStats now)) as [Hca HB]; [exact Hh|exact Hc|exact Hl|exact Hwf'|exact Ha| | | |].
    { cbn [perform]. unfold Stats. rewrite Hu, Hq. done. }
    { done. } { done. }
    exists (OpStats now). eexists. split; [done|]. split; [exact Hca|]. split_and!; [done|done|done|].
    intros r2 H2. by eapply noted_queue.
  - injection Hs as <- <-. exists (OpWalTail (i_read i) l), A. split_and!; [done| |done|done|done|done].
    by eapply carries_same.
Qed.

(** ** Runs *)

Definition fair : Conc → tid → Inputs → Prop := may fair_call fair_write fair_read.
Definition fair_schedule : list action → Conc → Prop := allowed fair_call fair_write fair_read.

Abbreviation ordered := (linear c_svc c_file healthy carries prepared underway noted).

(** The service of a configuration, with no call in progress. *)
Definition serving (c : Config) : Conc := idle (c_svc c) (c_file c) (c_last c).

Lemma good_healthy c es bs : c_off c = off → good c es bs → healthy c (c_last c).
Proof.
  intros Ho Hg. pose proof Hg as [Hi _].
  assert (alive c = c) as Ha.
  { unfold alive. rewrite unclosed_open; [by destruct c|apply (inv_closed _ _ _ _ _ Hi)|apply (inv_open _ _ _ _ _ Hi)]. }
  split; [done|lia|rewrite Ha; eauto|intros _; apply (inv_open _ _ _ _ _ Hi)].
Qed.

Lemma fair_order c l h k : healthy c (c_last c) → fair_schedule l (serving c) →
  schedule l (serving c) = Some (h, k) → ∃ H A, visible H = h ∧ ordered c k H A.
Proof.
  intros Hh Hf Hs.
  assert (stays c_svc c_file healthy carries prepared underway noted c [] k h) as (H & A & L & Hv); [|by exists H, A].
  apply (schedule_linear c_svc c_file healthy carries prepared underway noted fair_call fair_write fair_read)
    with l (serving c) c.
  - intros req i id [Hp Hr] Hid. split; [done|]. split; [done|].
    destruct (i_random i) as [b|e]; [by exists b|]. by destruct (prepare_ok _ _ _ Hid) as [_ ?].
  - exact I.
  - exact I.
  - intros A last req i e HA _ He. eapply carries_same; [exact HA| |done|done].
    cbn [perform]. by rewrite (prepare_err _ _ _ He).
  - intros A c1 w last Hp HA. by apply underway_start.
  - intros A c1 w s f last i w' s' f' HW HA Hfw Hw. destruct HW as [w s f last _ _ Hgo _].
    split; [by apply (Hgo i)|]. eapply healthy_later; [exact HA|by apply fair_write_later].
  - intros A c1 w s f last i a s' f' HW HA Hfw Hw. destruct HW as [w s f last _ _ _ Hend].
    by apply (Hend i).
  - intros A r last Hr. by destruct r.
  - intros A r last i r' s' Hn HA Hfr Hr. by apply (read_on A r last i).
  - intros A r last i a s' Hn HA Hfr Hr. by apply read_end.
  - by apply linear_idle.
  - done.
  - done.
Qed.

Lemma chain_keeps A l B last es bs : healthy A last → good (alive A) es bs → chain carries A l B →
  keeps (alive A) (l.*2 ≫= accepted_by) (l.*2 ≫= handed_by) (alive B).
Proof.
  intros Hh Hg. induction 1 as [|l B o a C _ IH HP]; [by eapply keeps_refl|].
  rewrite !fmap_app, !bind_app. cbn [fmap list_fmap snd mbind list_bind]. rewrite !app_nil_r.
  eapply keeps_trans; [exact IH|apply HP].
Qed.

Lemma held_room s f es bs : inv off s f es bs → Z.of_nat (length (held s)) < 2 ^ 64.
Proof.
  intros Hi. pose proof (inv_bound _ _ _ _ _ Hi) as Hb. pose proof (inv_seqs _ _ _ _ _ Hi) as Hn.
  destruct (inv_counter _ _ _ _ _ Hi) as [H0 H1].
  assert (length (Seq <$> held s) <= length (seqZ 1 (s_seq s)))%nat as Hle.
  { apply submseteq_length, NoDup_submseteq; [done|]. intros x (m & -> & Hm)%list_elem_of_fmap.
    rewrite Forall_forall in Hb. specialize (Hb m Hm). apply elem_of_seqZ. lia. }
  rewrite length_fmap, length_seqZ in Hle. lia.
Qed.

(** What a process that dies here leaves in the file, opened again: a service
    that can go on, under the clock of the next process. *)
Lemma reopen_alive B last path mode : healthy B last → Valid mode = true →
  ∃ s', NewQueueService path mode None read_ok (crash (c_file B)) = Some (Ok s')
    ∧ wire_message <$> held s' ≡ₚ wire_message <$> held (unclosed (c_svc B))
    ∧ ∀ off', ∃ es bs, good (MkConfig off' last s' (crash (c_file B))) es bs.
Proof.
  intros Hh Hmode. destruct (he_good _ _ Hh) as (es & bs & Hg). pose proof Hg as [Hi _].
  pose proof (crash_good _ _ _ Hg) as Hcr. cbn [alive c_file c_svc c_off] in *. rewrite (he_off _ _ Hh) in Hi.
  rewrite Hcr. pose proof (λ off', restart_ok off off' mode path _ _ es bs Hi Hmode (held_room _ _ _ _ Hi)) as Hre.
  destruct (Hre off) as (s' & Hn & _ & Hp & _). exists s'. split; [done|]. split; [rewrite Hp, wire_all by apply Hi; done|].
  intros off'. destruct (Hre off') as (s2 & Hn2 & Hi2 & _ & _ & HR & _). rewrite Hn in Hn2. injection Hn2 as <-.
  exists es, bs. split; [exact Hi2|]. cbn [c_svc c_last]. intros e. rewrite HR. intros He. by apply not_elem_of_nil in He.
Qed.

(** The call that is writing may be taken to have happened. *)
Lemma commits_now c k H A t c1 w o a : ordered c k H A → k_calls k !! t = Some (MkFrame c1 (Writing w)) → op_call o = c1 →
  ∀ t', call_history (of_call t' (H ++ [GCommitted t o a])).
Proof.
  intros L Ek <- t'. rewrite of_call_app. destruct (decide (t' = t)) as [->|Ht].
  - rewrite (of_call_own t [_]) by by constructor.
    pose proof (ln_past _ _ _ _ _ _ _ _ _ _ _ L t) as Hq. rewrite Ek in Hq. cbn [past] in Hq. by rewrite Hq.
  - rewrite (of_call_other t t' [_]), app_nil_r by (done || by constructor). by eapply past_history, (ln_past _ _ _ _ _ _ _ _ _ _ _ L).
Qed.

(** At any step, the file is that of the calls that took effect, perhaps with the
    call that is writing. *)
Lemma file_order c k H A : ordered c k H A →
  ∃ H' B, (∀ t, call_history (of_call t (H ++ H'))) ∧ visible H' = [] ∧
    chain carries c (commits (H ++ H')) B ∧ healthy B (k_last k) ∧ k_file k = c_file B.
Proof.
  intros L.
  assert (∀ t, call_history (of_call t H)) as Hhist by (intros t; eapply past_history, (ln_past _ _ _ _ _ _ _ _ _ _ _ L)).
  assert (k_file k = c_file A → ∃ H' B, (∀ t, call_history (of_call t (H ++ H'))) ∧ visible H' = [] ∧
    chain carries c (commits (H ++ H')) B ∧ healthy B (k_last k) ∧ k_file k = c_file B) as Hdone.
  { intros Hf. exists [], A. rewrite (app_nil_r H). split_and!; [done|done|eapply ln_chain, L|eapply ln_inv, L|done]. }
  pose proof (ln_state _ _ _ _ _ _ _ _ _ _ _ L) as HS. unfold state_ok in HS.
  destruct (inside k) as [[c1 w]|] eqn:Hin; [|apply Hdone, HS].
  assert (k_file k = c_file A ∨ ∃ o a B, op_call o = c1 ∧ carries A o a B ∧ healthy B (k_last k) ∧ k_file k = c_file B)
    as [Hf|(o & a & B & Ho & HP & HB & Hf)] by (by destruct HS); [by apply Hdone|].
  destruct (inside_some k c1 w Hin) as (t & _ & Ek).
  exists [GCommitted t o a], B. split_and!; [|done| |done|done].
  - by eapply commits_now.
  - rewrite commits_app. eapply chain_app; [eapply ln_chain, L|]. by apply chain_one.
Qed.

(** ** Nobody waits for ever *)

(** A call that has not returned. *)
Definition unfinished (k : Conc) (t : tid) : Prop :=
  ∃ p, pc_at k t = Some p ∧ ∀ a, p ≠ Returned a.

(** Whatever the environment gives call [t], as long as it is fair, it steps. *)
Definition can_step (k : Conc) (t : tid) : Prop := ∀ i, fair k t i → is_Some (exec t i k).

Lemma underway_can A c w s f last i : underway A c w s f last → fair_write w s last i → is_Some (write_step i w s f).
Proof. intros [w1 s1 f1 last1 _ Hcan _ _]. apply Hcan. Qed.

Lemma writing_can_step c k H A t c1 w : ordered c k H A →
  k_calls k !! t = Some (MkFrame c1 (Writing w)) → can_step k t.
Proof.
  intros L Ek i Hf. unfold fair, may in Hf. rewrite Ek in Hf.
  pose proof (ln_state _ _ _ _ _ _ _ _ _ _ _ L) as HS. unfold state_ok in HS.
  rewrite (inside_writing k t c1 w (ln_lock _ _ _ _ _ _ _ _ _ _ _ L) Ek) in HS.
  rewrite (exec_writing t i k c1 w Ek). destruct (underway_can _ _ _ _ _ _ i HS Hf) as [[[r s'] f'] ->]. by eexists.
Qed.

Lemma reading_can_step c k H A t c1 r : ordered c k H A →
  k_calls k !! t = Some (MkFrame c1 (Reading r)) → can_step k t.
Proof.
  intros L Ek i Hf. pose proof (pc_at_frame _ _ _ Ek) as Ep. cbn [fr_pc] in Ep.
  pose proof (ln_state _ _ _ _ _ _ _ _ _ _ _ L) as HS. unfold state_ok in HS.
  rewrite (inside_held k t (Reading r)) in HS; [|eapply ln_lock, L|done|by right|done]. destruct HS as [Hs Hfile].
  pose proof (ln_readers _ _ _ _ _ _ _ _ _ _ _ L t c1 r Ek) as Hn.
  rewrite (exec_reading t i k c1 r Ek), Hs, Hfile.
  destruct (read_can A r (k_last k) i Hn) as [[res s'] ->]; [eapply ln_inv, L|]. by eexists.
Qed.

(** The calls that do not wait for the lock. *)
Lemma holder_can_step c k H A t p : ordered c k H A → pc_at k t = Some p →
  (p = Called ∨ in_write p = true ∨ holds_read p = true) → can_step k t.
Proof.
  intros L Ep Hp. unfold pc_at in Ep. destruct (k_calls k !! t) as [[c1 p']|] eqn:Ek; [|done].
  injection Ep as Ep. cbn [fr_pc] in Ep. subst p'.
  destruct p as [|w|w|w|a|r|r|a|a]; try (destruct Hp as [?|[?|?]]; done).
  - intros i _. unfold exec. rewrite Ek. cbn [mbind option_bind fr_pc fr_call].
    destruct c1; try by eexists. destruct (enqueue_prepare (i_random i) req); by eexists.
  - by eapply writing_can_step.
  - intros i _. unfold exec. rewrite Ek. by eexists.
  - by eapply reading_can_step.
  - intros i _. unfold exec. rewrite Ek. by eexists.
Qed.

Lemma some_can_step c k H A t : ordered c k H A → unfinished k t → ∃ t', unfinished k t' ∧ can_step k t'.
Proof.
  intros L (p & Ep & Hp). pose proof (ln_lock _ _ _ _ _ _ _ _ _ _ _ L) as HL.
  destruct (mu_writer (k_mu k)) as [tw|] eqn:Hw.
  - apply (lk_writer k HL) in Hw as (pw & Ew & Hpw). destruct (in_write pw) eqn:Hin.
    + exists tw. split; [exists pw; split; [done|by destruct pw]|eapply holder_can_step; eauto].
    + destruct (decide (mu_readers (k_mu k) = ∅)) as [He|Hne].
      * exists tw. split; [exists pw; split; [done|by destruct pw]|]. unfold pc_at in Ew.
        destruct (k_calls k !! tw) as [[c1 p1]|] eqn:Ek; [|done]. injection Ew as <-. cbn [fr_pc] in *.
        destruct p1; try done. intros i _. unfold exec. rewrite Ek. cbn [mbind option_bind fr_pc fr_call].
        unfold Lock_entered. rewrite bool_decide_eq_true_2 by done. by eexists.
      * apply set_choose_L in Hne as [tr Hr]. apply (lk_readers k HL) in Hr as (pr & Er & Hpr).
        exists tr. split; [exists pr; split; [done|by destruct pr]|eapply holder_can_step; eauto].
  - exists t. split; [by exists p|]. destruct (holds_write p) eqn:Hwp.
    { pose proof (writer_is k HL t p Ep Hwp). congruence. }
    unfold pc_at in Ep. destruct (k_calls k !! t) as [[c1 p1]|] eqn:Ek; [|done]. injection Ep as <-. cbn [fr_pc] in *.
    destruct p1 as [|w|w|w|a|r|r|a|a]; try done; try (by destruct (Hp a));
      try (eapply holder_can_step; [exact L|by apply (pc_at_frame _ _ _ Ek)|cbn; auto]; fail).
    + intros i _. unfold exec. rewrite Ek. cbn [mbind option_bind fr_pc fr_call]. unfold Lock_claim. rewrite Hw. by eexists.
    + intros i _. unfold exec. rewrite Ek. cbn [mbind option_bind fr_pc fr_call]. unfold RLock. rewrite Hw. by eexists.
Qed.

(** Each step takes its call further. *)
Lemma write_left_step i w s f w' s' f' : write_step i w s f = Some (inl w', s', f') → (write_left w' < write_left w)%nat.
Proof.
  destruct w; cbn [write_step].
  - destruct (s_closed s); [done|]. intros [= <- _ _]. cbn. lia.
  - destruct (Wal.WriteEnqueue _ _ _ _) as [[[e|] wal] f1]; intros [= <- _ _]; cbn; lia.
  - by destruct (Push _ _).
  - done.
  - destruct (s_closed s); [done|]. intros [= <- _ _]. cbn. lia.
  - destruct (Pop _ _) as [[[m|] q]|]; try done. intros [= <- _ _]. cbn. lia.
  - destruct (Wal.WriteDequeue _ _ _ _) as [[[e|] wal] f1]; [|done]. intros [= <- _ _]. cbn. lia.
  - by destruct (Push _ _).
  - destruct (s_closed s); [done|]. intros [= <- _ _]. cbn. lia.
  - by destruct (Wal.Close _ _).
Qed.

Lemma read_left_step i r s f r' s' : read_step i r s f = Some (inl r', s') → (read_left r' < read_left r)%nat.
Proof.
  destruct r; cbn [read_step]; try (intros [= <- _]; cbn; lia).
  - by destruct (Engine.Snapshot _ _ _) as [[? ?]|].
  - by destruct (AvailableLen _ _) as [[? ?]|].
Qed.

Lemma total_left_new k t c p mu s f last : k_calls k !! t = None →
  total_left (advance k t c p mu s f last) = (steps_left p + total_left k)%nat.
Proof. intros Ek. apply (map_sum_new (λ fr, steps_left (fr_pc fr)) (k_calls k) t (MkFrame c p) Ek). Qed.

Lemma total_left_insert k t c p fr mu s f last : k_calls k !! t = Some fr →
  (total_left (advance k t c p mu s f last) + steps_left (fr_pc fr) = total_left k + steps_left p)%nat.
Proof. intros Ek. apply (map_sum_old (λ fr, steps_left (fr_pc fr)) (k_calls k) t (MkFrame c p) fr Ek). Qed.

(** A step moves one call on, and nearer to its end. *)
Lemma exec_advances t i k k' : exec t i k = Some k' →
  ∃ c p p' mu s f last, k_calls k !! t = Some (MkFrame c p) ∧ k' = advance k t c p' mu s f last
    ∧ (steps_left p' < steps_left p)%nat.
Proof.
  intros He. destruct (k_calls k !! t) as [[c p]|] eqn:Ek; [|by (unfold exec in He; rewrite Ek in He)].
  exists c, p. destruct p as [|w|w|w|a|r|r|a|a].
  4: { rewrite (exec_writing t i k c w Ek) in He.
    destruct (write_step i w (k_svc k) (k_file k)) as [[[[w'|a] s] f]|] eqn:Hw; [..|done]; injection He as <-;
      do 5 eexists; (split; [done|split; [reflexivity|]]); cbn [steps_left].
    - pose proof (write_left_step _ _ _ _ _ _ _ Hw). lia.
    - destruct w; cbn; lia. }
  6: { rewrite (exec_reading t i k c r Ek) in He.
    destruct (read_step i r (k_svc k) (k_file k)) as [[[r'|a] s]|] eqn:Hr; [..|done]; injection He as <-;
      do 5 eexists; (split; [done|split; [reflexivity|]]); cbn [steps_left].
    - pose proof (read_left_step _ _ _ _ _ _ Hr). lia.
    - destruct r; cbn; lia. }
  all: unfold exec in He; rewrite Ek in He; cbn [mbind option_bind fr_pc fr_call] in He.
  1: destruct c as [req| |limit| |limit|]; [destruct (enqueue_prepare (i_random i) req)|..].
  all: try destruct (Lock_claim _ _); try destruct (Lock_entered _); try destruct (RLock _ _); try done.
  all: injection He as <-; do 5 eexists; (split; [done|split; [reflexivity|]]); cbn; lia.
Qed.

Lemma step_nearer t i k k' : exec t i k = Some k' → (total_left k' < total_left k)%nat.
Proof.
  intros (c & p & p' & mu & s & f & last & Ek & -> & Hlt)%exec_advances.
  pose proof (total_left_insert k t c p' (MkFrame c p) mu s f last Ek) as H. cbn [fr_pc] in H. lia.
Qed.

(** ** Killed in the middle of an append *)

(** The second file is the first, or has bytes behind it. *)
Definition grown (f f' : File) : Prop :=
  f' = f ∨ ∃ x, x ≠ [] ∧ Wal.f_data f' = Wal.f_data f ++ x.

Lemma append_grows io rec w f : grown f (Wal.appendLocked io rec w f).2.
Proof.
  unfold Wal.appendLocked. destruct (negb _); [by left|]. destruct (marshal _) as [b|]; [|by left].
  assert (b ++ [Wal.newline] ≠ []) as Hb by (by destruct b).
  destruct (Wal.io_write io) as [[n e]|].
  - cbn [snd]. destruct (take n (b ++ [Wal.newline])) as [|a x] eqn:Et; [left|right; by exists (a :: x)].
    rewrite app_nil_r. by destruct f.
  - destruct (Wal.io_sync io); right; by exists (b ++ [Wal.newline]).
Qed.

Lemma wrapped_grows c r f : grown f r.2 → grown f (Wal.wrap_error c r).2.
Proof. by destruct r as [[e w] f']. Qed.

Lemma WriteEnqueue_grows io msg w f : grown f (Wal.WriteEnqueue io msg w f).2.
Proof. unfold Wal.WriteEnqueue. destruct (bool_decide _); [by left|]. apply wrapped_grows, append_grows. Qed.

Lemma WriteDequeue_grows io id w f : grown f (Wal.WriteDequeue io id w f).2.
Proof. unfold Wal.WriteDequeue. destruct (bool_decide _); [by left|]. apply wrapped_grows, append_grows. Qed.

Lemma write_step_grows i w s f r s' f' : write_step i w s f = Some (r, s', f') → grown f f'.
Proof.
  destruct w; cbn [write_step].
  - destruct (s_closed s); intros [= _ _ <-]; by left.
  - pose proof (WriteEnqueue_grows (i_append i) msg (s_wal s) f) as Hg.
    destruct (Wal.WriteEnqueue _ _ _ _) as [[[e|] wal] f1]; by intros [= _ _ <-].
  - destruct (Push _ _); [intros [= _ _ <-]; by left|done].
  - intros [= _ _ <-]. by left.
  - destruct (s_closed s); intros [= _ _ <-]; by left.
  - destruct (Pop _ _) as [[[m|] q]|]; [intros [= _ _ <-]; by left..|done].
  - pose proof (WriteDequeue_grows (i_append i) (ID msg) (s_wal s) f) as Hg.
    destruct (Wal.WriteDequeue _ _ _ _) as [[[e0|] wal] f1]; by intros [= _ _ <-].
  - destruct (Push _ _); [intros [= _ _ <-]; by left|done].
  - destruct (s_closed s); intros [= _ _ <-]; by left.
  - destruct (Wal.Close _ _) as [err wal]. intros [= _ _ <-]. by left.
Qed.

Lemma good_file c es bs : good c es bs → c_file c = Wal.MkFile (WalFacts.log_bytes bs) (length (WalFacts.log_bytes bs)).
Proof.
  intros [Hi _]. pose proof (inv_data _ _ _ _ _ Hi) as Hd. pose proof (inv_synced _ _ _ _ _ Hi) as Hs.
  destruct (c_file c) as [data synced]. cbn in *. by subst.
Qed.

(** The lines of a log are those of its file. *)
Lemma good_lines c es bs : good c es bs → Wal.raw_lines [] (Wal.f_data (c_file c)) = bs.
Proof.
  intros [Hi _]. rewrite (inv_data _ _ _ _ _ Hi), <- (app_nil_r (WalFacts.log_bytes bs)).
  rewrite WalFacts.raw_lines_log; [apply app_nil_r|]. apply (WalFacts.written_lines es), (inv_written _ _ _ _ _ Hi).
Qed.

(** A call writes once: what it has put into the file does not grow. *)
Lemma writes_once A o1 a1 B1 o2 a2 B2 x : carries A o1 a1 B1 → carries A o2 a2 B2 →
  Wal.f_data (c_file B2) = Wal.f_data (c_file B1) ++ x → x ≠ [] → c_file B1 = c_file A.
Proof.
  intros [_ _ (es & bs & de & db & Hg & Hg1 & _) _] [_ _ (es' & bs' & de' & db' & Hg' & Hg2 & Hl) _] Hx Hne.
  assert (bs' = bs) as -> by (rewrite <- (good_lines _ _ _ Hg'); apply (good_lines _ _ _ Hg)).
  change (c_file B1) with (c_file (alive B1)). change (c_file A) with (c_file (alive A)).
  destruct db as [|d db]; [rewrite (good_file _ _ _ Hg1), (good_file _ _ _ Hg); by rewrite app_nil_r|]. exfalso.
  pose proof (good_file _ _ _ Hg1) as Hf1. pose proof (good_file _ _ _ Hg2) as Hf2. cbn [alive c_file] in Hf1, Hf2.
  rewrite Hf1, Hf2 in Hx. cbn [Wal.f_data] in Hx. apply (f_equal (Wal.raw_lines [])) in Hx.
  pose proof Hg1 as [Hi1 _]. pose proof Hg2 as [Hi2 _].
  rewrite WalFacts.raw_lines_log in Hx by (apply (WalFacts.written_lines (es ++ de)), (inv_written _ _ _ _ _ Hi1)).
  rewrite <- (app_nil_r (WalFacts.log_bytes (bs ++ db'))) in Hx.
  rewrite WalFacts.raw_lines_log in Hx by (apply (WalFacts.written_lines (es' ++ de')), (inv_written _ _ _ _ _ Hi2)).
  cbn [Wal.raw_lines] in Hx. rewrite app_nil_r, <- app_assoc in Hx. apply app_inv_head in Hx.
  destruct (WalTheorems.raw_lines_head x Hne) as (y & ys & Ey & _). rewrite Ey in Hx.
  apply (f_equal length) in Hx. rewrite length_app in Hx. cbn [length] in Hx. lia.
Qed.

Lemma carries_longer A o a B : carries A o a B →
  (length (Wal.f_data (c_file A)) <= length (Wal.f_data (c_file B)))%nat.
Proof.
  intros [_ _ (es & bs & de & db & Hg & Hg1 & _) _].
  pose proof (good_file _ _ _ Hg) as Hf. pose proof (good_file _ _ _ Hg1) as Hf1. cbn [alive c_file] in Hf, Hf1.
  rewrite Hf, Hf1, WalFacts.log_bytes_app. cbn [Wal.f_data]. rewrite length_app. lia.
Qed.

(** What a writer has put into the file before and after a step. *)
Lemma underway_file A c w s f last i r s' f' : underway A c w s f last → fair_write w s last i →
  write_step i w s f = Some (r, s', f') →
  (f = c_file A ∨ ∃ o a B, carries A o a B ∧ f = c_file B) ∧
  (f' = c_file A ∨ ∃ o a B, op_call o = c ∧ carries A o a B ∧ healthy B (last_after i (Writing w) s last) ∧ f' = c_file B).
Proof.
  intros [w1 s1 f1 last1 Hf _ Hgo Hend] Hfw Hw. split.
  - destruct Hf as [Hf|(o & a & B & _ & HP & _ & Hf)]; [by left|right; by exists o, a, B].
  - destruct r as [w'|a].
    + by destruct (Hgo i w' s' f' Hfw Hw).
    + destruct (Hend i a s' f' Hfw Hw) as (o & B & Ho & HP & _ & Hfile & HB). right. by exists o, a, B.
Qed.

Lemma exec_file t i k k' : exec t i k = Some k' →
  k_file k' = k_file k ∨ ∃ c w, k_calls k !! t = Some (MkFrame c (Writing w)).
Proof.
  intros He. destruct (k_calls k !! t) as [[c p]|] eqn:Ek; [|by (unfold exec in He; rewrite Ek in He)].
  destruct p as [|w|w|w|a|r|r|a|a]; [| | |by right; eauto| | | | |].
  6: { rewrite (exec_reading t i k c r Ek) in He. left.
    destruct (read_step i r (k_svc k) (k_file k)) as [[[r'|a] s]|]; [..|done]; by injection He as <-. }
  all: left; unfold exec in He; rewrite Ek in He; cbn [mbind option_bind fr_pc fr_call] in He.
  1: destruct c as [req| |limit| |limit|]; [destruct (enqueue_prepare (i_random i) req)|..].
  all: try destruct (Lock_claim _ _); try destruct (Lock_entered _); try destruct (RLock _ _); try done.
  all: by injection He as <-.
Qed.

(** The steps that read the clock write nothing. *)
Lemma write_step_clock i w s f r s' f' x last : write_step i w s f = Some (r, s', f') →
  Wal.f_data f' = Wal.f_data f ++ x → x ≠ [] → last_after i (Writing w) s last = last.
Proof.
  intros Hw Hx Hne. destruct w; cbn [write_step] in Hw; try done; unfold last_after; cbn [reads_clock];
    destruct (s_closed s); try done; injection Hw as _ _ <-;
    apply (f_equal length) in Hx; rewrite length_app in Hx; (destruct x; [done|simpl in Hx; lia]).
Qed.

(** A step that puts something into the file writes the record of the one call
    that is writing, which had put nothing there yet. *)
Lemma step_order c k H A t i k' : ordered c k H A → fair k t i → exec t i k = Some k' →
  k_file k' = k_file k ∨
  k_file k = c_file A ∧ ∃ o a B, carries A o a B ∧ healthy B (k_last k) ∧ k_file k' = c_file B
    ∧ ∀ t', call_history (of_call t' (H ++ [GCommitted t o a])).
Proof.
  intros L Hf He. destruct (exec_file t i k k' He) as [?|(c1 & w & Ek)]; [by left|].
  rewrite (exec_writing t i k c1 w Ek) in He. unfold fair, may in Hf. rewrite Ek in Hf.
  destruct (write_step i w (k_svc k) (k_file k)) as [[[r s'] f']|] eqn:Hw; [|done]. injection He as <-.
  cbn [advance k_file k_last].
  pose proof (ln_state _ _ _ _ _ _ _ _ _ _ _ L) as HS. unfold state_ok in HS.
  rewrite (inside_writing k t c1 w (ln_lock _ _ _ _ _ _ _ _ _ _ _ L) Ek) in HS.
  destruct (underway_file _ _ _ _ _ _ _ _ _ _ HS Hf Hw) as [Hf0 Hf1].
  destruct (write_step_grows _ _ _ _ _ _ _ Hw) as [->|(x & Hne & Hx)]; [by left|right].
  rewrite (write_step_clock _ _ _ _ _ _ _ x _ Hw Hx Hne) in Hf1.
  assert (length (Wal.f_data (k_file k)) < length (Wal.f_data f'))%nat as Hlt
    by (rewrite Hx, length_app; destruct x; [done|simpl; lia]).
  destruct Hf1 as [->|(o & a & B & Ho & HP & HB & ->)].
  { exfalso. destruct Hf0 as [E|(o & a & B & HP & E)]; rewrite E in Hlt; [lia|]. apply carries_longer in HP. lia. }
  split; [|exists o, a, B; split_and!; [done..|]; by eapply commits_now].
  destruct Hf0 as [E|(o1 & a1 & B1 & HP1 & E)]; [done|]. rewrite E in Hx |- *. by eapply writes_once.
Qed.

(** What is in the file when the process is killed: between two steps, or while
    a step writes, at any byte of what it writes. *)
Inductive left_by (k : Conc) : File → Prop :=
  | left_between : left_by k (crash (k_file k))
  | left_during t i k' n :
      fair k t i → exec t i k = Some k' → (length (Wal.f_data (k_file k)) <= n)%nat →
      left_by k (Wal.MkFile (take n (Wal.f_data (k_file k'))) n).

(** ** The durability of what callers were told *)

Lemma reachable_healthy c : reachable c → c_off c = off → healthy c (c_last c).
Proof. intros (es & bs & Hg)%reachable_good Ho. by eapply good_healthy. Qed.

(** What the calls of a history took in and gave out, when the next process
    holds what is left. *)
Lemma history_account c H B last s' : healthy c (c_last c) → chain carries c (commits H) B → healthy B last →
  wire_message <$> held s' ≡ₚ wire_message <$> held (unclosed (c_svc B)) →
  wire_message <$> ((commits H).*2 ≫= accepted_by) ++ held (c_svc c)
    ≡ₚ wire_message <$> ((commits H).*2 ≫= handed_by) ++ held s'
  ∧ Forall (λ m, t_wall (AvailableAt m) <= last) ((commits H).*2 ≫= handed_by).
Proof.
  intros Hh HC HB Hp. destruct (he_good _ _ Hh) as (es & bs & Hg).
  pose proof (chain_keeps c _ B _ es bs Hh Hg HC) as Hk. split.
  - pose proof (kp_messages _ _ _ _ Hk) as Hm. cbn [alive c_svc] in Hm.
    change (held (unclosed (c_svc c))) with (held (c_svc c)) in Hm. rewrite Hm, !fmap_app. by rewrite Hp.
  - pose proof (kp_due _ _ _ _ Hk) as Hd. cbn [alive c_last] in Hd. eapply Forall_impl; [exact Hd|].
    pose proof (he_last _ _ HB). cbn. lia.
Qed.

Lemma killed_good c l h k path mode :
  (∃ es bs, good c es bs) → c_off c = off →
  fair_schedule l (serving c) → schedule l (serving c) = Some (h, k) → Valid mode = true →
  ∃ s', NewQueueService path mode None read_ok (crash (k_file k)) = Some (Ok s')
    ∧ ∀ off', ∃ es bs, good (MkConfig off' (k_last k) s' (crash (k_file k))) es bs.
Proof.
  intros (es & bs & Hg0) Ho Hf Hs Hmode. pose proof (good_healthy c es bs Ho Hg0) as Hh.
  destruct (fair_order c l h k Hh Hf Hs) as (H & A & Hv & L).
  destruct (file_order c k H A L) as (H' & B & _ & _ & _ & HB & Hfile).
  destruct (reopen_alive B (k_last k) path mode HB Hmode) as (s' & Hn & Hp & Hg'). exists s'. by rewrite Hfile.
Qed.

(** The file of a healthy configuration, or of one and the next, cut anywhere
    behind what the first has. *)
Lemma cut_alive A B lastA lastB path mode n : healthy A lastA → healthy B lastB →
  (∃ es bs de db, good (alive A) es bs ∧ good (alive B) (es ++ de) (bs ++ db) ∧ (length db <= 1)%nat) →
  Valid mode = true → (length (Wal.f_data (c_file A)) <= n)%nat →
  ∃ s', NewQueueService path mode None read_ok (Wal.MkFile (take n (Wal.f_data (c_file B))) n) = Some (Ok s')
    ∧ (wire_message <$> held s' ≡ₚ wire_message <$> held (unclosed (c_svc A))
       ∨ wire_message <$> held s' ≡ₚ wire_message <$> held (unclosed (c_svc B))).
Proof.
  intros HA HB (es & bs & de & db & Hg & Hg' & Hl) Hmode Hn. pose proof Hg as [Hi _]. pose proof Hg' as [Hi' _].
  change (c_off (alive A)) with (c_off A) in Hi. change (c_off (alive B)) with (c_off B) in Hi'.
  rewrite (he_off _ _ HA) in Hi. rewrite (he_off _ _ HB) in Hi'.
  destruct (crash_cut (alive A) es bs (alive B) de db off mode path n Hg Hg' Hl) as (s' & Hnew & _ & Hp);
    [exact (held_room _ _ _ _ Hi)|exact (held_room _ _ _ _ Hi')|done|done|]. cbn [alive c_svc c_file] in *.
  exists s'. split; [exact Hnew|]. destruct Hp as [Hp|Hp];
    [left; by rewrite Hp, wire_all by apply Hi|right; by rewrite Hp, wire_all by apply Hi'].
Qed.

(** However the process is killed, the log it leaves opens, and the messages are
    accounted for by calls of which the callers saw what they saw. *)
Lemma left_good c l h k f path mode :
  (∃ es bs, good c es bs) → c_off c = off →
  fair_schedule l (serving c) → schedule l (serving c) = Some (h, k) → left_by k f → Valid mode = true →
  ∃ H s', visible H = h ∧ (∀ t, call_history (of_call t H))
    ∧ NewQueueService path mode None read_ok f = Some (Ok s')
    ∧ wire_message <$> ((commits H).*2 ≫= accepted_by) ++ held (c_svc c)
        ≡ₚ wire_message <$> ((commits H).*2 ≫= handed_by) ++ held s'
    ∧ Forall (λ m, t_wall (AvailableAt m) <= k_last k) ((commits H).*2 ≫= handed_by).
Proof.
  intros (es & bs & Hg0) Ho Hf Hs Hleft Hmode. pose proof (good_healthy c es bs Ho Hg0) as Hh.
  destruct (fair_order c l h k Hh Hf Hs) as (H & A & Hv & L).
  destruct (file_order c k H A L) as (H' & B & Hhist & Hv' & HC & HB & Hfile).
  assert (∀ s', wire_message <$> held s' ≡ₚ wire_message <$> held (unclosed (c_svc B)) →
    NewQueueService path mode None read_ok f = Some (Ok s') →
    ∃ H s', visible H = h ∧ (∀ t, call_history (of_call t H))
      ∧ NewQueueService path mode None read_ok f = Some (Ok s')
      ∧ wire_message <$> ((commits H).*2 ≫= accepted_by) ++ held (c_svc c)
          ≡ₚ wire_message <$> ((commits H).*2 ≫= handed_by) ++ held s'
      ∧ Forall (λ m, t_wall (AvailableAt m) <= k_last k) ((commits H).*2 ≫= handed_by)) as Hdone.
  { intros s' Hp Hn. destruct (history_account c _ B _ s' Hh HC HB Hp) as [Ha Hd].
    exists (H ++ H'), s'. by rewrite visible_app, Hv, Hv', app_nil_r. }
  destruct Hleft as [|t i k' n Hfair He Hn].
  { destruct (reopen_alive B (k_last k) path mode HB Hmode) as (s' & Hnew & Hp & _). rewrite <- Hfile in Hnew. by apply (Hdone s'). }
  destruct (step_order c k H A t i k' L Hfair He) as [E|(HfA & o & a & B2 & HP & HB2 & HfB & Hhist2)].
  - rewrite E, Hfile in *. destruct (he_good _ _ HB) as (es1 & bs1 & HgB).
    destruct (cut_alive B B _ _ path mode n HB HB (same_log _ _ _ _ HgB HgB) Hmode Hn) as (s' & Hnew & Hp).
    apply (Hdone s'); [by destruct Hp|done].
  - pose proof (ln_inv _ _ _ _ _ _ _ _ _ _ _ L) as HA. pose proof (ln_chain _ _ _ _ _ _ _ _ _ _ _ L) as HCA.
    rewrite HfA in Hn. rewrite HfB.
    destruct (cut_alive A B2 _ _ path mode n HA HB2 (ca_log _ _ _ _ HP) Hmode Hn) as (s' & Hnew & [Hp|Hp]).
    + destruct (history_account c H A _ s' Hh HCA HA Hp) as [Ha Hd]. exists H, s'. split_and!; try done.
      intros t'. eapply past_history, (ln_past _ _ _ _ _ _ _ _ _ _ _ L).
    + assert (chain carries c (commits (H ++ [GCommitted t o a])) B2) as HC2
        by (rewrite commits_app; eapply chain_app; [exact HCA|by apply chain_one]).
      destruct (history_account c _ B2 _ s' Hh HC2 HB2 Hp) as [Ha Hd].
      exists (H ++ [GCommitted t o a]), s'. split_and!; try done. by rewrite visible_app, Hv, app_nil_r.
Qed.
End runs.

(** The steps of the calls in progress are numbered. *)
Lemma steps_bounded `{LC : LogCodec} l h k k' : Forall (λ x, ∃ t i, x = Step t i) l → schedule l k = Some (h, k') →
  (length l + total_left k' <= total_left k)%nat.
Proof.
  intros Hl. revert k h. induction Hl as [|x l (t & i & ->) _ IH]; intros k h; cbn [schedule act length].
  - intros [= _ <-]. lia.
  - destruct (exec t i k) as [k1|] eqn:He; [|done]. cbn [mbind option_bind].
    destruct (schedule l k1) as [[h2 k2]|] eqn:Hs; [|done]. cbn [mbind option_bind]. intros [= _ <-].
    pose proof (step_nearer t i k k1 He). pose proof (IH k1 h2 Hs). lia.
Qed.
