(* ===== verification/ConcurrentTheorems.v ===== *)
(** * What concurrent callers can rely on

    The calls of any schedule take effect one after the other, between their
    invocation and their answer; none waits for ever; what was acknowledged
    survives the process at any step of any schedule; and what overlapping
    inspections may still show. *)

From S2P Require Import Prelude GoTime GoStrconv GoUtf8 GoJson GoTimeFormat Model Codec CodecFacts LogRecord Engine.
From S2P Require Import Service ServiceFacts ServiceTrace ServiceTheorems.
From S2P Require Import Concurrent ConcurrentFacts ConcurrentOrder ConcurrentRuns.
From S2P Require Wal WalFacts WalTheorems.
From Stdlib Require Import Ascii.

Import Wal (WAL, File, read_ok).

Local Open Scope Z_scope.

Section theorems.
Context `{LC : LogCodec} {LL : LogCodecLaws LC}.

(** C4: Concurrent callers see the service as if their calls ran one after the
    other: whatever the schedule, the files and the clock do, the history can be
    completed by one instant per call, between its invocation and its response,
    such that performing the calls whole in the order of these instants gives
    every answer that was returned, and, when no call holds the lock for writing,
    the state of the service and of the log file. *)
Theorem calls_are_linearizable (s : QueueService) (f : File) (last : Z) (l : list action) (h : list event) (k : Conc) :
  schedule l (idle s f last) = Some (h, k) →
  ∃ (H : list gevent) (st : QueueService * File),
    visible H = h ∧ (∀ t, call_history (of_call t H)) ∧
    perform_all (commits H).*1 (s, f) = Some ((commits H).*2, st) ∧
    (mu_writer (k_mu k) = None → st = (k_svc k, k_file k)).
Proof. apply schedule_sequential. Qed.

(** A process that is killed at any step of any schedule of concurrent calls,
    also while it writes a record ([left_by]),
    loses nothing it answered for: reopening the log gives, together with what
    dequeues handed out, exactly the messages that were held before and those of
    the enqueues that took effect.  Every call that responded took effect with
    that answer ([call_history]), so an acknowledged message is held again or was
    handed out, each one once, and none before it was due. *)
Theorem concurrent_calls_are_durable (c : Config) (l : list action) (h : list event) (k : Conc) (f : File)
    (path : string) (mode : QueueMode) :
  reachable c → fair_schedule (c_off c) l (serving c) → schedule l (serving c) = Some (h, k) →
  left_by (c_off c) k f → Valid mode = true →
  ∃ (H : list gevent) (s' : QueueService),
    visible H = h ∧ (∀ t, call_history (of_call t H)) ∧
    NewQueueService path mode None read_ok f = Some (Ok s') ∧
    wire_message <$> ((commits H).*2 ≫= accepted_by) ++ held (c_svc c)
      ≡ₚ wire_message <$> ((commits H).*2 ≫= handed_by) ++ held s' ∧
    Forall (λ m, t_wall (AvailableAt m) <= k_last k) ((commits H).*2 ≫= handed_by).
Proof.
  intros Hr%reachable_good Hf Hs Hleft Hmode. exact (left_good (c_off c) c l h k f path mode Hr eq_refl Hf Hs Hleft Hmode).
Qed.

(** No call waits for ever: the calls in progress can make only so many more
    steps together ([total_left]), and as long as one of them has not returned,
    some call can make its next step, whatever it gets from a fair environment.
    The lock never leaves everybody waiting, and the engine never panics. *)
Theorem every_call_returns (c : Config) (l : list action) (h : list event) (k : Conc) :
  reachable c → fair_schedule (c_off c) l (serving c) → schedule l (serving c) = Some (h, k) →
  (∀ steps h' k', Forall (λ x, ∃ t i, x = Step t i) steps → schedule steps k = Some (h', k') →
    (length steps + total_left k' <= total_left k)%nat) ∧
  (∀ t, unfinished k t → ∃ t', unfinished k t' ∧ ∀ i, fair (c_off c) k t' i → is_Some (exec t' i k)).
Proof.
  intros Hr Hf Hs. split; [intros; by eapply steps_bounded|]. intros t Ht.
  destruct (fair_order (c_off c) c l h k (reachable_healthy _ c Hr eq_refl) Hf Hs) as (H & A & _ & L).
  by eapply some_can_step.
Qed.
End theorems.

(** ** A schedule

    The service holds one message.  A dequeue waits for an inspection to finish
    and takes the message; the process is killed when the record of an enqueue is
    in the file and the message not yet in memory. *)
Module Interleaved.
Import ServiceTheorems.Sample.

Definition at_time (s : Z) : Inputs := MkInputs (at_s s) (Ok (block 50)) (io s) read_ok None.

Definition enter_all : list action :=
  [Invoke 1 (CallEnqueue second); Invoke 2 CallDequeue; Invoke 3 CallStats;
   Step 1 (at_time 2); Step 3 (at_time 2); Step 2 (at_time 2); Step 3 (at_time 2); Step 2 (at_time 2)].
Definition inspect : list action := [Step 3 (at_time 2); Step 3 (at_time 2); Step 3 (at_time 2); Step 3 (at_time 2)].
Definition consume : list action :=
  [Step 2 (at_time 3); Step 2 (at_time 3); Step 2 (at_time 3); Step 2 (at_time 3); Step 2 (at_time 3)].
Definition append : list action := [Step 1 (at_time 4); Step 1 (at_time 4); Step 1 (at_time 4); Step 1 (at_time 4)].
Definition busy : list action := enter_all ++ inspect ++ consume ++ append.

Definition after (l : list action) (k : Conc) : list event * Conc := default ([], k) (schedule l k).
Definition outcome : list event * Conc := Eval vm_compute in after busy (serving c1).

Lemma outcome_ok : schedule busy (serving c1) = Some (outcome.1, outcome.2).
Proof. vm_compute. reflexivity. Qed.

Example outcome_seen : outcome.1 =
  [Invoked 1 (CallEnqueue second); Invoked 2 CallDequeue; Invoked 3 CallStats;
   Responded 3 (AnsStats (MkQueueStats 1 1 0));
   Responded 2 (AnsDequeue (Ok (Some (message 10 1 1 first))))].
Proof. vm_compute. reflexivity. Qed.

Lemma fair_cons off t i l k c p h k1 :
  k_calls k !! t = Some (MkFrame c p) →
  match p with
  | Called => fair_call c i
  | Writing w => fair_write off w (k_svc k) (k_last k) i
  | Reading r => fair_read off r (k_last k) i
  | _ => True
  end →
  act (Step t i) k = Some (h, k1) → fair_schedule off l k1 → fair_schedule off (Step t i :: l) k.
Proof.
  intros Ek Hf Ha Hl. unfold fair_schedule. cbn [allowed]. rewrite Ha. split; [|done].
  unfold may. rewrite Ek. by destruct p.
Qed.

Lemma fair_invoke off t c l k h k1 :
  act (Invoke t c) k = Some (h, k1) → fair_schedule off l k1 → fair_schedule off (Invoke t c :: l) k.
Proof. intros Ha Hl. unfold fair_schedule. cbn [allowed]. rewrite Ha. by split. Qed.

Ltac solve_fair_clock := split_and!; [solve_decision_vm|solve_decision_vm|by vm_compute].
Ltac run_one := first
  [eapply fair_invoke; [vm_compute; reflexivity|]
  |eapply fair_cons; [vm_compute; reflexivity|exact I|vm_compute; reflexivity|]].

Ltac run_with := eapply fair_cons; [vm_compute; reflexivity| |vm_compute; reflexivity|].

Lemma busy_fair : fair_schedule off busy (serving c1).
Proof.
  unfold busy, enter_all, inspect, consume, append. cbn [app].
  do 3 run_one. run_with. { split; [by vm_compute|]. split; [done|solve_decision_vm]. }
  do 4 run_one. run_with. { solve_fair_clock. }
  do 4 run_one. run_with. { intros _. split; [solve_fair_clock|solve_room]. }
  run_one. run_with. { split; [left; solve_carried_out|solve_readable]. }
  do 3 run_one. run_with. { intros _. split; [solve_fair_clock|solve_room]. }
  run_with. { split; [left; solve_carried_out|]. split; [solve_decision_vm|solve_readable]. }
  exact I.
Qed.
End Interleaved.

Import Interleaved.

Lemma calls_are_linearizable_witness :
  ∃ (H : list gevent) (st : QueueService * File),
    visible H = outcome.1 ∧ (∀ t, call_history (of_call t H)) ∧
    perform_all (commits H).*1 (c_svc Sample.c1, c_file Sample.c1) = Some ((commits H).*2, st) ∧
    (mu_writer (k_mu outcome.2) = None → st = (k_svc outcome.2, k_file outcome.2)).
Proof. exact (calls_are_linearizable _ _ _ busy outcome.1 outcome.2 outcome_ok). Defined.

Lemma concurrent_calls_are_durable_witness :
  ∃ (H : list gevent) (s' : QueueService),
    visible H = outcome.1 ∧ (∀ t, call_history (of_call t H)) ∧
    NewQueueService "queue.wal" ModeFIFO None read_ok (crash (k_file outcome.2)) = Some (Ok s') ∧
    wire_message <$> ((commits H).*2 ≫= accepted_by) ++ held (c_svc Sample.c1)
      ≡ₚ wire_message <$> ((commits H).*2 ≫= handed_by) ++ held s' ∧
    Forall (λ m, t_wall (AvailableAt m) <= k_last outcome.2) ((commits H).*2 ≫= handed_by).
Proof.
  apply (concurrent_calls_are_durable Sample.c1 busy outcome.1 outcome.2 (crash (k_file outcome.2)) "queue.wal" ModeFIFO).
  - exact Sample.c1_reachable.
  - exact busy_fair.
  - exact outcome_ok.
  - apply left_between.
  - reflexivity.
Defined.

Lemma every_call_returns_witness :
  unfinished outcome.2 1%nat ∧
  (∀ steps h' k', Forall (λ x, ∃ t i, x = Step t i) steps → schedule steps outcome.2 = Some (h', k') →
    (length steps + total_left k' <= total_left outcome.2)%nat) ∧
  (∀ t, unfinished outcome.2 t → ∃ t', unfinished outcome.2 t' ∧
    ∀ i, fair Sample.off outcome.2 t' i → is_Some (exec t' i outcome.2)).
Proof.
  split.
  - eexists. split; [vm_compute; reflexivity|done].
  - apply (every_call_returns Sample.c1 busy outcome.1 outcome.2).
    + exact Sample.c1_reachable.
    + exact busy_fair.
    + exact outcome_ok.
Defined.

(** ** Overlapping inspections *)

Module Overlapping.
Import ServiceTheorems.Sample.

(** Two snapshots of a service whose only message is due 62 seconds after the
    epoch of the sample: the first reads the clock at 61, the second at 63. *)
Definition delayed : Config := Eval vm_compute in enqueue c0 2 50 second.
Definition two_snapshots : list action :=
  [Invoke 1 (CallSnapshot 0); Invoke 2 (CallSnapshot 0);
   Step 1 (at_time 61); Step 2 (at_time 61); Step 1 (at_time 61); Step 2 (at_time 61);
   Step 1 (at_time 61); Step 2 (at_time 63); Step 2 (at_time 63);
   Step 1 (at_time 63); Step 1 (at_time 63); Step 2 (at_time 63)].
Definition seen : list event * Conc := Eval vm_compute in after two_snapshots (serving delayed).

Lemma delayed_reachable : reachable delayed.
Proof.
  exists c0, [message 50 1 2 second], []. split; [exact c0_started|].
  apply (run_step c0 [_] [] delayed [] [] delayed); [|apply run_nil].
  apply (step_enqueue c0 (at_s 2) (Ok (block 50)) (io 2) second (Ok (message 50 1 2 second)) (c_svc delayed) (c_file delayed)).
  - solve_may_enqueue.
  - vm_compute. reflexivity.
Qed.

Lemma two_snapshots_fair : fair_schedule off two_snapshots (serving delayed).
Proof.
  unfold two_snapshots. do 6 run_one. run_with. { solve_fair_clock. }
  run_with. { solve_fair_clock. }
  do 4 run_one. exact I.
Qed.
End Overlapping.

(** C39: Two inspections that overlap can contradict the clock: calls that read it
    under the shared lock may promote in the other order, so a snapshot can list
    as ready, and count as available, a message that is not yet due at the
    instant [Now] the same snapshot states.  This happens with one clock that
    never goes back and no failure anywhere. *)
Theorem overlapping_snapshot_runs_ahead :
  ∃ (c : Config) (l : list action) (h : list event) (k : Conc) (t : tid) (v : QueueSnapshot) (m : Message),
    reachable c ∧ fair_schedule (c_off c) l (serving c) ∧ schedule l (serving c) = Some (h, k) ∧
    Responded t (AnsSnapshot v) ∈ h ∧ m ∈ sn_Ready v ∧ Available m (sn_Now v) = false ∧
    s_Available (sn_Stats v) = 1.
Proof.
  exists Overlapping.delayed, Overlapping.two_snapshots, Overlapping.seen.1, Overlapping.seen.2, 1%nat.
  eexists _, (Sample.message 50 1 2 Sample.second).
  split; [exact Overlapping.delayed_reachable|]. split; [exact Overlapping.two_snapshots_fair|].
  split; [vm_compute; reflexivity|]. split; [vm_compute; do 2 right; left|].
  split; [by left|]. split; by vm_compute.
Qed.
