(* ===== verification/GoJsonStream.v ===== *)
(** * Decoding a stream: [json.Decoder]

    [Decode] reads one value from a reader and leaves the rest alone.  The
    reader is the bytes it delivers together with how it ends: at EOF, or with
    an error.  [MaxBytes] is [http.MaxBytesReader]. *)

From S2P Require Import Prelude GoStrconv GoUtf8 GoJson GoJsonFacts.
From Stdlib Require Import Ascii.

Local Open Scope Z_scope.

(** ** Readers *)

Record reader := MkReader {
  rd_bytes : bytes;
  rd_end : option error      (** [None] is EOF *)
}.

(** [*http.MaxBytesError]. *)
Definition ErrMaxBytes : error := ErrVar "http.MaxBytesError".

(** At most [limit] bytes, then the error. *)
Definition MaxBytes (limit : nat) (r : reader) : reader :=
  if Nat.ltb limit (length (rd_bytes r)) then MkReader (take limit (rd_bytes r)) (Some ErrMaxBytes) else r.

(** ** [Decode] *)

(** Errors of the decoder; their texts are not modelled. *)
Definition ErrSyntax : error := ErrVar "json.SyntaxError".
Definition ErrUnexpectedEOF : error := ErrVar "io.ErrUnexpectedEOF".
Definition ErrUnmarshalType : error := ErrVar "json.UnmarshalTypeError".

(** A scalar at the top is complete when a byte follows that is not part of it;
    the byte is not consumed. *)
Definition scan_end (c : ascii) (st : pstate) : option json :=
  match st with
  | (EndTop v, _) => Some v
  | (InNum s acc, []) =>
      match num_step s c with
      | None => if num_final s then Some (JNum (rev acc)) else None
      | Some _ => None
      end
  | _ => None
  end.

(** An array or an object at the top is complete with its closing bracket. *)
Definition closed (c : ascii) (st : pstate) : option json :=
  match st with
  | (EndTop v, _) => if ceq c "]" || ceq c "}" then Some v else None
  | _ => None
  end.

(** [readValue]. *)
Fixpoint read_value (l : bytes) (fin : option error) (st : pstate) : result json :=
  match l with
  | [] =>
      match fin, eof st with
      | Some e, _ => Err e
      | None, Some v => Ok v
      | None, None => Err ErrUnexpectedEOF
      end
  | c :: l =>
      match scan_end c st, step c st with
      | Some v, _ => Ok v
      | None, None => Err ErrSyntax
      | None, Some st' =>
          match closed c st' with
          | Some v => Ok v
          | None => read_value l fin st'
          end
      end
  end.

(** [json.NewDecoder(r).Decode(&v)]. *)
Definition Decode {A} (dec : json → A → option A) (r : reader) (old : A) : result A :=
  match read_value (rd_bytes r) (rd_end r) initial with
  | Err e => Err e
  | Ok j => match dec j old with Some v => Ok v | None => Err ErrUnmarshalType end
  end.

(** ** A complete text *)

Lemma eof_EndTop v k : eof (EndTop v, k) = Some v.
Proof. done. Qed.

Lemma scan_EndTop l v k st : scan l (EndTop v, k) = Some st → st = (EndTop v, k).
Proof.
  induction l as [|c l IH]; cbn [scan]; [by intros [= <-]|].
  cbn [step]. unfold after_value. by destruct (is_space c).
Qed.

(** What the scanner accepts as a whole is what [readValue] reads from it. *)
Lemma read_value_scan l st st1 v :
  scan l st = Some st1 → eof st1 = Some v → read_value l None st = Ok v.
Proof.
  revert st. induction l as [|c l IH]; intros st; cbn [scan read_value].
  { by intros [= ->] ->. }
  destruct (step c st) as [st'|] eqn:Es; [|done]. cbn [mbind option_bind]. intros Hs He.
  assert (∀ v', st' = (EndTop v', st'.2) → v' = v) as Htop.
  { intros v' E. rewrite E in Hs. apply scan_EndTop in Hs. subst. by injection He. }
  destruct (scan_end c st) as [v'|] eqn:Ee.
  - f_equal. destruct st as [m k]. unfold scan_end in Ee. destruct m; try done.
    + injection Ee as ->. apply Htop. cbn [step] in Es. unfold after_value in Es.
      destruct (is_space c); [|done]. by injection Es as <-.
    + destruct k; [|done]. cbn [step] in Es. destruct (num_step s c); [done|].
      destruct (num_final s); [|done]. injection Ee as <-. cbn in Es. unfold after_value in Es.
      destruct (is_space c); [|done]. injection Es as <-. by apply Htop.
  - destruct (closed c st') as [v'|] eqn:Ec; [|by apply IH].
    f_equal. apply Htop. destruct st' as [m k]. destruct m; try done. cbn [closed] in Ec.
    by case_match; simplify_eq.
Qed.

Lemma read_value_parse l v : parse l = Some v → read_value l None initial = Ok v.
Proof.
  unfold parse. destruct (scan l initial) as [st|] eqn:E; [|done]. by apply read_value_scan.
Qed.

(** ** A value with more behind it *)

(** Some array or object is open. *)
Definition nested (st : pstate) : Prop :=
  match st with (EndTop _, _) => False | (_, k) => k ≠ [] end.

Lemma nested_inside st : nested st → inside st.
Proof. by destruct st as [[] k]. Qed.

Lemma inside_nested st : inside st → nested st ∨ ∃ v k, st = (EndTop v, k).
Proof. destruct st as [[] k]; simpl; eauto. Qed.

Lemma finish_EndTop v k v' k' : finish v k = Some (EndTop v', k') → k = [].
Proof. by destruct k as [|[|? []] ?]. Qed.

(** Only a closing bracket completes an open value. *)
Lemma step_closes c st v k : nested st → step c st = Some (EndTop v, k) → ceq c "]" || ceq c "}" = true.
Proof.
  destruct st as [m k0]. intros Hn Hs.
  assert (∀ f, begin_value c k0 = Some (EndTop v, f) → False) as Hb.
  { intros f. unfold begin_value, open_frame. intros H. by repeat case_match; simplify_eq. }
  assert (∀ w, finish w k0 = Some (EndTop v, k) → k0 = []) as Hf by (intros w; apply finish_EndTop).
  destruct m; cbn [step] in Hs; cbn [nested] in Hn.
  - case_match; [by simplify_eq|]. by apply Hb in Hs.
  - destruct (is_space c); [by simplify_eq|]. destruct (ceq c "]"); [done|]. by apply Hb in Hs.
  - destruct (is_space c); [by simplify_eq|]. destruct (ceq c "}"); [by rewrite orb_true_r|].
    by case_match; simplify_eq.
  - by repeat case_match; simplify_eq.
  - by repeat case_match; simplify_eq.
  - unfold after_value in Hs. destruct (is_space c); [by simplify_eq|].
    destruct k0 as [|[]]; [done|..];
      (destruct (ceq c ","); [done|]); cbn [snd] in Hs.
    + by destruct (ceq c "]").
    + destruct (ceq c "}"); [by rewrite orb_true_r|done].
  - done.
  - destruct s, (ceq c quote_char); simplify_option_eq; try done.
    unfold end_string in Hs. destruct k0 as [|[|? []] ?]; simplify_eq/=.
  - destruct (num_step s c); [by simplify_eq|]. destruct (num_final s); [|done].
    destruct (finish (JNum (rev acc)) k0) as [st1|] eqn:E; [|done]. cbn [mbind option_bind] in Hs.
    destruct k0 as [|[|? []] ?]; simplify_eq/=; unfold after_value in Hs;
      (destruct (is_space c); [by simplify_eq|]); (destruct (ceq c ","); [done|]); cbn [snd] in Hs.
    + by destruct (ceq c "]").
    + destruct (ceq c "}"); [by rewrite orb_true_r|done].
  - destruct rest as [|x rest]; [done|]. destruct (ceq c x); [|done].
    destruct rest; [|done]. by apply Hf in Hs.
Qed.

Lemma read_value_nested p rest fin st v k :
  nested st → scan p st = Some (EndTop v, k) → read_value (p ++ rest) fin st = Ok v.
Proof.
  revert st. induction p as [|c p IH]; intros st Hn; cbn [scan app read_value].
  { by intros [= ->]. }
  destruct (step c st) as [st'|] eqn:Es; [|done]. cbn [mbind option_bind]. intros Hs.
  assert (scan_end c st = None) as ->.
  { destruct st as [m k0]. destruct m; try done. cbn. by destruct k0. }
  destruct (inside_nested st') as [Hn'|(v' & k' & ->)].
  - eapply step_inside; [exact Es|by apply nested_inside].
  - assert (closed c st' = None) as -> by (by destruct st' as [[] ?]). by apply IH.
  - cbn [closed]. rewrite (step_closes c st v' k') by done. f_equal.
    apply scan_EndTop in Hs. by injection Hs.
Qed.

(** An object is read as soon as it is closed, whatever follows it and however
    the reader ends. *)
Lemma read_value_object p rest fin v :
  parse ("{"%char :: p) = Some v → read_value ("{"%char :: p ++ rest) fin initial = Ok v.
Proof.
  unfold parse. cbn [scan read_value]. change (step "{" initial) with (Some (BeginKeyOrEmpty, [FObj [] None])).
  cbn [mbind option_bind scan_end closed initial].
  destruct (scan p _) as [st|] eqn:E; [|done]. cbn [mbind option_bind]. intros He.
  destruct (eof_inside _ _ He) as [k ->]; [by eapply scan_inside|].
  by eapply read_value_nested.
Qed.

(** ** A text without a complete value *)

Lemma scan_end_eof c st v : scan_end c st = Some v → eof st = Some v.
Proof.
  destruct st as [m k]. unfold scan_end. destruct m; try done; intros H.
  destruct k; [|done]. destruct (num_step s c); [done|]. destruct (num_final s) eqn:Ef; [|done].
  injection H as <-. unfold eof. cbn [step]. by rewrite (delimiter_num s " ") , Ef.
Qed.

Lemma closed_eof c st v : closed c st = Some v → eof st = Some v.
Proof. destruct st as [[] k]; try done. cbn [closed]. case_match; [|done]. by intros [= ->]. Qed.

(** What is read is the value of a piece at the front of the text. *)
Lemma read_value_Ok l fin st v : read_value l fin st = Ok v →
  ∃ l1 l2 st1, l = l1 ++ l2 ∧ scan l1 st = Some st1 ∧ eof st1 = Some v.
Proof.
  revert st. induction l as [|c l IH]; intros st; cbn [read_value].
  { destruct fin; [done|]. destruct (eof st) as [w|] eqn:E; [|done]. intros [= <-]. by exists [], [], st. }
  destruct (scan_end c st) as [w|] eqn:Ee.
  { intros [= <-]. exists [], (c :: l), st. split_and!; [done..|]. by eapply scan_end_eof. }
  destruct (step c st) as [st'|] eqn:Es; [|done]. destruct (closed c st') as [w|] eqn:Ec.
  - intros [= <-]. exists [c], l, st'. split_and!; [done| |by eapply closed_eof]. cbn [scan]. by rewrite Es.
  - intros (l1 & l2 & st1 & -> & Hs & He)%IH. exists (c :: l1), l2, st1. split_and!; [done| |done].
    cbn [scan]. by rewrite Es.
Qed.

Lemma read_value_prefix l fin v : read_value l fin initial = Ok v → ∃ l1 l2, l = l1 ++ l2 ∧ parse l1 = Some v.
Proof.
  intros (l1 & l2 & st1 & -> & Hs & He)%read_value_Ok. exists l1, l2. split; [done|].
  unfold parse. by rewrite Hs.
Qed.

(** When nothing is read, a byte was refused, or the reader ended first. *)
Lemma read_value_Err l fin st e : read_value l fin st = Err e →
  e = ErrSyntax ∨ is_Some (scan l st) ∧ e = default ErrUnexpectedEOF fin.
Proof.
  revert st. induction l as [|c l IH]; intros st; cbn [read_value scan].
  { intros H. right. split; [by exists st|]. destruct fin; [by injection H|]. destruct (eof st); by simplify_eq. }
  destruct (scan_end c st); [done|]. destruct (step c st) as [st'|]; cbn [mbind option_bind]; [|intros [= <-]; by left].
  destruct (closed c st'); [done|]. apply IH.
Qed.

(** Without a complete value the two are told apart by the scanner. *)
Lemma read_value_broken l fin st :
  (∀ l1 l2 st1, l = l1 ++ l2 → scan l1 st = Some st1 → eof st1 = None) →
  read_value l fin st = Err (if decide (is_Some (scan l st)) then default ErrUnexpectedEOF fin else ErrSyntax).
Proof.
  revert st. induction l as [|c l IH]; intros st Hb; cbn [read_value].
  { cbn [scan]. rewrite decide_True by eauto. rewrite (Hb [] [] st eq_refl eq_refl). by destruct fin. }
  assert (scan_end c st = None) as ->.
  { destruct (scan_end c st) as [v|] eqn:E; [|done]. apply scan_end_eof in E. by rewrite (Hb [] (c :: l) st) in E. }
  destruct (step c st) as [st'|] eqn:Es; cbn [scan]; rewrite Es; cbn [mbind option_bind].
  2: { by rewrite decide_False by (by intros []). }
  assert (closed c st' = None) as ->.
  { destruct (closed c st') as [v|] eqn:E; [|done]. apply closed_eof in E.
    rewrite (Hb [c] l st') in E; [done..|]. cbn [scan]. by rewrite Es. }
  apply IH. intros l1 l2 st1 -> Hs. apply (Hb (c :: l1) l2 st1); [done|]. cbn [scan]. by rewrite Es.
Qed.

Lemma read_value_incomplete l fin :
  (∀ l1 l2, l = l1 ++ l2 → parse l1 = None) →
  read_value l fin initial =
    Err (if decide (is_Some (scan l initial)) then default ErrUnexpectedEOF fin else ErrSyntax).
Proof.
  intros Hb. apply read_value_broken. intros l1 l2 st1 E Hs. specialize (Hb l1 l2 E).
  unfold parse in Hb. by rewrite Hs in Hb.
Qed.

(** ** The strings of a value are pieces of the text *)

(** The bytes of the strings and numbers of a tree. *)
Fixpoint jsize (j : json) : nat :=
  match j with
  | JNum lit => length lit
  | JStr raw => length raw
  | JArr l => sum_list_with jsize l
  | JObj m => sum_list_with (λ kv, (length kv.1 + jsize kv.2)%nat) m
  | _ => 0
  end.

Definition msize (kv : bytes * json) : nat := (length kv.1 + jsize kv.2)%nat.

Definition fsize (f : frame) : nat :=
  match f with
  | FArr l => sum_list_with jsize l
  | FObj m key => (sum_list_with msize m + length (default [] key))%nat
  end.

Definition ssize (st : pstate) : nat :=
  (match st.1 with
   | EndTop v | InLit _ v => jsize v
   | InStr _ acc | InNum _ acc => length acc
   | _ => 0
   end + sum_list_with fsize st.2)%nat.

Lemma sum_list_with_rev {A} (f : A → nat) l : sum_list_with f (rev l) = sum_list_with f l.
Proof. by rewrite <- Permutation_rev. Qed.

Lemma jsize_obj m : jsize (JObj m) = sum_list_with msize m.
Proof. done. Qed.

Ltac size :=
  repeat progress (unfold ssize, msize in *;
    cbn [fst snd sum_list_with fsize jsize length default option_map fmap from_option id] in *;
    rewrite ?sum_list_with_rev, ?length_rev in *).

Lemma finish_size v k st : finish v k = Some st → ssize st = (jsize v + sum_list_with fsize k)%nat.
Proof. destruct k as [|[l|m [key|]] k]; intros [= <-]; size; lia. Qed.

Lemma begin_value_size c k st : begin_value c k = Some st → (ssize st <= S (sum_list_with fsize k))%nat.
Proof.
  unfold begin_value, open_frame. intros H. repeat case_match; simplify_eq; size; lia.
Qed.

Lemma after_value_size c st st' : after_value c st = Some st' → (ssize st' <= ssize st)%nat.
Proof.
  destruct st as [m k]. unfold after_value, close_array, close_object. intros H.
  repeat case_match; simplify_eq/=; try (apply finish_size in H as ->); size; lia.
Qed.

Lemma step_size c st st' : step c st = Some st' → (ssize st' <= S (ssize st))%nat.
Proof.
  destruct st as [m k]. intros H. destruct m; cbn [step] in H.
  - destruct (is_space c); [simplify_eq; lia|]. apply begin_value_size in H. size. lia.
  - destruct (is_space c); [simplify_eq; lia|]. destruct (ceq c "]").
    + destruct k as [|[l|] k]; try done. apply finish_size in H as ->. size. lia.
    + apply begin_value_size in H. size. lia.
  - destruct (is_space c); [simplify_eq; lia|]. destruct (ceq c "}").
    + destruct k as [|[|l []] k]; try done. apply finish_size in H as ->. size. lia.
    + destruct (ceq c quote_char); simplify_eq. size. lia.
  - repeat case_match; simplify_eq; size; lia.
  - repeat case_match; simplify_eq; size; lia.
  - apply after_value_size in H. lia.
  - apply after_value_size in H. lia.
  - destruct s, (ceq c quote_char); try (simplify_option_eq; size; lia).
    unfold end_string in H. destruct k as [|[l|l [key|]] k]; try (apply finish_size in H as ->; size; lia).
    simplify_eq. size. lia.
  - destruct (num_step s c); [simplify_eq; size; lia|]. destruct (num_final s); [|done].
    destruct (finish (JNum (rev acc)) k) as [st1|] eqn:E; [|done]. cbn [mbind option_bind] in H.
    apply after_value_size in H. apply finish_size in E. size. lia.
  - destruct rest as [|x rest]; [done|]. destruct (ceq c x); [|done].
    destruct rest; [apply finish_size in H as ->|simplify_eq]; size; lia.
Qed.

Lemma eof_size st v : eof st = Some v → (jsize v <= ssize st)%nat.
Proof.
  unfold eof. destruct st as [m k]. destruct (step " " (m, k)) as [[[] k']|] eqn:E; try done. intros [= <-].
  destruct m; cbn [step] in E; try (apply after_value_size in E; size; lia);
    try by (change (is_space " ") with true in E; simplify_eq).
  - destruct s; simplify_option_eq; done.
  - destruct (num_step s " "); [done|]. destruct (num_final s); [|done].
    destruct (finish (JNum (rev acc)) k) as [st1|] eqn:Ef; [|done]. cbn [mbind option_bind] in E.
    apply after_value_size in E. apply finish_size in Ef. size. lia.
  - destruct rest as [|x rest]; [done|]. destruct (ceq " " x); [|done].
    destruct rest; [apply finish_size in E; size; lia|done].
Qed.

Lemma read_value_size l fin st v : read_value l fin st = Ok v → (jsize v <= ssize st + length l)%nat.
Proof.
  revert st. induction l as [|c l IH]; intros st; cbn [read_value].
  { destruct fin; [done|]. destruct (eof st) eqn:E; [|done]. intros [= <-]. apply eof_size in E. simpl. lia. }
  destruct (scan_end c st) as [w|] eqn:Ee.
  { intros [= <-]. destruct st as [m k]. destruct m; cbn [scan_end] in Ee; simplify_eq; [size; lia|].
    destruct k; [|done]. repeat case_match; simplify_eq; size; lia. }
  destruct (step c st) as [st'|] eqn:Es; [|done]. apply step_size in Es.
  destruct (closed c st') as [w|] eqn:Ec.
  - intros [= <-]. destruct st' as [[] k]; try done. cbn [closed] in Ec. case_match; simplify_eq. size. lia.
  - intros Hr. apply IH in Hr. cbn [length]. lia.
Qed.
