(* ===== verification/GoHttp.v ===== *)
(** * What the handlers use of [net/url] and [net/http]

    Query strings, and a request multiplexer whose patterns are a method and an
    exact path.  Paths are clean ([path.Clean] leaves them alone): the
    multiplexer redirects others before any handler runs. *)

From S2P Require Import Prelude GoStrconv GoUtf8 GoJson GoJsonStream.
From Stdlib Require Import Ascii.

Local Open Scope Z_scope.

(** ** Query strings *)

(** [strings.Cut(s, sep)]: what precedes the separator and what follows. *)
Fixpoint cut (sep : ascii) (l : bytes) : bytes * bytes :=
  match l with
  | [] => ([], [])
  | c :: l => if ceq c sep then ([], l) else let '(x, y) := cut sep l in (c :: x, y)
  end.

(** [url.QueryUnescape]; [None] is its error. *)
Fixpoint query_unescape (l : bytes) : option bytes :=
  match l with
  | [] => Some []
  | c :: l =>
      if ceq c "%" then
        match l with
        | a :: b :: l =>
            match hex_val a, hex_val b with
            | Some x, Some y => cons (byte_of (16 * x + y)) <$> query_unescape l
            | _, _ => None
            end
        | _ => None
        end
      else cons (if ceq c "+" then " "%char else c) <$> query_unescape l
  end.

(** One [key=value] of a query; a pair with a semicolon or a bad escape is
    skipped. *)
Definition query_pair (p : bytes) : option (bytes * bytes) :=
  if existsb (ceq ";") p then None
  else
    let '(k, v) := cut "=" p in
    k ← query_unescape k; v ← query_unescape v; Some (k, v).

(** The pieces between ampersands. *)
Fixpoint split_amp (acc l : bytes) : list bytes :=
  match l with
  | [] => [rev acc]
  | c :: l => if ceq c "&" then rev acc :: split_amp [] l else split_amp (c :: acc) l
  end.

(** [url.Query()]: the pairs of a raw query in order. *)
Definition parse_query (raw : bytes) : list (bytes * bytes) :=
  omap query_pair (filter (λ p, p ≠ []) (split_amp [] raw)).

(** [Values.Get(key)]: the first value, or the empty string. *)
Definition query_get (key : string) (raw : bytes) : string :=
  match list_find (λ kv, kv.1 = to_bytes key) (parse_query raw) with
  | Some (_, kv) => of_bytes kv.2
  | None => ""
  end.

(** ** Requests and responses *)

Record Request := MkRequest {
  rq_method : string;
  rq_path : string;
  rq_query : bytes;
  rq_body : reader
}.

Record Response := MkResponse {
  rs_status : Z;
  rs_type : string;          (** Content-Type *)
  rs_body : bytes
}.

Definition StatusOK : Z := 200.
Definition StatusCreated : Z := 201.
Definition StatusNoContent : Z := 204.
Definition StatusBadRequest : Z := 400.
Definition StatusNotFound : Z := 404.
Definition StatusMethodNotAllowed : Z := 405.
Definition StatusRequestEntityTooLarge : Z := 413.
Definition StatusInternalServerError : Z := 500.
Definition StatusServiceUnavailable : Z := 503.

(** [http.Error(w, text, status)]. *)
Definition http_Error (text : string) (status : Z) : Response :=
  MkResponse status "text/plain; charset=utf-8" (to_bytes text ++ ["010"%char]).

(** ** The multiplexer *)

Section mux.
Context {H : Type}.

Record pattern := MkPattern { pt_method : string; pt_path : string; pt_handler : H }.

(** A GET pattern also serves HEAD. *)
Definition serves_method (p m : string) : bool :=
  bool_decide (p = m) || (bool_decide (p = "GET") && bool_decide (m = "HEAD")).

Inductive route := Found (h : H) | NoMethod | NoPath.

Definition find_route (ps : list pattern) (method path : string) : route :=
  match filter (λ p, pt_path p = path) ps with
  | [] => NoPath
  | here =>
      match list_find (λ p, pt_method p = method) here, list_find (λ p, serves_method (pt_method p) method = true) here with
      | Some (_, p), _ | None, Some (_, p) => Found (pt_handler p)
      | None, None => NoMethod
      end
  end.
End mux.

Arguments pattern : clear implicits.
Arguments route : clear implicits.
