(* ===== verification/RecordSize.v ===== *)
(** * How long a record can get

    Upper bounds for the JSON of integers, instants and strings, and for the
    line of an ENQUEUE record in terms of its payload. *)

From S2P Require Import Prelude GoTime GoStrconv GoUtf8 GoJson GoJsonFacts GoTimeFormat Model.
From S2P Require Import Codec CodecFacts LogRecord.
From S2P Require Wal WalTheorems.
From Stdlib Require Import Ascii.

Local Open Scope Z_scope.

Lemma digits_loop_length k fuel n acc : 0 <= n < 10 ^ (1 + Z.of_nat k) →
  (length (digits_loop fuel n acc) <= S k + length acc)%nat.
Proof.
  revert k n acc. induction fuel as [|fuel IH]; intros k n acc Hn; cbn [digits_loop]; [lia|].
  destruct (Z.ltb_spec n 10); [simpl; lia|]. destruct k as [|k].
  { change (10 ^ (1 + Z.of_nat 0)) with 10 in Hn. lia. }
  etrans; [apply (IH k)|simpl; lia].
  replace (1 + Z.of_nat (S k)) with (Z.succ (1 + Z.of_nat k)) in Hn by lia. rewrite Z.pow_succ_r in Hn by lia.
  split; [apply Z.div_pos; lia|apply Z.div_lt_upper_bound; lia].
Qed.

Lemma format_uint_length n : in_u64 n → (length (format_uint n) <= 20)%nat.
Proof. intros Hn. apply (digits_loop_length 19 _ n []). unfold in_u64 in Hn. simpl. lia. Qed.

Lemma format_int_length n : in_i64 n → (length (format_int n) <= 20)%nat.
Proof.
  unfold in_i64, format_int. intros Hn. destruct (Z.ltb_spec n 0); cbn [length].
  - apply le_n_S, (digits_loop_length 18 _ (- n) []). simpl. lia.
  - etrans; [apply (digits_loop_length 18 _ n []); simpl; lia|simpl; lia].
Qed.

Lemma length_pad k n : length (pad k n) = k.
Proof. revert n. induction k as [|k IH]; intros n; [done|]. cbn [pad]. rewrite length_app, IH. simpl. lia. Qed.

Lemma length_trim_zeros l : (length (trim_zeros l) <= length l)%nat.
Proof.
  unfold trim_zeros. rewrite length_rev, <- (length_rev l). generalize (rev l) as k.
  induction k as [|c k IH]; cbn [drop_zeros]; [done|]. case_match; simpl; lia.
Qed.

Lemma format_rfc3339_length t l : format_rfc3339 t = Some l → (length l <= 36)%nat.
Proof.
  unfold format_rfc3339. destruct (formattable t); [|done]. intros E. apply (inj Some) in E as <-.
  generalize (civil t) as c. intros c. assert (length (format_nanos (c_nsec c)) <= 10)%nat as Hn.
  { unfold format_nanos. case_match; [simpl; lia|]. cbn [length].
    pose proof (length_trim_zeros (pad 9 (c_nsec c))) as H1. rewrite length_pad in H1. lia. }
  assert (length (format_zone (t_zone t)) <= 6)%nat as Hz.
  { unfold format_zone. case_match; [simpl; lia|]. cbn [length]. rewrite length_app. cbn [length]. rewrite !length_pad. lia. }
  unfold format_civil. repeat (rewrite ?length_app, ?length_pad; cbn [length]). lia.
Qed.

Lemma length_quote l : (length (quote l) <= 6 * length l)%nat.
Proof.
  unfold quote. rewrite <- (chunks_bytes l) at 2. induction (chunks_wf l) as [|ch cs Hw _ IH]; [done|].
  csimpl. rewrite !length_app. pose proof (length_quote_chunk ch Hw).
  assert (1 <= length (chunk_bytes ch))%nat; [|lia]. inversion Hw; simpl; lia.
Qed.

(** ** Objects *)

Abbreviation line := (render (λ _, []) [":"%char]).

(** The bytes of a member with its quotes, colon and comma. *)
Definition cost (kv : bytes * json) : nat := (length kv.1 + length (line 1%nat kv.2) + 4)%nat.

Lemma join_cost sep l : (length (join sep l) <= sum_list_with (λ x, length x + length sep) l)%nat.
Proof.
  induction l as [|x l IH]; [done|]. destruct l as [|y l]; [cbn; lia|].
  change (join sep (x :: y :: l)) with (x ++ sep ++ join sep (y :: l)).
  rewrite !length_app. cbn [sum_list_with] in *. lia.
Qed.

Lemma compact_object_length m : (length (compact (JObj m)) <= sum_list_with cost m + 2)%nat.
Proof.
  destruct m as [|x m]; [cbn; lia|]. rewrite compact_object. cbn [length]. rewrite length_app. cbn [length].
  match goal with |- context [length (join ?sep ?ls)] => pose proof (join_cost sep ls) as Hj end.
  assert (sum_list_with (λ x, length x + length [","%char])
    (map (λ kv, in_quotes kv.1 ++ [":"%char] ++ line 1 kv.2) (x :: m)) = sum_list_with cost (x :: m))%nat as E.
  { generalize (x :: m) as k. intros k. induction k as [|[key v] k IH]; [done|]. cbn [map sum_list_with].
    rewrite IH. unfold cost, in_quotes. cbn [fst snd]. rewrite !length_app. cbn [length]. rewrite length_app. cbn [length]. lia. }
  lia.
Qed.

Lemma enc_time_length t j : enc_time t = Some j → (length (line 1 j) <= 38)%nat.
Proof.
  unfold enc_time. destruct (format_rfc3339 t) as [l|] eqn:E; [|done]. intros [= <-].
  apply format_rfc3339_length in E. cbn. unfold in_quotes. cbn [length]. rewrite length_app. cbn [length]. lia.
Qed.

Lemma enc_string_length s : (length (line 1 (enc_string s)) = length (quote (to_bytes s)) + 2)%nat.
Proof. cbn. unfold in_quotes. cbn [length]. rewrite length_app. cbn [length]. lia. Qed.

Lemma cost_field name j : cost (field name j) = (String.length name + length (line 1 j) + 4)%nat.
Proof. unfold cost, field. cbn [fst snd]. by rewrite length_to_bytes. Qed.

Lemma cost_omit b name j : (sum_list_with cost (omit_empty b name j) <= cost (field name j))%nat.
Proof. destruct b; cbn; lia. Qed.

(** The line of an ENQUEUE record: its payload and ID, and at most 500 bytes
    more. *)
Lemma enqueue_entry_size io msg w b :
  message_ok msg → time_ok (UTC (Wal.io_now io)) = true → m_Status msg = StatusPending →
  marshal (WalTheorems.enqueue_entry io msg w) = Some b →
  (length b <= length (quote (to_bytes (Payload msg))) + 6 * String.length (ID msg) + 500)%nat.
Proof.
  intros [Hs Hp _ _] _ Hst. cbn [marshal json_codec]. unfold entry_json.
  cbn [WalTheorems.enqueue_entry TS le_EnqueuedAt le_AvailableAt enc_opt_time].
  destruct (enc_time (UTC (Wal.io_now io))) as [jt|] eqn:Et; [|done].
  destruct (enc_time (EnqueuedAt msg)) as [je|] eqn:Ee; [|done].
  destruct (enc_time (AvailableAt msg)) as [ja|] eqn:Ea; [|done].
  cbn [mbind option_bind fmap option_fmap option_map]. intros [= <-].
  etrans; [apply compact_object_length|]. cbn [sum_list_with]. rewrite !sum_list_with_app.
  assert ((if bool_decide (m_Status msg = "") then StatusPending else m_Status msg) = StatusPending) as Est by (by rewrite Hst).
  cbn [WalTheorems.enqueue_entry le_Status]. rewrite Est.
  cbn [WalTheorems.enqueue_entry V Op le_Seq le_ID MsgSeq le_Payload le_Priority le_Status sum_list_with].
  apply enc_time_length in Et, Ee, Ea.
  pose proof (cost_omit (bool_decide (ID msg = "")) "id" (enc_string (ID msg))) as C1.
  pose proof (cost_omit (Seq msg =? 0) "msg_seq" (enc_uint (Seq msg))) as C2.
  pose proof (cost_omit (bool_decide (Payload msg = "")) "payload" (enc_string (Payload msg))) as C3.
  pose proof (cost_omit (bool_decide (StatusPending = "")) "status" (enc_string StatusPending)) as C4.
  pose proof (format_uint_length _ Hs) as L1. pose proof (format_int_length _ Hp) as L2.
  assert (length (format_uint (wrap_u64 (Wal.w_seq w + 1))) <= 20)%nat as L3
    by (apply format_uint_length; unfold wrap_u64, in_u64; apply Z.mod_pos_bound; lia).
  pose proof (length_quote (to_bytes (ID msg))) as L4. rewrite length_to_bytes in L4.
  rewrite !cost_field, !enc_string_length in *. cbn [String.length] in *.
  assert (length (quote (to_bytes StatusPending)) = 7)%nat as E1 by done. rewrite E1 in *.
  assert (length (quote (to_bytes OP_ENQUEUE)) = 7)%nat as -> by done.
  assert (length (line 1 (enc_int Wal.recordVersion)) = 1)%nat as -> by done.
  cbn [line enc_uint enc_int render] in *. lia.
Qed.

(** The line of a DEQUEUE record: its ID and at most 300 bytes more. *)
Lemma dequeue_entry_size io id w b :
  marshal (WalTheorems.dequeue_entry io id w) = Some b → (length b <= 6 * String.length id + 300)%nat.
Proof.
  cbn [marshal json_codec]. unfold entry_json.
  cbn [WalTheorems.dequeue_entry TS le_EnqueuedAt le_AvailableAt enc_opt_time].
  destruct (enc_time (UTC (Wal.io_now io))) as [jt|] eqn:Et; [|done].
  cbn [mbind option_bind fmap option_fmap option_map]. intros [= <-].
  etrans; [apply compact_object_length|]. cbn [sum_list_with]. rewrite !sum_list_with_app.
  cbn [WalTheorems.dequeue_entry V Op le_Seq le_ID MsgSeq le_Payload le_Priority le_Status].
  apply enc_time_length in Et. cbn [omit_empty bool_decide sum_list_with].
  pose proof (cost_omit (bool_decide (id = "")) "id" (enc_string id)) as C1.
  assert (length (format_uint (wrap_u64 (Wal.w_seq w + 1))) <= 20)%nat as L3
    by (apply format_uint_length; unfold wrap_u64, in_u64; apply Z.mod_pos_bound; lia).
  pose proof (length_quote (to_bytes id)) as L4. rewrite length_to_bytes in L4.
  rewrite !cost_field, !enc_string_length in *. cbn [String.length] in *.
  assert (length (quote (to_bytes OP_DEQUEUE)) = 7)%nat as -> by done.
  assert (length (line 1 (enc_int Wal.recordVersion)) = 1)%nat as -> by done.
  cbn in *. lia.
Qed.
