(* ===== verification/Api.v ===== *)
(** * [pkg/api]: the HTTP handlers

    A handler is a function of the request and of the state behind the [Queue]
    interface; [None] is a panic that unwinds to [recoverMiddleware].  What the
    queue gets from outside at a call (clock, random bytes, file system) is an
    [Env] the handlers pass on. *)

From S2P Require Import Prelude GoTime GoStrconv GoUtf8 GoJson Model Codec LogRecord.
From S2P Require Import GoJsonStream GoHttp.
From S2P Require Wal Service.
From Stdlib Require Import Ascii.

Local Open Scope Z_scope.

Definition maxEnqueueBodyBytes : Z := Z.shiftl 1 20.
Definition defaultMessageLimit : Z := 100.
Definition maxMessageLimit : Z := 1000.
Definition defaultWalLimit : Z := 50.
Definition maxWalLimit : Z := 500.

(** ** The service surface *)

Class Queue (E St : Type) := {
  q_Enqueue : E → EnqueueRequest → St → option (result Message * St);
  q_Dequeue : E → St → option (result (option Message) * St);
  q_Stats : E → St → option (QueueStats * St);
  q_Snapshot : E → Z → St → option (QueueSnapshot * St);
  q_WalTail : E → Z → St → result Model.WalTail
}.

(** What the environment does to one call of the service. *)
Record Env := MkEnv {
  e_now : Time;
  e_random : result (list Z);
  e_append : Wal.append_io;
  e_read : Wal.read_io
}.

(** [*service.QueueService] implements [Queue]; its state includes the log. *)
#[export] Instance service_queue `{LogCodec} : Queue Env (Service.QueueService * Wal.File) := {
  q_Enqueue env req st :=
    '(r, s, f) ← Service.Enqueue (e_now env) (e_random env) (e_append env) req st.1 st.2; Some (r, (s, f));
  q_Dequeue env st :=
    '(r, s, f) ← Service.Dequeue (e_now env) (e_append env) st.1 st.2; Some (r, (s, f));
  q_Stats env st := '(r, s) ← Service.Stats (e_now env) st.1; Some (r, (s, st.2));
  q_Snapshot env limit st := '(r, s) ← Service.Snapshot (e_now env) limit st.1; Some (r, (s, st.2));
  q_WalTail env limit st := Service.WalTail (e_read env) limit st.1 st.2
}.

(** ** Error texts *)

Definition newline : ascii := "010"%char.

Definition var_text (name : string) : string :=
  if decide (name = "service.ErrClosed") then "queue service is closed"
  else if decide (name = "storage.ErrClosed") then "wal is closed"
  else if decide (name = "storage.ErrEmptyID") then "message id must not be empty"
  else name.

Section handlers.
(** [q] is [strconv.Quote], the verb [%q]; [consoleHTML] is the embedded page. *)
Context (q : string → string) (consoleHTML : bytes).

(** [err.Error()]. *)
Fixpoint error_text (e : error) : string :=
  match e with
  | ErrVar name => var_text name
  | ErrNew text => text
  | ErrQuoted before quoted after => before +:+ q quoted +:+ after
  | ErrWrap context e => context +:+ ": " +:+ error_text e
  | ErrWrapQuoted context quoted e => context +:+ " " +:+ q quoted +:+ ": " +:+ error_text e
  | ErrWrapAfter e after => error_text e +:+ after
  | ErrJoin e1 e2 => error_text e1 +:+ String newline "" +:+ error_text e2
  end.

(** ** Responses *)

Definition one_field (name value : string) : json := JObj [field name (enc_string value)].

(** [writeJSON(w, status, v)]; [v] as a tree, or [None] when it cannot be
    marshalled. *)
Definition writeJSON (status : Z) (v : option json) : Response :=
  match MarshalIndent v with
  | None =>
      MkResponse StatusInternalServerError "application/json"
        (indented (one_field "error" "failed to encode response") ++ [newline])
  | Some body => MkResponse status "application/json" (body ++ [newline])
  end.

Definition writeError (status : Z) (msg : string) : Response :=
  writeJSON status (Some (one_field "error" msg)).

Definition writeServiceError (err : error) : Response :=
  if errors_Is err "service.ErrClosed" then writeError StatusServiceUnavailable (error_text err)
  else writeError StatusInternalServerError (error_text err).

(** ** Handlers *)

Context {E St : Type} `{Queue E St}.

Definition enqueue (env : E) (r : Request) (st : St) : option (Response * St) :=
  match Decode dec_request (MaxBytes (Z.to_nat maxEnqueueBodyBytes) (rq_body r)) zero_request with
  | Err err =>
      if errors_Is err "http.MaxBytesError"
      then Some (writeError StatusRequestEntityTooLarge "request body too large", st)
      else Some (writeError StatusBadRequest "invalid JSON body", st)
  | Ok req =>
      match Validate req with
      | Some err => Some (writeError StatusBadRequest (error_text err), st)
      | None =>
          '(res, st) ← q_Enqueue env req st;
          match res with
          | Err err => Some (writeServiceError err, st)
          | Ok msg => Some (writeJSON StatusCreated (enc_message msg), st)
          end
      end
  end.

Definition dequeue (env : E) (r : Request) (st : St) : option (Response * St) :=
  '(res, st) ← q_Dequeue env st;
  match res with
  | Err err => Some (writeServiceError err, st)
  | Ok None => Some (MkResponse StatusNoContent "" [], st)
  | Ok (Some msg) => Some (writeJSON StatusOK (enc_message msg), st)
  end.

(** The [limit] parameter of an inspection; [None] is a bad value. *)
Definition limit_param (default max : Z) (r : Request) : option Z :=
  let raw := query_get "limit" (rq_query r) in
  if decide (raw = "") then Some default
  else n ← Atoi raw; if (n <? 1) || (max <? n) then None else Some n.

Definition bad_limit (max : Z) : Response :=
  writeError StatusBadRequest ("limit must be an integer between 1 and " +:+ Itoa max).

Definition messages (env : E) (r : Request) (st : St) : option (Response * St) :=
  match limit_param defaultMessageLimit maxMessageLimit r with
  | None => Some (bad_limit maxMessageLimit, st)
  | Some limit =>
      '(snap, st) ← q_Snapshot env limit st;
      Some (writeJSON StatusOK (enc_snapshot snap), st)
  end.

Definition wal (env : E) (r : Request) (st : St) : option (Response * St) :=
  match limit_param defaultWalLimit maxWalLimit r with
  | None => Some (bad_limit maxWalLimit, st)
  | Some limit =>
      match q_WalTail env limit st with
      | Err err => Some (writeServiceError err, st)
      | Ok tail => Some (writeJSON StatusOK (enc_tail tail), st)
      end
  end.

Definition console (env : E) (r : Request) (st : St) : option (Response * St) :=
  Some (MkResponse StatusOK "text/html; charset=utf-8" consoleHTML, st).

Definition stats (env : E) (r : Request) (st : St) : option (Response * St) :=
  '(s, st) ← q_Stats env st; Some (writeJSON StatusOK (Some (enc_stats s)), st).

Definition health (env : E) (r : Request) (st : St) : option (Response * St) :=
  Some (writeJSON StatusOK (Some (one_field "status" "healthy")), st).

(** ** Routing *)

Definition NewHandler : list (pattern (E → Request → St → option (Response * St))) :=
  [MkPattern "POST" "/enqueue" enqueue;
   MkPattern "POST" "/dequeue" dequeue;
   MkPattern "GET" "/dequeue" dequeue;
   MkPattern "GET" "/messages" messages;
   MkPattern "GET" "/wal" wal;
   MkPattern "GET" "/stats" stats;
   MkPattern "GET" "/health" health;
   MkPattern "GET" "/" console].

(** [recoverMiddleware]: the state after a panic is not known. *)
Definition recoverMiddleware (res : option (Response * St)) : Response * option St :=
  match res with
  | Some (resp, st) => (resp, Some st)
  | None => (writeError StatusInternalServerError "internal server error", None)
  end.

(** The server sends no body in answer to HEAD. *)
Definition send (r : Request) (resp : Response) : Response :=
  if decide (rq_method r = "HEAD") then MkResponse (rs_status resp) (rs_type resp) [] else resp.

(** What the multiplexer does with the route it found. *)
Definition dispatch (rt : route (E → Request → St → option (Response * St)))
    (env : E) (r : Request) (st : St) : option (Response * St) :=
  match rt with
  | Found h => h env r st
  | NoMethod => Some (http_Error "Method Not Allowed" StatusMethodNotAllowed, st)
  | NoPath => Some (http_Error "404 page not found" StatusNotFound, st)
  end.

Definition ServeHTTP (env : E) (r : Request) (st : St) : Response * option St :=
  let '(resp, st) :=
    recoverMiddleware (dispatch (find_route NewHandler (rq_method r) (rq_path r)) env r st) in
  (send r resp, st).
End handlers.
