(* ===== verification/ApiLaws.v ===== *)
(** * What the handlers need of a queue

    [QueueLaws] states what an implementation of the [Queue] interface promises:
    calls return, keep a state predicate, account for every message, and give
    values that can be marshalled.  The theorems on the handlers are proved
    against it; the service on a log in JSON implements it. *)

From S2P Require Import Prelude GoTime GoStrconv GoUtf8 GoJson GoJsonFacts GoTimeFormat Model.
From S2P Require Import Codec CodecFacts LogRecord Engine EngineSpec EngineRefine EngineTheorems.
From S2P Require Wal WalFacts WalTheorems.
From S2P Require Import RecordSize.
From S2P Require Service ServiceFacts ServiceTrace.
From S2P Require Import GoJsonStream GoHttp Api.
From Stdlib Require Import Ascii.

Import ServiceFacts (held, storable, readable, new_message, st_ok).
Import ServiceTrace (Config, MkConfig, good, clock, room, answers, random_block, may_enqueue, may_dequeue).

Local Open Scope Z_scope.

(** A request whose payload, written as JSON, takes at most six times the
    largest accepted body. *)
Record fits (req : EnqueueRequest) : Prop := {
  ft_payload : Z.of_nat (length (quote (to_bytes (r_Payload req)))) <= 6 * maxEnqueueBodyBytes;
  ft_priority : in_i64 (r_Priority req)
}.

Class QueueLaws {E St : Type} (Q : Queue E St) := {
  queue_ok : St → Prop;
  (** the environment answers a call in a way the queue can live with *)
  call_ok : E → St → Prop;
  contents : St → list Message;
  call_queue_ok env st : call_ok env st → queue_ok st;
  law_Enqueue env req st : call_ok env st → fits req →
    ∃ r st', q_Enqueue env req st = Some (r, st') ∧ queue_ok st' ∧
      match r with
      | Ok m => message_ok m ∧ Payload m = r_Payload req ∧ Priority m = r_Priority req
          ∧ contents st' ≡ₚ m :: contents st
      | Err _ => contents st' ≡ₚ contents st
      end;
  law_Dequeue env st : call_ok env st →
    ∃ r st', q_Dequeue env st = Some (r, st') ∧ queue_ok st' ∧
      match r with
      | Ok (Some m) => message_ok m ∧ contents st ≡ₚ m :: contents st'
      | _ => contents st' ≡ₚ contents st
      end;
  law_Stats env st : call_ok env st →
    ∃ s st', q_Stats env st = Some (s, st') ∧ queue_ok st' ∧ contents st' ≡ₚ contents st ∧ stats_ok s;
  law_Snapshot env limit st : call_ok env st →
    ∃ v st', q_Snapshot env limit st = Some (v, st') ∧ queue_ok st' ∧ contents st' ≡ₚ contents st
      ∧ snapshot_ok v ∧ Valid (sn_Mode v) = true;
  law_WalTail env limit st t : call_ok env st → q_WalTail env limit st = Ok t →
    Forall (λ b, json_Valid b = true) (wt_Records t)
}.

(** ** The service *)

(** A state the service can be in at some time of some process. *)
Definition service_ok (st : Service.QueueService * Wal.File) : Prop :=
  ∃ off last es bs, good (MkConfig off last st.1 st.2) es bs.

Record service_call (off last : Z) (env : Env) (st : Service.QueueService * Wal.File) : Prop := {
  sc_clock : clock (MkConfig off last st.1 st.2) (e_now env);
  sc_room : room st.1;
  sc_io : answers (e_append env);
  sc_random : match e_random env with Ok b => random_block b | Err _ => True end;
  sc_fresh id : Service.newUUID (e_random env) = Ok id → id ∉ ID <$> held st.1;
  sc_size m : m ∈ held st.1 →
    readable (WalTheorems.dequeue_entry (e_append env) (ID m) (Service.s_wal st.1));
  sc_count : Z.of_nat (length (held st.1)) < 2 ^ 63
}.

Definition service_call_ok (env : Env) (st : Service.QueueService * Wal.File) : Prop :=
  ∃ off last es bs, good (MkConfig off last st.1 st.2) es bs ∧ service_call off last env st.

(** The record of a request that fits can be recovered. *)
Lemma fits_readable io now id req s :
  fits req → message_ok (new_message now id req s) → time_ok (UTC (Wal.io_now io)) = true →
  (String.length id <= 36)%nat →
  readable (WalTheorems.enqueue_entry io (new_message now id req s) (Service.s_wal s)).
Proof.
  intros [Hp _] Hm Ht Hid b Hb. apply enqueue_entry_size in Hb; [|done|done|done].
  cbn [new_message ID Payload] in Hb. unfold maxEnqueueBodyBytes, Wal.maxRecordBytes in *.
  change (Z.shiftl 1 20) with 1048576 in Hp. change (Z.shiftl 16 20) with 16777216.
  rewrite Nat.mul_comm in Hb. lia.
Qed.

Lemma newUUID_length b id : random_block b → Service.newUUID (Ok b) = Ok id → (String.length id <= 36)%nat.
Proof.
  intros Hb. rewrite ServiceTrace.newUUID_text. intros [= <-]. rewrite WalTheorems.length_of_bytes.
  destruct (ServiceTrace.masked_block b Hb) as [Hl _]. set (l := ServiceTrace.masked b) in *. clearbody l.
  do 16 (destruct l as [|? l]; [discriminate Hl|]). destruct l; [|discriminate Hl]. simpl. lia.
Qed.

Lemma service_may_enqueue off last env st es bs req :
  good (MkConfig off last st.1 st.2) es bs → service_call off last env st → fits req → Validate req = None →
  may_enqueue (MkConfig off last st.1 st.2) (e_now env) (e_random env) (e_append env) req.
Proof.
  intros Hg [Hck Hrm Hio Hrand Hfresh Hsz _] Hfit Hv. split; try done; [apply Hfit|].
  intros id Hid. destruct (e_random env) as [b|] eqn:Er; [|done].
  destruct (ServiceTrace.newUUID_id (Ok b) id Hrand Hid) as [Hne Hval].
  destruct (ServiceTrace.new_message_ok (MkConfig off last st.1 st.2) (e_now env) id req Hck Hrm) as (Hst & _); try done;
    [apply Hfit|apply (ServiceFacts.inv_counter _ _ _ _ _ (ServiceTrace.gd_inv _ _ _ Hg))|].
  apply fits_readable; [done|apply Hst| |by eapply newUUID_length].
  by destruct Hio as [(_ & _ & Ht)|[_ Ht]].
Qed.

Lemma held_ok off last st es bs : good (MkConfig off last st.1 st.2) es bs → Forall message_ok (held st.1).
Proof.
  intros [Hi _]. eapply Forall_impl; [apply (ServiceFacts.inv_storable _ _ _ _ _ Hi)|]. apply st_ok.
Qed.

Lemma page_sub limit l m : m ∈ (page limit l).1 → m ∈ fst <$> l.
Proof.
  unfold page. destruct ((0 <? limit) && _); cbn [fst]; [|done].
  intros (e & -> & He)%list_elem_of_fmap. apply list_elem_of_fmap_2.
  by eapply elem_of_take in He as (i & Hi & _); apply list_elem_of_lookup_2 in Hi.
Qed.

Lemma service_snapshot off last env st es bs limit :
  good (MkConfig off last st.1 st.2) es bs → clock (MkConfig off last st.1 st.2) (e_now env) →
  Z.of_nat (length (held st.1)) < 2 ^ 63 →
  ∃ v s', Service.Snapshot (e_now env) limit st.1 = Some (v, s')
    ∧ ServiceTrace.moves (MkConfig off last st.1 st.2) es bs [] [] (MkConfig off (t_wall (e_now env)) s' st.2)
    ∧ held s' ≡ₚ held st.1 ∧ snapshot_ok v ∧ Valid (sn_Mode v) = true.
Proof.
  intros Hg Hck Hn. pose proof (held_ok _ _ _ _ _ Hg) as Hm. pose proof Hg as [Hi Hdue].
  destruct (Snapshot_ok off (Service.s_queue st.1) (UTC (e_now env)) limit) as (q' & Hs & Hwf' & Ha);
    [apply Hi|apply Hck|].
  unfold Service.Snapshot. rewrite Hs. cbn [mbind option_bind].
  eexists _, _. split; [reflexivity|].
  destruct (ServiceTrace.promoted_moves _ _ _ (e_now env) q' Hg Hck Hwf' Ha) as [Hmv _].
  assert (a_contents (abs q') ≡ₚ held st.1) as Hh by (rewrite Ha; apply a_contents_promote).
  assert (Valid (Mode q') = true) as Hmode by apply Hwf'.
  split; [exact Hmv|]. split; [exact Hh|]. split; [|exact Hmode]. split; cbn [sn_Now sn_Stats sn_Ready sn_Delayed].
  - rewrite ServiceTrace.time_ok_UTC. apply ServiceTrace.plausible_time_ok; [apply Hck|unfold Second; lia].
  - apply Permutation_length in Hh. rewrite Ha in Hh. unfold a_contents in Hh. rewrite length_fmap, length_app in Hh.
    cbn [v_ReadyLen v_DelayedLen a_view]. split; cbn [Total s_Available s_Delayed]; unfold in_i64; lia.
  - rewrite Forall_forall in Hm |- *. intros m Hin. apply Hm. rewrite <- Hh, Ha.
    unfold a_contents. rewrite fmap_app. apply elem_of_app in Hin as [Hin|Hin]; apply page_sub in Hin; set_solver.
Qed.

Lemma Tail_valid io n w f t : Wal.Tail io n w f = Ok t → Forall (λ b, json_Valid b = true) (wt_Records t).
Proof.
  unfold Wal.Tail. destruct (negb (Wal.w_open w)); [done|]. destruct (Wal.io_stat io); [done|].
  destruct (Wal.io_seek io); [done|]. destruct (Wal.io_read io) as [[]|]; [done|].
  cbn zeta. set (lines := if 0 <? _ then tl _ else _). intros [= <-]. cbn [wt_Records].
  assert (Forall (λ b, json_Valid b = true) (omap Wal.tail_record lines)) as H.
  { apply Forall_forall. intros b (l & _ & Hb)%list_elem_of_omap. unfold Wal.tail_record in Hb.
    destruct (TrimSpace l) as [|c l']; [done|]. destruct (valid (c :: l')) eqn:E; [|done]. injection Hb as <-. exact E. }
  destruct ((0 <? n) && _); [by apply Forall_drop|done].
Qed.

Lemma service_WalTail_law env limit st t : service_call_ok env st → q_WalTail env limit st = Ok t →
  Forall (λ b, json_Valid b = true) (wt_Records t).
Proof.
  intros _. cbn [q_WalTail service_queue]. unfold Service.WalTail.
  destruct (Service.s_closed _); [done|]. apply Tail_valid.
Qed.

(** The step of a call leads to a state the service can be in. *)
Lemma moves_ok c es bs acc del off last s f :
  ServiceTrace.moves c es bs acc del (MkConfig off last s f) → service_ok (s, f).
Proof. intros Hm. destruct (ServiceTrace.mv_good _ _ _ _ _ _ Hm) as (de & db & Hg & _). by exists off, last, (es ++ de), (bs ++ db). Qed.

Lemma service_Enqueue_law env req st : service_call_ok env st → fits req →
  ∃ r st', q_Enqueue env req st = Some (r, st') ∧ service_ok st' ∧
    match r with
    | Ok m => message_ok m ∧ Payload m = r_Payload req ∧ Priority m = r_Priority req ∧ held st'.1 ≡ₚ m :: held st.1
    | Err _ => held st'.1 ≡ₚ held st.1
    end.
Proof.
  destruct st as [s f]. intros (off & last & es & bs & Hg & Hc) Hfit. cbn [q_Enqueue service_queue fst snd] in *.
  destruct (Validate req) as [e|] eqn:Hv.
  { exists (Err e), (s, f). unfold Service.Enqueue. rewrite Hv. split_and!; [done|by exists off, last, es, bs|done]. }
  pose proof (service_may_enqueue off last env (s, f) es bs req Hg Hc Hfit Hv) as Hmay.
  destruct (ServiceTrace.Enqueue_moves _ _ _ _ _ _ _ Hg Hmay) as (r & s' & f' & He & Hmv & Hr).
  cbn [ServiceTrace.c_svc ServiceTrace.c_file fst snd] in *. rewrite He. exists r, (s', f').
  split_and!; [done|by eapply moves_ok|]. destruct r as [m|e]; [|cbn [fst]; by destruct Hr as [Hr _]; rewrite Hr].
  destruct Hr as (Hst & Hp & Hpr & Hh). split_and!; [apply Hst|done..].
Qed.

Lemma service_Dequeue_law env st : service_call_ok env st →
  ∃ r st', q_Dequeue env st = Some (r, st') ∧ service_ok st' ∧
    match r with
    | Ok (Some m) => message_ok m ∧ held st.1 ≡ₚ m :: held st'.1
    | _ => held st'.1 ≡ₚ held st.1
    end.
Proof.
  destruct st as [s f]. intros (off & last & es & bs & Hg & Hc). cbn [q_Dequeue service_queue fst snd] in *.
  assert (may_dequeue (MkConfig off last s f) (e_now env) (e_append env)) as Hmay by (split; apply Hc).
  destruct (ServiceTrace.Dequeue_moves _ _ _ _ _ Hg Hmay) as (r & s' & f' & He & Hmv & Hr).
  cbn [ServiceTrace.c_svc ServiceTrace.c_file fst snd] in *. rewrite He. exists r, (s', f').
  split_and!; [done|by eapply moves_ok|].
  destruct r as [[m|]|e]; [split; apply Hr|apply Hr..].
Qed.

(** The counts of [Stats] describe the messages held. *)
Lemma Stats_counts off last es bs now s f v s' :
  good (MkConfig off last s f) es bs → clock (MkConfig off last s f) now → Z.of_nat (length (held s)) < 2 ^ 63 →
  Service.Stats now s = Some (v, s') → stats_ok v.
Proof.
  intros [Hi _] Hck Hn Hs. pose proof (ServiceFacts.inv_wf _ _ _ _ _ Hi) as Hwf. cbn in Hwf.
  destruct (AvailableLen_ok off (Service.s_queue s) (UTC now) Hwf ltac:(apply Hck)) as (q' & Hq & _ & Ha).
  unfold Service.Stats in Hs. rewrite Hq, (Len_ok off _ Hwf) in Hs. cbn [mbind option_bind] in Hs.
  assert (∀ a, length (a_contents a) = length (a_ready a) + length (a_delayed a))%nat as Hlen
    by (intros; unfold a_contents; by rewrite length_fmap, length_app).
  pose proof (Permutation_length (a_contents_promote (UTC now) (abs (Service.s_queue s)))) as Hp.
  rewrite !Hlen in Hp. unfold held in Hn. rewrite Hlen in Hn.
  clear Ha Hq Hi Hwf. set (x := abs (Service.s_queue s)) in *. set (y := a_promote (UTC now) x) in *. clearbody y x.
  injection Hs as <- _.
  split; cbn [Total s_Available s_Delayed]; unfold in_i64; lia.
Qed.

Lemma service_Stats_law env st : service_call_ok env st →
  ∃ s st', q_Stats env st = Some (s, st') ∧ service_ok st' ∧ held st'.1 ≡ₚ held st.1 ∧ stats_ok s.
Proof.
  destruct st as [s f]. intros (off & last & es & bs & Hg & Hc). cbn [q_Stats service_queue fst snd] in *.
  destruct (ServiceTrace.Stats_moves _ _ _ (e_now env) Hg (sc_clock _ _ _ _ Hc)) as (v & s' & He & Hmv & Hh).
  cbn [ServiceTrace.c_svc ServiceTrace.c_file fst snd] in *. rewrite He. exists v, (s', f).
  split_and!; [done|by eapply moves_ok|done|].
  eapply Stats_counts; [exact Hg|apply Hc|apply (sc_count _ _ _ _ Hc)|exact He].
Qed.

Lemma service_Snapshot_law env limit st : service_call_ok env st →
  ∃ v st', q_Snapshot env limit st = Some (v, st') ∧ service_ok st' ∧ held st'.1 ≡ₚ held st.1
    ∧ snapshot_ok v ∧ Valid (sn_Mode v) = true.
Proof.
  destruct st as [s f]. intros (off & last & es & bs & Hg & Hc). cbn [q_Snapshot service_queue fst snd] in *.
  destruct (service_snapshot off last env (s, f) es bs limit Hg (sc_clock _ _ _ _ Hc) (sc_count _ _ _ _ Hc))
    as (v & s' & He & Hmv & Hh & Ht & Hm).
  cbn [fst snd] in *. rewrite He. exists v, (s', f). split_and!; [done|by eapply moves_ok|done..].
Qed.

#[export] Instance service_laws : QueueLaws service_queue := {
  queue_ok := service_ok;
  call_ok := service_call_ok;
  contents st := held st.1;
  call_queue_ok env st := λ '(ex_intro _ off (ex_intro _ last (ex_intro _ es (ex_intro _ bs (conj Hg _))))),
    ex_intro _ off (ex_intro _ last (ex_intro _ es (ex_intro _ bs Hg)));
  law_Enqueue := service_Enqueue_law;
  law_Dequeue := service_Dequeue_law;
  law_Stats := service_Stats_law;
  law_Snapshot := service_Snapshot_law;
  law_WalTail := service_WalTail_law
}.
