(* ===== verification/ApiTheorems.v ===== *)
(** * What the HTTP API guarantees

    The theorems hold for every implementation of [Queue] that satisfies
    [QueueLaws], and so for the service. *)

From S2P Require Import Prelude GoTime GoStrconv GoUtf8 GoJson GoJsonFacts GoTimeFormat Model.
From S2P Require Import Codec CodecFacts LogRecord.
From S2P Require Wal Service ServiceFacts ServiceTrace ServiceTheorems.
From S2P Require Import GoJsonStream GoHttp Api ApiLaws.
From Stdlib Require Import Ascii.

Local Open Scope Z_scope.

(** ** Requests that were decoded *)

(** The size of what the members of an object hold. *)
Definition small (n : nat) (r : EnqueueRequest) : Prop :=
  (length (quote (to_bytes (r_Payload r))) <= 6 * n)%nat ∧ in_i64 (r_Priority r).

Lemma dec_int_range j old n : dec_int j old = Some n → in_i64 old → in_i64 n.
Proof. destruct j; intros; simplify_eq/=; eauto using Atoi_range. Qed.

Lemma dec_string_small n j old s : dec_string j old = Some s → (jsize j <= n)%nat →
  (length (quote (to_bytes old)) <= 6 * n)%nat → (length (quote (to_bytes s)) <= 6 * n)%nat.
Proof.
  destruct j; cbn [dec_string jsize]; try done; [by intros [= <-]|].
  intros (x & Hx & ->)%fmap_Some Hn _. rewrite to_of_bytes.
  pose proof (length_quote_unquote _ _ Hx). lia.
Qed.

Lemma set_request_small n f j r r' : set_request f j r = Some r' → (jsize j <= n)%nat → small n r → small n r'.
Proof.
  destruct r as [p pr d]. unfold set_request, small. cbn [Model.r_Payload Model.r_Priority]. intros Hs Hj [Hp Hpr].
  repeat case_decide; simplify_option_eq; eauto using dec_string_small, dec_int_range.
Qed.

Lemma decode_members_small n m r r' :
  decode_members request_fields set_request m r = Some r' →
  (sum_list_with msize m <= n)%nat → small n r → small n r'.
Proof.
  revert r. induction m as [|[raw v] m IH]; intros r; cbn [decode_members sum_list_with]; [by intros [= <-]|].
  unfold msize at 1. cbn [fst snd].
  destruct (unquote raw) as [key|]; [|done]. cbn [mbind option_bind].
  destruct (find_field request_fields key) as [f|]; [|intros; eapply IH; eauto; lia].
  destruct (set_request f v r) as [r1|] eqn:Es; [|done]. cbn [mbind option_bind]. intros Hd Hn Hr.
  eapply IH; [done|lia|]. eapply set_request_small; [done|lia|done].
Qed.

Lemma MaxBytes_length n r : (length (rd_bytes (MaxBytes n r)) <= n)%nat.
Proof.
  unfold MaxBytes. destruct (Nat.ltb_spec n (length (rd_bytes r))); [|lia].
  cbn [rd_bytes]. rewrite length_take. lia.
Qed.

Lemma decoded_small n body req :
  Decode dec_request (MaxBytes n body) zero_request = Ok req → small n req.
Proof.
  unfold Decode. pose proof (MaxBytes_length n body) as Hl.
  destruct (read_value _ _ _) as [j|e] eqn:Er; [|done]. apply read_value_size in Er.
  change (ssize initial) with 0%nat in Er.
  destruct (dec_request j zero_request) as [req'|] eqn:Ed; [|done]. intros [= <-].
  destruct j as [| | | | |m]; cbn [dec_request decode_struct] in Ed; try done.
  - injection Ed as <-. split; [simpl; lia|unfold in_i64; simpl; lia].
  - eapply decode_members_small; [exact Ed|rewrite jsize_obj in Er; lia|].
    split; [simpl; lia|unfold in_i64; simpl; lia].
Qed.

(** What comes out of a body of at most one MiB fits. *)
Lemma decoded_fits body req :
  Decode dec_request (MaxBytes (Z.to_nat maxEnqueueBodyBytes) body) zero_request = Ok req → fits req.
Proof.
  intros [Hp Hpr]%decoded_small. split; [|done].
  assert (0 <= maxEnqueueBodyBytes) by (by vm_compute). lia.
Qed.

(** ** Routing *)

Section routing.
Context {E St : Type} {Q : Queue E St} (q : string → string) (consoleHTML : bytes).

Abbreviation handler := (E → Request → St → option (Response * St)).

Definition only_get (method : string) (h : handler) : route handler :=
  if decide (method = "GET" ∨ method = "HEAD") then Found h else NoMethod.

(** The routing table of the API. *)
Definition route_table (method path : string) : route handler :=
  if decide (path = "/enqueue") then
    if decide (method = "POST") then Found (enqueue q) else NoMethod
  else if decide (path = "/dequeue") then
    if decide (method = "POST" ∨ method = "GET" ∨ method = "HEAD") then Found (dequeue q) else NoMethod
  else if decide (path = "/messages") then only_get method (messages)
  else if decide (path = "/wal") then only_get method (wal q)
  else if decide (path = "/stats") then only_get method stats
  else if decide (path = "/health") then only_get method health
  else if decide (path = "/") then only_get method (console consoleHTML)
  else NoPath.

Lemma serves_GET m : serves_method "GET" m = bool_decide (m = "GET" ∨ m = "HEAD").
Proof. unfold serves_method. repeat case_bool_decide; naive_solver. Qed.

Lemma serves_POST m : serves_method "POST" m = bool_decide (m = "POST").
Proof. unfold serves_method. repeat case_bool_decide; naive_solver. Qed.

Lemma find_route_one (p : pattern handler) ps m path :
  filter (λ p, pt_path p = path) ps = [p] →
  find_route ps m path = if serves_method (pt_method p) m then Found (pt_handler p) else NoMethod.
Proof.
  intros Hp. unfold find_route. rewrite Hp. cbn [list_find fmap option_fmap option_map].
  destruct (decide (pt_method p = m)) as [E1|E1].
  - assert (serves_method (pt_method p) m = true) as -> by (unfold serves_method; by rewrite bool_decide_eq_true_2). done.
  - destruct (decide (serves_method (pt_method p) m = true)) as [E2|E2]; [by rewrite E2|].
    apply not_true_iff_false in E2. by rewrite E2.
Qed.

Lemma find_route_get h m path :
  filter (λ p, pt_path p = path) (NewHandler q consoleHTML) = [MkPattern "GET" path h] →
  find_route (NewHandler q consoleHTML) m path = only_get m h.
Proof.
  intros Hf. rewrite (find_route_one _ _ _ _ Hf). cbn [pt_method pt_handler]. rewrite serves_GET.
  unfold only_get. by case_bool_decide; case_decide.
Qed.

Lemma find_route_table m path : find_route (NewHandler q consoleHTML) m path = route_table m path.
Proof.
  unfold route_table.
  destruct (decide (path = "/enqueue")) as [->|H1].
  { rewrite (find_route_one (MkPattern "POST" "/enqueue" (enqueue q))) by done.
    cbn [pt_method pt_handler]. rewrite serves_POST. by case_bool_decide; case_decide. }
  destruct (decide (path = "/dequeue")) as [->|H2].
  { destruct (decide (m = "POST")) as [->|Hp]; [done|]. destruct (decide (m = "GET")) as [->|Hg]; [done|].
    destruct (decide (m = "HEAD")) as [->|Hh]; [done|]. rewrite decide_False by naive_solver.
    unfold find_route.
    change (filter _ _) with [MkPattern "POST" "/dequeue" (dequeue q); MkPattern "GET" "/dequeue" (dequeue q)].
    cbn [list_find pt_method]. rewrite !(decide_False (P := _ = m)) by congruence.
    rewrite serves_POST, serves_GET, !bool_decide_eq_false_2 by naive_solver. done. }
  destruct (decide (path = "/messages")) as [->|H3]; [by apply find_route_get|].
  destruct (decide (path = "/wal")) as [->|H4]; [by apply find_route_get|].
  destruct (decide (path = "/stats")) as [->|H5]; [by apply find_route_get|].
  destruct (decide (path = "/health")) as [->|H6]; [by apply find_route_get|].
  destruct (decide (path = "/")) as [->|H7]; [by apply find_route_get|].
  unfold find_route. rewrite filter_none; [done|]. intros p Hp.
  repeat (apply elem_of_cons in Hp as [->|Hp]; [cbn [pt_path]; congruence|]). by apply not_elem_of_nil in Hp.
Qed.
End routing.

(** ** Every handler answers *)

Definition api_statuses : list Z := [200; 201; 204; 400; 404; 405; 413; 500; 503].

Section answers.
Context {E St : Type} {Q : Queue E St} {L : QueueLaws Q} (q : string → string) (consoleHTML : bytes).

(** A handler's result: a response with a known status, and a good state. *)
Definition answered (st : St) (res : option (Response * St)) : Prop :=
  ∃ resp st', res = Some (resp, st') ∧ queue_ok st' ∧ rs_status resp ∈ api_statuses.

(** The same with the messages unchanged. *)
Definition inspected (st : St) (res : option (Response * St)) : Prop :=
  ∃ resp st', res = Some (resp, st') ∧ queue_ok st' ∧ rs_status resp ∈ api_statuses ∧ contents st' ≡ₚ contents st.

Lemma inspected_answered st res : inspected st res → answered st res.
Proof. intros (resp & st' & ? & ? & ? & _). by exists resp, st'. Qed.

Lemma writeJSON_status s v : s ∈ api_statuses → rs_status (writeJSON s v) ∈ api_statuses.
Proof. intros Hs. unfold writeJSON. destruct (MarshalIndent v); [done|]. by apply (bool_decide_unpack _). Qed.

Lemma writeServiceError_status e : rs_status (writeServiceError q e) ∈ api_statuses.
Proof. unfold writeServiceError. case_match; apply writeJSON_status; by apply (bool_decide_unpack _). Qed.

Ltac status := first [apply writeJSON_status; by apply (bool_decide_unpack _) | apply writeServiceError_status | by apply (bool_decide_unpack _)].

Lemma enqueue_answered env r st : call_ok env st → answered st (enqueue q env r st).
Proof.
  intros Hc. pose proof (call_queue_ok env st Hc) as Hok. unfold enqueue, answered.
  destruct (Decode _ _ _) as [req|e] eqn:Ed.
  2: { case_match; eexists _, st; (split; [done|]); split; [done|status|done|status]. }
  destruct (Validate req) as [e|]; [eexists _, st; (split; [done|]); split; [done|status]|].
  destruct (law_Enqueue env req st Hc (decoded_fits _ _ Ed)) as (res & st' & -> & Hok' & Hr).
  cbn [mbind option_bind]. destruct res as [m|e]; eexists _, st'; (split; [done|]); split; [done|status|done|status].
Qed.

Lemma dequeue_answered env r st : call_ok env st → answered st (dequeue q env r st).
Proof.
  intros Hc. unfold dequeue, answered.
  destruct (law_Dequeue env st Hc) as (res & st' & -> & Hok & Hr). cbn [mbind option_bind].
  destruct res as [[m|]|e]; eexists _, st'; (split; [done|]); split; try done; status.
Qed.

Lemma messages_inspected env r st : call_ok env st → inspected st (messages env r st).
Proof.
  intros Hc. pose proof (call_queue_ok env st Hc) as Hok. unfold messages, inspected.
  destruct (limit_param _ _ _) as [n|]; [|eexists _, st; split_and!; [done|done|status|done]].
  destruct (law_Snapshot env n st Hc) as (v & st' & -> & Hok' & Hp & _). cbn [mbind option_bind].
  eexists _, st'. split_and!; [done|done|status|done].
Qed.

Lemma wal_inspected env r st : call_ok env st → inspected st (wal q env r st).
Proof.
  intros Hc. pose proof (call_queue_ok env st Hc) as Hok. unfold wal, inspected.
  destruct (limit_param _ _ _) as [n|]; [|eexists _, st; split_and!; [done|done|status|done]].
  destruct (q_WalTail env n st); eexists _, st; split_and!; try done; status.
Qed.

Lemma stats_inspected env r st : call_ok env st → inspected st (stats env r st).
Proof.
  intros Hc. unfold stats, inspected. destruct (law_Stats env st Hc) as (s & st' & -> & Hok & Hp & _).
  cbn [mbind option_bind]. eexists _, st'. split_and!; [done|done|status|done].
Qed.

Lemma still_inspected env st resp : call_ok env st → rs_status resp ∈ api_statuses → inspected st (Some (resp, st)).
Proof. intros Hc Hs. exists resp, st. pose proof (call_queue_ok env st Hc). by split_and!. Qed.
Lemma get_inspected h m env r st : call_ok env st → inspected st (h env r st) →
  inspected st (dispatch (only_get m h) env r st).
Proof.
  intros Hc Hh. unfold only_get. case_decide; [done|]. eapply still_inspected; [done|]. by apply (bool_decide_unpack _).
Qed.

Lemma table_answered env r st : call_ok env st →
  answered st (dispatch (route_table q consoleHTML (rq_method r) (rq_path r)) env r st)
  ∧ (rq_path r ∉ ["/enqueue"; "/dequeue"] →
     inspected st (dispatch (route_table q consoleHTML (rq_method r) (rq_path r)) env r st)).
Proof.
  intros Hc.
  assert (∀ resp, rs_status resp ∈ api_statuses → answered st (Some (resp, st))) as Hstill
    by (intros; by eapply inspected_answered, still_inspected).
  assert (∀ res, inspected st res → answered st res ∧ (rq_path r ∉ ["/enqueue"; "/dequeue"] → inspected st res)) as Hboth
    by (intros; split; [by apply inspected_answered|done]).
  unfold route_table.
  destruct (decide (rq_path r = "/enqueue")) as [E1|_].
  { split; [|intros H; rewrite E1 in H; set_solver].
    case_decide; [by apply enqueue_answered|]. apply Hstill. by apply (bool_decide_unpack _). }
  destruct (decide (rq_path r = "/dequeue")) as [E2|_].
  { split; [|intros H; rewrite E2 in H; set_solver].
    case_decide; [by apply dequeue_answered|]. apply Hstill. by apply (bool_decide_unpack _). }
  repeat case_decide; apply Hboth;
    [apply get_inspected; [done|]..|eapply still_inspected; [done|by apply (bool_decide_unpack _)]].
  - by apply messages_inspected.
  - by apply wal_inspected.
  - by apply stats_inspected.
  - eapply still_inspected; [done|]. apply writeJSON_status. by apply (bool_decide_unpack _).
  - eapply still_inspected; [done|]. by apply (bool_decide_unpack _).
Qed.
End answers.

(** C13: The server answers every request.  Whatever the method, the path, the
    query and the body, with an environment the queue can live with, no handler
    panics: the response has one of the documented statuses, and the queue is in
    a good state afterwards.  A request for any path but /enqueue and /dequeue
    leaves the messages as they were. *)
Theorem every_request_is_answered {E St : Type} {Q : Queue E St} {L : QueueLaws Q} q consoleHTML env r st :
  call_ok env st →
  ∃ resp st', ServeHTTP q consoleHTML env r st = (resp, Some st') ∧ queue_ok st'
    ∧ rs_status resp ∈ api_statuses
    ∧ (rq_path r ∉ ["/enqueue"; "/dequeue"] → contents st' ≡ₚ contents st).
Proof.
  intros Hc. unfold ServeHTTP. rewrite find_route_table.
  destruct (table_answered q consoleHTML env r st Hc) as [(resp & st' & -> & Hok & Hs) Hi].
  exists (send r resp), st'. split_and!; [done|done|unfold send; by case_decide|].
  intros Hp. destruct (Hi Hp) as (resp2 & st2 & E2 & _ & _ & Hh). by injection E2 as <- <-.
Qed.

(** ** Bodies *)

Lemma MaxBytes_prefix n x rest fin : (length x <= n)%nat → ∃ rest' fin',
  MaxBytes n (MkReader (x ++ rest) fin) = MkReader (x ++ rest') fin'
  ∧ ((length x < n)%nat → head rest' = head rest).
Proof.
  intros Hx. unfold MaxBytes. cbn [rd_bytes].
  destruct (Nat.ltb_spec n (length (x ++ rest))); [|by eauto].
  rewrite take_app_ge by done. eexists (take (n - length x) rest), _. split; [done|].
  intros Hlt. destruct rest as [|c rest]; [by rewrite take_nil|].
  destruct (n - length x)%nat eqn:E; [lia|done].
Qed.

Lemma MaxBytes_id n r : (length (rd_bytes r) <= n)%nat → MaxBytes n r = r.
Proof. intros Hn. unfold MaxBytes. destruct (Nat.ltb_spec n (length (rd_bytes r))); [lia|done]. Qed.

Abbreviation body_limit := (Z.to_nat maxEnqueueBodyBytes).

(** C24: What the enqueue handler makes of a body that starts with a JSON object
    of at most one MiB: it is decoded as soon as it is closed, and neither what
    follows it, whatever its length, nor how the body ends matters.  A value of
    the wrong type is 400, an invalid request is 400 with the reason, a closed
    service 503, any other failure 500, and a success 201 with the message; the
    queue is called exactly when the request is valid. *)
Theorem enqueue_decodes_the_first_object {E St : Type} {Q : Queue E St} (q : string → string)
    env (st : St) m path query p rest fin j :
  parse ("{"%char :: p) = Some j → (length ("{"%char :: p) <= body_limit)%nat →
  enqueue q env (MkRequest m path query (MkReader ("{"%char :: p ++ rest) fin)) st =
    match dec_request j zero_request with
    | None => Some (writeError StatusBadRequest "invalid JSON body", st)
    | Some req =>
        match Validate req with
        | Some err => Some (writeError StatusBadRequest (error_text q err), st)
        | None =>
            '(res, st') ← q_Enqueue env req st;
            Some (match res with
                  | Ok msg => writeJSON StatusCreated (enc_message msg)
                  | Err err => writeError (if errors_Is err "service.ErrClosed" then StatusServiceUnavailable
                                           else StatusInternalServerError) (error_text q err)
                  end, st')
        end
    end.
Proof.
  intros Hp Hl. unfold enqueue. cbn [rq_body].
  destruct (MaxBytes_prefix _ _ rest fin Hl) as (rest' & fin' & Eb & _). cbn [app] in Eb. rewrite Eb.
  unfold Decode. cbn [rd_bytes rd_end]. rewrite (read_value_object p rest' fin' j Hp).
  destruct (dec_request j zero_request) as [req|]; [|done].
  destruct (Validate req); [done|]. destruct (q_Enqueue env req st) as [[[msg|err] st']|]; [done| |done].
  cbn [mbind option_bind]. unfold writeServiceError. by case_match.
Qed.

(** A value that is no object makes no valid request. *)
Lemma no_object_no_request j req : (∀ ms, j ≠ JObj ms) → dec_request j zero_request = Some req → req = zero_request.
Proof. intros Hj. unfold dec_request, decode_struct. destruct j; try done; [by intros [= <-]|]. by destruct (Hj m). Qed.

Lemma MaxBytes_parts n r : MaxBytes n r =
  MkReader (take n (rd_bytes r)) (if decide (n < length (rd_bytes r))%nat then Some ErrMaxBytes else rd_end r).
Proof.
  unfold MaxBytes. destruct (Nat.ltb_spec n (length (rd_bytes r))).
  - by rewrite decide_True by lia.
  - rewrite decide_False by lia. rewrite take_ge by lia. by destruct r.
Qed.

(** C25: Bodies without a complete JSON object in their first MiB, whatever else
    they are (empty, another value, malformed, incomplete, too large), never
    reach the queue: the answer is 400, or 413, and 413 is given only to a body
    over the limit whose first MiB can be the beginning of a JSON text.  When
    not even a value of another kind is complete there, the answer is 413 for
    exactly those bodies, and "invalid JSON body" for all others.  [body] ends in
    any way but in the limit's own error. *)
Theorem broken_bodies_are_refused {E St : Type} {Q : Queue E St} (q : string → string)
    env (st : St) m path query body :
  let limited := take body_limit (rd_bytes body) in
  let cut := (body_limit < length (rd_bytes body))%nat ∧ is_Some (scan limited initial) in
  (∀ e, rd_end body = Some e → errors_Is e "http.MaxBytesError" = false) →
  (∀ l1 l2 ms, limited = l1 ++ l2 → parse l1 ≠ Some (JObj ms)) →
  ∃ status text, enqueue q env (MkRequest m path query body) st = Some (writeError status text, st)
    ∧ (status = StatusBadRequest ∨ status = StatusRequestEntityTooLarge ∧ text = "request body too large" ∧ cut)
    ∧ ((∀ l1 l2, limited = l1 ++ l2 → parse l1 = None) →
       (status, text) = if decide cut then (StatusRequestEntityTooLarge, "request body too large")
                        else (StatusBadRequest, "invalid JSON body")).
Proof.
  intros limited cut Hend Hobj. unfold enqueue, Decode. cbn [rq_body]. rewrite MaxBytes_parts. cbn [rd_bytes rd_end].
  fold limited. set (fin := if decide _ then _ else _).
  assert (errors_Is (default ErrUnexpectedEOF fin) "http.MaxBytesError" = true → (body_limit < length (rd_bytes body))%nat) as Hfin.
  { unfold fin. case_decide; [done|]. destruct (rd_end body) as [e|] eqn:Ee; [|done]. simpl. by rewrite (Hend e). }
  destruct (read_value limited fin initial) as [j|e] eqn:Er.
  - destruct (read_value_prefix _ _ _ Er) as (l1 & l2 & El & Hp).
    destruct (dec_request j zero_request) as [req|] eqn:Ed.
    + apply no_object_no_request in Ed as ->; [|intros ms ->; by apply (Hobj l1 l2 ms)].
      eexists _, _. split_and!; [reflexivity|by left|]. intros Hn. by rewrite (Hn l1 l2) in Hp.
    + eexists _, _. split_and!; [reflexivity|by left|]. intros Hn. by rewrite (Hn l1 l2) in Hp.
  - destruct (errors_Is e "http.MaxBytesError") eqn:Em; eexists _, _; (split; [reflexivity|]).
    + assert (cut) as Hcut.
      { destruct (read_value_Err _ _ _ _ Er) as [->|[Hs ->]]; [done|]. split; [by apply Hfin|done]. }
      split; [by right|]. intros _. by rewrite decide_True.
    + split; [by left|]. intros Hn. rewrite decide_False; [done|]. intros [Hlen Hs].
      rewrite read_value_incomplete, decide_True in Er by done. injection Er as <-.
      unfold fin in Em. by rewrite decide_True in Em.
Qed.

(** ** Limits *)

Definition plain (c : ascii) : bool := is_digit c || ceq c "-".

Lemma format_int_plain n : Forall (λ c, plain c = true) (format_int n).
Proof.
  assert (∀ k, 0 <= k → Forall (λ c, plain c = true) (format_uint k)) as H.
  { intros k Hk. eapply Forall_impl; [apply format_uint_digits|]. intros c Hc. unfold plain. by rewrite Hc. }
  unfold format_int. destruct (Z.ltb_spec n 0); [constructor; [done|]|]; apply H; lia.
Qed.

Lemma plain_neq c d : plain c = true → plain d = false → ceq c d = false.
Proof. intros Hc Hd. destruct (ceq c d) eqn:E; [|done]. apply ceq_iff in E as ->. congruence. Qed.

Lemma plain_unescape l : Forall (λ c, plain c = true) l → query_unescape l = Some l.
Proof.
  induction 1 as [|c l Hc _ IH]; [done|]. cbn [query_unescape].
  rewrite !(plain_neq c) by done. by rewrite IH.
Qed.

Lemma plain_split acc l : Forall (λ c, plain c = true) l → split_amp acc l = [rev acc ++ l].
Proof.
  intros Hl. revert acc. induction Hl as [|c l Hc _ IH]; intros acc; cbn [split_amp]; [by rewrite app_nil_r|].
  rewrite (plain_neq c) by done. rewrite IH. cbn [rev]. by rewrite <- app_assoc.
Qed.

Lemma plain_semicolon l : Forall (λ c, plain c = true) l → existsb (ceq ";") l = false.
Proof.
  induction 1 as [|c l Hc _ IH]; [done|]. cbn [existsb]. rewrite IH, orb_false_r.
  destruct (ceq ";" c) eqn:E; [|done]. apply ceq_iff in E as <-. done.
Qed.

Definition limit_query (n : Z) : bytes := to_bytes "limit=" ++ format_int n.

Lemma query_get_limit n : in_i64 n → query_get "limit" (limit_query n) = Itoa n.
Proof.
  intros Hn. pose proof (format_int_plain n) as Hp. unfold query_get, parse_query, limit_query.
  set (v := format_int n) in *.
  assert (split_amp [] (to_bytes "limit=" ++ v) = [to_bytes "limit=" ++ v]) as ->.
  { apply (plain_split (rev (to_bytes "limit="))) in Hp. rewrite rev_involutive in Hp. exact Hp. }
  assert (query_pair (to_bytes "limit=" ++ v) = Some (to_bytes "limit", v)) as Hq.
  { unfold query_pair. cbn. rewrite (plain_semicolon v Hp). cbn. by rewrite (plain_unescape v Hp). }
  cbn [filter list_filter]. rewrite decide_True by done. cbn [omap list_omap]. rewrite Hq. 
  cbn [list_find fst]. rewrite decide_True by done. done.
Qed.

Lemma limit_param_value n m path body d max : in_i64 n →
  limit_param d max (MkRequest m path (limit_query n) body) = if (n <? 1) || (max <? n) then None else Some n.
Proof.
  intros Hn. unfold limit_param. cbn [rq_query]. rewrite query_get_limit by done.
  rewrite decide_False; [by rewrite Atoi_Itoa|].
  intros E0. apply (f_equal to_bytes) in E0. unfold Itoa in E0. rewrite to_of_bytes in E0. unfold format_int in E0.
  destruct (n <? 0); [done|]. destruct (format_uint_nonempty n) as (c & l & E1 & _). by rewrite E1 in E0.
Qed.

(** A limit is a decimal integer from 1 to 1000 for /messages and to 500
    for /wal: a value in range is passed to the queue as it is, any other int64 is
    refused with 400 and the queue is not asked; without one the limit is 100,
    or 50. *)
Theorem limits_are_checked {E St : Type} {Q : Queue E St} (q : string → string) env (st : St) m path body n :
  in_i64 n →
  let r := MkRequest m path (limit_query n) body in
  let bare := MkRequest m path [] body in
  let snapshot n := '(v, st') ← q_Snapshot env n st; Some (writeJSON StatusOK (enc_snapshot v), st') in
  let tail n := Some (match q_WalTail env n st with
                      | Ok t => writeJSON StatusOK (enc_tail t)
                      | Err e => writeServiceError q e
                      end, st) in
  messages env r st = (if (1 <=? n) && (n <=? 1000) then snapshot n else Some (bad_limit 1000, st))
  ∧ wal q env r st = (if (1 <=? n) && (n <=? 500) then tail n else Some (bad_limit 500, st))
  ∧ messages env bare st = snapshot 100 ∧ wal q env bare st = tail 50
  ∧ rs_status (bad_limit 1000) = StatusBadRequest ∧ rs_status (bad_limit 500) = StatusBadRequest.
Proof.
  intros Hn. cbn zeta.
  assert (∀ max, ((n <? 1) || (max <? n)) = negb ((1 <=? n) && (n <=? max))) as Hb by lia.
  split_and!.
  - unfold messages, defaultMessageLimit, maxMessageLimit. rewrite limit_param_value, Hb by done. by destruct (_ && _).
  - unfold wal, defaultWalLimit, maxWalLimit. rewrite limit_param_value, Hb by done.
    destruct (_ && _); cbn [negb]; [|done]. by destruct (q_WalTail env n st).
  - done.
  - unfold wal. change (limit_param _ _ _) with (Some 50). cbn iota. by destruct (q_WalTail env 50 st).
  - done.
  - done.
Qed.

(** ** Sizes *)

(** C26: What the server accepts it can recover.  Whatever body the handler
    decodes a request from, the line the log writes for its message, with an ID
    of 36 characters, is shorter than the longest record [Recover] reads: an
    acknowledged request never makes the log unreadable. *)
Theorem accepted_requests_are_recoverable body req now id s io b :
  Decode dec_request (MaxBytes body_limit body) zero_request = Ok req →
  message_ok (ServiceFacts.new_message now id req s) → time_ok (UTC (Wal.io_now io)) = true →
  (String.length id <= 36)%nat →
  marshal (WalTheorems.enqueue_entry io (ServiceFacts.new_message now id req s) (Service.s_wal s)) = Some b →
  Z.of_nat (length b) < Wal.maxRecordBytes.
Proof. intros Hd%decoded_fits Hm Ht Hid. by apply fits_readable. Qed.

(** ** Dequeue *)

Lemma single_newline : all_space [newline].
Proof. by repeat constructor. Qed.

(** A message in a response is read back. *)
Lemma response_message m s : message_ok m →
  ∃ body, writeJSON s (enc_message m) = MkResponse s "application/json" (body ++ [newline])
    ∧ Unmarshal dec_message (body ++ [newline]) zero_message = Some (wire_message m).
Proof.
  intros Hm. destruct (enc_message_ok m Hm) as [j Ej]. unfold writeJSON. rewrite Ej.
  destruct (enc_message_wf m j) as [Hw Hh]; [apply (mok_seq m Hm)|done|].
  rewrite MarshalIndent_ok by (rewrite Hh; by vm_compute). exists (indented j). split; [done|].
  rewrite Unmarshal_indented; [|done|rewrite Hh; by vm_compute|apply single_newline].
  by apply dec_enc_message.
Qed.

(** C23: A dequeue request, by POST, GET or HEAD, is answered 200 exactly when a
    message left the queue, and the body decodes to that message; when it is
    204, 500 or 503 no message left.  A HEAD request takes the message as well,
    and its response has no body: the message is gone and nobody has seen it. *)
Theorem dequeue_takes_what_it_answers {E St : Type} {Q : Queue E St} {L : QueueLaws Q} q consoleHTML env r st :
  call_ok env st → rq_path r = "/dequeue" → rq_method r ∈ ["POST"; "GET"; "HEAD"] →
  ∃ resp st', ServeHTTP q consoleHTML env r st = (resp, Some st') ∧
    ((rs_status resp = StatusOK ∧ ∃ m, contents st ≡ₚ m :: contents st'
        ∧ if decide (rq_method r = "HEAD") then rs_body resp = []
          else Unmarshal dec_message (rs_body resp) zero_message = Some (wire_message m))
     ∨ (rs_status resp ∈ [StatusNoContent; StatusInternalServerError; StatusServiceUnavailable]
        ∧ contents st' ≡ₚ contents st)).
Proof.
  intros Hc Hp Hm. unfold ServeHTTP. rewrite find_route_table. unfold route_table. rewrite Hp. cbn [decide].
  rewrite decide_False, decide_True, decide_True by (done || set_solver). cbn [dispatch]. unfold dequeue.
  destruct (law_Dequeue env st Hc) as (res & st' & -> & _ & Hr). cbn [mbind option_bind].
  assert (∀ resp, rs_status (send r resp) = rs_status resp) as Hst by (intros; unfold send; by case_decide).
  destruct res as [[m|]|e]; cbn [recoverMiddleware]; eexists _, st'; (split; [reflexivity|]); rewrite Hst.
  - left. destruct Hr as [Hok Hh]. destruct (response_message m StatusOK Hok) as (body & -> & Hu).
    split; [done|]. exists m. split; [done|]. unfold send. by case_decide.
  - right. split; [|done]. by apply (bool_decide_unpack _).
  - right. split; [|done]. unfold writeServiceError. case_match; by apply (bool_decide_unpack _).
Qed.

(** ** Examples *)

Module Sample.
Import ServiceFacts ServiceTheorems.Sample.

(** A call three seconds in, on a queue that holds two messages. *)
Definition env : Env := MkEnv (at_s 3) (Ok (block 90)) (io 3) Wal.read_ok.
Definition st : Service.QueueService * Wal.File := (ServiceTrace.c_svc c2, ServiceTrace.c_file c2).
Definition quoted (s : string) : string := "'" +:+ s +:+ "'".
Definition no_body : reader := MkReader [] None.
Definition text (s : string) : bytes := to_bytes s.

Lemma st_call : service_call_ok env st.
Proof.
  destruct (ServiceTheorems.reachable_good _ c2_reachable) as (es & bs & Hg).
  exists (ServiceTrace.c_off c2), (ServiceTrace.c_last c2), es, bs. split; [exact Hg|]. split.
  - solve_clock.
  - solve_room.
  - left. solve_carried_out.
  - split; [done|solve_decision_vm].
  - intros id Hid. vm_compute in Hid. injection Hid as <-. solve_decision_vm.
  - intros m Hm. change (m ∈ held (ServiceTrace.c_svc c2)) in Hm. compute_held Hm.
    repeat (apply elem_of_cons in Hm as [->|Hm]; [solve_readable|]). inversion Hm.
  - by vm_compute.
Qed.

(** The body of a request, with single quotes for double ones. *)
Definition unquoted (s : string) : bytes := (λ c, if ceq c "'" then quote_char else c) <$> to_bytes s.
Definition object : bytes := Eval vm_compute in unquoted "{'payload':'hi','priority':3}".
Definition half : bytes := Eval vm_compute in unquoted "{'payload':'hi'".

Lemma half_broken l1 l2 : take body_limit half = l1 ++ l2 → parse l1 = None.
Proof.
  assert (take body_limit half = half) as -> by (vm_compute; reflexivity). intros E.
  assert (l1 = take (length l1) half) as -> by (by rewrite E, take_app_length).
  assert (length l1 <= length half)%nat as Hl by (rewrite E, length_app; lia).
  assert (forallb (λ n, bool_decide (parse (take n half) = None)) (seq 0 (S (length half))) = true) as H by (vm_compute; reflexivity).
  rewrite forallb_forall in H. apply (bool_decide_unpack _), Is_true_true, H, in_seq. lia.
Qed.
End Sample.

Lemma every_request_is_answered_witness :
  ∃ resp st', ServeHTTP Sample.quoted [] Sample.env (MkRequest "HEAD" "/stats" [] Sample.no_body) Sample.st = (resp, Some st')
    ∧ queue_ok st' ∧ rs_status resp ∈ api_statuses
    ∧ ("/stats" ∉ ["/enqueue"; "/dequeue"] → contents st' ≡ₚ contents Sample.st).
Proof. exact (every_request_is_answered Sample.quoted [] Sample.env (MkRequest "HEAD" "/stats" [] Sample.no_body) _ Sample.st_call). Defined.

Lemma enqueue_decodes_the_first_object_witness :
  ∃ j req, parse Sample.object = Some j ∧ dec_request j zero_request = Some req ∧ req = MkEnqueueRequest "hi" 3 0
    ∧ enqueue Sample.quoted Sample.env
        (MkRequest "POST" "/enqueue" [] (MkReader (Sample.object ++ Sample.text " and more") (Some (ErrVar "io.ErrUnexpectedEOF")))) Sample.st
      = '(res, st') ← q_Enqueue Sample.env req Sample.st;
        Some (match res with
              | Ok msg => writeJSON StatusCreated (enc_message msg)
              | Err err => writeError (if errors_Is err "service.ErrClosed" then StatusServiceUnavailable
                                       else StatusInternalServerError) (error_text Sample.quoted err)
              end, st').
Proof.
  eexists _, _. split_and!; [vm_compute; reflexivity|vm_compute; reflexivity|reflexivity|].
  exact (enqueue_decodes_the_first_object Sample.quoted Sample.env Sample.st "POST" "/enqueue" []
    (tl Sample.object) (Sample.text " and more") (Some (ErrVar "io.ErrUnexpectedEOF")) _
    ltac:(vm_compute; reflexivity) ltac:(apply Nat.leb_le; vm_compute; reflexivity)).
Defined.

Lemma take_replicate_S {A} n (x : A) : take n (replicate (S n) x) = replicate n x.
Proof. rewrite take_replicate. f_equal. lia. Qed.

Lemma spaces_broken n l1 l2 : replicate n " "%char = l1 ++ l2 → scan l1 initial = Some initial ∧ parse l1 = None.
Proof.
  intros E. assert (all_space l1) as Hs.
  { apply (Forall_app _ l1 l2). rewrite <- E. by apply Forall_replicate. }
  assert (scan l1 initial = Some initial) as Hi by (by apply scan_space).
  split; [done|]. unfold parse. by rewrite Hi.
Qed.

(** An object that breaks off, with an error of the connection behind it, and
    a body of one byte more than the limit, all of them spaces. *)
Lemma broken_bodies_are_refused_witness :
  enqueue Sample.quoted Sample.env (MkRequest "POST" "/enqueue" []
    (MkReader Sample.half (Some (ErrVar "io.ErrUnexpectedEOF")))) Sample.st =
    Some (writeError StatusBadRequest "invalid JSON body", Sample.st)
  ∧ enqueue Sample.quoted Sample.env (MkRequest "POST" "/enqueue" []
    (MkReader (replicate (S body_limit) " "%char) None)) Sample.st =
    Some (writeError StatusRequestEntityTooLarge "request body too large", Sample.st).
Proof.
  split.
  - destruct (broken_bodies_are_refused Sample.quoted Sample.env Sample.st "POST" "/enqueue" []
      (MkReader Sample.half (Some (ErrVar "io.ErrUnexpectedEOF")))) as (status & text & He & _ & Hn).
    + intros e [= <-]. reflexivity.
    + intros l1 l2 ms E. rewrite (Sample.half_broken l1 l2 E). done.
    + specialize (Hn Sample.half_broken). rewrite decide_False in Hn.
      * injection Hn as -> ->. exact He.
      * intros [Hl _]. apply Nat.ltb_lt in Hl. vm_compute in Hl. discriminate Hl.
  - set (sp := replicate (S body_limit) " "%char).
    assert (take body_limit sp = replicate body_limit " "%char) as Et by apply take_replicate_S.
    assert (body_limit < length sp)%nat as El by (unfold sp; rewrite length_replicate; apply Nat.lt_succ_diag_r).
    clearbody sp.
    destruct (broken_bodies_are_refused Sample.quoted Sample.env Sample.st "POST" "/enqueue" []
      (MkReader sp None)) as (status & text & He & _ & Hn).
    + intros e [=].
    + intros l1 l2 ms E. cbn [rd_bytes] in E. rewrite Et in E. by rewrite (proj2 (spaces_broken _ _ _ E)).
    + cbn [rd_bytes] in Hn. rewrite Et in Hn. rewrite decide_True in Hn.
      * injection (Hn (λ l1 l2 E, proj2 (spaces_broken _ _ _ E))) as -> ->. exact He.
      * split; [exact El|]. exists initial. exact (proj1 (spaces_broken body_limit _ [] (eq_sym (app_nil_r _)))).
Defined.

Lemma limits_are_checked_witness :
  in_i64 1001 ∧ messages Sample.env (MkRequest "GET" "/messages" (limit_query 1001) Sample.no_body) Sample.st
    = Some (bad_limit 1000, Sample.st).
Proof.
  assert (in_i64 1001) as Hn by (unfold in_i64; lia). split; [exact Hn|].
  exact (proj1 (limits_are_checked Sample.quoted Sample.env Sample.st "GET" "/messages" Sample.no_body 1001 Hn)).
Defined.

Lemma accepted_requests_are_recoverable_witness :
  ∃ req b, Decode dec_request (MaxBytes body_limit (MkReader Sample.object None)) zero_request = Ok req
    ∧ marshal (WalTheorems.enqueue_entry (e_append Sample.env)
        (ServiceFacts.new_message (e_now Sample.env) "an-id" req Sample.st.1) (Service.s_wal Sample.st.1)) = Some b
    ∧ Z.of_nat (length b) < Wal.maxRecordBytes.
Proof.
  assert (Decode dec_request (MaxBytes body_limit (MkReader Sample.object None)) zero_request
    = Ok (MkEnqueueRequest "hi" 3 0)) as Hd by (vm_compute; reflexivity).
  eexists _, _. split; [exact Hd|]. split; [vm_compute; reflexivity|].
  eapply (accepted_requests_are_recoverable (MkReader Sample.object None) (MkEnqueueRequest "hi" 3 0) (e_now Sample.env) "an-id" Sample.st.1 (e_append Sample.env));
    [exact Hd|split; by vm_compute|by vm_compute|simpl; lia|vm_compute; reflexivity].
Defined.

Lemma dequeue_takes_what_it_answers_witness :
  ∃ resp st', ServeHTTP Sample.quoted [] Sample.env (MkRequest "HEAD" "/dequeue" [] Sample.no_body) Sample.st = (resp, Some st') ∧
    ((rs_status resp = StatusOK ∧ ∃ m, contents Sample.st ≡ₚ m :: contents st' ∧ rs_body resp = [])
     ∨ (rs_status resp ∈ [StatusNoContent; StatusInternalServerError; StatusServiceUnavailable]
        ∧ contents st' ≡ₚ contents Sample.st)).
Proof.
  exact (dequeue_takes_what_it_answers Sample.quoted [] Sample.env (MkRequest "HEAD" "/dequeue" [] Sample.no_body) Sample.st
    Sample.st_call eq_refl ltac:(by apply (bool_decide_unpack _))).
Defined.
