(* ===== verification/Requests.v ===== *)
(** * [pkg/api] and [cmd/server]: requests in parallel

    [net/http] runs each request in a goroutine of its own, and [run] calls
    [Close] while handlers may still be at work (when [Shutdown] gives up on
    them).  A handler calls the service at most once: it decodes the request
    first and encodes the answer afterwards, touching nothing that is shared.  A
    [plan] is a handler cut at that call; the call itself is the one of
    [Concurrent], step by step.  [plan_runs] shows that a plan with its call
    performed whole is the handler of [Api].  A call that panics has no next
    step; [every_request_returns] shows that there is none. *)

From S2P Require Import Prelude GoTime GoStrconv GoUtf8 GoJson Model Codec LogRecord Engine.
From S2P Require Import Service Concurrent GoJsonStream GoHttp Api.
From S2P Require Wal.

Import Wal (File).

Local Open Scope Z_scope.

(** ** Handlers cut at their call *)

Inductive plan :=
  | Reply (resp : Response)
  | AskEnqueue (req : EnqueueRequest) (k : result Message → Response)
  | AskDequeue (k : result (option Message) → Response)
  | AskSnapshot (limit : Z) (k : QueueSnapshot → Response)
  | AskStats (k : QueueStats → Response)
  | AskWalTail (limit : Z) (k : result Model.WalTail → Response).

(** The call a plan makes, if any, and what it makes of the answer. *)
Definition asks (p : plan) : Response + call :=
  match p with
  | Reply resp => inl resp
  | AskEnqueue req _ => inr (CallEnqueue req)
  | AskDequeue _ => inr CallDequeue
  | AskSnapshot limit _ => inr (CallSnapshot limit)
  | AskStats _ => inr CallStats
  | AskWalTail limit _ => inr (CallWalTail limit)
  end.

Definition replies (p : plan) (a : answer) : option Response :=
  match p, a with
  | AskEnqueue _ k, AnsEnqueue r => Some (k r)
  | AskDequeue k, AnsDequeue r => Some (k r)
  | AskSnapshot _ k, AnsSnapshot v => Some (k v)
  | AskStats k, AnsStats v => Some (k v)
  | AskWalTail _ k, AnsWalTail r => Some (k r)
  | _, _ => None
  end.

Section handlers.
Context (q : string → string) (consoleHTML : bytes).

Definition enqueue_plan (r : Request) : plan :=
  match Decode dec_request (MaxBytes (Z.to_nat maxEnqueueBodyBytes) (rq_body r)) zero_request with
  | Err err =>
      if errors_Is err "http.MaxBytesError"
      then Reply (writeError StatusRequestEntityTooLarge "request body too large")
      else Reply (writeError StatusBadRequest "invalid JSON body")
  | Ok req =>
      match Validate req with
      | Some err => Reply (writeError StatusBadRequest (error_text q err))
      | None =>
          AskEnqueue req (λ res,
            match res with
            | Err err => writeServiceError q err
            | Ok msg => writeJSON StatusCreated (enc_message msg)
            end)
      end
  end.

Definition dequeue_plan (r : Request) : plan :=
  AskDequeue (λ res,
    match res with
    | Err err => writeServiceError q err
    | Ok None => MkResponse StatusNoContent "" []
    | Ok (Some msg) => writeJSON StatusOK (enc_message msg)
    end).

Definition messages_plan (r : Request) : plan :=
  match limit_param defaultMessageLimit maxMessageLimit r with
  | None => Reply (bad_limit maxMessageLimit)
  | Some limit => AskSnapshot limit (λ snap, writeJSON StatusOK (enc_snapshot snap))
  end.

Definition wal_plan (r : Request) : plan :=
  match limit_param defaultWalLimit maxWalLimit r with
  | None => Reply (bad_limit maxWalLimit)
  | Some limit =>
      AskWalTail limit (λ res,
        match res with
        | Err err => writeServiceError q err
        | Ok tail => writeJSON StatusOK (enc_tail tail)
        end)
  end.

Definition console_plan (r : Request) : plan :=
  Reply (MkResponse StatusOK "text/html; charset=utf-8" consoleHTML).

Definition stats_plan (r : Request) : plan :=
  AskStats (λ s, writeJSON StatusOK (Some (enc_stats s))).

Definition health_plan (r : Request) : plan :=
  Reply (writeJSON StatusOK (Some (one_field "status" "healthy"))).

(** [NewHandler], and what the multiplexer does with the route it found. *)
Definition plans : list (pattern (Request → plan)) :=
  [MkPattern "POST" "/enqueue" enqueue_plan;
   MkPattern "POST" "/dequeue" dequeue_plan;
   MkPattern "GET" "/dequeue" dequeue_plan;
   MkPattern "GET" "/messages" messages_plan;
   MkPattern "GET" "/wal" wal_plan;
   MkPattern "GET" "/stats" stats_plan;
   MkPattern "GET" "/health" health_plan;
   MkPattern "GET" "/" console_plan].

Definition plan_of (r : Request) : plan :=
  match find_route plans (rq_method r) (rq_path r) with
  | Found p => p r
  | NoMethod => Reply (http_Error "Method Not Allowed" StatusMethodNotAllowed)
  | NoPath => Reply (http_Error "404 page not found" StatusNotFound)
  end.

(** ** Jobs: the goroutines of the process that reach the service *)

Inductive job :=
  | Serve (r : Request)
  | ShutDown.                       (** the [svc.Close()] of [run] *)

Inductive outcome :=
  | Sent (resp : Response)
  | ClosedWith (err : option error).

(** A job up to its call: over already, or the call. *)
Definition job_begin (j : job) : outcome + call :=
  match j with
  | ShutDown => inr CallClose
  | Serve r => match asks (plan_of r) with inl resp => inl (Sent (send r resp)) | inr c => inr c end
  end.

(** A job from the answer of its call on. *)
Definition job_end (j : job) (a : answer) : option outcome :=
  match j with
  | ShutDown => match a with AnsClose err => Some (ClosedWith err) | _ => None end
  | Serve r => (λ resp, Sent (send r resp)) <$> replies (plan_of r) a
  end.

(** ** Schedules

    What [Concurrent] has, with the goroutines around the calls.  A goroutine and
    its call have the same number. *)

Inductive progress :=
  | Started
  | Calling                         (** in its call of the service *)
  | Finished (out : outcome).

Record Process := MkProcess {
  h_conc : Conc;
  h_jobs : gmap tid (job * progress)
}.

Inductive move :=
  | Start (t : tid) (j : job)       (** a request arrives, or [run] comes to [Close] *)
  | Begin (t : tid)
  | Advance (t : tid) (i : Inputs)  (** a step of the call *)
  | Finish (t : tid).               (** the call has returned *)

(** What clients see, and what happens at the service. *)
Inductive notice :=
  | Arrived (t : tid) (j : job)
  | Left (t : tid) (out : outcome).

Context `{LogCodec}.

Definition set_job (p : Process) (t : tid) (j : job) (st : progress) (k : Conc) : Process :=
  MkProcess k (<[t := (j, st)]> (h_jobs p)).

(** The trace so far and the state after a move. *)
Abbreviation outcome_of := (option (list (notice + event) * Process)).

(** The handler up to its call. *)
Definition begin_job (t : tid) (j : job) (p : Process) : outcome_of :=
  match job_begin j with
  | inl out => Some ([inl (Left t out)], set_job p t j (Finished out) (h_conc p))
  | inr c =>
      match invoke t c (h_conc p) with
      | Some k => Some ([inr (Invoked t c)], set_job p t j Calling k)
      | None => None
      end
  end.

(** The handler from the answer of its call on. *)
Definition finish_job (t : tid) (j : job) (p : Process) : outcome_of :=
  a ← answer_of (h_conc p) t;
  out ← job_end j a;
  Some ([inl (Left t out)], set_job p t j (Finished out) (h_conc p)).

Definition make_move (x : move) (p : Process) : outcome_of :=
  match x with
  | Start t j =>
      match h_jobs p !! t with
      | Some _ => None
      | None => Some ([inl (Arrived t j)], set_job p t j Started (h_conc p))
      end
  | Begin t => match h_jobs p !! t with Some (j, Started) => begin_job t j p | _ => None end
  | Advance t i =>
      match act (Step t i) (h_conc p) with
      | Some (h, k) => Some (map inr h, MkProcess k (h_jobs p))
      | None => None
      end
  | Finish t => match h_jobs p !! t with Some (j, Calling) => finish_job t j p | _ => None end
  end.

Fixpoint run_moves (l : list move) (p : Process) : outcome_of :=
  match l with
  | [] => Some ([], p)
  | x :: l =>
      '(h, p) ← make_move x p;
      '(h', p) ← run_moves l p;
      Some (h ++ h', p)
  end.

(** A process that serves nobody yet. *)
Definition ready (s : QueueService) (f : File) (last : Z) : Process := MkProcess (idle s f last) ∅.

(** What the service sees of the moves. *)
Definition actions_of (p : Process) (x : move) : list action :=
  match x with
  | Start _ _ | Finish _ => []
  | Begin t =>
      match h_jobs p !! t with
      | Some (j, Started) => match job_begin j with inr c => [Invoke t c] | inl _ => [] end
      | _ => []
      end
  | Advance t i => [Step t i]
  end.

Fixpoint service_actions (l : list move) (p : Process) : list action :=
  match l with
  | [] => []
  | x :: l =>
      actions_of p x ++ match make_move x p with Some (_, p) => service_actions l p | None => [] end
  end.

(** ** The jobs one after the other *)

Inductive task :=
  | ServeOne (env : Env) (r : Request)
  | CloseAll (err : option error).

Definition task_job (x : task) : job :=
  match x with ServeOne _ r => Serve r | CloseAll _ => ShutDown end.

(** A request as [Api] has it, and [Close] as [Service] has it. *)
Definition carry_out (x : task) (st : QueueService * File) : option (outcome * (QueueService * File)) :=
  match x with
  | ServeOne env r =>
      match ServeHTTP q consoleHTML env r st with
      | (resp, Some st) => Some (Sent resp, st)
      | (_, None) => None
      end
  | CloseAll err => let '(e, s) := Close err st.1 in Some (ClosedWith e, (s, st.2))
  end.

Fixpoint carry_out_all (l : list task) (st : QueueService * File)
    : option (list outcome * (QueueService * File)) :=
  match l with
  | [] => Some ([], st)
  | x :: l =>
      '(out, st) ← carry_out x st;
      '(outs, st) ← carry_out_all l st;
      Some (out :: outs, st)
  end.
End handlers.
