(* ===== verification/RequestsFacts.v ===== *)
(** * Requests in parallel: what their traces look like

    A plan is its handler; the trace of a process splits into what the service
    saw, a schedule of [Concurrent], and what the clients saw; and any order of
    the calls gives an order of the requests. *)

From S2P Require Import Prelude GoTime GoStrconv GoUtf8 GoJson Model Codec LogRecord Engine.
From S2P Require Import Service Concurrent ConcurrentFacts ConcurrentOrder ConcurrentRuns.
From S2P Require Import GoJsonStream GoHttp Api Requests.
From S2P Require Wal.

Import Wal (File, read_ok).

Local Open Scope Z_scope.

(** ** Routes with related handlers *)

Section routes.
Context {H H' : Type} (R : H → H' → Prop).

Definition same_pattern (p : pattern H) (p' : pattern H') : Prop :=
  pt_method p = pt_method p' ∧ pt_path p = pt_path p' ∧ R (pt_handler p) (pt_handler p').

Definition same_route (r : route H) (r' : route H') : Prop :=
  match r, r' with
  | Found h, Found h' => R h h'
  | NoMethod, NoMethod | NoPath, NoPath => True
  | _, _ => False
  end.

Lemma filter_path path ps ps' : Forall2 same_pattern ps ps' →
  Forall2 same_pattern (filter (λ p, pt_path p = path) ps) (filter (λ p, pt_path p = path) ps').
Proof.
  induction 1 as [|p p' ps ps' Hp _ IH]; [constructor|]. pose proof Hp as (_ & Epath & _).
  rewrite !filter_cons, Epath. case_decide; [by constructor|done].
Qed.

Lemma list_find_method (P : string → Prop) `{!∀ m, Decision (P m)} ps ps' : Forall2 same_pattern ps ps' →
  match list_find (λ p, P (pt_method p)) ps, list_find (λ p, P (pt_method p)) ps' with
  | Some (_, p), Some (_, p') => same_pattern p p'
  | None, None => True
  | _, _ => False
  end.
Proof.
  induction 1 as [|p p' ps ps' Hp _ IH]; [done|]. pose proof Hp as (Em & _).
  cbn [list_find]. rewrite Em. case_decide; [done|].
  by destruct (list_find _ ps) as [[? ?]|], (list_find _ ps') as [[? ?]|].
Qed.

Lemma find_route_same ps ps' m path : Forall2 same_pattern ps ps' →
  same_route (find_route ps m path) (find_route ps' m path).
Proof.
  intros Hps%(filter_path path). unfold find_route.
  destruct Hps as [|p p' l l' Hp Hl]; [done|].
  assert (Forall2 same_pattern (p :: l) (p' :: l')) as Hps by (by constructor).
  pose proof (list_find_method (λ x, x = m) _ _ Hps) as H1.
  pose proof (list_find_method (λ x, serves_method x m = true) _ _ Hps) as H2.
  destruct (list_find (λ p, pt_method p = m) (p :: l)) as [[? ?]|],
    (list_find (λ p, pt_method p = m) (p' :: l')) as [[? ?]|]; try done; [apply H1|].
  destruct (list_find _ (p :: l)) as [[? ?]|], (list_find _ (p' :: l')) as [[? ?]|]; try done. apply H2.
Qed.
End routes.

Lemma find_route_Found {H} (ps : list (pattern H)) m path h : find_route ps m path = Found h →
  ∃ p, p ∈ ps ∧ pt_path p = path ∧ serves_method (pt_method p) m = true ∧ pt_handler p = h.
Proof.
  unfold find_route. destruct (filter _ ps) as [|p l] eqn:Ef; [done|].
  assert (∀ p', p' ∈ p :: l → p' ∈ ps ∧ pt_path p' = path) as Hin.
  { intros p' Hp. rewrite <- Ef in Hp. by apply list_elem_of_filter in Hp as [? ?]. }
  destruct (list_find (λ p, pt_method p = m) (p :: l)) as [[i p']|] eqn:E1.
  - intros [= <-]. apply list_find_Some in E1 as (Hl & Hm & _). apply list_elem_of_lookup_2, Hin in Hl as [? ?].
    exists p'. split_and!; try done. unfold serves_method. by case_bool_decide.
  - destruct (list_find (λ p, serves_method (pt_method p) m = true) (p :: l)) as [[i p']|] eqn:E2; [|done].
    intros [= <-]. apply list_find_Some in E2 as (Hl & Hm & _). apply list_elem_of_lookup_2, Hin in Hl as [? ?]. by exists p'.
Qed.

Section facts.
Context `{LC : LogCodec} (q : string → string) (consoleHTML : bytes).

(** ** A plan is its handler *)

(** A call with what the environment gives to a request. *)
Definition op_of (env : Env) (c : call) : op :=
  match c with
  | CallEnqueue req => OpEnqueue (e_now env) (e_random env) (e_append env) req
  | CallDequeue => OpDequeue (e_now env) (e_append env)
  | CallSnapshot limit => OpSnapshot (e_now env) limit
  | CallStats => OpStats (e_now env)
  | CallWalTail limit => OpWalTail (e_read env) limit
  | CallClose => OpClose None
  end.

Definition run_plan (p : plan) (env : Env) (st : QueueService * File) : option (Response * (QueueService * File)) :=
  match asks p with
  | inl resp => Some (resp, st)
  | inr c => '(a, st) ← perform (op_of env c) st; resp ← replies p a; Some (resp, st)
  end.

Definition plans_handler (h : Env → Request → QueueService * File → option (Response * (QueueService * File)))
    (p : Request → plan) : Prop :=
  ∀ env r st, h env r st = run_plan (p r) env st.

Lemma enqueue_plan_runs : plans_handler (enqueue q) (enqueue_plan q).
Proof.
  intros env r [s f]. unfold enqueue, enqueue_plan.
  destruct (Decode _ _ _) as [req|err]; [|by destruct (errors_Is _ _)].
  destruct (Validate req); [done|]. unfold run_plan. cbn [asks op_of perform q_Enqueue service_queue fst snd].
  by destruct (Enqueue _ _ _ _ _ _) as [[[[m|e] s'] f']|].
Qed.

Lemma dequeue_plan_runs : plans_handler (dequeue q) (dequeue_plan q).
Proof.
  intros env r [s f]. unfold dequeue, dequeue_plan, run_plan. cbn [asks op_of perform q_Dequeue service_queue fst snd].
  by destruct (Dequeue _ _ _ _) as [[[[[m|]|e] s'] f']|].
Qed.

Lemma messages_plan_runs : plans_handler messages messages_plan.
Proof.
  intros env r [s f]. unfold messages, messages_plan. destruct (limit_param _ _ r) as [n|]; [|done].
  unfold run_plan. cbn [asks op_of perform q_Snapshot service_queue fst snd]. by destruct (Snapshot _ _ _) as [[v s']|].
Qed.

Lemma wal_plan_runs : plans_handler (wal q) (wal_plan q).
Proof.
  intros env r [s f]. unfold wal, wal_plan. destruct (limit_param _ _ r) as [n|]; [|done].
  unfold run_plan. cbn [asks op_of perform q_WalTail service_queue fst snd mbind option_bind replies].
  by destruct (WalTail _ _ _ _).
Qed.

Lemma stats_plan_runs : plans_handler stats stats_plan.
Proof.
  intros env r [s f]. unfold stats, stats_plan, run_plan. cbn [asks op_of perform q_Stats service_queue fst snd].
  by destruct (Stats _ _) as [[v s']|].
Qed.

Lemma plans_are_the_handlers : Forall2 (same_pattern plans_handler) (NewHandler q consoleHTML) (plans q consoleHTML).
Proof.
  repeat (apply List.Forall2_cons; [split; [reflexivity|split; [reflexivity|]]|]); [..|constructor].
  - apply enqueue_plan_runs.
  - apply dequeue_plan_runs.
  - apply dequeue_plan_runs.
  - apply messages_plan_runs.
  - apply wal_plan_runs.
  - apply stats_plan_runs.
  - by intros env r st.
  - by intros env r st.
Qed.

Lemma plan_runs env r st :
  dispatch (find_route (NewHandler q consoleHTML) (rq_method r) (rq_path r)) env r st
  = run_plan (plan_of q consoleHTML r) env st.
Proof.
  pose proof (find_route_same _ _ _ (rq_method r) (rq_path r) plans_are_the_handlers) as Hr.
  unfold plan_of. destruct (find_route _ _ _), (find_route (plans _ _) _ _); cbn [same_route] in Hr; done.
Qed.

(** ** A job with its call performed whole *)

Definition no_io : Wal.append_io := Wal.MkAppendIO zero_time None None.

Definition env_of (o : op) : Env :=
  match o with
  | OpEnqueue now random io _ => MkEnv now random io read_ok
  | OpDequeue now io => MkEnv now (Ok []) io read_ok
  | OpSnapshot now _ | OpStats now => MkEnv now (Ok []) no_io read_ok
  | OpWalTail io _ => MkEnv zero_time (Ok []) no_io io
  | OpClose _ => MkEnv zero_time (Ok []) no_io read_ok
  end.

(** The job as a task, with what its call got from the environment. *)
Definition task_of (o : op) (j : job) : task :=
  match j with
  | Serve r => ServeOne (env_of o) r
  | ShutDown => CloseAll (match o with OpClose err => err | _ => None end)
  end.

Lemma task_of_job o j : task_job (task_of o j) = j.
Proof. by destruct j. Qed.

Lemma carry_out_request env r st :
  carry_out q consoleHTML (ServeOne env r) st =
    '(resp, st) ← run_plan (plan_of q consoleHTML r) env st; Some (Sent (send r resp), st).
Proof.
  cbn [carry_out]. unfold ServeHTTP. rewrite plan_runs.
  by destruct (run_plan (plan_of q consoleHTML r) env st) as [[resp st']|].
Qed.

Lemma job_replied j out o st : job_begin q consoleHTML j = inl out →
  carry_out q consoleHTML (task_of o j) st = Some (out, st).
Proof.
  destruct j as [r|]; cbn [job_begin task_of]; [|done]. rewrite carry_out_request. unfold run_plan.
  destruct (asks _) as [resp|c]; [|done]. by intros [= <-].
Qed.

Lemma op_of_env o : op_call o ≠ CallClose → op_of (env_of o) (op_call o) = o.
Proof. by destruct o. Qed.

Lemma asks_request p c : asks p = inr c → c ≠ CallClose.
Proof. by destruct p; intros [= <-]. Qed.

Lemma answer_kind p o st a st' : asks p = inr (op_call o) → perform o st = Some (a, st') → is_Some (replies p a).
Proof.
  destruct st as [s f]. destruct p; try done; destruct o; try done; intros _; cbn [perform].
  - destruct (Enqueue _ _ _ _ _ _) as [[[? ?] ?]|]; [|done]. intros [= <- _]. by eexists.
  - destruct (Dequeue _ _ _ _) as [[[? ?] ?]|]; [|done]. intros [= <- _]. by eexists.
  - destruct (Snapshot _ _ _) as [[? ?]|]; [|done]. intros [= <- _]. by eexists.
  - destruct (Stats _ _) as [[? ?]|]; [|done]. intros [= <- _]. by eexists.
  - intros [= <- _]. by eexists.
Qed.

Lemma job_called j o a st st' :
  job_begin q consoleHTML j = inr (op_call o) → perform o st = Some (a, st') →
  ∃ out, job_end q consoleHTML j a = Some out ∧ carry_out q consoleHTML (task_of o j) st = Some (out, st').
Proof.
  destruct j as [r|]; cbn [job_begin job_end task_of].
  - destruct (asks _) as [resp|c] eqn:Ea; [done|]. intros [= ->] Hp.
    destruct (answer_kind _ _ _ _ _ Ea Hp) as [resp Hr]. exists (Sent (send r resp)).
    rewrite Hr, carry_out_request. unfold run_plan. rewrite Ea, op_of_env by (by eapply asks_request).
    rewrite Hp. cbn [mbind option_bind]. by rewrite Hr.
  - destruct st as [s f], o; try done. intros _. cbn [perform carry_out fst snd].
    destruct (Close _ _) as [e s']. intros [= <- <-]. by exists (ClosedWith e).
Qed.

(** ** The trace of a process *)

Definition mark_tid (e : notice + event) : tid :=
  match e with
  | inl (Arrived t _) | inl (Left t _) | inr (Invoked t _) | inr (Responded t _) => t
  end.

Definition fronts (T : list (notice + event)) : list notice :=
  omap (λ e, match e with inl n => Some n | inr _ => None end) T.
Definition backs (T : list (notice + event)) : list event :=
  omap (λ e, match e with inr e => Some e | inl _ => None end) T.
Definition marks_of (t : tid) (T : list (notice + event)) : list (notice + event) := filter (λ e, mark_tid e = t) T.

Lemma fronts_app T T' : fronts (T ++ T') = fronts T ++ fronts T'.
Proof. apply omap_app. Qed.
Lemma backs_app T T' : backs (T ++ T') = backs T ++ backs T'.
Proof. apply omap_app. Qed.
Lemma marks_of_app t T T' : marks_of t (T ++ T') = marks_of t T ++ marks_of t T'.
Proof. apply filter_app. Qed.
Lemma backs_inr h : backs (map inr h) = h.
Proof. induction h as [|e h IH]; [done|]. unfold backs in *. cbn. by rewrite IH. Qed.

(** What the state of a job and of its call say about its marks. *)
Definition job_marks (t : tid) (x : option (job * progress)) (fr : option Frame) (T : list (notice + event)) : Prop :=
  match x, fr with
  | None, None => T = []
  | Some (j, Started), None => T = [inl (Arrived t j)]
  | Some (j, Calling), Some (MkFrame c p) =>
      job_begin q consoleHTML j = inr c ∧
      T = [inl (Arrived t j); inr (Invoked t c)] ++ match p with Returned a => [inr (Responded t a)] | _ => [] end
  | Some (j, Finished out), None =>
      job_begin q consoleHTML j = inl out ∧ T = [inl (Arrived t j); inl (Left t out)]
  | Some (j, Finished out), Some (MkFrame c (Returned a)) =>
      job_begin q consoleHTML j = inr c ∧ job_end q consoleHTML j a = Some out ∧
      T = [inl (Arrived t j); inr (Invoked t c); inr (Responded t a); inl (Left t out)]
  | _, _ => False
  end.

Definition traced (p : Process) (T : list (notice + event)) : Prop :=
  ∀ t, job_marks t (h_jobs p !! t) (k_calls (h_conc p) !! t) (marks_of t T).

Lemma marks_own t h : Forall (λ e, mark_tid e = t) h → marks_of t h = h.
Proof. induction 1 as [|e h He _ IH]; [done|]. unfold marks_of in *. by rewrite filter_cons_True, IH. Qed.

Lemma marks_other t t' h : t' ≠ t → Forall (λ e, mark_tid e = t) h → marks_of t' h = [].
Proof.
  intros Ht. induction 1 as [|e h He _ IH]; [done|]. unfold marks_of in *. by rewrite filter_cons_False by congruence.
Qed.

(** A move is about one job. *)
Lemma traced_move p T p' h t :
  traced p T → Forall (λ e, mark_tid e = t) h →
  (∀ t', t' ≠ t → h_jobs p' !! t' = h_jobs p !! t' ∧ k_calls (h_conc p') !! t' = k_calls (h_conc p) !! t') →
  job_marks t (h_jobs p' !! t) (k_calls (h_conc p') !! t) (marks_of t T ++ h) →
  traced p' (T ++ h).
Proof.
  intros HT Hh Hsame Ht t'. rewrite marks_of_app. destruct (decide (t' = t)) as [->|Hne].
  - by rewrite (marks_own t h).
  - destruct (Hsame t' Hne) as [-> ->]. rewrite (marks_other t t' h), app_nil_r by done. apply HT.
Qed.

Lemma start_traced t j p T h p' : traced p T → make_move q consoleHTML (Start t j) p = Some (h, p') → traced p' (T ++ h).
Proof.
  intros HT. pose proof (HT t) as Ht. cbn [make_move]. destruct (h_jobs p !! t) eqn:Ej; [done|]. intros [= <- <-].
  apply (traced_move p T _ _ t); [done|by repeat constructor| |].
  - intros t' Hne. cbn. by rewrite lookup_insert_ne.
  - cbn [set_job h_jobs h_conc]. rewrite lookup_insert_eq.
    destruct (k_calls (h_conc p) !! t); [done|]. cbn [job_marks] in *. by rewrite Ht.
Qed.

Lemma begin_traced t p T h p' : traced p T → make_move q consoleHTML (Begin t) p = Some (h, p') → traced p' (T ++ h).
Proof.
  intros HT. pose proof (HT t) as Ht. cbn [make_move].
  destruct (h_jobs p !! t) as [[j []]|] eqn:Ej; [|done..]. cbn [job_marks] in Ht.
  destruct (k_calls (h_conc p) !! t) eqn:Ek; [done|]. unfold begin_job.
  destruct (job_begin q consoleHTML j) as [out|c] eqn:Eb; [|unfold invoke; rewrite Ek]; intros [= <- <-];
    (apply (traced_move p T _ _ t); [done|by repeat constructor| |]).
  - intros t' Hne. cbn. by rewrite lookup_insert_ne.
  - cbn [set_job h_jobs h_conc]. by rewrite lookup_insert_eq, Ek, Ht.
  - intros t' Hne. cbn. by rewrite !lookup_insert_ne.
  - cbn [set_job h_jobs h_conc goto k_calls]. by rewrite !lookup_insert_eq, Ht.
Qed.

Lemma advance_traced t i p T h p' : traced p T → make_move q consoleHTML (Advance t i) p = Some (h, p') → traced p' (T ++ h).
Proof.
  intros HT. pose proof (HT t) as Ht. cbn [make_move act].
  destruct (exec t i (h_conc p)) as [k'|] eqn:He; [|done]. cbn [mbind option_bind]. intros [= <- <-].
  apply exec_advances in He as (c & pc & pc' & mu & s & f & last & Ek & -> & Hlt).
  rewrite answer_advance. apply (traced_move p T _ _ t); [done|destruct pc'; by repeat constructor| |].
  - intros t' Hne. cbn. by rewrite lookup_insert_ne.
  - cbn [h_jobs h_conc advance k_calls]. rewrite lookup_insert_eq. rewrite Ek in Ht.
    destruct (h_jobs p !! t) as [[j []]|]; cbn [job_marks] in *; [done| |by destruct pc; cbn in *; lia|done].
    destruct Ht as [Hb ->]. split; [done|]. destruct pc; cbn [steps_left] in Hlt; try lia; by destruct pc'.
Qed.

Lemma finish_traced t p T h p' : traced p T → make_move q consoleHTML (Finish t) p = Some (h, p') → traced p' (T ++ h).
Proof.
  intros HT. pose proof (HT t) as Ht. cbn [make_move].
  destruct (h_jobs p !! t) as [[j []]|] eqn:Ej; [done| |done..]. unfold finish_job, answer_of.
  destruct (k_calls (h_conc p) !! t) as [[c pc]|] eqn:Ek; [|done]. cbn [fmap option_fmap option_map fr_pc].
  destruct pc as [| | | | | | | |a]; try done. cbn [mbind option_bind].
  destruct (job_end q consoleHTML j a) as [out|] eqn:Ee; [|done]. cbn [mbind option_bind]. intros [= <- <-].
  apply (traced_move p T _ _ t); [done|by repeat constructor| |].
  - intros t' Hne. cbn. by rewrite lookup_insert_ne.
  - cbn [set_job h_jobs h_conc]. rewrite lookup_insert_eq, Ek. cbn [job_marks] in *. destruct Ht as [Hb ->]. done.
Qed.

Lemma run_traced l p T h p' : traced p T → run_moves q consoleHTML l p = Some (h, p') → traced p' (T ++ h).
Proof.
  revert p T h. induction l as [|x l IH]; intros p T h HT; cbn [run_moves].
  - intros [= <- <-]. by rewrite app_nil_r.
  - destruct (make_move q consoleHTML x p) as [[h1 p1]|] eqn:Hx; [|done]. cbn [mbind option_bind].
    destruct (run_moves q consoleHTML l p1) as [[h2 p2]|] eqn:Hl; [|done]. cbn [mbind option_bind]. intros [= <- <-].
    rewrite app_assoc. eapply IH; [|done].
    destruct x; eauto using start_traced, begin_traced, advance_traced, finish_traced.
Qed.

Lemma ready_traced s f last : traced (ready s f last) [].
Proof. intros t. cbn. by rewrite !lookup_empty. Qed.

(** The calls of a run of the process are a schedule of the service. *)
Lemma move_schedule x p h p' : make_move q consoleHTML x p = Some (h, p') →
  schedule (actions_of q consoleHTML p x) (h_conc p) = Some (backs h, h_conc p').
Proof.
  destruct x as [t j|t|t i|t]; cbn [make_move actions_of].
  - destruct (h_jobs p !! t); [done|]. by intros [= <- <-].
  - destruct (h_jobs p !! t) as [[j []]|]; [|done..]. unfold begin_job.
    destruct (job_begin q consoleHTML j) as [out|c]; [by intros [= <- <-]|]. cbn [schedule act].
    destruct (invoke t c (h_conc p)); [|done]. by intros [= <- <-].
  - cbn [schedule]. destruct (act (Step t i) (h_conc p)) as [[h1 k]|]; [|done]. cbn [mbind option_bind].
    intros [= <- <-]. by rewrite backs_inr, app_nil_r.
  - destruct (h_jobs p !! t) as [[j []]|]; [done| |done..]. unfold finish_job.
    destruct (answer_of (h_conc p) t) as [a|]; [|done]. cbn [mbind option_bind].
    destruct (job_end q consoleHTML j a); [|done]. by intros [= <- <-].
Qed.

Lemma schedule_app l l' k h k1 h' k2 :
  schedule l k = Some (h, k1) → schedule l' k1 = Some (h', k2) → schedule (l ++ l') k = Some (h ++ h', k2).
Proof.
  revert k h. induction l as [|x l IH]; intros k h; cbn [schedule app]; [by intros [= <- <-] ->|].
  destruct (act x k) as [[h1 k0]|]; [|done]. cbn [mbind option_bind].
  destruct (schedule l k0) as [[h2 k3]|] eqn:Hl; [|done]. cbn [mbind option_bind]. intros [= <- <-] H'.
  rewrite (IH _ _ Hl H'). cbn [mbind option_bind]. by rewrite app_assoc.
Qed.

Lemma run_schedule l p h p' : run_moves q consoleHTML l p = Some (h, p') →
  schedule (service_actions q consoleHTML l p) (h_conc p) = Some (backs h, h_conc p').
Proof.
  revert p h. induction l as [|x l IH]; intros p h; cbn [run_moves service_actions]; [by intros [= <- <-]|].
  destruct (make_move q consoleHTML x p) as [[h1 p1]|] eqn:Hx; [|done]. cbn [mbind option_bind].
  destruct (run_moves q consoleHTML l p1) as [[h2 p2]|] eqn:Hl; [|done]. cbn [mbind option_bind]. intros [= <- <-].
  rewrite backs_app. eapply schedule_app; [by apply move_schedule|by apply IH].
Qed.

(** ** Histories of jobs *)

Inductive jevent :=
  | JArrived (t : tid) (j : job)
  | JTook (t : tid) (x : task) (out : outcome)
  | JLeft (t : tid) (out : outcome).

Definition jev_tid (e : jevent) : tid :=
  match e with JArrived t _ | JTook t _ _ | JLeft t _ => t end.

Definition seen (H : list jevent) : list notice :=
  omap (λ e, match e with
             | JArrived t j => Some (Arrived t j)
             | JLeft t out => Some (Left t out)
             | JTook _ _ _ => None
             end) H.

Definition tasks (H : list jevent) : list (task * outcome) :=
  omap (λ e, match e with JTook _ x out => Some (x, out) | _ => None end) H.

Definition of_job (t : tid) (H : list jevent) : list jevent := filter (λ e, jev_tid e = t) H.

(** A job arrives, takes effect once, as a task that is this job, and leaves with
    the outcome it had then. *)
Definition job_history (l : list jevent) : Prop :=
  match l with
  | [] | [JArrived _ _] => True
  | [JArrived _ j; JTook _ x _] => task_job x = j
  | [JArrived _ j; JTook _ x out; JLeft _ out'] => task_job x = j ∧ out' = out
  | _ => False
  end.

(** A trace with the instants at which the calls take effect. *)
Abbreviation woven := (list (notice + gevent)).

Definition shows (g : gevent) : option event :=
  match g with
  | GInvoked t c => Some (Invoked t c)
  | GResponded t a => Some (Responded t a)
  | GCommitted _ _ _ => None
  end.

Fixpoint trace_of (M : woven) : list (notice + event) :=
  match M with
  | [] => []
  | inl n :: M => inl n :: trace_of M
  | inr g :: M => match shows g with Some e => inr e :: trace_of M | None => trace_of M end
  end.

Fixpoint calls_of (M : woven) : list gevent :=
  match M with
  | [] => []
  | inl _ :: M => calls_of M
  | inr g :: M => g :: calls_of M
  end.

Lemma weave T H : visible H = backs T → ∃ M, trace_of M = T ∧ calls_of M = H.
Proof.
  revert H. induction T as [|[n|e] T IH]; intros H HT.
  - exists (map inr H). induction H as [|[] H IHH]; try done. destruct (IHH HT) as [E1 E2].
    split; [done|]. cbn. by rewrite E2.
  - destruct (IH H HT) as (M & E1 & E2). exists (inl n :: M). cbn. by rewrite E1.
  - change (backs (inr e :: T)) with (e :: backs T) in HT.
    induction H as [|g H IHH]; [done|].
    destruct (shows g) as [e'|] eqn:Eg.
    + assert (e' = e ∧ visible H = backs T) as [-> HT'] 
        by (destruct g; try done; injection Eg as <-; by injection HT as -> HT').
      destruct (IH H HT') as (M & E1 & E2). exists (inr g :: M). cbn. by rewrite Eg, E1, E2.
    + destruct g; try done. destruct (IHH HT) as (M & E1 & E2). eexists (inr (GCommitted _ _ _) :: M). cbn. by rewrite E1, E2.
Qed.

Definition woven_tid (e : notice + gevent) : tid :=
  match e with inl n => mark_tid (inl n) | inr g => ev_tid g end.

Definition woven_of (t : tid) (M : woven) : woven := filter (λ e, woven_tid e = t) M.

Lemma trace_of_woven t M : trace_of (woven_of t M) = marks_of t (trace_of M).
Proof.
  unfold woven_of, marks_of. induction M as [|[n|[t' c|t' o a|t' a]] M IH]; [done|..];
    rewrite filter_cons; cbn [trace_of shows woven_tid mark_tid ev_tid]; rewrite ?filter_cons; cbn [mark_tid];
    case_decide; cbn [trace_of shows]; by rewrite ?IH.
Qed.

Lemma calls_of_woven t M : calls_of (woven_of t M) = of_call t (calls_of M).
Proof.
  unfold woven_of, of_call. induction M as [|[n|g] M IH]; [done|..];
    rewrite filter_cons; cbn [calls_of woven_tid]; [case_decide; by cbn [calls_of]|].
  rewrite filter_cons. case_decide; cbn [calls_of]; by rewrite IH.
Qed.

(** ** From the order of the calls to the order of the jobs *)

Section jobs.
Context (J : gmap tid (job * progress)).

(** A job without a call takes effect when it leaves, another one with its call. *)
Definition job_events (e : notice + gevent) : list jevent :=
  match e with
  | inl (Arrived t j) => [JArrived t j]
  | inl (Left t out) =>
      match J !! t with
      | Some (j, _) =>
          match job_begin q consoleHTML j with
          | inl _ => [JTook t (task_of (OpStats zero_time) j) out; JLeft t out]
          | inr _ => [JLeft t out]
          end
      | None => [JLeft t out]
      end
  | inr (GCommitted t o a) =>
      match J !! t with
      | Some (j, _) =>
          match job_end q consoleHTML j a with Some out => [JTook t (task_of o j) out] | None => [] end
      | None => []
      end
  | inr _ => []
  end.

(** What the marks of a job say about an event. *)
Definition event_ok (e : notice + gevent) : Prop :=
  match e with
  | inl (Left t out) => ∀ j x out', J !! t = Some (j, x) → job_begin q consoleHTML j = inl out' → out = out'
  | inr (GCommitted t o a) => ∃ j x, J !! t = Some (j, x) ∧ job_begin q consoleHTML j = inr (op_call o)
  | _ => True
  end.

Lemma job_events_tid e : Forall (λ x, jev_tid x = woven_tid e) (job_events e).
Proof.
  destruct e as [[t j|t out]|[t c|t o a|t a]]; cbn [job_events]; repeat case_match; by repeat constructor.
Qed.

Lemma seen_events M : seen (M ≫= job_events) = fronts (trace_of M).
Proof.
  assert (∀ H H', seen (H ++ H') = seen H ++ seen H') as Happ by (intros; apply omap_app).
  induction M as [|e M IH]; [done|]. rewrite bind_cons, Happ, IH.
  destruct e as [[t j|t out]|[t c|t o a|t a]]; cbn [job_events trace_of shows]; repeat case_match; done.
Qed.

Lemma of_job_events t M : of_job t (M ≫= job_events) = woven_of t M ≫= job_events.
Proof.
  induction M as [|e M IH]; [done|]. unfold of_job, woven_of in *. rewrite bind_cons, filter_app, IH, filter_cons.
  pose proof (job_events_tid e) as He. case_decide as Ht; rewrite ?bind_cons.
  - f_equal. subst t. induction He as [|x l Hx _ IHl]; [done|]. by rewrite filter_cons_True, IHl.
  - assert (filter (λ e0, jev_tid e0 = t) (job_events e) = []) as ->; [|done].
    induction He as [|x l Hx _ IHl]; [done|]. by rewrite filter_cons_False by congruence.
Qed.

Lemma tasks_follow M st st' : Forall event_ok M →
  perform_all (commits (calls_of M)).*1 st = Some ((commits (calls_of M)).*2, st') →
  carry_out_all q consoleHTML (tasks (M ≫= job_events)).*1 st = Some ((tasks (M ≫= job_events)).*2, st').
Proof.
  intros HM. revert st. induction HM as [|e M He _ IH]; intros st.
  { by intros [= <-]. }
  assert (∀ H H', tasks (H ++ H') = tasks H ++ tasks H') as Happ by (intros; apply omap_app).
  rewrite bind_cons, Happ, !fmap_app.
  destruct e as [[t j|t out]|[t c|t o a|t a]]; cbn [job_events calls_of event_ok] in *; try apply IH.
  - destruct (J !! t) as [[j x]|]; [|apply IH]. destruct (job_begin q consoleHTML j) as [out'|c] eqn:Eb; [|apply IH].
    intros Hp%IH. rewrite (He j x out' eq_refl Eb). cbn [tasks omap list_omap fmap list_fmap app fst snd carry_out_all].
    rewrite (job_replied _ _ _ _ Eb). cbn [mbind option_bind]. by rewrite Hp.
  - destruct He as (j & x & Ej & Eb). rewrite Ej.
    change (commits (GCommitted t o a :: calls_of M)) with ((o, a) :: commits (calls_of M)). rewrite !fmap_cons. cbn [fst snd perform_all].
    destruct (perform o st) as [[a' st1]|] eqn:Hp; [|done]. cbn [mbind option_bind].
    destruct (perform_all _ st1) as [[rs st2]|] eqn:Hps; [|done]. cbn [mbind option_bind]. intros [= -> -> ->].
    destruct (job_called _ _ _ _ _ Eb Hp) as (out & -> & Hout).
    cbn [tasks omap list_omap fmap list_fmap app fst snd carry_out_all]. rewrite Hout. cbn [mbind option_bind].
    by rewrite (IH _ Hps).
Qed.
End jobs.

(** The marks of a job and the history of its call fit in one way only. *)
Ltac split_woven := repeat match goal with
  | N : list (notice + gevent) |- _ => destruct N as [|[?|[]] N]; simplify_eq/=
  end.

Lemma call_shape t t' c l : call_history l → Forall (λ e, ev_tid e = t) l → visible l = [Invoked t' c] →
  l = [GInvoked t' c] ∨ ∃ o a, op_call o = c ∧ l = [GInvoked t' c; GCommitted t o a].
Proof.
  destruct l as [|[] [|[] [|[] [|]]]]; try done; cbn [call_history]; intros Hc Ht%Forall_cons_1; try by intros [= -> ->]; left.
  destruct Ht as [_ Ht%Forall_cons_1]. destruct Ht as [<- _]. intros [= -> ->]. right. eauto.
Qed.

Lemma call_shape_over t t' c a l : call_history l → Forall (λ e, ev_tid e = t) l →
  visible l = [Invoked t' c; Responded t' a] →
  ∃ o, op_call o = c ∧ l = [GInvoked t' c; GCommitted t o a; GResponded t' a].
Proof.
  destruct l as [|[] [|[] [|[] [|]]]]; try done; cbn [call_history]; intros Hc Ht%Forall_cons_1; try done.
  destruct Ht as [_ Ht%Forall_cons_1], Hc as [Ho ->]. destruct Ht as [<- _]. intros [=]; subst. eexists. eauto.
Qed.

Lemma calls_visible M : visible (calls_of M) = backs (trace_of M).
Proof.
  induction M as [|[n|g] M IH]; [done|exact IH|]. cbn [calls_of trace_of].
  change (visible (g :: calls_of M)) with (match shows g with Some e => e :: visible (calls_of M) | None => visible (calls_of M) end).
  rewrite IH. by destruct (shows g).
Qed.

Lemma call_shape_none l : call_history l → visible l = [] → l = [].
Proof. by destruct l as [|[] [|[] ?]]. Qed.

(** What is to be shown of the events of one job. *)
Definition fits (J : gmap tid (job * progress)) (N : woven) : Prop :=
  job_history (N ≫= job_events J) ∧ Forall (event_ok J) N.

(** A job in its call. *)
Lemma fits_call t J j x o a l : J !! t = Some (j, x) → job_begin q consoleHTML j = inr (op_call o) →
  l = [] ∨ l = [inr (GResponded t a)] →
  fits J (inl (Arrived t j) :: inr (GInvoked t (op_call o)) :: inr (GCommitted t o a) :: l).
Proof.
  intros Ej Hb Hl. split.
  - destruct Hl as [-> | ->]; cbn [mbind list_bind job_events]; rewrite Ej; destruct (job_end _ _ j a); cbn;
      by rewrite ?task_of_job.
  - assert (event_ok J (inr (GCommitted t o a))) by (by exists j, x).
    destruct Hl as [-> | ->]; by repeat constructor.
Qed.

Lemma woven_own t J x fr N :
  J !! t = x → job_marks t x fr (trace_of N) → call_history (calls_of N) → Forall (λ e, ev_tid e = t) (calls_of N) →
  fits J N.
Proof.
  intros Ej Hm Hh Ht. pose proof (calls_visible N) as Hv.
  destruct x as [[j []]|], fr as [[c pc]|]; cbn [job_marks] in Hm; try done.
  - rewrite Hm in Hv. apply (call_shape_none _ Hh) in Hv. split_woven. by repeat constructor.
  - destruct Hm as [Hb Hm]. rewrite Hm in Hv.
    assert ((∃ a, pc = Returned a) ∨ match pc with Returned _ => False | _ => True end) as [[a ->]|Hpc]
      by (destruct pc; eauto).
    + destruct (call_shape_over _ _ _ _ _ Hh Ht Hv) as (o & <- & Hc). split_woven. eapply fits_call; eauto.
    + assert (visible (calls_of N) = [Invoked t c]) as Hv' by (by destruct pc).
      assert (trace_of N = [inl (Arrived t j); inr (Invoked t c)]) as Hm' by (by destruct pc). clear Hm Hv Hpc.
      destruct (call_shape _ _ _ _ Hh Ht Hv') as [Hc|(o & a & <- & Hc)]; split_woven; [by repeat constructor|].
      eapply fits_call; eauto.
  - destruct pc as [| | | | | | | |a]; try done. destruct Hm as (Hb & He & Hm). rewrite Hm in Hv.
    destruct (call_shape_over _ _ _ _ _ Hh Ht Hv) as (o & <- & Hc). split_woven. split.
    + cbn [mbind list_bind job_events]. rewrite Ej, He, Hb. cbn. by rewrite task_of_job.
    + repeat constructor; [by exists j, (Finished out)|]. intros j' x' out' E' Hb'. congruence.
  - destruct Hm as [Hb Hm]. rewrite Hm in Hv. apply (call_shape_none _ Hh) in Hv. split_woven. split.
    + cbn [mbind list_bind job_events]. rewrite Ej, Hb. cbn. by rewrite task_of_job.
    + repeat constructor. intros j' x' out' E' Hb'. congruence.
  - rewrite Hm in Hv. apply (call_shape_none _ Hh) in Hv. by split_woven.
Qed.

(** Any order of the calls that a schedule made gives an order of the jobs. *)
Lemma jobs_ordered l s f last T p H :
  run_moves q consoleHTML l (ready s f last) = Some (T, p) →
  visible H = backs T → (∀ t, call_history (of_call t H)) →
  ∃ M, trace_of M = T ∧ calls_of M = H ∧ Forall (event_ok (h_jobs p)) M ∧
    ∀ t, job_history (of_job t (M ≫= job_events (h_jobs p))).
Proof.
  intros Hl Hv Hh. destruct (weave T H Hv) as (M & <- & <-). exists M.
  assert (traced p (trace_of M)) as HT by exact (run_traced _ _ _ _ _ (ready_traced s f last) Hl).
  assert (∀ t, fits (h_jobs p) (woven_of t M)) as HN.
  { intros t. eapply woven_own; [reflexivity| | |].
    - rewrite trace_of_woven. apply HT.
    - rewrite calls_of_woven. apply Hh.
    - rewrite calls_of_woven. apply Forall_forall. intros e [He _]%list_elem_of_filter. done. }
  split_and!; [done|done| |intros t; rewrite of_job_events; apply HN].
  apply Forall_forall. intros e He. pose proof (HN (woven_tid e)) as [_ Hf]. rewrite Forall_forall in Hf.
  apply Hf, list_elem_of_filter. done.
Qed.
End facts.
