(* ===== verification/RequestsTheorems.v ===== *)
(** * What HTTP clients can rely on together

    Requests that are served in parallel, next to the [Close] of the process,
    have an order in which serving them one at a time gives the same responses;
    and what they were told survives a process that is killed, also while it
    writes to the log. *)

From S2P Require Import Prelude GoTime GoStrconv GoUtf8 GoJson GoTimeFormat Model Codec CodecFacts LogRecord Engine.
From S2P Require Import Service ServiceFacts ServiceTrace ServiceTheorems.
From S2P Require Import Concurrent ConcurrentFacts ConcurrentOrder ConcurrentRuns ConcurrentTheorems.
From S2P Require Import GoJsonStream GoHttp Api ApiTheorems Requests RequestsFacts.
From S2P Require Wal WalFacts WalTheorems.
From Stdlib Require Import Ascii.

Import Wal (WAL, File, MkFile, f_data, MkAppendIO, read_ok).

Local Open Scope Z_scope.

(** ** What a plan replies *)

Section plans.
Context (q : string → string) (consoleHTML : bytes).

(** The plan of a request, by its path. *)
Lemma plan_cases r :
  (rq_path r = "/enqueue" ∧ plan_of q consoleHTML r = enqueue_plan q r)
  ∨ (rq_path r = "/dequeue" ∧ plan_of q consoleHTML r = dequeue_plan q r)
  ∨ ((rq_path r ∉ ["/enqueue"; "/dequeue"]) ∧
      plan_of q consoleHTML r ∈ [messages_plan r; wal_plan q r; stats_plan r; health_plan r; console_plan consoleHTML r])
  ∨ (∃ resp, plan_of q consoleHTML r = Reply resp ∧ rs_status resp ∈ [404; 405]).
Proof.
  unfold plan_of. destruct (find_route _ _ _) as [p| |] eqn:Ef.
  - apply find_route_Found in Ef as (pt & Hin & Hpath & _ & <-). rewrite <- Hpath.
    unfold plans in Hin. repeat setoid_rewrite elem_of_cons in Hin.
    destruct Hin as [->|[->|[->|[->|[->|[->|[->|[->|Hin]]]]]]]]; cbn [pt_path pt_handler];
      [by left|by right; left|by right; left| | | | | |by apply not_elem_of_nil in Hin].
    all: right; right; left; split; [by apply (bool_decide_unpack _)|].
    all: [> apply (list_elem_of_lookup_2 _ 0)|apply (list_elem_of_lookup_2 _ 1)|apply (list_elem_of_lookup_2 _ 2)
         |apply (list_elem_of_lookup_2 _ 3)|apply (list_elem_of_lookup_2 _ 4)]; reflexivity.
  - do 3 right. eexists. split; [done|]. by apply (bool_decide_unpack _).
  - do 3 right. eexists. split; [done|]. by apply (bool_decide_unpack _).
Qed.

Lemma writeJSON_code s v : rs_status (writeJSON s v) = s ∨ rs_status (writeJSON s v) = 500.
Proof. unfold writeJSON. destruct (MarshalIndent v); [by left|by right]. Qed.

Lemma writeServiceError_code e : rs_status (writeServiceError q e) ∈ [500; 503].
Proof.
  unfold writeServiceError, writeError. destruct (errors_Is _ _); apply elem_of_cons.
  - edestruct writeJSON_code as [-> | ->]; [right; by apply list_elem_of_singleton|by left].
  - edestruct writeJSON_code as [-> | ->]; by left.
Qed.

(** Outside [POST /enqueue] nothing is created, and only [/dequeue] hands out. *)
Definition inspects (p : plan) : Prop :=
  (∀ resp, asks p = inl resp → rs_status resp ≠ 201) ∧
  (∀ a resp, replies p a = Some resp → rs_status resp ≠ 201) ∧
  (∀ r, replies p (AnsEnqueue r) = None) ∧ (∀ r, replies p (AnsDequeue r) = None).

Lemma writeJSON_not s v n : s ≠ n → n ≠ 500 → rs_status (writeJSON s v) ≠ n.
Proof. intros Hs Hn. by destruct (writeJSON_code s v) as [-> | ->]. Qed.

Lemma writeServiceError_not e n : n ≠ 500 → n ≠ 503 → rs_status (writeServiceError q e) ≠ n.
Proof. intros. pose proof (writeServiceError_code e) as He. set_solver. Qed.

Lemma inspections r :
  Forall inspects [messages_plan r; wal_plan q r; stats_plan r; health_plan r; console_plan consoleHTML r].
Proof.
  repeat (apply List.Forall_cons); [| | | | |constructor].
  - unfold messages_plan. destruct (limit_param _ _ _); repeat split; try done;
      [intros [] resp; try done|intros resp]; intros [= <-]; by apply writeJSON_not.
  - unfold wal_plan. destruct (limit_param _ _ _); repeat split; try done;
      [intros [] resp; try done|intros resp]; intros [= <-]; [|by apply writeJSON_not].
    destruct r0; [by apply writeJSON_not|by apply writeServiceError_not].
  - repeat split; try done. intros [] resp; try done. intros [= <-]. by apply writeJSON_not.
  - repeat split; try done. intros resp [= <-]. by apply writeJSON_not.
  - repeat split; try done. by intros resp [= <-].
Qed.

(** What is replied without a call. *)
Lemma replied_code r resp : asks (plan_of q consoleHTML r) = inl resp →
  rs_status resp ≠ 201 ∧ (rq_path r = "/dequeue" → rs_status resp ≠ 200).
Proof.
  destruct (plan_cases r) as [[Hp ->]|[[Hp ->]|[[Hp Hin]|(resp' & -> & Hs)]]].
  - intros Ha. split; [|congruence]. unfold enqueue_plan in Ha.
    destruct (Decode _ _ _) as [req|e]; [destruct (Validate req); [|done]|destruct (errors_Is _ _)];
      injection Ha as <-; by apply writeJSON_not.
  - done.
  - intros Ha. split; [|intros E; rewrite E in Hp; set_solver].
    pose proof (proj1 (Forall_forall _ _) (inspections r) _ Hin) as (Hi & _). by apply Hi.
  - intros [= ->]. repeat setoid_rewrite elem_of_cons in Hs. rewrite elem_of_nil in Hs. lia.
Qed.

(** What is replied to an answer. *)
Lemma answered_code r a resp : replies (plan_of q consoleHTML r) a = Some resp →
  match a with
  | AnsEnqueue (Ok m) => resp = writeJSON StatusCreated (enc_message m)
  | AnsDequeue (Ok (Some m)) => resp = writeJSON StatusOK (enc_message m)
  | _ => rs_status resp ≠ 201 ∧ (rq_path r = "/dequeue" → rs_status resp ≠ 200)
  end.
Proof.
  destruct (plan_cases r) as [[Hp ->]|[[Hp ->]|[[Hp Hin]|(resp' & -> & Hs)]]]; [| | |done].
  - unfold enqueue_plan. destruct (Decode _ _ _) as [req|e]; [destruct (Validate req)|destruct (errors_Is _ _)]; try done.
    destruct a as [[m|e]| | | | |]; try done; intros [= <-]; [done|].
    split; [by apply writeServiceError_not|congruence].
  - unfold dequeue_plan. destruct a as [|[[m|]|e]| | | |]; try done; intros [= <-]; [done|done|].
    split; [|intros _]; by apply writeServiceError_not.
  - pose proof (proj1 (Forall_forall _ _) (inspections r) _ Hin) as (_ & Hi & He & Hd). intros Ha.
    assert (rs_status resp ≠ 201 ∧ (rq_path r = "/dequeue" → rs_status resp ≠ 200)) as Hn
      by (split; [by eapply Hi|intros E; rewrite E in Hp; set_solver]).
    destruct a as [?|?| | | |]; [by rewrite He in Ha|by rewrite Hd in Ha|done..].
Qed.
End plans.

(** ** Whose answer a message was *)

Definition answers_of (H : list gevent) : list (tid * answer) :=
  omap (λ e, match e with GCommitted t _ a => Some (t, a) | _ => None end) H.

Definition picked (pick : answer → option Message) (H : list gevent) : list (tid * Message) :=
  omap (λ x, pair x.1 <$> pick x.2) (answers_of H).

Definition created_by (a : answer) : option Message :=
  match a with AnsEnqueue (Ok m) => Some m | _ => None end.
Definition delivered_by (a : answer) : option Message :=
  match a with AnsDequeue (Ok (Some m)) => Some m | _ => None end.

Lemma answers_app H H' : answers_of (H ++ H') = answers_of H ++ answers_of H'.
Proof. apply omap_app. Qed.

Lemma picked_messages pick by_list H : (∀ a, by_list a = option_list (pick a)) →
  (picked pick H).*2 = (commits H).*2 ≫= by_list.
Proof.
  intros Hb. induction H as [|[] H IH]; [done|exact IH| |exact IH].
  change (commits (GCommitted t o a :: H)) with ((o, a) :: commits H).
  change (picked pick (GCommitted t o a :: H)) with (omap (λ x : tid * answer, pair x.1 <$> pick x.2) ((t, a) :: answers_of H)).
  rewrite fmap_cons, bind_cons, <- IH, Hb. cbn [omap list_omap fst snd].
  by destruct (pick a).
Qed.

Lemma answers_of_call t H : answers_of (of_call t H) = filter (λ x, x.1 = t) (answers_of H).
Proof.
  unfold of_call. induction H as [|[t' c|t' o a|t' a] H IH]; [done|..]; rewrite filter_cons; cbn [ev_tid].
  - case_decide; exact IH.
  - change (answers_of (GCommitted t' o a :: H)) with ((t', a) :: answers_of H). rewrite filter_cons. cbn [fst].
    case_decide; [|exact IH]. by rewrite <- IH.
  - case_decide; exact IH.
Qed.

Lemma NoDup_few {A} `{EqDecision A} (l : list A) : (∀ x, (length (filter (λ y, y = x) l) <= 1)%nat) → NoDup l.
Proof.
  induction l as [|x l IH]; intros Hl; constructor.
  - intros Hx. pose proof (Hl x) as Hn. rewrite filter_cons_True in Hn by done. cbn [length] in Hn.
    assert (x ∈ filter (λ y, y = x) l) as Hf by (by apply list_elem_of_filter).
    destruct (filter (λ y, y = x) l); [by apply elem_of_nil in Hf|cbn in Hn; lia].
  - apply IH. intros y. pose proof (Hl y) as Hn. rewrite filter_cons in Hn. case_decide; cbn [length] in Hn; lia.
Qed.

Lemma filter_fst_length {A B} `{EqDecision A} (l : list (A * B)) x :
  length (filter (λ y, y = x) l.*1) = length (filter (λ y, y.1 = x) l).
Proof.
  induction l as [|[a b] l IH]; [done|]. rewrite fmap_cons, !filter_cons. cbn [fst].
  case_decide; cbn [length]; by rewrite IH.
Qed.

Lemma picked_NoDup pick H : (∀ t, call_history (of_call t H)) → NoDup (picked pick H).*1.
Proof.
  intros Hh.
  assert (NoDup (answers_of H).*1) as Hn.
  { apply NoDup_few. intros t. rewrite filter_fst_length, <- answers_of_call. specialize (Hh t).
    destruct (of_call t H) as [|[] [|[] [|[] [|]]]]; cbn in *; try done; lia. }
  eapply sublist_NoDup; [exact Hn|]. unfold picked. clear.
  induction (answers_of H) as [|[t a] l IH]; [done|]. cbn [omap list_omap fmap list_fmap fst snd] in *.
  destruct (pick a); cbn [fmap option_fmap option_map]; by constructor.
Qed.

Lemma picked_elem pick H t m :
  (t, m) ∈ picked pick H ↔ ∃ a, (t, a) ∈ answers_of (of_call t H) ∧ pick a = Some m.
Proof.
  unfold picked. rewrite list_elem_of_omap, answers_of_call. setoid_rewrite list_elem_of_filter. split.
  - intros ([t' a] & Hin & Hp). cbn [fst snd] in Hp. destruct (pick a) as [m'|] eqn:Ea; [|done].
    injection Hp as -> ->. by exists a.
  - intros (a & [_ Hin] & Hp). exists (t, a). split; [done|]. cbn [fst snd]. by rewrite Hp.
Qed.

Lemma send_status r resp : rs_status (send r resp) = rs_status resp.
Proof. unfold send. by case_decide. Qed.

Section theorems.
Context `{LC : LogCodec} {LL : LogCodecLaws LC} (q : string → string) (consoleHTML : bytes).

(** A request that was answered either made no call, or its response is the
    reply to the answer of the one call it made. *)
Lemma answered_request p M t r resp :
  traced q consoleHTML p (trace_of M) → (∀ t, call_history (of_call t (calls_of M))) →
  Arrived t (Serve r) ∈ fronts (trace_of M) → Left t (Sent resp) ∈ fronts (trace_of M) →
  (∃ resp0, asks (plan_of q consoleHTML r) = inl resp0 ∧ resp = send r resp0
    ∧ answers_of (of_call t (calls_of M)) = []) ∨
  (∃ a resp0, replies (plan_of q consoleHTML r) a = Some resp0 ∧ resp = send r resp0
    ∧ answers_of (of_call t (calls_of M)) = [(t, a)]).
Proof.
  intros HT Hh Ha Hl.
  assert (∀ n, n ∈ fronts (trace_of M) → inl n ∈ marks_of (mark_tid (inl n)) (trace_of M)) as Hin.
  { intros n ([n'|] & Hn & [= <-])%list_elem_of_omap. by apply list_elem_of_filter. }
  apply Hin in Ha, Hl. cbn [mark_tid] in Ha, Hl. specialize (HT t). specialize (Hh t).
  pose proof (calls_visible (woven_of t M)) as Hv. rewrite trace_of_woven, calls_of_woven in Hv.
  assert (Forall (λ e, ev_tid e = t) (of_call t (calls_of M))) as Ht
    by (apply Forall_forall; by intros e [He _]%list_elem_of_filter).
  destruct (h_jobs p !! t) as [[j []]|], (k_calls (h_conc p) !! t) as [[c pc]|]; cbn [job_marks] in HT; try done.
  - rewrite HT in Hl. set_solver.
  - destruct HT as [_ HT]. rewrite HT in Hl. destruct pc; set_solver.
  - right. destruct pc as [| | | | | | | |a]; try done. destruct HT as (Hb & He & HT). rewrite HT in Ha, Hl, Hv.
    assert (j = Serve r ∧ out = Sent resp) as [-> ->] by (clear -Ha Hl; set_solver).
    destruct (call_shape_over _ _ _ _ _ Hh Ht Hv) as (o & _ & ->).
    cbn [job_end] in He. destruct (replies _ a) as [resp0|] eqn:Er; [|done]. injection He as <-. by exists a, resp0.
  - left. destruct HT as [Hb HT]. rewrite HT in Ha, Hl, Hv.
    assert (j = Serve r ∧ out = Sent resp) as [-> ->] by (clear -Ha Hl; set_solver).
    rewrite (call_shape_none _ Hh Hv). cbn [job_begin] in Hb.
    destruct (asks _) as [resp0|c]; [|done]. injection Hb as <-. by exists resp0.
  - rewrite HT in Hl. set_solver.
Qed.

(** C1: Requests that are served in parallel are served as if one after the other:
    whatever the moves of the handlers, of their calls and of the [Close] of the
    process, whatever the files and the clock do, there is one instant per
    request, between its arrival and its response, such that serving the requests
    whole, with [ServeHTTP], in the order of these instants gives every response
    that was sent, and, when no call holds the lock for writing, the state of the
    service and of the log file. *)
Theorem requests_are_linearizable (l : list move) (s : QueueService) (f : File) (last : Z) (T : list (notice + event)) (p : Process) :
  run_moves q consoleHTML l (ready s f last) = Some (T, p) →
  ∃ (H : list jevent) (st : QueueService * File),
    seen H = fronts T ∧ (∀ t, job_history (of_job t H)) ∧
    carry_out_all q consoleHTML (tasks H).*1 (s, f) = Some ((tasks H).*2, st) ∧
    (mu_writer (k_mu (h_conc p)) = None → st = (k_svc (h_conc p), k_file (h_conc p))).
Proof.
  intros Hl. pose proof (run_schedule _ _ _ _ _ _ Hl) as Hs.
  destruct (schedule_sequential s f last _ _ _ Hs) as (H & st & Hv & Hh & Hp & Hst).
  destruct (jobs_ordered _ _ _ _ _ _ _ _ _ Hl Hv Hh) as (M & <- & <- & Hok & Hhist).
  exists (M ≫= job_events q consoleHTML (h_jobs p)), st. split_and!; [apply seen_events|exact Hhist| |exact Hst].
  by apply tasks_follow.
Qed.

(** ** Lives of the process *)

(** A process that begins to serve on what [c] holds. *)
Definition start_on (c : Config) : Process := ready (c_svc c) (c_file c) (c_last c).

(** Moves of a process that serves on [c], with a fair environment. *)
Definition fair_moves (c : Config) (l : list move) : Prop :=
  fair_schedule (c_off c) (service_actions q consoleHTML l (start_on c)) (serving c).

(** A process serves, is killed, and the next one opens the log it left, with a
    monotonic clock of its own: any number of times.  Of each life the list has
    what its clients saw and the last reading of its clock. *)
Inductive lives : Config → list (list notice * Z) → Config → Prop :=
  | lives_nil c : lives c [] c
  | lives_cons c l T p path mode off s' Ts c' :
      fair_moves c l → run_moves q consoleHTML l (start_on c) = Some (T, p) →
      NewQueueService path mode None read_ok (crash (k_file (h_conc p))) = Some (Ok s') →
      lives (MkConfig off (k_last (h_conc p)) s' (crash (k_file (h_conc p)))) Ts c' →
      lives c ((fronts T, k_last (h_conc p)) :: Ts) c'.

(** The messages of one life, each with the number of its request: a request
    creates or receives at most one, none that is not due, and what a request was
    answered says what it did. *)
Record account (life : list notice * Z) (created delivered : list (tid * Message)) : Prop := {
  ac_created_once : NoDup created.*1;
  ac_delivered_once : NoDup delivered.*1;
  ac_due : Forall (λ m, t_wall (AvailableAt m) <= life.2) delivered.*2;
  ac_answers t r resp : Arrived t (Serve r) ∈ life.1 → Left t (Sent resp) ∈ life.1 →
    (∀ m, (t, m) ∈ created → resp = send r (writeJSON StatusCreated (enc_message m))) ∧
    (∀ m, (t, m) ∈ delivered → resp = send r (writeJSON StatusOK (enc_message m))) ∧
    (rs_status resp = StatusCreated → ∃ m, (t, m) ∈ created) ∧
    (rq_path r = "/dequeue" → rs_status resp = StatusOK → ∃ m, (t, m) ∈ delivered)
}.

Lemma answers_account p M t r resp :
  traced q consoleHTML p (trace_of M) → (∀ t, call_history (of_call t (calls_of M))) →
  Arrived t (Serve r) ∈ fronts (trace_of M) → Left t (Sent resp) ∈ fronts (trace_of M) →
  let created := picked created_by (calls_of M) in
  let delivered := picked delivered_by (calls_of M) in
  (∀ m, (t, m) ∈ created → resp = send r (writeJSON StatusCreated (enc_message m))) ∧
  (∀ m, (t, m) ∈ delivered → resp = send r (writeJSON StatusOK (enc_message m))) ∧
  (rs_status resp = StatusCreated → ∃ m, (t, m) ∈ created) ∧
  (rq_path r = "/dequeue" → rs_status resp = StatusOK → ∃ m, (t, m) ∈ delivered).
Proof.
  intros HT Hh Ha Hleft. cbn zeta. setoid_rewrite picked_elem.
  destruct (answered_request p M t r resp HT Hh Ha Hleft) as [(resp0 & Hasks & -> & ->)|(a & resp0 & Hrep & -> & ->)];
    rewrite send_status.
  - pose proof (replied_code _ _ _ _ Hasks) as [H1 H2]. split_and!; [..|done|by intros ?%H2];
      intros m (a & Hin & _); by apply elem_of_nil in Hin.
  - pose proof (answered_code _ _ _ _ _ Hrep) as Hc. setoid_rewrite list_elem_of_singleton. split_and!.
    + intros m (a' & [= ->] & Hm). destruct a as [[]| | | | |]; try done. injection Hm as ->. by rewrite Hc.
    + intros m (a' & [= ->] & Hm). destruct a as [|[[]|]| | | |]; try done. injection Hm as ->. by rewrite Hc.
    + intros Hst. destruct a as [[m|]|[[m|]|]| | | |]; try by destruct Hc.
      * exists m, (AnsEnqueue (Ok m)). done.
      * rewrite Hc in Hst. by eapply writeJSON_not in Hst.
    + intros Hpath Hst. destruct a as [[m|]|[[m|]|]| | | |]; try by apply (proj2 Hc Hpath) in Hst.
      * rewrite Hc in Hst. by eapply writeJSON_not in Hst.
      * exists m, (AnsDequeue (Ok (Some m))). done.
Qed.

(** One life, however it ends, and what it leaves. *)
Lemma life_account c l T p f path mode :
  (∃ es bs, good c es bs) → fair_moves c l → run_moves q consoleHTML l (start_on c) = Some (T, p) →
  left_by (c_off c) (h_conc p) f → Valid mode = true →
  ∃ created delivered s',
    NewQueueService path mode None read_ok f = Some (Ok s') ∧
    wire_message <$> created.*2 ++ held (c_svc c) ≡ₚ wire_message <$> delivered.*2 ++ held s' ∧
    account (fronts T, k_last (h_conc p)) created delivered.
Proof.
  intros Hg Hf Hl Hleft Hmode. pose proof (run_schedule _ _ _ _ _ _ Hl) as Hs.
  destruct (left_good (c_off c) c _ _ _ f path mode Hg eq_refl Hf Hs Hleft Hmode) as (H & s' & Hv & Hh & Hn & Hp & Hd).
  destruct (jobs_ordered _ _ _ _ _ _ _ _ _ Hl Hv Hh) as (M & <- & <- & _ & _).
  rewrite <- (picked_messages created_by accepted_by) in Hp by by intros [[]| | | | |].
  rewrite <- (picked_messages delivered_by handed_by) in Hp, Hd by by intros [|[[]|]| | | |].
  assert (traced q consoleHTML p (trace_of M)) as HT by exact (run_traced _ _ _ _ _ _ _ (ready_traced _ _ _ _ _) Hl).
  exists (picked created_by (calls_of M)), (picked delivered_by (calls_of M)), s'.
  split_and!; [done|done|]. split; [by apply picked_NoDup|by apply picked_NoDup|done|].
  intros t r resp Ha Hleft'. by apply (answers_account p).
Qed.

(** A next process can go on, when the last one was not killed while it wrote. *)
Lemma next_good c l T p path mode s' :
  (∃ es bs, good c es bs) → fair_moves c l → run_moves q consoleHTML l (start_on c) = Some (T, p) →
  NewQueueService path mode None read_ok (crash (k_file (h_conc p))) = Some (Ok s') →
  ∀ off, ∃ es bs, good (MkConfig off (k_last (h_conc p)) s' (crash (k_file (h_conc p)))) es bs.
Proof.
  intros Hg Hf Hl Hn. pose proof (run_schedule _ _ _ _ _ _ Hl) as Hs.
  destruct (killed_good (c_off c) c _ _ _ path mode Hg eq_refl Hf Hs (NewQueueService_valid _ _ _ _ _ _ Hn)) as (s2 & Hn2 & Hg2).
  rewrite Hn in Hn2. by injection Hn2 as <-.
Qed.

Lemma lives_good c Ts c' : (∃ es bs, good c es bs) → lives c Ts c' → ∃ es bs, good c' es bs.
Proof.
  intros Hg Hl. induction Hl as [c|c l T p path mode off s' Ts c' Hf Hm Hn _ IH]; [done|].
  by apply IH, (next_good c l T p path mode s').
Qed.

(** C2: What clients are told holds, however often the process dies.  Processes
    serve requests in parallel on one log, from any state a run of the service
    reaches; the system carries out each append or refuses it whole.  Each
    process is killed after any move, and the next one opens the log in any mode;
    the last one may also be killed while it writes, with any number of the bytes
    of its record in the file.  Then there is a next process: the log that is left
    opens; and the messages created in all these lives, with those held at first,
    are the messages delivered in them, with those the next process holds.  In
    each life a request creates or receives at most one message and none before it
    is due; a request that created or received one is answered with it, if it is
    answered; and one that is answered 201, or 200 by /dequeue, did create or
    receive one.  Not covered are lives that go on behind half a record, or after
    a failed sync: [torn_tail_swallows_the_next_record] and
    [unsynced_dequeue_loses_the_message] show what they lose. *)
Theorem answered_requests_are_durable (c c' : Config) (Ts : list (list notice * Z)) (l : list move)
    (T : list (notice + event)) (p : Process) (f : File) (path : string) (mode : QueueMode) :
  reachable c → lives c Ts c' → fair_moves c' l → run_moves q consoleHTML l (start_on c') = Some (T, p) →
  left_by (c_off c') (h_conc p) f → Valid mode = true →
  ∃ (created delivered : list (list (tid * Message))) (s' : QueueService),
    NewQueueService path mode None read_ok f = Some (Ok s') ∧
    Forall3 account (Ts ++ [(fronts T, k_last (h_conc p))]) created delivered ∧
    wire_message <$> (concat created).*2 ++ held (c_svc c) ≡ₚ wire_message <$> (concat delivered).*2 ++ held s'.
Proof.
  intros Hg%reachable_good Hl Hf' Hm' Hleft Hmode'.
  induction Hl as [c|c l1 T1 p1 path1 mode1 off s1 Ts c' Hf Hm Hn _ IH].
  - destruct (life_account c l T p f path mode Hg Hf' Hm' Hleft Hmode') as (cr & de & s' & Hn & Hp & Hac).
    exists [cr], [de], s'. split_and!; [done|by apply Forall3_cons; [exact Hac|apply Forall3_nil]|]. cbn [concat]. by rewrite !app_nil_r.
  - destruct (life_account c l1 T1 p1 _ path1 mode1 Hg Hf Hm (left_between _ _) (NewQueueService_valid _ _ _ _ _ _ Hn))
      as (cr & de & s2 & Hn2 & Hp & Hac).
    rewrite Hn in Hn2. injection Hn2 as <-.
    destruct (IH (next_good c l1 T1 p1 path1 mode1 s1 Hg Hf Hm Hn off) Hf' Hm' Hleft) as (crs & des & s' & Hn' & Hall & Hp2).
    exists (cr :: crs), (de :: des), s'. split_and!; [done|by constructor|].
    cbn [concat c_svc] in *. rewrite !fmap_app in *. by eapply perm_chain.
Qed.
End theorems.

(** ** Every request gets its response *)

(** A job that is not over. *)
Definition waiting (p : Process) (t : tid) : Prop :=
  ∃ j st, h_jobs p !! t = Some (j, st) ∧ ∀ out, st ≠ Finished out.

Definition job_left (st : progress) : nat :=
  match st with Started => 10 | Calling => 1 | Finished _ => 0 end.

(** The moves that the jobs can still make together. *)
Definition moves_left (p : Process) : nat :=
  (total_left (h_conc p) + map_sum (λ x : job * progress, job_left x.2) (h_jobs p))%nat.

Section progress.
Context `{LC : LogCodec} {LL : LogCodecLaws LC} (q : string → string) (consoleHTML : bytes).

(** Whatever a fair environment gives to job [t], it makes a move. *)
Definition can_move (off : Z) (p : Process) (t : tid) : Prop :=
  is_Some (make_move q consoleHTML (Begin t) p) ∨ is_Some (make_move q consoleHTML (Finish t) p) ∨
  ∀ i, fair off (h_conc p) t i → is_Some (make_move q consoleHTML (Advance t i) p).

Lemma job_over p t j x st k : h_jobs p !! t = Some (j, x) →
  (total_left k + job_left st < total_left (h_conc p) + job_left x)%nat → (moves_left (set_job p t j st k) < moves_left p)%nat.
Proof.
  intros Ej Hlt. unfold moves_left. cbn [set_job h_conc h_jobs].
  pose proof (map_sum_old (λ x : job * progress, job_left x.2) (h_jobs p) t (j, st) (j, x) Ej) as Hsum. cbn [snd] in Hsum. lia.
Qed.

Lemma move_nearer x p h p' : (∀ t j, x ≠ Start t j) → make_move q consoleHTML x p = Some (h, p') →
  (moves_left p' < moves_left p)%nat.
Proof.
  intros Hx. destruct x as [t j|t|t i|t]; cbn [make_move]; [by destruct (Hx t j)|..].
  - destruct (h_jobs p !! t) as [[j []]|] eqn:Ej; [|done..]. unfold begin_job.
    destruct (job_begin q consoleHTML j) as [out|c].
    + intros [= <- <-]. eapply job_over; [exact Ej|]. cbn [job_left]. lia.
    + unfold invoke. destruct (k_calls (h_conc p) !! t) eqn:Ek; [done|]. intros [= <- <-].
      eapply job_over; [exact Ej|]. change (goto (h_conc p) t c Called (k_mu (h_conc p))) with
        (advance (h_conc p) t c Called (k_mu (h_conc p)) (k_svc (h_conc p)) (k_file (h_conc p)) (k_last (h_conc p))).
      rewrite total_left_new by done. cbn [job_left steps_left]. lia.
  - cbn [act]. destruct (exec t i (h_conc p)) as [k'|] eqn:He; [|done]. intros [= <- <-].
    apply step_nearer in He. unfold moves_left. cbn [h_conc h_jobs]. lia.
  - destruct (h_jobs p !! t) as [[j []]|] eqn:Ej; [done| |done..]. unfold finish_job.
    destruct (answer_of (h_conc p) t) as [a|]; [|done]. cbn [mbind option_bind].
    destruct (job_end q consoleHTML j a) as [out|]; [|done]. intros [= <- <-].
    eapply job_over; [exact Ej|]. cbn [job_left]. lia.
Qed.

Lemma moves_bounded l p T p' : Forall (λ x, ∀ t j, x ≠ Start t j) l → run_moves q consoleHTML l p = Some (T, p') →
  (length l + moves_left p' <= moves_left p)%nat.
Proof.
  intros Hl. revert p T. induction Hl as [|x l Hx _ IH]; intros p T; cbn [run_moves length]; [by intros [= _ <-]|].
  destruct (make_move q consoleHTML x p) as [[h p1]|] eqn:Hm; [|done]. cbn [mbind option_bind].
  destruct (run_moves q consoleHTML l p1) as [[h2 p2]|] eqn:Hr; [|done]. cbn [mbind option_bind]. intros [= _ <-].
  pose proof (move_nearer _ _ _ _ Hx Hm). pose proof (IH _ _ Hr). lia.
Qed.

(** The answer of a call has the form its job expects. *)
Lemma chain_elem {St} (P : St → op → answer → St → Prop) A l B o a : chain P A l B → (o, a) ∈ l →
  ∃ A' B', P A' o a B'.
Proof.
  induction 1 as [|l B o' a' C _ IH HP]; [by intros ?%elem_of_nil|].
  intros [Hl|[= -> ->]%list_elem_of_singleton]%elem_of_app; eauto.
Qed.

Lemma returned_ends off c k H A t cl a j :
  linear c_svc c_file (healthy off) carries (prepared) (underway off) (noted off) c k H A →
  k_calls k !! t = Some (MkFrame cl (Returned a)) → job_begin q consoleHTML j = inr cl →
  is_Some (job_end q consoleHTML j a).
Proof.
  intros L Ek Hb. pose proof (ln_past _ _ _ _ _ _ _ _ _ _ _ L t) as Hp. rewrite Ek in Hp.
  destruct Hp as (o & <- & Hp).
  assert ((o, a) ∈ commits H) as Hin.
  { apply list_elem_of_omap. exists (GCommitted t o a). split; [|done].
    assert (GCommitted t o a ∈ of_call t H) as Hc by (rewrite Hp; right; by left).
    by apply list_elem_of_filter in Hc as [_ ?]. }
  destruct (chain_elem _ _ _ _ _ _ (ln_chain _ _ _ _ _ _ _ _ _ _ _ L) Hin) as (A' & B' & HP).
  destruct (job_called q consoleHTML j o a _ _ Hb (ca_perform _ _ _ _ HP)) as (out & -> & _). by eexists.
Qed.

Lemma advance_can off p t : can_step off (h_conc p) t → can_move off p t.
Proof.
  intros Hc. right; right. intros i Hf. cbn [make_move act]. destruct (Hc i Hf) as [k' ->]. by eexists.
Qed.

Lemma unfinished_waiting p T t : traced q consoleHTML p T → unfinished (h_conc p) t → waiting p t.
Proof.
  intros HT (pc & Ep & Hpc). specialize (HT t). unfold pc_at in Ep.
  destruct (k_calls (h_conc p) !! t) as [[c pc']|]; [|done]. injection Ep as ->.
  destruct (h_jobs p !! t) as [[j []]|] eqn:Ej; cbn [job_marks] in HT; try done.
  - by exists j, Calling.
  - destruct pc as [| | | | | | | |a]; try done. by destruct (Hpc a).
Qed.

Lemma some_can_move off c p T H A t :
  linear c_svc c_file (healthy off) carries prepared (underway off) (noted off) c (h_conc p) H A →
  traced q consoleHTML p T → waiting p t → ∃ t', waiting p t' ∧ can_move off p t'.
Proof.
  intros L HT (j & st & Ej & Hst). pose proof (HT t) as Ht. rewrite Ej in Ht.
  destruct st; [| |by destruct (Hst out)].
  - exists t. split; [by exists j, Started|]. left. cbn [make_move]. rewrite Ej. unfold begin_job, invoke.
    cbn [job_marks] in Ht. destruct (k_calls (h_conc p) !! t); [done|]. destruct (job_begin q consoleHTML j); by eexists.
  - destruct (k_calls (h_conc p) !! t) as [[c1 pc]|] eqn:Ek; [|done]. destruct Ht as [Hb _].
    assert ((∃ a, pc = Returned a) ∨ ∀ a, pc ≠ Returned a) as [[a ->]|Hpc] by (destruct pc; eauto).
    + exists t. split; [by exists j, Calling|]. right; left. cbn [make_move]. rewrite Ej.
      unfold finish_job, answer_of. rewrite Ek. cbn [fmap option_fmap option_map fr_pc mbind option_bind].
      destruct (returned_ends off c _ H A t c1 a j L Ek Hb) as [out ->]. by eexists.
    + assert (unfinished (h_conc p) t) as Hu by (exists pc; split; [by rewrite (pc_at_frame _ _ _ Ek)|done]).
      destruct (some_can_step off c _ H A t L Hu) as (t' & Hu' & Hc). exists t'.
      split; [by eapply unfinished_waiting|by apply advance_can].
Qed.

(** C14: Every request gets its response, and the [Close] of the process ends.
    The jobs in progress can make only so many more moves together
    ([moves_left]), and as long as one of them is not over, one of them can move,
    whatever it gets from a fair environment: no schedule of handlers leaves all
    of them waiting for the lock of the service, and no call panics. *)
Theorem every_request_returns (c c' : Config) (Ts : list (list notice * Z)) (l : list move) (T : list (notice + event)) (p : Process) :
  reachable c → lives q consoleHTML c Ts c' → fair_moves q consoleHTML c' l →
  run_moves q consoleHTML l (start_on c') = Some (T, p) →
  (∀ moves T' p', Forall (λ x, ∀ t j, x ≠ Start t j) moves → run_moves q consoleHTML moves p = Some (T', p') →
    (length moves + moves_left p' <= moves_left p)%nat) ∧
  (∀ t, waiting p t → ∃ t', waiting p t' ∧ can_move (c_off c') p t').
Proof.
  intros Hg%reachable_good Hlives Hf Hl. split; [intros; by eapply moves_bounded|]. intros t Ht.
  destruct (lives_good _ _ _ _ _ Hg Hlives) as (es & bs & Hg').
  pose proof (run_schedule _ _ _ _ _ _ Hl) as Hs.
  destruct (fair_order (c_off c') c' _ _ _ (good_healthy _ c' es bs eq_refl Hg') Hf Hs) as (H & A & _ & L).
  eapply some_can_move; [exact L| |exact Ht].
  exact (run_traced _ _ _ _ _ _ _ (ready_traced _ _ _ _ _) Hl).
Qed.
End progress.

(** ** A process with five jobs

    Around the calls of [Interleaved]: the requests that make them, a request for
    a path that does not exist, and the end of the process.  The dequeue is
    answered; the process is killed when the record of the enqueue is in the file
    and nobody has been told. *)
Module Parallel.
Import ServiceTheorems.Sample ConcurrentTheorems.Interleaved.

Definition post (path : string) (body : bytes) : Request := MkRequest "POST" path [] (MkReader body None).
Definition get (path : string) : Request := MkRequest "GET" path [] (MkReader [] None).
Definition body : bytes :=
  Eval vm_compute in ApiTheorems.Sample.unquoted "{'payload':'second','priority':5,'delay_seconds':60}".

Definition page : bytes := [].
Definition quoted : string → string := ApiTheorems.Sample.quoted.

(** The moves of the calls. *)
Definition calls (l : list action) : list move :=
  omap (λ x, match x with Step t i => Some (Advance t i) | Invoke _ _ => None end) l.

Definition arrivals : list move :=
  [Start 1 (Serve (post "/enqueue" body)); Start 2 (Serve (post "/dequeue" [])); Start 3 (Serve (get "/stats"));
   Start 4 (Serve (get "/nowhere")); Begin 1; Begin 2; Begin 4; Begin 3].
Definition traffic : list move :=
  arrivals ++ calls enter_all ++ calls inspect ++ [Finish 3; Start 5 ShutDown] ++ calls consume ++ [Finish 2] ++ calls append.

Definition start : Process := ready (c_svc c1) (c_file c1) (c_last c1).
Definition result : list (notice + event) * Process :=
  Eval vm_compute in default ([], start) (run_moves quoted page traffic start).

Lemma traffic_runs : run_moves quoted page traffic start = Some (result.1, result.2).
Proof. vm_compute. reflexivity. Qed.

Lemma traffic_calls : service_actions quoted page traffic start = busy.
Proof. vm_compute. reflexivity. Qed.

Lemma traffic_fair : fair_schedule (c_off c1) (service_actions quoted page traffic start) (serving c1).
Proof. rewrite traffic_calls. exact busy_fair. Qed.

Example traffic_seen : rs_status <$> omap (λ n, match n with Left _ (Sent resp) => Some resp | _ => None end) (fronts result.1)
  = [404; 200; 200].
Proof. vm_compute. reflexivity. Qed.

(** The next process holds the message of the enqueue, whose client was never
    told. *)
Definition next : Config :=
  Eval vm_compute in
    match NewQueueService "queue.wal" ModeLIFO None read_ok (crash (k_file (h_conc result.2))) with
    | Some (Ok s') => MkConfig 7 (k_last (h_conc result.2)) s' (crash (k_file (h_conc result.2)))
    | _ => c1
    end.

Example next_holds : Payload <$> held (c_svc next) = ["second"].
Proof. vm_compute. reflexivity. Qed.

Lemma one_life : lives quoted page c1 [(fronts result.1, k_last (h_conc result.2))] next.
Proof.
  apply (lives_cons quoted page c1 traffic result.1 result.2 "queue.wal" ModeLIFO 7 (c_svc next) [] next).
  - exact traffic_fair.
  - exact traffic_runs.
  - vm_compute. reflexivity.
  - apply lives_nil.
Qed.

(** The next process takes one more request, and is killed when 40 bytes of its
    record are in the file. *)
Definition later : Inputs :=
  let now := MkTime (off + 9 * Second) (Some (off + 9 * Second - 7)) 0 in
  MkInputs now (Ok (block 90)) (MkAppendIO now None None) read_ok None.
Definition one_more : list move :=
  [Start 1 (Serve (post "/enqueue" body)); Begin 1; Advance 1 later; Advance 1 later; Advance 1 later; Advance 1 later].
Definition writing : list (notice + event) * Process :=
  Eval vm_compute in default ([], start) (run_moves quoted page one_more (start_on next)).
Definition written : Conc := Eval vm_compute in default (h_conc writing.2) (exec 1 later (h_conc writing.2)).
Definition torn : File :=
  let n := (length (f_data (k_file (h_conc writing.2))) + 40)%nat in MkFile (take n (f_data (k_file written))) n.

Lemma one_more_runs : run_moves quoted page one_more (start_on next) = Some (writing.1, writing.2).
Proof. vm_compute. reflexivity. Qed.

Lemma one_more_fair : fair_moves quoted page next one_more.
Proof.
  unfold fair_moves. assert (service_actions quoted page one_more (start_on next) =
    [Invoke 1 (CallEnqueue second); Step 1 later; Step 1 later; Step 1 later; Step 1 later]) as -> by (vm_compute; reflexivity).
  run_one. run_with. { split; [by vm_compute|]. split; [done|solve_decision_vm]. }
  do 2 run_one. run_with. { intros _. split; [solve_fair_clock|solve_room]. }
  exact I.
Qed.

Lemma torn_left : left_by (c_off next) (h_conc writing.2) torn.
Proof.
  apply (left_during _ _ 1%nat later written).
  - split; [left; solve_carried_out|]. split; [solve_decision_vm|solve_readable].
  - vm_compute. reflexivity.
  - apply Nat.le_add_r.
Qed.
End Parallel.

Import Parallel.

Lemma requests_are_linearizable_witness :
  ∃ (H : list jevent) (st : QueueService * File),
    seen H = fronts result.1 ∧ (∀ t, job_history (of_job t H)) ∧
    carry_out_all quoted page (tasks H).*1 (c_svc Sample.c1, c_file Sample.c1) = Some ((tasks H).*2, st) ∧
    (mu_writer (k_mu (h_conc result.2)) = None → st = (k_svc (h_conc result.2), k_file (h_conc result.2))).
Proof. exact (requests_are_linearizable quoted page traffic _ _ _ result.1 result.2 traffic_runs). Defined.

Lemma answered_requests_are_durable_witness :
  ∃ (created delivered : list (list (tid * Message))) (s' : QueueService),
    NewQueueService "queue.wal" ModeFIFO None read_ok torn = Some (Ok s') ∧
    Forall3 account ([(fronts result.1, k_last (h_conc result.2))] ++ [(fronts writing.1, k_last (h_conc writing.2))])
      created delivered ∧
    wire_message <$> (concat created).*2 ++ held (c_svc Sample.c1) ≡ₚ wire_message <$> (concat delivered).*2 ++ held s'.
Proof.
  exact (answered_requests_are_durable quoted page Sample.c1 next _ one_more writing.1 writing.2 torn "queue.wal" ModeFIFO
    Sample.c1_reachable one_life one_more_fair one_more_runs torn_left eq_refl).
Defined.

Lemma every_request_returns_witness :
  waiting result.2 1%nat ∧
  (∀ moves T' p', Forall (λ x, ∀ t j, x ≠ Start t j) moves → run_moves quoted page moves result.2 = Some (T', p') →
    (length moves + moves_left p' <= moves_left result.2)%nat) ∧
  (∀ t, waiting result.2 t → ∃ t', waiting result.2 t' ∧ can_move quoted page Sample.off result.2 t').
Proof.
  split.
  - eexists _, _. split; [vm_compute; reflexivity|done].
  - exact (every_request_returns quoted page Sample.c1 Sample.c1 [] traffic result.1 result.2
      Sample.c1_reachable (lives_nil _ _ _) traffic_fair traffic_runs).
Defined.
