(* ===== verification/ApiTypes.v ===== *)
(** * The types of the responses

    The shapes of the JSON the API documents, as schemas that a tree either
    conforms to or not, and the proof that every response of the server has the
    type its path and its status promise. *)

From S2P Require Import Prelude GoTime GoStrconv GoUtf8 GoJson GoJsonFacts GoTimeFormat Model.
From S2P Require Import Codec CodecFacts LogRecord.
From S2P Require Import GoJsonStream GoHttp Api ApiLaws ApiTheorems.
From Stdlib Require Import Ascii.

Local Open Scope Z_scope.

(** ** Schemas *)

#[local] Unset Elimination Schemes.
Inductive schema :=
  | TString
  | TTime                                      (** a string in RFC 3339 *)
  | TInt64
  | TUint64
  | TNumber
  | TBool
  | TArray (s : schema)
  | TObject (fields : list (string * schema))  (** these members, in this order *)
  | TAny.
#[local] Set Elimination Schemes.

Fixpoint conforms (s : schema) (j : json) {struct s} : bool :=
  match s, j with
  | TString, JStr raw => match unquote raw with Some _ => true | None => false end
  | TTime, JStr raw => match parse_rfc3339 raw with Some _ => true | None => false end
  | TInt64, JNum lit => match Atoi (of_bytes lit) with Some _ => true | None => false end
  | TUint64, JNum lit => match parse_digits 0 lit with Some n => n <? 2 ^ 64 | None => false end
  | TNumber, JNum lit => num_ok lit
  | TBool, JBool _ => true
  | TArray s, JArr l => forallb (conforms s) l
  | TObject fs, JObj m =>
      (fix members (fs : list (string * schema)) (m : list (bytes * json)) : bool :=
         match fs, m with
         | [], [] => true
         | (name, s) :: fs, (k, v) :: m => bool_decide (k = to_bytes name) && conforms s v && members fs m
         | _, _ => false
         end) fs m
  | TAny, _ => true
  | _, _ => false
  end.

(** The struct types of [pkg/model], by their tags. *)
Definition message_schema : schema :=
  TObject [("id", TString); ("seq", TUint64); ("payload", TString); ("priority", TInt64);
           ("enqueued_at", TTime); ("available_at", TTime); ("status", TString)].
Definition stats_schema : schema := TObject [("total", TInt64); ("ready", TInt64); ("delayed", TInt64)].
Definition snapshot_schema : schema :=
  TObject [("mode", TString); ("now", TTime); ("stats", stats_schema);
           ("ready", TArray message_schema); ("delayed", TArray message_schema);
           ("ready_truncated", TBool); ("delayed_truncated", TBool)].
Definition tail_schema : schema :=
  TObject [("path", TString); ("size_bytes", TNumber); ("truncated", TBool); ("records", TArray TAny)].
Definition error_schema : schema := TObject [("error", TString)].
Definition health_schema : schema := TObject [("status", TString)].

(** ** What a path and a status promise *)

Inductive content :=
  | Json (s : schema)
  | Text (text : string)                       (** an error of net/http, on a line *)
  | Page
  | NoContent.

Definition content_of (path : string) (status : Z) : content :=
  if decide (status = StatusNoContent) then NoContent
  else if decide (status = StatusNotFound) then Text "404 page not found"
  else if decide (status = StatusMethodNotAllowed) then Text "Method Not Allowed"
  else if decide (status ∈ [StatusOK; StatusCreated]) then
    if decide (path ∈ ["/enqueue"; "/dequeue"]) then Json message_schema
    else if decide (path = "/messages") then Json snapshot_schema
    else if decide (path = "/wal") then Json tail_schema
    else if decide (path = "/stats") then Json stats_schema
    else if decide (path = "/health") then Json health_schema
    else Page
  else Json error_schema.

(** The header [Content-Type]; a response without content has none. *)
Definition type_of (t : content) : string :=
  match t with
  | Json _ => "application/json"
  | Text _ => "text/plain; charset=utf-8"
  | Page => "text/html; charset=utf-8"
  | NoContent => ""
  end.

(** A JSON body is an indented tree of the schema, and a client that parses it
    reads this tree. *)
Definition has_body (t : content) (page : bytes) (resp : Response) : Prop :=
  match t with
  | Json s => ∃ j, rs_body resp = indented j ++ [newline] ∧ conforms s j = true ∧ parse (rs_body resp) = Some j
  | Text text => rs_body resp = to_bytes text ++ [newline]
  | Page => rs_body resp = page
  | NoContent => rs_body resp = []
  end.

Definition typed (path : string) (page : bytes) (resp : Response) : Prop :=
  let t := content_of path (rs_status resp) in
  rs_type resp = type_of t ∧ has_body t page resp.

(** ** The encoders produce what the schemas say *)

Lemma conforms_string s : conforms TString (enc_string s) = true.
Proof. cbn [conforms enc_string]. by rewrite unquote_quote. Qed.

Lemma conforms_int n : in_i64 n → conforms TInt64 (enc_int n) = true.
Proof. intros Hn. cbn [conforms enc_int]. change (of_bytes (format_int n)) with (Itoa n). by rewrite Atoi_Itoa. Qed.

Lemma conforms_uint n : in_u64 n → conforms TUint64 (enc_uint n) = true.
Proof.
  intros Hn. pose proof (dec_enc_uint n 0 Hn) as Hd. cbn [dec_uint enc_uint conforms] in *.
  destruct (parse_digits 0 (format_uint n)) as [m|]; [|done]. cbn [mbind option_bind] in Hd. by destruct (m <? 2 ^ 64).
Qed.

Lemma conforms_time t j : time_ok t = true → enc_time t = Some j → conforms TTime j = true.
Proof.
  intros [_ Hz%Z.eqb_eq]%andb_true_iff Ej. pose proof (dec_enc_time t j zero_time Ej Hz) as Hd.
  unfold enc_time in Ej. destruct (format_rfc3339 t) as [raw|]; [|done]. injection Ej as <-.
  cbn [dec_time conforms] in *. by rewrite Hd.
Qed.

Lemma conforms_field name s j fs m : conforms s j = true → conforms (TObject fs) (JObj m) = true →
  conforms (TObject ((name, s) :: fs)) (JObj (field name j :: m)) = true.
Proof. intros Hj Hm. cbn [conforms field]. rewrite bool_decide_eq_true_2, Hj by done. exact Hm. Qed.

Ltac conforms_fields :=
  repeat (apply conforms_field; [first [apply conforms_string | apply conforms_int; assumption
    | apply conforms_uint; assumption | (eapply conforms_time; [|eassumption]; assumption) | assumption | reflexivity]|]);
  reflexivity.

Lemma conforms_message m j : message_ok m → enc_message m = Some j → conforms message_schema j = true.
Proof.
  intros [Hs Hp He Ha] E. unfold enc_message in E.
  destruct (enc_time (EnqueuedAt m)) as [je|] eqn:Ee; [|done].
  destruct (enc_time (AvailableAt m)) as [ja|] eqn:Ea; [|done]. injection E as <-.
  unfold message_schema. conforms_fields.
Qed.

Lemma conforms_messages l js : Forall message_ok l → mapM enc_message l = Some js →
  conforms (TArray message_schema) (JArr js) = true.
Proof.
  intros Hl. revert js. induction Hl as [|m l Hm _ IH]; intros js; cbn [mapM]; [by intros [= <-]|].
  destruct (enc_message m) as [j|] eqn:Ej; [|done]. destruct (mapM enc_message l) as [js'|]; [|done].
  cbn [mbind option_bind]. intros [= <-]. specialize (IH js' eq_refl). cbn [conforms forallb] in *.
  by rewrite (conforms_message m j Hm Ej).
Qed.

Lemma conforms_stats s : stats_ok s → conforms stats_schema (enc_stats s) = true.
Proof. intros [Ht Ha Hd]. unfold stats_schema, enc_stats. conforms_fields. Qed.

Lemma conforms_snapshot s j : snapshot_ok s → enc_snapshot s = Some j → conforms snapshot_schema j = true.
Proof.
  intros [Hn Hs [Hr Hd]%Forall_app] E. unfold enc_snapshot in E.
  destruct (enc_time (sn_Now s)) as [jn|] eqn:En; [|done].
  destruct (mapM enc_message (sn_Ready s)) as [jr|] eqn:Er; [|done].
  destruct (mapM enc_message (sn_Delayed s)) as [jd|] eqn:Ed; [|done]. injection E as <-.
  pose proof (conforms_messages _ _ Hr Er). pose proof (conforms_messages _ _ Hd Ed). pose proof (conforms_stats _ Hs).
  unfold snapshot_schema. conforms_fields.
Qed.

Lemma conforms_tail t j : enc_tail t = Some j → conforms tail_schema j = true.
Proof.
  unfold enc_tail. destruct (mapM enc_raw (wt_Records t)) as [js|]; [|done]. intros [= <-].
  assert (conforms TNumber (enc_int (wt_SizeBytes t)) = true) by (apply format_int_num).
  assert (conforms (TArray TAny) (JArr js) = true) by (cbn [conforms]; by induction js).
  unfold tail_schema. conforms_fields.
Qed.

(** ** The handlers keep the promise *)

Section handlers.
Context {E St : Type} {Q : Queue E St} {L : QueueLaws Q} (q : string → string) (page : bytes).

Lemma typed_json path status s j :
  content_of path status = Json s → wf_json j = true → (Z.of_nat (height j) <= maxNestingDepth) →
  conforms s j = true → typed path page (writeJSON status (Some j)).
Proof.
  intros Hc Hw Hh Hj. unfold typed, writeJSON. rewrite MarshalIndent_ok by done. cbn [rs_status].
  rewrite Hc. split; [done|]. exists j. split_and!; [done|done|]. cbn [rs_body].
  apply parse_indented; [done|done|apply single_newline].
Qed.

Lemma one_field_wf name value : raw_ok (to_bytes name) = true →
  wf_json (one_field name value) = true ∧ (Z.of_nat (height (one_field name value)) <= maxNestingDepth).
Proof.
  intros Hn. split; [|by vm_compute]. unfold one_field, field. cbn [wf_json forallb fst snd]. rewrite Hn, enc_string_wf. done.
Qed.

Lemma typed_error path status text :
  status ∈ [StatusBadRequest; StatusRequestEntityTooLarge; StatusInternalServerError; StatusServiceUnavailable] →
  typed path page (writeError status text).
Proof.
  intros Hs. unfold writeError. destruct (one_field_wf "error" text eq_refl) as [Hw Hh].
  apply (typed_json path status error_schema); [|done|done|unfold error_schema, one_field; conforms_fields].
  unfold content_of.
  repeat (apply elem_of_cons in Hs as [->|Hs]; [done|]). by apply not_elem_of_nil in Hs.
Qed.

Lemma typed_service_error path e : typed path page (writeServiceError q e).
Proof. unfold writeServiceError. case_match; apply typed_error; by apply (bool_decide_unpack _). Qed.

(** A value that cannot be marshalled becomes an error. *)
Lemma typed_failed path status v : MarshalIndent v = None → typed path page (writeJSON status v).
Proof.
  intros Hv. unfold writeJSON. rewrite Hv.
  pose proof (typed_error path StatusInternalServerError "failed to encode response") as He.
  unfold writeError, writeJSON in He.
  rewrite MarshalIndent_ok in He by (by vm_compute). apply He. by apply (bool_decide_unpack _).
Qed.

Lemma typed_message path m status : path ∈ ["/enqueue"; "/dequeue"] → status ∈ [StatusOK; StatusCreated] →
  message_ok m → typed path page (writeJSON status (enc_message m)).
Proof.
  intros Hp Hs Hm. destruct (enc_message_ok m Hm) as [j Ej]. rewrite Ej.
  destruct (enc_message_wf m j) as [Hw Hh]; [apply (mok_seq m Hm)|done|].
  apply (typed_json path status message_schema); [|done|rewrite Hh; by vm_compute|by eapply conforms_message].
  unfold content_of. rewrite (decide_True (P := path ∈ _)), (decide_True (P := status ∈ _)) by done.
  rewrite !decide_False; [done|..]; repeat (apply elem_of_cons in Hs as [->|Hs]; [naive_solver|]); by apply not_elem_of_nil in Hs.
Qed.

Definition yields (path : string) (res : option (Response * St)) : Prop :=
  typed path page (recoverMiddleware res).1.

Lemma yields_some path resp st : typed path page resp → yields path (Some (resp, st)).
Proof. done. Qed.

Lemma enqueue_typed env r st : call_ok env st → yields "/enqueue" (enqueue q env r st).
Proof.
  intros Hc. unfold enqueue. destruct (Decode _ _ _) as [req|e] eqn:Ed.
  2: { case_match; apply yields_some, typed_error; by apply (bool_decide_unpack _). }
  destruct (Validate req) as [e|]; [apply yields_some, typed_error; by apply (bool_decide_unpack _)|].
  destruct (law_Enqueue env req st Hc (decoded_fits _ _ Ed)) as (res & st' & -> & _ & Hr).
  cbn [mbind option_bind]. destruct res as [m|e]; apply yields_some; [|apply typed_service_error].
  apply typed_message; [by apply (bool_decide_unpack _)..|apply Hr].
Qed.

Lemma dequeue_typed env r st : call_ok env st → yields "/dequeue" (dequeue q env r st).
Proof.
  intros Hc. unfold dequeue. destruct (law_Dequeue env st Hc) as (res & st' & -> & _ & Hr). cbn [mbind option_bind].
  destruct res as [[m|]|e]; apply yields_some; [|done|apply typed_service_error].
  apply typed_message; [by apply (bool_decide_unpack _)..|apply Hr].
Qed.

Lemma messages_typed env r st : call_ok env st → yields "/messages" (messages env r st).
Proof.
  intros Hc. unfold messages.
  destruct (limit_param _ _ _) as [n|]; [|apply yields_some, typed_error; by apply (bool_decide_unpack _)].
  destruct (law_Snapshot env n st Hc) as (v & st' & -> & _ & _ & Hv & _). cbn [mbind option_bind]. apply yields_some.
  destruct (enc_snapshot_ok v Hv) as (j & Ej & Hw & Hh). rewrite Ej.
  apply (typed_json _ _ snapshot_schema); [done|done|unfold maxNestingDepth; lia|by eapply conforms_snapshot].
Qed.

Lemma wal_typed env r st : yields "/wal" (wal q env r st).
Proof.
  unfold wal. destruct (limit_param _ _ _) as [n|]; [|apply yields_some, typed_error; by apply (bool_decide_unpack _)].
  destruct (q_WalTail env n st) as [t|e]; apply yields_some; [|apply typed_service_error].
  destruct (MarshalIndent (enc_tail t)) as [body|] eqn:Em; [|by apply typed_failed].
  destruct (MarshalIndent_Some _ _ Em) as (j & Ej & _ & Hh). rewrite Ej.
  apply (typed_json _ _ tail_schema); [done|by eapply enc_tail_wf|done|by eapply conforms_tail].
Qed.

Lemma stats_typed env r st : call_ok env st → yields "/stats" (stats env r st).
Proof.
  intros Hc. unfold stats. destruct (law_Stats env st Hc) as (s & st' & -> & _ & _ & Hs). cbn [mbind option_bind].
  apply yields_some, (typed_json _ _ stats_schema); [done|unfold enc_stats, field; solve_wf|by vm_compute|by apply conforms_stats].
Qed.

Lemma health_typed (env : E) r (st : St) : yields "/health" (health (E := E) env r st).
Proof.
  apply yields_some, (typed_json _ _ health_schema); [done|done|by vm_compute|].
  unfold health_schema, one_field. conforms_fields.
Qed.

Lemma yields_get (h : E → Request → St → option (Response * St)) m path (env : E) r (st : St) : yields path (h env r st) → yields path (dispatch (only_get m h) env r st).
Proof. intros Hh. unfold only_get. by case_decide. Qed.

Lemma dispatch_typed env r st : call_ok env st →
  yields (rq_path r) (dispatch (route_table q page (rq_method r) (rq_path r)) env r st).
Proof.
  intros Hc. unfold route_table.
  destruct (decide (rq_path r = "/enqueue")) as [E1|_].
  { rewrite E1. case_decide; [by apply enqueue_typed|done]. }
  destruct (decide (rq_path r = "/dequeue")) as [E2|_].
  { rewrite E2. case_decide; [by apply dequeue_typed|done]. }
  destruct (decide (rq_path r = "/messages")) as [E3|_]; [rewrite E3; by apply yields_get, messages_typed|].
  destruct (decide (rq_path r = "/wal")) as [E4|_]; [rewrite E4; by apply yields_get, wal_typed|].
  destruct (decide (rq_path r = "/stats")) as [E5|_]; [rewrite E5; by apply yields_get, stats_typed|].
  destruct (decide (rq_path r = "/health")) as [E6|_]; [rewrite E6; by apply yields_get, health_typed|].
  destruct (decide (rq_path r = "/")) as [E7|_]; [rewrite E7; by apply yields_get|done].
Qed.
End handlers.

(** C15: Every response is well typed.  Whatever the request, the content type is
    the one the path and the status promise, also for HEAD, and a JSON body
    conforms to the schema of its Go type: a message, a snapshot, the counts, a
    log tail, the health object, or an error object; integers are in range,
    instants are in RFC 3339, every member is there in order.  Every JSON body
    parses back to that tree, also a log tail with whatever raw records.  A
    response to HEAD has no body. *)
Theorem responses_are_typed {E St : Type} {Q : Queue E St} {L : QueueLaws Q} (q : string → string) (page : bytes)
    (env : E) (r : Request) (st : St) :
  call_ok env st →
  let resp := (ServeHTTP q page env r st).1 in
  let promised := content_of (rq_path r) (rs_status resp) in
  rs_type resp = type_of promised ∧
  if decide (rq_method r = "HEAD") then rs_body resp = [] else has_body promised page resp.
Proof.
  intros Hc. unfold ServeHTTP. rewrite find_route_table.
  pose proof (dispatch_typed q page env r st Hc) as Hd. unfold yields, typed in Hd.
  destruct (recoverMiddleware _) as [resp st']. cbn [fst] in *. unfold send. case_decide; [|exact Hd].
  cbn [rs_type rs_status rs_body]. by split; [apply Hd|].
Qed.

Import ApiTheorems.Sample.

Lemma responses_are_typed_witness :
  let resp := (ServeHTTP quoted [] Sample.env (MkRequest "POST" "/dequeue" [] no_body) Sample.st).1 in
  let promised := content_of "/dequeue" (rs_status resp) in
  rs_type resp = type_of promised ∧ has_body promised [] resp.
Proof. exact (responses_are_typed quoted [] Sample.env (MkRequest "POST" "/dequeue" [] no_body) Sample.st st_call). Defined.
