(* ===== verification/GoFmt.v ===== *)
(** * Strings, durations and numbers as the commands print them

    The part of [strings], [fmt] and [time] the two commands use: trimming and
    joining, integers and floats in a field of some width, durations in seconds,
    and the clock of a log line.  Floats are the binary64 numbers of [SpecFloat],
    and [%.2f] is the correctly rounded decimal. *)

From S2P Require Import Prelude GoTime GoStrconv GoUtf8 GoTimeFormat Codec.
From Stdlib Require Import Ascii SpecFloat.

Local Open Scope Z_scope.

(** ** [strings] *)

(** [strings.Join]. *)
Fixpoint Join (l : list string) (sep : string) : string :=
  match l with
  | [] => ""
  | [s] => s
  | s :: l => s +:+ sep +:+ Join l sep
  end.

(** [strings.HasPrefix] and [strings.TrimPrefix]. *)
Fixpoint strip_prefix (p l : bytes) : option bytes :=
  match p, l with
  | [], _ => Some l
  | c :: p, d :: l => if Ascii.eqb c d then strip_prefix p l else None
  | _ :: _, [] => None
  end.

Definition HasPrefix (s p : string) : bool := bool_decide (is_Some (strip_prefix (to_bytes p) (to_bytes s))).
Definition TrimPrefix (s p : string) : string := of_bytes (default (to_bytes s) (strip_prefix (to_bytes p) (to_bytes s))).

(** [strings.TrimRight(s, c)] for a cutset of one byte. *)
Fixpoint drop_byte (c : ascii) (l : bytes) : bytes :=
  match l with
  | d :: l' => if Ascii.eqb d c then drop_byte c l' else l
  | [] => []
  end.
Definition TrimRight (s : string) (c : ascii) : string := of_bytes (rev (drop_byte c (rev (to_bytes s)))).

Definition TrimSpaceS (s : string) : string := of_bytes (TrimSpace (to_bytes s)).

(** [strings.ToLower] and [strings.ToUpper]: [rune] maps the runes above
    U+007F; a byte that is not UTF-8 becomes U+FFFD. *)
Definition lower (c : ascii) : ascii := if in_range 65 90 c then byte_of (byte_val c + 32) else c.

Definition map_runes (byte : ascii → ascii) (rune : bytes → bytes) (s : string) : string :=
  of_bytes (chunks (to_bytes s) ≫= λ ch,
    match ch with Single c => [byte c] | Multi l => rune l | Invalid _ => replacement end).
Definition ToLower (rune : bytes → bytes) : string → string := map_runes lower rune.
Definition ToUpper (rune : bytes → bytes) : string → string := map_runes upper rune.

(** ** Fields *)

Definition spaces (n : nat) : string := of_bytes (replicate n " "%char).

(** [%-nd] and [%nf]: spaces behind, and in front. *)
Definition pad_right (n : nat) (s : string) : string := s +:+ spaces (n - String.length s).
Definition pad_left (n : nat) (s : string) : string := spaces (n - String.length s) +:+ s.

(** ** Durations *)

Definition clamp_i64 (x : Z) : Z :=
  if 2 ^ 63 - 1 <? x then 2 ^ 63 - 1 else if x <? - 2 ^ 63 then - 2 ^ 63 else x.

(** [t.Sub(u)], saturated. *)
Definition Sub (t u : Time) : Z :=
  match t_mono t, t_mono u with
  | Some a, Some b => clamp_i64 (a - b)
  | _, _ => clamp_i64 (t_wall t - t_wall u)
  end.

Definition IsZero (t : Time) : bool := t_wall t =? t_wall zero_time.

(** [d.Round(time.Second)] of a duration that is not negative. *)
Definition RoundSecond (d : Z) : Z :=
  let r := d mod Second in
  if r + r <? Second then d - r
  else if d + Second - r <? 2 ^ 63 then d + Second - r else 2 ^ 63 - 1.

(** [d.String()] of a whole number of seconds that is not negative. *)
Definition seconds_text (d : Z) : string :=
  let s := d / Second in
  if s <? 60 then Itoa s +:+ "s"
  else if s <? 3600 then Itoa (s / 60) +:+ "m" +:+ Itoa (s mod 60) +:+ "s"
  else Itoa (s / 3600) +:+ "h" +:+ Itoa (s mod 3600 / 60) +:+ "m" +:+ Itoa (s mod 60) +:+ "s".

(** ** Floats *)

Definition prec : Z := 53.
Definition emax : Z := 1024.

Definition float_of (n : Z) : spec_float := binary_normalize prec emax n 0 false.

(** [d.Seconds()]: [float64(sec) + float64(nsec)/1e9]. *)
Definition Seconds (d : Z) : spec_float :=
  SFadd prec emax (float_of (Z.quot d Second)) (SFdiv prec emax (float_of (Z.rem d Second)) (float_of Second)).

(** The nearest integer to [n/d], the even one of two. *)
Definition round_even (n d : Z) : Z :=
  let q := n / d in
  let r := 2 * (n mod d) in
  if (r <? d) || ((r =? d) && Z.even q) then q else q + 1.

(** Sign and hundredths of a finite number. *)
Definition hundredths (f : spec_float) : option (bool * Z) :=
  match f with
  | S754_zero s => Some (s, 0)
  | S754_finite s m e =>
      Some (s, if 0 <=? e then 100 * Z.pos m * 2 ^ e else round_even (100 * Z.pos m) (2 ^ (- e)))
  | _ => None
  end.

(** [%.2f]; with [plus] a sign in front of a positive number too ([%+.2f]). *)
Definition fixed2 (plus : bool) (f : spec_float) : string :=
  match hundredths f with
  | None => "NaN"
  | Some (s, n) =>
      (if s : bool then "-" else if plus then "+" else "")
      +:+ Itoa (n / 100) +:+ "." +:+ of_bytes (pad 2 (n mod 100))
  end.

(** ** Clock times *)

(** [t.Format("15:04:05.000")]. *)
Definition clock_text (t : Time) : string :=
  let c := civil t in
  of_bytes (pad 2 (c_hour c) ++ ":"%char :: pad 2 (c_min c) ++ ":"%char :: pad 2 (c_sec c)
    ++ "."%char :: pad 3 (c_nsec c / Millisecond)).

(** ** Facts *)

Lemma strip_prefix_app p l : strip_prefix p (p ++ l) = Some l.
Proof. induction p as [|c p IH]; [done|]. cbn [strip_prefix app]. by rewrite Ascii.eqb_refl. Qed.

Lemma strip_prefix_Some p l r : strip_prefix p l = Some r → l = p ++ r.
Proof.
  revert l. induction p as [|c p IH]; intros l; cbn [strip_prefix]; [by intros [= ->]|].
  destruct l as [|d l]; [done|]. destruct (Ascii.eqb c d) eqn:E; [|done].
  apply Ascii.eqb_eq in E as ->. intros H. by rewrite (IH l H).
Qed.

Lemma Sub_coherent off t u :
  coherent off t → coherent off u → Sub t u = clamp_i64 (t_wall t - t_wall u).
Proof.
  unfold coherent, Sub. destruct (t_mono t), (t_mono u); intros; try done. f_equal. lia.
Qed.

(** Adding to an instant without a monotonic reading, far from the bounds. *)
Lemma Add_wall t d :
  t_mono t = None → - 2 ^ 90 < t_wall t + d < 2 ^ 90 →
  Add t d = MkTime (t_wall t + d) None (t_zone t).
Proof.
  unfold Add. intros -> Hb. set (w := t_wall t + d) in *. clearbody w.
  unfold saturate_sec, unixToInternal, Second.
  pose proof (Z.div_mod w 1000000000 ltac:(lia)) as Hdm.
  assert (- 2 ^ 62 < w / 1000000000 + 62135596800 < 2 ^ 62) as Hq.
  { pose proof (Z.mod_pos_bound w 1000000000 ltac:(lia)). lia. }
  destruct (Z.ltb_spec (2 ^ 63 - 1) (w / 1000000000 + 62135596800)); [lia|].
  destruct (Z.ltb_spec (w / 1000000000 + 62135596800) (- 2 ^ 63)); [lia|].
  do 2 f_equal. lia.
Qed.
