(* ===== verification/TestUtil.v ===== *)
(** * [pkg/testutil]: the reporter of the package tests

    src/pkg/testutil/run.go.  The tests run in a goroutine with their output
    redirected into a pipe; [Run] reads the pipe line by line, reprints each
    result with a mark, and ends the process with the tests' exit code.  What the
    tests are, what they print and how they end is given: [m.Run()] is a list of
    bytes and a code.  The pipe holds [capacity] bytes that nobody reads. *)

From S2P Require Import Prelude GoStrconv GoUtf8 LogRecord GoFmt.
From S2P Require Wal WalFacts WalTheorems.
From Stdlib Require Import Ascii.

Import Wal (dropCR, raw_lines).

Local Open Scope Z_scope.

Definition nl : string := String "010" "".
Definition colorReset : string := String "027" "[0m".
Definition colorGreen : string := String "027" "[32m".
Definition colorRed : string := String "027" "[31m".

(** [testName(trimmed, prefix)]. *)
Definition testName (trimmed prefix : string) : string := TrimSpaceS (TrimPrefix trimmed prefix).

(** [-test.v] is given, or added at the end; [None] is the slice [os.Args[1:]] of
    no arguments at all. *)
Definition verbose_flag (arg : string) : bool :=
  bool_decide (arg = "-test.v") || bool_decide (arg = "-test.v=true") || HasPrefix arg "-test.v=".

Definition ensureVerbose (args : list string) : option (list string) :=
  match args with
  | [] => None
  | _ :: rest => Some (if existsb verbose_flag rest then args else args ++ ["-test.v"])
  end.

(** ** One line *)

Inductive mark :=
  | Passed (name : string)
  | Failed (name : string)
  | Skipped (name : string)
  | Dropped
  | Kept (line : string).

(** The [switch] on a line of the tests' output. *)
Definition classify (line : string) : mark :=
  let trimmed := TrimSpaceS line in
  if HasPrefix trimmed "--- PASS:" then Passed (testName trimmed "--- PASS:")
  else if HasPrefix trimmed "--- FAIL:" then Failed (testName trimmed "--- FAIL:")
  else if HasPrefix trimmed "--- SKIP:" then Skipped (testName trimmed "--- SKIP:")
  else if HasPrefix line "=== " then Dropped
  else if HasPrefix line "ok " || HasPrefix line "FAIL " || bool_decide (line = "PASS") || bool_decide (line = "FAIL")
  then Dropped
  else if bool_decide (line = "") then Dropped else Kept line.

(** What is printed for it. *)
Definition show (m : mark) : string :=
  match m with
  | Passed name => "✅ " +:+ colorGreen +:+ name +:+ colorReset +:+ nl
  | Failed name => "❌ " +:+ colorRed +:+ name +:+ colorReset +:+ nl
  | Skipped name => "⏭  " +:+ name +:+ nl
  | Dropped => ""
  | Kept line => line +:+ nl
  end.

(** The state of the loop: passed, failed, and what was printed. *)
Record Report := MkReport { rp_passed : Z; rp_failed : Z; rp_out : string }.

Definition report (rp : Report) (line : string) : Report :=
  let m := classify line in
  MkReport (rp_passed rp + match m with Passed _ => 1 | _ => 0 end)
    (rp_failed rp + match m with Failed _ => 1 | _ => 0 end) (rp_out rp +:+ show m).

Definition rule : string := "============================".

Definition totals (passed failed : Z) : string :=
  let total := Itoa (passed + failed) in
  nl +:+ rule +:+ nl
  +:+ "Results: " +:+ Itoa passed +:+ "/" +:+ total +:+ " passing, " +:+ Itoa failed +:+ "/" +:+ total +:+ " failing" +:+ nl
  +:+ rule +:+ nl.

(** ** The run *)

(** [bufio.MaxScanTokenSize]. *)
Definition maxToken : Z := 65536.

(** [bufio.Scanner] with its default buffer: the tokens up to the first line
    that does not fit, and where that line begins. *)
Fixpoint scan_tokens (lines : list bytes) (start : nat) : list bytes * option nat :=
  match lines with
  | [] => ([], None)
  | l :: lines =>
      if maxToken <=? Z.of_nat (length l) then ([], Some start)
      else let '(ts, long) := scan_tokens lines (start + length l + 1)%nat in (dropCR l :: ts, long)
  end.

(** The process exits, or waits for ever for the tests, which wait for somebody
    to read the pipe. *)
Inductive outcome :=
  | Exited (code : Z) (out : string)
  | Hung (out : string).

Definition reprint (data : bytes) : Report * option nat :=
  let '(ts, long) := scan_tokens (raw_lines [] data) 0 in
  (foldl report (MkReport 0 0 "") (of_bytes <$> ts), long).

(** [Run(m)]: [pipe_err] is the answer of [os.Pipe()], [data] and [code] are what
    [m.Run()] prints and returns. *)
Definition Run (capacity : Z) (args : list string) (pipe_err : option error) (data : bytes) (code : Z)
    : option (list string * outcome) :=
  args ← ensureVerbose args;
  Some (args,
    match pipe_err with
    | Some _ => Exited code (of_bytes data)
    | None =>
        let '(rp, long) := reprint data in
        let out := rp_out rp +:+ totals (rp_passed rp) (rp_failed rp) in
        match long with
        | Some start => if capacity <? Z.of_nat (length data) - (Z.of_nat start + maxToken) then Hung out else Exited code out
        | None => Exited code out
        end
    end).

(** ** What the tests print

    The output of a test binary run with [-test.v]: banners, result lines of
    tests and subtests, the summary of the package, blank lines and the lines
    the tests print themselves.  Lines may end in a carriage return. *)

Inductive verdict := VPass | VFail | VSkip.
#[export] Instance verdict_eq_dec : EqDecision verdict.
Proof. solve_decision. Defined.

Inductive test_line :=
  | Banner (text : bytes)                              (** [=== RUN   TestX] *)
  | Result (indent : nat) (v : verdict) (name : bytes) (** [--- PASS: TestX (0.00s)] *)
  | Ending (passed cr : bool)                          (** [PASS], [FAIL] *)
  | Summary (passed : bool) (text : bytes)             (** [ok  pkg 0.01s] *)
  | Blank (cr : bool)
  | Output (line : bytes).

Definition word (v : verdict) : string := match v with VPass => "PASS" | VFail => "FAIL" | VSkip => "SKIP" end.
Definition carriage (cr : bool) : bytes := if cr then ["013"%char] else [].

Definition go_line (l : test_line) : bytes :=
  match l with
  | Banner text => to_bytes "=== " ++ text
  | Result indent v name =>
      replicate indent " "%char ++ to_bytes "--- " ++ to_bytes (word v) ++ to_bytes ": " ++ name
  | Ending passed cr => to_bytes (if passed then "PASS" else "FAIL") ++ carriage cr
  | Summary passed text => to_bytes (if passed then "ok " else "FAIL ") ++ text
  | Blank cr => carriage cr
  | Output line => line
  end.

Definition expected (l : test_line) : mark :=
  match l with
  | Banner _ | Ending _ _ | Summary _ _ | Blank _ => Dropped
  | Result _ VPass name => Passed (of_bytes name)
  | Result _ VFail name => Failed (of_bytes name)
  | Result _ VSkip name => Skipped (of_bytes name)
  | Output line => Kept (of_bytes (dropCR line))
  end.

Definition visible_byte (c : ascii) : Prop := is_ascii c = true ∧ is_space_chunk (Single c) = false.

(** A name begins and ends with a printing character, as [TestX (0.00s)] does. *)
Definition is_name (name : bytes) : Prop :=
  ∃ c m d, name = c :: m ++ [d] ∧ visible_byte c ∧ visible_byte d.

(** A line of a test's own: not blank, and not made to look like one of the
    test binary's. *)
Definition ordinary (line : bytes) : Prop :=
  line ≠ [] ∧ line ≠ to_bytes "PASS" ∧ line ≠ to_bytes "FAIL" ∧
  Forall (λ p, ¬ to_bytes p `prefix_of` line) ["=== "; "ok "; "FAIL "] ∧
  Forall (λ p, ¬ to_bytes p `prefix_of` TrimSpace line) ["--- PASS:"; "--- FAIL:"; "--- SKIP:"].

#[export] Instance ordinary_dec line : Decision (ordinary line).
Proof. unfold ordinary. apply _. Defined.

Record line_ok (l : test_line) : Prop := {
  lo_newline : Wal.newline ∉ go_line l;
  lo_length : Z.of_nat (length (go_line l)) < maxToken;
  lo_text : match l with
            | Result _ _ name => is_name name
            | Output line => ordinary (dropCR line)
            | Banner _ | Ending _ _ | Summary _ _ | Blank _ => True
            end
}.

(** *** Trimming *)

Lemma TrimSpace_space l : TrimSpace (" "%char :: l) = TrimSpace l.
Proof. done. Qed.

Lemma TrimSpace_spaces n l : TrimSpace (replicate n " "%char ++ l) = TrimSpace l.
Proof. induction n as [|n IH]; [done|]. cbn [replicate app]. by rewrite TrimSpace_space. Qed.

Lemma TrimSpace_name name : is_name name → TrimSpace name = name.
Proof. intros (c & m & d & -> & [Hc Hsc] & [Hd Hsd]). by apply TrimSpace_id. Qed.

Lemma is_name_app p name c : visible_byte c → is_name name → is_name (c :: p ++ name).
Proof.
  intros Hc (c' & m & d & -> & _ & Hd). exists c, (p ++ c' :: m), d. split_and!; [by rewrite <- app_assoc|done..].
Qed.

Lemma dropCR_name l c m : l = m ++ c → is_name c → dropCR l = l.
Proof.
  intros -> (a & k & d & -> & _ & [_ Hd]). unfold dropCR.
  rewrite app_comm_cons, app_assoc, rev_app_distr. cbn [rev app]. rewrite decide_False; [done|]. by intros ->.
Qed.

Lemma testName_result v name : is_name name →
  testName (of_bytes (to_bytes "--- " ++ to_bytes (word v) ++ to_bytes ": " ++ name)) ("--- " +:+ word v +:+ ":")
  = of_bytes name.
Proof.
  intros Hn. unfold testName, TrimSpaceS, TrimPrefix. rewrite !to_of_bytes.
  assert (strip_prefix (to_bytes ("--- " +:+ word v +:+ ":")) (to_bytes "--- " ++ to_bytes (word v) ++ to_bytes ": " ++ name)
    = Some (" "%char :: name)) as -> by (by destruct v).
  cbn [from_option]. unfold id. by rewrite TrimSpace_space, TrimSpace_name.
Qed.

Lemma HasPrefix_bytes l p : HasPrefix (of_bytes l) p = bool_decide (is_Some (strip_prefix (to_bytes p) l)).
Proof. unfold HasPrefix. by rewrite to_of_bytes. Qed.

Lemma strip_prefix_is p l : is_Some (strip_prefix p l) ↔ p `prefix_of` l.
Proof.
  split; [intros [r H%strip_prefix_Some]; by exists r|].
  intros [r ->]. rewrite strip_prefix_app. eauto.
Qed.

Lemma HasPrefix_false l p : ¬ to_bytes p `prefix_of` l → HasPrefix (of_bytes l) p = false.
Proof. intros H. rewrite HasPrefix_bytes. apply bool_decide_eq_false. by rewrite strip_prefix_is. Qed.

Lemma of_bytes_not l s : l ≠ to_bytes s → bool_decide (of_bytes l = s) = false.
Proof. intros H. apply bool_decide_eq_false. intros <-. by rewrite to_of_bytes in H. Qed.

(** Dropping the carriage return leaves a prefix alone that does not end in one. *)
Lemma dropCR_prefix p d l : d ≠ "013"%char → ∃ l', dropCR ((p ++ [d]) ++ l) = (p ++ [d]) ++ l'.
Proof.
  intros Hd. unfold dropCR. destruct l as [|c l _] using rev_ind.
  - exists []. rewrite app_nil_r, rev_app_distr. cbn [rev app]. by rewrite decide_False.
  - rewrite app_assoc, rev_app_distr. cbn [rev app]. case_decide; [|by exists (l ++ [c]); rewrite app_assoc].
    exists l. by rewrite rev_involutive.
Qed.

(** A line that begins with one of the binary's words is dropped. *)
Lemma classify_dropped w text : w ∈ ["=== "; "ok "; "FAIL "] →
  classify (of_bytes (dropCR (to_bytes w ++ text))) = Dropped.
Proof.
  intros Hw. rewrite !elem_of_cons, elem_of_nil in Hw.
  assert (∃ t, dropCR (to_bytes w ++ text) = to_bytes w ++ t) as [t ->].
  { assert (to_bytes w = removelast (to_bytes w) ++ [" "%char]) as -> by (destruct Hw as [-> | [-> | [-> | []]]]; reflexivity).
    by apply dropCR_prefix. }
  assert (∃ c r, to_bytes w = c :: r ∧ is_ascii c = true ∧ is_space_chunk (Single c) = false ∧ c ≠ "-"%char)
    as (c & r & E & Ha & Hs & Hc).
  { destruct Hw as [-> | [-> | [-> | []]]]; by eexists _, _. }
  destruct (WalTheorems.TrimSpace_prefix c (r ++ t) Ha Hs) as (p & q & Hp & _).
  assert (∀ v, HasPrefix (of_bytes (TrimSpace (to_bytes w ++ t))) (String "-" v) = false) as Hn.
  { intros v. apply HasPrefix_false. rewrite E. cbn [app]. rewrite Hp. intros [k Hk]. by injection Hk. }
  unfold classify, TrimSpaceS. rewrite to_of_bytes.
  rewrite !Hn, !HasPrefix_bytes.
  destruct Hw as [-> | [-> | [-> | []]]]; reflexivity.
Qed.

Lemma classify_ordinary line : ordinary line → classify (of_bytes line) = Kept (of_bytes line).
Proof.
  intros (Hne & Hp & Hf & Hl & Ht). rewrite !Forall_cons in Hl, Ht.
  destruct Hl as (H1 & H2 & H3 & _), Ht as (T1 & T2 & T3 & _).
  unfold classify, TrimSpaceS. rewrite to_of_bytes.
  rewrite !HasPrefix_false by done. rewrite !of_bytes_not by done. done.
Qed.

Lemma classify_ok l : line_ok l → classify (of_bytes (dropCR (go_line l))) = expected l.
Proof.
  intros [_ _ Ht]. destruct l as [text|n v name|[] []|passed text|[]|line]; cbn [go_line expected] in *; try done.
  - apply classify_dropped. set_solver.
  - assert (is_name (to_bytes "--- " ++ to_bytes (word v) ++ to_bytes ": " ++ name)) as Hl.
    { change (to_bytes "--- " ++ ?x) with ("-"%char :: to_bytes "-- " ++ x).
      rewrite (app_assoc (to_bytes (word v))), app_assoc. by apply is_name_app. }
    erewrite dropCR_name by done.
    unfold classify, TrimSpaceS. rewrite to_of_bytes, TrimSpace_spaces, TrimSpace_name by done.
    rewrite !HasPrefix_bytes. pose proof (testName_result v name Ht) as Hv.
    destruct v; cbn [word] in *; cbn -[testName of_bytes]; cbn -[testName of_bytes] in Hv; by rewrite <- Hv.
  - apply classify_dropped. destruct passed; set_solver.
  - by apply classify_ordinary.
Qed.

(** ** The report *)

Definition is_verdict (v : verdict) (l : test_line) : bool :=
  match l with Result _ v' _ => bool_decide (v' = v) | _ => false end.
Definition count (v : verdict) (ls : list test_line) : Z := Z.of_nat (length (filter (λ l, is_verdict v l = true) ls)).

(** The lines as the pipe carries them, and their marks. *)
Definition printed (ls : list test_line) : bytes := WalFacts.log_bytes (go_line <$> ls).
Definition marks (ls : list test_line) : string := foldr String.append "" (show ∘ expected <$> ls).

Lemma count_cons v l ls : count v (l :: ls) = (if is_verdict v l then 1 else 0) + count v ls.
Proof. unfold count. rewrite filter_cons. destruct (is_verdict v l); cbn [decide length]; [|done]. simpl. lia. Qed.

Lemma append_assoc (a b c : string) : (a +:+ b) +:+ c = a +:+ b +:+ c.
Proof.
  induction a as [|x a IH]; [done|]. exact (f_equal (String x) IH).
Qed.

Lemma append_nil_r (a : string) : a +:+ "" = a.
Proof. induction a as [|x a IH]; [done|]. exact (f_equal (String x) IH). Qed.

Lemma report_lines ls rp : Forall line_ok ls →
  foldl report rp (of_bytes ∘ dropCR ∘ go_line <$> ls) =
    MkReport (rp_passed rp + count VPass ls) (rp_failed rp + count VFail ls) (rp_out rp +:+ marks ls).
Proof.
  intros Hls. revert rp. induction Hls as [|l ls Hl _ IH]; intros rp.
  - cbn. rewrite append_nil_r, !Z.add_0_r. by destruct rp.
  - rewrite fmap_cons. cbn [foldl]. rewrite IH, !count_cons. unfold marks. cbn [fmap list_fmap foldr]. unfold compose.
    unfold report. cbn [rp_passed rp_failed rp_out]. rewrite (classify_ok l Hl), append_assoc.
    f_equal; destruct l as [?|? [] ?|? ?|? ?|?|?]; cbn [is_verdict expected];
      rewrite ?bool_decide_eq_true_2, ?bool_decide_eq_false_2 by done; lia.
Qed.

Lemma scan_lines ls more start : Forall line_ok ls →
  scan_tokens ((go_line <$> ls) ++ more) start =
    let '(ts, long) := scan_tokens more (start + length (printed ls)) in ((dropCR ∘ go_line <$> ls) ++ ts, long).
Proof.
  intros Hls. revert start. induction Hls as [|l ls Hl _ IH]; intros start.
  - cbn [fmap list_fmap app]. unfold printed. cbn. rewrite Nat.add_0_r. by destruct (scan_tokens more start).
  - rewrite fmap_cons. cbn [app scan_tokens]. pose proof (lo_length l Hl) as Hlen.
    destruct (Z.leb_spec maxToken (Z.of_nat (length (go_line l)))); [lia|]. rewrite IH.
    assert (length (printed (l :: ls)) = length (go_line l) + 1 + length (printed ls))%nat as ->.
    { unfold printed, WalFacts.log_bytes. csimpl. rewrite !length_app. cbn [length]. lia. }
    replace (start + length (go_line l) + 1 + length (printed ls))%nat
      with (start + (length (go_line l) + 1 + length (printed ls)))%nat by lia.
    by destruct (scan_tokens more _) as [ts long].
Qed.

Lemma raw_printed ls more : Forall line_ok ls → raw_lines [] (printed ls ++ more) = (go_line <$> ls) ++ raw_lines [] more.
Proof.
  intros Hls. apply WalFacts.raw_lines_log. rewrite Forall_fmap. eapply Forall_impl; [exact Hls|]. intros l. apply lo_newline.
Qed.

Lemma reprint_lines ls more : Forall line_ok ls →
  reprint (printed ls ++ more) =
    let '(ts, long) := scan_tokens (raw_lines [] more) (length (printed ls)) in
    (foldl report (MkReport (count VPass ls) (count VFail ls) (marks ls)) (of_bytes <$> ts), long).
Proof.
  intros Hls. unfold reprint. rewrite raw_printed, scan_lines by done. cbn [plus].
  destruct (scan_tokens (raw_lines [] more) (length (printed ls))) as [ts long].
  by rewrite fmap_app, foldl_app, <- list_fmap_compose, report_lines.
Qed.

(** C40: The reporter loses nothing.  Let the tests print whole lines, each
    shorter than 64 KiB, in any order: banners, results of tests and subtests,
    the PASS or FAIL and the summary the test binary ends with, blank lines, and
    lines of their own that are not made to look like one of those.  Then [Run]
    ends the process with the tests' own exit code after it has printed, in
    their order, one mark with the name for every result and every line of the
    tests as it was (without a carriage return at its end), and totals that
    count exactly the passed and the failed results.  The arguments then hold a
    verbosity flag, and asking again adds no second one. *)
Theorem every_result_is_reported (capacity : Z) (prog : string) (rest : list string) (ls : list test_line) (code : Z) :
  Forall line_ok ls →
  ∃ args, Run capacity (prog :: rest) None (printed ls) code =
      Some (args, Exited code (marks ls +:+ totals (count VPass ls) (count VFail ls)))
    ∧ existsb verbose_flag (tail args) = true ∧ ensureVerbose args = Some args.
Proof.
  intros Hls. unfold Run. cbn [ensureVerbose mbind option_bind].
  set (args := if existsb verbose_flag rest then prog :: rest else (prog :: rest) ++ ["-test.v"]).
  assert (existsb verbose_flag (tail args) = true) as Hv.
  { unfold args. destruct (existsb verbose_flag rest) eqn:E; [done|]. cbn [app tail]. rewrite existsb_app.
    by rewrite orb_true_r. }
  exists args. split_and!; [|done|].
  - rewrite <- (app_nil_r (printed ls)), reprint_lines by done. done.
  - unfold ensureVerbose. destruct args as [|a l] eqn:E; [by cbn in Hv|]. cbn [tail] in Hv. by rewrite Hv.
Qed.

(** A line of 64 KiB or more ends the report without a word: no result after
    it is shown or counted, and the totals still look complete.  If what the
    tests print afterwards does not fit into the pipe, the tests wait for a
    reader and [Run] waits for the tests: the process never exits. *)
Theorem long_line_ends_the_report (capacity : Z) (prog : string) (rest : list string) (ls : list test_line)
    (long more : bytes) (code : Z) :
  Forall line_ok ls → Wal.newline ∉ long → maxToken <= Z.of_nat (length long) →
  let data := printed ls ++ long ++ Wal.newline :: more in
  let out := marks ls +:+ totals (count VPass ls) (count VFail ls) in
  ∃ args, Run capacity (prog :: rest) None data code =
    Some (args, if capacity <? Z.of_nat (length long + 1 + length more) - maxToken then Hung out else Exited code out).
Proof.
  intros Hls Hn Hl data out. unfold Run. cbn [ensureVerbose mbind option_bind]. eexists. do 2 f_equal.
  unfold data at 1. rewrite reprint_lines by done. rewrite (WalFacts.raw_lines_nl [] long more) by done.
  cbn [rev app scan_tokens]. destruct (Z.leb_spec maxToken (Z.of_nat (length long))); [|lia]. cbn [fmap list_fmap foldl].
  cbn [rp_passed rp_failed rp_out]. fold out.
  assert (Z.of_nat (length data) - (Z.of_nat (length (printed ls)) + maxToken)
    = Z.of_nat (length long + 1 + length more) - maxToken) as ->; [|done].
  unfold data. rewrite !length_app. cbn [length]. lia.
Qed.

(** ** Examples *)

Module Sample.
Definition lines : list test_line :=
  [Banner (to_bytes "RUN   TestPop"); Banner (to_bytes "RUN   TestPop/empty");
   Output (to_bytes "    pop_test.go:12: got 2, want 1"); Blank false;
   Output (to_bytes "{PASS: 3}" ++ carriage true);
   Result 0 VFail (to_bytes "TestPop (0.00s)"); Result 4 VPass (to_bytes "TestPop/empty (0.01s)");
   Ending false false; Summary true (to_bytes " queue/pkg/engine 0.012s"); Blank true].

Lemma name_ok name : (if name is c :: m then
    match rev m with
    | d :: _ => visible_byte c ∧ visible_byte d
    | [] => False
    end else False) → is_name name.
Proof.
  destruct name as [|c m]; [done|]. destruct m as [|d m _] using rev_ind; [done|].
  rewrite rev_app_distr. intros []. by exists c, m, d.
Qed.

Lemma lines_ok : Forall line_ok lines.
Proof.
  repeat apply Forall_cons_2; [..|apply Forall_nil_2];
    (split; [by apply (bool_decide_unpack _)|by vm_compute|];
     first [exact I | by apply name_ok | by apply (bool_decide_unpack _); vm_compute]).
Qed.

Definition long : bytes := replicate (Z.to_nat maxToken) "x"%char.

Lemma long_ok : (Wal.newline ∉ long) ∧ maxToken <= Z.of_nat (length long).
Proof.
  unfold long. split; [intros [[=] _]%elem_of_replicate|]. rewrite length_replicate. by vm_compute.
Qed.
End Sample.

Lemma every_result_is_reported_witness :
  ∃ args, Run 65536 ["pop.test"] None (printed Sample.lines) 1 =
      Some (args, Exited 1 (marks Sample.lines +:+ totals 1 1))
    ∧ existsb verbose_flag (tail args) = true ∧ ensureVerbose args = Some args.
Proof. exact (every_result_is_reported 65536 "pop.test" [] Sample.lines 1 Sample.lines_ok). Defined.

Lemma long_line_ends_the_report_witness :
  ∃ args, Run 65536 ["pop.test"] None
      (printed Sample.lines ++ Sample.long ++ Wal.newline :: printed Sample.lines) 1 =
    Some (args, if 65536 <? Z.of_nat (length Sample.long + 1 + length (printed Sample.lines)) - maxToken
                then Hung (marks Sample.lines +:+ totals 1 1) else Exited 1 (marks Sample.lines +:+ totals 1 1)).
Proof.
  destruct Sample.long_ok as [Hn Hl].
  exact (long_line_ends_the_report 65536 "pop.test" [] Sample.lines Sample.long (printed Sample.lines) 1 Sample.lines_ok Hn Hl).
Defined.
