(* ===== verification/Client.v ===== *)
(** * [cmd/client]: the checkout dispatcher

    The worker enqueues its jobs, predicts from a snapshot the order in which
    the server will hand them out, polls, and compares.  Jobs are shared by
    pointer between the map [mine], the slices [pending] and [actual], so they
    live in a store.  HTTP is the [HttpClient] interface; what the clock says is
    an argument; what is printed is a list of texts. *)

From S2P Require Import Prelude GoTime GoSort GoStrconv GoUtf8 GoJson GoTimeFormat Model Codec.
From S2P Require Import GoJsonStream GoFmt.
From Stdlib Require Import Ascii.

Local Open Scope Z_scope.

Definition pollInterval : Z := 500 * Millisecond.
Definition idleGrace : Z := 1500 * Millisecond.
Definition snapshotLimit : Z := 1000.

(** ** Jobs *)

Record task := MkTask {
  t_Label : string;
  t_Priority : Z;
  t_DelaySeconds : Z;     (** int64 *)
  t_Payload : string
}.

(** [tracked]: the embedded task and the message. *)
Record tracked := MkTracked { tr_task : task; tr_msg : Message }.

Abbreviation tr_Label t := (t_Label (tr_task t)).
Abbreviation tr_Priority t := (t_Priority (tr_task t)).
Abbreviation tr_DelaySeconds t := (t_DelaySeconds (tr_task t)).
Abbreviation tr_Payload t := (t_Payload (tr_task t)).

(** A [*tracked] is an address of the store. *)
Abbreviation jptr := nat.
Abbreviation Store := (gmap nat tracked).

(** ** Prediction *)

Record simItem := MkSimItem { si_id : string; si_priority : Z; si_seq : Z; si_availableAt : Time }.

Definition sim_item (m : Message) : simItem := MkSimItem (ID m) (Priority m) (Seq m) (AvailableAt m).

Definition lessFor (mode : QueueMode) (a b : simItem) : bool :=
  if negb (si_priority a =? si_priority b) then si_priority b <? si_priority a
  else if decide (mode = ModeLIFO) then si_seq b <? si_seq a
  else si_seq a <? si_seq b.

(** The inner loop: delayed items that are due move to the ready ones. *)
Fixpoint mature (t : Time) (ready delayed : list simItem) : list simItem * list simItem :=
  match delayed with
  | d :: rest => if negb (After (si_availableAt d) t) then mature t (ready ++ [d]) rest else (ready, delayed)
  | [] => (ready, [])
  end.

(** The outer loop; [None] when the rounds run out. *)
Fixpoint drain_loop (fuel : nat) (less : simItem → simItem → bool) (t : Time) (ready delayed out : list simItem)
    : option (list simItem) :=
  match fuel with
  | O => None
  | S fuel =>
      match ready, delayed with
      | [], [] => Some out
      | _, _ =>
          let '(ready, delayed) := mature t ready delayed in
          match SliceStable less ready, delayed with
          | [], d :: _ => drain_loop fuel less (si_availableAt d) ready delayed out
          | first :: ready, _ => drain_loop fuel less (Add t pollInterval) ready delayed (out ++ [first])
          | [], [] => None
          end
      end
  end.

(** Each item takes a round, and a jump of the clock at most one more. *)
Definition simulateDrain (snap : QueueSnapshot) : option (list simItem) :=
  let ready := sim_item <$> sn_Ready snap in
  let delayed := SliceStable (λ a b, Before (si_availableAt a) (si_availableAt b)) (sim_item <$> sn_Delayed snap) in
  drain_loop (S (2 * (length ready + length delayed))) (lessFor (sn_Mode snap)) (sn_Now snap) ready delayed [].

(** [mine[id]], followed to the store. *)
Definition job (mem : Store) (mine : gmap string jptr) (id : string) : option tracked :=
  match mine !! id with Some p => mem !! p | None => None end.

(** [predictLabels(snap, mine)]; [None] only where [simulateDrain] has it. *)
Definition predictLabels (snap : QueueSnapshot) (mem : Store) (mine : gmap string jptr) : option (list string) :=
  match simulateDrain snap with
  | Some items => Some (omap (λ it, (λ tr, tr_Label tr) <$> job mem mine (si_id it)) items)
  | None => None
  end.

(** ** Texts *)

Section style.
Context (useColor : bool).

Definition escape (code : string) : string := String "027"%char ("[" +:+ code +:+ "m").
Definition paint (code s : string) : string :=
  if negb useColor then s else escape code +:+ s +:+ escape "0".
Definition bold : string → string := paint "1".
Definition dim : string → string := paint "2".
Definition green : string → string := paint "32".
Definition yellow : string → string := paint "33".
Definition cyan : string → string := paint "36".
End style.

Definition nl : string := of_bytes ["010"%char].

(** [os.Getenv] is an argument. *)
Definition getenv (env : string → string) (key fallback : string) : string :=
  if negb (bool_decide (env key = "")) then env key else fallback.

(** [autoColor]: [stat] tells whether standard output is a character device. *)
Definition autoColor (env : string → string) (stat : result bool) : bool :=
  if negb (bool_decide (env "NO_COLOR" = "")) then false
  else if bool_decide (env "TERM" = "dumb") then false
  else match stat with Err _ => false | Ok char_device => char_device end.

(** [setColor]: the new value of [useColor]. *)
Definition setColor (lower_rune : bytes → bytes) (env : string → string) (stat : result bool) (mode : string) : result bool :=
  let m := ToLower lower_rune (TrimSpaceS mode) in
  if bool_decide (m = "always") then Ok true
  else if bool_decide (m = "never") then Ok false
  else if bool_decide (m = "auto") || bool_decide (m = "") then Ok (autoColor env stat)
  else Err (ErrQuoted "invalid -color " mode ": must be auto, always, or never").

Definition reasoning (mode : QueueMode) (preexisting : Z) : string :=
  if 0 <? preexisting then
    "  The order above accounts for the " +:+ Itoa preexisting +:+ " message(s) already queued:" +:+ nl +:+
    "  they drain first, and our backoffs mature while they do, so a delayed" +:+ nl +:+
    "  priority-10 webhook can be ready before the captures are reached." +:+ nl +:+
    "  Run against an empty queue to see the five jobs in isolation."
  else
    let tie := if decide (mode = ModeLIFO)
      then "  D before B      two payment captures, same priority; LIFO takes the newest"
      else "  B before D      two payment captures, same priority; FIFO takes the oldest" in
    tie +:+ nl +:+
    "  captures first  money outranks the receipt email (priority 5 beats 1)" +:+ nl +:+
    "  A before E,C    the webhooks asked us to wait; they cannot jump the line yet" +:+ nl +:+
    "  E before C      the 4s inventory backoff ends before the 8s Stripe backoff".

Definition availability (t : task) : string :=
  if t_DelaySeconds t =? 0 then "available immediately"
  else "hidden until +" +:+ Itoa (t_DelaySeconds t) +:+ "s".

Definition labels (ts : list tracked) : string := Join ((λ t, tr_Label t) <$> ts) ", ".

Definition describePri (ts : list tracked) : string :=
  Join ((λ t, tr_Label t +:+ " (pri " +:+ Itoa (tr_Priority t) +:+ ")") <$> ts) ", ".

Definition describeTracked (ts : list tracked) (now : Time) : string :=
  Join ((λ t,
    let wait := Sub (AvailableAt (tr_msg t)) now in
    let wait := if wait <? 0 then 0 else wait in
    tr_Label t +:+ " (pri " +:+ Itoa (tr_Priority t) +:+ ", ready in " +:+ fixed2 false (Seconds wait) +:+ "s)") <$> ts) "; ".

Definition joinWhy (parts : list string) : string := Join parts ". " +:+ ".".

(** The jobs whose backoff has not ended, and the others, in order. *)
Definition hidden (now : Time) (t : tracked) : bool := Before now (AvailableAt (tr_msg t)).

Definition explainEmpty (remaining : list tracked) (now : Time) : string :=
  match remaining with
  | [] => "shop is caught up: every checkout job has been processed"
  | _ =>
      match filter (λ r, hidden now r = false) remaining with
      | [] => "waiting on backoff: " +:+ describeTracked (filter (λ r, hidden now r = true) remaining) now
      | visible => "unexpected: ready jobs remain (" +:+ labels visible +:+ ") but dequeue returned 204"
      end
  end.

(** The first sentence of the explanation: how [got] became ready. *)
Definition explain_ready (got : tracked) (now : Time) : string :=
  if 0 <? tr_DelaySeconds got then
    let since := Sub now (AvailableAt (tr_msg got)) in
    if since <? 800 * Millisecond
    then tr_Label got +:+ " just became ready after its " +:+ Itoa (tr_DelaySeconds got) +:+ "s backoff"
    else tr_Label got +:+ " has been ready since its " +:+ Itoa (tr_DelaySeconds got) +:+ "s backoff elapsed"
  else tr_Label got +:+ " was ready immediately (no backoff)".

(** The last sentence when no other job is visible. *)
Definition explain_alone (got : tracked) (hid : list tracked) : string :=
  match hid with
  | [] => tr_Label got +:+ " is the last remaining job"
  | _ =>
      match filter (λ h, (tr_Priority got <? tr_Priority h) = true) hid with
      | [] => tr_Label got +:+ " is the only ready job; delayed jobs stay hidden until backoff ends"
      | higher => tr_Label got +:+ " is the only ready job; higher-priority webhooks ("
          +:+ describePri higher +:+ ") are still on backoff"
      end
  end.

(** The last sentence when other jobs are visible. *)
Definition explain_rank (got : tracked) (others : list tracked) : string :=
  match filter (λ o, tr_Priority o = tr_Priority got) others with
  | [] => "highest visible priority is " +:+ Itoa (tr_Priority got) +:+ ", beating "
      +:+ describePri (filter (λ o, (tr_Priority o <? tr_Priority got) = true) others)
  | samePri => "tied at priority " +:+ Itoa (tr_Priority got) +:+ " with " +:+ labels samePri
      +:+ "; the tie-break took " +:+ tr_Label got +:+ " (seq " +:+ Itoa (Seq (tr_msg got)) +:+ ") over " +:+ labels samePri
  end.

Definition explainDequeue (got : tracked) (remaining : list tracked) (now : Time) : string :=
  let hid := filter (λ r, hidden now r = true) remaining in
  let othersVisible := filter (λ r, hidden now r = false) remaining in
  joinWhy ([explain_ready got now]
    ++ match hid with [] => [] | _ => ["still waiting on backoff: " +:+ describeTracked hid now] end
    ++ [match othersVisible with [] => explain_alone got hid | _ => explain_rank got othersVisible end]).

(** ** Comparing *)

Definition orderMatches (expected : list string) (actual : list tracked) : bool :=
  if negb (bool_decide (length actual = length expected)) then false
  else forallb (λ ea, bool_decide (tr_Label ea.2 = ea.1)) (zip expected actual).

Definition payloadForLabel (script : list task) (label : string) : string :=
  match list_find (λ t, t_Label t = label) script with
  | Some (_, t) => t_Payload t
  | None => ""
  end.

(** One line of the summary table, and whether it counts as a match. *)
Definition summary_row (expected : list string) (actual : list tracked) (script : list task) (i : nat)
    : (Z * string * string * string) * bool :=
  let exp := match expected !! i with Some e => e +:+ "  " +:+ payloadForLabel script e | None => "-" end in
  let act := match actual !! i with Some a => tr_Label a +:+ "  " +:+ tr_Payload a | None => "-" end in
  let ok := match expected !! i, actual !! i with
            | Some e, Some a => bool_decide (tr_Label a = e)
            | _, _ => false
            end in
  ((Z.of_nat i + 1, exp, act, if ok then "ok" else "x"), ok).

(** [printSummary]: the cells of the table and the verdict under it; the
    columns' alignment by [text/tabwriter] is left out. *)
Definition printSummary (useColor : bool) (expected : list string) (actual : list tracked) (script : list task)
    : list (Z * string * string * string) * string :=
  let n := Nat.max (length expected) (length actual) in
  let rows := summary_row expected actual script <$> seq 0 n in
  let allOK := bool_decide (length actual = length expected) && forallb snd rows in
  (fst <$> rows,
   if allOK then green useColor "  Result: PASS  the engine drained exactly as its own rules predict."
   else yellow useColor "  Result: MISMATCH  the engine disagreed with its own rules - see the table.").

(** ** HTTP *)

Record Reply := MkReply { rp_status : Z; rp_body : reader }.

(** What [http.Client] does with a request: a method, a URL and a body, in a
    state of the network. *)
Class HttpClient (W : Type) := {
  do_request : string → string → bytes → W → result Reply * W
}.

Definition only_field (name f : string) (j : json) (s : string) : option string :=
  if decide (f = name) then dec_string j s else Some s.

(** [healthResponse] and [errorResponse]. *)
Definition dec_health : json → string → option string := decode_struct ["status"] (only_field "status").
Definition dec_error : json → string → option string := decode_struct ["error"] (only_field "error").

(** The error of [json.Unmarshal] where it fails. *)
Definition unmarshal_error (raw : bytes) : error :=
  match parse raw with None => ErrSyntax | Some _ => ErrUnmarshalType end.

(** [io.ReadAll]. *)
Definition ReadAll (r : reader) : result bytes :=
  match rd_end r with None => Ok (rd_bytes r) | Some e => Err e end.

Definition apiErr (raw : bytes) : string :=
  let s := of_bytes (TrimSpace raw) in
  let fallback := if bool_decide (s = "") then "(empty body)" else s in
  match Unmarshal dec_error raw "" with
  | Some text => if negb (bool_decide (text = "")) then text else fallback
  | None => fallback
  end.

Section http.
Context {W : Type} `{HttpClient W}.

Definition checkHealth (base : string) (w : W) : option error * W :=
  let '(resp, w) := do_request "GET" (base +:+ "/health") [] w in
  (match resp with
   | Err err => Some (ErrWrap ("server not reachable at " +:+ base) err)
   | Ok resp =>
       if negb (rp_status resp =? 200) then Some (ErrNew ("GET /health: unexpected status " +:+ Itoa (rp_status resp)))
       else match Decode dec_health (rp_body resp) "" with
       | Err err => Some (ErrWrap "GET /health: decode" err)
       | Ok h => if negb (bool_decide (h = "healthy")) then Some (ErrQuoted "GET /health: status " h ", want healthy") else None
       end
   end, w).

Definition getSnapshot (base : string) (w : W) : result QueueSnapshot * W :=
  let '(resp, w) := do_request "GET" (base +:+ "/messages?limit=" +:+ Itoa snapshotLimit) [] w in
  (match resp with
   | Err err => Err (ErrWrap "GET /messages" err)
   | Ok resp =>
       if negb (rp_status resp =? 200) then Err (ErrNew ("GET /messages: unexpected status " +:+ Itoa (rp_status resp)))
       else match Decode dec_snapshot (rp_body resp) zero_snapshot with
       | Err err => Err (ErrWrap "GET /messages: decode" err)
       | Ok snap =>
           if negb (Valid (sn_Mode snap)) then Err (ErrQuoted "GET /messages: server reported unknown mode " (sn_Mode snap) "")
           else Ok snap
       end
   end, w).

Definition enqueue (base : string) (req : EnqueueRequest) (w : W) : result Message * W :=
  let '(resp, w) := do_request "POST" (base +:+ "/enqueue") (compact (enc_request req)) w in
  (match resp with
   | Err err => Err err
   | Ok resp =>
       match ReadAll (rp_body resp) with
       | Err err => Err err
       | Ok raw =>
           if negb (rp_status resp =? 201)
           then Err (ErrNew ("POST /enqueue: status " +:+ Itoa (rp_status resp) +:+ ": " +:+ apiErr raw))
           else match Unmarshal dec_message raw zero_message with
           | None => Err (ErrWrap "POST /enqueue: decode" (unmarshal_error raw))
           | Some msg => Ok msg
           end
       end
   end, w).

(** [Ok None] is [nil, nil]. *)
Definition dequeue (base : string) (w : W) : result (option Message) * W :=
  let '(resp, w) := do_request "POST" (base +:+ "/dequeue") [] w in
  (match resp with
   | Err err => Err err
   | Ok resp =>
       if rp_status resp =? 204 then Ok None
       else match ReadAll (rp_body resp) with
       | Err err => Err err
       | Ok raw =>
           if negb (rp_status resp =? 200)
           then Err (ErrNew ("POST /dequeue: status " +:+ Itoa (rp_status resp) +:+ ": " +:+ apiErr raw))
           else match Unmarshal dec_message raw zero_message with
           | None => Err (ErrWrap "POST /dequeue: decode" (unmarshal_error raw))
           | Some msg => Ok (Some msg)
           end
       end
   end, w).
End http.

(** ** The worker *)

Record Worker := MkWorker {
  w_mem : Store;
  w_mine : gmap string jptr;
  w_pending : list jptr;
  w_actual : list jptr
}.

(** [removeTracked]: [out := pending[:0]] shares the array [a] with [pending];
    [i] is read, [w] is written. *)
Fixpoint remove_loop (n i w : nat) (want : jptr) (a : list jptr) : option (list jptr) :=
  match n with
  | O => Some (take w a)
  | S n =>
      match a !! i with
      | None => None
      | Some p =>
          if decide (p ≠ want) then remove_loop n (S i) (S w) want (<[w := p]> a)
          else remove_loop n (S i) w want a
      end
  end.

Definition removeTracked (pending : list jptr) (want : jptr) : option (list jptr) :=
  remove_loop (length pending) 0 0 want pending.

(** The jobs some pointers point to. *)
Definition deref (mem : Store) (ps : list jptr) : option (list tracked) := mapM (λ p, mem !! p) ps.

Section worker.
Context {W : Type} `{HttpClient W} (useColor : bool) (base : string).

(** [pollOnce]: what is printed, the error, the worker and the network after
    it; [None] is a nil pointer. *)
Definition pollOnce (start now : Time) (wk : Worker) (w : W) : option (list string * option error * Worker * W) :=
  let elapsed := Sub now start in
  let '(resp, w) := dequeue base w in
  let ts := clock_text now +:+ "  t=" +:+ pad_left 6 (fixed2 true (Seconds elapsed)) +:+ "s" in
  match resp with
  | Err err => Some ([], Some err, wk, w)
  | Ok None =>
      remaining ← deref (w_mem wk) (w_pending wk);
      Some (["  " +:+ dim useColor ts +:+ "  " +:+ yellow useColor "empty" +:+ "  "
               +:+ dim useColor (explainEmpty remaining now) +:+ nl], None, wk, w)
  | Ok (Some msg) =>
      match w_mine wk !! ID msg with
      | None =>
          Some (["  " +:+ dim useColor ts +:+ "  " +:+ dim useColor "processed (other traffic)" +:+ "  "
                   +:+ dim useColor (Payload msg) +:+ nl;
                 "      " +:+ dim useColor ("priority=" +:+ Itoa (Priority msg) +:+ "  seq=" +:+ Itoa (Seq msg)
                   +:+ "  not part of this run - it was already queued and outranked our jobs") +:+ nl], None, wk, w)
      | Some p =>
          tr ← w_mem wk !! p;
          let tr := MkTracked (tr_task tr) msg in
          let mem := <[p := tr]> (w_mem wk) in
          pending ← removeTracked (w_pending wk) p;
          remaining ← deref mem pending;
          Some (["  " +:+ cyan useColor ts +:+ "  " +:+ green useColor ("processed " +:+ tr_Label tr) +:+ "  "
                   +:+ tr_Payload tr +:+ nl;
                 "      priority=" +:+ Itoa (tr_Priority tr) +:+ "  original delay=" +:+ Itoa (tr_DelaySeconds tr)
                   +:+ "s  seq=" +:+ Itoa (Seq (tr_msg tr)) +:+ nl;
                 "      why: " +:+ explainDequeue tr remaining now +:+ nl],
                None, MkWorker mem (w_mine wk) pending (w_actual wk ++ [p]), w)
      end
  end.

(** What the clock says in one round of the loop. *)
Record Tick := MkTick {
  tk_poll : Time;      (** in [pollOnce] *)
  tk_done : Time;      (** for [doneAt] *)
  tk_idle : Time;      (** in [time.Since(doneAt)] *)
  tk_check : Time;     (** against the deadline *)
  tk_report : Time     (** in [time.Since(start)] *)
}.

(** How the loop stands after the rounds it was given. *)
Inductive loop_end :=
  | Polling (out : list string) (wk : Worker) (w : W)
  | Returned (out : list string) (err : option error) (wk : Worker) (w : W)
  | Panics.

Fixpoint worker_loop (start deadline : Time) (ticks : list Tick) (doneAt : Time) (out : list string) (wk : Worker) (w : W)
    : loop_end :=
  match ticks with
  | [] => Polling out wk w
  | tk :: ticks =>
      match pollOnce start (tk_poll tk) wk w with
      | None => Panics
      | Some (printed, Some err, wk, w) => Returned (out ++ printed) (Some err) wk w
      | Some (printed, None, wk, w) =>
          let all := bool_decide (length (w_actual wk) = size (w_mine wk)) in
          let doneAt := if all && IsZero doneAt then tk_done tk else doneAt in
          if all && (idleGrace <=? Sub (tk_idle tk) doneAt) then Returned (out ++ printed) None wk w
          else if After (tk_check tk) deadline then
            Returned (out ++ printed) (Some (ErrNew ("timed out after " +:+ seconds_text (RoundSecond (Sub (tk_report tk) start))
              +:+ " with " +:+ Itoa (Z.of_nat (length (w_actual wk))) +:+ "/" +:+ Itoa (Z.of_nat (size (w_mine wk)))
              +:+ " jobs processed"))) wk w
          else worker_loop start deadline ticks doneAt (out ++ printed) wk w
      end
  end.

Definition maxDelay (script : list task) : Z :=
  fold_left (λ m t, if m <? t_DelaySeconds t then t_DelaySeconds t else m) script 0.

(** [workerLoop]: [before] and [start] are the first two readings of the clock. *)
Definition workerLoop (before start : Time) (ticks : list Tick) (script : list task) (wk : Worker) (w : W) : loop_end :=
  let deadline := Add before (wrap_i64 (wrap_i64 (maxDelay script * Second) + 30 * Second)) in
  worker_loop start deadline ticks zero_time [] wk w.
End worker.

Arguments loop_end : clear implicits.

(** ** The program *)

Definition script : list task :=
  [MkTask "A" 1 0 "email receipt for order 1841";
   MkTask "B" 5 0 "capture payment for order 1842";
   MkTask "C" 10 8 "retry Stripe webhook for order 1842";
   MkTask "D" 5 0 "capture payment for order 1843";
   MkTask "E" 10 4 "retry inventory webhook for order 1843"].

Definition printBanner (mode : QueueMode) : string :=
  let tie := if decide (mode = ModeLIFO) then "LIFO does the newest job first" else "FIFO does the oldest job first" in
  nl +:+
  "+----------------------------------------------------------------------+" +:+ nl +:+
  "|     Checkout dispatcher  (a worker that uses Queuemaxxing)            |" +:+ nl +:+
  "+----------------------------------------------------------------------+" +:+ nl +:+
  nl +:+
  "You are the single worker behind a small shop checkout pipeline." +:+ nl +:+
  "Five jobs just landed from the storefront. Process them in the order" +:+ nl +:+
  "the queue decides, not the order they arrived." +:+ nl +:+
  nl +:+
  "  A   pri  1   now     email receipt for order 1841" +:+ nl +:+
  "  B   pri  5   now     capture payment for order 1842" +:+ nl +:+
  "  C   pri 10   +8s     retry Stripe webhook for order 1842" +:+ nl +:+
  "  D   pri  5   now     capture payment for order 1843" +:+ nl +:+
  "  E   pri 10   +4s     retry inventory webhook for order 1843" +:+ nl +:+
  nl +:+
  "This server is in " +:+ mode +:+ " mode, so on a priority tie: " +:+ tie +:+ "." +:+ nl +:+ nl.

(** The note on a queue that holds messages already. *)
Definition existing_note (useColor : bool) (s : QueueStats) : list string :=
  if 0 <? Total s then
    [yellow useColor
       ("  Note: the queue already holds " +:+ Itoa (Total s) +:+ " message(s) (" +:+ Itoa (s_Available s)
        +:+ " ready, " +:+ Itoa (s_Delayed s) +:+ " delayed)." +:+ nl +:+
        "  That is fine - the worker scores only the jobs it enqueued, and the" +:+ nl +:+
        "  prediction below accounts for the existing traffic draining first.") +:+ nl]
  else [].

Section program.
Context {W : Type} `{HttpClient W} (useColor : bool) (base : string).

Definition task_request (t : task) : EnqueueRequest := MkEnqueueRequest (t_Payload t) (t_Priority t) (t_DelaySeconds t).

(** The storefront burst: [p] is the address the next job gets. *)
Fixpoint burst (ts : list task) (p : jptr) (wk : Worker) (w : W) : list string * option error * Worker * W :=
  match ts with
  | [] => ([], None, wk, w)
  | t :: ts =>
      match enqueue base (task_request t) w with
      | (Err err, w) => ([], Some (ErrWrap ("enqueue " +:+ t_Label t) err), wk, w)
      | (Ok msg, w) =>
          let tr := MkTracked t msg in
          let wk := MkWorker (<[p := tr]> (w_mem wk)) (<[ID msg := p]> (w_mine wk)) (w_pending wk ++ [p]) (w_actual wk) in
          let line := "  " +:+ bold useColor (t_Label t) +:+ "  seq=" +:+ pad_right 4 (Itoa (Seq msg)) +:+ " pri="
            +:+ pad_right 3 (Itoa (t_Priority t)) +:+ " delay=" +:+ Itoa (t_DelaySeconds t) +:+ "s  " +:+ availability t +:+ nl in
          let '(out, err, wk, w) := burst ts (S p) wk w in
          (line :: out, err, wk, w)
      end
  end.

(** What the run prints: texts, and the table of the summary. *)
Inductive output :=
  | Print (s : string)
  | Table (rows : list (Z * string * string * string)).

Inductive run_end :=
  | Finished (out : list output) (err : option error) (w : W)
  | Working (out : list output)          (** still polling *)
  | Stuck.                               (** a panic, or no prediction *)

Definition mismatch : error :=
  ErrNew "dequeue order did not match the engine's own rules (see table above)".

(** [run], after the flags are parsed and the colours set. *)
Definition run (before_loop start : Time) (ticks : list Tick) (w : W) : run_end :=
  match checkHealth base w with
  | (Some err, w) => Finished [] (Some (ErrWrapAfter err (nl +:+ "Start the server first:  go run ./cmd/server"))) w
  | (None, w) =>
  match getSnapshot base w with
  | (Err err, w) => Finished [] (Some err) w
  | (Ok before, w) =>
      let out := Print <$> [printBanner (sn_Mode before);
        "Connected to " +:+ base +:+ "  (mode=" +:+ sn_Mode before +:+ ")" +:+ nl]
        ++ existing_note useColor (sn_Stats before) ++ [nl;
        bold useColor "-- 1. Storefront burst (enqueue) -----------------------------------" +:+ nl] in
  match burst script 0 (MkWorker ∅ ∅ [] []) w with
  | (printed, Some err, _, w) => Finished (out ++ (Print <$> printed)) (Some err) w
  | (printed, None, wk, w) =>
      let out := out ++ (Print <$> printed) in
  match getSnapshot base w with
  | (Err err, w) => Finished out (Some err) w
  | (Ok after, w) =>
  match predictLabels after (w_mem wk) (w_mine wk) with
  | None => Stuck
  | Some expected =>
      let out := out ++ (Print <$> [nl +:+ "Worker should process, in order: " +:+ bold useColor (Join expected " -> ") +:+ nl;
        dim useColor (reasoning (sn_Mode after) (Total (sn_Stats before))) +:+ nl +:+ nl;
        bold useColor ("-- 2. Worker loop (POST /dequeue every " +:+ Itoa (pollInterval / Millisecond)
          +:+ "ms) ------------------------") +:+ nl]) in
  match workerLoop useColor base before_loop start ticks script wk w with
  | Panics => Stuck
  | Polling printed _ _ => Working (out ++ (Print <$> printed))
  | Returned printed (Some err) _ w => Finished (out ++ (Print <$> printed)) (Some err) w
  | Returned printed None wk w =>
  match deref (w_mem wk) (w_actual wk) with
  | None => Stuck
  | Some actual =>
      let '(rows, verdict) := printSummary useColor expected actual script in
      let out := out ++ (Print <$> printed)
        ++ [Print nl; Print (bold useColor "-- 3. What the worker ran ------------------------------------------" +:+ nl +:+ nl);
            Table rows; Print nl; Print (verdict +:+ nl); Print nl] in
      Finished out (if negb (orderMatches expected actual) then Some mismatch else None) w
  end end end end end end end.
End program.

Arguments run_end : clear implicits.

(** The flags [-url] and [-color], from the command line or the environment;
    then [run]. *)
Definition run_flags {W : Type} `{HttpClient W} (lower_rune : bytes → bytes) (env : string → string) (stat : result bool)
    (url_flag color_flag : option string) (before_loop start : Time) (ticks : list Tick) (w : W) : run_end W :=
  let url := default (getenv env "QUEUE_URL" "http://127.0.0.1:8080") url_flag in
  let colorMode := default (getenv env "QM_COLOR" "auto") color_flag in
  let base := TrimRight (TrimSpaceS url) "/" in
  match setColor lower_rune env stat colorMode with
  | Err err => Finished [] (Some err) w
  | Ok useColor => run useColor base before_loop start ticks w
  end.
