(* ===== verification/ClientFacts.v ===== *)
(** * The drain the client predicts, and the drain of the engine

    [polls] is a worker that takes one message per call from an engine queue,
    its clock advancing by one poll interval after each, and by some policy when
    only delayed messages remain.  [drain_loop] is such a worker whose clock
    jumps to the next maturity. *)

From S2P Require Import Prelude GoTime GoHeap GoSort GoStrconv GoJson GoTimeFormat Model Codec CodecFacts.
From S2P Require Import Engine EngineHeap EngineSpec EngineRefine EngineTheorems.
From S2P Require Import GoJsonStream GoFmt Client.
From Stdlib Require Import Ascii.

Local Open Scope Z_scope.

(** ** The loops *)

Definition due (t : Time) (it : simItem) : Prop := After (si_availableAt it) t = false.
#[export] Instance due_dec t it : Decision (due t it).
Proof. unfold due. apply _. Defined.

Lemma mature_perm t r d : (mature t r d).1 ++ (mature t r d).2 ≡ₚ r ++ d.
Proof.
  revert r. induction d as [|x d IH]; intros r; cbn [mature]; [done|].
  destruct (negb _); [|done]. rewrite IH. by rewrite <- app_assoc.
Qed.

(** A first delayed item that is due leaves a ready item. *)
Lemma mature_head t r x d : due t x → (mature t r (x :: d)).1 ≠ [].
Proof.
  unfold due. intros Hx. cbn [mature]. rewrite Hx. cbn [negb].
  assert (∀ d r, r ≠ [] → (mature t r d).1 ≠ []) as H.
  { clear. induction d as [|x d IH]; intros r Hr; cbn [mature]; [done|].
    destruct (negb _); [|done]. apply IH. by destruct r. }
  apply H. by destruct r.
Qed.

Lemma due_self x : due (si_availableAt x) x.
Proof. unfold due, After, Before. destruct (t_mono _); apply Z.ltb_irrefl. Qed.

Lemma SliceStable_perm {A} (less : A → A → bool) l : SliceStable less l ≡ₚ l.
Proof. apply insertion_sort_perm. Qed.

(** No item can be taken at once. *)
Definition idle (t : Time) (r d : list simItem) : bool :=
  match r, d with
  | [], [] => true
  | [], x :: _ => After (si_availableAt x) t
  | _ :: _, _ => false
  end.

Lemma drain_loop_total fuel less t r d out :
  (2 * length (r ++ d) + (if idle t r d then 1 else 0) <= fuel)%nat →
  ∃ l, drain_loop fuel less t r d out = Some (out ++ l) ∧ l ≡ₚ r ++ d.
Proof.
  revert t r d out. induction fuel as [|fuel IH]; intros t r d out Hf.
  { destruct r, d; cbn in Hf; lia. }
  cbn [drain_loop]. pose proof (mature_perm t r d) as Hp.
  assert (r = [] → d = [] → ∃ l, Some out = Some (out ++ l) ∧ l ≡ₚ r ++ d) as Hdone
    by (intros -> ->; exists []; by rewrite app_nil_r).
  assert (∀ x d', r = [] → d = x :: d' → due t x → (mature t r d).1 ≠ []) as Hhead by (intros ? ? -> ->; apply mature_head).
  assert (r ≠ [] → (mature t r d).1 ≠ []) as Hready.
  { clear. intros Hr. revert r Hr. induction d as [|x d IH]; intros r Hr; cbn [mature]; [done|].
    destruct (negb _); [|done]. apply IH. by destruct r. }
  assert (r ++ d ≠ [] → ∃ l,
    (let '(ready, delayed) := mature t r d in
     match SliceStable less ready, delayed with
     | [], x :: _ => drain_loop fuel less (si_availableAt x) ready delayed out
     | first :: ready, _ => drain_loop fuel less (Add t pollInterval) ready delayed (out ++ [first])
     | [], [] => None
     end) = Some (out ++ l) ∧ l ≡ₚ r ++ d) as Hround.
  { intros Hne. destruct (mature t r d) as [r1 d1]. cbn [fst snd] in *.
    pose proof (SliceStable_perm less r1) as Hs. destruct (SliceStable less r1) as [|first r2].
    - assert (r1 = []) as -> by (apply Permutation_length in Hs; by destruct r1).
      destruct d1 as [|x d1]; [apply Permutation_length in Hp; by destruct (r ++ d)|].
      assert (idle t r d = true) as Hi.
      { destruct r as [|y r]; [|by destruct Hready]. destruct d as [|y d]; [done|]. cbn [idle].
        destruct (After (si_availableAt y) t) eqn:E; [done|]. by destruct (Hhead y d). }
      rewrite Hi in Hf. destruct (IH (si_availableAt x) [] (x :: d1) out) as (l & -> & Hl).
      { assert (length ([] ++ x :: d1) = length (r ++ d)) as -> by (by rewrite Hp). cbn [idle].
        pose proof (due_self x) as Hdue. unfold due in Hdue. rewrite Hdue. lia. }
      exists l. split; [done|]. by rewrite Hl.
    - destruct (IH (Add t pollInterval) r2 d1 (out ++ [first])) as (l & -> & Hl).
      { apply Permutation_length in Hp, Hs. rewrite <- Hp, length_app, <- Hs in Hf. cbn [length] in Hf.
        rewrite length_app. destruct (idle (Add t pollInterval) r2 d1), (idle t r d); lia. }
      exists (first :: l). split; [by rewrite <- app_assoc|]. rewrite Hl, <- Hp, <- Hs. done. }
  destruct r as [|y r]; [destruct d as [|y d]; [by apply Hdone|]|]; by apply Hround.
Qed.

Lemma simulateDrain_total snap : ∃ l, simulateDrain snap = Some l ∧ l ≡ₚ sim_item <$> (sn_Ready snap ++ sn_Delayed snap).
Proof.
  unfold simulateDrain. set (d := SliceStable _ _).
  destruct (drain_loop_total (S (2 * (length (sim_item <$> sn_Ready snap) + length d))) (lessFor (sn_Mode snap)) (sn_Now snap)
    (sim_item <$> sn_Ready snap) d []) as (l & -> & Hl).
  - rewrite length_app. destruct (idle _ _ _); lia.
  - exists l. split; [done|]. rewrite Hl. unfold d. by rewrite SliceStable_perm, fmap_app.
Qed.

(** ** Polling the engine *)

(** [polls wait fuel q t]: the messages a worker takes from [q], polling first
    at [t]; [wait t u] is when it polls again after an empty answer at [t] when
    the next message matures at [u]. *)
Fixpoint polls (wait : Time → Time → Time) (fuel : nat) (q : FrankensteinQueue) (t : Time) : option (list Message) :=
  match fuel with
  | O => None
  | S fuel =>
      match a_contents (abs q) with
      | [] => Some []
      | _ =>
          match Pop q t with
          | Some (Some m, q') => cons m <$> polls wait fuel q' (Add t pollInterval)
          | Some (None, q') =>
              match a_delayed (abs q') with
              | e :: _ => polls wait fuel q' (wait t (AvailableAt (fst e)))
              | [] => None
              end
          | None => None
          end
      end
  end.

(** The clock of the prediction jumps to the next maturity. *)
Definition jump (t u : Time) : Time := wall_time u.

(** What the client sees of an entry. *)
Definition seen (e : entry) : simItem := sim_item (wire_message (fst e)).

Definition before_item (a b : simItem) : bool := Before (si_availableAt a) (si_availableAt b).

Lemma lessFor_key mode a b :
  let key it := (- si_priority it, (if bool_decide (mode = ModeLIFO) then -1 else 1) * si_seq it, 0) in
  lessFor mode a b = lex_lt (key a) (key b).
Proof.
  cbn zeta. unfold lessFor, lex_lt.
  destruct (Z.eqb_spec (si_priority a) (si_priority b)); cbn [negb]; case_bool_decide; try case_decide; try done; lia.
Qed.

Lemma lessFor_weak_order mode : weak_order (lessFor mode) (λ _, True).
Proof.
  pose proof (lex_lt_weak_order (λ it, (- si_priority it, (if bool_decide (mode = ModeLIFO) then -1 else 1) * si_seq it, 0))) as [Ha Ht].
  split; unfold le in *; intros *; rewrite !lessFor_key; eauto.
Qed.

Definition seqs_distinct (l : list entry) : Prop := ∀ e e', e ∈ l → e' ∈ l → Seq (fst e) = Seq (fst e') → e = e'.

Lemma StronglySorted_fmap {A B} (R : A → A → Prop) (S : B → B → Prop) (f : A → B) l :
  (∀ x y, R x y → S (f x) (f y)) → StronglySorted R l → StronglySorted S (f <$> l).
Proof.
  intros HRS. induction 1 as [|x l Hs IH Hall]; [constructor|]. constructor; [done|].
  apply Forall_fmap. eapply Forall_impl; [exact Hall|]. intros y. apply HRS.
Qed.

(** Sorting what the client sees sorts the entries. *)
Lemma sort_seen mode l r : seqs_distinct l → r ≡ₚ seen <$> l →
  SliceStable (lessFor mode) r = seen <$> by_selection mode l.
Proof.
  intros Hd Hr. symmetry. apply (sort_canonical _ _ (lessFor_weak_order mode)).
  - by apply Forall_true.
  - intros x y. rewrite Hr. intros (e & -> & He)%list_elem_of_fmap (e' & -> & He')%list_elem_of_fmap.
    unfold le. rewrite !lessFor_key, !lex_lt_false. cbn [seen sim_item si_priority si_seq wire_message Priority Seq].
    intros H1 H2. f_equal. apply Hd; [done..|]. case_bool_decide; lia.
  - by rewrite Hr, insertion_sort_perm.
  - eapply StronglySorted_fmap; [|apply (insertion_sort_sorted _ _ (sel_weak_order mode)), Forall_True].
    intros x y. unfold le, sel_less, sel_key. rewrite lessFor_key, !lex_lt_false.
    cbn [seen sim_item si_priority si_seq wire_message Priority Seq]. case_bool_decide; lia.
Qed.

Lemma Before_wall t u : t_mono t = None → Before t u = (t_wall t <? t_wall u).
Proof. unfold Before. by intros ->. Qed.

Lemma due_iff t it : t_mono (si_availableAt it) = None → due t it ↔ t_wall (si_availableAt it) <= t_wall t.
Proof. unfold due, After, Before. intros ->. destruct (t_mono t); rewrite Z.ltb_ge; done. Qed.

Lemma before_item_iff x y : t_mono (si_availableAt y) = None →
  le before_item x y ↔ t_wall (si_availableAt x) <= t_wall (si_availableAt y).
Proof. unfold le, before_item, Before. intros ->. by rewrite Z.ltb_ge. Qed.

(** On a list in order of maturity the inner loop takes all that is due. *)
Lemma mature_filter t r d : Forall (λ it, t_mono (si_availableAt it) = None) d →
  StronglySorted (le before_item) d →
  mature t r d = (r ++ filter (due t) d, filter (λ it, ¬ due t it) d).
Proof.
  intros Hm Hs. revert r Hm. induction Hs as [|x d Hs IH Hall]; intros r Hm; cbn [mature].
  { by rewrite app_nil_r. }
  apply Forall_cons in Hm as [Hx Hm]. rewrite !filter_cons.
  destruct (decide (due t x)) as [E|E].
  - pose proof E as E1. unfold due in E1. rewrite E1. cbn [negb]. rewrite decide_False by tauto.
    rewrite IH by done. by rewrite <- app_assoc.
  - pose proof E as E1. unfold due in E1. apply not_false_iff_true in E1. rewrite E1. cbn [negb]. rewrite decide_True by done.
    assert (Forall (λ y, ¬ due t y) d) as Hnot.
    { apply Forall_forall. intros y Hy. rewrite Forall_forall in Hall, Hm. specialize (Hall y Hy). specialize (Hm y Hy).
      rewrite before_item_iff in Hall by done. rewrite due_iff in E |- * by done. lia. }
    rewrite (filter_none (due t)), app_nil_r by (intros y Hy; rewrite Forall_forall in Hnot; by apply Hnot). f_equal. f_equal.
    clear -Hnot. induction Hnot as [|y l Hy _ IHl]; [done|]. rewrite filter_cons, decide_True by done. by f_equal.
Qed.

(** ** The prediction is a poll of the engine *)

Lemma drain_loop_round fuel less t r d out : r ++ d ≠ [] →
  drain_loop (S fuel) less t r d out =
    let '(ready, delayed) := mature t r d in
    match SliceStable less ready, delayed with
    | [], x :: _ => drain_loop fuel less (si_availableAt x) ready delayed out
    | first :: ready, _ => drain_loop fuel less (Add t pollInterval) ready delayed (out ++ [first])
    | [], [] => None
    end.
Proof. by destruct r, d. Qed.

(** [n] polls from [t] on stay within the range of instants. *)
Definition time_room (n : nat) (t : Time) : Prop :=
  - 2 ^ 90 < t_wall t ∧ t_wall t + Z.of_nat n * pollInterval < 2 ^ 90.

#[export] Instance time_room_dec n t : Decision (time_room n t).
Proof. unfold time_room. apply _. Defined.

Record agree (q : FrankensteinQueue) (t te : Time) (r d : list simItem) : Prop := {
  ag_wall : t_wall t = t_wall te;
  ag_mono : t_mono t = None ∧ t_mono te = None;
  ag_ready : r ≡ₚ seen <$> a_ready (abs q);
  ag_delayed : d ≡ₚ seen <$> a_delayed (abs q);
  ag_sorted : StronglySorted (le before_item) d;
  ag_seqs : seqs_distinct (a_ready (abs q) ++ a_delayed (abs q));
  ag_room : time_room (length (a_contents (abs q))) t;
  ag_rooms m : m ∈ a_contents (abs q) → time_room (length (a_contents (abs q))) (AvailableAt m)
}.

Lemma seen_mono l d : d ≡ₚ seen <$> l → Forall (λ it, t_mono (si_availableAt it) = None) d.
Proof. intros Hd. rewrite Hd. apply Forall_fmap, Forall_true. done. Qed.

Lemma due_matured off t te e : coherent off (AvailableAt (fst e)) → t_wall t = t_wall te → t_mono te = None →
  due t (seen e) ↔ matured te e.
Proof.
  intros Hc Hw Hm. rewrite due_iff by done. unfold matured. rewrite (Available_coherent off) by (done || unfold coherent; by rewrite Hm).
  rewrite Z.leb_le. cbn. by rewrite Hw.
Qed.

Section round.
Context (off : Z) (q : FrankensteinQueue) (t te : Time) (r d : list simItem).
Hypothesis Hwf : wf off q.
Hypothesis Hag : agree q t te r d.

Abbreviation a1 := (a_promote te (abs q)).

Lemma wf_delayed_coherent e : e ∈ a_delayed (abs q) → coherent off (AvailableAt (fst e)).
Proof.
  cbn [abs a_delayed]. rewrite insertion_sort_perm. intros He.
  destruct (proj2 (live_entry q e)) as [p Hp]; [set_solver|]. by eapply wf_coherent.
Qed.

Lemma round_delayed (P : simItem → Prop) `{∀ x, Decision (P x)} (R : entry → Prop) `{∀ x, Decision (R x)} :
  (∀ e, e ∈ a_delayed (abs q) → P (seen e) ↔ R e) → filter P d ≡ₚ seen <$> filter R (a_delayed (abs q)).
Proof. intros HPR. rewrite (ag_delayed _ _ _ _ _ Hag), filter_fmap. by rewrite (filter_ext_in _ R). Qed.

Lemma round_mature : ∃ r1 d1, mature t r d = (r1, d1)
  ∧ SliceStable (lessFor (Mode q)) r1 = seen <$> a_ready a1
  ∧ d1 ≡ₚ seen <$> a_delayed a1 ∧ StronglySorted (le before_item) d1.
Proof.
  pose proof Hag as [Hw [Ht Hte] Hr Hd Hs Hq _ _].
  assert (∀ e, e ∈ a_delayed (abs q) → due t (seen e) ↔ matured te e) as Hdue
    by (intros e He; eapply due_matured; [by apply wf_delayed_coherent|done..]).
  rewrite mature_filter by (done || by eapply seen_mono). eexists _, _. split; [done|]. split; [|split].
  - apply (sort_seen (Mode q) (a_ready (abs q) ++ filter (matured te) (a_delayed (abs q)))).
    + intros e e'. rewrite !elem_of_app, !list_elem_of_filter. intros He He'. apply Hq; rewrite elem_of_app; tauto.
    + rewrite fmap_app, Hr. f_equiv. by apply round_delayed.
  - apply round_delayed. intros e He. by rewrite (Hdue e He).
  - by apply StronglySorted_filter.
Qed.
End round.

Lemma first_matures off q d1 x e l k : wf off q →
  a_delayed (abs q) = e :: l → d1 ≡ₚ seen <$> a_delayed (abs q) → StronglySorted (le before_item) d1 → d1 = x :: k →
  t_wall (si_availableAt x) = t_wall (AvailableAt (fst e)) ∧ t_mono (si_availableAt x) = None.
Proof.
  intros Hwf He Hp Hs ->. pose proof (seen_mono _ _ Hp) as Hm. apply Forall_cons in Hm as [Hx Hm]. split; [|done].
  assert (∀ e', e' ∈ a_delayed (abs q) → t_wall (AvailableAt (fst e)) <= t_wall (AvailableAt (fst e'))) as Hmin.
  { assert (StronglySorted (le mat_less) (a_delayed (abs q))) as Hsd
      by (apply (insertion_sort_sorted _ _ mat_weak_order), Forall_True).
    rewrite He in Hsd |- *. apply StronglySorted_inv in Hsd as [_ Hall]. rewrite Forall_forall in Hall.
    intros e' [->|He']%elem_of_cons; [lia|]. specialize (Hall e' He'). unfold le, mat_less, mat_key in Hall.
    rewrite lex_lt_false in Hall. lia. }
  apply StronglySorted_inv in Hs as [_ Hall]. rewrite Forall_forall in Hall, Hm.
  assert (x ∈ seen <$> a_delayed (abs q)) as (e' & -> & He')%list_elem_of_fmap by (rewrite <- Hp; by left).
  assert (seen e ∈ seen e' :: k) as [Heq|Hin]%elem_of_cons by (rewrite Hp, He; left).
  - injection Heq. cbn. congruence.
  - specialize (Hall _ Hin). rewrite before_item_iff in Hall by done. specialize (Hmin e' He'). cbn in *. lia.
Qed.

Lemma time_room_sub n n' t t' : time_room n t → (n' < n)%nat → t_wall t' = t_wall t + pollInterval → time_room n' t'.
Proof. unfold time_room, pollInterval, Millisecond. lia. Qed.

Lemma time_room_le n n' t : time_room n t → (n' <= n)%nat → time_room n' t.
Proof. unfold time_room, pollInterval, Millisecond. lia. Qed.

(** What the client sees of a message. *)
Definition seen_message (m : Message) : simItem := sim_item (wire_message m).

Lemma agree_empty q t te r d : agree q t te r d → a_contents (abs q) = [] → r = [] ∧ d = [].
Proof.
  intros Hag Hc. unfold a_contents in Hc. apply fmap_nil_inv, app_eq_nil in Hc as [H1 H2].
  pose proof (ag_ready _ _ _ _ _ Hag) as Hr. pose proof (ag_delayed _ _ _ _ _ Hag) as Hd.
  rewrite H1 in Hr. rewrite H2 in Hd. by apply Permutation_nil_r in Hr, Hd.
Qed.

Lemma agree_nonempty q t te r d : agree q t te r d → a_contents (abs q) ≠ [] → r ++ d ≠ [].
Proof.
  intros Hag Hne E. apply Hne.
  assert (r ++ d ≡ₚ seen <$> (a_ready (abs q) ++ a_delayed (abs q))) as Hrd
    by (by rewrite (ag_ready _ _ _ _ _ Hag), (ag_delayed _ _ _ _ _ Hag), fmap_app).
  rewrite E in Hrd. unfold a_contents. symmetry in Hrd. apply Permutation_nil_r, fmap_nil_inv in Hrd. by rewrite Hrd.
Qed.

Lemma promoted_seqs q t te r d : agree q t te r d →
  seqs_distinct (a_ready (a_promote te (abs q)) ++ a_delayed (a_promote te (abs q))).
Proof. intros Hag e e'. rewrite !a_promote_perm. apply (ag_seqs _ _ _ _ _ Hag). Qed.

(** Nothing is due: both clocks jump to the first maturity. *)
Lemma agree_jump off q q' t te r d e l x k : wf off q' → agree q t te r d →
  abs q' = a_promote te (abs q) → a_ready (abs q') = [] → a_delayed (abs q') = e :: l →
  x :: k ≡ₚ seen <$> a_delayed (abs q') → StronglySorted (le before_item) (x :: k) →
  agree q' (si_availableAt x) (wall_time (AvailableAt (fst e))) [] (x :: k).
Proof.
  intros Hwf' Hag Habs Hr He Hd Hs.
  destruct (first_matures off q' (x :: k) x e l k Hwf' He Hd Hs eq_refl) as [Hw Hm].
  assert (a_contents (abs q') ≡ₚ a_contents (abs q)) as Hc by (rewrite Habs; apply a_contents_promote).
  split; [done|done|by rewrite Hr|done|done| | |].
  - rewrite Habs. by eapply promoted_seqs.
  - rewrite (Permutation_length Hc). unfold time_room. rewrite Hw. apply (ag_rooms _ _ _ _ _ Hag).
    rewrite <- Hc. unfold a_contents. rewrite He, fmap_app, elem_of_app. right. by left.
  - rewrite (Permutation_length Hc). intros m. rewrite Hc. apply (ag_rooms _ _ _ _ _ Hag).
Qed.

(** A message is taken: both clocks advance by one interval. *)
Lemma agree_pop q q' t te r d d1 e rest : agree q t te r d →
  a_ready (a_promote te (abs q)) = e :: rest →
  abs q' = MkAQueue (Mode q) rest (a_delayed (a_promote te (abs q))) (a_next (a_promote te (abs q))) →
  fst e :: a_contents (abs q') ≡ₚ a_contents (abs q) →
  d1 ≡ₚ seen <$> a_delayed (a_promote te (abs q)) → StronglySorted (le before_item) d1 →
  agree q' (Add t pollInterval) (Add te pollInterval) (seen <$> rest) d1.
Proof.
  intros Hag Hready Habs Hc Hd Hs. pose proof (Permutation_length Hc) as Hn. cbn [length] in Hn.
  pose proof (ag_room _ _ _ _ _ Hag) as Hroom. destruct (ag_mono _ _ _ _ _ Hag) as [Hmt Hmte].
  pose proof (ag_wall _ _ _ _ _ Hag) as Hwall.
  assert (∀ u, t_mono u = None → t_wall u = t_wall t → Add u pollInterval = MkTime (t_wall u + pollInterval) None (t_zone u)) as Hadd.
  { intros u Hm Hw. apply Add_wall; [done|]. unfold time_room, pollInterval, Millisecond in *. lia. }
  rewrite !Hadd by done. split; cbn [t_wall t_mono].
  - by rewrite Hwall.
  - done.
  - by rewrite Habs.
  - by rewrite Hd, Habs.
  - done.
  - pose proof (promoted_seqs _ _ _ _ _ Hag) as Hseqs. rewrite Habs. cbn [a_ready a_delayed]. rewrite Hready in Hseqs.
    intros e1 e2 H1 H2. apply Hseqs; by right.
  - eapply time_room_sub; [exact Hroom|lia|done].
  - intros m Hin. eapply time_room_le; [apply (ag_rooms _ _ _ _ _ Hag)|lia]. rewrite <- Hc. by right.
Qed.

Lemma drain_agrees off fuel : ∀ q t te r d out res,
  wf off q → agree q t te r d →
  drain_loop fuel (lessFor (Mode q)) t r d out = Some res →
  ∃ msgs, polls jump fuel q te = Some msgs ∧ res = out ++ (seen_message <$> msgs) ∧ msgs ≡ₚ a_contents (abs q).
Proof.
  induction fuel as [|fuel IH]; intros q t te r d out res Hwf Hag; [done|].
  cbn [polls]. destruct (a_contents (abs q)) as [|m0 ms0] eqn:Hc.
  { destruct (agree_empty _ _ _ _ _ Hag Hc) as [-> ->]. cbn [drain_loop]. intros [= <-]. exists []. by rewrite app_nil_r. }
  rewrite drain_loop_round by (eapply agree_nonempty; [exact Hag|by rewrite Hc]). rewrite <- Hc. clear Hc m0 ms0.
  destruct (round_mature off q t te r d Hwf Hag) as (r1 & d1 & -> & Hsort & Hd1 & Hs1).
  pose proof (SliceStable_perm (lessFor (Mode q)) r1) as Hr1. rewrite Hsort in Hr1 |- *. clear Hsort.
  assert (coherent off te) as Hte by (unfold coherent; by rewrite (proj2 (ag_mono _ _ _ _ _ Hag))).
  destruct (Pop_ok off q te Hwf Hte) as (p & q' & -> & Hwf' & Hpop). unfold a_pop in Hpop.
  destruct (a_ready (a_promote te (abs q))) as [|e rest] eqn:Hready;
    pose proof (f_equal fst Hpop) as Ep; pose proof (f_equal snd Hpop) as Habs; cbn [fst snd] in Ep, Habs; subst p; clear Hpop;
    cbn [fmap list_fmap]; (assert (Mode q' = Mode q) as Hmode by (change (a_mode (abs q') = Mode q); by rewrite <- Habs)); rewrite <- Hmode.
  - assert (r1 = []) as -> by (apply Permutation_length in Hr1; by destruct r1).
    rewrite Habs in Hd1, Hready. destruct d1 as [|x k]; [done|].
    destruct (a_delayed (abs q')) as [|e l] eqn:He; [by apply Permutation_nil_r in Hd1|]. rewrite <- He in Hd1. intros Hloop.
    change (jump te (AvailableAt (fst e))) with (wall_time (AvailableAt (fst e))).
    destruct (IH q' (si_availableAt x) (wall_time (AvailableAt (fst e))) [] (x :: k) out res Hwf') as (msgs & -> & -> & Hp);
      [by eapply agree_jump|exact Hloop|]. exists msgs. split_and!; [done..|]. rewrite Hp, <- Habs. apply a_contents_promote.
  - intros Hloop. assert (fst e :: a_contents (abs q') ≡ₚ a_contents (abs q)) as Hc.
    { rewrite <- (a_contents_promote te (abs q)), <- Habs. unfold a_contents. cbn [a_ready a_delayed]. by rewrite Hready. }
    destruct (IH q' (Add t pollInterval) (Add te pollInterval) (seen <$> rest) d1 (out ++ [seen e]) res Hwf') as (msgs & -> & -> & Hp);
      [by eapply agree_pop|exact Hloop|].
    exists (fst e :: msgs). split; [done|]. split; [by rewrite <- app_assoc|]. by rewrite <- Hc, Hp.
Qed.
