(* ===== verification/ClientTheorems.v ===== *)
(** * What the client guarantees

    The prediction is the order in which a worker with the predicted clock would
    be served by the engine; where that clock and the worker's differ, or the
    snapshot is truncated, it is not.  The worker's loop ends, its verdict is
    its exit status, and its calls read back what the server did. *)

From S2P Require Import Prelude GoTime GoHeap GoSort GoStrconv GoUtf8 GoJson GoJsonFacts GoTimeFormat Model Codec CodecFacts LogRecord.
From S2P Require Import Engine EngineHeap EngineSpec EngineRefine EngineTheorems.
From S2P Require Import GoJsonStream GoHttp Api ApiLaws ApiTheorems GoFmt Client ClientFacts.
From Stdlib Require Import Ascii.

Local Open Scope Z_scope.

(** ** Prediction *)

Lemma before_weak_order : weak_order before_item (λ it, t_mono (si_availableAt it) = None).
Proof. split; unfold le, before_item; intros *; rewrite ?Before_wall by done; intros; rewrite ?Before_wall in * by done; lia. Qed.

Lemma page_whole limit l : (page limit l).2 = false → (page limit l).1 = fst <$> l.
Proof. unfold page. by destruct ((0 <? limit) && _). Qed.

Lemma valid_mode mode : Valid mode = true → valid_string mode = mode.
Proof. by intros [-> | ->]%Valid_iff. Qed.

Lemma NoDup_fmap_inj {A B} (f : A → B) l x y : NoDup (f <$> l) → x ∈ l → y ∈ l → f x = f y → x = y.
Proof.
  induction l as [|z l IH]; [by intros _ ?%elem_of_nil|]. cbn [fmap list_fmap].
  rewrite NoDup_cons, !elem_of_cons. intros [Hz Hn] [->|Hx] [->|Hy] E; try done.
  - destruct Hz. rewrite E. by apply list_elem_of_fmap_2.
  - destruct Hz. rewrite <- E. by apply list_elem_of_fmap_2.
  - by apply IH.
Qed.

(** The snapshot the service makes of a view. *)
Definition view_snapshot (mode : QueueMode) (now : Time) (v : View) : QueueSnapshot :=
  MkQueueSnapshot mode now
    (MkQueueStats (Z.of_nat (v_ReadyLen v + v_DelayedLen v)) (Z.of_nat (v_ReadyLen v)) (Z.of_nat (v_DelayedLen v)))
    (v_Ready v) (v_Delayed v) (v_ReadyTruncated v) (v_DelayedTruncated v).

Lemma orderMatches_self l : orderMatches ((λ tr, tr_Label tr) <$> l) l = true.
Proof.
  unfold orderMatches. rewrite length_fmap, bool_decide_eq_true_2 by done. cbn [negb].
  induction l as [|x l IH]; [done|]. csimpl. by rewrite bool_decide_eq_true_2, IH.
Qed.

(** C19: The prediction of the client is what the engine does.  From a snapshot
    that is not truncated, of a queue whose messages have distinct numbers, as
    JSON carries it, [simulateDrain] computes the order in which [Pop] hands out
    the messages to a worker that polls at the instant of the snapshot, half a
    second after each message, and at the next maturity when nothing is ready;
    every message of the queue is in it, and the labels predicted for the jobs
    of this run match the jobs received in that order. *)
Theorem prediction_is_the_drain off q now limit v q1 mem mine :
  let n := length (a_contents (abs q)) in
  wf off q → coherent off now → NoDup (Seq <$> a_contents (abs q)) →
  time_room n now → (∀ m, m ∈ a_contents (abs q) → time_room n (AvailableAt m)) →
  Snapshot q now limit = Some (v, q1) → v_ReadyTruncated v = false → v_DelayedTruncated v = false →
  let snap := wire_snapshot (view_snapshot (Mode q1) now v) in
  ∃ msgs, polls jump (S (2 * n)) q1 (wall_time now) = Some msgs ∧ msgs ≡ₚ a_contents (abs q)
    ∧ simulateDrain snap = Some (seen_message <$> msgs)
    ∧ let mine_of := omap (λ m, job mem mine (ID (wire_message m))) in
      ∃ expected, predictLabels snap mem mine = Some expected
        ∧ expected = (λ tr, tr_Label tr) <$> mine_of msgs ∧ orderMatches expected (mine_of msgs) = true.
Proof.
  cbn zeta. intros Hwf Hnow Hseq Hroom Hrooms Hs Hr0 Hd0.
  destruct (Snapshot_ok off q now limit Hwf Hnow) as (q1' & Hs' & Hwf1 & Ha). rewrite Hs in Hs'. injection Hs' as -> <-.
  cbn [a_view v_ReadyTruncated v_DelayedTruncated] in Hr0, Hd0.
  pose proof (a_contents_promote now (abs q)) as Hc. rewrite <- Ha in Hc, Hr0, Hd0 |- *.
  pose proof (Permutation_length Hc) as Hn.
  set (snap := wire_snapshot _). set (r := sim_item <$> sn_Ready snap).
  set (d := SliceStable before_item (sim_item <$> sn_Delayed snap)).
  assert (r = seen <$> a_ready (abs q1)) as Hr.
  { unfold r, snap. cbn [wire_snapshot view_snapshot sn_Ready a_view v_Ready]. rewrite page_whole by done.
    by rewrite <- !list_fmap_compose. }
  assert (sim_item <$> sn_Delayed snap = seen <$> a_delayed (abs q1)) as Hd.
  { unfold snap. cbn [wire_snapshot view_snapshot sn_Delayed a_view v_Delayed]. rewrite page_whole by done.
    by rewrite <- !list_fmap_compose. }
  assert (agree q1 (wall_time now) (wall_time now) r d) as Hag.
  { split.
    - done.
    - done.
    - by rewrite Hr.
    - unfold d. by rewrite SliceStable_perm, Hd.
    - apply (insertion_sort_sorted _ _ before_weak_order). rewrite Hd. by eapply seen_mono.
    - rewrite <- Hc in Hseq. unfold a_contents in Hseq. rewrite <- list_fmap_compose in Hseq.
      intros e e'. by apply (NoDup_fmap_inj (Seq ∘ fst)).
    - by rewrite Hn.
    - intros m. rewrite Hn, Hc. apply Hrooms. }
  destruct (simulateDrain_total snap) as (res & Hres & _).
  assert (drain_loop (S (2 * length (a_contents (abs q)))) (lessFor (Mode q1)) (wall_time now) r d [] = Some res) as Hloop.
  { rewrite <- Hres. unfold simulateDrain. fold before_item. fold r d.
    change (sn_Mode snap) with (valid_string (Mode q1)). rewrite valid_mode by apply Hwf1.
    change (sn_Now snap) with (wall_time now). do 3 f_equal.
    assert (length r + length d = length (a_contents (abs q)))%nat as ->; [|done].
    unfold d. rewrite (Permutation_length (SliceStable_perm _ _)), Hr, Hd, <- Hn. unfold a_contents.
    by rewrite !length_fmap, length_app. }
  destruct (drain_agrees off _ q1 _ _ r d [] res Hwf1 Hag Hloop) as (msgs & Hp & -> & Hm).
  exists msgs. split; [exact Hp|]. split; [by rewrite Hm|]. split; [done|].
  set (l := omap (λ m, job mem mine (ID (wire_message m))) msgs).
  exists ((λ tr, tr_Label tr) <$> l). split; [|by rewrite orderMatches_self].
  unfold predictLabels. rewrite Hres. f_equal. subst l. clear. cbn [app].
  induction msgs as [|m l IH]; [done|]. csimpl. rewrite IH. cbn. by destruct (job mem mine _).
Qed.

(** C29: The simulation always ends.  On any snapshot whatever, with any clock
    readings in it, it lists every message of the snapshot exactly once. *)
Theorem simulation_ends snap :
  ∃ items, simulateDrain snap = Some items ∧ items ≡ₚ sim_item <$> (sn_Ready snap ++ sn_Delayed snap)
    ∧ ∀ mem mine, ∃ expected, predictLabels snap mem mine = Some expected
        ∧ expected = omap (λ it, (λ tr, tr_Label tr) <$> job mem mine (si_id it)) items.
Proof.
  destruct (simulateDrain_total snap) as (items & Hs & Hp). exists items. split; [done|]. split; [done|].
  intros mem mine. unfold predictLabels. rewrite Hs. by eexists.
Qed.

(** ** Truncated snapshots *)

Lemma job_Some mem mine id tr : job mem mine id = Some tr → id ∈ dom mine.
Proof. unfold job. rewrite elem_of_dom. destruct (mine !! id); [by eexists|done]. Qed.

(** At most one label for each job whose message is listed. *)
Lemma jobs_bound mem (mine : gmap string jptr) (ids : list string) :
  NoDup ids → (length (omap (λ id, job mem mine id) ids) <= size (dom mine ∩ list_to_set ids))%nat.
Proof.
  induction 1 as [|id ids Hid _ IH]; [by apply Nat.le_0_l|]. csimpl.
  assert (dom mine ∩ list_to_set ids ⊆ dom mine ∩ ({[id]} ∪ list_to_set ids)) as Hsub by set_solver.
  destruct (job mem mine id) as [tr|] eqn:Ej; [|etrans; [exact IH|by apply subseteq_size]].
  cbn [length]. assert (size ({[id]} ∪ (dom mine ∩ list_to_set ids)) <= size (dom mine ∩ ({[id]} ∪ list_to_set ids)))%nat as H.
  { apply subseteq_size. apply job_Some in Ej. set_solver. }
  rewrite size_union in H by (rewrite disjoint_singleton_l, elem_of_intersection, elem_of_list_to_set; tauto).
  rewrite size_singleton in H. lia.
Qed.

(** C38: The client does not look whether its snapshot is truncated.  When the
    message of one of its jobs is not on the page, the prediction is too short:
    a run in which the server hands out every job, in whatever order, is
    reported as a mismatch. *)
Theorem truncated_snapshot_reports_mismatch snap mem mine id actual expected :
  NoDup (ID <$> sn_Ready snap ++ sn_Delayed snap) →
  id ∈ dom mine → id ∉ ID <$> (sn_Ready snap ++ sn_Delayed snap) →
  length actual = size mine → predictLabels snap mem mine = Some expected →
  (length expected < size mine)%nat ∧ orderMatches expected actual = false.
Proof.
  intros Hn Hid Hout Hlen. unfold predictLabels. destruct (simulateDrain_total snap) as (items & -> & Hp). intros [= <-].
  set (ids := ID <$> (sn_Ready snap ++ sn_Delayed snap)) in *.
  assert (length (omap (λ it, (λ tr, tr_Label tr) <$> job mem mine (si_id it)) items) < size mine)%nat as Hlt.
  { assert (∀ l, length (omap (λ it, (λ tr, tr_Label tr) <$> job mem mine (si_id it)) l)
      = length (omap (λ i, job mem mine i) (si_id <$> l))) as ->.
    { induction l as [|it l IH]; [done|]. csimpl. destruct (job mem mine (si_id it)); csimpl; by rewrite IH. }
    assert (si_id <$> items ≡ₚ ids) as Hids by (rewrite Hp; unfold ids; by rewrite <- list_fmap_compose).
    rewrite Hids. pose proof (jobs_bound mem mine ids Hn) as Hb.
    assert (size (dom mine ∩ list_to_set ids) < size (dom mine))%nat as Hs.
    { apply subset_size. split; [set_solver|]. intros Hsub. specialize (Hsub id Hid). set_solver. }
    rewrite size_dom in Hs. lia. }
  split; [exact Hlt|]. unfold orderMatches. by rewrite bool_decide_eq_false_2 by lia.
Qed.

(** ** The clock of the worker *)

(** The worker polls every half second: after an empty answer at [t] its next
    successful poll is the first tick at or after [u]. *)
Definition tick (t u : Time) : Time :=
  Add t (Z.max 1 ((t_wall u - t_wall t + pollInterval - 1) / pollInterval) * pollInterval).

Module Sample.
Import EngineTheorems.Sample.

(** Two delayed messages that mature between two ticks, the second with the
    higher priority; the snapshot is taken 100 ms in. *)
Definition late : FrankensteinQueue := Eval vm_compute in
  queue_after ModeFIFO [OPush (msg "x" 1 1 4300); OPush (msg "y" 2 10 4400)].
Definition late_snapshot : QueueSnapshot := Eval vm_compute in
  match Snapshot late (at_ms 100) 1000 with
  | Some (v, _) => wire_snapshot (view_snapshot ModeFIFO (at_ms 100) v)
  | None => zero_snapshot
  end.

(** A queue in use, at 20 ms. *)
Definition snapped : View * FrankensteinQueue := Eval vm_compute in
  match Snapshot q (at_ms 20) 1000 with Some vq => vq | None => (MkView [] [] false false 0 0, q) end.

Definition a_job (label id : string) : tracked := MkTracked (MkTask label 0 0 "") (msg id 1 0 0).
Definition jobs : Store := {[0%nat := a_job "X" "x"; 1%nat := a_job "Y" "y"]}.
Definition jobs_of : gmap string jptr := {["x" := 0%nat; "y" := 1%nat]}.
End Sample.

(** The clock of the prediction is not the clock of the worker.  It jumps
    to the maturity of the first delayed message, while the worker polls every
    half second: of two messages that mature between two ticks the prediction
    takes the earlier one first, the worker the one with the higher priority.
    The engine is right, and the client reports a mismatch. *)
Theorem prediction_ignores_the_ticks :
  ∃ expected msgs actual, predictLabels Sample.late_snapshot Sample.jobs Sample.jobs_of = Some expected
    ∧ polls tick 10 Sample.late (EngineTheorems.Sample.at_ms 100) = Some msgs
    ∧ actual = omap (λ m, job Sample.jobs Sample.jobs_of (ID m)) msgs
    ∧ expected = ["X"; "Y"] ∧ (λ tr, tr_Label tr) <$> actual = ["Y"; "X"]
    ∧ orderMatches expected actual = false.
Proof. eexists _, _, _. split_and!; by vm_compute. Qed.

Lemma prediction_is_the_drain_witness :
  let snap := wire_snapshot (view_snapshot (Mode Sample.snapped.2) (EngineTheorems.Sample.at_ms 20) Sample.snapped.1) in
  ∃ msgs, polls jump 7 Sample.snapped.2 (wall_time (EngineTheorems.Sample.at_ms 20)) = Some msgs
    ∧ simulateDrain snap = Some (seen_message <$> msgs) ∧ (length msgs = 3)%nat.
Proof.
  destruct (prediction_is_the_drain EngineTheorems.Sample.off EngineTheorems.Sample.q (EngineTheorems.Sample.at_ms 20) 1000
    Sample.snapped.1 Sample.snapped.2 ∅ ∅) as (msgs & Hp & Hm & Hs & _).
  - apply EngineTheorems.Sample.q_wf.
  - apply EngineTheorems.Sample.at_ms_coherent.
  - apply (bool_decide_unpack _). vm_compute. exact I.
  - apply (bool_decide_unpack _). vm_compute. exact I.
  - apply Forall_forall, (bool_decide_unpack _). vm_compute. exact I.
  - vm_compute. reflexivity.
  - reflexivity.
  - reflexivity.
  - exists msgs. split; [exact Hp|]. split; [exact Hs|]. by rewrite Hm.
Defined.

Lemma truncated_snapshot_reports_mismatch_witness :
  let snap := MkQueueSnapshot ModeFIFO (EngineTheorems.Sample.at_ms 0) zero_stats [EngineTheorems.Sample.msg "x" 1 1 0] [] true false in
  let actual := [Sample.a_job "X" "x"; Sample.a_job "Y" "y"] in
  ∃ expected, predictLabels snap Sample.jobs Sample.jobs_of = Some expected
    ∧ (length expected < size Sample.jobs_of)%nat ∧ orderMatches expected actual = false.
Proof.
  intros snap actual. exists ["X"]. split; [vm_compute; reflexivity|].
  apply (truncated_snapshot_reports_mismatch snap Sample.jobs Sample.jobs_of "y" actual ["X"]).
  - apply (bool_decide_unpack _). vm_compute. exact I.
  - apply (bool_decide_unpack _). vm_compute. exact I.
  - apply (bool_decide_unpack _). vm_compute. exact I.
  - vm_compute. reflexivity.
  - vm_compute. reflexivity.
Defined.

(** ** The worker *)

(** The write index never passes the read index, so filtering in place is
    filtering. *)
Lemma remove_loop_filter n i w want a :
  length a = (i + n)%nat → (w <= i)%nat →
  remove_loop n i w want a = Some (take w a ++ filter (λ p, p ≠ want) (drop i a)).
Proof.
  revert i w a. induction n as [|n IH]; intros i w a Hl Hw; cbn [remove_loop].
  { rewrite drop_ge by lia. cbn. by rewrite app_nil_r. }
  destruct (lookup_lt_is_Some_2 a i ltac:(lia)) as [p Hp]. rewrite Hp, (drop_S _ _ _ Hp), filter_cons.
  case_decide; rewrite IH by (rewrite ?length_insert; lia); [|done].
  rewrite drop_insert_lt by lia. rewrite (take_S_r _ _ p) by (apply list_lookup_insert_eq; lia).
  rewrite take_insert_ge by lia. by rewrite <- app_assoc.
Qed.

Lemma removeTracked_filter pending want : removeTracked pending want = Some (filter (λ p, p ≠ want) pending).
Proof. unfold removeTracked. by rewrite remove_loop_filter by lia. Qed.

(** Every pointer the worker holds points to a job. *)
Record worker_ok (wk : Worker) : Prop := {
  wok_pending p : p ∈ w_pending wk → is_Some (w_mem wk !! p);
  wok_actual p : p ∈ w_actual wk → is_Some (w_mem wk !! p);
  wok_mine id p : w_mine wk !! id = Some p → is_Some (w_mem wk !! p)
}.

Lemma deref_ok mem ps : (∀ p, p ∈ ps → is_Some (mem !! p)) → is_Some (deref mem ps).
Proof.
  unfold deref. induction ps as [|p ps IH]; intros Hps; [by eexists|]. cbn [mapM].
  destruct (Hps p ltac:(by left)) as [tr ->]. destruct IH as [l ->]; [intros; apply Hps; by right|]. by eexists.
Qed.

Section worker.
Context {W : Type} `{HttpClient W} (useColor : bool) (base : string).

Lemma pollOnce_ok start now wk w : worker_ok wk →
  ∃ out err wk' w', pollOnce useColor base start now wk w = Some (out, err, wk', w')
    ∧ worker_ok wk' ∧ w_mine wk' = w_mine wk.
Proof.
  intros Hok. unfold pollOnce. destruct (dequeue base w) as [[[msg|]|err] w'].
  - destruct (w_mine wk !! ID msg) as [p|] eqn:Hp; [|by eexists _, _, _, _].
    destruct (wok_mine _ Hok _ _ Hp) as [tr Htr]. rewrite Htr. cbn [mbind option_bind]. rewrite removeTracked_filter. cbn [mbind option_bind].
    set (mem := <[p := _]> (w_mem wk)).
    assert (∀ p', is_Some (w_mem wk !! p') → is_Some (mem !! p')) as Hmem.
    { intros p' [tr' Ht]. unfold mem. destruct (decide (p' = p)) as [->|Hne]; [rewrite lookup_insert_eq|rewrite lookup_insert_ne]; eauto. }
    destruct (deref_ok mem (filter (λ p', p' ≠ p) (w_pending wk))) as [l ->].
    { intros p' [_ Hin]%list_elem_of_filter. by apply Hmem, Hok. }
    cbn [mbind option_bind]. eexists _, _, _, _. split; [reflexivity|]. split; [|done]. split; cbn [w_mem w_pending w_actual w_mine].
    + intros p' [_ Hin]%list_elem_of_filter. by apply Hmem, Hok.
    + intros p' [Hin|Hin]%elem_of_app; apply Hmem; [by apply wok_actual|]. apply list_elem_of_singleton in Hin as ->. by exists tr.
    + intros id p' Hin. eapply Hmem, wok_mine; done.
  - destruct (deref_ok (w_mem wk) (w_pending wk)) as [l ->]; [apply Hok|]. cbn [mbind option_bind]. by eexists _, _, _, _.
  - by eexists _, _, _, _.
Qed.

Lemma worker_loop_ends start deadline ticks doneAt out wk w : worker_ok wk →
  Exists (λ tk, After (tk_check tk) deadline = true) ticks →
  ∃ out' err wk' w', worker_loop useColor base start deadline ticks doneAt out wk w = Returned out' err wk' w'
    ∧ worker_ok wk' ∧ w_mine wk' = w_mine wk
    ∧ (err = None → length (w_actual wk') = size (w_mine wk')).
Proof.
  intros Hok Hex. revert doneAt out wk w Hok. induction ticks as [|tk ticks IH]; intros doneAt out wk w Hok; [by apply Exists_nil in Hex|].
  cbn [worker_loop]. destruct (pollOnce_ok start (tk_poll tk) wk w Hok) as (printed & err & wk' & w' & -> & Hok' & Hmine).
  destruct err as [e|]; [eexists _, _, _, _; split_and!; [reflexivity|done|done|done]|]. cbn zeta.
  destruct (bool_decide (length (w_actual wk') = size (w_mine wk'))) eqn:Hall; cbn [andb].
  - apply bool_decide_eq_true in Hall. destruct (idleGrace <=? _); [eexists _, _, _, _; split_and!; [reflexivity|done|done|done]|].
    destruct (After (tk_check tk) deadline) eqn:Hd; [eexists _, _, _, _; split_and!; [reflexivity|done|done|done]|].
    apply Exists_cons in Hex as [Hex|Hex]; [congruence|]. rewrite <- Hmine. by apply IH.
  - destruct (After (tk_check tk) deadline) eqn:Hd; [eexists _, _, _, _; split_and!; [reflexivity|done|done|done]|].
    apply Exists_cons in Hex as [Hex|Hex]; [congruence|]. rewrite <- Hmine. by apply IH.
Qed.
End worker.

(** C30: The worker cannot hang.  With whatever the network answers, once a
    round's reading of the clock is more than 38 seconds after the loop began,
    the loop has returned; without an error it returned because as many jobs
    were processed as this run enqueued. *)
Theorem worker_stops {W : Type} `{HttpClient W} useColor base before start ticks wk (w : W) :
  worker_ok wk → Exists (λ tk, After (tk_check tk) (Add before (38 * Second)) = true) ticks →
  ∃ out err wk' w', workerLoop useColor base before start ticks script wk w = Returned out err wk' w'
    ∧ worker_ok wk' ∧ w_mine wk' = w_mine wk
    ∧ (err = None → length (w_actual wk') = size (w_mine wk')).
Proof. intros Hok Hex. by apply (worker_loop_ends useColor base start (Add before (38 * Second))). Qed.

(** ** The verdict *)

Lemma orderMatches_iff expected actual :
  orderMatches expected actual = true ↔ (λ tr, tr_Label tr) <$> actual = expected.
Proof.
  split; [|intros <-; apply orderMatches_self]. unfold orderMatches.
  case_bool_decide as Hl; [cbn [negb]|done]. revert expected Hl.
  induction actual as [|a actual IH]; intros [|e expected]; cbn [length zip zip_with forallb]; intros Hl; try done.
  intros [Ha He]%andb_true_iff. apply bool_decide_eq_true in Ha. csimpl. cbn [fst snd] in Ha. rewrite Ha. f_equal. apply IH; [lia|done].
Qed.

Lemma forallb_seq (f : nat → bool) n : forallb f (seq 0 n) = true ↔ ∀ i, (i < n)%nat → f i = true.
Proof.
  rewrite List.forallb_forall. split; intros H i Hi; apply H; [apply in_seq; lia|apply in_seq in Hi; lia].
Qed.

(** The mark of a row. *)
Lemma summary_row_ok expected actual tasks i :
  (summary_row expected actual tasks i).2 = true ↔
  ∃ l, expected !! i = Some l ∧ (λ tr, tr_Label tr) <$> actual !! i = Some l.
Proof.
  unfold summary_row. cbn [snd]. destruct (expected !! i) as [e|], (actual !! i) as [a|]; cbn; try naive_solver.
  rewrite bool_decide_eq_true. naive_solver.
Qed.

Lemma rows_match expected actual tasks : length actual = length expected →
  (forallb snd (summary_row expected actual tasks <$> seq 0 (Nat.max (length expected) (length actual))) = true ↔
   (λ tr, tr_Label tr) <$> actual = expected).
Proof.
  intros Hl. assert (∀ (f : nat → (Z * string * string * string) * bool) l, forallb snd (f <$> l) = forallb (λ i, (f i).2) l) as ->
    by (intros f l; induction l as [|x l IH]; [done|]; csimpl; by rewrite IH).
  rewrite forallb_seq. split.
  - intros H. apply list_eq. intros i. rewrite list_lookup_fmap.
    destruct (decide (i < length expected)%nat) as [Hi|Hi].
    + destruct (proj1 (summary_row_ok expected actual tasks i)) as (l & -> & ->); [apply H; lia|done].
    + rewrite !lookup_ge_None_2 by lia. done.
  - intros <- i Hi. apply summary_row_ok. rewrite list_lookup_fmap. rewrite length_fmap in Hi.
    destruct (lookup_lt_is_Some_2 actual i ltac:(lia)) as [a ->]. by eexists.
Qed.

(** The verdict under the summary table is the exit status: PASS is printed
    exactly when [orderMatches] accepts, that is when the labels of the jobs
    received are the predicted ones; the table has a row for each position, and
    its mark is ok exactly where both agree. *)
Theorem verdict_is_the_exit_status useColor expected actual tasks :
  (printSummary useColor expected actual tasks).2 =
    (if orderMatches expected actual
     then green useColor "  Result: PASS  the engine drained exactly as its own rules predict."
     else yellow useColor "  Result: MISMATCH  the engine disagreed with its own rules - see the table.")
  ∧ (orderMatches expected actual = true ↔ (λ tr, tr_Label tr) <$> actual = expected)
  ∧ length (printSummary useColor expected actual tasks).1 = Nat.max (length expected) (length actual)
  ∧ ∀ i n e a m, (printSummary useColor expected actual tasks).1 !! i = Some (n, e, a, m) →
      n = Z.of_nat i + 1 ∧ (m = "ok" ↔ ∃ l, expected !! i = Some l ∧ (λ tr, tr_Label tr) <$> actual !! i = Some l).
Proof.
  split_and!; [|apply orderMatches_iff| |].
  - unfold printSummary. cbn [snd]. destruct (orderMatches expected actual) eqn:E.
    + apply orderMatches_iff in E as E'. assert (length actual = length expected) as Hl by (by rewrite <- E', length_fmap).
      rewrite bool_decide_eq_true_2 by done. cbn [andb]. by rewrite (proj2 (rows_match expected actual tasks Hl) E').
    + case_bool_decide as Hl; cbn [andb]; [|done].
      destruct (forallb _ _) eqn:Ef; [|done]. apply rows_match, orderMatches_iff in Ef; [congruence|done].
  - unfold printSummary. cbn [fst]. by rewrite !length_fmap, length_seq.
  - intros i n e a m. unfold printSummary. cbn [fst]. rewrite !list_lookup_fmap, !fmap_Some.
    intros ([[[[n' e'] a'] m'] ok] & (i' & Hi & Hrow)%fmap_Some & [= -> -> -> ->]).
    apply lookup_seq in Hi as [-> _]. cbn [Nat.add] in Hrow. pose proof (summary_row_ok expected actual tasks i) as Hok.
    rewrite <- Hrow in Hok. cbn [snd] in Hok. unfold summary_row in Hrow. injection Hrow as -> _ _ -> Hb.
    split; [done|]. rewrite <- Hok, Hb. match goal with |- context [if ?b then _ else _] => destruct b end; done.
Qed.

(** ** The client and the server *)

Lemma to_bytes_app s t : to_bytes (s +:+ t) = to_bytes s ++ to_bytes t.
Proof.
  induction s as [|c s IH]; [done|].
  change (to_bytes (String c s +:+ t)) with (c :: to_bytes (s +:+ t)). by rewrite IH.
Qed.

Section net.
Context {E St : Type} {Q : Queue E St} {L : QueueLaws Q} (q : string → string) (consoleHTML : bytes) (base : string).

(** The request a URL stands for, when it is one of this server. *)
Definition request_of (method url : string) (body : bytes) : option Request :=
  target ← strip_prefix (to_bytes base) (to_bytes url);
  let '(path, query) := cut "?" target in
  Some (MkRequest method (of_bytes path) query (MkReader body None)).

(** A network with one server: what its environment does at each call, and the
    state of its queue as long as it is known. *)
Definition Net : Type := list E * option St.

Definition serve (method url : string) (body : bytes) (w : Net) : result Reply * Net :=
  match request_of method url body, w with
  | Some r, (env :: envs, Some st) =>
      let '(resp, st') := ServeHTTP q consoleHTML env r st in
      (Ok (MkReply (rs_status resp) (MkReader (rs_body resp) None)), (envs, st'))
  | _, _ => (Err (ErrVar "net.OpError"), w)
  end.

#[local] Instance net_client : HttpClient Net := { do_request := serve }.

(** A call that reaches a handler. *)
Lemma serve_handler method path p query body h env envs st resp st' :
  cut "?" (to_bytes path) = (to_bytes p, query) → find_route (NewHandler q consoleHTML) method p = Found h → method ≠ "HEAD" →
  h env (MkRequest method p query (MkReader body None)) st = Some (resp, st') →
  serve method (base +:+ path) body (env :: envs, Some st) =
    (Ok (MkReply (rs_status resp) (MkReader (rs_body resp) None)), (envs, Some st')).
Proof.
  intros Hcut Hr Hm Hh. unfold serve, request_of. rewrite to_bytes_app, strip_prefix_app. cbn [mbind option_bind].
  rewrite Hcut, of_to_bytes. unfold ServeHTTP. cbn [rq_method rq_path]. rewrite Hr. cbn [dispatch]. rewrite Hh.
  cbn [recoverMiddleware]. unfold send. by rewrite decide_False.
Qed.

Lemma Decode_compact {A} (dec : json → A → option A) j old a :
  wf_json j = true → Z.of_nat (height j) <= maxNestingDepth → dec j old = Some a →
  Decode dec (MkReader (compact j) None) old = Ok a.
Proof. intros Hw Hh Hd. unfold Decode. cbn [rd_bytes rd_end]. rewrite (read_value_parse _ j) by (by apply parse_compact). by rewrite Hd. Qed.

Lemma Decode_indented {A} (dec : json → A → option A) j old a :
  wf_json j = true → Z.of_nat (height j) <= maxNestingDepth → dec j old = Some a →
  Decode dec (MkReader (indented j ++ [newline]) None) old = Ok a.
Proof.
  intros Hw Hh Hd. unfold Decode. cbn [rd_bytes rd_end]. rewrite (read_value_parse _ j) by (apply parse_indented; [done|done|apply single_newline]).
  by rewrite Hd.
Qed.

(** The error responses are no success. *)
Lemma service_error_status e : rs_status (writeServiceError q e) ∈ [StatusInternalServerError; StatusServiceUnavailable].
Proof. unfold writeServiceError. case_match; by apply (bool_decide_unpack _). Qed.

(** [POST /enqueue] with the body the client sends. *)
Lemma handler_enqueue env st req m p query : call_ok env st →
  request_ok req → (length (compact (enc_request req)) <= body_limit)%nat →
  ∃ resp st', Api.enqueue q env (MkRequest m p query (MkReader (compact (enc_request req)) None)) st = Some (resp, st')
    ∧ queue_ok st' ∧
    ((rs_status resp = StatusCreated ∧ ∃ m, Unmarshal dec_message (rs_body resp) zero_message = Some (wire_message m)
        ∧ Payload m = valid_string (r_Payload req) ∧ Priority m = r_Priority req ∧ contents st' ≡ₚ m :: contents st)
     ∨ (rs_status resp ≠ StatusCreated ∧ contents st' ≡ₚ contents st)).
Proof.
  intros Hc Hreq Hlen. destruct (enc_request_wf req) as [Hw Hh].
  assert (Decode dec_request (MaxBytes body_limit (MkReader (compact (enc_request req)) None)) zero_request = Ok (wire_request req)) as Hd.
  { rewrite MaxBytes_id by done. apply Decode_compact; [done|rewrite Hh; by vm_compute|by apply dec_enc_request]. }
  unfold Api.enqueue. cbn [rq_body]. rewrite Hd. destruct (Validate (wire_request req)) as [e|].
  { eexists _, st. split; [done|]. split; [by eapply call_queue_ok|]. by right. }
  destruct (law_Enqueue env (wire_request req) st Hc (decoded_fits _ _ Hd)) as (res & st' & -> & Hok & Hres).
  cbn [mbind option_bind]. destruct res as [msg|e]; eexists _, st'; (split; [done|]; split; [done|]).
  - left. destruct Hres as (Hm & Hp & Hpr & Hcont). destruct (response_message msg StatusCreated Hm) as (body & -> & Hu).
    split; [done|]. by exists msg.
  - right. split; [|done]. intros E1. pose proof (service_error_status e) as Hs. rewrite E1 in Hs.
    by apply (bool_decide_pack (_ ∈ _)) in Hs.
Qed.

(** [POST /dequeue]. *)
Lemma handler_dequeue env st r : call_ok env st →
  ∃ resp st', Api.dequeue q env r st = Some (resp, st') ∧ queue_ok st' ∧
    ((rs_status resp = StatusOK ∧ ∃ m, Unmarshal dec_message (rs_body resp) zero_message = Some (wire_message m)
        ∧ contents st ≡ₚ m :: contents st')
     ∨ (rs_status resp ≠ StatusOK ∧ contents st' ≡ₚ contents st)).
Proof.
  intros Hc. unfold Api.dequeue. destruct (law_Dequeue env st Hc) as (res & st' & -> & Hok & Hres).
  cbn [mbind option_bind]. destruct res as [[msg|]|e]; eexists _, st'; (split; [done|]; split; [done|]).
  - left. destruct Hres as (Hm & Hcont). destruct (response_message msg StatusOK Hm) as (body & -> & Hu).
    split; [done|]. by exists msg.
  - right. by split.
  - right. split; [|done]. intros E1. pose proof (service_error_status e) as Hs. rewrite E1 in Hs.
    by apply (bool_decide_pack (_ ∈ _)) in Hs.
Qed.

(** [GET /messages?limit=1000]. *)
Lemma handler_messages env st body : call_ok env st →
  ∃ v st' j, q_Snapshot env snapshotLimit st = Some (v, st') ∧ queue_ok st' ∧ contents st' ≡ₚ contents st ∧ Valid (sn_Mode v) = true
    ∧ messages env (MkRequest "GET" "/messages" (to_bytes "limit=1000") body) st =
        Some (MkResponse StatusOK "application/json" (indented j ++ [newline]), st')
    ∧ Decode dec_snapshot (MkReader (indented j ++ [newline]) None) zero_snapshot = Ok (wire_snapshot v).
Proof.
  intros Hc. destruct (law_Snapshot env snapshotLimit st Hc) as (v & st' & Hq & Hok & Hcont & Hsn & Hmode).
  destruct (enc_snapshot_ok v Hsn) as (j & Hj & Hw & Hh). exists v, st', j. split_and!; [done..| |].
  - unfold messages. change (limit_param _ _ _) with (Some snapshotLimit). cbn iota. rewrite Hq. cbn [mbind option_bind].
    unfold writeJSON. rewrite Hj, MarshalIndent_ok; [done|]. unfold maxNestingDepth; lia.
  - apply Decode_indented; [done|unfold maxNestingDepth; lia|by apply dec_enc_snapshot].
Qed.

(** The HTTP calls of the client against the server. *)

Lemma client_enqueue env envs st req : call_ok env st →
  request_ok req → (length (compact (enc_request req)) <= body_limit)%nat →
  ∃ r st', Client.enqueue base req (env :: envs, Some st) = (r, (envs, Some st')) ∧ queue_ok st' ∧
    match r with
    | Ok m' => ∃ m, m' = wire_message m ∧ Payload m = valid_string (r_Payload req) ∧ Priority m = r_Priority req
        ∧ contents st' ≡ₚ m :: contents st
    | Err _ => contents st' ≡ₚ contents st
    end.
Proof.
  intros Hc Hreq Hlen. unfold Client.enqueue. cbn [do_request net_client].
  destruct (handler_enqueue env st req "POST" "/enqueue" [] Hc Hreq Hlen) as (resp & st' & Hh & Hok & Hres).
  rewrite (serve_handler "POST" "/enqueue" "/enqueue" [] _ _ env envs st resp st' eq_refl eq_refl ltac:(done) Hh).
  unfold ReadAll. cbn [rp_status rp_body rd_end rd_bytes].
  destruct Hres as [(-> & m & Hu & Hp & Hpr & Hcont)|[Hs Hcont]].
  - change (negb (StatusCreated =? 201)) with false. cbn iota. rewrite Hu.
    exists (Ok (wire_message m)), st'. split; [done|]. split; [done|]. by exists m.
  - destruct (Z.eqb_spec (rs_status resp) 201) as [E1|_]; [done|]. cbn [negb]. eexists (Err _), st'. by split.
Qed.

Lemma client_dequeue env envs st : call_ok env st →
  ∃ r st', Client.dequeue base (env :: envs, Some st) = (r, (envs, Some st')) ∧ queue_ok st' ∧
    match r with
    | Ok (Some m') => ∃ m, m' = wire_message m ∧ contents st ≡ₚ m :: contents st'
    | _ => contents st' ≡ₚ contents st
    end.
Proof.
  intros Hc. unfold Client.dequeue. cbn [do_request net_client].
  destruct (handler_dequeue env st (MkRequest "POST" "/dequeue" [] (MkReader [] None)) Hc) as (resp & st' & Hh & Hok & Hres).
  rewrite (serve_handler "POST" "/dequeue" "/dequeue" [] _ _ env envs st resp st' eq_refl eq_refl ltac:(done) Hh).
  unfold ReadAll. cbn [rp_status rp_body rd_end rd_bytes].
  destruct Hres as [(-> & m & Hu & Hcont)|[Hs Hcont]].
  - change (StatusOK =? 204) with false. change (negb (StatusOK =? 200)) with false. cbn iota. rewrite Hu.
    exists (Ok (Some (wire_message m))), st'. split; [done|]. split; [done|]. by exists m.
  - destruct (rs_status resp =? 204); [by exists (Ok None), st'|].
    destruct (Z.eqb_spec (rs_status resp) 200) as [E1|_]; [done|]. cbn [negb]. eexists (Err _), st'. by split.
Qed.

Lemma client_getSnapshot env envs st : call_ok env st →
  ∃ v st', getSnapshot base (env :: envs, Some st) = (Ok (wire_snapshot v), (envs, Some st'))
    ∧ q_Snapshot env snapshotLimit st = Some (v, st') ∧ queue_ok st' ∧ contents st' ≡ₚ contents st.
Proof.
  intros Hc. unfold getSnapshot. cbn [do_request net_client].
  destruct (handler_messages env st (MkReader [] None) Hc) as (v & st' & j & Hq & Hok & Hcont & Hmode & Hh & Hd).
  change ("/messages?limit=" +:+ Itoa snapshotLimit) with "/messages?limit=1000".
  rewrite (serve_handler "GET" "/messages?limit=1000" "/messages" _ _ _ env envs st _ st' eq_refl eq_refl ltac:(done) Hh).
  cbn [rp_status rp_body rs_status rs_body]. change (negb (StatusOK =? 200)) with false. cbn iota. rewrite Hd.
  cbn [wire_snapshot sn_Mode]. rewrite valid_mode, Hmode by done. by exists v, st'.
Qed.

Lemma client_checkHealth env envs st :
  checkHealth base (env :: envs, Some st) = (None, (envs, Some st)).
Proof.
  unfold checkHealth. cbn [do_request net_client].
  by rewrite (serve_handler "GET" "/health" "/health" [] [] health env envs st _ st eq_refl eq_refl ltac:(done) eq_refl).
Qed.
End net.

(** C16: The client reads back what the server did.  Against a server on any
    queue that keeps its promises, [checkHealth] succeeds; [enqueue] with a
    request that fits returns the message that entered the queue, with the
    request's payload and priority, or an error and the queue holds what it
    held; [dequeue] returns the message that left the queue, or nothing left;
    [getSnapshot] returns the queue's snapshot.  Messages are in the form in
    which JSON carries them. *)
Theorem client_reads_what_the_server_did {E St : Type} {Q : Queue E St} {L : QueueLaws Q} q consoleHTML base
    env envs st req :
  let _ := net_client q consoleHTML base in
  call_ok env st → request_ok req → (length (compact (enc_request req)) <= body_limit)%nat →
  checkHealth base (env :: envs, Some st) = (None, (envs, Some st))
  ∧ (∃ r st', Client.enqueue base req (env :: envs, Some st) = (r, (envs, Some st')) ∧ queue_ok st' ∧
      match r with
      | Ok m' => ∃ m, m' = wire_message m ∧ Payload m = valid_string (r_Payload req) ∧ Priority m = r_Priority req
          ∧ contents st' ≡ₚ m :: contents st
      | Err _ => contents st' ≡ₚ contents st
      end)
  ∧ (∃ r st', Client.dequeue base (env :: envs, Some st) = (r, (envs, Some st')) ∧ queue_ok st' ∧
      match r with
      | Ok (Some m') => ∃ m, m' = wire_message m ∧ contents st ≡ₚ m :: contents st'
      | _ => contents st' ≡ₚ contents st
      end)
  ∧ (∃ v st', getSnapshot base (env :: envs, Some st) = (Ok (wire_snapshot v), (envs, Some st'))
      ∧ q_Snapshot env snapshotLimit st = Some (v, st') ∧ queue_ok st' ∧ contents st' ≡ₚ contents st).
Proof.
  intros client Hc Hreq Hlen. split_and!.
  - by apply client_checkHealth.
  - by apply client_enqueue.
  - by apply client_dequeue.
  - by apply client_getSnapshot.
Qed.

Lemma client_reads_what_the_server_did_witness :
  let _ := net_client (Q := service_queue) ApiTheorems.Sample.quoted [] "http://127.0.0.1:8080" in
  ∃ r st', Client.dequeue "http://127.0.0.1:8080" ([ApiTheorems.Sample.env], Some ApiTheorems.Sample.st) = (r, ([], Some st'))
    ∧ queue_ok st' ∧
      match r with
      | Ok (Some m') => ∃ m, m' = wire_message m ∧ contents ApiTheorems.Sample.st ≡ₚ m :: contents st'
      | _ => contents st' ≡ₚ contents ApiTheorems.Sample.st
      end.
Proof.
  refine (proj1 (proj2 (proj2 (client_reads_what_the_server_did ApiTheorems.Sample.quoted [] "http://127.0.0.1:8080"
    ApiTheorems.Sample.env [] ApiTheorems.Sample.st (task_request (MkTask "A" 1 0 "email")) ApiTheorems.Sample.st_call _ _)))).
  - split; unfold in_i64; simpl; lia.
  - apply Nat.leb_le. vm_compute. reflexivity.
Defined.

(** A network where every call fails. *)
#[local] Instance no_network : HttpClient () := { do_request _ _ _ w := (Err (ErrVar "net.OpError"), w) }.

Lemma worker_stops_witness :
  let t := EngineTheorems.Sample.at_ms in
  let wk := MkWorker Sample.jobs Sample.jobs_of [0%nat; 1%nat] [] in
  ∃ out err wk' w', workerLoop false "base" (t 0) (t 0) [MkTick (t 100) (t 100) (t 100) (t 39000) (t 39000)] script wk () = Returned out err wk' w'
    ∧ worker_ok wk' ∧ w_mine wk' = w_mine wk ∧ (err = None → length (w_actual wk') = size (w_mine wk')).
Proof.
  intros t wk. apply (worker_stops false "base" (t 0) (t 0) _ wk ()).
  - split; cbn [w_pending w_actual w_mine w_mem wk].
    + intros p Hp. repeat (apply elem_of_cons in Hp as [->|Hp]; [by eexists|]). inversion Hp.
    + intros p Hp. inversion Hp.
    + intros id p Hp. unfold Sample.jobs_of in Hp. apply lookup_insert_Some in Hp as [[_ <-]|[_ Hp]]; [by eexists|].
      apply lookup_singleton_Some in Hp as [_ <-]. by eexists.
  - apply Exists_cons_hd. vm_compute. reflexivity.
Defined.
