(* ===== verification/CheckoutFacts.v ===== *)
(** * One client, one server, step by step

    The client of [Client] against the handlers of [Api] on the service of
    [Service], with an environment that fails nowhere: what each HTTP call of the
    client gets and what the service holds after it, in terms of the messages held
    and the delivery order.  [CheckoutTheorems] composes these to a whole run. *)

From S2P Require Import Prelude GoTime GoHeap GoSort GoStrconv GoUtf8 GoJson GoJsonFacts GoTimeFormat Model Codec CodecFacts LogRecord.
From S2P Require Import Engine EngineHeap EngineSpec EngineRefine EngineTheorems RecordSize.
From S2P Require Wal WalFacts WalTheorems Service ServiceFacts ServiceTrace ServiceTheorems.
From S2P Require Import GoJsonStream GoHttp Api ApiLaws ApiTheorems GoFmt Client ClientFacts ClientTheorems.
From Stdlib Require Import Ascii.

Import Service (QueueService, s_seq, s_queue, s_closed, s_wal, newUUID).
Import ServiceFacts (held, storable, readable, new_message, st_ok, carried_out, delivery_order, msg_less, msg_key).
Import ServiceTrace (Config, MkConfig, good, clock, room, answers, random_block, moves, c_svc, c_file, c_off, c_last).

Local Open Scope Z_scope.

(** ** The service *)

Abbreviation state := (QueueService * Wal.File)%type.

(** The service works in [mode] and holds the messages [l]; at least [k] more can
    be enqueued. *)
Record holds (off last : Z) (mode : QueueMode) (k : Z) (l : list Message) (st : state) : Prop := {
  hd_good : ∃ es bs, good (MkConfig off last st.1 st.2) es bs;
  hd_mode : Mode (s_queue st.1) = mode;
  hd_held : held st.1 ≡ₚ l;
  hd_ids : Forall (λ m, String.length (ID m) <= 36)%nat l;
  hd_seq : s_seq st.1 + k < 2 ^ 64;
  hd_order : q_nextOrder (s_queue st.1) + k < 2 ^ 64;
  hd_count : Z.of_nat (length l) + k <= snapshotLimit
}.

(** A call whose clock goes on and whose append is carried out. *)
Record healthy (off last : Z) (env : Env) : Prop := {
  hl_coherent : coherent off (e_now env);
  hl_plausible : plausible (e_now env);
  hl_forward : last <= t_wall (e_now env);
  hl_io : carried_out (e_append env)
}.

Fixpoint healthy_all (off last : Z) (envs : list Env) : Prop :=
  match envs with
  | [] => True
  | env :: envs => healthy off last env ∧ healthy_all off (t_wall (e_now env)) envs
  end.

Lemma healthy_clock off last env s f : healthy off last env → clock (MkConfig off last s f) (e_now env).
Proof. by intros [Hc Hp Hf _]. Qed.

Lemma holds_room off last mode k l st : holds off last mode k l st → 1 <= k → room st.1.
Proof.
  intros [_ _ Hh _ Hs Ho Hc] Hk. split; [lia|lia|]. rewrite Hh. unfold snapshotLimit in Hc. lia.
Qed.

Lemma holds_enqueue off last mode k l st env req b id :
  holds off last mode (k + 1) l st → 0 <= k → healthy off last env →
  e_random env = Ok b → random_block b → newUUID (Ok b) = Ok id → id ∉ ID <$> l →
  Validate req = None → fits req →
  let m := new_message (e_now env) id req st.1 in
  ∃ st', q_Enqueue env req st = Some (Ok m, st') ∧ holds off (t_wall (e_now env)) mode k (m :: l) st'
    ∧ s_seq st'.1 = s_seq st.1 + 1 ∧ storable m
    ∧ coherent off (AvailableAt m) ∧ t_wall (AvailableAt m) = t_wall (e_now env) + r_DelaySeconds req * Second.
Proof.
  intros Hh Hk He Er Hb Hid Hfresh Hv Hfit m. pose proof (holds_room _ _ _ _ _ _ Hh ltac:(lia)) as Hrm.
  destruct st as [s f]. destruct Hh as [(es & bs & Hg) Hmode Hheld Hids Hsq Ho Hc]. cbn [fst snd] in *.
  pose proof (healthy_clock off last env s f He) as Hck. pose proof Hg as [Hi _].
  destruct (ServiceTrace.newUUID_id (Ok b) id Hb Hid) as [Hne Hval].
  destruct (ServiceTrace.new_message_ok (MkConfig off last s f) (e_now env) id req Hck Hrm (ft_priority _ Hfit) Hv Hne Hval)
    as (Hst & Hcoh & Hav); [apply (ServiceFacts.inv_counter _ _ _ _ _ Hi)|].
  assert (id ∉ ID <$> held s) as Hfresh' by (by rewrite Hheld).
  assert (readable (WalTheorems.enqueue_entry (e_append env) m (s_wal s))) as Hread.
  { apply fits_readable; [done|apply Hst|apply (hl_io _ _ _ He)|by eapply newUUID_length]. }
  destruct (ServiceFacts.Enqueue_carried_out off (e_now env) (Ok b) id (e_append env) req s f es bs)
    as (s' & f' & b' & Hq & _ & Hh' & Hsq' & HM & HN & _); [apply Hi|done|done|exact Hst|exact Hcoh|done|apply Hrm|apply Hrm|apply He|exact Hread|].
  destruct (ServiceTrace.Enqueue_moves (MkConfig off last s f) es bs (e_now env) (Ok b) (e_append env) req Hg)
    as (r & s1 & f1 & Hq1 & Hmv & _).
  { split; [done|done|left; apply He|apply Hfit|done| |]; intros id' [= <-]%(eq_trans (eq_sym Hid)); [done|exact Hread]. }
  cbn [c_svc c_file] in Hq1. rewrite Hq in Hq1. injection Hq1 as <- <- <-.
  exists (s', f'). cbn [q_Enqueue service_queue fst snd]. rewrite Er, Hq. split; [done|]. split; [|done].
  destruct (ServiceTrace.mv_good _ _ _ _ _ _ Hmv) as (de & db & Hg' & _).
  split; cbn [fst snd].
  - by eexists _, _.
  - by rewrite HM.
  - by rewrite Hh', Hheld.
  - constructor; [by eapply newUUID_length|done].
  - lia.
  - lia.
  - cbn [length]. lia.
Qed.

Lemma holds_order off last mode k l st now : holds off last mode k l st →
  delivery_order (Mode (s_queue st.1)) now (held st.1) = delivery_order mode now l.
Proof.
  intros [(es & bs & [Hi _]) -> Hh _ _ _ _].
  apply ServiceFacts.delivery_order_perm; [|done]. rewrite <- Hh. apply (ServiceFacts.inv_seqs _ _ _ _ _ Hi).
Qed.

Lemma dequeue_readable io id w : (String.length id <= 36)%nat → readable (WalTheorems.dequeue_entry io id w).
Proof.
  intros Hid b Hb. apply dequeue_entry_size in Hb. unfold Wal.maxRecordBytes. change (Z.shiftl 16 20) with 16777216. lia.
Qed.

(** A dequeue hands out the first message of the delivery order. *)
Lemma holds_dequeue_some off last mode k l l' st env m :
  holds off last mode k l st → 1 <= k → healthy off last env →
  head (delivery_order mode (e_now env) l) = Some m → l ≡ₚ m :: l' →
  ∃ st', q_Dequeue env st = Some (Ok (Some m), st') ∧ holds off (t_wall (e_now env)) mode k l' st' ∧ storable m.
Proof.
  intros Hh Hk He Hm Hl. pose proof (holds_room _ _ _ _ _ _ Hh Hk) as Hrm.
  pose proof (holds_order _ _ _ _ _ _ (e_now env) Hh) as Hord.
  destruct st as [s f]. destruct Hh as [(es & bs & Hg) Hmode Hheld Hids Hsq Ho Hc]. cbn [fst snd] in *.
  pose proof (healthy_clock off last env s f He) as Hck. pose proof Hg as [Hi _].
  pose proof (ServiceTheorems.Pop_next (MkConfig off last s f) es bs (e_now env) Hg Hck) as Hpop.
  cbn [c_svc] in Hpop. cbn zeta in Hpop. rewrite Hord, Hm in Hpop. destruct Hpop as (q' & Hp & _ & HM & HN & _).
  rewrite Hl in Hids. apply Forall_cons in Hids as [Hid Hids]. pose proof (dequeue_readable (e_append env) (ID m) (s_wal s) Hid) as Hread.
  destruct (ServiceFacts.Dequeue_carried_out off (e_now env) (e_append env) s f es bs m q')
    as (s' & f' & b & Hq & _ & Hh' & Hsq' & Hq'); [exact Hi|exact Hp|apply He|apply He|exact Hread|].
  destruct (ServiceTrace.Dequeue_some_moves (MkConfig off last s f) es bs (e_now env) (e_append env) m q' Hg Hck Hrm
    ltac:(left; apply He) Hp ltac:(done)) as (r & s1 & f1 & Hq1 & Hmv & Hr).
  cbn [c_svc c_file] in Hq1. rewrite Hq in Hq1. injection Hq1 as <- <- <-.
  exists (s', f'). cbn [q_Dequeue service_queue fst snd]. rewrite Hq. split; [done|]. split; [|apply Hr].
  destruct (ServiceTrace.mv_good _ _ _ _ _ _ Hmv) as (de & db & Hg' & _).
  pose proof (Permutation_length Hl) as Hlen. cbn [length] in Hlen.
  split; cbn [fst snd].
  - by eexists _, _.
  - by rewrite Hq', HM.
  - apply (Permutation_cons_inv (a := m)). by rewrite <- Hh', Hheld.
  - done.
  - lia.
  - rewrite Hq', HN. lia.
  - lia.
Qed.

Lemma holds_dequeue_none off last mode k l st env :
  holds off last mode k l st → healthy off last env → head (delivery_order mode (e_now env) l) = None →
  ∃ st', q_Dequeue env st = Some (Ok None, st') ∧ holds off (t_wall (e_now env)) mode k l st'.
Proof.
  intros Hh He Hm. pose proof (holds_order _ _ _ _ _ _ (e_now env) Hh) as Hord.
  destruct st as [s f]. destruct Hh as [(es & bs & Hg) Hmode Hheld Hids Hsq Ho Hc]. cbn [fst snd] in *.
  pose proof (healthy_clock off last env s f He) as Hck.
  pose proof (ServiceTheorems.Pop_next (MkConfig off last s f) es bs (e_now env) Hg Hck) as Hpop.
  cbn [c_svc] in Hpop. cbn zeta in Hpop. rewrite Hord, Hm in Hpop. destruct Hpop as (q' & Hp & _ & HM & HN & _).
  destruct (ServiceTrace.Dequeue_none_moves (MkConfig off last s f) es bs (e_now env) (e_append env) q' Hg Hck Hp) as (Hq & Hmv & Hh').
  cbn [c_svc c_file] in Hq. exists (Service.with_queue s q', f). cbn [q_Dequeue service_queue fst snd]. rewrite Hq. split; [done|].
  destruct (ServiceTrace.mv_good _ _ _ _ _ _ Hmv) as (de & db & Hg' & _).
  split; cbn [fst snd Service.with_queue s_queue s_seq]; try done.
  - by eexists _, _.
  - by rewrite HM.
  - etrans; [exact Hh'|exact Hheld].
  - by rewrite HN.
Qed.

(** A snapshot lists everything: what is ready in the delivery order. *)
Lemma holds_snapshot off last mode k l st env :
  holds off last mode k l st → 0 <= k → healthy off last env →
  ∃ v st', q_Snapshot env snapshotLimit st = Some (v, st') ∧ holds off (t_wall (e_now env)) mode k l st'
    ∧ snapshot_ok v ∧ sn_Mode v = mode ∧ sn_Now v = UTC (e_now env)
    ∧ sn_Ready v = delivery_order mode (e_now env) l
    ∧ sn_Delayed v ≡ₚ filter (λ m, Available m (e_now env) = false) l
    ∧ Total (sn_Stats v) = Z.of_nat (length l).
Proof.
  intros Hh Hk He. pose proof (holds_order _ _ _ _ _ _ (e_now env) Hh) as Hord.
  destruct st as [s f]. destruct Hh as [(es & bs & Hg) Hmode Hheld Hids Hsq Ho Hc]. cbn [fst snd] in *.
  pose proof (healthy_clock off last env s f He) as Hck. pose proof Hg as [Hi _].
  assert (Z.of_nat (length (held s)) <= snapshotLimit) as Hlen by (rewrite Hheld; lia).
  destruct (service_snapshot off last env (s, f) es bs snapshotLimit Hg Hck) as (v & s1 & Hs & Hmv & Hh' & Hok & _);
    [unfold snapshotLimit in *; cbn [fst]; lia|]. cbn [fst snd] in *.
  destruct (Snapshot_ok off (s_queue s) (UTC (e_now env)) snapshotLimit) as (q' & Hq & Hwf' & Ha); [apply Hi|apply Hck|].
  exists v, (s1, f). cbn [q_Snapshot service_queue fst snd]. rewrite Hs. split; [done|].
  unfold Service.Snapshot in Hs. rewrite Hq in Hs. cbn [mbind option_bind] in Hs.
  pose proof (ServiceTheorems.promoted_order (MkConfig off last s f) es bs (e_now env) Hg Hck) as Hready.
  pose proof (ServiceTheorems.delayed_order (MkConfig off last s f) es bs (e_now env) Hg Hck) as Hdelayed.
  cbn [c_svc] in Hready, Hdelayed. rewrite Hord in Hready. rewrite Hheld in Hdelayed.
  pose proof (a_contents_promote (UTC (e_now env)) (abs (s_queue s))) as Hp.
  rewrite <- Ha in *. set (a := abs q') in *.
  assert (length (a_ready a) + length (a_delayed a) = length l)%nat as Hn.
  { rewrite <- (Permutation_length Hheld). unfold held. rewrite <- (Permutation_length Hp). unfold a_contents. by rewrite length_fmap, length_app. }
  assert (∀ es', (length es' <= length l)%nat → page snapshotLimit es' = (fst <$> es', false)) as Hpage.
  { intros es' Hl'. unfold page. destruct (Z.ltb_spec snapshotLimit (Z.of_nat (length es'))); [lia|]. by rewrite andb_false_r. }
  unfold a_view in Hs. rewrite !Hpage in Hs by lia. cbn [fst snd v_Ready v_Delayed v_ReadyLen v_DelayedLen v_ReadyTruncated v_DelayedTruncated] in Hs.
  assert (Mode q' = mode) as HM by (rewrite <- Hmode; exact (f_equal a_mode Ha)). rewrite HM in Hs.
  injection Hs as <- <-. cbn [sn_Mode sn_Now sn_Ready sn_Delayed sn_Stats Total].
  split; [|split_and!; [done|done|done|done|done|]]. 2: { exact (f_equal Z.of_nat Hn). }
  destruct (ServiceTrace.mv_good _ _ _ _ _ _ Hmv) as (de & db & Hg' & _).
  split; cbn [fst snd Service.with_queue s_queue s_seq]; try done.
  - by eexists _, _.
  - etrans; [exact Hh'|exact Hheld].
  - change (q_nextOrder q') with (a_next (abs q')). fold a. rewrite Ha. exact Ho.
Qed.

(** ** The calls of the client

    What the client gets when the queue answers without an error. *)

Section calls.
Context {E St : Type} {Q : Queue E St} (q : string → string) (consoleHTML : bytes) (base : string).
#[local] Instance calls_client : HttpClient Net := net_client q consoleHTML base.

Lemma client_enqueue_gets env envs (st st' : St) req m :
  wire_request req = req → (length (compact (enc_request req)) <= body_limit)%nat → in_i64 (r_Priority req) → in_i64 (r_DelaySeconds req) →
  Validate req = None → q_Enqueue env req st = Some (Ok m, st') → message_ok m →
  Client.enqueue base req (env :: envs, Some st) = (Ok (wire_message m), (envs, Some st')).
Proof.
  intros Hw Hl Hp Hds Hv Hq Hm. destruct (enc_request_wf req) as [Hwf Hh].
  destruct (response_message m StatusCreated Hm) as (body & Hr & Hu).
  assert (Api.enqueue q env (MkRequest "POST" "/enqueue" [] (MkReader (compact (enc_request req)) None)) st
    = Some (writeJSON StatusCreated (enc_message m), st')) as Hhandler.
  { unfold Api.enqueue. cbn [rq_body]. rewrite MaxBytes_id by done.
    rewrite (Decode_compact dec_request _ zero_request req); [|done|rewrite Hh; by vm_compute|rewrite <- Hw at 2; by apply dec_enc_request].
    by rewrite Hv, Hq. }
  unfold Client.enqueue. cbn [do_request calls_client net_client].
  rewrite (serve_handler q consoleHTML base "POST" "/enqueue" "/enqueue" [] _ _ env envs st _ st' eq_refl eq_refl ltac:(done) Hhandler).
  rewrite Hr. unfold ReadAll. cbn [rp_status rp_body rd_end rd_bytes rs_status rs_body].
  change (negb (StatusCreated =? 201)) with false. cbn iota. by rewrite Hu.
Qed.

Lemma client_dequeue_gets env envs (st st' : St) o :
  q_Dequeue env st = Some (Ok o, st') → (∀ m, o = Some m → message_ok m) →
  Client.dequeue base (env :: envs, Some st) = (Ok (wire_message <$> o), (envs, Some st')).
Proof.
  intros Hq Hm. unfold Client.dequeue. cbn [do_request calls_client net_client].
  assert (Api.dequeue q env (MkRequest "POST" "/dequeue" [] (MkReader [] None)) st
    = Some (match o with None => MkResponse StatusNoContent "" [] | Some m => writeJSON StatusOK (enc_message m) end, st')) as Hhandler.
  { unfold Api.dequeue. rewrite Hq. by destruct o. }
  rewrite (serve_handler q consoleHTML base "POST" "/dequeue" "/dequeue" [] _ _ env envs st _ st' eq_refl eq_refl ltac:(done) Hhandler).
  destruct o as [m|]; [|done]. destruct (response_message m StatusOK (Hm m eq_refl)) as (body & -> & Hu).
  unfold ReadAll. cbn [rp_status rp_body rd_end rd_bytes rs_status rs_body].
  change (StatusOK =? 204) with false. change (negb (StatusOK =? 200)) with false. cbn iota. by rewrite Hu.
Qed.

Lemma client_snapshot_gets env envs (st st' : St) v :
  q_Snapshot env snapshotLimit st = Some (v, st') → snapshot_ok v → Valid (sn_Mode v) = true →
  getSnapshot base (env :: envs, Some st) = (Ok (wire_snapshot v), (envs, Some st')).
Proof.
  intros Hq Hv Hmode. destruct (enc_snapshot_ok v Hv) as (j & Hj & Hw & Hh).
  assert (messages env (MkRequest "GET" "/messages" (to_bytes "limit=1000") (MkReader [] None)) st =
    Some (MkResponse StatusOK "application/json" (indented j ++ [newline]), st')) as Hhandler.
  { unfold messages. change (limit_param _ _ _) with (Some snapshotLimit). cbn iota. rewrite Hq. cbn [mbind option_bind].
    unfold writeJSON. rewrite Hj, MarshalIndent_ok; [done|]. unfold maxNestingDepth; lia. }
  unfold getSnapshot. cbn [do_request calls_client net_client].
  change ("/messages?limit=" +:+ Itoa snapshotLimit) with "/messages?limit=1000".
  rewrite (serve_handler q consoleHTML base "GET" "/messages?limit=1000" "/messages" _ _ _ env envs st _ st' eq_refl eq_refl ltac:(done) Hhandler).
  cbn [rp_status rp_body rs_status rs_body]. change (negb (StatusOK =? 200)) with false. cbn iota.
  rewrite (Decode_indented dec_snapshot j zero_snapshot (wire_snapshot v)); [|done|unfold maxNestingDepth; lia|by apply dec_enc_snapshot].
  cbn [wire_snapshot sn_Mode]. by rewrite valid_mode, Hmode.
Qed.
End calls.

(** ** Sorted lists *)

Lemma strictly_sorted_total {A} (lt : A → A → bool) k x y : StronglySorted (λ a b, lt a b = true) k →
  x ∈ k → y ∈ k → x = y ∨ lt x y = true ∨ lt y x = true.
Proof.
  induction 1 as [|z k _ IH Hall]; [by intros ?%elem_of_nil|]. rewrite Forall_forall in Hall.
  intros [->|Hx]%elem_of_cons [->|Hy]%elem_of_cons; auto.
Qed.

(** A strictly sorted permutation is what the sort returns. *)
Lemma sorted_is_sort {A} (lt : A → A → bool) l k : weak_order lt (λ _, True) →
  StronglySorted (λ a b, lt a b = true) k → k ≡ₚ l → insertion_sort lt l = k.
Proof.
  intros Hw Hs Hp. symmetry. apply (sort_canonical _ _ Hw); [by apply Forall_true| |done|].
  - intros x y. rewrite <- Hp. intros Hx Hy Hxy Hyx. unfold le in *.
    destruct (strictly_sorted_total lt k x y Hs Hx Hy) as [?|[?|?]]; congruence.
  - clear Hp. induction Hs as [|z k _ IH Hall]; constructor; [exact IH|].
    eapply Forall_impl; [exact Hall|]. intros a Ha. by apply (lt_le lt (λ _, True) Hw).
Qed.

Lemma msg_weak_order mode : weak_order (msg_less mode) (λ _, True).
Proof. apply lex_lt_weak_order. Qed.

Lemma delivery_head mode now l m : m ∈ l → Available m now = true →
  (∀ x, x ∈ l → Available x now = true → x = m ∨ msg_less mode m x = true) →
  head (delivery_order mode now l) = Some m.
Proof.
  intros Hin Hav Hbest. unfold delivery_order. set (k := filter _ l).
  assert (m ∈ k) as Hk by (by apply list_elem_of_filter).
  pose proof (insertion_sort_perm (msg_less mode) k) as Hp.
  pose proof (insertion_sort_sorted _ _ (msg_weak_order mode) k (Forall_true _ _ (λ _, I))) as Hs.
  destruct (insertion_sort (msg_less mode) k) as [|x k'] eqn:E; [rewrite <- Hp in Hk; by apply elem_of_nil in Hk|].
  assert (x ∈ k) as [Hx Hxl]%list_elem_of_filter by (rewrite <- Hp; by left).
  destruct (Hbest x Hxl Hx) as [->|Hless]; [done|]. rewrite <- Hp in Hk. apply elem_of_cons in Hk as [<-|Hk]; [done|].
  apply StronglySorted_inv in Hs as [_ Hall]. rewrite Forall_forall in Hall. specialize (Hall m Hk). unfold le in Hall. congruence.
Qed.

Lemma delivery_none mode now l : (∀ x, x ∈ l → Available x now = false) → head (delivery_order mode now l) = None.
Proof.
  intros Hno. unfold delivery_order. rewrite filter_none; [done|]. intros x Hx. by rewrite (Hno x Hx).
Qed.

(** ** The simulated drain of five messages

    Three are ready, in the order [x1], [x2], [x3]; [y1] and [y2] mature, in this
    order, when the others are served. *)

Lemma drain_takes fuel less t r d out r' d' x rest : r ++ d ≠ [] → mature t r d = (r', d') → SliceStable less r' = x :: rest →
  drain_loop (S fuel) less t r d out = drain_loop fuel less (Add t pollInterval) rest d' (out ++ [x]).
Proof. intros Hne Hm Hs. by rewrite drain_loop_round, Hm, Hs. Qed.


Lemma drain_waits fuel less t y d out : ¬ due t y →
  drain_loop (S fuel) less t [] (y :: d) out = drain_loop fuel less (si_availableAt y) [] (y :: d) out.
Proof.
  intros Hy%not_false_iff_true. rewrite drain_loop_round by done. cbn [mature]. by rewrite Hy.
Qed.

Lemma mature_none t r d : (∀ y, y ∈ d → ¬ due t y) → mature t r d = (r, d).
Proof.
  destruct d as [|y d]; [done|]. intros Hd. cbn [mature]. specialize (Hd y ltac:(by left)). unfold due in Hd.
  apply not_false_iff_true in Hd. by rewrite Hd.
Qed.

Lemma mature_first t y d : due t y → (∀ z, z ∈ d → ¬ due t z) → mature t [] (y :: d) = ([y], d).
Proof. intros Hy Hd. cbn [mature]. unfold due in Hy. rewrite Hy. cbn [negb app]. by apply mature_none. Qed.

Section five.
Context (mode : QueueMode) (t : Time) (x1 x2 x3 y1 y2 : simItem).
Abbreviation less := (lessFor mode).
Hypothesis H12 : less x1 x2 = true.
Hypothesis H13 : less x1 x3 = true.
Hypothesis H23 : less x2 x3 = true.
Hypothesis Hmono : t_mono t = None ∧ t_mono (si_availableAt y1) = None ∧ t_mono (si_availableAt y2) = None.
Hypothesis Hrange : - 2 ^ 80 < t_wall t ∧ t_wall (si_availableAt y2) < 2 ^ 80.
Hypothesis Hlate : t_wall t + 3 * pollInterval < t_wall (si_availableAt y1).
Hypothesis Hnext : t_wall (si_availableAt y1) < t_wall (si_availableAt y2).

Lemma five_times k : 0 <= k <= 3 → ∀ u, t_wall u = t_wall t + k * pollInterval → t_mono u = None →
  ∀ y, y ∈ [y1; y2] → ¬ due u y.
Proof.
  destruct Hmono as (_ & M1 & M2). unfold pollInterval, Millisecond in *. intros Hk u Hu Mu y Hy.
  apply elem_of_cons in Hy as [->|Hy]; [|apply list_elem_of_singleton in Hy as ->]; rewrite due_iff by done; lia.
Qed.

Lemma five_drain : drain_loop 11 less t [x1; x2; x3] [y1; y2] [] = Some [x1; x2; x3; y1; y2].
Proof.
  destruct Hmono as (M & M1 & M2).
  assert (∀ k u, 0 <= k <= 3 → t_wall u = t_wall t + k * pollInterval → t_mono u = None →
    t_wall (Add u pollInterval) = t_wall t + (k + 1) * pollInterval ∧ t_mono (Add u pollInterval) = None) as Hadd.
  { intros k u Hk Hu Mu. rewrite Add_wall by (unfold pollInterval, Millisecond in *; done || lia). cbn [t_wall t_mono]. split; [lia|done]. }
  assert (t_wall t = t_wall t + 0 * pollInterval) as W0 by lia.
  destruct (Hadd 0 t ltac:(lia) W0 M) as [W1 N1]. set (t1 := Add t pollInterval) in *.
  destruct (Hadd 1 t1 ltac:(lia) W1 N1) as [W2 N2]. set (t2 := Add t1 pollInterval) in *.
  destruct (Hadd 2 t2 ltac:(lia) W2 N2) as [W3 N3]. set (t3 := Add t2 pollInterval) in *.
  assert (∀ l, StronglySorted (λ a b, less a b = true) l → SliceStable less l = l) as Hsort
    by (intros l Hl; by apply (sorted_is_sort _ _ _ (lessFor_weak_order mode))).
  rewrite (drain_takes _ _ _ _ _ _ [x1; x2; x3] [y1; y2] x1 [x2; x3]);
    [|done|apply mature_none, (five_times 0 ltac:(lia) t W0 M)|apply Hsort; repeat constructor; done].
  fold t1. rewrite (drain_takes _ _ _ _ _ _ [x2; x3] [y1; y2] x2 [x3]);
    [|done|apply mature_none, (five_times 1 ltac:(lia) t1 W1 N1)|apply Hsort; repeat constructor; done].
  fold t2. rewrite (drain_takes _ _ _ _ _ _ [x3] [y1; y2] x3 []);
    [|done|apply mature_none, (five_times 2 ltac:(lia) t2 W2 N2)|apply Hsort; repeat constructor; done].
  fold t3. rewrite drain_waits by (apply (five_times 3 ltac:(lia) t3 W3 N3); by left).
  rewrite (drain_takes _ _ _ _ _ _ [y1] [y2] y1 []);
    [|done|apply mature_first; [apply due_self|]|done].
  2: { intros z ->%list_elem_of_singleton. rewrite due_iff by done. lia. }
  assert (∀ fuel u out, drain_loop (S (S fuel)) less u [] [y2] out = Some (out ++ [y2]) ∨ ¬ due u y2) as Hlast.
  { intros fuel u out. destruct (decide (due u y2)) as [Hd|Hd]; [left|by right].
    by rewrite (drain_takes _ _ _ _ _ _ [y2] [] y2 []) by (done || (apply mature_first; [exact Hd|by intros ? ?%elem_of_nil])). }
  destruct (Hlast 4%nat (Add (si_availableAt y1) pollInterval) ([x1; x2; x3] ++ [y1])) as [E|Hd]; [exact E|].
  cbn [app] in *. rewrite drain_waits by done. destruct (Hlast 3%nat (si_availableAt y2) [x1; x2; x3; y1]) as [E|Hn]; [exact E|].
  by destruct Hn; apply due_self.
Qed.
End five.

Lemma simulate_five snap m1 m2 m3 n1 n2 :
  let mode := sn_Mode snap in let t := sn_Now snap in
  let it m := sim_item m in
  sn_Ready snap = [m1; m2; m3] → sn_Delayed snap ≡ₚ [n1; n2] →
  lessFor mode (it m1) (it m2) = true → lessFor mode (it m1) (it m3) = true → lessFor mode (it m2) (it m3) = true →
  t_mono t = None ∧ t_mono (AvailableAt n1) = None ∧ t_mono (AvailableAt n2) = None →
  - 2 ^ 80 < t_wall t ∧ t_wall (AvailableAt n2) < 2 ^ 80 →
  t_wall t + 3 * pollInterval < t_wall (AvailableAt n1) → t_wall (AvailableAt n1) < t_wall (AvailableAt n2) →
  simulateDrain snap = Some (sim_item <$> [m1; m2; m3; n1; n2]).
Proof.
  cbn zeta. intros Hr Hd H12 H13 H23 Hm Hrange Hl Hn. unfold simulateDrain. rewrite Hr.
  assert (SliceStable before_item (sim_item <$> sn_Delayed snap) = [sim_item n1; sim_item n2]) as Hsd.
  { assert (∀ l, l ≡ₚ [sim_item n1; sim_item n2] → l = [sim_item n1; sim_item n2] ∨ l = [sim_item n2; sim_item n1]) as Hl2.
    { intros l Hp. symmetry in Hp. by apply Permutation_length_2_inv. }
    assert (sim_item <$> sn_Delayed snap ≡ₚ [sim_item n1; sim_item n2]) as Hp by (by rewrite Hd).
    apply Hl2 in Hp. unfold SliceStable, insertion_sort.
    destruct Hm as (_ & M1 & M2).
    assert (before_item (sim_item n1) (sim_item n2) = true) as B1
      by (unfold before_item; rewrite Before_wall by done; cbn [sim_item si_availableAt]; lia).
    assert (before_item (sim_item n2) (sim_item n1) = false) as B2
      by (unfold before_item; rewrite Before_wall by done; cbn [sim_item si_availableAt]; lia).
    destruct Hp as [-> | ->]; cbn [fold_left insert_sorted]; by rewrite ?B1, ?B2. }
  fold before_item. rewrite Hsd. by apply five_drain.
Qed.

(** ** The rounds of the worker *)

(** The worker of the jobs [ts], which were given the IDs in [mine], with the
    jobs [done] processed. *)
Record working (ts : list task) (mine : gmap string jptr) (done : list jptr) (wk : Worker) : Prop := {
  wk_mine : w_mine wk = mine;
  wk_tasks p : tr_task <$> w_mem wk !! p = ts !! p;
  wk_pending : Forall (λ p, p < length ts)%nat (w_pending wk);
  wk_actual : w_actual wk = done
}.

Lemma working_deref ts mine done wk ps : working ts mine done wk → Forall (λ p, p < length ts)%nat ps →
  ∃ trs, deref (w_mem wk) ps = Some trs ∧ Some ∘ tr_task <$> trs = (λ p, ts !! p) <$> ps.
Proof.
  intros Hw Hps. unfold deref. induction Hps as [|p ps Hp _ (trs & IH & Ht)]; [by exists []|].
  pose proof (wk_tasks _ _ _ _ Hw p) as Hl. destruct (lookup_lt_is_Some_2 ts p Hp) as [t Et]. rewrite Et in Hl.
  destruct (w_mem wk !! p) as [tr|] eqn:Em; [|done]. exists (tr :: trs). cbn [mapM]. rewrite Em, IH. split; [done|].
  csimpl. rewrite Ht, Et. unfold compose. by injection Hl as ->.
Qed.

Section rounds.
Context {W : Type} `{HttpClient W} (useColor : bool) (base : string) (ts : list task) (mine : gmap string jptr).

Lemma poll_takes start now done wk w w' m p : working ts mine done wk →
  Client.dequeue base w = (Ok (Some m), w') → mine !! ID m = Some p → (p < length ts)%nat →
  ∃ printed wk', pollOnce useColor base start now wk w = Some (printed, None, wk', w') ∧ working ts mine (done ++ [p]) wk'.
Proof.
  intros Hw Hd Hp Hlt. pose proof (wk_tasks _ _ _ _ Hw p) as Hl. destruct (lookup_lt_is_Some_2 ts p Hlt) as [t Et].
  rewrite Et in Hl. destruct (w_mem wk !! p) as [tr|] eqn:Em; [|done]. injection Hl as Hl.
  unfold pollOnce. rewrite Hd, (wk_mine _ _ _ _ Hw), Hp, Em. cbn [mbind option_bind]. rewrite removeTracked_filter. cbn [mbind option_bind].
  set (wk' := MkWorker (<[p := MkTracked (tr_task tr) m]> (w_mem wk)) mine
    (filter (λ p', p' ≠ p) (w_pending wk)) (w_actual wk ++ [p])).
  assert (working ts mine (done ++ [p]) wk') as Hw'.
  { split; cbn [wk' w_mine w_mem w_pending w_actual].
    - done.
    - intros p'. destruct (decide (p' = p)) as [->|Hne].
      + rewrite lookup_insert_eq. cbn. by rewrite Et, Hl.
      + rewrite lookup_insert_ne by done. apply (wk_tasks _ _ _ _ Hw).
    - apply Forall_forall. intros p' [_ Hp']%list_elem_of_filter. revert p' Hp'. apply Forall_forall, (wk_pending _ _ _ _ Hw).
    - by rewrite (wk_actual _ _ _ _ Hw). }
  destruct (working_deref _ _ _ _ _ Hw' (wk_pending _ _ _ _ Hw')) as (trs & Ht & _). cbn [wk' w_mem w_pending] in Ht.
  rewrite Ht. cbn [mbind option_bind]. by eexists _, wk'.
Qed.

Lemma poll_rests start now done wk w w' : working ts mine done wk → Client.dequeue base w = (Ok None, w') →
  ∃ printed, pollOnce useColor base start now wk w = Some (printed, None, wk, w').
Proof.
  intros Hw Hd. unfold pollOnce. rewrite Hd.
  destruct (working_deref _ _ _ _ _ Hw (wk_pending _ _ _ _ Hw)) as (trs & -> & _). cbn [mbind option_bind]. by eexists.
Qed.

(** A round that does not end the loop. *)
Lemma loop_goes_on (R : loop_end W → Prop) start deadline tk ticks doneAt out wk w printed wk' w' :
  pollOnce useColor base start (tk_poll tk) wk w = Some (printed, None, wk', w') →
  length (w_actual wk') ≠ size (w_mine wk') → After (tk_check tk) deadline = false →
  R (worker_loop useColor base start deadline ticks doneAt (out ++ printed) wk' w') →
  R (worker_loop useColor base start deadline (tk :: ticks) doneAt out wk w).
Proof.
  intros Hp Hn Hc HR. cbn [worker_loop]. rewrite Hp. rewrite bool_decide_eq_false_2 by done. cbn [andb]. by rewrite Hc.
Qed.

(** When all jobs are processed: the loop lingers until [idleGrace] is over. *)
Lemma loop_all_done (R : loop_end W → Prop) start deadline tk ticks doneAt out wk w printed wk' w' :
  pollOnce useColor base start (tk_poll tk) wk w = Some (printed, None, wk', w') →
  length (w_actual wk') = size (w_mine wk') → After (tk_check tk) deadline = false →
  let doneAt' := if IsZero doneAt then tk_done tk else doneAt in
  R (Returned (out ++ printed) None wk' w') →
  (Sub (tk_idle tk) doneAt' < idleGrace → R (worker_loop useColor base start deadline ticks doneAt' (out ++ printed) wk' w')) →
  R (worker_loop useColor base start deadline (tk :: ticks) doneAt out wk w).
Proof.
  intros Hp Hn Hc doneAt' HR HL. cbn [worker_loop]. rewrite Hp. rewrite bool_decide_eq_true_2 by done. cbn [andb]. fold doneAt'.
  destruct (Z.leb_spec idleGrace (Sub (tk_idle tk) doneAt')); [done|]. rewrite Hc. by apply HL.
Qed.
End rounds.

(** ** Stretches of polls against the service *)

(** A poll: what happens to the server's call, and what the client's clock says. *)
Abbreviation poll := (Env * Tick)%type.
Abbreviation polled p := (e_now (fst p)).

(** The network with the service behind it. *)
Abbreviation world := (list Env * option state)%type.

(** The last reading of the server's clock. *)
Definition until (last : Z) (envs : list Env) : Z := foldl (λ _ env, t_wall (e_now env)) last envs.

Lemma healthy_all_app off last e1 e2 :
  healthy_all off last (e1 ++ e2) ↔ healthy_all off last e1 ∧ healthy_all off (until last e1) e2.
Proof.
  revert last. induction e1 as [|env e1 IH]; intros last; cbn [app healthy_all until foldl]; [tauto|].
  rewrite IH. unfold until. tauto.
Qed.

Lemma until_app last e1 e2 : until last (e1 ++ e2) = until (until last e1) e2.
Proof. unfold until. by rewrite foldl_app. Qed.

Section stretches.
Context (q : string → string) (consoleHTML : bytes) (base : string) (useColor : bool).
Context (off : Z) (mode : QueueMode) (ts : list task) (mine : gmap string jptr) (start deadline : Time).
#[local] Instance served : HttpClient world := net_client q consoleHTML base.
Abbreviation loop := (worker_loop useColor base start deadline).
Abbreviation unhurried := (λ p : poll, After (tk_check (snd p)) deadline = false).

(** Nothing is due: the polls change nothing. *)
Lemma quiet_polls (R : loop_end world → Prop) (ps : list poll) rest renvs doneAt wk done l st last k out :
  working ts mine done wk → length done ≠ size mine → holds off last mode k l st → healthy_all off last ps.*1 →
  Forall (λ p, ∀ x, x ∈ l → Available x (polled p) = false) ps → Forall unhurried ps →
  (∀ out st', holds off (until last ps.*1) mode k l st' → R (loop rest doneAt out wk (renvs, Some st'))) →
  R (loop (ps.*2 ++ rest) doneAt out wk (ps.*1 ++ renvs, Some st)).
Proof.
  intros Hw Hn. revert last st out. induction ps as [|[env tk] ps IH]; intros last st out Hh He Hq Hu HR; [by apply HR|].
  csimpl. cbn [fmap list_fmap fst healthy_all] in He. destruct He as [He Hes].
  apply Forall_cons in Hq as [Hq Hqs]. apply Forall_cons in Hu as [Hu Hus]. cbn [fst snd] in Hq, Hu.
  destruct (holds_dequeue_none off last mode k l st env Hh He (delivery_none _ _ _ Hq)) as (st' & Hd & Hh').
  pose proof (client_dequeue_gets q consoleHTML base env (ps.*1 ++ renvs) st st' None Hd ltac:(done)) as Hc.
  destruct (poll_rests useColor base ts mine start (tk_poll tk) done wk _ _ Hw Hc) as [printed Hp].
  eapply (loop_goes_on useColor base R start deadline tk _ _ _ wk _ printed wk); [exact Hp| |exact Hu|].
  - by rewrite (wk_actual _ _ _ _ Hw), (wk_mine _ _ _ _ Hw).
  - by eapply IH.
Qed.

Lemma takes_poll (p : poll) renvs wk done l l' st last k m ptr :
  working ts mine done wk → holds off last mode k l st → 1 <= k → healthy off last p.1 →
  head (delivery_order mode (polled p) l) = Some m → l ≡ₚ m :: l' → mine !! ID m = Some ptr → (ptr < length ts)%nat →
  ∃ printed wk' st', pollOnce useColor base start (tk_poll p.2) wk (p.1 :: renvs, Some st) = Some (printed, None, wk', (renvs, Some st'))
    ∧ working ts mine (done ++ [ptr]) wk' ∧ holds off (t_wall (polled p)) mode k l' st'.
Proof.
  intros Hw Hh Hk He Hm Hl Hid Hlt.
  destruct (holds_dequeue_some off last mode k l l' st p.1 m Hh Hk He Hm Hl) as (st' & Hd & Hh' & Hst).
  pose proof (client_dequeue_gets q consoleHTML base p.1 renvs st st' (Some m) Hd ltac:(intros ? [= <-]; apply Hst)) as Hc.
  destruct (poll_takes useColor base ts mine start (tk_poll p.2) done wk _ _ (wire_message m) ptr Hw Hc) as (printed & wk' & Hp & Hw').
  - by rewrite ServiceFacts.wire_ID.
  - done.
  - by exists printed, wk', st'.
Qed.

(** A job is handed out, and more remain. *)
Lemma taken (R : loop_end world → Prop) (p : poll) rest renvs doneAt wk done l l' st last k m ptr out :
  working ts mine done wk → holds off last mode k l st → 1 <= k → healthy off last p.1 →
  head (delivery_order mode (polled p) l) = Some m → l ≡ₚ m :: l' → mine !! ID m = Some ptr → (ptr < length ts)%nat →
  S (length done) ≠ size mine → unhurried p →
  (∀ out wk' st', working ts mine (done ++ [ptr]) wk' → holds off (t_wall (polled p)) mode k l' st' →
    R (loop rest doneAt out wk' (renvs, Some st'))) →
  R (loop (p.2 :: rest) doneAt out wk (p.1 :: renvs, Some st)).
Proof.
  intros Hw Hh Hk He Hm Hl Hid Hlt Hn Hu HR.
  destruct (takes_poll p renvs wk done l l' st last k m ptr Hw Hh Hk He Hm Hl Hid Hlt) as (printed & wk' & st' & Hp & Hw' & Hh').
  eapply (loop_goes_on useColor base R start deadline p.2 _ _ _ wk _ printed wk'); [exact Hp| |exact Hu|by apply HR].
  rewrite (wk_actual _ _ _ _ Hw'), (wk_mine _ _ _ _ Hw'), length_app. cbn [length]. lia.
Qed.

(** The loop has returned without an error, with all jobs processed in the order
    [done] and nothing left in the queue. *)
Definition finished (done : list jptr) (r : loop_end world) : Prop :=
  ∃ out wk' envs st', r = Returned out None wk' (envs, Some st') ∧ working ts mine done wk' ∧ held st'.1 = [].

Lemma lingers (ps : list poll) renvs doneAt wk done st last k out :
  working ts mine done wk → length done = size mine → holds off last mode k [] st → healthy_all off last ps.*1 →
  Forall unhurried ps → IsZero doneAt = false → Exists (λ p, idleGrace <= Sub (tk_idle p.2) doneAt) ps →
  finished done (loop ps.*2 doneAt out wk (ps.*1 ++ renvs, Some st)).
Proof.
  intros Hw Hn Hh He Hu Hz Hex. revert last st out Hh He. induction ps as [|[env tk] ps IH]; intros last st out Hh He; [by apply Exists_nil in Hex|].
  csimpl. cbn [fmap list_fmap fst healthy_all] in He. destruct He as [He Hes]. apply Forall_cons in Hu as [Hu Hus].
  destruct (holds_dequeue_none off last mode k [] st env Hh He eq_refl) as (st' & Hd & Hh').
  pose proof (client_dequeue_gets q consoleHTML base env (ps.*1 ++ renvs) st st' None Hd ltac:(done)) as Hc.
  destruct (poll_rests useColor base ts mine start (tk_poll tk) done wk _ _ Hw Hc) as [printed Hp].
  eapply (loop_all_done useColor base (finished done) start deadline tk _ doneAt _ wk _ printed wk); [exact Hp| |exact Hu| |]; rewrite ?Hz.
  - by rewrite (wk_actual _ _ _ _ Hw), (wk_mine _ _ _ _ Hw).
  - eexists _, _, _, _. split_and!; [reflexivity|exact Hw|]. apply Permutation_nil_r, (hd_held _ _ _ _ _ _ Hh').
  - intros Hlt. apply Exists_cons in Hex as [Hex|Hex]; [cbn [snd] in Hex; lia|]. by eapply IH.
Qed.

(** The last job is handed out. *)
Lemma taken_last (p : poll) (ps : list poll) renvs wk done st last k m ptr out :
  working ts mine done wk → holds off last mode k [m] st → 1 <= k → healthy_all off last (p :: ps).*1 →
  Available m (polled p) = true → mine !! ID m = Some ptr → (ptr < length ts)%nat →
  S (length done) = size mine → Forall unhurried (p :: ps) →
  IsZero (tk_done p.2) = false → Exists (λ p', idleGrace <= Sub (tk_idle p'.2) (tk_done p.2)) ps →
  finished (done ++ [ptr]) (loop (p :: ps).*2 zero_time out wk ((p :: ps).*1 ++ renvs, Some st)).
Proof.
  intros Hw Hh Hk [He Hes] Hm Hid Hlt Hn Hu Hz Hex. apply Forall_cons in Hu as [Hu Hus].
  destruct (takes_poll p (ps.*1 ++ renvs) wk done [m] [] st last k m ptr Hw Hh Hk He) as (printed & wk' & st' & Hp & Hw' & Hh');
    [apply delivery_head; [by left|done|by intros x ->%list_elem_of_singleton; left]|done..|].
  csimpl. eapply (loop_all_done useColor base (finished _) start deadline p.2 _ zero_time _ wk _ printed wk'); [exact Hp| |exact Hu| |].
  - rewrite (wk_actual _ _ _ _ Hw'), (wk_mine _ _ _ _ Hw'), length_app. cbn [length]. lia.
  - eexists _, _, _, _. split_and!; [reflexivity|exact Hw'|]. apply Permutation_nil_r, (hd_held _ _ _ _ _ _ Hh').
  - intros _. change (IsZero zero_time) with true. cbn iota. eapply lingers; [exact Hw'| |exact Hh'|exact Hes|exact Hus|exact Hz|exact Hex].
    rewrite length_app. cbn [length]. lia.
Qed.
End stretches.

(** ** The burst *)

(** A job of the burst: its task, what happens to the call that enqueues it, and
    the ID it gets. *)
Record posting := MkPosting { pt_task : task; pt_env : Env; pt_id : string }.

Record posting_ok (j : posting) : Prop := {
  pk_wire : wire_request (task_request (pt_task j)) = task_request (pt_task j);
  pk_size : (length (compact (enc_request (task_request (pt_task j)))) <= body_limit)%nat;
  pk_valid : Validate (task_request (pt_task j)) = None;
  pk_fits : fits (task_request (pt_task j));
  pk_id : ∃ b, e_random (pt_env j) = Ok b ∧ random_block b ∧ newUUID (Ok b) = Ok (pt_id j)
}.

(** The message a job became, with the number [n]. *)
Record job_message (off n : Z) (j : posting) (m : Message) : Prop := {
  jm_id : ID m = pt_id j;
  jm_seq : Seq m = n;
  jm_priority : Priority m = t_Priority (pt_task j);
  jm_storable : storable m;
  jm_coherent : coherent off (AvailableAt m);
  jm_available : t_wall (AvailableAt m) = t_wall (e_now (pt_env j)) + t_DelaySeconds (pt_task j) * Second
}.

Fixpoint job_messages (off n : Z) (js : list posting) (ms : list Message) : Prop :=
  match js, ms with
  | [], [] => True
  | j :: js, m :: ms => job_message off n j m ∧ job_messages off (n + 1) js ms
  | _, _ => False
  end.

(** The worker after the burst. *)
Fixpoint hire (p : jptr) (jobs : list (task * Message)) (wk : Worker) : Worker :=
  match jobs with
  | [] => wk
  | (t, m) :: jobs =>
      hire (S p) jobs (MkWorker (<[p := MkTracked t m]> (w_mem wk)) (<[ID m := p]> (w_mine wk)) (w_pending wk ++ [p]) (w_actual wk))
  end.

Section burst.
Context (q : string → string) (consoleHTML : bytes) (base : string) (useColor : bool) (off : Z) (mode : QueueMode).
#[local] Instance burst_client : HttpClient world := net_client q consoleHTML base.

Lemma burst_posts js : ∀ p wk renvs last k l st,
  Forall posting_ok js → NoDup (pt_id <$> js) → (∀ j, j ∈ js → pt_id j ∉ ID <$> l) → 0 <= k →
  holds off last mode (k + Z.of_nat (length js)) l st → healthy_all off last (pt_env <$> js) →
  ∃ out ms st', burst useColor base (pt_task <$> js) p wk ((pt_env <$> js) ++ renvs, Some st) =
      (out, None, hire p (zip (pt_task <$> js) (wire_message <$> ms)) wk, (renvs, Some st'))
    ∧ job_messages off (s_seq st.1 + 1) js ms
    ∧ holds off (until last (pt_env <$> js)) mode k (rev ms ++ l) st'.
Proof.
  induction js as [|j js IH]; intros p wk renvs last k l st Hok Hids Hfresh Hk Hh He.
  { exists [], [], st. cbn. split_and!; [done|done|]. cbn [length] in Hh. by rewrite Z.add_0_r in Hh. }
  apply Forall_cons in Hok as [[Hw Hsz Hv Hfit (b & Hr & Hb & Hid)] Hoks]. csimpl in Hids. apply NoDup_cons in Hids as [Hj Hids].
  csimpl. cbn [fmap list_fmap healthy_all] in He. destruct He as [He Hes].
  replace (k + Z.of_nat (length (j :: js))) with (k + Z.of_nat (length js) + 1) in Hh by (cbn [length]; lia).
  destruct (holds_enqueue off last mode _ l st (pt_env j) (task_request (pt_task j)) b (pt_id j) Hh ltac:(lia) He Hr Hb Hid)
    as (st1 & Hq & Hh1 & Hsq & Hst & Hcoh & Hav); [apply Hfresh; by left|done|done|].
  set (m := new_message _ _ _ _) in *.
  assert (in_i64 (r_DelaySeconds (task_request (pt_task j)))) as Hds
    by (apply Validate_None in Hv as [_ Hv]; unfold MaxDelaySeconds in Hv; unfold in_i64; lia).
  assert (Client.enqueue base (task_request (pt_task j)) (pt_env j :: (pt_env <$> js) ++ renvs, Some st) =
    (Ok (wire_message m), ((pt_env <$> js) ++ renvs, Some st1))) as Hc
    by (apply client_enqueue_gets; [done|done|apply Hfit|done|done|done|apply Hst]).
  edestruct (IH (S p)) as (out & ms & st' & Hburst & Hms & Hh'); [exact Hoks|exact Hids| |exact Hk|exact Hh1|exact Hes|].
  { intros j' Hj'. csimpl. rewrite not_elem_of_cons. split; [|apply Hfresh; by right].
    cbn [m new_message ID]. intros E. apply Hj. rewrite <- E. by apply list_elem_of_fmap_2. }
  eexists _, (m :: ms), st'. split; [cbn [burst]; rewrite Hc, Hburst; reflexivity|split].
  - rewrite Hsq in Hms. split; [by split|exact Hms].
  - cbn [rev]. rewrite <- app_assoc. exact Hh'.
Qed.
End burst.
