(* ===== verification/CheckoutTheorems.v ===== *)
(** * The whole program: the checkout run

    The client of [Client] with its five jobs, over HTTP against the server of
    [Api] on the service and the log of [Service] and [Wal]: when the clocks of
    both sides meet a timetable, the run ends with PASS, in both modes. *)

From S2P Require Import Prelude GoTime GoHeap GoSort GoStrconv GoUtf8 GoJson GoJsonFacts GoTimeFormat Model Codec CodecFacts LogRecord.
From S2P Require Import Engine EngineHeap EngineSpec EngineRefine EngineTheorems RecordSize.
From S2P Require Wal WalFacts WalTheorems Service ServiceFacts ServiceTrace ServiceTheorems.
From S2P Require Import GoJsonStream GoHttp Api ApiLaws ApiTheorems GoFmt Client ClientFacts ClientTheorems CheckoutFacts.
From Stdlib Require Import Ascii.

Import Service (QueueService, s_seq, s_queue, newUUID).
Import ServiceFacts (held, storable, delivery_order, msg_less, msg_key).
Import ServiceTrace (random_block, c_svc, c_file).

Local Open Scope Z_scope.

(** ** The order of the jobs *)

(** Where the jobs of [script] stand in the order in which they are handed out:
    the captures, the receipt, the inventory webhook, the Stripe webhook. *)
Definition order_of (mode : QueueMode) : list jptr :=
  if decide (mode = ModeLIFO) then [3; 1; 0; 4; 2]%nat else [1; 3; 0; 4; 2]%nat.

Definition labels_of (ps : list jptr) : list string := omap (λ p, t_Label <$> script !! p) ps.

(** The summary of a run that passes. *)
Definition passed_rows (mode : QueueMode) : list (Z * string * string * string) :=
  imap (λ i l, let cell := l +:+ "  " +:+ payloadForLabel script l in (Z.of_nat i + 1, cell, cell, "ok"))
    (labels_of (order_of mode)).

Example order_fifo : labels_of (order_of ModeFIFO) = ["B"; "D"; "A"; "E"; "C"].
Proof. reflexivity. Qed.
Example order_lifo : labels_of (order_of ModeLIFO) = ["D"; "B"; "A"; "E"; "C"].
Proof. reflexivity. Qed.

#[local] Instance holds_proper off last mode k : Proper ((≡ₚ) ==> (=) ==> iff) (holds off last mode k).
Proof.
  assert (∀ l l' st, l ≡ₚ l' → holds off last mode k l st → holds off last mode k l' st) as Hperm.
  { intros l l' st Hp [Hg Hm Hh Hi Hs Ho Hc]. split; rewrite <- ?Hp; done. }
  intros l l' Hp st _ <-. split; apply Hperm; [done|by symmetry].
Qed.

(** The labels the client predicts for items with jobs. *)
Lemma predicted_labels mine wk done items ps : working script mine done wk →
  Forall2 (λ it p, mine !! si_id it = Some p ∧ (p < length script)%nat) items ps →
  omap (λ it, (λ tr, tr_Label tr) <$> job (w_mem wk) mine (si_id it)) items = labels_of ps.
Proof.
  intros Hw Hps. unfold labels_of. induction Hps as [|it p items ps [Hm Hlt] _ IH]; [done|]. csimpl.
  pose proof (wk_tasks _ _ _ _ Hw p) as Hl. destruct (lookup_lt_is_Some_2 script p Hlt) as [t Et]. rewrite Et in *.
  unfold job at 1. rewrite Hm. destruct (w_mem wk !! p) as [tr|]; [|done]. injection Hl as <-. cbn. by f_equal.
Qed.

(** What is printed and decided about jobs received in this order. *)
Lemma summary_passes useColor mode mine wk : Valid mode = true → working script mine (order_of mode) wk →
  ∃ actual verdict, deref (w_mem wk) (w_actual wk) = Some actual
    ∧ printSummary useColor (labels_of (order_of mode)) actual script = (passed_rows mode, verdict)
    ∧ orderMatches (labels_of (order_of mode)) actual = true.
Proof.
  intros Hmode Hw. rewrite (wk_actual _ _ _ _ Hw).
  destruct (working_deref _ _ _ _ (order_of mode) Hw) as (actual & -> & Ht).
  { apply Valid_iff in Hmode as [-> | ->]; apply (bool_decide_unpack _); by vm_compute. }
  apply Valid_iff in Hmode as [-> | ->]; cbn in Ht;
    (do 6 (destruct actual as [|[? ?] actual]; try discriminate Ht)); injection Ht; intros; subst;
    (eexists _, _; split; [reflexivity|]; split; vm_compute; reflexivity).
Qed.

(** ** Five messages

    [m1], [m2] and [m3] are due and are delivered in this order; [n1] and [n2]
    mature, in this order. *)

Section five.
Context (off : Z) (mode : QueueMode) (m1 m2 m3 n1 n2 : Message).
Abbreviation five := [m1; m2; m3; n1; n2].
Abbreviation due m := (t_wall (AvailableAt m)).
Hypothesis Hcoh : Forall (λ m, coherent off (AvailableAt m)) five.
Hypothesis Hless : msg_less mode m1 m2 = true ∧ msg_less mode m1 m3 = true ∧ msg_less mode m2 m3 = true.

Lemma five_available m t : m ∈ five → coherent off t → Available m t = (due m <=? t_wall t).
Proof. intros Hm Ht. apply (Available_coherent off); [|done]. rewrite Forall_forall in Hcoh. by apply Hcoh. Qed.

Lemma in_five l m : l `suffix_of` five → m ∈ l → m ∈ five.
Proof. intros [k ->] Hm. by apply elem_of_app; right. Qed.

Lemma five_ready t : coherent off t → Forall (λ m, due m <= t_wall t) [m1; m2; m3] → Forall (λ m, t_wall t < due m) [n1; n2] →
  delivery_order mode t five = [m1; m2; m3] ∧ filter (λ m, Available m t = false) five = [n1; n2].
Proof.
  intros Ht Hr Hd. rewrite Forall_forall in Hr, Hd.
  assert (∀ m, m ∈ [m1; m2; m3] → Available m t = true) as Ar.
  { intros m Hm. rewrite five_available; [apply Z.leb_le, (Hr m Hm)| |done]. change five with ([m1; m2; m3] ++ [n1; n2]). by apply elem_of_app; left. }
  assert (∀ m, m ∈ [n1; n2] → Available m t = false) as Ad.
  { intros m Hm. rewrite five_available; [apply Z.leb_gt, (Hd m Hm)|by apply (in_five [n1; n2]); [exists [m1; m2; m3]|]|done]. }
  assert (Available m1 t = true ∧ Available m2 t = true ∧ Available m3 t = true ∧ Available n1 t = false ∧ Available n2 t = false)
    as (E1 & E2 & E3 & E4 & E5) by (split_and!; first [apply Ar | apply Ad]; set_solver).
  split; [|by rewrite !filter_cons, E1, E2, E3, E4, E5].
  unfold delivery_order. rewrite !filter_cons, E1, E2, E3, E4, E5. cbn [decide].
  apply (sorted_is_sort _ _ _ (msg_weak_order mode)); [|done]. repeat constructor; apply Hless.
Qed.

Lemma five_head m rest t : (m :: rest) `suffix_of` five → coherent off t → due m <= t_wall t →
  Forall (λ x, t_wall t < due x ∨ msg_less mode m x = true) rest → head (delivery_order mode t (m :: rest)) = Some m.
Proof.
  intros Hs Ht Hm Hrest. rewrite Forall_forall in Hrest. apply delivery_head; [by left| |].
  - rewrite five_available; [by apply Z.leb_le|by apply (in_five (m :: rest)); [|left]|done].
  - intros x Hx. rewrite five_available by (by eapply in_five || done). intros Hd%Z.leb_le.
    apply elem_of_cons in Hx as [->|Hx]; [by left|right]. destruct (Hrest x Hx); [lia|done].
Qed.

Lemma five_quiet l t : l `suffix_of` five → coherent off t → Forall (λ x, t_wall t < due x) l → ∀ x, x ∈ l → Available x t = false.
Proof.
  intros Hs Ht Hl x Hx. rewrite Forall_forall in Hl. rewrite five_available by (by eapply in_five || done). by apply Z.leb_gt, Hl.
Qed.

(** The snapshot after the burst, and the drain the client makes of it. *)
Lemma five_simulated v t : coherent off t → - 2 ^ 80 < t_wall t → due n2 < 2 ^ 80 →
  Forall (λ m, due m <= t_wall t) [m1; m2; m3] → t_wall t + 3 * pollInterval < due n1 → due n1 < due n2 →
  Valid mode = true → sn_Mode v = mode → t_wall (sn_Now v) = t_wall t →
  sn_Ready v = delivery_order mode t five → sn_Delayed v ≡ₚ filter (λ m, Available m t = false) five →
  simulateDrain (wire_snapshot v) = Some (seen_message <$> five).
Proof.
  intros Ht Hlo Hhi Hr Hl Hn Hmode Hm Hnow Hready Hdelayed.
  destruct (five_ready t Ht Hr) as [E1 E2]; [repeat constructor; unfold pollInterval, Millisecond in *; lia|].
  rewrite E1 in Hready. rewrite E2 in Hdelayed.
  assert (∀ a b, lessFor (sn_Mode (wire_snapshot v)) (sim_item (wire_message a)) (sim_item (wire_message b)) = msg_less mode a b) as Hlf.
  { intros a b. cbn [wire_snapshot sn_Mode]. rewrite Hm, valid_mode by done. by rewrite lessFor_key. }
  change (seen_message <$> five) with (sim_item <$> [wire_message m1; wire_message m2; wire_message m3; wire_message n1; wire_message n2]).
  apply simulate_five; rewrite ?Hlf; try apply Hless.
  - cbn [wire_snapshot sn_Ready]. by rewrite Hready.
  - cbn [wire_snapshot sn_Delayed]. by rewrite Hdelayed.
  - done.
  - cbn [wire_snapshot sn_Now wall_time t_wall wire_message AvailableAt]. by rewrite Hnow.
  - cbn [wire_snapshot sn_Now wall_time t_wall wire_message AvailableAt]. by rewrite Hnow.
  - exact Hn.
Qed.

(** The worker: three polls, polls that find nothing until [n1] is due, its poll,
    the same for [n2], and polls until it stops. *)
Section polls.
Context (q : string → string) (consoleHTML : bytes) (base : string) (useColor : bool) (mine : gmap string jptr)
  (start deadline : Time) (ptrs : list jptr) (r1 r2 r3 r4 r5 : jptr).
#[local] Instance polls_client : HttpClient world := net_client q consoleHTML base.
Hypothesis Hmine : Forall2 (λ m p, mine !! ID m = Some p ∧ (p < length script)%nat) five [r1; r2; r3; r4; r5].
Hypothesis Hsize : size mine = 5%nat.

Abbreviation loop := (worker_loop useColor base start deadline).
Abbreviation unhurried := (λ p : poll, After (tk_check (snd p)) deadline = false).

Lemma five_job m p : (m, p) ∈ zip five [r1; r2; r3; r4; r5] → mine !! ID m = Some p ∧ (p < length script)%nat.
Proof.
  clear Hsize. revert Hmine. generalize five [r1; r2; r3; r4; r5]. intros l k Hl.
  induction Hl as [|? ? ? ? Hx _ IH]; [by intros ?%elem_of_nil|]. cbn [zip zip_with].
  intros [[= -> ->]|Hin]%elem_of_cons; [exact Hx|by apply IH].
Qed.

Lemma quiet_stretch (ps : list poll) last l : healthy_all off last ps.*1 → l `suffix_of` five →
  Forall (λ p, Forall (λ x, t_wall (polled p) < due x) l) ps → Forall (λ p, ∀ x, x ∈ l → Available x (polled p) = false) ps.
Proof.
  intros He Hs Hq. revert last He. induction Hq as [|p ps Hp _ IH]; intros last; [done|]. intros [[Hc _ _ _] He].
  constructor; [by apply five_quiet|by eapply IH].
Qed.

Lemma first_polls (R : loop_end world → Prop) (p1 p2 p3 : poll) rest envs wk last k st out :
  working script mine [] wk → holds off last mode k five st → 1 <= k → healthy_all off last (p1.1 :: p2.1 :: p3.1 :: envs) →
  Forall (λ m, due m <= last) [m1; m2; m3] →
  Forall (λ p, t_wall (polled p) < due n1 ∧ t_wall (polled p) < due n2) [p1; p2; p3] → Forall unhurried [p1; p2; p3] →
  (∀ out wk' st', working script mine [r1; r2; r3] wk' → holds off (t_wall (polled p3)) mode k [n1; n2] st' →
    R (loop rest zero_time out wk' (envs, Some st'))) →
  R (loop (p1.2 :: p2.2 :: p3.2 :: rest) zero_time out wk (p1.1 :: p2.1 :: p3.1 :: envs, Some st)).
Proof.
  intros Hw Hh Hk (E1 & E2 & E3 & _) Hdue Hlate Hu HR. rewrite !Forall_cons in Hdue. rewrite !Forall_cons in Hlate. rewrite !Forall_cons in Hu.
  destruct Hdue as (W1 & W2 & W3 & _), Hu as (U1 & U2 & U3 & _), Hless as (L12 & L13 & L23).
  destruct Hlate as ((A1 & B1) & (A2 & B2) & (A3 & B3) & _).
  pose proof (hl_forward _ _ _ E1) as F1. pose proof (hl_forward _ _ _ E2) as F2. pose proof (hl_forward _ _ _ E3) as F3.
  destruct (five_job m1 r1) as [J1 I1]; [set_solver|]. destruct (five_job m2 r2) as [J2 I2]; [set_solver|].
  destruct (five_job m3 r3) as [J3 I3]; [set_solver|].
  eapply (taken q consoleHTML base useColor off mode script mine start deadline R p1 _ _ _ _ [] _ [m2; m3; n1; n2]);
    [exact Hw|exact Hh|exact Hk|exact E1|apply five_head; [done|apply E1|lia|]|done|exact J1|exact I1|cbn [length]; lia|exact U1|].
  { rewrite !Forall_cons. split_and!; auto. }
  clear Hw Hh. intros out1 wk1 st1 Hw Hh.
  eapply (taken q consoleHTML base useColor off mode script mine start deadline R p2 _ _ _ _ [r1] _ [m3; n1; n2]);
    [exact Hw|exact Hh|exact Hk|exact E2|apply five_head; [by exists [m1]|apply E2|lia|]|done|exact J2|exact I2|cbn [length]; lia|exact U2|].
  { rewrite !Forall_cons. split_and!; auto. }
  clear Hw Hh. intros out2 wk2 st2 Hw Hh.
  eapply (taken q consoleHTML base useColor off mode script mine start deadline R p3 _ _ _ _ [r1; r2] _ [n1; n2]);
    [exact Hw|exact Hh|exact Hk|exact E3|apply five_head; [by exists [m1; m2]|apply E3|lia|]|done|exact J3|exact I3|cbn [length]; lia|exact U3|exact HR].
  rewrite !Forall_cons. split_and!; auto.
Qed.

Lemma last_polls (idle1 : list poll) (p4 : poll) (idle2 : list poll) (p5 : poll) (late : list poll) renvs wk last k st out :
  let polls := idle1 ++ p4 :: idle2 ++ p5 :: late in
  working script mine [r1; r2; r3] wk → holds off last mode k [n1; n2] st → 1 <= k → healthy_all off last polls.*1 →
  Forall (λ p, t_wall (polled p) < due n1) idle1 → due n1 <= t_wall (polled p4) → due n1 < due n2 →
  Forall (λ p, t_wall (polled p) < due n2) (p4 :: idle2) → due n2 <= t_wall (polled p5) → Forall unhurried polls →
  IsZero (tk_done p5.2) = false → Exists (λ p, idleGrace <= Sub (tk_idle p.2) (tk_done p5.2)) late →
  finished script mine [r1; r2; r3; r4; r5] (loop polls.*2 zero_time out wk (polls.*1 ++ renvs, Some st)).
Proof.
  cbn zeta. intros Hw Hh Hk He Q1 D1 Hn Q2 D2 Hu Hz Hex. apply Forall_cons in Q2 as [Q4 Q2].
  apply Forall_app in Hu as [U1 [U4 [U2 U5]%Forall_app]%Forall_cons].
  rewrite !fmap_app in *. csimpl in He. csimpl. rewrite !fmap_app in *. apply healthy_all_app in He as [Ei1 [E4 [Ei2 E5]%healthy_all_app]].
  destruct (five_job n1 r4) as [J4 I4]; [set_solver|]. destruct (five_job n2 r5) as [J5 I5]; [set_solver|].
  rewrite <- (app_assoc idle1.*1). eapply (quiet_polls q consoleHTML base useColor off mode script mine start deadline _ idle1);
    [exact Hw|by rewrite Hsize|exact Hh|exact Ei1| |exact U1|].
  { eapply quiet_stretch; [exact Ei1|by exists [m1; m2; m3]|]. eapply Forall_impl; [exact Q1|]. intros p Hp. repeat constructor; cbn in Hp |- *; lia. }
  clear Hh. intros out1 st1 Hh.
  eapply (taken q consoleHTML base useColor off mode script mine start deadline _ p4 _ _ _ _ [r1; r2; r3] _ [n2]);
    [exact Hw|exact Hh|exact Hk|exact E4|apply five_head; [by exists [m1; m2; m3]|apply E4|lia|]|done|exact J4|exact I4|cbn [length]; lia|exact U4|].
  { apply Forall_singleton. left. exact Q4. }
  clear Hw Hh. intros out2 wk2 st2 Hw Hh. rewrite <- (app_assoc idle2.*1).
  eapply (quiet_polls q consoleHTML base useColor off mode script mine start deadline _ idle2);
    [exact Hw|by rewrite Hsize|exact Hh|exact Ei2| |exact U2|].
  { eapply quiet_stretch; [exact Ei2|by exists [m1; m2; m3; n1]|]. eapply Forall_impl; [exact Q2|]. intros p Hp. by repeat constructor. }
  clear Hh. intros out3 st3 Hh.
  eapply (taken_last q consoleHTML base useColor off mode script mine start deadline p5 late renvs wk2 [r1; r2; r3; r4] st3 _ k n2 r5 out3);
    [exact Hw|exact Hh|exact Hk|exact E5| |exact J5|exact I5|by rewrite Hsize|exact U5|exact Hz|exact Hex].
  rewrite five_available; [by apply Z.leb_le|by apply (in_five [n2]); [exists [m1; m2; m3; n1]|left]|apply E5].
Qed.
End polls.
End five.

(** ** The timetable of a run *)

Record Timetable := MkTimetable {
  tt_before : Env;                       (** the first snapshot *)
  tt_A : posting; tt_B : posting; tt_C : posting; tt_D : posting; tt_E : posting;
  tt_after : Env;                        (** the snapshot of the prediction *)
  tt_p1 : poll; tt_p2 : poll; tt_p3 : poll;
  tt_wait1 : list poll;
  tt_p4 : poll;                          (** finds the inventory webhook *)
  tt_wait2 : list poll;
  tt_p5 : poll;                          (** finds the Stripe webhook *)
  tt_late : list poll
}.

Definition tt_jobs (tt : Timetable) : list posting := [tt_A tt; tt_B tt; tt_C tt; tt_D tt; tt_E tt].
Definition tt_rest (tt : Timetable) : list poll := tt_wait1 tt ++ tt_p4 tt :: tt_wait2 tt ++ tt_p5 tt :: tt_late tt.
Definition tt_polls (tt : Timetable) : list poll := tt_p1 tt :: tt_p2 tt :: tt_p3 tt :: tt_rest tt.
Definition tt_envs (tt : Timetable) : list Env :=
  tt_before tt :: (pt_env <$> tt_jobs tt) ++ tt_after tt :: (tt_polls tt).*1.

(** When the message of a job becomes available. *)
Definition matures (j : posting) : Z := t_wall (e_now (pt_env j)) + t_DelaySeconds (pt_task j) * Second.

(** The burst takes less than four seconds and the prediction is made at least
    one and a half before the inventory webhook is due; the worker polls three
    times before that, then at least once before the Stripe webhook is due, and
    again after; on its own clock it is done before its deadline. *)
Record on_time (off last : Z) (before_loop : Time) (tt : Timetable) : Prop := {
  ot_healthy : healthy_all off last (tt_envs tt);
  ot_script : pt_task <$> tt_jobs tt = script;
  ot_ids : Forall (λ j, ∃ b, e_random (pt_env j) = Ok b ∧ random_block b ∧ newUUID (Ok b) = Ok (pt_id j)) (tt_jobs tt);
  ot_distinct : NoDup (pt_id <$> tt_jobs tt);
  ot_burst : matures (tt_E tt) < matures (tt_C tt);
  ot_prediction : t_wall (e_now (tt_after tt)) + 3 * pollInterval < matures (tt_E tt);
  ot_first : Forall (λ p, t_wall (polled p) < matures (tt_E tt)) ([tt_p1 tt; tt_p2 tt; tt_p3 tt] ++ tt_wait1 tt);
  ot_inventory : matures (tt_E tt) <= t_wall (polled (tt_p4 tt));
  ot_second : Forall (λ p, t_wall (polled p) < matures (tt_C tt)) (tt_p4 tt :: tt_wait2 tt);
  ot_stripe : matures (tt_C tt) <= t_wall (polled (tt_p5 tt));
  ot_deadline : Forall (λ p : poll, After (tk_check p.2) (Add before_loop (38 * Second)) = false) (tt_polls tt);
  ot_done : IsZero (tk_done (tt_p5 tt).2) = false;
  ot_idle : Exists (λ p : poll, idleGrace <= Sub (tk_idle p.2) (tk_done (tt_p5 tt).2)) (tt_late tt)
}.

(** The tasks of the script become requests the server accepts. *)
Lemma script_postings js : pt_task <$> js = script →
  Forall (λ j, ∃ b, e_random (pt_env j) = Ok b ∧ random_block b ∧ newUUID (Ok b) = Ok (pt_id j)) js → Forall posting_ok js.
Proof.
  intros Hs Hids. assert (Forall (λ j, pt_task j ∈ script) js) as Hin.
  { apply Forall_forall. intros j Hj. rewrite <- Hs. by apply list_elem_of_fmap_2. }
  assert (∀ t, t ∈ script → wire_request (task_request t) = task_request t ∧ (length (compact (enc_request (task_request t))) <= body_limit)%nat
    ∧ Validate (task_request t) = None ∧ fits (task_request t)) as Hok.
  { intros t Ht. repeat (apply elem_of_cons in Ht as [->|Ht]; [split_and!; [by vm_compute|apply Nat.leb_le; by vm_compute|by vm_compute
      |split; [apply Z.leb_le; by vm_compute|apply (bool_decide_unpack (_ ∧ _)); by vm_compute]]|]). by apply elem_of_nil in Ht. }
  apply Forall_forall. intros j Hj. rewrite Forall_forall in Hin, Hids. destruct (Hok _ (Hin j Hj)) as (H1 & H2 & H3 & H4).
  split; [done..|by apply Hids].
Qed.

(** The messages of the jobs, and the worker after the burst. *)
Lemma hired_worker (tt : Timetable) off n ms : pt_task <$> tt_jobs tt = script → NoDup (pt_id <$> tt_jobs tt) →
  job_messages off n (tt_jobs tt) ms →
  ∃ mA mB mC mD mE, ms = [mA; mB; mC; mD; mE]
    ∧ job_message off n (tt_A tt) mA ∧ job_message off (n + 1) (tt_B tt) mB ∧ job_message off (n + 1 + 1) (tt_C tt) mC
    ∧ job_message off (n + 1 + 1 + 1) (tt_D tt) mD ∧ job_message off (n + 1 + 1 + 1 + 1) (tt_E tt) mE
    ∧ let wk := hire 0 (zip script (wire_message <$> ms)) (MkWorker ∅ ∅ [] []) in
      working script (w_mine wk) [] wk ∧ size (w_mine wk) = 5%nat
      ∧ Forall2 (λ m p, w_mine wk !! ID m = Some p ∧ ID (wire_message m) = ID m) ms [0; 1; 2; 3; 4]%nat.
Proof.
  intros Hs Hnd Hms. unfold tt_jobs in *. destruct ms as [|mA [|mB [|mC [|mD [|mE [|]]]]]]; cbn in Hms; try tauto.
  destruct Hms as (HA & HB & HC & HD & HE & _). exists mA, mB, mC, mD, mE. do 6 (split; [done|]). cbn zeta.
  assert (∀ n j m, job_message off n j m → ID (wire_message m) = pt_id j ∧ ID m = pt_id j) as Hid.
  { intros k j m [Hi _ _ Hst _ _]. by rewrite ServiceFacts.wire_ID. }
  destruct (Hid _ _ _ HA) as [WA IA], (Hid _ _ _ HB) as [WB IB], (Hid _ _ _ HC) as [WC IC], (Hid _ _ _ HD) as [WD ID'], (Hid _ _ _ HE) as [WE IE].
  csimpl in Hnd. rewrite !NoDup_cons, !not_elem_of_cons in Hnd. destruct Hnd as ((? & ? & ? & ? & _) & (? & ? & ? & _) & (? & ? & _) & (? & _) & _).
  unfold script. cbn [zip zip_with fmap list_fmap hire w_mem w_mine w_pending w_actual]. rewrite WA, WB, WC, WD, WE.
  split_and!.
  - split; cbn [w_mine w_mem w_pending w_actual]; [done| | |done].
    + intros [|[|[|[|[|p]]]]]; try (by rewrite !lookup_insert_ne by done); rewrite ?lookup_insert_ne by done; by rewrite lookup_insert_eq.
    + by apply (bool_decide_unpack _).
  - rewrite !map_size_insert_None; [done|..]; by rewrite ?lookup_insert_ne by done.
  - rewrite !Forall2_cons. rewrite WA, WB, WC, WD, WE, IA, IB, IC, ID', IE. split_and!; try done; rewrite ?lookup_insert_ne by done; by rewrite lookup_insert_eq.
Qed.

(** The messages in the order in which they are handed out. *)
Lemma delivered_messages mode off n tt mA mB mC mD mE (P : Message → jptr → Prop) : Valid mode = true →
  pt_task <$> tt_jobs tt = script →
  job_message off n (tt_A tt) mA → job_message off (n + 1) (tt_B tt) mB → job_message off (n + 1 + 1) (tt_C tt) mC →
  job_message off (n + 1 + 1 + 1) (tt_D tt) mD → job_message off (n + 1 + 1 + 1 + 1) (tt_E tt) mE →
  Forall2 P [mA; mB; mC; mD; mE] [0; 1; 2; 3; 4]%nat →
  ∃ m1 m2 r1 r2, order_of mode = [r1; r2; 0; 4; 2]%nat ∧ [mE; mD; mC; mB; mA] ≡ₚ [m1; m2; mA; mE; mC]
    ∧ msg_less mode m1 m2 = true ∧ msg_less mode m1 mA = true ∧ msg_less mode m2 mA = true
    ∧ Forall2 (λ m p, P m p ∧ (p < length script)%nat) [m1; m2; mA; mE; mC] [r1; r2; 0; 4; 2]%nat
    ∧ Forall (λ m, coherent off (AvailableAt m)) [m1; m2; mA; mE; mC]
    ∧ Forall (λ m, t_wall (AvailableAt m) = t_wall (e_now (pt_env (tt_A tt)))
        ∨ t_wall (AvailableAt m) = t_wall (e_now (pt_env (tt_B tt))) ∨ t_wall (AvailableAt m) = t_wall (e_now (pt_env (tt_D tt)))) [m1; m2; mA]
    ∧ t_wall (AvailableAt mE) = matures (tt_E tt) ∧ t_wall (AvailableAt mC) = matures (tt_C tt).
Proof.
  intros Hmode Hs [_ SA PA _ CA AA] [_ SB PB _ CB AB] [_ SC PC _ CC AC] [_ SD PD _ CD AD] [_ SE PE _ CE AE] Hm.
  injection Hs as TA TB TC TD TE. unfold matures. rewrite TA, TB, TC, TD, TE in *. cbn [t_DelaySeconds t_Priority] in *.
  rewrite !Forall2_cons in Hm. destruct Hm as (MA & MB & MC & MD & ME & _).
  assert (∀ l : list nat, l ∈ [[1; 3; 0; 4; 2]; [3; 1; 0; 4; 2]]%nat → [4; 3; 2; 1; 0]%nat ≡ₚ l) as Hperm.
  { intros l Hl. apply NoDup_Permutation; [by apply (bool_decide_unpack _)|..];
      repeat (apply elem_of_cons in Hl as [->|Hl]); try by apply elem_of_nil in Hl.
    all: first [by apply (bool_decide_unpack _) | set_solver]. }
  pose proof (λ l Hl, fmap_Permutation (λ i, nth i [mA; mB; mC; mD; mE] mA) _ _ (Hperm l Hl)) as Hp. cbn in Hp.
  pose proof (Hp [1; 3; 0; 4; 2]%nat ltac:(by left)) as P1. pose proof (Hp [3; 1; 0; 4; 2]%nat ltac:(by right; left)) as P2. cbn in P1, P2.
  clear Hp Hperm. apply Valid_iff in Hmode as [-> | ->]; [exists mB, mD, 1%nat, 3%nat|exists mD, mB, 3%nat, 1%nat]; (split; [done|]);
    (split; [first [exact P1 | exact P2]|]); unfold msg_less, msg_key, lex_lt; rewrite SA, SB, SD, PA, PB, PD, !Forall2_cons, !Forall_cons;
    cbn [length script bool_decide]; split_and!; try done; try lia.
  all: first [rewrite bool_decide_eq_false_2 by done; lia | rewrite bool_decide_eq_true_2 by done; lia].
Qed.

Lemma holds_valid off last mode k l st : holds off last mode k l st → Valid mode = true.
Proof. intros [(es & bs & [Hi _]) <- _ _ _ _ _]. exact (wf_mode _ _ (ServiceFacts.inv_wf _ _ _ _ _ Hi)). Qed.

(** The clock readings of the burst come before that of the prediction. *)
Lemma burst_before_prediction off last tt : healthy_all off last (tt_envs tt) →
  healthy off last (tt_before tt) ∧ healthy_all off (t_wall (e_now (tt_before tt))) (pt_env <$> tt_jobs tt)
  ∧ healthy off (t_wall (e_now (pt_env (tt_E tt)))) (tt_after tt)
  ∧ healthy_all off (t_wall (e_now (tt_after tt))) (tt_polls tt).*1
  ∧ Forall (λ j, t_wall (e_now (pt_env j)) <= t_wall (e_now (tt_after tt))) (tt_jobs tt)
  ∧ plausible (e_now (pt_env (tt_C tt))).
Proof.
  intros He. unfold tt_envs, tt_jobs in *. csimpl in He. cbn [healthy_all] in He.
  destruct He as (H0 & HA & HB & HC & HD & HE & H1 & Hp).
  pose proof (hl_forward _ _ _ HA). pose proof (hl_forward _ _ _ HB). pose proof (hl_forward _ _ _ HC).
  pose proof (hl_forward _ _ _ HD). pose proof (hl_forward _ _ _ HE). pose proof (hl_forward _ _ _ H1).
  csimpl. cbn [healthy_all]. split_and!; try done; try apply Hp; first [apply HC | repeat constructor; lia].
Qed.

Section run.
Context (q : string → string) (consoleHTML : bytes) (base : string) (useColor : bool) (off last : Z) (mode : QueueMode) (tt : Timetable).
#[local] Instance run_client : HttpClient world := net_client q consoleHTML base.

(** From the burst on: what the client predicts, and how its loop ends. *)
Lemma burst_to_end before_loop start st :
  holds off (t_wall (e_now (tt_before tt))) mode 6 [] st → on_time off last before_loop tt →
  ∃ printed wk v st1 st2, burst useColor base script 0 (MkWorker ∅ ∅ [] [])
      ((pt_env <$> tt_jobs tt) ++ tt_after tt :: (tt_polls tt).*1, Some st) =
      (printed, None, wk, (tt_after tt :: (tt_polls tt).*1, Some st1))
    ∧ getSnapshot base (tt_after tt :: (tt_polls tt).*1, Some st1) = (Ok v, ((tt_polls tt).*1, Some st2))
    ∧ predictLabels v (w_mem wk) (w_mine wk) = Some (labels_of (order_of mode))
    ∧ finished script (w_mine wk) (order_of mode)
        (workerLoop useColor base before_loop start (tt_polls tt).*2 script wk ((tt_polls tt).*1, Some st2)).
Proof.
  intros Hh [He Hs Hids Hnd Hburst Hpred Hfirst Hinv Hsec Hstr Hdl Hdone Hidle].
  pose proof (holds_valid _ _ _ _ _ _ Hh) as Hmode.
  destruct (burst_before_prediction off last tt He) as (_ & Hej & He1 & Hep & Hbefore & Hpl).
  destruct (burst_posts q consoleHTML base useColor off mode (tt_jobs tt) 0 (MkWorker ∅ ∅ [] []) (tt_after tt :: (tt_polls tt).*1)
    (t_wall (e_now (tt_before tt))) 1 [] st (script_postings _ Hs Hids) Hnd) as (printed & ms & st1 & Hb & Hms & Hh1);
    [by intros ? ? ?%elem_of_nil|lia|exact Hh|exact Hej|]. rewrite Hs in Hb.
  destruct (hired_worker tt off _ ms Hs Hnd Hms) as (mA & mB & mC & mD & mE & -> & JA & JB & JC & JD & JE & Hw & Hsz & Hmine).
  set (wk := hire 0 _ _) in *.
  destruct (delivered_messages mode off _ tt mA mB mC mD mE _ Hmode Hs JA JB JC JD JE Hmine)
    as (m1 & m2 & r1 & r2 & Hord & Hperm & L12 & L13 & L23 & Hptr & Hcoh & Hdue & DE & DC).
  cbn [rev app] in Hh1. rewrite Hperm in Hh1.
  destruct (holds_snapshot off _ mode 1 _ st1 (tt_after tt) Hh1 ltac:(lia) He1) as (v & st2 & Hq & Hh2 & Hv & Hvm & Hnow & Hr & Hd & _).
  exists printed, wk, (wire_snapshot v), st1, st2. split; [exact Hb|]. split.
  { apply client_snapshot_gets; [exact Hq|exact Hv|by rewrite Hvm]. }
  set (t := e_now (tt_after tt)) in *.
  assert (Forall (λ m, t_wall (AvailableAt m) <= t_wall t) [m1; m2; mA]) as Hready.
  { unfold tt_jobs in Hbefore. rewrite !Forall_cons in Hbefore. eapply Forall_impl; [exact Hdue|]. intros m Hm. cbn in Hm. lia. }
  assert (coherent off t) as Hct by apply He1. destruct (hl_plausible _ _ _ He1) as [Hpt _], Hpl as [Hpc _].
  fold t in Hpt. split.
  - unfold predictLabels. erewrite (five_simulated off mode m1 m2 mA mE mC Hcoh (conj L12 (conj L13 L23)) v t);
      [|done|unfold wallToInternal, unixToInternal, Second in *; lia| |exact Hready|by rewrite DE|by rewrite DE, DC|done|done|by rewrite Hnow|exact Hr|exact Hd].
    2: { rewrite DC. unfold matures. injection Hs as _ _ -> _ _. cbn [t_DelaySeconds]. unfold Second in *. lia. }
    f_equal. eapply (predicted_labels _ _ []); [exact Hw|]. rewrite Hord. apply Forall2_fmap_l.
    eapply Forall2_impl; [exact Hptr|]. intros m p [[Hm Hi] Hp]. split; [|done]. cbn [seen_message sim_item si_id]. by rewrite Hi.
  - unfold workerLoop. change (wrap_i64 (wrap_i64 (maxDelay script * Second) + 30 * Second)) with (38 * Second). rewrite Hord.
    assert (Forall2 (λ m p, w_mine wk !! ID m = Some p ∧ (p < length script)%nat) [m1; m2; mA; mE; mC] [r1; r2; 0; 4; 2]%nat) as Hjobs
      by (eapply Forall2_impl; [exact Hptr|]; intros m p [[? _] ?]; done).
    unfold tt_polls in *. rewrite !fmap_cons. rewrite !fmap_cons in Hep. apply Forall_app in Hfirst as [Hf1 Hf2]. cbn [healthy_all] in Hep.
    destruct Hep as (E1 & E2 & E3 & Hep). rewrite !Forall_cons in Hdl. destruct Hdl as (U1 & U2 & U3 & Hdl).
    eapply (first_polls off mode m1 m2 mA mE mC Hcoh (conj L12 (conj L13 L23)) q consoleHTML base useColor (w_mine wk) start _ r1 r2 0 4 2 Hjobs Hsz (finished script (w_mine wk) [r1; r2; 0; 4; 2]%nat));
      [exact Hw|exact Hh2|done|by split_and!|exact Hready| |by repeat constructor|].
    { eapply Forall_impl; [exact Hf1|]. intros p Hp. cbn in Hp. rewrite DE, DC. lia. }
    intros out wk' st' Hw' Hh'. unfold tt_rest in *.
    rewrite <- (app_nil_r (tt_wait1 tt ++ _).*1).
    eapply (last_polls off mode m1 m2 mA mE mC Hcoh (conj L12 (conj L13 L23)) q consoleHTML base useColor (w_mine wk) start (Add before_loop (38 * Second)) r1 r2 0 4 2 Hjobs Hsz);
      rewrite ?DE, ?DC; try done.
Qed.
End run.

(** C12: The checkout run, from the program's flags down to the bytes of the log.
    The client with its five jobs runs against a server on an empty queue, in
    either mode; nothing fails, and the clocks keep the timetable ([on_time]).
    Then the client predicts the order of the engine's rules (the two captures,
    oldest or newest first, the receipt, the inventory webhook, the Stripe
    webhook), receives the jobs in that order through JSON, HTTP, the service and
    its heaps, prints a table in which every row is ok, exits without an error,
    and leaves the queue empty. *)
Theorem checkout_run_passes (q : string → string) (consoleHTML : bytes) (base : string) (useColor : bool)
    (off last : Z) (mode : QueueMode) (tt : Timetable) (before_loop start : Time) (health : Env) (st : state) :
  let _ := net_client q consoleHTML base in
  holds off last mode 6 [] st → on_time off last before_loop tt →
  ∃ (out : list output) (envs : list Env) (st' : state),
    Client.run useColor base before_loop start (tt_polls tt).*2 (health :: tt_envs tt, Some st) = Finished out None (envs, Some st')
    ∧ Print (nl +:+ "Worker should process, in order: " +:+ bold useColor (Join (labels_of (order_of mode)) " -> ") +:+ nl) ∈ out
    ∧ Table (passed_rows mode) ∈ out ∧ held st'.1 = [].
Proof.
  intros client Hh Ht. pose proof (holds_valid _ _ _ _ _ _ Hh) as Hmode.
  destruct (burst_before_prediction off last tt (ot_healthy _ _ _ _ Ht)) as (He0 & _).
  destruct (holds_snapshot off last mode 6 [] st (tt_before tt) Hh ltac:(lia) He0) as (v0 & st0 & Hq0 & Hh0 & Hv0 & Hm0 & _).
  destruct (burst_to_end q consoleHTML base useColor off last mode tt before_loop start st0 Hh0 Ht)
    as (printed & wk & v & st1 & st2 & Hb & Hs & Hp & out & wk' & envs & st' & Hloop & Hw & Hempty).
  destruct (summary_passes useColor mode _ wk' Hmode Hw) as (actual & verdict & Hd & Hsum & Hok).
  eexists _, envs, st'. unfold Client.run, tt_envs.
  unfold client. rewrite client_checkHealth.
  rewrite (client_snapshot_gets q consoleHTML base (tt_before tt) _ st st0 v0 Hq0 Hv0) by (by rewrite Hm0).
  unfold run_client, burst_client, polls_client in *. rewrite Hb, Hs, Hp, Hloop, Hd, Hsum, Hok. cbn [negb].
  split; [reflexivity|]. rewrite !fmap_app, !elem_of_app. split; [|split; [|exact Hempty]].
  - left. right. by left.
  - right. right. do 2 right. by left.
Qed.

(** ** A run on time

    Both sides read one clock; the client polls every half second, from 0.7
    seconds on. *)
Module Sample.
Import ServiceTheorems.Sample.

Definition at_ms (ms : Z) : Time := MkTime (off + ms * Millisecond) (Some (ms * Millisecond)) 0.
Definition env_at (ms k : Z) : Env := MkEnv (at_ms ms) (Ok (block k)) (Wal.MkAppendIO (at_ms ms) None None) Wal.read_ok.
Definition job_at (p : nat) (ms k : Z) : posting :=
  MkPosting (default (MkTask "" 0 0 "") (script !! p)) (env_at ms k) (match newUUID (Ok (block k)) with Ok id => id | Err _ => "" end).
Definition poll_at (ms : Z) : poll := (env_at ms 0, MkTick (at_ms ms) (at_ms ms) (at_ms ms) (at_ms ms) (at_ms ms)).
Definition polls_from (ms : Z) (n : nat) : list poll := (λ i, poll_at (ms + 500 * Z.of_nat i)) <$> seq 0 n.

Definition timetable : Timetable := Eval vm_compute in
  MkTimetable (env_at 0 0) (job_at 0 100 10) (job_at 1 200 30) (job_at 2 300 50) (job_at 3 400 70) (job_at 4 500 90) (env_at 600 0)
    (poll_at 700) (poll_at 1200) (poll_at 1700) (polls_from 2200 5) (poll_at 4700) (polls_from 5200 7) (poll_at 8700) (polls_from 9200 4).

Lemma timetable_ok : on_time off off (at_ms 600) timetable.
Proof.
  split.
  - cbn [healthy_all tt_envs timetable tt_before tt_jobs].
    repeat (split; [split; [by vm_compute|solve_decision_vm|apply Z.leb_le; by vm_compute|by split_and!; vm_compute]|]). exact I.
  - by vm_compute.
  - repeat constructor; (eexists; split; [reflexivity|]; split; [split; [done|solve_decision_vm]|by vm_compute]).
  - solve_decision_vm.
  - by vm_compute.
  - by vm_compute.
  - solve_decision_vm.
  - by vm_compute.
  - solve_decision_vm.
  - by vm_compute.
  - solve_decision_vm.
  - by vm_compute.
  - solve_decision_vm.
Qed.

Lemma empty_queue : holds off off ModeFIFO 6 [] (c_svc c0, c_file c0).
Proof.
  destruct (ServiceTrace.started_good c0 c0_started) as [Hg He]. split.
  - exists [], []. exact Hg.
  - by vm_compute.
  - cbn [fst]. by rewrite He.
  - constructor.
  - by vm_compute.
  - by vm_compute.
  - by vm_compute.
Qed.
End Sample.

Lemma checkout_run_passes_witness :
  let _ := net_client ApiTheorems.Sample.quoted [] "http://127.0.0.1:8080" in
  ∃ (out : list output) (envs : list Env) (st' : state),
    Client.run false "http://127.0.0.1:8080" (Sample.at_ms 600) (Sample.at_ms 600) (tt_polls Sample.timetable).*2
      (Sample.env_at 0 0 :: tt_envs Sample.timetable, Some (c_svc ServiceTheorems.Sample.c0, c_file ServiceTheorems.Sample.c0))
      = Finished out None (envs, Some st')
    ∧ Print (nl +:+ "Worker should process, in order: " +:+ bold false "B -> D -> A -> E -> C" +:+ nl) ∈ out
    ∧ Table (passed_rows ModeFIFO) ∈ out ∧ held st'.1 = [].
Proof.
  exact (checkout_run_passes ApiTheorems.Sample.quoted [] "http://127.0.0.1:8080" false _ _ ModeFIFO Sample.timetable
    (Sample.at_ms 600) (Sample.at_ms 600) (Sample.env_at 0 0) _ Sample.empty_queue Sample.timetable_ok).
Defined.
