(* ===== verification/Server.v ===== *)
(** * [cmd/server]: the process

    Configuration from flags and environment, and [run]: open the queue on the
    log, serve requests until the listener fails or a signal arrives, close.
    Requests are served one after the other ([Requests] has them in parallel);
    what the listener, the signal and the file system do is an argument. *)

From S2P Require Import Prelude GoStrconv GoUtf8 GoFmt Model LogRecord GoHttp Api.
From S2P Require Wal Service.
From Stdlib Require Import Ascii.

Local Open Scope Z_scope.

(** [os.Getenv] is an argument. *)
Definition getenv (env : string → string) (key fallback : string) : string :=
  if negb (bool_decide (env key = "")) then env key else fallback.

Record config := MkConfig { port : string; mode : QueueMode; dataPath : string }.

(** The flags of the command line, those that are given. *)
Record Flags := MkFlags { fl_port : option string; fl_mode : option string; fl_data : option string }.

(** [parseConfig]; [upper_rune] is [unicode.ToUpper] above U+007F. *)
Definition parseConfig (upper_rune : bytes → bytes) (env : string → string) (fl : Flags) : result config :=
  let portStr := default (getenv env "PORT" "8080") (fl_port fl) in
  let modeStr := default (getenv env "QUEUE_MODE" ModeFIFO) (fl_mode fl) in
  let data := default (getenv env "DATA_PATH" "./data/queue.wal") (fl_data fl) in
  let portVal := TrimPrefix (TrimSpaceS portStr) ":" in
  if bool_decide (portVal = "") then Err (ErrNew "port must not be empty")
  else match ParseQueueMode (ToUpper upper_rune (TrimSpaceS modeStr)) with
  | Err err => Err err
  | Ok m => Ok (MkConfig portVal m data)
  end.

(** [errors.Join] of two errors. *)
Definition Join (a b : option error) : option error :=
  match a, b with
  | Some a, Some b => Some (ErrJoin a b)
  | Some a, None | None, Some a => Some a
  | None, None => None
  end.

Section run.
Context `{LogCodec} (q : string → string) (consoleHTML : bytes).

Abbreviation State := (Service.QueueService * Wal.File)%type.

(** The requests of a session, each with what the system does during it. *)
Fixpoint serve_all (calls : list (Env * Request)) (st : State) : list Response * option State :=
  match calls with
  | [] => ([], Some st)
  | (env, r) :: calls =>
      match ServeHTTP q consoleHTML env r st with
      | (resp, Some st) => let '(resps, st) := serve_all calls st in (resp :: resps, st)
      | (resp, None) => ([resp], None)
      end
  end.

(** How the wait ends: [ListenAndServe] returns, or a signal arrives and
    [Shutdown] returns. *)
Inductive ending :=
  | Listen (err : error)
  | Signal (shutdown : option error).

(** What the system does for [run]. *)
Record System := MkSystem {
  sy_mkdir : option error;          (** [os.MkdirAll] of the log's directory *)
  sy_open : option error;           (** [os.OpenFile] of the log *)
  sy_read : Wal.read_io;            (** the recovery *)
  sy_calls : list (Env * Request);
  sy_end : ending;
  sy_close : option error           (** closing the log *)
}.

(** The error of [run], the responses, and the service and the log at the end,
    if there was a service. *)
Record exit := MkExit {
  ex_err : option error;
  ex_responses : list Response;
  ex_state : option State
}.

(** [run]; [None] when the state after a panic is not known. *)
Definition run (cfg : result config) (sys : System) (f : Wal.File) : option exit :=
  match cfg with
  | Err err => Some (MkExit (Some err) [] None)
  | Ok cfg =>
      match sy_mkdir sys with
      | Some err => Some (MkExit (Some (ErrWrap "creating data directory" err)) [] None)
      | None =>
          match Service.NewQueueService (dataPath cfg) (mode cfg) (sy_open sys) (sy_read sys) f with
          | None => None
          | Some (Err err) => Some (MkExit (Some (ErrWrap "opening queue" err)) [] None)
          | Some (Ok svc) =>
              match serve_all (sy_calls sys) (svc, f) with
              | (_, None) => None
              | (resps, Some (svc, f)) =>
                  let '(closeErr, svc) := Service.Close (sy_close sys) svc in
                  let err :=
                    match sy_end sys with
                    | Listen err =>
                        if errors_Is err "http.ErrServerClosed" then closeErr
                        else Join (Some (ErrWrap "http server" err)) closeErr
                    | Signal httpErr => Join httpErr closeErr
                    end in
                  Some (MkExit err resps (Some (svc, f)))
              end
          end
      end
  end.
End run.
