(* ===== verification/ServerTheorems.v ===== *)
(** * What the server process guarantees

    A process that starts on the log of an earlier one serves its messages,
    answers every request, always closes the log, and leaves a log from which
    the next process recovers what it held. *)

From S2P Require Import Prelude GoTime GoStrconv GoUtf8 GoFmt GoJson GoTimeFormat Model Codec CodecFacts LogRecord.
From S2P Require Import GoJsonStream GoHttp Api ApiLaws ApiTheorems Server.
From S2P Require Wal Service ServiceFacts ServiceTrace ServiceTheorems.
From Stdlib Require Import Ascii.

Import ServiceFacts (held).
Import ServiceTrace (room, crash).

Local Open Scope Z_scope.

Section friendly.
Context {E St : Type} {Q : Queue E St} {L : QueueLaws Q} (q : string → string) (consoleHTML : bytes).

(** At each call the environment answers in a way the queue can live with. *)
Fixpoint friendly (calls : list (E * Request)) (st : St) : Prop :=
  match calls with
  | [] => queue_ok st
  | (env, r) :: calls => call_ok env st ∧ ∀ st', (ServeHTTP q consoleHTML env r st).2 = Some st' → friendly calls st'
  end.
End friendly.

(** Whatever the request, the handlers answer. *)
Lemma ServeHTTP_answers {E St : Type} {Q : Queue E St} {L : QueueLaws Q} q consoleHTML env r (st : St) :
  call_ok env st →
  ∃ resp st', ServeHTTP q consoleHTML env r st = (resp, Some st') ∧ queue_ok st' ∧ rs_status resp ∈ api_statuses.
Proof.
  intros Hc. unfold ServeHTTP. rewrite find_route_table.
  destruct (table_answered q consoleHTML env r st Hc) as [(resp & st' & -> & Hok & Hs) _].
  exists (send r resp), st'. split_and!; [done|done|unfold send; by case_decide].
Qed.

Lemma serve_all_answers q consoleHTML calls st : friendly q consoleHTML calls st →
  ∃ resps st', serve_all q consoleHTML calls st = (resps, Some st') ∧ service_ok st'
    ∧ length resps = length calls ∧ Forall (λ resp, rs_status resp ∈ api_statuses) resps.
Proof.
  revert st. induction calls as [|[env r] calls IH]; intros st; cbn [friendly serve_all].
  { intros Hok. exists [], st. by split_and!. }
  intros [Hc Hf]. destruct (ServeHTTP_answers q consoleHTML env r st Hc) as (resp & st1 & Hs & Hok & Hst).
  rewrite Hs in Hf |- *. destruct (IH st1 (Hf st1 eq_refl)) as (resps & st2 & -> & Hok2 & Hl & Hall).
  exists (resp :: resps), st2. split_and!; [done|done|cbn [length]; by rewrite Hl|by constructor].
Qed.

(** The next process holds what this one held. *)
Lemma reopen s f path mode : service_ok (s, f) → room s → Valid mode = true →
  ∃ s', Service.NewQueueService path mode None Wal.read_ok (crash f) = Some (Ok s') ∧ service_ok (s', crash f)
    ∧ wire_message <$> held s' ≡ₚ wire_message <$> held s.
Proof.
  intros (off & last & es & bs & Hg) Hrm Hmode.
  destruct (ServiceTrace.restart_moves (ServiceTrace.MkConfig off last s f) es bs off path mode Hg Hrm Hmode) as (s' & Hn & Hm).
  exists s'. split; [exact Hn|]. split.
  - destruct (ServiceTrace.mv_good _ _ _ _ _ _ Hm) as (de & db & Hg' & _). by exists off, last, (es ++ de), (bs ++ db).
  - symmetry. apply (ServiceTrace.mv_messages _ _ _ _ _ _ Hm).
Qed.

Lemma parseConfig_mode upper_rune env fl cfg : parseConfig upper_rune env fl = Ok cfg →
  Valid (mode cfg) = true ∧ port cfg ≠ "".
Proof.
  unfold parseConfig. case_bool_decide as Hp; [done|].
  destruct (ParseQueueMode _) as [m|] eqn:Em; [|done]. apply ParseQueueMode_Ok in Em as [_ Hv]. by intros [= <-].
Qed.

Lemma Close_ok close_err s f : service_ok (s, f) →
  ∃ w, Service.Close close_err s =
    (ErrWrap "closing WAL" <$> close_err, Service.MkService (Service.s_queue s) w (Service.s_seq s) true).
Proof.
  intros (off & last & es & bs & [Hi _]). unfold Service.Close, Wal.Close.
  pose proof (ServiceFacts.inv_closed _ _ _ _ _ Hi) as Hc. pose proof (ServiceFacts.inv_open _ _ _ _ _ Hi) as Ho.
  cbn [ServiceTrace.c_svc fst] in Hc, Ho. rewrite Hc, Ho. by eexists.
Qed.

Lemma Join_None a b : Join a b = None ↔ a = None ∧ b = None.
Proof. destruct a, b; cbn; naive_solver. Qed.

(** C11: A server process from start to exit.  With a configuration that is
    accepted, on the log as a crash of an earlier process left it, the queue
    opens with the messages that process held.  Whatever requests come, with an
    environment the queue can live with, each is answered; however the wait
    ends, [run] closes the queue and its error is that of the listener or the
    shutdown joined with that of the close; and the log left behind opens, in
    any mode and after a crash, with the messages held at the end. *)
Theorem server_process upper_rune env fl cfg q consoleHTML s0 f0 :
  parseConfig upper_rune env fl = Ok cfg → service_ok (s0, f0) → room s0 →
  ∃ s, Service.NewQueueService (dataPath cfg) (mode cfg) None Wal.read_ok (crash f0) = Some (Ok s)
    ∧ wire_message <$> held s ≡ₚ wire_message <$> held s0
    ∧ ∀ calls ended close_err, friendly q consoleHTML calls (s, crash f0) →
      ∃ err resps s1 f1,
        run q consoleHTML (Ok cfg) (MkSystem None None Wal.read_ok calls ended close_err) (crash f0) =
          Some (MkExit err resps (Some (s1, f1)))
        ∧ length resps = length calls ∧ Forall (λ resp, rs_status resp ∈ api_statuses) resps
        ∧ Service.s_closed s1 = true
        ∧ (err = None ↔ close_err = None ∧ match ended with
                                           | Listen e => errors_Is e "http.ErrServerClosed" = true
                                           | Signal httpErr => httpErr = None
                                           end)
        ∧ (room s1 → ∀ path mode, Valid mode = true →
            ∃ s2, Service.NewQueueService path mode None Wal.read_ok (crash f1) = Some (Ok s2)
              ∧ wire_message <$> held s2 ≡ₚ wire_message <$> held s1).
Proof.
  intros Hcfg%parseConfig_mode Hok Hrm. destruct Hcfg as [Hmode _].
  destruct (reopen s0 f0 (dataPath cfg) (mode cfg) Hok Hrm Hmode) as (s & Hn & Hok1 & Hh).
  exists s. split; [done|]. split; [done|]. intros calls ended close_err Hf.
  destruct (serve_all_answers q consoleHTML calls _ Hf) as (resps & [s1 f1] & Hs & Hok2 & Hl & Hall).
  unfold run. cbn [sy_mkdir sy_open sy_read sy_calls sy_end sy_close]. rewrite Hn, Hs.
  destruct (Close_ok close_err s1 f1 Hok2) as [w ->].
  eexists _, resps, _, f1. split; [reflexivity|]. split_and!; [done|done|done| |].
  - destruct ended as [e|httpErr]; [destruct (errors_Is e _)|]; rewrite ?Join_None, ?fmap_None; naive_solver.
  - intros [Hr1 Hr2 Hr3] path mode' Hmode'.
    destruct (reopen s1 f1 path mode' Hok2) as (s2 & Hn2 & _ & Hh2); [by split|done|].
    by exists s2.
Qed.

Module Sample.
Import ServiceTheorems.Sample.

Definition no_rune (l : bytes) : bytes := l.
Definition no_env (key : string) : string := "".
Definition flags : Flags := MkFlags (Some " :9090 ") (Some "lifo ") None.
Definition settings : config := MkConfig "9090" "LIFO" "./data/queue.wal".

(** The service that opens what the two enqueues of [c2] left. *)
Definition service : Service.QueueService :=
  Eval vm_compute in
    match Service.NewQueueService "./data/queue.wal" "LIFO" None Wal.read_ok (crash (ServiceTrace.c_file c2)) with
    | Some (Ok s) => s
    | _ => ServiceTrace.c_svc c2
    end.

Lemma service_opens :
  Service.NewQueueService "./data/queue.wal" "LIFO" None Wal.read_ok (crash (ServiceTrace.c_file c2)) = Some (Ok service).
Proof. vm_compute. reflexivity. Qed.

Definition reopened : ServiceTrace.Config := ServiceTrace.MkConfig (ServiceTrace.c_off c2) (ServiceTrace.c_last c2) service (crash (ServiceTrace.c_file c2)).

Lemma reopened_good : ∃ es bs, ServiceTrace.good reopened es bs.
Proof.
  destruct (ServiceTheorems.reachable_good _ c2_reachable) as (es & bs & Hg).
  assert (ServiceTrace.step c2 [] [] reopened) as Hs by (eapply ServiceTrace.step_restart; [solve_room|exact service_opens]).
  destruct (ServiceTrace.mv_good _ _ _ _ _ _ (ServiceTrace.step_moves _ _ _ _ _ _ Hg Hs)) as (de & db & Hg' & _). by eexists _, _.
Qed.

(** A consumer asks for a message. *)
Definition calls : list (Env * Request) :=
  [(ApiTheorems.Sample.env, MkRequest "POST" "/dequeue" [] ApiTheorems.Sample.no_body)].

Lemma calls_friendly : friendly ApiTheorems.Sample.quoted [] calls (service, crash (ServiceTrace.c_file c2)).
Proof.
  assert (call_ok ApiTheorems.Sample.env (service, crash (ServiceTrace.c_file c2))) as Hc.
  { change (service_call_ok ApiTheorems.Sample.env (service, crash (ServiceTrace.c_file c2))). destruct reopened_good as (es & bs & Hg). exists (ServiceTrace.c_off c2), (ServiceTrace.c_last c2), es, bs. split; [exact Hg|]. split.
    - solve_clock.
    - solve_room.
    - left. solve_carried_out.
    - split; [done|solve_decision_vm].
    - intros id Hid. vm_compute in Hid. injection Hid as <-. solve_decision_vm.
    - intros m Hm. change (m ∈ held service) in Hm. compute_held Hm.
      repeat (apply elem_of_cons in Hm as [->|Hm]; [solve_readable|]). inversion Hm.
    - by vm_compute. }
  split; [exact Hc|]. intros st' Hs. cbn [friendly].
  destruct (ServeHTTP_answers ApiTheorems.Sample.quoted [] _ (MkRequest "POST" "/dequeue" [] ApiTheorems.Sample.no_body) _ Hc)
    as (resp & st1 & Hs1 & Hok & _).
  rewrite Hs1 in Hs. by injection Hs as <-.
Qed.
End Sample.

Lemma server_process_witness : ∃ resp s1 f1,
  run ApiTheorems.Sample.quoted [] (Ok Sample.settings)
    (MkSystem None None Wal.read_ok Sample.calls (Signal None) None) (crash ApiTheorems.Sample.st.2) =
    Some (MkExit None [resp] (Some (s1, f1)))
  ∧ rs_status resp ∈ api_statuses
  ∧ Service.s_closed s1 = true.
Proof.
  assert (parseConfig Sample.no_rune Sample.no_env Sample.flags = Ok Sample.settings) as Hcfg by (vm_compute; reflexivity).
  assert (service_ok ApiTheorems.Sample.st) as Hok by apply call_queue_ok with (1 := ApiTheorems.Sample.st_call).
  destruct (server_process Sample.no_rune Sample.no_env Sample.flags _ ApiTheorems.Sample.quoted []
    ApiTheorems.Sample.st.1 ApiTheorems.Sample.st.2 Hcfg Hok ltac:(split; by vm_compute)) as (s & Hn & _ & Hrun).
  assert (s = Sample.service) as ->.
  { pose proof Sample.service_opens as Ho.
    change (Service.NewQueueService "./data/queue.wal" "LIFO" None Wal.read_ok (crash ApiTheorems.Sample.st.2) = Some (Ok s)) in Hn.
    change (crash ApiTheorems.Sample.st.2) with (crash (ServiceTrace.c_file ServiceTheorems.Sample.c2)) in Hn.
    rewrite Ho in Hn. by injection Hn as <-. }
  destruct (Hrun Sample.calls (Signal None) None Sample.calls_friendly) as (err & resps & s1 & f1 & Hr & Hl & Hall & Hcl & He & _).
  destruct resps as [|resp [|]]; [discriminate Hl| |discriminate Hl]. apply Forall_cons in Hall as [Hst _].
  pose proof (proj2 He (conj eq_refl eq_refl)) as ->.
  exists resp, s1, f1. split; [exact Hr|]. split; [exact Hst|exact Hcl].
Defined.
