(* ===== verification/Sandbox.v ===== *)
(** * [sandbox.go]: the demonstration of the engine

    src/sandbox.go is a command of its own: it pushes one message with a delay of
    five seconds, pops at once and pops again six seconds later, on a clock it
    moves by hand.  [main] is the list of what it prints; [None] is a panic. *)

From S2P Require Import Prelude GoTime GoSort GoStrconv GoUtf8 GoTimeFormat Model Engine EngineSpec EngineRefine.
From Stdlib Require Import Ascii.

Local Open Scope Z_scope.

(** [t.Format("15:04:05")]. *)
Definition clock_time (t : Time) : string :=
  let c := civil t in
  of_bytes (pad 2 (c_hour c) ++ ":"%char :: pad 2 (c_min c) ++ ":"%char :: pad 2 (c_sec c)).

Definition line (s : string) : string := s +:+ String "010" "".

Definition message (realNow : Time) : Message :=
  MkMessage "msg-123" 0 "Hello from the future!" 1 realNow (Add realNow (5 * Second)) "".

Definition main (realNow : Time) : option (list string) :=
  match NewFrankensteinQueue ModeFIFO with
  | Err _ => None
  | Ok q =>
      let msg := message realNow in
      q ← Push q msg;
      '(popped, q) ← Pop q realNow;
      let futureTime := Add realNow (6 * Second) in
      '(poppedMsg, q) ← Pop q futureTime;
      Some ([line "--- Starting Frankenstein Engine Sandbox ---";
             line ("[0s] Pushing message. It becomes available at: " +:+ clock_time (AvailableAt msg))]
        ++ match popped with
           | None => [line "[0s] Attempted to Pop immediately: FAILED (Message is still invisible due to delay)."]
           | Some _ => []
           end
        ++ [line (String "010" "... Simulating 6 seconds passing ...")]
        ++ [match poppedMsg with
            | Some m => line ("[+6s] Attempted to Pop: SUCCESS! Retrieved payload: '" +:+ Payload m +:+ "'")
            | None => line "[+6s] Attempted to Pop: FAILED (Something is wrong with the engine logic)."
            end])
  end.

(** ** What it shows *)

Lemma a_pop_hidden mode m n now : Available m now = false →
  a_pop now (MkAQueue mode [] [(m, n)] 1) = (None, MkAQueue mode [] [(m, n)] 1).
Proof.
  intros Hm. unfold a_pop, a_promote. cbn [a_ready a_delayed a_mode a_next app].
  rewrite filter_cons_False by (unfold matured; cbn; by rewrite Hm).
  rewrite filter_cons_True by (unfold matured; cbn; by rewrite Hm). done.
Qed.

Lemma a_pop_due mode m n now : Available m now = true →
  (a_pop now (MkAQueue mode [] [(m, n)] 1)).1 = Some m.
Proof.
  intros Hm. unfold a_pop, a_promote. cbn [a_ready a_delayed a_mode a_next app].
  rewrite filter_cons_True by done. done.
Qed.

(** At whatever time it is started, the demonstration shows the delay at
    work: the first pop finds nothing, the second one, six seconds later, the
    message, and the process does not panic. *)
Theorem sandbox_shows_the_delay (off : Z) (realNow : Time) :
  coherent off realNow → plausible realNow →
  main realNow = Some
    [line "--- Starting Frankenstein Engine Sandbox ---";
     line ("[0s] Pushing message. It becomes available at: " +:+ clock_time (Add realNow (5 * Second)));
     line "[0s] Attempted to Pop immediately: FAILED (Message is still invisible due to delay).";
     line (String "010" "... Simulating 6 seconds passing ...");
     line "[+6s] Attempted to Pop: SUCCESS! Retrieved payload: 'Hello from the future!'"].
Proof.
  intros Hc Hp. set (msg := message realNow).
  assert (∀ d, 0 <= d <= 6 → coherent off (Add realNow (d * Second)) ∧ t_wall (Add realNow (d * Second)) = t_wall realNow + d * Second)
    as Hadd.
  { intros d Hd. assert (0 <= d * Second <= 331128000 * Second) by (unfold Second; lia).
    split; [by apply Add_coherent|]. by rewrite Add_plausible. }
  destruct (Hadd 5 ltac:(lia)) as [Hc5 Hw5], (Hadd 6 ltac:(lia)) as [Hc6 Hw6].
  assert (Available msg realNow = false) as H0.
  { rewrite (Available_coherent off) by done. unfold msg, message. cbn [AvailableAt]. rewrite Hw5. unfold Second. lia. }
  assert (Available msg (Add realNow (6 * Second)) = true) as H6.
  { rewrite (Available_coherent off) by done. unfold msg, message. cbn [AvailableAt]. rewrite Hw5, Hw6. unfold Second. lia. }
  destruct (New_ok off ModeFIFO eq_refl) as (q & Hq & Hwf & Ha). unfold main. rewrite Hq. fold msg.
  assert (q_nextOrder q = 0) as Hn by exact (f_equal a_next Ha).
  destruct (Push_ok off q msg Hwf Hc5) as (q1 & -> & Hwf1 & Ha1); [lia|]. rewrite Ha in Ha1. cbn [mbind option_bind].
  change (a_push msg (MkAQueue ModeFIFO [] [] 0)) with (MkAQueue ModeFIFO [] [(msg, 0)] 1) in Ha1.
  destruct (Pop_ok off q1 realNow Hwf1 Hc) as (r2 & q2 & -> & Hwf2 & Hr2). cbn [mbind option_bind].
  rewrite Ha1, a_pop_hidden in Hr2 by done.
  pose proof (f_equal fst Hr2) as Er2. pose proof (f_equal snd Hr2) as Ha2. cbn [fst snd] in Er2, Ha2. subst r2.
  destruct (Pop_ok off q2 (Add realNow (6 * Second)) Hwf2 Hc6) as (r3 & q3 & -> & _ & Hr3). cbn [mbind option_bind].
  pose proof (f_equal fst Hr3) as Hr. rewrite <- Ha2, (a_pop_due ModeFIFO msg 0) in Hr by done. cbn [fst] in Hr. by subst r3.
Qed.

Lemma sandbox_shows_the_delay_witness :
  main (MkTime (1700000000 * Second) (Some 0) 7200) = Some
    [line "--- Starting Frankenstein Engine Sandbox ---";
     line "[0s] Pushing message. It becomes available at: 00:13:25";
     line "[0s] Attempted to Pop immediately: FAILED (Message is still invisible due to delay).";
     line (String "010" "... Simulating 6 seconds passing ...");
     line "[+6s] Attempted to Pop: SUCCESS! Retrieved payload: 'Hello from the future!'"].
Proof.
  exact (sandbox_shows_the_delay (1700000000 * Second) (MkTime (1700000000 * Second) (Some 0) 7200)
    ltac:(apply (bool_decide_unpack _); vm_compute; exact I) ltac:(apply (bool_decide_unpack _); vm_compute; exact I)).
Defined.
